(* ===== verification/_CoqProject ===== *)
-Q . S2P
Prelude.v
Str.v
GoTime.v
Sha256.v
Json.v
Durations.v
JsonText.v
Base64.v
Rfc3339.v
Codec.v
Tx.v
Migrations.v
Domain.v
Rbac.v
Pricing.v
Invoices.v
Events.v
Metrics.v
Outbox.v
Store.v
Sandbox.v
MergeTree.v
EventLog.v
Housekeeper.v
Unidiff.v
Sse.v
Gateway.v
Scoring.v
Byok.v
Cloud.v
Lock.v
Workspace.v
Clients.v
AdminStore.v
AdminApi.v
AdminSafety.v
AdminFlows.v
Live.v
LiveBuses.v
Search.v
Indexer.v
Analytics.v
Dashboard.v
Commands.v
