(* ===== verification/Prelude.v ===== *)
(** * The ta-platform services: a verification library

    ta-platform runs technical interviews.  A company's members set tasks,
    interviews and invites up (the Admin API); a candidate exchanges an invite
    for a session and works in it (the Candidate Workspace: diffs, prompts to an
    AI assistant, runs in a sandbox); everything the candidate does is an event
    with a sequence number of its interview, written with the state change into
    an outbox table, relayed to Kafka, and read there by consumers: the event
    log writer (ClickHouse), the live monitor, the search indexer and the
    Scoring Service, which stores a score; a Housekeeper erases interviews past
    their retention, and a monthly run bills the companies.  All of it is Go,
    under src/internal/ and src/cmd/; the models below are of that code.

    ** Files

    Foundations: [Prelude] (errors, [result], [int64], uuids, stable sorting,
    hints), [Str] and [GoTime] and [Sha256] and [Base64] and [Durations] (the
    standard library's functions the services call), [Json], [JsonText],
    [Rfc3339] and [Codec] (encoding/json: decoding into structs, texts byte by
    byte, times, struct tags), [Tx] (statements, fault scripts, transactions,
    and the reasoning rules for them), [MergeTree] (ClickHouse's merging tables:
    parts, replacing and summing merges, materialized views' groups).

    Components, each with its sources under src/internal/:
    - [Domain], [Rbac]: domain/model.go; auth/auth.go, rbac/rbac.go.
    - [Events], [Outbox]: events/; outbox/outbox.go over any source of rows.
    - [Store]: store/postgres/ sessions.go, events.go, diffs.go, scores.go,
      outbox.go, interviews.go, companies.go - the tables ([Tables]) and the
      methods as transactions, with the Kafka log beside them ([World]).
    - [Pricing], [Invoices]: billing/; store/postgres/billing.go.
    - [Metrics], [Scoring]: scoring/metrics; scoring/ service.go,
      recommendation.go, consumer.go, clickhouse.go.
    - [Migrations]: store/postgres/migrations/migrations.go, the runner of the
      schema migrations; a script is a function on the schema.
    - [EventLog]: eventlogwriter/ and the [events] table (ReplacingMergeTree).
    - [Analytics]: analytics/schema.go - the views fed by the events table,
      their targets, the query views and [Migrate].
    - [Dashboard]: dashboard/ - the two summing views, the summaries, the routes.
    - [Live], [LiveBuses]: livemonitor/ and replay/ - the bus interface with its
      two implementations, the live stream, the timeline; what every bus with
      the interface's laws shows a viewer.
    - [Indexer]: eventindexer/ and store/typesense/; [Search]: search/.
    - [Housekeeper]: housekeeper/; store/postgres/housekeeper.go.
    - [Sandbox]: sandbox/ sandbox.go, service.go, container.go.
    - [Sse], [Gateway], [Byok]: sse/sse.go; aigateway/; aigateway/byok/.
    - [Unidiff], [Lock], [Workspace]: candidateworkspace/ and
      store/redis/lock.go; [Clients]: gatewayclient.go and sandboxclient.go
      with the handlers of aigateway/http.go and sandbox/service.go they call.
    - [AdminStore], [AdminApi], [AdminSafety], [AdminFlows]: adminapi/ and
      store/postgres/admin.go: the statements and methods, the handlers and
      routes, the invariants of one served request, and the invite and policy
      flows.
    - [Cloud]: aigateway/byok/aws.go and store/s3/s3.go over a vault of secrets
      and a bucket of objects.
    - [Commands]: platform/config/config.go and cmd/: the configuration of every
      process and the jobs billing-close, housekeeper and migrate.

    How they meet: [Store] writes the outbox rows [Outbox] relays to the Kafka
    log; [EventLog] turns the log into the rows that [Scoring], [Live],
    [Analytics] and [Dashboard] read; [Workspace] and [AdminApi] are the callers
    of [Store] and [AdminStore]; [Clients] joins [Workspace] to [Gateway] and
    [Sandbox] over a connection; [Commands] starts [Invoices], [Housekeeper] and
    [Migrations].

    ** Conventions

    A definition has the name of the Go function, method, type or field it
    translates; a lower-case name with underscores is a SQL statement, a piece
    of a function, or a part of the surroundings.  A struct field is prefixed
    with its type where two structs share it.  Strings are byte sequences
    ([string]); an [int64] is a [Z] whose arithmetic goes through [wrap64] where
    the code's can wrap; a [time.Time] is its nanosecond; JSON bytes are
    [RawMessage] ([None] is text that is not JSON).

    Effects are explicit.  A store method has type [M S A] ([Tx]): it takes a
    fault script and a state, and returns a result, the rest of the script and
    the state.  The script says of each statement whether it is executed,
    refused, or executed with its acknowledgement lost, and of a call that
    writes several items - a batch of Kafka messages or offsets, the files of a
    directory - which of them it leaves behind when it fails; it is universally
    quantified, so a theorem holds for every failure and every cancellation.
    The Kafka log lists the messages of all partitions: the order of two of them
    means something where they share a partition, as those of one key do.
    A transaction restores the database at an error and keeps what is outside
    it (class [Rollback]).  Histories of several operations, processes and
    failures are lists of steps folded over the state ([EventLog], [Store],
    [Housekeeper]) or inductive step relations ([Byok], [Lock], [Live]).

    Interfaces are type classes, with the client's theorems over the class and
    an instance per implementation: [Payload] (an event payload), [KafkaLog] (a
    state with a Kafka log), [HasWorld] (a state with the operational tables),
    [HasLocks], [Rollback], [KeyMemory] (what the gateway sees of key
    material; the BYOK resolver is an instance), [LiveBus] (Redis and memory),
    [Wire] (a value and its JSON text), [Combines] and [Semilattice] (what a
    merge of two rows needs), [ClickHouse] (its JSON and date functions).
    What lies outside the repository is a parameter with its documented laws:
    [UuidLib] (github.com/google/uuid), [Crypto] (KMS and AES-GCM), the
    container engine and the SDK stream (arbitrary inputs).  [BinUuid] and the
    witnesses' [Module]s are concrete instances of them.

    ** What the theorems show

    - Recording: an outbox message is in the outbox or in Kafka, and leaves the
      outbox only when its whole batch was written ([outbox_at_least_once]); envelopes survive the wire ([event_roundtrip]);
      [RecordEvents] is all or nothing; accepted diffs are in order; invites
      are exchanged once; a session is scored once.
    - The log: [log_projection] - through any failures and restarts the
      [events] table holds only the topic's rows and FINAL holds every committed
      one; [score_faithful], [committed_sessions_scored], [retries_end],
      [recommendation_advisory] for the scores computed from it;
      [Compute_order_independent] for the metrics.
    - Reading the log: [session_view_is_Compute] and [views_ignore_redelivery]
      for the analytics, [dashboards_show_the_events] and [timeline_guarded] for
      the dashboards, [index_projection] and [issued_key_confined] for search,
      [live_viewer_complete], [live_stream_faithful] and [redis_refines_memory]
      for the live monitor.
    - Schema: [migrations_in_step], [load_exact].
    - Outside stores: [vault_answers_honest] (the answers the key cache relies
      on), [objects_whole].
    - Processes: [services_configured]; [billing_close_exit], [housekeeper_exit]
      and [migrate_exit] say what an exit code of 0 stands for.
    - Billing: credits are never overspent, issued invoices never change, a
      closed month has the priced usage ([Invoices], [Pricing]).
    - Erasure: holds are respected and the backlog drains ([Housekeeper]).
    - Candidates: [token_opens_session], [Submit_records_first],
      [Run_recorded], [countUnifiedDiff_exact], [lock_exclusive];
      [Run_confined] for the containers of the sandbox.
    - Assistant: [Complete_records], [Stream_faithful], [sse_roundtrip],
      [gateway_call_faithful] end to end, and for company keys [cache_refines_store], [keys_stay_private],
      [completion_leaves_cache_only], [envelope_opens_for_its_company].
    - Members: [guarded_route], [tenants_isolated], [company_keeps_owner],
      [interview_marks_kept], [decisions_are_human],
      [invite_opens_interview], [policies_are_enforced].

    ** Conditions

    Where the code keeps its promise only under a condition, the theorem has
    the condition as a hypothesis and a worked example shows what happens
    without it:
    - [live_viewer_complete]: events reach the bus in the order of their
      numbers ([late_completion_never_shown] is one that does not), and the ring
      and the log still have what the viewer must be shown.
    - [redis_refines_memory]: sequence numbers a double holds, readers that keep
      up, connections that lose nothing; rings do expire.
    - [session_view_is_Compute], [views_ignore_redelivery]: a first [Migrate]
      without a fault and without inserts meanwhile ([failed_backfill_is_lost]).
    - [cache_refines_store]: calls that do not overlap ([joined_load_is_stale]).
    - [company_keeps_owner]: requests that do not overlap ([crossing_demotions]).
    - [migrations_in_step] assumes nothing of the scripts; what it says of a
      schema after [Down] where scripts are inverses is an implication.

    ** Bounds and fuel

    Loops without a bound of their own take the sequence of what happens to
    them (turns, answers, faults) as an argument and are structural on it; a
    theorem about them holds for every such sequence, so for every prefix of an
    endless run.  Fuel appears where a Go loop recurses on a measure: the
    scanner of [JsonText] (the length of the text, [enough_fuel]), the digits of
    [Json] (the bits of the number, [parse_render_nat]), [TrimSpace] and the
    blocks of [Sha256] (the length), the quantities of [Durations] (the length,
    [quantities_fuel]), the reader of [Sse] (the lines, [read_loop_feed]), the
    hunks of [Unidiff] (the lines, [countUnifiedDiff_exact]), the attempts of
    [Scoring] (MaxAttempts, [retries_end]), and the steps of one call of [Byok]
    (eight, [resolve_load]).

    ** Not modelled

    The generated HTTP server (apigen, which nothing mounts), the wiring of the
    [main] packages beyond what [Commands] says (opening clients, serving and
    shutting down HTTP, signals), logging and telemetry, the net/http mux, the
    TypeScript front ends, seeds and test helpers, the SQL of the migration
    scripts other than the constraints the statements can meet, and the clients
    of Kafka, Redis and ClickHouse and the AWS SDK themselves: they are wiring,
    generated, or libraries; the models take their effect at the interface the
    code gives them.  The deletes of a purge in ClickHouse are in [Housekeeper]
    and not in the histories of [Analytics] and [Dashboard].  Human-readable
    messages of errors are kept where a caller can test them and dropped in HTTP
    bodies.  Not modelled either: the retries inside the Kafka writer, which can
    write a message of one call twice, and a Redis pipeline's two commands
    running apart. *)
From stdpp Require Export base tactics option list list_numbers numbers gmap strings sorting.
From Stdlib Require Export ZArith Lia Ascii String.
From stdpp Require Export list.

#[global] Open Scope Z_scope.
#[global] Set Default Goal Selector "!".
#[global] Arguments Ascii.eqb : simpl never.
#[global] Arguments String.append !_ _ / : simpl nomatch.

(** ** Errors and results

    Go errors: a sentinel ([errors.New] at package level, compared by
    identity), a plain message, a message wrapping another error ([%w]), or a
    struct error type carrying a stable code and an inner error. *)
Inductive error :=
  | Sentinel (name : string)
  | Plain (msg : string)
  | Wrap (msg : string) (inner : error)
  | Typed (type code : string) (inner : error).

#[export] Instance error_eq_dec : EqDecision error.
Proof. solve_decision. Defined.

(** [errors.Is(e, target)]: the chain of [e] reaches [target]. *)
Fixpoint errors_is (e target : error) : bool :=
  bool_decide (e = target) ||
  match e with
  | Wrap _ inner | Typed _ _ inner => errors_is inner target
  | _ => false
  end.

(** [errors.As(e, *T)]: the code of the first error of type [ty] in the
    chain. *)
Fixpoint errors_as (ty : string) (e : error) : option string :=
  match e with
  | Typed ty' code inner =>
      if bool_decide (ty' = ty) then Some code else errors_as ty inner
  | Wrap _ inner => errors_as ty inner
  | _ => None
  end.

Definition context_Canceled := Sentinel "context.Canceled".
Definition context_DeadlineExceeded := Sentinel "context.DeadlineExceeded".

Inductive result (A : Type) :=
  | Ok (a : A)
  | Err (e : error).
Arguments Ok {A} _.
Arguments Err {A} _.

#[export] Instance result_ret : MRet result := @Ok.
#[export] Instance result_bind : MBind result := λ A B f m,
  match m with Ok a => f a | Err e => Err e end.
#[export] Instance result_fmap : FMap result := λ A B f m,
  match m with Ok a => Ok (f a) | Err e => Err e end.

#[export] Instance result_eq_dec {A} `{EqDecision A} : EqDecision (result A).
Proof. solve_decision. Defined.

(** [fmt.Errorf("msg: %w", err)] on the error of [m]. *)
Definition wrap_err {A} (msg : string) (m : result A) : result A :=
  match m with Ok a => Ok a | Err e => Err (Wrap msg e) end.

Definition is_ok {A} (m : result A) : bool :=
  match m with Ok _ => true | Err _ => false end.

Definition guard_err (b : bool) (e : error) : result () :=
  if b then Ok () else Err e.

Lemma bind_ok {A B} (f : A → result B) m b :
  m ≫= f = Ok b ↔ ∃ a, m = Ok a ∧ f a = Ok b.
Proof. destruct m; cbn; naive_solver. Qed.

Lemma bind_err {A B} (f : A → result B) m e :
  m ≫= f = Err e ↔ m = Err e ∨ ∃ a, m = Ok a ∧ f a = Err e.
Proof. destruct m; cbn; naive_solver. Qed.

Lemma wrap_err_ok {A} msg (m : result A) a : wrap_err msg m = Ok a ↔ m = Ok a.
Proof. destruct m; cbn; naive_solver. Qed.

Lemma guard_err_ok b e u : guard_err b e = Ok u ↔ b = true.
Proof. destruct b, u; cbn; naive_solver. Qed.

(** ** Machine integers

    Go's [int64] (and [int] on the 64-bit platforms the services run on) is a
    [Z] in [[-2^63, 2^63)]; arithmetic wraps. *)
Definition two63 : Z := 9223372036854775808.
Definition two64 : Z := 18446744073709551616.
Definition max_int64 : Z := 9223372036854775807.
Definition min_int64 : Z := -9223372036854775808.
Definition wrap64 (z : Z) : Z := (z + two63) mod two64 - two63.
Definition in_int64 (z : Z) : Prop := min_int64 ≤ z ≤ max_int64.
Definition add64 (a b : Z) : Z := wrap64 (a + b).
Definition sub64 (a b : Z) : Z := wrap64 (a - b).
Definition mul64 (a b : Z) : Z := wrap64 (a * b).

Lemma wrap64_id z : in_int64 z → wrap64 z = z.
Proof. unfold in_int64, wrap64, min_int64, max_int64, two63, two64. intros H. rewrite Z.mod_small; lia. Qed.

Lemma wrap64_range z : in_int64 (wrap64 z).
Proof.
  unfold in_int64, wrap64, min_int64, max_int64, two63, two64.
  pose proof (Z.mod_pos_bound (z + 9223372036854775808) 18446744073709551616 eq_refl). lia.
Qed.

Lemma wrap64_wrap64_add a b : wrap64 (wrap64 a + b) = wrap64 (a + b).
Proof.
  unfold wrap64. f_equal.
  replace ((a + two63) mod two64 - two63 + b + two63) with ((a + two63) mod two64 + b) by lia.
  rewrite Zplus_mod_idemp_l. f_equal. lia.
Qed.

Ltac unfold_int64 := unfold in_int64, min_int64, max_int64, two63, two64 in *.
Ltac int64_id := repeat (rewrite wrap64_id by (unfold_int64; nia)).

(** ** Automation *)

(** [results]: inverting a computation that succeeded; [int64]: values that
    stay in range. *)
Create HintDb results.
Create HintDb int64.
#[export] Hint Rewrite @bind_ok @wrap_err_ok @guard_err_ok : results.
#[export] Hint Resolve wrap64_range wrap64_id : int64.

(** Peel a chain of [result] binds off a hypothesis. *)
Ltac inv_bind :=
  repeat match goal with
  | H : _ ≫= _ = Ok _ |- _ => apply bind_ok in H as (? & ? & ?)
  | H : wrap_err _ _ = Ok _ |- _ => apply wrap_err_ok in H
  | H : guard_err _ _ = Ok _ |- _ => apply guard_err_ok in H
  | H : Ok _ = Ok _ |- _ => injection H as H
  | H : Ok _ = Err _ |- _ => discriminate H
  | H : Err _ = Ok _ |- _ => discriminate H
  | H : mret _ = Ok _ |- _ => cbn in H
  end.

(** Case split every [match]/[if] of the goal or a hypothesis. *)
Ltac split_match :=
  repeat (first [case_match | case_bool_decide]; simplify_eq/=).

Ltac bool_prop :=
  repeat match goal with
  | H : _ && _ = true |- _ => apply andb_true_iff in H as [? ?]
  | H : _ || _ = false |- _ => apply orb_false_iff in H as [? ?]
  | H : negb _ = true |- _ => apply negb_true_iff in H
  | H : negb _ = false |- _ => apply negb_false_iff in H
  | H : bool_decide _ = true |- _ => apply bool_decide_eq_true in H
  | H : bool_decide _ = false |- _ => apply bool_decide_eq_false in H
  | H : (_ <? _) = true |- _ => apply Z.ltb_lt in H
  | H : (_ <? _) = false |- _ => apply Z.ltb_ge in H
  | H : (_ <=? _) = true |- _ => apply Z.leb_le in H
  | H : (_ <=? _) = false |- _ => apply Z.leb_gt in H
  | H : (_ =? _) = true |- _ => apply Z.eqb_eq in H
  | H : (_ =? _) = false |- _ => apply Z.eqb_neq in H
  end.

(** ** UUIDs

    [uuid.UUID] is a 128-bit value; [uuid.Parse] and [UUID.String] belong to
    github.com/google/uuid and are parameters, with the documented law that a
    rendered UUID parses back to itself.  [uuid.Nil] is the zero value. *)
Definition UUID := N.
Definition uuid_Nil : UUID := 0%N.

Class UuidLib := {
  uuid_Parse : string → option UUID;
  uuid_String : UUID → string;
  uuid_Parse_String : ∀ u, uuid_Parse (uuid_String u) = Some u;
}.

Lemma uuid_String_inj `{UuidLib} u v : uuid_String u = uuid_String v → u = v.
Proof. intros E%(f_equal uuid_Parse). rewrite !uuid_Parse_String in E. congruence. Qed.

(** A concrete instance, used by the closed examples: binary digits, least
    significant first, one [x] for zero. *)
Module BinUuid.
Fixpoint render (p : positive) : string :=
  match p with
  | xH => "h"%string
  | xO p => String "0"%char (render p)
  | xI p => String "1"%char (render p)
  end.
Fixpoint parse (s : string) : option positive :=
  match s with
  | String "h"%char EmptyString => Some xH
  | String "0"%char s => xO <$> parse s
  | String "1"%char s => xI <$> parse s
  | _ => None
  end.
Lemma parse_render p : parse (render p) = Some p.
Proof. induction p as [p IH|p IH|]; cbn; [by rewrite IH..|done]. Qed.
Definition parse_uuid (s : string) : option UUID :=
  if bool_decide (s = "x"%string) then Some 0%N else Npos <$> parse s.
Definition render_uuid (u : UUID) : string :=
  match u with N0 => "x"%string | Npos p => render p end.
Lemma parse_render_uuid u : parse_uuid (render_uuid u) = Some u.
Proof.
  destruct u as [|p]; [done|]. unfold parse_uuid, render_uuid.
  rewrite parse_render. by destruct p.
Qed.
Definition lib : UuidLib :=
  {| uuid_Parse := parse_uuid; uuid_String := render_uuid;
     uuid_Parse_String := parse_render_uuid |}.
End BinUuid.

(** ** [List.filter] *)
Lemma filter_all_false {A} (p : A → bool) l : Forall (λ x, p x = false) l → List.filter p l = [].
Proof. induction 1 as [|x l E _ IH]; cbn; [done|]. by rewrite E. Qed.
Lemma filter_all_true {A} (p : A → bool) l : Forall (λ x, p x = true) l → List.filter p l = l.
Proof. induction 1 as [|x l E _ IH]; cbn; [done|]. by rewrite E, IH. Qed.
Lemma existsb_witness {A} (f : A → bool) l : existsb f l = true → ∃ x, x ∈ l ∧ f x = true.
Proof. intros (x & Hx & Hf)%existsb_exists. exists x. split; [by apply list_elem_of_In|done]. Qed.
Lemma elem_of_filter_bool {A} (p : A → bool) l x : x ∈ List.filter p l ↔ x ∈ l ∧ p x = true.
Proof. by rewrite !list_elem_of_In, filter_In. Qed.

(** ** Sorting

    Go's [sort.SliceStable] with a strict order [less]; [insert_stable] puts an
    element before the first one it is less than or equal to in position. *)
Section StableSort.
Context {A : Type} (less : A → A → bool).

Fixpoint insert_stable (x : A) (l : list A) : list A :=
  match l with
  | [] => [x]
  | y :: l' => if less y x then y :: insert_stable x l' else x :: l
  end.

Fixpoint sort_stable (l : list A) : list A :=
  match l with
  | [] => []
  | x :: l' => insert_stable x (sort_stable l')
  end.

Lemma insert_stable_perm x l : insert_stable x l ≡ₚ x :: l.
Proof.
  induction l as [|y l IH]; cbn; [done|]. destruct (less y x); [|done].
  rewrite IH. constructor.
Qed.

Lemma sort_stable_perm l : sort_stable l ≡ₚ l.
Proof. induction l as [|x l IH]; cbn; [done|]. by rewrite insert_stable_perm, IH. Qed.

(** Stability: elements no two of which are ordered keep their order. *)
Lemma sort_stable_filter (p : A → bool) l :
  (∀ x y, p x = true → p y = true → less x y = false) →
  List.filter p (sort_stable l) = List.filter p l.
Proof.
  intros Hp. assert (Hins : ∀ x l, List.filter p (insert_stable x l) = List.filter p (x :: l)).
  { intros x l'. induction l' as [|y l' IH]; cbn; [done|].
    destruct (less y x) eqn:E; [|done]. cbn in *. rewrite IH.
    destruct (p x) eqn:Ex, (p y) eqn:Ey; try done. by rewrite Hp in E. }
  induction l as [|x l IH]; cbn; [done|]. rewrite Hins. cbn. by rewrite IH.
Qed.

Definition not_less (x y : A) : Prop := less y x = false.

Hypothesis less_trans : ∀ x y z, not_less x y → not_less y z → not_less x z.
Hypothesis less_asym : ∀ x y, less x y = true → less y x = false.

Lemma insert_stable_sorted x l :
  StronglySorted not_less l → StronglySorted not_less (insert_stable x l).
Proof.
  induction 1 as [|y l Hl IH Hy]; cbn; [repeat constructor|].
  destruct (less y x) eqn:E.
  - constructor; [done|]. rewrite insert_stable_perm. constructor; [|done].
    by apply less_asym.
  - constructor; [by constructor|]. constructor; [done|].
    eapply Forall_impl; [exact Hy|]. eauto.
Qed.

Lemma sort_stable_sorted l : StronglySorted not_less (sort_stable l).
Proof. induction l; cbn; [constructor|]. by apply insert_stable_sorted. Qed.

(** Sorting a sorted list changes nothing. *)
Lemma sort_stable_id l : StronglySorted not_less l → sort_stable l = l.
Proof.
  induction 1 as [|x l Hl IH Hx]; cbn; [done|]. rewrite IH.
  destruct Hx as [|y l Hy _]; cbn; [done|]. by rewrite Hy.
Qed.
End StableSort.

(** A strict order on the elements leaves one way to sort them. *)
Lemma sort_stable_unique {A} (less : A → A → bool) l l' :
  (∀ x y z, not_less less x y → not_less less y z → not_less less x z) → (∀ x y, less x y = true → less y x = false) →
  (∀ x y, x ∈ l → y ∈ l → less x y = false → less y x = false → x = y) → l ≡ₚ l' → sort_stable less l = sort_stable less l'.
Proof.
  intros Ht Ha Hu Hp. apply (StronglySorted_unique_strong (not_less less)).
  - intros x y Hx Hy. rewrite sort_stable_perm in Hx. rewrite sort_stable_perm, <-Hp in Hy. intros ??. by apply Hu.
  - by apply sort_stable_sorted.
  - by apply sort_stable_sorted.
  - by rewrite !sort_stable_perm.
Qed.
