(* ===== verification/Str.v ===== *)
(** * Strings: the parts of Go's [strings] package the services use

    A Go string is a sequence of bytes; so is [string] here. *)
From S2P Require Import Prelude.

Definition len (s : string) : Z := Z.of_nat (String.length s).

Fixpoint has_prefix (p s : string) : bool :=
  match p, s with
  | EmptyString, _ => true
  | String a p, String b s => Ascii.eqb a b && has_prefix p s
  | _, _ => false
  end.

Fixpoint contains_char (c : ascii) (s : string) : bool :=
  match s with
  | EmptyString => false
  | String a s => Ascii.eqb a c || contains_char c s
  end.

Fixpoint contains_any (cs : list ascii) (s : string) : bool :=
  match s with
  | EmptyString => false
  | String a s => existsb (Ascii.eqb a) cs || contains_any cs s
  end.

(** [strings.Cut(s, sep)] for a one-byte separator. *)
Fixpoint cut (c : ascii) (s : string) : string * string * bool :=
  match s with
  | EmptyString => (EmptyString, EmptyString, false)
  | String a s' =>
      if Ascii.eqb a c then (EmptyString, s', true)
      else let '(b, r, ok) := cut c s' in (String a b, r, ok)
  end.

(** [strings.Split(s, sep)] for a one-byte separator: never empty. *)
Fixpoint split (c : ascii) (s : string) : list string :=
  match s with
  | EmptyString => [EmptyString]
  | String a s' =>
      if Ascii.eqb a c then EmptyString :: split c s'
      else match split c s' with
           | [] => [String a EmptyString]
           | l :: ls => String a l :: ls
           end
  end.

(** [strings.Join(l, sep)] for a one-byte separator. *)
Fixpoint join (c : ascii) (l : list string) : string :=
  match l with
  | [] => EmptyString
  | [s] => s
  | s :: l' => s +:+ String c (join c l')
  end.

(** [strings.TrimSuffix(s, "c")] for a one-byte suffix. *)
Fixpoint trim_suffix (c : ascii) (s : string) : string :=
  match s with
  | EmptyString => EmptyString
  | String a EmptyString => if Ascii.eqb a c then EmptyString else s
  | String a s' => String a (trim_suffix c s')
  end.

Definition byte_of (a : ascii) : Z := Z.of_nat (nat_of_ascii a).
Definition lower_byte (a : ascii) : ascii :=
  let b := byte_of a in
  if (65 <=? b) && (b <=? 90) then ascii_of_nat (Z.to_nat (b + 32)) else a.
Fixpoint to_lower (s : string) : string :=
  match s with
  | EmptyString => EmptyString
  | String a s => String (lower_byte a) (to_lower s)
  end.

Definition is_digit (a : ascii) : bool := let b := byte_of a in (48 <=? b) && (b <=? 57).
Definition digit_val (a : ascii) : Z := byte_of a - 48.

Definition LF : ascii := "010"%char.
Definition CR : ascii := "013"%char.
Definition NUL : ascii := "000"%char.

Lemma split_not_nil c s : split c s ≠ [].
Proof. destruct s as [|a s]; cbn; [done|]. by repeat case_match. Qed.

Lemma join_split c s : join c (split c s) = s.
Proof.
  induction s as [|a s IH]; cbn; [done|].
  pose proof (split_not_nil c s).
  destruct (Ascii.eqb a c) eqn:E.
  - apply Ascii.eqb_eq in E as ->.
    cbn. destruct (split c s); [done|]. by rewrite IH.
  - destruct (split c s) as [|l [|l' ls]]; [done| |]; cbn in *; by rewrite <-IH.
Qed.

Lemma split_no_sep c s : Forall (λ l, contains_char c l = false) (split c s).
Proof.
  induction s as [|a s IH]; cbn; [by constructor|].
  destruct (Ascii.eqb a c) eqn:E; [by constructor|].
  destruct (split c s) as [|l ls]; [by constructor; cbn; rewrite ?E|].
  inversion IH; subst. constructor; [|done]. cbn. by rewrite E.
Qed.

Lemma split_char_free c s : contains_char c s = false → split c s = [s].
Proof.
  induction s as [|a s IH]; cbn; [done|]. intros [E H]%orb_false_iff.
  rewrite E, IH by done. done.
Qed.

Lemma split_app_sep c s t :
  contains_char c s = false → split c (s +:+ String c t) = s :: split c t.
Proof.
  induction s as [|a s IH]; cbn; intros H. { by rewrite Ascii.eqb_refl. }
  apply orb_false_iff in H as [E H]. by rewrite E, IH.
Qed.

(** Splitting what was joined gives the parts back. *)
Lemma split_join c l :
  l ≠ [] → Forall (λ s, contains_char c s = false) l → split c (join c l) = l.
Proof.
  induction l as [|s l IH]; [done|]. intros _ Hl. inversion Hl; subst.
  destruct l as [|s' l]; [by apply split_char_free|].
  change (split c (s +:+ String c (join c (s' :: l))) = s :: s' :: l).
  rewrite split_app_sep by done. by rewrite IH.
Qed.

Lemma split_app c s t : split c (s +:+ String c t) = split c s ++ split c t.
Proof.
  induction s as [|a s IH]; cbn. { by rewrite Ascii.eqb_refl. }
  destruct (Ascii.eqb a c); [by rewrite IH|]. rewrite IH.
  pose proof (split_not_nil c s). by destruct (split c s).
Qed.

Lemma split_inj c s t : split c s = split c t → s = t.
Proof. intros H. by rewrite <-(join_split c s), <-(join_split c t), H. Qed.

Lemma append_nil_r s : s +:+ "" = s.
Proof. induction s; cbn; congruence. Qed.
Lemma append_assoc s t u : s +:+ (t +:+ u) = (s +:+ t) +:+ u.
Proof. induction s; cbn; congruence. Qed.

Lemma len_app s t : len (s +:+ t) = len s + len t.
Proof. unfold len. induction s as [|a s IH]; cbn -[Z.of_nat]; lia. Qed.

Definition concat_bytes (l : list string) : string := foldr String.append EmptyString l.

Lemma contains_char_app c s t : contains_char c (s +:+ t) = contains_char c s || contains_char c t.
Proof. induction s as [|a s IH]; cbn; [done|]. by rewrite IH, orb_assoc. Qed.

(** ** The order of bytes *)
Lemma ltb_asym x y : String.ltb x y = true → String.ltb y x = false.
Proof. unfold String.ltb. rewrite (String.compare_antisym x y). by destruct (String.compare y x). Qed.
Lemma ltb_le x y : String.ltb x y = false ↔ String.le y x.
Proof. unfold String.ltb, String.le, String.leb. rewrite (String.compare_antisym x y). by destruct (String.compare y x). Qed.
Lemma ltb_trans x y z : String.ltb x y = false → String.ltb y z = false → String.ltb x z = false.
Proof. rewrite !ltb_le. intros ??. by etrans. Qed.
Lemma ltb_antisym x y : String.ltb x y = false → String.ltb y x = false → x = y.
Proof. rewrite !ltb_le. intros ??. by apply (anti_symm String.le). Qed.

Lemma append_assoc3 (a b c : string) : (a +:+ b) +:+ c = a +:+ (b +:+ c).
Proof. induction a as [|x a IH]; [done|]. change (String x ((a +:+ b) +:+ c) = String x (a +:+ (b +:+ c))). by rewrite IH. Qed.
