(* ===== verification/GoTime.v ===== *)
(** * Time: instants, durations and the UTC calendar of Go's [time] package

    An instant is the number of nanoseconds since the Unix epoch; the zero
    [time.Time] is the first instant of year 1.  A [Duration] is an [int64] of
    nanoseconds.  The calendar is the proleptic Gregorian one, counted in days
    since 0001-01-01. *)
From S2P Require Import Prelude.

Definition time := Z.
Definition duration := Z.

Definition nanosecond : duration := 1.
Definition millisecond : duration := 1000000.
Definition second : duration := 1000000000.
Definition minute : duration := 60 * second.
Definition hour : duration := 60 * minute.
Definition day : duration := 24 * hour.

Definition zero_time : time := -62135596800 * second.

Definition is_zero (t : time) : bool := t =? zero_time.
Definition before (a b : time) : bool := a <? b.
Definition after (a b : time) : bool := b <? a.
Definition time_add (t : time) (d : duration) : time := t + d.

(** [t.Sub(u)] saturates at the bounds of [Duration]. *)
Definition time_sub (t u : time) : duration :=
  Z.max min_int64 (Z.min max_int64 (t - u)).

(** [d.Milliseconds()] truncates toward zero; [t.UnixMilli()] rounds down. *)
Definition milliseconds (d : duration) : Z := Z.quot d millisecond.
Definition unix_milli (t : time) : Z := t / millisecond.

(** ** Calendar *)
Definition leap (y : Z) : bool :=
  (y mod 4 =? 0) && (negb (y mod 100 =? 0) || (y mod 400 =? 0)).
Definition leap_day (y : Z) : Z := if leap y then 1 else 0.

(** Days from 0001-01-01 to the first of January of year [y]. *)
Definition days_before_year (y : Z) : Z :=
  365 * (y - 1) + (y - 1) / 4 - (y - 1) / 100 + (y - 1) / 400.

(** Days of year [y] before the first of month [m]. *)
Definition days_before_month (y m : Z) : Z :=
  if m <=? 1 then 0
  else leap_day y * (if m <=? 2 then 0 else 1) +
    nth (Z.to_nat (m - 1)) [0; 31; 59; 90; 120; 151; 181; 212; 243; 273; 304; 334; 365] 365.

Definition year_of_day (d : Z) : Z :=
  let y0 := 400 * d / 146097 in
  if days_before_year (y0 + 2) <=? d then y0 + 2
  else if days_before_year (y0 + 1) <=? d then y0 + 1
  else y0.

(** The greatest month of [1..12] that starts on or before day [yd]. *)
Fixpoint month_search (y yd : Z) (m : nat) : Z :=
  match m with
  | O => 1
  | S m' =>
      if days_before_month y (Z.of_nat m) <=? yd then Z.of_nat m
      else month_search y yd m'
  end.

Definition epoch_days : Z := 719162.

Definition day_number (t : time) : Z := t / day + epoch_days.
Definition year (t : time) : Z := year_of_day (day_number t).
Definition month (t : time) : Z :=
  let d := day_number t in
  let y := year_of_day d in
  month_search y (d - days_before_year y) 12.

(** [time.Date(y, m, 1, 0, 0, 0, 0, time.UTC)] for a month [m] of [1..12]. *)
Definition date_month (y m : Z) : time :=
  (days_before_year y + days_before_month y m - epoch_days) * day.

(** The month after [(y, m)]. *)
Definition next_month (y m : Z) : Z * Z :=
  if m =? 12 then (y + 1, 1) else (y, m + 1).

(** ** Calendar lemmas *)
Ltac euclid := Z.to_euclidean_division_equations; lia.

Lemma leap_day_bounds y : 0 ≤ leap_day y ≤ 1.
Proof. unfold leap_day. destruct (leap y); lia. Qed.

Lemma div_pred y k :
  0 < k → y / k = (y - 1) / k + (if y mod k =? 0 then 1 else 0).
Proof.
  intros Hk. destruct (y mod k =? 0) eqn:E; bool_prop.
  - pose proof (Z.div_mod y k ltac:(lia)).
    rewrite <-(Z.div_unique (y - 1) k (y / k - 1) (k - 1)); lia.
  - rewrite Z.add_0_r. pose proof (Z.div_mod y k ltac:(lia)).
    pose proof (Z.mod_pos_bound y k Hk).
    apply (Z.div_unique (y - 1) k (y / k) (y mod k - 1)); lia.
Qed.

Lemma leap_mod y :
  (y mod 400 = 0 → y mod 100 = 0) ∧ (y mod 100 = 0 → y mod 4 = 0).
Proof.
  split; intros [k ->]%Z.mod_divide; try done; apply Z.mod_divide; try done.
  - exists (k * 4). lia.
  - exists (k * 25). lia.
Qed.

Lemma days_before_year_succ y :
  days_before_year (y + 1) = days_before_year y + 365 + leap_day y.
Proof.
  unfold days_before_year, leap_day, leap. replace (y + 1 - 1) with y by lia.
  rewrite (div_pred y 4), (div_pred y 100), (div_pred y 400) by done.
  pose proof (leap_mod y).
  destruct (y mod 4 =? 0) eqn:E4, (y mod 100 =? 0) eqn:E100, (y mod 400 =? 0) eqn:E400;
    cbn [andb orb negb]; bool_prop; lia.
Qed.

Lemma days_before_year_mono a b : a ≤ b → days_before_year a ≤ days_before_year b.
Proof.
  intros Hab. replace b with (a + Z.of_nat (Z.to_nat (b - a))) by lia.
  induction (Z.to_nat (b - a)) as [|n IH]; [by rewrite Z.add_0_r|].
  replace (a + Z.of_nat (S n)) with (a + Z.of_nat n + 1) by lia.
  rewrite days_before_year_succ. pose proof (leap_day_bounds (a + Z.of_nat n)). lia.
Qed.

Lemma year_of_day_spec d :
  days_before_year (year_of_day d) ≤ d < days_before_year (year_of_day d + 1).
Proof.
  unfold year_of_day.
  destruct (_ <=? d) eqn:E2; [|destruct (days_before_year (_ + 1) <=? d) eqn:E1]; bool_prop.
  - split; [done|]. unfold days_before_year in *. euclid.
  - split; [done|]. replace (400 * d / 146097 + 1 + 1) with (400 * d / 146097 + 2) by lia. done.
  - split; [|done]. unfold days_before_year in *. euclid.
Qed.

Lemma year_unique d y :
  days_before_year y ≤ d < days_before_year (y + 1) → year_of_day d = y.
Proof.
  intros H. pose proof (year_of_day_spec d) as H'.
  destruct (Z.lt_trichotomy (year_of_day d) y) as [Hlt|[|Hlt]]; [|done|].
  - pose proof (days_before_year_mono (year_of_day d + 1) y). lia.
  - pose proof (days_before_year_mono (y + 1) (year_of_day d)). lia.
Qed.

Lemma days_before_month_succ y m :
  1 ≤ m ≤ 12 → days_before_month y m < days_before_month y (m + 1).
Proof.
  intros Hr.
  assert (m = 1 ∨ m = 2 ∨ m = 3 ∨ m = 4 ∨ m = 5 ∨ m = 6 ∨
    m = 7 ∨ m = 8 ∨ m = 9 ∨ m = 10 ∨ m = 11 ∨ m = 12) as Hm by lia.
  unfold days_before_month, leap_day.
  destruct (leap y); destruct_or! Hm; subst; vm_compute; done.
Qed.

Lemma days_before_month_mono y a b :
  1 ≤ a → a ≤ b → b ≤ 13 → days_before_month y a ≤ days_before_month y b.
Proof.
  intros Ha Hab. replace b with (a + Z.of_nat (Z.to_nat (b - a))) by lia.
  induction (Z.to_nat (b - a)) as [|n IH]; intros Hb; [by rewrite Z.add_0_r|].
  pose proof (days_before_month_succ y (a + Z.of_nat n)).
  replace (a + Z.of_nat (S n)) with (a + Z.of_nat n + 1) in * by lia. lia.
Qed.

Lemma days_before_month_1 y : days_before_month y 1 = 0.
Proof. done. Qed.

Lemma days_before_month_13 y : days_before_month y 13 = 365 + leap_day y.
Proof. unfold days_before_month, leap_day. by destruct (leap y). Qed.

Lemma month_search_spec y yd m :
  (m ≤ 12)%nat → 0 ≤ yd < days_before_month y (Z.of_nat m + 1) →
  1 ≤ month_search y yd m ≤ Z.max 1 (Z.of_nat m) ∧
  days_before_month y (month_search y yd m) ≤ yd
    < days_before_month y (month_search y yd m + 1).
Proof.
  induction m as [|m IH]; intros Hm H; cbn [month_search].
  - change (Z.of_nat 0 + 1) with 1 in H. rewrite days_before_month_1 in H. lia.
  - destruct (_ <=? yd) eqn:E; bool_prop; [lia|].
    replace (Z.of_nat (S m)) with (Z.of_nat m + 1) in E by lia.
    destruct IH as [??]; [lia|lia|]. split; [lia|done].
Qed.

Lemma month_range t : 1 ≤ month t ≤ 12.
Proof.
  unfold month. pose proof (year_of_day_spec (day_number t)) as H.
  rewrite days_before_year_succ in H.
  destruct (month_search_spec (year_of_day (day_number t))
    (day_number t - days_before_year (year_of_day (day_number t))) 12); [lia| |lia].
  change (Z.of_nat 12 + 1) with 13. rewrite days_before_month_13. lia.
Qed.

Lemma date_month_next y m :
  1 ≤ m ≤ 12 →
  let '(y', m') := next_month y m in
  date_month y' m' = (days_before_year y + days_before_month y (m + 1) - epoch_days) * day.
Proof.
  intros Hm. unfold next_month. destruct (m =? 12) eqn:E; bool_prop; [subst|done].
  unfold date_month. rewrite days_before_year_succ, days_before_month_1.
  change (12 + 1) with 13. rewrite days_before_month_13. lia.
Qed.

(** Every instant lies in exactly the month the calendar gives it. *)
Lemma month_bounds t :
  date_month (year t) (month t) ≤ t ∧
  let '(y', m') := next_month (year t) (month t) in t < date_month y' m'.
Proof.
  pose proof (date_month_next (year t) (month t) (month_range t)) as Hn.
  pose proof (year_of_day_spec (day_number t)) as Hy.
  rewrite days_before_year_succ in Hy.
  destruct (month_search_spec (year_of_day (day_number t))
    (day_number t - days_before_year (year_of_day (day_number t))) 12) as [Hr Hm]; [lia| |].
  { change (Z.of_nat 12 + 1) with 13. rewrite days_before_month_13. lia. }
  destruct (next_month _ _) as [y' m']. rewrite Hn.
  unfold date_month, month, year in *.
  set (d := day_number t) in *. set (y := year_of_day d) in *.
  set (m := month_search y (d - days_before_year y) 12) in *.
  assert (t / day = d - epoch_days) as Ht by (unfold d, day_number; lia).
  pose proof (Z.div_mod t day) as Hdm. pose proof (Z.mod_pos_bound t day) as Hb.
  change day with 86400000000000 in *. lia.
Qed.

(** An instant inside a month's bounds belongs to that month. *)
Lemma month_unique y m t :
  1 ≤ m ≤ 12 →
  date_month y m ≤ t → (let '(y', m') := next_month y m in t < date_month y' m') →
  year t = y ∧ month t = m.
Proof.
  intros Hm Hlo Hhi. pose proof (date_month_next y m Hm) as Hn.
  destruct (next_month y m) as [y' m']. rewrite Hn in Hhi. unfold date_month in Hlo.
  set (d := day_number t).
  assert (Hd : days_before_year y + days_before_month y m ≤ d
    < days_before_year y + days_before_month y (m + 1)).
  { subst d. unfold day_number. pose proof (Z.div_mod t day). pose proof (Z.mod_pos_bound t day).
    change day with 86400000000000 in *. lia. }
  pose proof (days_before_month_mono y 1 m ltac:(lia) ltac:(lia) ltac:(lia)) as Hm1.
  pose proof (days_before_month_mono y (m + 1) 13 ltac:(lia) ltac:(lia) ltac:(lia)) as Hm2.
  rewrite days_before_month_1 in Hm1. rewrite days_before_month_13 in Hm2.
  assert (Hy : year t = y).
  { unfold year. apply year_unique. rewrite days_before_year_succ. fold d. lia. }
  split; [done|]. unfold month. unfold year in Hy. rewrite Hy. fold d.
  destruct (month_search_spec y (d - days_before_year y) 12) as [Hr Hs]; [lia| |].
  { change (Z.of_nat 12 + 1) with 13. rewrite days_before_month_13. lia. }
  set (k := month_search _ _ _) in *. change (Z.max 1 (Z.of_nat 12)) with 12 in Hr.
  destruct (Z.lt_trichotomy k m) as [H|[H|H]]; [|done|].
  - pose proof (days_before_month_mono y (k + 1) m). lia.
  - pose proof (days_before_month_mono y (m + 1) k ltac:(lia) ltac:(lia) ltac:(lia)). lia.
Qed.

Lemma date_month_components y m :
  1 ≤ m ≤ 12 → year (date_month y m) = y ∧ month (date_month y m) = m.
Proof.
  intros Hm. apply month_unique; [done|done|].
  pose proof (date_month_next y m Hm) as Hn. destruct (next_month y m) as [y' m']. rewrite Hn.
  pose proof (days_before_month_succ y m Hm). unfold date_month.
  change day with 86400000000000. lia.
Qed.

(** The day before a month starts belongs to the month before. *)
Lemma date_month_le y m y' m' :
  date_month y m - day < date_month y' m' → date_month y m ≤ date_month y' m'.
Proof.
  unfold date_month. generalize (days_before_year y + days_before_month y m - epoch_days).
  generalize (days_before_year y' + days_before_month y' m' - epoch_days).
  assert (Hday : 0 < day) by done. revert Hday. generalize day. intros d Hd a b H.
  apply Z.mul_le_mono_nonneg_r; [lia|].
  enough (b - 1 < a) by lia. apply (Z.mul_lt_mono_pos_r d); lia.
Qed.

Lemma next_month_range y m : 1 ≤ m ≤ 12 → 1 ≤ (next_month y m).2 ≤ 12.
Proof. intros Hm. unfold next_month. destruct (m =? 12) eqn:E; bool_prop; cbn; lia. Qed.

Lemma month_before y m p :
  1 ≤ m ≤ 12 → p = date_month y m - day → next_month (year p) (month p) = (y, m).
Proof.
  intros Hm Hp. pose proof (month_bounds p) as [Hlo Hhi].
  pose proof (next_month_range (year p) (month p) (month_range p)) as Hm'.
  pose proof (date_month_components y m Hm) as [Ey Em].
  destruct (next_month _ _) as [y' m'] eqn:En. cbn in Hm'.
  assert (Hge : date_month y m ≤ date_month y' m') by (apply date_month_le; by rewrite <-Hp).
  destruct (decide (date_month y m = date_month y' m')) as [E|Hne].
  - pose proof (date_month_components y' m' Hm') as [Ey' Em']. rewrite <-E in Ey', Em'. congruence.
  - exfalso. assert (Hday : 0 < day) by done. revert Hp Hday Hlo. generalize day as d.
    intros d Hp Hday Hlo.
    destruct (month_unique (year p) (month p) (date_month y m) (month_range p)) as [H1 H2].
    + revert Hp Hlo. generalize (date_month y m). intros. lia.
    + rewrite En. revert Hge Hne. generalize (date_month y m). intros. lia.
    + rewrite <-H1, <-H2, Ey, Em in Hlo. revert Hp Hlo. generalize (date_month y m). intros. lia.
Qed.
