(* ===== verification/Sha256.v ===== *)
(** * SHA-256 (Go's crypto/sha256), executable

    [sum256] is [sha256.Sum256] on a byte string: FIPS 180-4 padding, message
    schedule and compression over 32-bit words held in [Z].  It is what
    [auth.HashToken] and the scoped search keys apply. *)
From S2P Require Import Prelude Str.

Definition word := Z.
Definition two32 : Z := 4294967296.
Definition add32 (a b : word) : word := (a + b) mod two32.
Definition rotr (n : Z) (x : word) : word :=
  Z.lor (Z.shiftr x n) (Z.shiftl x (32 - n) mod two32).
Definition shr (n : Z) (x : word) : word := Z.shiftr x n.
Definition xor3 (a b c : word) : word := Z.lxor a (Z.lxor b c).
Definition not32 (x : word) : word := 4294967295 - x.

Definition ch (x y z : word) : word := Z.lxor (Z.land x y) (Z.land (not32 x) z).
Definition maj (x y z : word) : word := xor3 (Z.land x y) (Z.land x z) (Z.land y z).
Definition Sigma0 (x : word) : word := xor3 (rotr 2 x) (rotr 13 x) (rotr 22 x).
Definition Sigma1 (x : word) : word := xor3 (rotr 6 x) (rotr 11 x) (rotr 25 x).
Definition sigma0 (x : word) : word := xor3 (rotr 7 x) (rotr 18 x) (shr 3 x).
Definition sigma1 (x : word) : word := xor3 (rotr 17 x) (rotr 19 x) (shr 10 x).

(** The constants of FIPS 180-4, from their definition: the first 32 bits of
    the fractional parts of the cube roots of the first 64 primes, and of the
    square roots of the first 8. *)
Definition is_prime (n : Z) : bool :=
  forallb (λ d, negb (n mod d =? 0)) (seqZ 2 (n - 2)).
Definition primes : list Z := List.filter is_prime (seqZ 2 310).

(** The integer cube root, bit by bit from bit [bits]. *)
Fixpoint cube_root (bits : nat) (n acc : Z) : Z :=
  match bits with
  | O => acc
  | S bits =>
      let next := acc + 2 ^ Z.of_nat bits in
      cube_root bits n (if next ^ 3 <=? n then next else acc)
  end.

Definition round_constants : list word := Eval vm_compute in
  map (λ p, cube_root 36 (p * 2 ^ 96) 0 mod two32) primes.
Definition initial_hash : list word := Eval vm_compute in
  map (λ p, Z.sqrt (p * 2 ^ 64) mod two32) (take 8 primes).

Fixpoint bytes_of (s : string) : list Z :=
  match s with
  | EmptyString => []
  | String a s => byte_of a :: bytes_of s
  end.

Fixpoint string_of_bytes (l : list Z) : string :=
  match l with
  | [] => EmptyString
  | b :: l => String (ascii_of_nat (Z.to_nat b)) (string_of_bytes l)
  end.

(** The [n] big-endian bytes of [z]. *)
Fixpoint be_bytes (n : nat) (z : Z) : list Z :=
  match n with
  | O => []
  | S n => Z.shiftr z (8 * Z.of_nat n) mod 256 :: be_bytes n z
  end.

Definition pad (m : list Z) : list Z :=
  let l := Z.of_nat (length m) in
  m ++ 128 :: replicate (Z.to_nat ((55 - l) mod 64)) 0 ++ be_bytes 8 (8 * l).

Fixpoint words_of (l : list Z) : list word :=
  match l with
  | a :: b :: c :: d :: l =>
      Z.lor (Z.shiftl a 24) (Z.lor (Z.shiftl b 16) (Z.lor (Z.shiftl c 8) d)) :: words_of l
  | _ => []
  end.

(** The schedule is kept newest word first: [w] holds the last sixteen. *)
Fixpoint rounds (ks : list word) (w : list word) (h : list word) : list word :=
  match ks, w, h with
  | k :: ks, wt :: w', [a; b; c; d; e; f; g; hh] =>
      let t1 := add32 (add32 (add32 hh (Sigma1 e)) (add32 (ch e f g) k)) wt in
      let t2 := add32 (Sigma0 a) (maj a b c) in
      let next := add32 (add32 (sigma1 (nth 14 w 0)) (nth 9 w 0))
                        (add32 (sigma0 (nth 1 w 0)) wt) in
      rounds ks (w' ++ [next]) [add32 t1 t2; a; b; c; add32 d t1; e; f; g]
  | _, _, _ => h
  end.

Definition compress (h block : list word) : list word :=
  zip_with add32 h (rounds round_constants block h).

Fixpoint blocks (fuel : nat) (h ws : list word) : list word :=
  match fuel, ws with
  | _, [] => h
  | O, _ => h
  | S fuel, _ => blocks fuel (compress h (take 16 ws)) (drop 16 ws)
  end.

Definition digest_words (m : list Z) : list word :=
  let ws := words_of (pad m) in blocks (length ws) initial_hash ws.

Definition sum256_bytes (m : list Z) : list Z :=
  mjoin (be_bytes 4 <$> digest_words m).

Definition sum256 (s : string) : string := string_of_bytes (sum256_bytes (bytes_of s)).

(** FIPS 180-4 test vectors: one block and two blocks. *)
Example sum256_abc :
  digest_words (bytes_of "abc") =
  [0xba7816bf; 0x8f01cfea; 0x414140de; 0x5dae2223; 0xb00361a3; 0x96177a9c; 0xb410ff61; 0xf20015ad].
Proof. vm_compute. reflexivity. Qed.

Example sum256_two_blocks :
  digest_words (bytes_of "abcdbcdecdefdefgefghfghighijhijkijkljklmklmnlmnomnopnopq") =
  [0x248d6a61; 0xd20638b8; 0xe5c02693; 0x0c3e6039; 0xa33ce459; 0x64ff2167; 0xf6ecedd4; 0x19db06c1].
Proof. vm_compute. reflexivity. Qed.

(** The digest is always 32 bytes long. *)
Lemma length_rounds ks w h : length h = 8%nat → length (rounds ks w h) = 8%nat.
Proof.
  revert w h. induction ks as [|k ks IH]; intros w h Hh; [done|].
  destruct w as [|wt w]; [done|].
  destruct h as [|a [|b [|c [|d [|e [|f [|g [|hh [|]]]]]]]]]; try done. cbn. by apply IH.
Qed.

Lemma length_compress h block : length h = 8%nat → length (compress h block) = 8%nat.
Proof. intros Hh. unfold compress. rewrite length_zip_with, length_rounds, Hh; done. Qed.

Lemma length_blocks fuel h ws : length h = 8%nat → length (blocks fuel h ws) = 8%nat.
Proof.
  revert h ws. induction fuel as [|fuel IH]; intros h ws Hh; destruct ws; cbn; try done.
  apply IH. by apply length_compress.
Qed.

Lemma length_be_bytes n z : length (be_bytes n z) = n.
Proof. induction n; cbn; congruence. Qed.

Lemma length_sum256_bytes m : length (sum256_bytes m) = 32%nat.
Proof.
  unfold sum256_bytes, digest_words.
  pose proof (length_blocks (length (words_of (pad m))) initial_hash (words_of (pad m)) eq_refl) as H.
  revert H. generalize (blocks (length (words_of (pad m))) initial_hash (words_of (pad m))).
  intros l Hl. destruct l as [|a [|b [|c [|d [|e [|f [|g [|hh [|]]]]]]]]]; try done.
Qed.

Lemma length_string_of_bytes l : String.length (string_of_bytes l) = length l.
Proof. induction l; cbn; congruence. Qed.

Lemma length_sum256 s : String.length (sum256 s) = 32%nat.
Proof. unfold sum256. by rewrite length_string_of_bytes, length_sum256_bytes. Qed.
