(* ===== verification/Json.v ===== *)
(** * JSON values and Go's struct decoding (encoding/json)

    A [json.RawMessage] (or any JSON byte slice) is represented by what its
    text denotes: [Some v] for the text of the value [v], [None] for bytes that
    are not JSON.  Numbers keep their literal, since Go decodes the same
    literal differently into an integer and into a float.

    [unmarshal] follows [json.Unmarshal] into a struct: keys are matched
    exactly and then case-insensitively, unknown keys are ignored (or refused
    with [DisallowUnknownFields]), a repeated key is applied again, [null]
    leaves a non-pointer field alone, and a value of the wrong type makes the
    whole decoding fail. *)
From S2P Require Import Prelude Str.

Inductive json :=
  | JNull
  | JBool (b : bool)
  | JNumber (literal : string)
  | JString (s : string)
  | JArray (l : list json)
  | JObject (fields : list (string * json)).

Definition RawMessage := option json.

Definition json_Valid (m : RawMessage) : bool := bool_decide (is_Some m).

(** ** Integers: [strconv.ParseInt(literal, 10, 64)] on a number literal *)
Fixpoint parse_digits (acc : Z) (s : string) : option Z :=
  match s with
  | EmptyString => Some acc
  | String a s => if is_digit a then parse_digits (10 * acc + digit_val a) s else None
  end.

Definition parse_nat (s : string) : option Z :=
  match s with EmptyString => None | _ => parse_digits 0 s end.

Definition parse_int64 (s : string) : option Z :=
  let value :=
    match s with
    | String "-"%char s => Z.opp <$> parse_nat s
    | _ => parse_nat s
    end in
  match value with
  | Some z => if (min_int64 <=? z) && (z <=? max_int64) then Some z else None
  | None => None
  end.

(** [strconv.ParseInt(s, 10, 64)] and [strconv.Atoi]: also with a plus sign. *)
Definition ParseInt (s : string) : option Z :=
  match s with
  | String "+"%char s' => z ← parse_nat s'; if z <=? max_int64 then Some z else None
  | _ => parse_int64 s
  end.

Lemma ParseInt_le s z : ParseInt s = Some z → z ≤ max_int64.
Proof.
  assert (H : ∀ s z, parse_int64 s = Some z → z ≤ max_int64) by (unfold parse_int64; intros; repeat case_match; simplify_eq; bool_prop; lia).
  unfold ParseInt. intros E. repeat case_match; try (by apply H in E). apply bind_Some in E as (y & _ & E). case_match; [|done].
  injection E as <-. bool_prop. done.
Qed.

(** Decimal rendering of a natural number and of an integer. *)
Definition digit_char (d : Z) : ascii := ascii_of_nat (Z.to_nat (48 + d)).

Fixpoint render_digits (fuel : nat) (z : Z) (acc : string) : string :=
  match fuel with
  | O => acc
  | S fuel =>
      let acc := String (digit_char (z mod 10)) acc in
      if z <? 10 then acc else render_digits fuel (z / 10) acc
  end.

Definition render_nat (z : Z) : string := render_digits (S (Z.to_nat (Z.log2 z))) z EmptyString.

Definition render_int (z : Z) : string :=
  if z <? 0 then String "-"%char (render_nat (- z)) else render_nat z.

(** ** Field matching *)

(** The case folding of encoding/json's field lookup: ASCII letters, plus the
    two non-ASCII runes that fold to one (KELVIN SIGN, LONG S). *)
Fixpoint fold_name (s : string) : string :=
  match s with
  | EmptyString => EmptyString
  | String "226"%char (String "132"%char (String "170"%char s)) => String "k"%char (fold_name s)
  | String "197"%char (String "191"%char s) => String "s"%char (fold_name s)
  | String a s => String (lower_byte a) (fold_name s)
  end.

(** A field of a struct [T]: its JSON name and how a value is stored. *)
Definition field (T : Type) : Type := string * (json → T → option T).

Definition find_field {T} (fs : list (field T)) (key : string) : option (field T) :=
  match find (λ f, bool_decide (f.1 = key)) fs with
  | Some f => Some f
  | None => find (λ f, bool_decide (fold_name f.1 = fold_name key)) fs
  end.

Lemma find_field_elem {T} (fs : list (field T)) key f : find_field fs key = Some f → f ∈ fs.
Proof.
  unfold find_field. case_match eqn:E.
  - intros [= <-]. apply find_some in E as [E _]. by apply list_elem_of_In.
  - intros H%find_some. apply list_elem_of_In, H.
Qed.

Fixpoint decode_fields {T} (strict : bool) (fs : list (field T))
    (kvs : list (string * json)) (t : T) : option T :=
  match kvs with
  | [] => Some t
  | (k, v) :: kvs =>
      match find_field fs k with
      | Some f => t ← f.2 v t; decode_fields strict fs kvs t
      | None => if strict then None else decode_fields strict fs kvs t
      end
  end.

Definition decode_struct {T} (strict : bool) (fs : list (field T)) (v : json) (t : T) : option T :=
  match v with
  | JNull => Some t
  | JObject kvs => decode_fields strict fs kvs t
  | _ => None
  end.

(** [json.Unmarshal(data, &t)] and [Decoder.Decode] with
    [DisallowUnknownFields], from the zero value [t]. *)
Definition unmarshal {T} (fs : list (field T)) (m : RawMessage) (t : T) : option T :=
  v ← m; decode_struct false fs v t.
Definition unmarshal_strict {T} (fs : list (field T)) (m : RawMessage) (t : T) : option T :=
  v ← m; decode_struct true fs v t.

(** ** Field setters, by Go type *)
Section Setters.
Context {T : Type}.
Definition string_field (name : string) (set : string → T → T) : field T :=
  (name, λ v t, match v with
                | JNull => Some t
                | JString s => Some (set s t)
                | _ => None end).
Definition int64_field (name : string) (set : Z → T → T) : field T :=
  (name, λ v t, match v with
                | JNull => Some t
                | JNumber lit => z ← parse_int64 lit; Some (set z t)
                | _ => None end).
Definition bool_field (name : string) (set : bool → T → T) : field T :=
  (name, λ v t, match v with
                | JNull => Some t
                | JBool b => Some (set b t)
                | _ => None end).
Definition string_ptr_field (name : string) (set : option string → T → T) : field T :=
  (name, λ v t, match v with
                | JNull => Some (set None t)
                | JString s => Some (set (Some s) t)
                | _ => None end).
Definition raw_field (name : string) (set : RawMessage → T → T) : field T :=
  (name, λ v t, Some (set (Some v) t)).
End Setters.

(** ** Strings

    [json.Marshal] replaces every byte of a string that is not part of valid
    UTF-8 with U+FFFD; [coerce_utf8] is that replacement. *)
Definition in_range (lo hi : Z) (a : ascii) : bool := (lo <=? byte_of a) && (byte_of a <=? hi).
Definition tail_byte : ascii → bool := in_range 128 191.

Definition two_bytes (a b : ascii) : bool := in_range 194 223 a && tail_byte b.
Definition three_bytes (a b c : ascii) : bool :=
  ((in_range 224 224 a && in_range 160 191 b) || (in_range 237 237 a && in_range 128 159 b) ||
   ((in_range 225 236 a || in_range 238 239 a) && tail_byte b)) && tail_byte c.
Definition four_bytes (a b c d : ascii) : bool :=
  ((in_range 240 240 a && in_range 144 191 b) || (in_range 244 244 a && in_range 128 143 b) ||
   (in_range 241 243 a && tail_byte b)) && tail_byte c && tail_byte d.

Definition replacement (s : string) : string :=
  String "239"%char (String "191"%char (String "189"%char s)).

Fixpoint coerce_utf8 (s : string) : string :=
  match s with
  | EmptyString => EmptyString
  | String a s1 =>
      if byte_of a <? 128 then String a (coerce_utf8 s1) else
      match s1 with
      | EmptyString => replacement EmptyString
      | String b s2 =>
          if two_bytes a b then String a (String b (coerce_utf8 s2)) else
          match s2 with
          | EmptyString => replacement (coerce_utf8 s1)
          | String c s3 =>
              if three_bytes a b c then String a (String b (String c (coerce_utf8 s3))) else
              match s3 with
              | EmptyString => replacement (coerce_utf8 s1)
              | String d s4 =>
                  if four_bytes a b c d
                  then String a (String b (String c (String d (coerce_utf8 s4))))
                  else replacement (coerce_utf8 s1)
              end
          end
      end
  end.

Definition valid_utf8 (s : string) : bool := bool_decide (coerce_utf8 s = s).

Definition encode_string (s : string) : json := JString (coerce_utf8 s).

(** ** White space: [unicode.IsSpace]

    The length in bytes of the white space rune [s] starts with, or 0. *)
Definition space_width (s : string) : nat :=
  match s with
  | String a s1 =>
      if in_range 9 13 a || in_range 32 32 a then 1
      else match s1 with
        | String b s2 =>
            if in_range 194 194 a && (in_range 133 133 b || in_range 160 160 b) then 2
            else match s2 with
              | String c _ =>
                  if (in_range 225 225 a && in_range 154 154 b && in_range 128 128 c) ||
                     (in_range 226 226 a && in_range 128 128 b &&
                        (in_range 128 138 c || in_range 168 169 c || in_range 175 175 c)) ||
                     (in_range 226 226 a && in_range 129 129 b && in_range 159 159 c) ||
                     (in_range 227 227 a && in_range 128 128 b && in_range 128 128 c)
                  then 3 else 0
              | EmptyString => 0
              end
        | EmptyString => 0
        end
  | EmptyString => 0
  end%nat.

Fixpoint drop_bytes (n : nat) (s : string) : string :=
  match n, s with S n, String _ s => drop_bytes n s | _, _ => s end.

(** [strings.TrimSpace(s) == ""]: nothing but Unicode white space. *)
Fixpoint blank (s : string) : bool :=
  match s with
  | EmptyString => true
  | String a s1 =>
      if in_range 9 13 a || in_range 32 32 a then blank s1
      else match s1 with
        | EmptyString => false
        | String b s2 =>
            if in_range 194 194 a && (in_range 133 133 b || in_range 160 160 b) then blank s2
            else match s2 with
              | EmptyString => false
              | String c s3 =>
                  if (in_range 225 225 a && in_range 154 154 b && in_range 128 128 c) ||
                     (in_range 226 226 a && in_range 128 128 b &&
                        (in_range 128 138 c || in_range 168 169 c || in_range 175 175 c)) ||
                     (in_range 226 226 a && in_range 129 129 b && in_range 159 159 c) ||
                     (in_range 227 227 a && in_range 128 128 b && in_range 128 128 c)
                  then blank s3 else false
              end
        end
  end.

(** [strings.TrimSpace]. *)
Fixpoint trim_left (fuel : nat) (s : string) : string :=
  match fuel, space_width s with
  | O, _ | _, O => s
  | S fuel, w => trim_left fuel (drop_bytes w s)
  end.
Fixpoint trim_right (s : string) : string :=
  if blank s then EmptyString
  else match s with String a s => String a (trim_right s) | EmptyString => EmptyString end.
Definition TrimSpace (s : string) : string := trim_right (trim_left (String.length s) s).

Example trim_example : TrimSpace (String "194"%char (String "160"%char "  a b ") +:+ String "010"%char "") = "a b"%string.
Proof. reflexivity. Qed.

(** Well-formed UTF-8, one rune at a time. *)
Definition is_rune (r : string) : bool :=
  match r with
  | String a "" => byte_of a <? 128
  | String a (String b "") => two_bytes a b
  | String a (String b (String c "")) => three_bytes a b c
  | String a (String b (String c (String d ""))) => four_bytes a b c d
  | _ => false
  end.
Inductive utf8 : string → Prop :=
  | utf8_nil : utf8 ""
  | utf8_rune r s : is_rune r = true → utf8 s → utf8 (r +:+ s).

(** One step of [coerce_utf8] copies a rune or replaces a byte. *)
Lemma coerce_utf8_step a s :
  (∃ r t, String a s = r +:+ t ∧ is_rune r = true ∧ coerce_utf8 (String a s) = r +:+ coerce_utf8 t) ∨
  coerce_utf8 (String a s) = replacement (coerce_utf8 s).
Proof.
  assert (∀ r t, is_rune r = true → String a s = r +:+ t → coerce_utf8 (String a s) = r +:+ coerce_utf8 t →
    ∃ r t, String a s = r +:+ t ∧ is_rune r = true ∧ coerce_utf8 (String a s) = r +:+ coerce_utf8 t) as H by eauto.
  cbn [coerce_utf8] in *. destruct (byte_of a <? 128) eqn:E1; [left; by apply (H (String a "") s)|].
  destruct s as [|b s]; [by right|].
  destruct (two_bytes a b) eqn:E2; [left; by apply (H (String a (String b "")) s)|].
  destruct s as [|c s]; [by right|].
  destruct (three_bytes a b c) eqn:E3; [left; by apply (H (String a (String b (String c ""))) s)|].
  destruct s as [|d s]; [by right|].
  destruct (four_bytes a b c d) eqn:E4; [left; by apply (H (String a (String b (String c (String d "")))) s)|by right].
Qed.

Lemma length_append s t : String.length (s +:+ t) = (String.length s + String.length t)%nat.
Proof. induction s; cbn; congruence. Qed.
Lemma string_len_ind (P : string → Prop) :
  (∀ s, (∀ t, (String.length t < String.length s)%nat → P t) → P s) → ∀ s, P s.
Proof. intros H s. induction s as [s IH] using (induction_ltof1 _ String.length). by apply H. Qed.

Lemma is_rune_length r : is_rune r = true → (1 ≤ String.length r ≤ 4)%nat.
Proof. destruct r as [|a [|b [|c [|d [|e r]]]]]; cbn; intros; try done; lia. Qed.

Lemma length_coerce_utf8 s : (String.length s ≤ String.length (coerce_utf8 s))%nat.
Proof.
  induction s as [s IH] using string_len_ind. destruct s as [|a s]; [cbn; lia|].
  destruct (coerce_utf8_step a s) as [(r & t & E & Hr%is_rune_length & ->)| ->].
  - rewrite E, !length_append in *. specialize (IH t). lia.
  - specialize (IH s). cbn in *. lia.
Qed.

Lemma valid_utf8_runes s : valid_utf8 s = true → utf8 s.
Proof.
  unfold valid_utf8. induction s as [s IH] using string_len_ind. intros Hs. bool_prop.
  destruct s as [|a s]; [constructor|].
  destruct (coerce_utf8_step a s) as [(r & t & E & Hr & Hc)|Hc].
  - rewrite Hc in Hs. rewrite E in *. constructor; [done|]. apply IH.
    + apply is_rune_length in Hr. rewrite length_append. lia.
    + apply bool_decide_eq_true. clear -Hs; induction r; [done|injection Hs; auto].
  - exfalso. rewrite Hc in Hs. apply (f_equal String.length) in Hs. cbn in Hs.
    pose proof (length_coerce_utf8 s). lia.
Qed.

Lemma coerce_rune r s : is_rune r = true → coerce_utf8 (r +:+ s) = r +:+ coerce_utf8 s.
Proof.
  intros Hr. destruct r as [|a [|b [|c [|d [|e r]]]]]; try done; cbn [is_rune] in Hr.
  - change (String a "" +:+ s) with (String a s). cbn [coerce_utf8]. by rewrite Hr.
  - change (String a (String b "") +:+ s) with (String a (String b s)). cbn [coerce_utf8]. rewrite Hr.
    destruct (byte_of a <? 128) eqn:E; [|done]. unfold two_bytes, in_range in *. bool_prop. lia.
  - change (String a (String b (String c "")) +:+ s) with (String a (String b (String c s))). cbn [coerce_utf8]. rewrite Hr.
    assert (byte_of a <? 128 = false ∧ two_bytes a b = false) as [-> ->]; [|done].
    unfold three_bytes, two_bytes, tail_byte, in_range in *. split; apply not_true_iff_false; intros H; bool_prop; lia.
  - change (String a (String b (String c (String d ""))) +:+ s) with (String a (String b (String c (String d s)))).
    cbn [coerce_utf8]. rewrite Hr.
    assert (byte_of a <? 128 = false ∧ two_bytes a b = false ∧ three_bytes a b c = false) as (-> & -> & ->); [|done].
    unfold four_bytes, three_bytes, two_bytes, tail_byte, in_range in *.
    split_and!; apply not_true_iff_false; intros H; bool_prop; lia.
Qed.

Lemma utf8_valid s : utf8 s → valid_utf8 s = true.
Proof.
  unfold valid_utf8. intros Hs. apply bool_decide_eq_true. induction Hs as [|r s Hr Hs IH]; [done|].
  by rewrite coerce_rune, IH.
Qed.

(** ** Lemmas: integer literals round-trip *)
Lemma digit_char_spec d :
  0 ≤ d < 10 → is_digit (digit_char d) = true ∧ digit_val (digit_char d) = d.
Proof.
  intros Hd. assert (d ∈ seqZ 0 10) as Hin by (apply elem_of_seqZ; lia).
  revert Hin. clear Hd. revert d. apply Forall_forall. repeat constructor.
Qed.

Lemma parse_render_digits fuel z acc k :
  0 ≤ z → z < 2 ^ Z.of_nat fuel →
  ∃ n, 0 ≤ n ∧ parse_digits k (render_digits fuel z acc) = parse_digits (10 ^ n * k + z) acc.
Proof.
  revert z acc. induction fuel as [|fuel IH]; intros z acc Hz Hlt; cbn [render_digits].
  - exists 0. assert (z = 0) as -> by (cbn in Hlt; lia). split; [done|]. f_equal; lia.
  - destruct (digit_char_spec (z mod 10)) as [Hd Hv]; [by apply Z.mod_pos_bound|].
    destruct (z <? 10) eqn:E; bool_prop.
    + exists 1. split; [done|]. cbn [parse_digits]. rewrite Hd, Hv.
      rewrite Z.mod_small by lia. f_equal; lia.
    + destruct (IH (z / 10) (String (digit_char (z mod 10)) acc)) as (n & Hn & Hp).
      * apply Z.div_pos; lia.
      * apply Z.div_lt_upper_bound; [lia|].
        replace (Z.of_nat (S fuel)) with (Z.of_nat fuel + 1) in Hlt by lia.
        rewrite Z.pow_add_r in Hlt by lia. lia.
      * exists (n + 1). split; [lia|]. rewrite Hp. cbn [parse_digits].
        rewrite Hd, Hv. f_equal. rewrite Z.pow_add_r by lia.
        pose proof (Z.div_mod z 10). lia.
Qed.

Lemma render_digits_cons fuel z acc :
  (fuel ≠ 0)%nat → 0 ≤ z →
  ∃ a s, render_digits fuel z acc = String a s ∧ is_digit a = true.
Proof.
  revert z acc. induction fuel as [|fuel IH]; intros z acc Hf Hz; [done|].
  destruct (digit_char_spec (z mod 10)) as [Hd _]; [by apply Z.mod_pos_bound|].
  cbn [render_digits]. destruct (z <? 10); [eauto|].
  destruct fuel as [|fuel]; [cbn; eauto|]. apply IH; [done|]. apply Z.div_pos; lia.
Qed.

Lemma parse_render_nat z : 0 ≤ z → parse_nat (render_nat z) = Some z.
Proof.
  intros Hz. unfold render_nat.
  destruct (parse_render_digits (S (Z.to_nat (Z.log2 z))) z EmptyString 0) as (n & _ & Hp).
  - done.
  - destruct (decide (z = 0)) as [->|]; [done|].
    rewrite Nat2Z.inj_succ, Z2Nat.id by apply Z.log2_nonneg. apply Z.log2_spec. lia.
  - destruct (render_digits_cons (S (Z.to_nat (Z.log2 z))) z EmptyString) as (a & s & E & _); [done..|].
    rewrite E in *. unfold parse_nat. rewrite Hp. cbn. f_equal; lia.
Qed.

Lemma parse_render_int z : in_int64 z → parse_int64 (render_int z) = Some z.
Proof.
  intros Hz. unfold render_int, parse_int64.
  destruct (z <? 0) eqn:E; bool_prop.
  - rewrite parse_render_nat by lia. cbn. rewrite Z.opp_involutive.
    unfold in_int64 in Hz. destruct (_ && _) eqn:B; [done|].
    apply andb_false_iff in B as [B|B]; bool_prop; lia.
  - pose proof (parse_render_nat z E) as Hp.
    destruct (render_digits_cons (S (Z.to_nat (Z.log2 z))) z EmptyString) as (a & s & Er & Hd); [done..|].
    unfold render_nat in *. rewrite Er in *.
    assert (Some z = match String a s with
      | String "-"%char s => Z.opp <$> parse_nat s | _ => parse_nat (String a s) end) as <-.
    { rewrite Hp. destruct a as [[] [] [] [] [] [] [] []]; done. }
    unfold in_int64 in Hz. destruct (_ && _) eqn:B; [done|].
    apply andb_false_iff in B as [B|B]; bool_prop; lia.
Qed.

Lemma coerce_is_utf8 s : utf8 (coerce_utf8 s).
Proof.
  induction s as [s IH] using string_len_ind. destruct s as [|a s]; [constructor|].
  destruct (coerce_utf8_step a s) as [(r & t & E & Hr & ->)| ->].
  - constructor; [done|]. apply IH. rewrite E, length_append. apply is_rune_length in Hr. lia.
  - change (replacement (coerce_utf8 s)) with (replacement "" +:+ coerce_utf8 s). constructor; [done|]. apply IH. cbn. lia.
Qed.

(** A text between braces has no white space around it. *)
Lemma blank_brace s : blank s = true → contains_char "}" s = false.
Proof.
  induction s as [s IH] using string_len_ind. intros Hb.
  assert (Hr : ∀ lo hi a, in_range lo hi a = true → hi < 125 ∨ 125 < lo → Ascii.eqb a "}" = false).
  { intros lo hi a H Hne. unfold in_range in H. destruct (Ascii.eqb a "}") eqn:E; [|done]. apply Ascii.eqb_eq in E. subst a.
    change (byte_of "}") with 125 in H. bool_prop. lia. }
  destruct s as [|a s]; [done|]. cbn [blank contains_char] in *.
  destruct (in_range 9 13 a || in_range 32 32 a) eqn:E1.
  { apply orb_true_iff in E1 as [E1|E1]; rewrite (Hr _ _ _ E1) by lia; apply IH; cbn; auto; lia. }
  destruct s as [|b s]; [done|]. cbn [contains_char].
  destruct (in_range 194 194 a && _) eqn:E2.
  { apply andb_true_iff in E2 as [Ea E2]. rewrite (Hr _ _ _ Ea) by lia.
    apply orb_true_iff in E2 as [E2|E2]; rewrite (Hr _ _ _ E2) by lia; apply IH; cbn; auto; lia. }
  destruct s as [|c s]; [done|]. cbn [contains_char].
  match type of Hb with (if ?x then _ else _) = _ => destruct x eqn:E3; [|done] end.
  assert (Ascii.eqb a "}" = false ∧ Ascii.eqb b "}" = false ∧ Ascii.eqb c "}" = false) as (-> & -> & ->); [|apply IH; cbn; auto; lia].
  rewrite !orb_true_iff, !andb_true_iff, ?orb_true_iff in E3. destruct_or! E3; destruct_and! E3; destruct_or?;
    split_and!; (eapply Hr; [eassumption|lia]).
Qed.
Lemma trim_braces t : TrimSpace (String "{" (t +:+ "}")) = String "{" (t +:+ "}").
Proof.
  assert (Hw : space_width (String "{" (t +:+ "}")) = 0%nat) by (destruct t as [|b [|c t]]; reflexivity).
  unfold TrimSpace. cbn [String.length trim_left]. rewrite Hw.
  assert (H : ∀ u, trim_right (u +:+ "}") = u +:+ "}").
  { induction u as [|a u IH]; [vm_compute; reflexivity|]. cbn [String.append]. 
    assert (Hb : blank (String a (u +:+ "}")) = false).
    { destruct (blank _) eqn:E; [|done]. apply blank_brace in E. cbn in E. rewrite contains_char_app in E. cbn in E. by rewrite !orb_true_r in E. }
    cbn [trim_right]. rewrite Hb, IH. done. }
  exact (H (String "{" t)).
Qed.
