(* ===== verification/Durations.v ===== *)
(** * Durations as text: [time.ParseDuration] and [Duration.String]

    The standard library's code, with its unsigned 64-bit arithmetic and its
    float64 fractions, which the commands read their configuration with; and the
    round trip for the durations that are written without a fraction. *)
From S2P Require Import Prelude Str GoTime Json.
From Stdlib Require SpecFloat.

Definition microsecond : duration := 1000.

(** ** ParseDuration *)
(** [leadingInt]: the digits in front, at most 2^63. *)
Fixpoint leadingInt (x : Z) (s : string) : option (Z * string) :=
  match s with
  | String c s' =>
      if is_digit c then
        if two63 / 10 <? x then None
        else let x := 10 * x + digit_val c in if two63 <? x then None else leadingInt x s'
      else Some (x, s)
  | EmptyString => Some (x, s)
  end.

Definition f64_of (z : Z) : SpecFloat.spec_float := SpecFloat.binary_normalize 53 1024 z 0 false.
Definition f64_mul : SpecFloat.spec_float → SpecFloat.spec_float → SpecFloat.spec_float := SpecFloat.SFmul 53 1024.
Definition f64_div : SpecFloat.spec_float → SpecFloat.spec_float → SpecFloat.spec_float := SpecFloat.SFdiv 53 1024.
(** [uint64(f)] of a float in range. *)
Definition f64_trunc (f : SpecFloat.spec_float) : Z :=
  match f with
  | SpecFloat.S754_finite _ m e => if 0 <=? e then Zpos m * 2 ^ e else Zpos m / 2 ^ (- e)
  | _ => 0
  end.

(** [leadingFraction]: the digits that still fit and their scale. *)
Fixpoint leadingFraction (x : Z) (scale : SpecFloat.spec_float) (overflow : bool) (s : string) : Z * SpecFloat.spec_float * string :=
  match s with
  | String c s' =>
      if is_digit c then
        if overflow then leadingFraction x scale true s'
        else if (two63 - 1) / 10 <? x then leadingFraction x scale true s'
        else let y := 10 * x + digit_val c in
             if two63 <? y then leadingFraction x scale true s' else leadingFraction y (f64_mul scale (f64_of 10)) false s'
      else (x, scale, s)
  | EmptyString => (x, scale, s)
  end.

(** Everything up to the next dot or digit. *)
Fixpoint take_unit (s : string) : string * string :=
  match s with
  | String c s' =>
      if Ascii.eqb c "."%char || is_digit c then (EmptyString, s)
      else let '(u, rest) := take_unit s' in (String c u, rest)
  | EmptyString => (EmptyString, s)
  end.
(** Both micro signs, in UTF-8. *)
Definition micro_sign : string := String (ascii_of_nat 194) (String (ascii_of_nat 181) "").
Definition greek_mu : string := String (ascii_of_nat 206) (String (ascii_of_nat 188) "").
Definition unitMap : list (string * Z) :=
  [("ns"%string, nanosecond); ("us"%string, microsecond); (micro_sign +:+ "s", microsecond); (greek_mu +:+ "s", microsecond);
   ("ms"%string, millisecond); ("s"%string, second); ("m"%string, minute); ("h"%string, hour)].
Definition unit_of (u : string) : option Z := snd <$> List.find (λ x, bool_decide (x.1 = u)) unitMap.

(** A fraction after the integer, its scale, the rest and whether it has digits. *)
Definition fraction (s : string) : Z * SpecFloat.spec_float * string * bool :=
  match s with
  | String c s' =>
      if Ascii.eqb c "."%char then let '(f, scale, rest) := leadingFraction 0 (f64_of 1) false s' in (f, scale, rest, negb (bool_decide (rest = s')))
      else (0, f64_of 1, s, false)
  | EmptyString => (0, f64_of 1, s, false)
  end.
(** A number, perhaps with a fraction, and its unit: its value and the rest. *)
Definition quantity (s : string) : option (Z * string) :=
  '(v, s1) ← leadingInt 0 s;
  let pre := negb (bool_decide (s1 = s)) in
  let '(f, scale, s2, post) := fraction s1 in
  if negb pre && negb post then None
  else
    let '(u, rest) := take_unit s2 in
    if bool_decide (u = ""%string) then None
    else
      unit ← unit_of u;
      if two63 / unit <? v then None
      else
        let v := v * unit in
        if 0 <? f then
          let v := (v + f64_trunc (f64_mul (f64_of f) (f64_div (f64_of unit) scale))) mod two64 in
          if two63 <? v then None else Some (v, rest)
        else Some (v, rest).
Definition starts_number (s : string) : bool := match s with String c _ => Ascii.eqb c "."%char || is_digit c | EmptyString => false end.
(** The loop; each round takes at least one character. *)
Fixpoint quantities (fuel : nat) (d : Z) (s : string) : option Z :=
  match s with
  | EmptyString => Some d
  | _ =>
      match fuel with
      | O => None
      | S fuel =>
          if starts_number s then
            '(v, rest) ← quantity s;
            let d := (d + v) mod two64 in
            if two63 <? d then None else quantities fuel d rest
          else None
      end
  end.
Definition sign_of (s : string) : bool * string :=
  match s with
  | String "-"%char s => (true, s)
  | String "+"%char s => (false, s)
  | _ => (false, s)
  end.
(** The text of the error is dropped by every caller. *)
Definition ParseDuration (s : string) : option duration :=
  let '(neg, s) := sign_of s in
  if bool_decide (s = "0"%string) then Some 0
  else if bool_decide (s = ""%string) then None
  else
    d ← quantities (String.length s) 0 s;
    if (neg : bool) then Some (wrap64 (- d)) else if two63 - 1 <? d then None else Some d.

(** ** String *)
(** [fmtFrac]: the last [prec] digits as a fraction without trailing zeros. *)
Fixpoint fmtFrac (prec : nat) (print : bool) (v : Z) (acc : string) : Z * string :=
  match prec with
  | O => (v, if print then String "."%char acc else acc)
  | S prec =>
      let print := print || negb (v mod 10 =? 0) in
      fmtFrac prec print (v / 10) (if print then String (digit_char (v mod 10)) acc else acc)
  end.
Definition small_string (u : Z) : string :=
  let '(prec, suffix) :=
    if u <? microsecond then (0%nat, "ns"%string)
    else if u <? millisecond then (3%nat, micro_sign +:+ "s")
    else (6%nat, "ms"%string) in
  let '(v, acc) := fmtFrac prec false u suffix in render_nat v +:+ acc.
Definition large_string (u : Z) : string :=
  let '(secs, acc) := fmtFrac 9 false u "s" in
  let acc := render_nat (secs mod 60) +:+ acc in
  let mins := secs / 60 in
  if 0 <? mins then
    let acc := render_nat (mins mod 60) +:+ String "m"%char acc in
    let hours := mins / 60 in
    if 0 <? hours then render_nat hours +:+ String "h"%char acc else acc
  else acc.
Definition Duration_String (d : duration) : string :=
  let u := Z.abs d in
  let s := if u =? 0 then "0s"%string else if u <? second then small_string u else large_string u in
  if d <? 0 then String "-"%char s else s.

Example strings : map Duration_String [0; 2 * second; minute; 8760 * hour; 1500 * millisecond; -1; 1100; 100 * millisecond; max_int64; - two63] =
  ["0s"; "2s"; "1m0s"; "8760h0m0s"; "1.5s"; "-1ns"; "1.1" +:+ micro_sign +:+ "s"; "100ms"; "2562047h47m16.854775807s"; "-2562047h47m16.854775808s"]%string.
Proof. vm_compute. reflexivity. Qed.
Example parsed : map ParseDuration ["24h"; "1.5h"; ".5s"; "1h0.25m"; "-1.5s"; "1"; ""; "s"; "+0"; "9223372036854775807ns"; "9223372036854775808ns"; "2562048h"; "1x";
    "-2562047h47m16.854775808s"; "0.3333333333333333333h"]%string =
  [Some (24 * hour); Some (90 * minute); Some (500 * millisecond); Some (hour + 15 * second); Some (-1500 * millisecond); None; None; None; Some 0;
   Some max_int64; None; None; None; Some (- two63); Some (20 * minute)].
Proof. vm_compute. reflexivity. Qed.

(** ** The round trip *)
Definition no_number (s : string) : Prop := starts_number s = false.
Lemma render_digits_app fuel z acc : render_digits fuel z acc = render_digits fuel z "" +:+ acc.
Proof.
  revert z acc. induction fuel as [|fuel IH]; intros z acc; [done|]. cbn [render_digits]. destruct (z <? 10); [done|].
  rewrite IH, (IH _ (String _ "")), append_assoc3. done.
Qed.
Lemma leadingInt_digits fuel z acc :
  0 ≤ z → z < 2 ^ Z.of_nat fuel → z ≤ two63 → leadingInt 0 (render_digits fuel z acc) = leadingInt z acc.
Proof.
  revert z acc. induction fuel as [|fuel IH]; intros z acc Hz Hlt Hm; cbn [render_digits].
  { by assert (z = 0) as -> by (cbn in Hlt; lia). }
  destruct (digit_char_spec (z mod 10)) as [Hd Hv]; [by apply Z.mod_pos_bound|].
  pose proof (Z.div_mod z 10 ltac:(lia)) as Hdm. pose proof (Z.mod_pos_bound z 10 ltac:(lia)).
  assert (Hstep : leadingInt (z / 10) (String (digit_char (z mod 10)) acc) = leadingInt z acc).
  { cbn [leadingInt]. rewrite Hd, Hv. rewrite (proj2 (Z.ltb_ge _ _)) by (apply Z.div_le_mono; lia). cbv zeta.
    replace (10 * (z / 10) + z mod 10) with z by lia. by rewrite (proj2 (Z.ltb_ge _ _)) by lia. }
  destruct (z <? 10) eqn:E; bool_prop.
  - by rewrite Z.div_small in Hstep by lia.
  - rewrite IH; [exact Hstep|lia| |lia].
    replace (Z.of_nat (S fuel)) with (Z.of_nat fuel + 1) in Hlt by lia. rewrite Z.pow_add_r in Hlt by lia. lia.
Qed.
Lemma leadingInt_stop x s : match s with String c _ => is_digit c = false | EmptyString => True end → leadingInt x s = Some (x, s).
Proof. destruct s as [|c s]; [done|]. cbn. by intros ->. Qed.
Lemma leadingInt_render z rest : 0 ≤ z ≤ two63 → match rest with String c _ => is_digit c = false | EmptyString => True end →
  leadingInt 0 (render_nat z +:+ rest) = Some (z, rest).
Proof.
  intros Hz Hr. unfold render_nat. rewrite <-render_digits_app, leadingInt_digits; [by apply leadingInt_stop|lia| |lia].
  destruct (decide (z = 0)) as [->|]; [done|]. rewrite Nat2Z.inj_succ, Z2Nat.id by apply Z.log2_nonneg. apply Z.log2_spec. lia.
Qed.
Lemma render_nat_head z : 0 ≤ z → ∃ a s, render_nat z = String a s ∧ is_digit a = true.
Proof. intros Hz. by apply render_digits_cons. Qed.

(** A quantity without a fraction, as [String] writes it. *)
Definition unit_ok (u : string) (unit : Z) : Prop :=
  unit_of u = Some unit ∧ 0 < unit ∧ ∃ c u', u = String c u' ∧ Forall (λ c, Ascii.eqb c "."%char || is_digit c = false) (list_ascii_of_string u).
Lemma unit_ok_known : unit_ok "ns" nanosecond ∧ unit_ok (micro_sign +:+ "s") microsecond ∧ unit_ok "ms" millisecond ∧
  unit_ok "s" second ∧ unit_ok "m" minute ∧ unit_ok "h" hour.
Proof. repeat split; eexists _, _; split; try reflexivity; repeat constructor. Qed.

Lemma take_unit_app u rest : Forall (λ c, Ascii.eqb c "."%char || is_digit c = false) (list_ascii_of_string u) →
  rest = ""%string ∨ starts_number rest = true → take_unit (u +:+ rest) = (u, rest).
Proof.
  intros Hu Hr. induction u as [|c u IH]; cbn in *.
  - destruct rest as [|c rest]; [done|]. destruct Hr as [Hr|Hr]; [done|]. cbn in *. by rewrite Hr.
  - apply Forall_cons in Hu as [Hc Hu]. by rewrite Hc, (IH Hu).
Qed.
Lemma quantity_plain v u unit rest : unit_ok u unit → 0 ≤ v → v * unit ≤ two63 → rest = ""%string ∨ starts_number rest = true →
  quantity (render_nat v +:+ u +:+ rest) = Some (v * unit, rest).
Proof.
  intros (Hu & Hpos & c & u' & -> & Hall) Hv Hm Hr. unfold quantity.
  pose proof Hall as Hall'. cbn in Hall'. apply Forall_cons in Hall' as [Hc _]. apply orb_false_iff in Hc as [Hdot Hdig].
  rewrite leadingInt_render; [|nia|done]. cbn [mbind option_bind].
  destruct (render_nat_head v Hv) as (a & s & Er & Ha).
  rewrite bool_decide_eq_false_2.
  2: { rewrite Er. cbn. intros [= E _]. by rewrite E, Ha in Hdig. }
  cbn [negb andb]. change (String c u' +:+ rest) with (String c (u' +:+ rest)).
  cbn [fraction]. rewrite Hdot. cbn [andb]. change (String c (u' +:+ rest)) with (String c u' +:+ rest). rewrite (take_unit_app (String c u') rest Hall Hr).
  rewrite bool_decide_eq_false_2 by done. rewrite Hu. cbn [mbind option_bind].
  rewrite (proj2 (Z.ltb_ge _ _)); [done|]. apply Z.div_le_lower_bound; lia.
Qed.

(** Several of them. *)
Fixpoint text (qs : list (Z * string)) : string :=
  match qs with [] => "" | (v, u) :: qs => render_nat v +:+ u +:+ text qs end.
Fixpoint worth (qs : list (Z * string)) : Z := match qs with [] => 0 | (v, u) :: qs => v * default 0 (unit_of u) + worth qs end.
Definition quantity_ok (q : Z * string) : Prop := 0 ≤ q.1 ∧ ∃ unit, unit_ok q.2 unit.
Lemma worth_nonneg qs : Forall quantity_ok qs → 0 ≤ worth qs.
Proof.
  induction 1 as [|[v u] qs (Hv & unit & Hu & Hpos & _) _ IH]; cbn in *; [lia|]. rewrite Hu. cbn. nia.
Qed.
Lemma text_head qs : Forall quantity_ok qs → text qs = ""%string ∨ starts_number (text qs) = true.
Proof.
  destruct 1 as [|[v u] qs [Hv _] _]; [by left|right]. cbn [text fst length] in *. destruct (render_nat_head v Hv) as (a & s & -> & Ha). cbn. by rewrite Ha, orb_true_r.
Qed.
Lemma quantities_text fuel d qs : Forall quantity_ok qs → 0 ≤ d → d + worth qs ≤ two63 → (length qs ≤ fuel)%nat →
  quantities fuel d (text qs) = Some (d + worth qs).
Proof.
  revert d qs. induction fuel as [|fuel IH]; intros d qs Hqs Hd Hw Hf.
  { destruct qs; [|cbn in Hf; lia]. cbn. f_equal. lia. }
  destruct Hqs as [|[v u] qs (Hv & unit & Hu) Hqs]; [cbn; f_equal; lia|]. cbn [text worth length fst snd] in *.
  pose proof Hu as (Eu & Hpos & _). pose proof (worth_nonneg qs Hqs). rewrite Eu in Hw |- *. cbn [from_option id] in Hw |- *.
  destruct (text_head ((v, u) :: qs)) as [E|Hs]; [by constructor; [split; [|exists unit]|]| |]; cbn [text] in *.
  { destruct (render_nat_head v Hv) as (a & s & Er & _). by rewrite Er in E. }
  remember (render_nat v +:+ u +:+ text qs) as s eqn:Es. destruct s as [|c s]; [done|]. cbn [quantities]. rewrite Hs, Es.
  rewrite (quantity_plain v u unit (text qs) Hu Hv ltac:(lia) (text_head qs Hqs)). cbn [mbind option_bind].
  unfold two64. unfold two63 in *. rewrite Z.mod_small by nia. rewrite (proj2 (Z.ltb_ge _ _)) by lia. rewrite IH; [f_equal; lia|done|nia|lia|lia].
Qed.

Lemma length_app_string (a b : string) : String.length (a +:+ b) = (String.length a + String.length b)%nat.
Proof. induction a as [|c a IH]; [done|]. cbn. by rewrite IH. Qed.
Lemma text_length qs : Forall quantity_ok qs → (length qs ≤ String.length (text qs))%nat.
Proof.
  induction 1 as [|[v u] qs [Hv _] _ IH]; [done|]. cbn [text fst length] in *. destruct (render_nat_head v Hv) as (a & s & -> & _).
  rewrite !length_app_string. cbn. lia.
Qed.
Lemma ParseDuration_text qs : qs ≠ [] → Forall quantity_ok qs → worth qs ≤ max_int64 → ParseDuration (text qs) = Some (worth qs).
Proof.
  intros Hne Hqs Hw. unfold ParseDuration. destruct Hqs as [|[v u] qs Hq Hqs]; [done|]. pose proof Hq as (Hv & unit & Eu & Hpos & c & u' & Euu & Hall).
  destruct (render_nat_head v Hv) as (a & s & Er & Ha).
  assert (Et : ∃ s', text ((v, u) :: qs) = String a s' ∧ s' ≠ ""%string).
  { cbn [text]. rewrite Er. exists (s +:+ u +:+ text qs). split; [done|]. cbn in Euu. rewrite Euu. by destruct s. }
  destruct Et as (s' & Et & Hs').
  assert (Hsign : sign_of (String a s') = (false, String a s')).
  { destruct a as [[] [] [] [] [] [] [] []]; try reflexivity; done. }
  rewrite <-Et in Hsign. rewrite Hsign.
  rewrite bool_decide_eq_false_2 by (rewrite Et; congruence). rewrite bool_decide_eq_false_2 by by rewrite Et.
  assert (Hqs' : Forall quantity_ok ((v, u) :: qs)) by by constructor.
  rewrite quantities_text; [|done|lia|unfold max_int64, two63 in *; lia|by apply text_length]. cbn [mbind option_bind]. rewrite Z.add_0_l.
  rewrite (proj2 (Z.ltb_ge _ _)); [done|]. unfold max_int64, two63 in *. lia.
Qed.

(** *** What String writes *)
Lemma fmtFrac_zeros prec v acc : v mod 10 ^ Z.of_nat prec = 0 → fmtFrac prec false v acc = (v / 10 ^ Z.of_nat prec, acc).
Proof.
  revert v. induction prec as [|prec IH]; intros v Hv; [by rewrite Z.div_1_r|]. cbn [fmtFrac].
  replace (Z.of_nat (S prec)) with (Z.of_nat prec + 1) in * by lia. rewrite Z.pow_add_r, Z.mul_comm in * by lia. change (10 ^ 1) with 10 in *.
  rewrite Z.rem_mul_r in Hv by lia. pose proof (Z.mod_pos_bound v 10 ltac:(lia)).
  pose proof (Z.mod_pos_bound (v / 10) (10 ^ Z.of_nat prec) ltac:(apply Z.pow_pos_nonneg; lia)).
  assert (v mod 10 = 0 ∧ (v / 10) mod 10 ^ Z.of_nat prec = 0) as [-> Hd] by lia. cbn [orb negb]. rewrite Z.eqb_refl. cbn.
  rewrite (IH _ Hd), Z.div_div by lia. done.
Qed.
(** The durations written without a fraction. *)
Definition whole (d : duration) : Prop :=
  0 ≤ d ≤ max_int64 ∧
  (if d <? microsecond then True else if d <? millisecond then d mod microsecond = 0
   else if d <? second then d mod millisecond = 0 else d mod second = 0).
Lemma known_ok v u unit : unit_ok u unit → 0 ≤ v → quantity_ok (v, u).
Proof. intros Hu Hv. split; [done|by exists unit]. Qed.
Lemma String_text d : whole d → ∃ qs, qs ≠ [] ∧ Forall quantity_ok qs ∧ worth qs = d ∧ Duration_String d = text qs.
Proof.
  destruct unit_ok_known as (Un & Uu & Um & Us & Umin & Uh). intros [Hd Hw]. unfold Duration_String. rewrite (Z.abs_eq d) by lia.
  rewrite (proj2 (Z.ltb_ge d 0)) by lia. destruct (Z.eqb_spec d 0) as [->|Hne].
  { exists [(0, "s"%string)]. split_and!; [done| |done|done]. repeat constructor; cbn; [lia|by exists second]. }
  assert (Hone : ∀ v u unit, unit_ok u unit → d = v * unit → 0 ≤ v → ∃ qs, qs ≠ [] ∧ Forall quantity_ok qs ∧ worth qs = d ∧ render_nat v +:+ u = text qs).
  { intros v u unit Hu -> Hv. exists [(v, u)]. split_and!; [done|by constructor; [eapply known_ok|]| |].
    - cbn [worth]. destruct Hu as [-> _]. cbn. lia.
    - cbn [text]. f_equal. clear. induction u as [|c u IH]; [done|]. cbn. by rewrite <-IH. }
  assert (Hdiv : ∀ unit, 0 < unit → d mod unit = 0 → d = d / unit * unit ∧ 0 ≤ d / unit).
  { intros unit Hu Hm. pose proof (Z.div_mod d unit ltac:(lia)). split; [lia|]. apply Z.div_pos; lia. }
  unfold small_string, large_string. destruct (d <? second) eqn:E2.
  - destruct (d <? microsecond) eqn:E0; [|destruct (d <? millisecond) eqn:E1].
    + apply (Hone d "ns"%string nanosecond Un); unfold nanosecond; lia.
    + rewrite (fmtFrac_zeros 3) by exact Hw. destruct (Hdiv microsecond) as [Hd1 Hd2]; [done|done|]. by apply (Hone _ _ _ Uu).
    + rewrite (fmtFrac_zeros 6) by exact Hw. destruct (Hdiv millisecond) as [Hd1 Hd2]; [done|done|]. by apply (Hone _ _ _ Um).
  - assert (Hw' : d mod second = 0).
    { unfold microsecond, millisecond, second in *. bool_prop. by rewrite !(proj2 (Z.ltb_ge _ _)) in Hw by lia. }
    rewrite (fmtFrac_zeros 9) by exact Hw'. change (10 ^ Z.of_nat 9) with second. destruct (Hdiv second) as [Hd1 Hd2]; [done|done|].
    set (secs := d / second) in *. pose proof (Z.div_mod secs 60 ltac:(lia)). pose proof (Z.mod_pos_bound secs 60 ltac:(lia)).
    pose proof (Z.div_mod (secs / 60) 60 ltac:(lia)). pose proof (Z.mod_pos_bound (secs / 60) 60 ltac:(lia)).
    assert (0 ≤ secs / 60) by (apply Z.div_pos; lia). assert (0 ≤ secs / 60 / 60) by (apply Z.div_pos; lia).
    assert (Hs : quantity_ok (secs mod 60, "s"%string)) by (eapply known_ok; [exact Us|lia]).
    assert (Hm : quantity_ok ((secs / 60) mod 60, "m"%string)) by (eapply known_ok; [exact Umin|lia]).
    assert (Hh : quantity_ok (secs / 60 / 60, "h"%string)) by (eapply known_ok; [exact Uh|lia]).
    destruct (0 <? secs / 60) eqn:E3; [destruct (0 <? secs / 60 / 60) eqn:E4|]; bool_prop.
    + exists [(secs / 60 / 60, "h"%string); ((secs / 60) mod 60, "m"%string); (secs mod 60, "s"%string)]. split_and!; [done|rewrite !Forall_cons; by split_and!| |].
      * change (worth _) with (secs / 60 / 60 * hour + ((secs / 60) mod 60 * minute + (secs mod 60 * second + 0))). unfold hour, minute, second in *. lia.
      * reflexivity.
    + exists [((secs / 60) mod 60, "m"%string); (secs mod 60, "s"%string)]. split_and!; [done|rewrite !Forall_cons; by split_and!| |].
      * change (worth _) with ((secs / 60) mod 60 * minute + (secs mod 60 * second + 0)). unfold minute, second in *. lia.
      * reflexivity.
    + exists [(secs mod 60, "s"%string)]. split_and!; [done|rewrite !Forall_cons; by split_and!| |done].
      change (worth _) with (secs mod 60 * second + 0). unfold second in *. lia.
Qed.

(** What [String] writes of such a duration [ParseDuration] reads back. *)
Theorem ParseDuration_String d : whole d → ParseDuration (Duration_String d) = Some d.
Proof.
  intros Hd. destruct (String_text d Hd) as (qs & Hne & Hqs & <- & ->). apply ParseDuration_text; [done|done|].
  destruct Hd as [[_ Hm] _]. done.
Qed.

(** Each round takes at least one character, so the length of the text is fuel
    enough. *)
Lemma leadingInt_length x s v rest : leadingInt x s = Some (v, rest) → (String.length rest ≤ String.length s)%nat.
Proof.
  revert x. induction s as [|c s IH]; intros x; cbn; [by intros [= _ <-]|]. repeat case_match; try done; [|by intros [= _ <-]].
  intros Hx%IH. lia.
Qed.
Lemma leadingFraction_length x scale o s : (String.length (leadingFraction x scale o s).2 ≤ String.length s)%nat.
Proof.
  revert x scale o. induction s as [|c s IH]; intros x scale o; cbn; [done|]. repeat case_match; cbn; try lia; etrans; try apply IH; lia.
Qed.
Lemma fraction_length s : (String.length (fraction s).1.2 ≤ String.length s)%nat.
Proof.
  destruct s as [|c s]; [done|]. cbn. destruct (Ascii.eqb c "."%char); [|done].
  pose proof (leadingFraction_length 0 (f64_of 1) false s) as H. destruct (leadingFraction _ _ _ s) as [[f scale] rest]. cbn in *. lia.
Qed.
Lemma take_unit_length s : String.length s = (String.length (take_unit s).1 + String.length (take_unit s).2)%nat.
Proof. induction s as [|c s IH]; [done|]. cbn. destruct (_ || _); [done|]. destruct (take_unit s) as [u rest]. cbn in *. by rewrite IH. Qed.
Lemma quantity_shorter s v rest : quantity s = Some (v, rest) → (String.length rest < String.length s)%nat.
Proof.
  unfold quantity. intros ([w s1] & H1%leadingInt_length & H)%bind_Some. pose proof (fraction_length s1) as H2.
  destruct (fraction s1) as [[[f scale] s2] post]. cbn in H2. destruct (_ && _); [done|]. pose proof (take_unit_length s2) as H3.
  destruct (take_unit s2) as [u rest']. cbn in H3. case_bool_decide as Hu; [done|]. apply bind_Some in H as (unit & _ & H).
  assert (0 < String.length u)%nat by (destruct u; [done|cbn; lia]). repeat case_match; try done; injection H as _ <-; lia.
Qed.
Lemma quantities_fuel fuel d s : (String.length s ≤ fuel)%nat → quantities fuel d s = quantities (String.length s) d s.
Proof.
  revert d s. enough (H : ∀ fuel fuel' d s, (String.length s ≤ fuel)%nat → (String.length s ≤ fuel')%nat → quantities fuel d s = quantities fuel' d s).
  { intros d s Hf. by apply H. }
  clear fuel. induction fuel as [|fuel IH]; intros fuel' d s Hf Hf'.
  - destruct s; [by destruct fuel'|cbn in Hf; lia].
  - destruct s as [|c s]; [by destruct fuel'|]. destruct fuel' as [|fuel']; [cbn in Hf'; lia|]. cbn [quantities]. destruct (starts_number _); [|done].
    destruct (quantity (String c s)) as [[v rest]|] eqn:Eq; [|done]. apply quantity_shorter in Eq. cbn [mbind option_bind].
    destruct (two63 <? _); [done|]. apply IH; lia.
Qed.
