(* ===== verification/JsonText.v ===== *)
(** * JSON texts (encoding/json's scanner, unquote and Marshal)

    The text of a JSON value and its parsing, byte by byte: [render] prints
    compactly with Go's escapes, [parse_json] is the scanner with its limit on
    nesting, invalid UTF-8 replaced as [unquote] does.  A text denotes the
    [RawMessage] [parse_json text]. *)
From S2P Require Import Prelude Str Json.
From Stdlib Require Floats.SpecFloat.

Definition QUOTE : ascii := "034"%char.
Definition BACKSLASH : ascii := "\"%char.

Definition is_json_space (a : ascii) : bool :=
  let b := byte_of a in (b =? 32) || (b =? 9) || (b =? 10) || (b =? 13).
Fixpoint skip_space (s : string) : string :=
  match s with
  | String a s' => if is_json_space a then skip_space s' else s
  | EmptyString => s
  end.

(** ** Strings *)
Definition hex_val (a : ascii) : option Z :=
  let b := byte_of a in
  if in_range 48 57 a then Some (b - 48)
  else if in_range 97 102 a then Some (b - 87)
  else if in_range 65 70 a then Some (b - 55)
  else None.
Definition hex4 (a b c d : ascii) : option Z :=
  a ← hex_val a; b ← hex_val b; c ← hex_val c; d ← hex_val d;
  Some (4096 * a + 256 * b + 16 * c + d).

Definition chr (z : Z) : ascii := ascii_of_nat (Z.to_nat z).
(** [utf8.AppendRune]. *)
Definition encode_rune (r : Z) : string :=
  if r <? 128 then String (chr r) ""
  else if r <? 2048 then String (chr (192 + r / 64)) (String (chr (128 + r mod 64)) "")
  else if r <? 65536 then
    String (chr (224 + r / 4096)) (String (chr (128 + r / 64 mod 64)) (String (chr (128 + r mod 64)) ""))
  else String (chr (240 + r / 262144)) (String (chr (128 + r / 4096 mod 64))
         (String (chr (128 + r / 64 mod 64)) (String (chr (128 + r mod 64)) ""))).

Definition is_surrogate (r : Z) : bool := (55296 <=? r) && (r <? 57344).
(** [utf16.DecodeRune] of a pair, if it is one. *)
Definition decode_pair (r1 r2 : Z) : option Z :=
  if (55296 <=? r1) && (r1 <? 56320) && (56320 <=? r2) && (r2 <? 57344)
  then Some ((r1 - 55296) * 1024 + (r2 - 56320) + 65536) else None.

Definition simple_escape (e : ascii) : option ascii :=
  if Ascii.eqb e QUOTE || Ascii.eqb e BACKSLASH || Ascii.eqb e "/"%char then Some e
  else if Ascii.eqb e "b"%char then Some "008"%char
  else if Ascii.eqb e "f"%char then Some "012"%char
  else if Ascii.eqb e "n"%char then Some "010"%char
  else if Ascii.eqb e "r"%char then Some "013"%char
  else if Ascii.eqb e "t"%char then Some "009"%char
  else None.

Definition prepend (p : string) (r : option (string * string)) : option (string * string) :=
  '(t, rest) ← r; Some (p +:+ t, rest).

(** The rest of a string after its opening quote, unescaped. *)
Fixpoint lex_string (s : string) : option (string * string) :=
  match s with
  | EmptyString => None
  | String a s1 =>
      if Ascii.eqb a QUOTE then Some (EmptyString, s1)
      else if Ascii.eqb a BACKSLASH then
        match s1 with
        | EmptyString => None
        | String e s2 =>
            if Ascii.eqb e "u"%char then
              match s2 with
              | String a1 (String a2 (String a3 (String a4 s3))) =>
                  match hex4 a1 a2 a3 a4 with
                  | None => None
                  | Some r =>
                      if is_surrogate r then
                        match s3 with
                        | String b (String u (String b1 (String b2 (String b3 (String b4 s4))))) =>
                            match (if Ascii.eqb b BACKSLASH && Ascii.eqb u "u"%char
                                   then hex4 b1 b2 b3 b4 else None) ≫= decode_pair r with
                            | Some r => prepend (encode_rune r) (lex_string s4)
                            | None => prepend (encode_rune 65533) (lex_string s3)
                            end
                        | _ => prepend (encode_rune 65533) (lex_string s3)
                        end
                      else prepend (encode_rune r) (lex_string s3)
                  end
              | _ => None
              end
            else match simple_escape e with
              | Some c => prepend (String c "") (lex_string s2)
              | None => None
              end
        end
      else if byte_of a <? 32 then None
      else prepend (String a "") (lex_string s1)
  end.

(** ** Numbers *)
Fixpoint take_digits (s : string) : string * string :=
  match s with
  | String a s' => if is_digit a then let '(d, r) := take_digits s' in (String a d, r) else (EmptyString, s)
  | EmptyString => (EmptyString, s)
  end.
Definition some_digits (s : string) : option (string * string) :=
  let '(d, r) := take_digits s in if bool_decide (d = ""%string) then None else Some (d, r).

Definition lex_sign (s : string) : string * string :=
  match s with
  | String a r => if Ascii.eqb a "-"%char then (String a "", r) else (EmptyString, s)
  | EmptyString => (EmptyString, s)
  end.
Definition lex_integer (s : string) : option (string * string) :=
  match s with
  | String a r => if Ascii.eqb a "0"%char then Some (String a "", r) else some_digits s
  | EmptyString => None
  end.
Definition lex_fraction (s : string) : option (string * string) :=
  match s with
  | String a r => if Ascii.eqb a "."%char then prepend (String a "") (some_digits r) else Some (EmptyString, s)
  | EmptyString => Some (EmptyString, s)
  end.
Definition lex_exponent (s : string) : option (string * string) :=
  match s with
  | String a r =>
      if Ascii.eqb a "e"%char || Ascii.eqb a "E"%char then
        match r with
        | String b r' =>
            if Ascii.eqb b "+"%char || Ascii.eqb b "-"%char
            then prepend (String a (String b "")) (some_digits r')
            else prepend (String a "") (some_digits r)
        | EmptyString => None
        end
      else Some (EmptyString, s)
  | EmptyString => Some (EmptyString, s)
  end.
Definition lex_number (s : string) : option (string * string) :=
  let '(sign, s) := lex_sign s in
  '(int, s) ← lex_integer s;
  '(frac, s) ← lex_fraction s;
  '(exp, s) ← lex_exponent s;
  Some (sign +:+ int +:+ frac +:+ exp, s).

(** ** Values *)
Fixpoint strip (p s : string) : option string :=
  match p, s with
  | EmptyString, _ => Some s
  | String a p, String b s => if Ascii.eqb a b then strip p s else None
  | String _ _, EmptyString => None
  end.

(** [depth] is how many more objects and arrays may be opened. *)
Fixpoint parse_value (fuel : nat) (depth : Z) (s : string) : option (json * string) :=
  match fuel with
  | O => None
  | S fuel =>
      match skip_space s with
      | EmptyString => None
      | String a rest =>
          if Ascii.eqb a "{"%char then
            if depth <=? 0 then None
            else match strip "}" (skip_space rest) with
              | Some rest => Some (JObject [], rest)
              | None => '(fields, rest) ← parse_members fuel (depth - 1) rest; Some (JObject fields, rest)
              end
          else if Ascii.eqb a "["%char then
            if depth <=? 0 then None
            else match strip "]" (skip_space rest) with
              | Some rest => Some (JArray [], rest)
              | None => '(l, rest) ← parse_elements fuel (depth - 1) rest; Some (JArray l, rest)
              end
          else if Ascii.eqb a QUOTE then '(t, rest) ← lex_string rest; Some (JString (coerce_utf8 t), rest)
          else if Ascii.eqb a "t"%char then rest ← strip "rue" rest; Some (JBool true, rest)
          else if Ascii.eqb a "f"%char then rest ← strip "alse" rest; Some (JBool false, rest)
          else if Ascii.eqb a "n"%char then rest ← strip "ull" rest; Some (JNull, rest)
          else '(literal, rest) ← lex_number (String a rest); Some (JNumber literal, rest)
      end
  end
with parse_elements (fuel : nat) (depth : Z) (s : string) : option (list json * string) :=
  match fuel with
  | O => None
  | S fuel =>
      '(v, rest) ← parse_value fuel depth s;
      match skip_space rest with
      | EmptyString => None
      | String c rest =>
          if Ascii.eqb c ","%char then '(l, rest) ← parse_elements fuel depth rest; Some (v :: l, rest)
          else if Ascii.eqb c "]"%char then Some ([v], rest)
          else None
      end
  end
with parse_members (fuel : nat) (depth : Z) (s : string) : option (list (string * json) * string) :=
  match fuel with
  | O => None
  | S fuel =>
      rest ← strip (String QUOTE "") (skip_space s);
      '(k, rest) ← lex_string rest;
      rest ← strip ":" (skip_space rest);
      '(v, rest) ← parse_value fuel depth rest;
      match skip_space rest with
      | EmptyString => None
      | String c rest =>
          if Ascii.eqb c ","%char then
            '(l, rest) ← parse_members fuel depth rest; Some ((coerce_utf8 k, v) :: l, rest)
          else if Ascii.eqb c "}"%char then Some ([(coerce_utf8 k, v)], rest)
          else None
      end
  end.

Definition maxNestingDepth : Z := 10000.

(** A text that is one JSON value, with white space around it. *)
Definition parse_json (text : string) : RawMessage :=
  '(v, rest) ← parse_value (2 * String.length text + 1) maxNestingDepth text;
  if bool_decide (skip_space rest = ""%string) then Some v else None.

(** ** Printing *)
Definition hex_char (z : Z) : ascii := chr (if z <? 10 then 48 + z else 87 + z).
Definition unicode_escape (z : Z) : string :=
  String BACKSLASH (String "u"%char (String "0"%char (String "0"%char
    (String (hex_char (z / 16)) (String (hex_char (z mod 16)) ""))))).
Definition escape_char (a : ascii) : string :=
  let b := byte_of a in
  if Ascii.eqb a QUOTE || Ascii.eqb a BACKSLASH then String BACKSLASH (String a "")
  else if b =? 8 then "\b" else if b =? 12 then "\f" else if b =? 10 then "\n"
  else if b =? 13 then "\r" else if b =? 9 then "\t"
  else if (b <? 32) || (b =? 60) || (b =? 62) || (b =? 38) then unicode_escape b
  else String a "".

Fixpoint escape (s : string) : string :=
  match s with
  | EmptyString => EmptyString
  | String a s1 =>
      match s1 with
      | String b (String c s3) =>
          if in_range 226 226 a && in_range 128 128 b && in_range 168 169 c
          then (if byte_of c =? 168 then "\u2028" else "\u2029") +:+ escape s3
          else escape_char a +:+ escape s1
      | _ => escape_char a +:+ escape s1
      end
  end.
Definition quote (s : string) : string := String QUOTE (escape s +:+ String QUOTE "").

Fixpoint render (j : json) : string :=
  match j with
  | JNull => "null"
  | JBool b => if b then "true" else "false"
  | JNumber literal => literal
  | JString s => quote s
  | JArray l => "[" +:+ join ","%char (map render l) +:+ "]"
  | JObject fields =>
      "{" +:+ join ","%char (map (λ kv, quote kv.1 +:+ String ":"%char (render kv.2)) fields) +:+ "}"
  end.

(** Values a text denotes: UTF-8 strings, number literals, bounded nesting. *)
Fixpoint wf (depth : Z) (j : json) : bool :=
  match j with
  | JNull | JBool _ => true
  | JNumber literal => bool_decide (lex_number literal = Some (literal, ""%string))
  | JString s => valid_utf8 s
  | JArray l => (0 <? depth) && forallb (wf (depth - 1)) l
  | JObject fields => (0 <? depth) && forallb (λ kv, valid_utf8 kv.1 && wf (depth - 1) kv.2) fields
  end.

(** ** Floats: [strconv.ParseFloat(literal, 64)]

    The decimal [m * 10^e] rounded to the nearest binary64, ties to even: of a
    quotient enough bits are kept for the rounding to see, a last sticky bit
    standing for the remainder. *)
Definition round_decimal (m e : Z) : SpecFloat.spec_float :=
  if m =? 0 then SpecFloat.S754_zero false
  else if 0 <=? e then SpecFloat.binary_normalize 53 1024 (m * 10 ^ e) 0 false
  else
    let q := 10 ^ (- e) in
    let s := Z.max 0 (Z.log2 q - Z.log2 m + 66) in
    let n := m * 2 ^ s in
    SpecFloat.binary_normalize 53 1024 (2 * (n / q) + (if n mod q =? 0 then 0 else 1)) (- s - 1) false.

Definition digits_of (s : string) : Z := default 0 (parse_digits 0 s).
Definition exponent_of (s : string) : Z :=
  match s with
  | String _ (String b r) =>
      if Ascii.eqb b "-"%char then - digits_of r
      else if Ascii.eqb b "+"%char then digits_of r else digits_of (String b r)
  | _ => 0
  end.

(** A literal out of the range of float64 is an error. *)
Definition parse_float64 (literal : string) : option SpecFloat.spec_float :=
  let '(sign, s) := lex_sign literal in
  '(int, s) ← lex_integer s;
  '(frac, s) ← lex_fraction s;
  '(exp, _) ← lex_exponent s;
  let decimals := match frac with String _ d => d | EmptyString => EmptyString end in
  let f := round_decimal (digits_of (int +:+ decimals)) (exponent_of exp - len decimals) in
  match f with
  | SpecFloat.S754_infinity _ | SpecFloat.S754_nan => None
  | _ => Some (if bool_decide (sign = ""%string) then f else SpecFloat.SFopp f)
  end.

Example parse_float_example :
  map parse_float64 ["0.1"; "-1.5e-1"; "1E3"; "0"; "-0.0"; "5e-324"; "2e-324"; "1.7976931348623157e308"; "1e309"; "9007199254740993"]%string =
  [Some (SpecFloat.S754_finite false 7205759403792794 (-56)); Some (SpecFloat.S754_finite true 5404319552844595 (-55));
   Some (SpecFloat.S754_finite false 8796093022208000 (-43)); Some (SpecFloat.S754_zero false); Some (SpecFloat.S754_zero true);
   Some (SpecFloat.S754_finite false 1 (-1074)); Some (SpecFloat.S754_zero false);
   Some (SpecFloat.S754_finite false 9007199254740991 971); None; Some (SpecFloat.S754_finite false 4503599627370496 1)].
Proof. vm_compute. done. Qed.

(** Single quotes for double ones, in examples. *)
Fixpoint quoted (s : string) : string :=
  match s with
  | String a s => String (if Ascii.eqb a "'"%char then QUOTE else a) (quoted s)
  | EmptyString => EmptyString
  end.
Example parse_json_example :
  parse_json (quoted "  {'a' : [1, -2.5e3 ,true], 'b\u00e9':'x\n\ud83d\ude00'} ") =
    Some (JObject [("a"%string, JArray [JNumber "1"; JNumber "-2.5e3"; JBool true]);
                   (("b" +:+ encode_rune 233)%string, JString ("x" +:+ String LF (encode_rune 128512)))]) ∧
  parse_json "[1,]" = None ∧ parse_json "01" = None ∧ parse_json "{}x" = None ∧ parse_json "" = None.
Proof. vm_compute. done. Qed.

(** ** Fuel: twice the length of the text is enough *)
Lemma skip_space_length s : (String.length (skip_space s) ≤ String.length s)%nat.
Proof. induction s as [|a s IH]; cbn; [lia|]. destruct (is_json_space a); cbn; lia. Qed.
Lemma strip_length p s r : strip p s = Some r → (String.length s = String.length p + String.length r)%nat.
Proof.
  revert s. induction p as [|a p IH]; intros [|b s]; cbn; try by intros [= <-].
  destruct (Ascii.eqb a b); [|done]. intros H%IH. lia.
Qed.
Lemma prepend_some p r t rest : prepend p r = Some (t, rest) → ∃ t0, r = Some (t0, rest) ∧ t = p +:+ t0.
Proof. unfold prepend. destruct r as [[t0 r0]|]; cbn; [|done]. intros [= <- <-]. eauto. Qed.

Lemma lex_string_length s t rest : lex_string s = Some (t, rest) → (String.length rest < String.length s)%nat.
Proof.
  revert t rest. induction s as [s IH] using string_len_ind. intros t rest H.
  assert (Hrec : ∀ s' p, (String.length s' < String.length s)%nat → prepend p (lex_string s') = Some (t, rest) →
    (String.length rest < String.length s)%nat).
  { intros s' p Hl (t0 & E & _)%prepend_some. apply IH in E; lia. }
  destruct s as [|a s1]; cbn [lex_string] in H; [done|].
  repeat first
    [ match type of H with Some _ = Some _ => injection H as <- <-; cbn; lia end
    | match type of H with None = Some _ => discriminate H end
    | match type of H with prepend _ (lex_string ?s') = _ => apply (Hrec s') in H; [exact H|cbn; lia] end
    | case_match ].
Qed.

Lemma take_digits_length s d r : take_digits s = (d, r) → (String.length s = String.length d + String.length r)%nat.
Proof.
  revert d r. induction s as [|a s IH]; intros d r; cbn; [by intros [= <- <-]|].
  destruct (is_digit a); [|by intros [= <- <-]]. destruct (take_digits s) as [d0 r0].
  intros [= <- <-]. cbn. rewrite (IH d0 r0); done.
Qed.
Lemma some_digits_length s d r : some_digits s = Some (d, r) →
  (String.length s = String.length d + String.length r)%nat ∧ (0 < String.length d)%nat.
Proof.
  unfold some_digits. destruct (take_digits s) as [d0 r0] eqn:E. case_bool_decide as Hd; [done|].
  intros [= <- <-]. apply take_digits_length in E. split; [done|]. destruct d0; [done|cbn; lia].
Qed.
Lemma lex_number_length s l r : lex_number s = Some (l, r) → (String.length r < String.length s)%nat.
Proof.
  unfold lex_number. destruct (lex_sign s) as [sg s0] eqn:E0. intros H.
  apply bind_Some in H as ([i s1] & E1 & H). apply bind_Some in H as ([f s2] & E2 & H).
  apply bind_Some in H as ([e s3] & E3 & [= <- <-]).
  assert (String.length s0 ≤ String.length s)%nat.
  { destruct s as [|a s]; cbn in E0; [by simplify_eq|]. destruct (Ascii.eqb _ _); simplify_eq; cbn; lia. }
  assert (String.length s1 < String.length s0)%nat.
  { destruct s0 as [|a s0]; cbn [lex_integer] in E1; [done|]. destruct (Ascii.eqb _ _); [simplify_eq; cbn; lia|].
    apply some_digits_length in E1. lia. }
  assert (String.length s2 ≤ String.length s1)%nat.
  { destruct s1 as [|a s1]; cbn [lex_fraction] in E2; [by simplify_eq|]. destruct (Ascii.eqb _ _); [|by simplify_eq].
    apply prepend_some in E2 as (? & ?%some_digits_length & _). cbn. lia. }
  assert (String.length s3 ≤ String.length s2)%nat; [|lia].
  destruct s2 as [|a s2]; cbn [lex_exponent] in E3; [by simplify_eq|]. destruct (_ || _); [|by simplify_eq].
  destruct s2 as [|b s2]; [done|].
  destruct (_ || _); apply prepend_some in E3 as (? & ?%some_digits_length & _); cbn in *; lia.
Qed.

Ltac lengths := repeat match goal with
  | H : strip _ _ = Some _ |- _ => apply strip_length in H; cbn [String.length] in H
  | H : lex_string _ = Some _ |- _ => apply lex_string_length in H
  | H : lex_number _ = Some _ |- _ => apply lex_number_length in H; cbn [String.length] in H
  end; repeat match goal with
  | H : skip_space ?s = _ |- _ => pose proof (skip_space_length s); rewrite H in *; clear H; cbn [String.length] in *
  | H : context [skip_space ?s] |- _ => lazymatch goal with
      | _ : (String.length (skip_space s) ≤ String.length s)%nat |- _ => fail
      | _ => pose proof (skip_space_length s) end
  end; cbn [String.length] in *; try lia.

Ltac inv_parse := repeat match goal with
  | H : (_ ≫= _) = Some _ |- _ => apply bind_Some in H as ([] & ? & H) || apply bind_Some in H as (? & ? & H)
  | H : Some _ = Some _ |- _ => injection H as <- <-
  | H : None = Some _ |- _ => discriminate H
  | H : (match _ with _ => _ end) = Some _ |- _ => case_match
  end.

Lemma parse_lengths fuel :
  (∀ d s v r, parse_value fuel d s = Some (v, r) → (String.length r < String.length s)%nat) ∧
  (∀ d s v r, parse_elements fuel d s = Some (v, r) → (String.length r < String.length s)%nat) ∧
  (∀ d s v r, parse_members fuel d s = Some (v, r) → (String.length r < String.length s)%nat).
Proof.
  induction fuel as [|fuel (IHv & IHe & IHm)]; [done|].
  split_and!; intros d s v r H; cbn [parse_value parse_elements parse_members] in H; inv_parse;
    repeat match goal with
    | H : parse_value _ _ _ = Some _ |- _ => apply IHv in H
    | H : parse_elements _ _ _ = Some _ |- _ => apply IHe in H
    | H : parse_members _ _ _ = Some _ |- _ => apply IHm in H
    end; lengths.
Qed.

Lemma more_fuel fuel :
  (∀ d s, (2 * String.length s + 1 ≤ fuel)%nat → parse_value (S fuel) d s = parse_value fuel d s) ∧
  (∀ d s, (2 * String.length s + 2 ≤ fuel)%nat → parse_elements (S fuel) d s = parse_elements fuel d s) ∧
  (∀ d s, (2 * String.length s + 1 ≤ fuel)%nat → parse_members (S fuel) d s = parse_members fuel d s).
Proof.
  induction fuel as [|fuel (IHv & IHe & IHm)]; [split_and!; intros; lia|]. split_and!; intros d s Hf.
  - cbn [parse_value]. destruct (skip_space s) as [|a rest] eqn:E; [done|].
    assert (String.length rest < String.length s)%nat by lengths.
    rewrite <-IHe, <-IHm by lia. reflexivity.
  - cbn [parse_elements]. rewrite <-IHv by lia.
    destruct (parse_value (S fuel) d s) as [[v r]|] eqn:E; [|done]. apply parse_lengths in E.
    change (Some (v, r) ≫= ?f) with (f (v, r)). cbv beta iota. destruct (skip_space r) as [|c r'] eqn:E'; [done|].
    assert (String.length r' < String.length r)%nat by lengths. by rewrite <-IHe by lia.
  - cbn [parse_members]. destruct (strip _ (skip_space s)) as [r0|] eqn:E0; [|done].
    change (Some r0 ≫= ?f) with (f r0). cbv beta. destruct (lex_string r0) as [[k r1]|] eqn:E1; [|done].
    change (Some (k, r1) ≫= ?f) with (f (k, r1)). cbv beta iota. destruct (strip ":" (skip_space r1)) as [r2|] eqn:E2; [|done].
    change (Some r2 ≫= ?f) with (f r2). cbv beta.
    assert (String.length r2 < String.length s)%nat by lengths. rewrite <-IHv by lia.
    destruct (parse_value (S fuel) d r2) as [[v r3]|] eqn:E3; [|done]. apply parse_lengths in E3.
    change (Some (v, r3) ≫= ?f) with (f (v, r3)). cbv beta iota. destruct (skip_space r3) as [|c r'] eqn:E'; [done|].
    assert (String.length r' < String.length r3)%nat by lengths. by rewrite <-IHm by lia.
Qed.

(** The parser is total: any more fuel than its bound gives the same result. *)
Lemma enough_fuel fuel d s :
  (2 * String.length s + 1 ≤ fuel)%nat → parse_value fuel d s = parse_value (2 * String.length s + 1) d s.
Proof.
  intros H. replace fuel with (fuel - (2 * String.length s + 1) + (2 * String.length s + 1))%nat by lia.
  induction (fuel - _)%nat as [|n IH]; [done|]. rewrite <-IH. apply more_fuel. lia.
Qed.

(** ** Printed texts parse back *)
Definition stops (rest : string) : bool :=
  match rest with
  | EmptyString => true
  | String a _ => Ascii.eqb a ","%char || Ascii.eqb a "]"%char || Ascii.eqb a "}"%char || is_json_space a
  end.

Lemma lex_escape_char a rest :
  lex_string (escape_char a +:+ rest) = prepend (String a "") (lex_string rest).
Proof. destruct a as [[] [] [] [] [] [] [] []]; reflexivity. Qed.

Lemma prepend_app p q r : prepend p (prepend q r) = prepend (p +:+ q) r.
Proof. destruct r as [[t rest]|]; [|done]. cbn. by rewrite append_assoc3. Qed.

Lemma lex_escape s rest : lex_string (escape s +:+ String QUOTE rest) = Some (s, rest).
Proof.
  induction s as [s IH] using string_len_ind.
  assert (Hstep : ∀ a s1, s = String a s1 →
    lex_string ((escape_char a +:+ escape s1) +:+ String QUOTE rest) = Some (s, rest)).
  { intros a s1 ->. rewrite append_assoc3, lex_escape_char, IH by (cbn; lia). done. }
  destruct s as [|a s1]; [done|]. cbn [escape]. destruct s1 as [|b [|c s3]]; [by apply Hstep..|].
  destruct (in_range 226 226 a && in_range 128 128 b && in_range 168 169 c) eqn:E; [|by apply Hstep].
  clear Hstep. rewrite append_assoc3. specialize (IH s3 ltac:(cbn; lia)).
  assert (∀ x, byte_of x = 226 → x = "226"%char) as Ha by (intros [[] [] [] [] [] [] [] []]; vm_compute; congruence).
  assert (∀ x, byte_of x = 128 → x = "128"%char) as Hb by (intros [[] [] [] [] [] [] [] []]; vm_compute; congruence).
  assert (∀ x, byte_of x = 168 → x = "168"%char) as Hc by (intros [[] [] [] [] [] [] [] []]; vm_compute; congruence).
  assert (∀ x, byte_of x = 169 → x = "169"%char) as Hd by (intros [[] [] [] [] [] [] [] []]; vm_compute; congruence).
  unfold in_range in E. bool_prop. rewrite (Ha a), (Hb b) by lia.
  destruct (byte_of c =? 168) eqn:Ec; bool_prop; [rewrite (Hc c) by lia|rewrite (Hd c) by lia];
    cbn; rewrite IH; done.
Qed.

Lemma stop_char a t : stops (String a t) = true →
  is_digit a = false ∧ Ascii.eqb a "."%char = false ∧ Ascii.eqb a "e"%char = false ∧ Ascii.eqb a "E"%char = false.
Proof. destruct a as [[] [] [] [] [] [] [] []]; vm_compute; intros; try discriminate; done. Qed.

Lemma take_digits_app s d r rest :
  take_digits s = (d, r) → stops rest = true → take_digits (s +:+ rest) = (d, r +:+ rest).
Proof.
  intros H Hs. revert d r H. induction s as [|a s IH]; intros d r; cbn.
  - intros [= <- <-]. destruct rest as [|b rest]; [done|]. apply stop_char in Hs as (Hd & _). cbn. by rewrite Hd.
  - destruct (is_digit a) eqn:E; [|by intros [= <- <-]]. destruct (take_digits s) as [d0 r0].
    intros [= <- <-]. by rewrite (IH d0 r0).
Qed.
Lemma some_digits_app s d r rest :
  some_digits s = Some (d, r) → stops rest = true → some_digits (s +:+ rest) = Some (d, r +:+ rest).
Proof.
  unfold some_digits. destruct (take_digits s) as [d0 r0] eqn:E. intros H Hs.
  rewrite (take_digits_app _ _ _ _ E Hs). case_bool_decide; [done|]. by simplify_eq.
Qed.
Lemma prepend_digits_app p s d r rest :
  prepend p (some_digits s) = Some (d, r) → stops rest = true → prepend p (some_digits (s +:+ rest)) = Some (d, r +:+ rest).
Proof. intros (t & H & ->)%prepend_some Hs. by rewrite (some_digits_app _ _ _ _ H Hs). Qed.

Lemma lex_number_app s l r rest :
  lex_number s = Some (l, r) → stops rest = true → lex_number (s +:+ rest) = Some (l, r +:+ rest).
Proof.
  unfold lex_number. intros H Hs. destruct (lex_sign s) as [sg s0] eqn:E0.
  apply bind_Some in H as ([i s1] & E1 & H). apply bind_Some in H as ([f s2] & E2 & H).
  apply bind_Some in H as ([e s3] & E3 & [= <- <-]).
  assert (lex_sign (s +:+ rest) = (sg, s0 +:+ rest)) as ->.
  { destruct s as [|a s]; cbn in E0; [by simplify_eq|]. cbn. destruct (Ascii.eqb _ _); by simplify_eq. }
  assert (lex_integer (s0 +:+ rest) = Some (i, s1 +:+ rest)) as ->.
  { destruct s0 as [|a s0]; cbn [lex_integer] in E1; [done|]. cbn [String.append lex_integer].
    destruct (Ascii.eqb _ _); [by simplify_eq|]. by apply (some_digits_app (String a s0)). }
  cbn [mbind option_bind].
  assert (lex_fraction (s1 +:+ rest) = Some (f, s2 +:+ rest)) as ->.
  { destruct s1 as [|a s1]; cbn [lex_fraction String.append] in *.
    - simplify_eq. destruct rest as [|b rest]; [done|]. apply stop_char in Hs as (_ & Hd & _). cbn. by rewrite Hd.
    - destruct (Ascii.eqb _ _); [by apply prepend_digits_app|by simplify_eq]. }
  cbn [mbind option_bind].
  assert (lex_exponent (s2 +:+ rest) = Some (e, s3 +:+ rest)) as ->; [|done].
  destruct s2 as [|a s2]; cbn [lex_exponent String.append] in *.
  - simplify_eq. destruct rest as [|b rest]; [done|]. apply stop_char in Hs as (_ & _ & Hd & He). cbn. by rewrite Hd, He.
  - destruct (_ || _); [|by simplify_eq]. destruct s2 as [|b s2]; [done|]. cbn [String.append].
    destruct (_ || _); [by apply prepend_digits_app|]. by apply (prepend_digits_app _ (String b s2)).
Qed.

(** The induction principle over nested values. *)
Section JsonInd.
Variable P : json → Prop.
Hypotheses (Hnull : P JNull) (Hbool : ∀ b, P (JBool b)) (Hnumber : ∀ l, P (JNumber l)) (Hstring : ∀ s, P (JString s))
  (Harray : ∀ l, Forall P l → P (JArray l)) (Hobject : ∀ fs, Forall (λ kv, P kv.2) fs → P (JObject fs)).
Fixpoint json_nested_ind (j : json) : P j :=
  match j with
  | JNull => Hnull
  | JBool b => Hbool b
  | JNumber l => Hnumber l
  | JString s => Hstring s
  | JArray l => Harray l ((fix go l : Forall P l :=
      match l with [] => @Forall_nil_2 _ P | j :: l => @Forall_cons_2 _ P _ _ (json_nested_ind j) (go l) end) l)
  | JObject fs => Hobject fs ((fix go l : Forall (λ kv, P kv.2) l :=
      match l with [] => @Forall_nil_2 _ _ | kv :: l => @Forall_cons_2 _ _ kv _ (json_nested_ind kv.2) (go l) end) fs)
  end.
End JsonInd.

(** A printed value starts with a character that opens a value. *)
Definition opens (a : ascii) : bool :=
  Ascii.eqb a "{"%char || Ascii.eqb a "["%char || Ascii.eqb a QUOTE || Ascii.eqb a "t"%char || Ascii.eqb a "f"%char ||
  Ascii.eqb a "n"%char || Ascii.eqb a "-"%char || is_digit a.

Lemma opens_spec a : opens a = true → is_json_space a = false ∧ Ascii.eqb "]"%char a = false ∧ Ascii.eqb "}"%char a = false.
Proof. destruct a as [[] [] [] [] [] [] [] []]; vm_compute; intros; try discriminate; done. Qed.

Lemma number_opens l r : lex_number l = Some (l, r) →
  ∃ a t, l = String a t ∧ (Ascii.eqb a "-"%char || is_digit a) = true.
Proof.
  destruct l as [|a t]; [done|]. intros H. exists a, t. split; [done|]. unfold lex_number in H. cbn [lex_sign] in H.
  destruct (Ascii.eqb a "-"); [done|]. apply bind_Some in H as ([i s1] & E1 & _). cbn [lex_integer] in E1.
  destruct (Ascii.eqb a "0") eqn:E0; [apply Ascii.eqb_eq in E0 as ->; done|].
  unfold some_digits in E1. cbn [take_digits] in E1. by destruct (is_digit a).
Qed.

Lemma render_opens d j : wf d j = true → ∃ a t, render j = String a t ∧ opens a = true.
Proof.
  destruct j as [|[]|l|s|l|fs]; cbn [wf render]; intros H; [by repeat eexists..| | | |];
    [|by repeat eexists..]. bool_prop. apply number_opens in H as (a & t & -> & Ha).
  exists a, t. split; [done|]. unfold opens. rewrite <-!orb_assoc. by rewrite Ha, !orb_true_r.
Qed.

Lemma skip_space_opens a t : opens a = true → skip_space (String a t) = String a t.
Proof. intros H. apply opens_spec in H as (H & _). cbn. by rewrite H. Qed.

Lemma number_head a : (Ascii.eqb a "-"%char || is_digit a) = true →
  Ascii.eqb a "{"%char = false ∧ Ascii.eqb a "["%char = false ∧ Ascii.eqb a QUOTE = false ∧
  Ascii.eqb a "t"%char = false ∧ Ascii.eqb a "f"%char = false ∧ Ascii.eqb a "n"%char = false ∧ opens a = true.
Proof. destruct a as [[] [] [] [] [] [] [] []]; vm_compute; intros; try discriminate; done. Qed.

Definition parses (j : json) : Prop := ∀ d fuel rest, wf d j = true → stops rest = true →
  (2 * String.length (render j) ≤ fuel)%nat → parse_value fuel d (render j +:+ rest) = Some (j, rest).

Lemma parse_number l : parses (JNumber l).
Proof.
  intros d fuel rest Hw Hs Hf. cbn [wf render] in *. bool_prop.
  destruct (number_opens _ _ Hw) as (a & t & -> & Ha). destruct (number_head a Ha) as (H1 & H2 & H3 & H4 & H5 & H6 & H7).
  destruct fuel as [|fuel]; [cbn in Hf; lia|]. change (String a t +:+ rest) with (String a (t +:+ rest)). cbn [parse_value].
  rewrite skip_space_opens, H1, H2, H3, H4, H5, H6 by done. change (String a (t +:+ rest)) with (String a t +:+ rest).
  by rewrite (lex_number_app _ _ _ _ Hw Hs).
Qed.

Lemma lex_quote s rest : quote s +:+ rest = String QUOTE (escape s +:+ String QUOTE rest).
Proof. unfold quote. cbn. f_equal. by rewrite append_assoc3. Qed.

Lemma join_cons c s t l : join c (s :: t :: l) = s +:+ String c (join c (t :: l)).
Proof. done. Qed.

Lemma length_join_cons c s t l :
  String.length (join c (s :: t :: l)) = (String.length s + 1 + String.length (join c (t :: l)))%nat.
Proof. rewrite join_cons, length_append. cbn [String.length]. lia. Qed.

Lemma parse_elements_render l : Forall parses l → l ≠ [] → ∀ d fuel rest, forallb (wf d) l = true →
  (2 * String.length (join ","%char (map render l)) + 1 ≤ fuel)%nat →
  parse_elements fuel d (join ","%char (map render l) +:+ String "]"%char rest) = Some (l, rest).
Proof.
  induction 1 as [|j l Hj Hl IH]; [done|]. intros _ d fuel rest Hw Hf. cbn [forallb] in Hw.
  apply andb_true_iff in Hw as [Hw Hws]. destruct fuel as [|fuel]; [lia|]. cbn [parse_elements]. destruct l as [|j' l].
  - cbn [map join] in *. rewrite Hj by (done || lia). reflexivity.
  - cbn [map] in *. rewrite length_join_cons in Hf. rewrite join_cons, append_assoc3, Hj by (done || lia).
    cbn [mbind option_bind String.append skip_space]. change (Ascii.eqb ","%char ","%char) with true.
    change (is_json_space ","%char) with false. cbv iota. rewrite IH by (done || lia). reflexivity.
Qed.

Definition render_member (kv : string * json) : string := quote kv.1 +:+ String ":"%char (render kv.2).

Lemma render_member_app kv rest :
  render_member kv +:+ rest = String QUOTE (escape kv.1 +:+ String QUOTE (String ":"%char (render kv.2 +:+ rest))).
Proof. unfold render_member. rewrite append_assoc3, lex_quote. reflexivity. Qed.

Lemma length_member kv : (String.length (render kv.2) + 3 ≤ String.length (render_member kv))%nat.
Proof. unfold render_member, quote. rewrite length_append. cbn [String.length]. rewrite length_append. cbn. lia. Qed.

Lemma parse_members_render fs : Forall (λ kv, parses kv.2) fs → fs ≠ [] → ∀ d fuel rest,
  forallb (λ kv, valid_utf8 kv.1 && wf d kv.2) fs = true →
  (2 * String.length (join ","%char (map render_member fs)) + 1 ≤ fuel)%nat →
  parse_members fuel d (join ","%char (map render_member fs) +:+ String "}"%char rest) = Some (fs, rest).
Proof.
  induction 1 as [|[k j] fs Hj Hl IH]; [done|]. intros _ d fuel rest Hw Hf. cbn [forallb fst snd] in *.
  apply andb_true_iff in Hw as [[Hk Hw]%andb_true_iff Hws]. unfold valid_utf8 in Hk. bool_prop.
  destruct fuel as [|fuel]; [lia|]. cbn [parse_members]. pose proof (length_member (k, j)) as Hlen.
  cbn [fst snd] in Hlen. destruct fs as [|kv fs].
  - cbn [map join] in *. rewrite render_member_app. cbn [fst snd].
    change (skip_space (String QUOTE ?t)) with (String QUOTE t). change (strip (String QUOTE "") (String QUOTE ?t)) with (Some t).
    cbn [mbind option_bind]. rewrite lex_escape. cbn [mbind option_bind].
    change (strip ":" (skip_space (String ":"%char ?t))) with (Some t). cbn [mbind option_bind].
    rewrite Hj by (done || lia). cbn. by rewrite Hk.
  - cbn [map] in *. rewrite length_join_cons in Hf. rewrite join_cons, append_assoc3, render_member_app. cbn [fst snd].
    change (skip_space (String QUOTE ?t)) with (String QUOTE t). change (strip (String QUOTE "") (String QUOTE ?t)) with (Some t).
    cbn [mbind option_bind]. rewrite lex_escape. cbn [mbind option_bind].
    change (strip ":" (skip_space (String ":"%char ?t))) with (Some t). cbn [mbind option_bind].
    cbn [String.append]. rewrite Hj by (done || lia). cbn [mbind option_bind skip_space].
    change (is_json_space ","%char) with false. change (Ascii.eqb ","%char ","%char) with true. cbv iota.
    rewrite IH by (done || lia). cbn. by rewrite Hk.
Qed.


(** Nothing an array or object holds starts with its closing bracket. *)
Lemma strip_opens c s : (∃ a t, s = String a t ∧ opens a = true) → c = "]"%char ∨ c = "}"%char →
  strip (String c "") (skip_space s) = None.
Proof.
  intros (a & t & -> & Ha) Hc. rewrite skip_space_opens by done. apply opens_spec in Ha as (_ & H1 & H2). cbn.
  by destruct Hc as [-> | ->]; rewrite ?H1, ?H2.
Qed.

Lemma join_opens c l rest : (∃ s ss, l = s :: ss ∧ ∃ a t, s = String a t ∧ opens a = true) →
  ∃ a t, join c l +:+ rest = String a t ∧ opens a = true.
Proof.
  intros (s & ss & -> & a & t & -> & Ha). exists a. destruct ss; cbn; eauto.
Qed.

Lemma append_singleton a t rest : (a +:+ String t "") +:+ rest = a +:+ String t rest.
Proof. by rewrite append_assoc3. Qed.

Lemma parse_render_nested j : parses j.
Proof.
  induction j as [|b|l|s|l IH|fs IH] using json_nested_ind; [..|apply parse_number| | |]; intros d fuel rest Hw Hs Hf;
    (destruct fuel as [|fuel]; [destruct (render_opens d _ Hw) as (? & ? & E & _); rewrite E in Hf; cbn in Hf; lia|]).
  - reflexivity.
  - by destruct b.
  - cbn [wf render] in *. unfold valid_utf8 in Hw. bool_prop. rewrite lex_quote. cbn [parse_value].
    change (skip_space (String QUOTE ?t)) with (String QUOTE t). cbv iota.
    change (Ascii.eqb QUOTE QUOTE) with true. change (Ascii.eqb QUOTE "{"%char) with false.
    change (Ascii.eqb QUOTE "["%char) with false. cbv iota. rewrite lex_escape. cbn. by rewrite Hw.
  - cbn [wf render] in *. apply andb_true_iff in Hw as [Hd Hw]. apply Z.ltb_lt in Hd.
    change ("[" +:+ ?t) with (String "["%char t) in *. cbn [String.append parse_value String.length] in *.
    rewrite append_singleton. change (skip_space (String "["%char ?t)) with (String "["%char t). cbv iota.
    change (Ascii.eqb "["%char "["%char) with true.
    change (Ascii.eqb "["%char "{"%char) with false. cbv iota. rewrite (proj2 (Z.leb_gt _ _)) by lia.
    destruct l as [|j l]; [reflexivity|]. rewrite strip_opens; [| |by left].
    + rewrite length_append in Hf. cbn [String.length] in Hf. rewrite parse_elements_render; [reflexivity|done|done|done|lia].
    + apply join_opens. cbn [map forallb] in *. apply andb_true_iff in Hw as [Hw _].
      destruct (render_opens _ _ Hw) as (a & t & E & Ha). exists (render j), (map render l). split; [done|]. by exists a, t.
  - cbn [wf render] in *. apply andb_true_iff in Hw as [Hd Hw]. apply Z.ltb_lt in Hd.
    change (map _ fs) with (map render_member fs) in *.
    change ("{" +:+ ?t) with (String "{"%char t) in *. cbn [String.append parse_value String.length] in *.
    rewrite append_singleton. change (skip_space (String "{"%char ?t)) with (String "{"%char t). cbv iota.
    change (Ascii.eqb "{"%char "{"%char) with true.
    cbv iota. rewrite (proj2 (Z.leb_gt _ _)) by lia.
    destruct fs as [|kv fs]; [reflexivity|]. rewrite strip_opens; [| |by right].
    + rewrite length_append in Hf. cbn [String.length] in Hf. rewrite parse_members_render; [reflexivity|done|done|done|lia].
    + apply join_opens. cbn [map]. exists (render_member kv), (map render_member fs). split; [done|].
      exists QUOTE. eexists. split; [|done]. pose proof (render_member_app kv "") as E. by rewrite append_nil_r in E.
Qed.

(** JSON texts round-trip.  What Go prints of a value it can represent -
    UTF-8 strings with any of their bytes escaped, number literals, at most
    10000 levels - is scanned back to that value, whatever white space
    follows; and the scanner is total, its fuel being twice the length of the
    text. *)
Theorem parse_json_render j space :
  wf maxNestingDepth j = true → skip_space space = ""%string →
  parse_json (render j +:+ space) = Some j ∧
  ∀ fuel d s, (2 * String.length s + 1 ≤ fuel)%nat → parse_value fuel d s = parse_value (2 * String.length s + 1) d s.
Proof.
  intros Hw Hs. split; [|intros; by apply enough_fuel]. unfold parse_json. rewrite parse_render_nested.
  - cbn. by rewrite Hs.
  - done.
  - destruct space as [|a space]; [done|]. cbn [skip_space stops] in *. destruct (is_json_space a); [|done].
    by rewrite orb_true_r.
  - rewrite length_append. lia.
Qed.

Lemma parse_render_witness :
  let j := JObject [("k"%string, JArray [JNumber "-0.5E+10"; JString (String "<"%char (String LF (encode_rune 8232)))])] in
  parse_json (render j +:+ " ") = Some j.
Proof. apply parse_json_render; [by vm_compute|done]. Defined.

(** Rendered integers are JSON numbers. *)
Fixpoint all_digits (s : string) : bool :=
  match s with EmptyString => true | String a s => is_digit a && all_digits s end.
Lemma take_all_digits s : all_digits s = true → take_digits s = (s, ""%string).
Proof. induction s as [|a s IH]; cbn; [done|]. intros [-> H]%andb_true_iff. by rewrite IH. Qed.
Lemma render_digits_shape fuel z acc : 0 ≤ z < 2 ^ Z.of_nat fuel → all_digits acc = true → (fuel ≠ 0)%nat →
  ∃ a s, render_digits fuel z acc = String a s ∧ is_digit a = true ∧ all_digits s = true ∧ (a = "0"%char → z = 0 ∧ s = acc).
Proof.
  revert z acc. induction fuel as [|fuel IH]; intros z acc Hz Hacc Hf; [done|].
  destruct (digit_char_spec (z mod 10)) as [Hd Hv]; [by apply Z.mod_pos_bound|]. cbn [render_digits].
  destruct (z <? 10) eqn:E; bool_prop.
  - do 2 eexists. split; [done|]. split_and!; [done|done|]. intros Ha. split; [|done].
    assert (digit_val (digit_char (z mod 10)) = digit_val "0"%char) as H by (by rewrite Ha). rewrite Hv in H. cbn in H.
    rewrite Z.mod_small in H by lia. exact H.
  - assert (Hlt : 0 ≤ z / 10 < 2 ^ Z.of_nat fuel).
    { rewrite Nat2Z.inj_succ, Z.pow_succ_r in Hz by lia. split; [apply Z.div_pos; lia|apply Z.div_lt_upper_bound; lia]. }
    assert (1 ≤ z / 10) by (apply Z.div_le_lower_bound; lia).
    destruct fuel as [|fuel]; [cbn in Hlt; lia|].
    destruct (IH (z / 10) (String (digit_char (z mod 10)) acc)) as (a & s & Es & Ha & Hs & H0); [done|cbn; by rewrite Hd, Hacc|done|].
    exists a, s. split_and!; [done..|]. intros Ez. destruct (H0 Ez). lia.
Qed.
Lemma lex_render_nat z : 0 ≤ z → lex_integer (render_nat z) = Some (render_nat z, ""%string) ∧
  ∃ a s, render_nat z = String a s ∧ is_digit a = true.
Proof.
  intros Hz. unfold render_nat.
  destruct (render_digits_shape (S (Z.to_nat (Z.log2 z))) z ""%string) as (a & s & E & Ha & Hs & H0); [|done|done|].
  { split; [done|]. rewrite Nat2Z.inj_succ, Z2Nat.id by apply Z.log2_nonneg.
    destruct (decide (z = 0)) as [->|]; [done|]. apply Z.log2_spec. lia. }
  rewrite E. split; [|eauto]. cbn [lex_integer]. destruct (Ascii.eqb a "0") eqn:E0.
  - apply Ascii.eqb_eq in E0. destruct (H0 E0) as [_ ->]. done.
  - unfold some_digits. rewrite take_all_digits by (cbn; by rewrite Ha, Hs). done.
Qed.
Lemma lex_render_int z : lex_number (render_int z) = Some (render_int z, ""%string).
Proof.
  unfold render_int. destruct (z <? 0) eqn:E; bool_prop.
  - destruct (lex_render_nat (- z)) as [Hl _]; [lia|]. unfold lex_number. cbn -[render_nat lex_integer]. rewrite Ascii.eqb_refl, Hl. cbn -[render_nat].
    assert (Happ : ∀ s : string, (s +:+ "") = s) by (intros s; induction s; cbn; congruence). by rewrite !Happ.
  - destruct (lex_render_nat z E) as [Hl (a & s & Es & Ha)]. unfold lex_number.
    assert (lex_sign (render_nat z) = (""%string, render_nat z)) as ->.
    { rewrite Es. cbn. destruct (Ascii.eqb a "-") eqn:Em; [|done]. apply Ascii.eqb_eq in Em. by subst a. }
    cbn -[render_nat lex_integer]. rewrite Hl. cbn -[render_nat].
    assert (Happ : ∀ s : string, (s +:+ "") = s) by (intros s'; induction s'; cbn; congruence). by rewrite !Happ.
Qed.

(** ** A printed value is one line *)
Definition ends_line (c : ascii) : Prop := c = LF ∨ c = CR.
Lemma escape_plain c s : ends_line c → contains_char c (escape s) = false.
Proof.
  intros Hc0. assert (Hc : ∀ a, contains_char c (escape_char a) = false) by (destruct Hc0; subst c; intros [[] [] [] [] [] [] [] []]; reflexivity).
  assert (Hu : contains_char c "\u2028" = false ∧ contains_char c "\u2029" = false) by by destruct Hc0; subst c.
  induction s as [s IH] using string_len_ind. destruct s as [|a [|b [|d s]]]; [done|cbn [escape]; by rewrite !contains_char_app, !Hc..|].
  pose proof (IH s ltac:(cbn; lia)) as H1. pose proof (IH (String b (String d s)) ltac:(cbn; lia)) as H2.
  change (contains_char c (if in_range 226 226 a && in_range 128 128 b && in_range 168 169 d
    then (if byte_of d =? 168 then "\u2028" else "\u2029") +:+ escape s
    else escape_char a +:+ escape (String b (String d s))) = false).
  destruct (_ && _); rewrite contains_char_app; [rewrite H1; destruct (byte_of d =? 168); by rewrite ?(proj1 Hu), ?(proj2 Hu)|by rewrite Hc, H2].
Qed.
Lemma escape_one_line s : contains_char LF (escape s) = false.
Proof. apply escape_plain. by left. Qed.

Lemma plain_cons c a s : contains_char c (String a s) = Ascii.eqb a c || contains_char c s.
Proof. done. Qed.
Lemma digit_plain c a : ends_line c → is_digit a = true → Ascii.eqb a c = false.
Proof. by intros [->| ->]; destruct a as [[] [] [] [] [] [] [] []]. Qed.
Lemma some_digits_plain c s d r : ends_line c → some_digits s = Some (d, r) → contains_char c d = false.
Proof.
  intros Hc. unfold some_digits. assert (H : ∀ s d r, take_digits s = (d, r) → contains_char c d = false).
  { clear s d r. induction s as [|a s IH]; intros d r; cbn [take_digits]; [by intros [= <- <-]|].
    destruct (is_digit a) eqn:Ea; [|by intros [= <- <-]]. destruct (take_digits s) as [d' r'] eqn:E. intros [= <- <-].
    rewrite plain_cons, (digit_plain c a), (IH _ _ eq_refl) by done. done. }
  destruct (take_digits s) as [d' r'] eqn:E. case_bool_decide; [done|]. intros [= <- <-]. by eapply H.
Qed.
Lemma prepend_digits_plain c p s d r : ends_line c → contains_char c p = false → prepend p (some_digits s) = Some (d, r) → contains_char c d = false.
Proof.
  intros Hc Hp (d' & Hd & ->)%prepend_some. by rewrite contains_char_app, Hp, (some_digits_plain c s d' r).
Qed.
Lemma number_plain c l r : ends_line c → lex_number l = Some (l, r) → contains_char c l = false.
Proof.
  intros Hc. unfold lex_number. destruct (lex_sign l) as [sg l1] eqn:Es.
  intros ([i l2] & Hi & ([f l3] & Hf & ([e l4] & He & [= El _])%bind_Some)%bind_Some)%bind_Some. rewrite <-El, !contains_char_app.
  assert (H : ∀ a, Ascii.eqb a c = true → a = LF ∨ a = CR) by (intros a ->%Ascii.eqb_eq; exact Hc).
  assert (Hone : ∀ a b, Ascii.eqb a b = true → Ascii.eqb b LF = false → Ascii.eqb b CR = false → contains_char c (String a "") = false).
  { intros a b ->%Ascii.eqb_eq H1 H2. cbn. destruct Hc; subst c; by rewrite ?H1, ?H2. }
  enough (contains_char c sg = false ∧ contains_char c i = false ∧ contains_char c f = false ∧ contains_char c e = false) as (-> & -> & -> & ->) by done.
  split_and!; [| | |].
  - destruct l as [|a l]; cbn [lex_sign] in Es; [by injection Es as <- _|]. destruct (Ascii.eqb a "-") eqn:Ea; injection Es as <- _; [by eapply Hone|done].
  - destruct l1 as [|a l1]; cbn [lex_integer] in Hi; [done|]. destruct (Ascii.eqb a "0") eqn:Ea; [|by eapply some_digits_plain].
    injection Hi as <- _. by eapply Hone.
  - destruct l2 as [|a l2]; cbn [lex_fraction] in Hf; [by injection Hf as <- _|]. destruct (Ascii.eqb a ".") eqn:Ea; [|by injection Hf as <- _].
    eapply prepend_digits_plain in Hf; [done|done|by eapply Hone].
  - destruct l3 as [|a l3]; cbn [lex_exponent] in He; [by injection He as <- _|]. destruct (Ascii.eqb a "e" || Ascii.eqb a "E") eqn:Ea; [|by injection He as <- _].
    assert (Hae : contains_char c (String a "") = false) by (apply orb_true_iff in Ea as [Ea|Ea]; by eapply Hone).
    destruct l3 as [|b l3]; [done|]. destruct (Ascii.eqb b "+" || Ascii.eqb b "-") eqn:Eb; [|by eapply prepend_digits_plain in He].
    eapply prepend_digits_plain in He; [done|done|]. change (String a (String b "")) with (String a "" +:+ String b "").
    rewrite contains_char_app, Hae. apply orb_true_iff in Eb as [Eb|Eb]; by eapply Hone.
Qed.
Lemma join_plain c sep l : Ascii.eqb sep c = false → Forall (λ s, contains_char c s = false) l → contains_char c (join sep l) = false.
Proof.
  intros Hs. induction 1 as [|s l H Hl IH]; [done|]. destruct l as [|t l]; [exact H|]. by rewrite join_cons, contains_char_app, H, plain_cons, Hs.
Qed.
Lemma render_no_newline c d j : ends_line c → wf d j = true → contains_char c (render j) = false.
Proof.
  intros Hc. assert (Hq : ∀ s, contains_char c (quote s) = false).
  { intros s. unfold quote. rewrite plain_cons, contains_char_app, escape_plain by done. by destruct Hc; subst c. }
  assert (Ho : ∀ s, s ∈ ["{"; "}"; "["; "]"; ":"]%string → contains_char c s = false) by (intros s Hs; destruct Hc; subst c; cbn in Hs; rewrite !elem_of_cons, elem_of_nil in Hs; naive_solver).
  assert (Hcomma : Ascii.eqb ","%char c = false) by by destruct Hc; subst c.
  revert d. induction j as [|b|l|s|l IH|fs IH] using json_nested_ind; intros d; cbn [wf render].
  - intros _. by destruct Hc; subst c.
  - intros _. by destruct Hc; subst c; destruct b.
  - intros H%bool_decide_eq_true. by eapply number_plain.
  - done.
  - intros [_ H]%andb_true_iff. rewrite !contains_char_app, (Ho "[" ltac:(set_solver)), (Ho "]" ltac:(set_solver)), join_plain; [done|done|].
    apply Forall_map. rewrite Forall_forall in IH |- *. intros j Hj. apply (IH j Hj (d - 1)). rewrite forallb_forall in H. by apply H, list_elem_of_In.
  - intros [_ H]%andb_true_iff. rewrite !contains_char_app, (Ho "{" ltac:(set_solver)), (Ho "}" ltac:(set_solver)), join_plain; [done|done|].
    apply Forall_map. rewrite Forall_forall in IH |- *. intros kv Hkv. rewrite contains_char_app, Hq, plain_cons.
    rewrite forallb_forall in H. apply list_elem_of_In in Hkv as Hin. specialize (H kv Hin). apply andb_true_iff in H as [_ H].
    rewrite (IH kv Hkv (d - 1) H). by destruct Hc; subst c.
Qed.
