(* ===== verification/Base64.v ===== *)
(** * encoding/base64 with the standard alphabet

    A byte slice inside a JSON string: four characters for every three bytes,
    padded with [=].  The decoder ignores line breaks, as Go's does, and
    refuses anything else outside the alphabet. *)
From S2P Require Import Prelude Str.

Definition std_char (z : Z) : ascii :=
  ascii_of_nat (Z.to_nat (if z <? 26 then 65 + z else if z <? 52 then 71 + z else if z <? 62 then z - 4
                          else if z =? 62 then 43 else 47)).
Definition std_value (a : ascii) : option Z :=
  let z := byte_of a in
  if (65 <=? z) && (z <=? 90) then Some (z - 65)
  else if (97 <=? z) && (z <=? 122) then Some (z - 71)
  else if (48 <=? z) && (z <=? 57) then Some (z + 4)
  else if z =? 43 then Some 62
  else if z =? 47 then Some 63
  else None.

Definition byte_char (z : Z) : ascii := ascii_of_nat (Z.to_nat z).
Definition pad : ascii := "="%char.

(** [EncodeToString]. *)
Fixpoint encode_std (s : string) : string :=
  match s with
  | String a (String b (String c rest)) =>
      let '(a, b, c) := (byte_of a, byte_of b, byte_of c) in
      String (std_char (a / 4)) (String (std_char (a mod 4 * 16 + b / 16))
        (String (std_char (b mod 16 * 4 + c / 64)) (String (std_char (c mod 64)) (encode_std rest))))
  | String a (String b EmptyString) =>
      let '(a, b) := (byte_of a, byte_of b) in
      String (std_char (a / 4)) (String (std_char (a mod 4 * 16 + b / 16))
        (String (std_char (b mod 16 * 4)) (String pad EmptyString)))
  | String a EmptyString =>
      let a := byte_of a in
      String (std_char (a / 4)) (String (std_char (a mod 4 * 16)) (String pad (String pad EmptyString)))
  | EmptyString => EmptyString
  end.

(** The decoder's loop over groups of four characters. *)
Fixpoint decode_groups (s : string) : option string :=
  match s with
  | EmptyString => Some EmptyString
  | String a (String b (String c (String d rest))) =>
      w ← std_value a; x ← std_value b;
      if Ascii.eqb d pad then
        match rest with
        | EmptyString =>
            if Ascii.eqb c pad then Some (String (byte_char (w * 4 + x / 16)) EmptyString)
            else y ← std_value c;
                 Some (String (byte_char (w * 4 + x / 16)) (String (byte_char (x mod 16 * 16 + y / 4)) EmptyString))
        | _ => None
        end
      else
        y ← std_value c; z ← std_value d; more ← decode_groups rest;
        Some (String (byte_char (w * 4 + x / 16)) (String (byte_char (x mod 16 * 16 + y / 4))
                (String (byte_char (y mod 4 * 64 + z)) more)))
  | _ => None
  end.

Fixpoint skip_breaks (s : string) : string :=
  match s with
  | EmptyString => EmptyString
  | String a s => if (byte_of a =? 10) || (byte_of a =? 13) then skip_breaks s else String a (skip_breaks s)
  end.

(** [DecodeString]. *)
Definition decode_std (s : string) : option string := decode_groups (skip_breaks s).

(** ** Round trip *)
Lemma byte_of_char z : 0 ≤ z < 256 → byte_of (ascii_of_nat (Z.to_nat z)) = z.
Proof. intros H. unfold byte_of. rewrite nat_ascii_embedding; lia. Qed.

Lemma byte_of_range a : 0 ≤ byte_of a < 256.
Proof. unfold byte_of. pose proof (nat_ascii_bounded a). lia. Qed.

Lemma byte_char_of a : byte_char (byte_of a) = a.
Proof. unfold byte_char, byte_of. by rewrite Nat2Z.id, ascii_nat_embedding. Qed.

Lemma std_char_spec z : 0 ≤ z < 64 →
  std_value (std_char z) = Some z ∧ Ascii.eqb (std_char z) pad = false ∧
  ((byte_of (std_char z) =? 10) || (byte_of (std_char z) =? 13)) = false.
Proof.
  intros Hz. assert (z ∈ seqZ 0 64) as Hin by (apply elem_of_seqZ; lia).
  revert Hin. clear Hz. revert z. apply Forall_forall. repeat constructor.
Qed.

Lemma skip_breaks_encode s : skip_breaks (encode_std s) = encode_std s.
Proof.
  assert (∀ z t, 0 ≤ z < 64 → skip_breaks t = t → skip_breaks (String (std_char z) t) = String (std_char z) t) as Hc.
  { intros z t (_ & _ & Hb)%std_char_spec Ht. cbn [skip_breaks]. by rewrite Hb, Ht. }
  induction s as [s IH] using (induction_ltof1 _ String.length); unfold ltof in IH.
  destruct s as [|a [|b [|c s]]]; cbn [encode_std]; [done|..];
    pose proof (byte_of_range a); try pose proof (byte_of_range b); try pose proof (byte_of_range c);
    repeat apply Hc; try (Z.div_mod_to_equations; lia); try done.
  apply IH. cbn. lia.
Qed.

Ltac std_step :=
  match goal with
  | |- context [std_value (std_char ?z)] =>
      let H := fresh in
      assert (0 ≤ z < 64) as H by (Z.div_mod_to_equations; lia);
      destruct (std_char_spec z H) as (-> & ? & _); clear H; cbn [mbind option_bind]
  end.

Lemma decode_encode_std s : decode_std (encode_std s) = Some s.
Proof.
  unfold decode_std. rewrite skip_breaks_encode.
  induction s as [s IH] using (induction_ltof1 _ String.length); unfold ltof in IH.
  assert (∀ x a, x = byte_of a → byte_char x = a) as Hb by (intros x a ->; apply byte_char_of).
  destruct s as [|a [|b [|c s]]]; cbn [encode_std decode_groups]; [done|..];
    pose proof (byte_of_range a); try pose proof (byte_of_range b); try pose proof (byte_of_range c).
  - repeat std_step. cbn. do 2 f_equal. apply Hb. Z.div_mod_to_equations. lia.
  - repeat std_step. change (Ascii.eqb pad pad) with true. cbn iota.
    assert (Ascii.eqb (std_char (byte_of b mod 16 * 4)) pad = false) as ->
      by (apply std_char_spec; Z.div_mod_to_equations; lia).
    do 2 f_equal; [|f_equal]; apply Hb; Z.div_mod_to_equations; lia.
  - repeat std_step. assert (Ascii.eqb (std_char (byte_of c mod 64)) pad = false) as ->
      by (apply std_char_spec; Z.div_mod_to_equations; lia).
    rewrite IH by (cbn; lia). cbn. do 2 f_equal; [|f_equal; [|f_equal]];
      apply Hb; Z.div_mod_to_equations; lia.
Qed.
