(* ===== verification/Rfc3339.v ===== *)
(** * Times as JSON strings (time.Time's MarshalJSON / UnmarshalJSON)

    RFC 3339 with nanoseconds, trailing zeros of the fraction dropped; only
    years 0 to 9999 are representable.  Parsing is Go's strict parser: two
    digit fields in range, a fraction truncated to nanoseconds, [Z] or a
    numeric offset. *)
From S2P Require Import Prelude Str GoTime Json.

Definition day_of_month (t : time) : Z :=
  day_number t - days_before_year (year t) - days_before_month (year t) (month t) + 1.

Definition days_in (y m : Z) : Z := days_before_month y (m + 1) - days_before_month y m.

(** Nanoseconds since midnight. *)
Definition clock (t : time) : Z := t mod day.

Definition pad2 (z : Z) (s : string) : string :=
  String (digit_char (z / 10)) (String (digit_char (z mod 10)) s).
Definition pad4 (z : Z) (s : string) : string := pad2 (z / 100) (pad2 (z mod 100) s).

(** The digits of a fraction below [10^k], trailing zeros dropped. *)
Fixpoint fraction (k : nat) (n : Z) (s : string) : string :=
  match k with
  | O => s
  | S k' =>
      if n =? 0 then s
      else String (digit_char (n / 10 ^ Z.of_nat k')) (fraction k' (n mod 10 ^ Z.of_nat k') s)
  end.

Definition render_time (t : time) : option string :=
  if (0 <=? year t) && (year t <=? 9999) then
    let c := clock t in
    let n := c mod second in
    Some (pad4 (year t) (String "-"%char (pad2 (month t) (String "-"%char (pad2 (day_of_month t)
      (String "T"%char (pad2 (c / hour) (String ":"%char (pad2 (c / minute mod 60)
      (String ":"%char (pad2 (c / second mod 60)
      (if n =? 0 then "Z"%string else String "."%char (fraction 9 n "Z")))))))))))))
  else None.

Definition get2 (a b : ascii) (lo hi : Z) : option Z :=
  if is_digit a && is_digit b then
    let v := 10 * digit_val a + digit_val b in
    if (lo <=? v) && (v <=? hi) then Some v else None
  else None.

(** The digits of a fraction: up to nine count, later ones are skipped. *)
Fixpoint parse_fraction (k : nat) (acc : Z) (s : string) : Z * string :=
  match s with
  | String a s' =>
      if is_digit a then
        match k with
        | O => parse_fraction O acc s'
        | S k' => parse_fraction k' (acc + digit_val a * 10 ^ Z.of_nat k') s'
        end
      else (acc, s)
  | EmptyString => (acc, s)
  end.

Definition parse_nanos (s : string) : Z * string :=
  match s with
  | String a (String b s') =>
      if Ascii.eqb a "."%char && is_digit b then parse_fraction 9 0 (String b s') else (0, s)
  | _ => (0, s)
  end.

Definition parse_zone (s : string) : option Z :=
  match s with
  | String "Z"%char EmptyString => Some 0
  | String sign (String h1 (String h2 (String c (String m1 (String m2 EmptyString))))) =>
      h ← get2 h1 h2 0 23; m ← get2 m1 m2 0 59;
      if Ascii.eqb c ":"%char then
        if Ascii.eqb sign "+"%char then Some (h * hour + m * minute)
        else if Ascii.eqb sign "-"%char then Some (- (h * hour + m * minute)) else None
      else None
  | _ => None
  end.

Definition parse_time (s : string) : option time :=
  match s with
  | String y1 (String y2 (String y3 (String y4 (String c1 (String m1 (String m2 (String c2
      (String d1 (String d2 (String c3 (String h1 (String h2 (String c4 (String n1 (String n2
      (String c5 (String s1 (String s2 rest)))))))))))))))))) =>
      century ← get2 y1 y2 0 99; y' ← get2 y3 y4 0 99;
      let y := 100 * century + y' in
      m ← get2 m1 m2 1 12; d ← get2 d1 d2 1 (days_in y m);
      h ← get2 h1 h2 0 23; n ← get2 n1 n2 0 59; sec ← get2 s1 s2 0 59;
      if Ascii.eqb c1 "-"%char && Ascii.eqb c2 "-"%char && Ascii.eqb c3 "T"%char &&
         Ascii.eqb c4 ":"%char && Ascii.eqb c5 ":"%char
      then
        let '(nanos, rest) := parse_nanos rest in
        off ← parse_zone rest;
        Some (date_month y m + (d - 1) * day + h * hour + n * minute + sec * second + nanos - off)
      else None
  | _ => None
  end.

Example render_example : render_time (1709251200 * second + 120000000) = Some "2024-03-01T00:00:00.12Z"%string.
Proof. vm_compute. done. Qed.
Example parse_example : parse_time "2024-03-01T02:30:00.12+02:30" = Some (1709251200 * second + 120000000).
Proof. vm_compute. done. Qed.

(** ** Round trip *)
Lemma get2_pad2 z lo hi :
  0 ≤ z ≤ 99 → lo ≤ z ≤ hi → get2 (digit_char (z / 10)) (digit_char (z mod 10)) lo hi = Some z.
Proof.
  intros Hz Hr. unfold get2.
  destruct (digit_char_spec (z / 10)) as [-> ->];
    [split; [apply Z.div_pos; lia|apply Z.div_lt_upper_bound; lia]|].
  destruct (digit_char_spec (z mod 10)) as [-> ->]; [by apply Z.mod_pos_bound|].
  cbn [andb]. rewrite <-Z.div_mod by done.
  by rewrite (proj2 (Z.leb_le lo z)), (proj2 (Z.leb_le z hi)) by lia.
Qed.

Lemma parse_fraction_Z k n acc :
  0 ≤ n < 10 ^ Z.of_nat k → parse_fraction k acc (fraction k n "Z") = (acc + n, "Z"%string).
Proof.
  revert n acc. induction k as [|k IH]; intros n acc Hn.
  { change (10 ^ Z.of_nat 0) with 1 in Hn. assert (n = 0) as -> by lia. by rewrite Z.add_0_r. }
  cbn [fraction]. destruct (n =? 0) eqn:E; bool_prop; [subst; by rewrite Z.add_0_r|].
  rewrite Nat2Z.inj_succ, Z.pow_succ_r in Hn by lia.
  assert (0 < 10 ^ Z.of_nat k) by (apply Z.pow_pos_nonneg; lia).
  cbn [parse_fraction].
  destruct (digit_char_spec (n / 10 ^ Z.of_nat k)) as [-> ->];
    [split; [apply Z.div_pos; lia|apply Z.div_lt_upper_bound; lia]|].
  rewrite IH by (apply Z.mod_pos_bound; lia). f_equal.
  pose proof (Z.div_mod n (10 ^ Z.of_nat k)). lia.
Qed.

Lemma parse_nanos_fraction n :
  0 < n < second → parse_nanos (String "."%char (fraction 9 n "Z")) = (n, "Z"%string).
Proof.
  intros Hn. pose proof (parse_fraction_Z 9 n 0) as Hp. change (10 ^ Z.of_nat 9) with second in Hp.
  specialize (Hp ltac:(lia)). unfold parse_nanos.
  cbn [fraction] in *. rewrite (proj2 (Z.eqb_neq n 0)) in * by lia.
  destruct (digit_char_spec (n / 10 ^ Z.of_nat 8)) as [-> _];
    [split; [apply Z.div_pos; lia|apply Z.div_lt_upper_bound; [done|]]|exact Hp].
  change (10 ^ Z.of_nat 8 * 10) with second. lia.
Qed.

Lemma day_of_month_range t : 1 ≤ day_of_month t ≤ days_in (year t) (month t).
Proof.
  unfold day_of_month, days_in.
  destruct (month_bounds t) as [Hlo Hhi].
  pose proof (date_month_next (year t) (month t) (month_range t)) as Hn.
  destruct (next_month _ _) as [y' m']. rewrite Hn in Hhi. unfold date_month in Hlo. unfold day_number.
  pose proof (Z.div_mod t day). pose proof (Z.mod_pos_bound t day ltac:(done)).
  set (a := days_before_year (year t)) in *. set (b := days_before_month (year t) (month t)) in *.
  set (c := days_before_month (year t) (month t + 1)) in *.
  clearbody a b c. clear Hn. change day with 86400000000000 in *. unfold epoch_days in *. lia.
Qed.

Lemma time_parts t :
  t = date_month (year t) (month t) + (day_of_month t - 1) * day + clock t / hour * hour +
    clock t / minute mod 60 * minute + clock t / second mod 60 * second + clock t mod second.
Proof.
  assert (Hc : ∀ c, 0 ≤ c < day → c = c / hour * hour + c / minute mod 60 * minute +
    c / second mod 60 * second + c mod second).
  { intros c Hc.
    change minute with (60 * second). change hour with (60 * (60 * second)).
    rewrite (Z.mul_comm 60 (60 * second)), (Z.mul_comm 60 second), <-!Z.div_div by done.
    set (s := c / second). pose proof (Z.div_mod c second ltac:(done)) as H1. fold s in H1.
    pose proof (Z.div_mod s 60 ltac:(done)) as H2. set (m := s / 60) in *.
    pose proof (Z.div_mod m 60 ltac:(done)) as H3. lia. }
  unfold clock. rewrite <-!Z.add_assoc, !Z.add_assoc, <-(Z.add_assoc (_ + _)).
  pose proof (Hc (t mod day) (Z.mod_pos_bound t day ltac:(done))) as Hm.
  pose proof (Z.div_mod t day ltac:(done)) as Hd. unfold date_month, day_of_month, day_number.
  set (a := days_before_year (year t)) in *. set (b := days_before_month (year t) (month t)) in *.
  set (c := t mod day) in *. clearbody a b c. unfold epoch_days.
  set (h := c / hour * hour) in *. set (m := c / minute mod 60 * minute) in *.
  set (s := c / second mod 60 * second) in *. set (n := c mod second) in *. clearbody h m s n.
  set (q := t / day) in *. clearbody q. revert Hd Hm. generalize day. intros d. nia.
Qed.

Lemma div_range a b n : 0 < b → 0 ≤ a < b * n → 0 ≤ a / b ≤ n - 1.
Proof.
  intros Hb Ha. split; [apply Z.div_pos; lia|].
  enough (a / b < n) by lia. apply Z.div_lt_upper_bound; lia.
Qed.

Lemma parse_nanos_tail n :
  0 ≤ n < second →
  parse_nanos (if n =? 0 then "Z"%string else String "."%char (fraction 9 n "Z")) = (n, "Z"%string).
Proof.
  intros Hn. destruct (n =? 0) eqn:E; bool_prop; [by subst|]. apply parse_nanos_fraction. lia.
Qed.

Lemma days_in_le y m : 1 ≤ m ≤ 12 → days_in y m ≤ 31.
Proof.
  intros Hm. unfold days_in, days_before_month. pose proof (leap_day_bounds y).
  assert (m ∈ seqZ 1 12) as Hin by (apply elem_of_seqZ; lia). clear Hm. revert m Hin.
  apply Forall_forall. unfold leap_day in *. by destruct (leap y); repeat constructor.
Qed.

(** A rendered time parses back to itself. *)
Lemma parse_render_time t s : render_time t = Some s → parse_time s = Some t.
Proof.
  unfold render_time. destruct (_ && _) eqn:Ey; [|done]. bool_prop.
  pose proof (Z.mod_pos_bound (clock t) second ltac:(done)) as Hn.
  pose proof (parse_nanos_tail (clock t mod second) Hn) as Htail. cbv zeta.
  set (tail := if _ =? 0 then _ else _) in *. clearbody tail. intros [= <-].
  assert (Hc : 0 ≤ clock t < day) by by apply Z.mod_pos_bound.
  pose proof (month_range t) as Hm. pose proof (day_of_month_range t) as Hd.
  pose proof (days_in_le (year t) (month t) Hm) as Hin.
  assert (Hy : 0 ≤ year t / 100 ≤ 99) by (apply (div_range _ 100 100); lia).
  assert (Hy' : 0 ≤ year t mod 100 ≤ 99) by (pose proof (Z.mod_pos_bound (year t) 100); lia).
  assert (Hh : 0 ≤ clock t / hour ≤ 23) by (apply (div_range _ hour 24); [done|exact Hc]).
  assert (Hmi : 0 ≤ clock t / minute mod 60 ≤ 59) by
    (pose proof (Z.mod_pos_bound (clock t / minute) 60); lia).
  assert (Hs : 0 ≤ clock t / second mod 60 ≤ 59) by
    (pose proof (Z.mod_pos_bound (clock t / second) 60); lia).
  pose proof (time_parts t) as Ht.
  set (h := clock t / hour) in *. set (mi := clock t / minute mod 60) in *.
  set (se := clock t / second mod 60) in *. set (n := clock t mod second) in *.
  clearbody h mi se n. unfold pad4, pad2. cbn [parse_time].
  rewrite (get2_pad2 (year t / 100) 0 99) by lia. cbn [mbind option_bind].
  rewrite (get2_pad2 (year t mod 100) 0 99) by lia. cbn [mbind option_bind].
  replace (100 * (year t / 100) + year t mod 100) with (year t) by
    (pose proof (Z.div_mod (year t) 100 ltac:(done)); lia).
  rewrite (get2_pad2 (month t) 1 12) by lia. cbn [mbind option_bind].
  rewrite (get2_pad2 (day_of_month t) 1) by lia. cbn [mbind option_bind].
  rewrite (get2_pad2 h 0 23), (get2_pad2 mi 0 59), (get2_pad2 se 0 59) by lia.
  cbn [mbind option_bind]. rewrite !Ascii.eqb_refl. cbn [andb].
  rewrite Htail. cbn [parse_zone mbind option_bind].
  f_equal. lia.
Qed.
