(* ===== verification/Codec.v ===== *)
(** * Go structs with json tags

    A struct is its field values in declaration order, described by a list of
    field specs: JSON name, Go type and [omitempty].  [marshal] is
    [json.Marshal] of the struct, [decode] is [json.Unmarshal] into an
    existing value of it. *)
From S2P Require Import Prelude Str GoTime Json Base64 Rfc3339.

Inductive kind := KString | KInt | KBool | KTime | KRaw | KIntPtr | KStringPtr | KTimePtr | KBytes.
Inductive value :=
  | VString (s : string)
  | VInt (z : Z)
  | VBool (b : bool)
  | VTime (t : time)
  | VRaw (r : RawMessage)
  | VIntPtr (z : option Z)
  | VStringPtr (s : option string)
  | VTimePtr (t : option time)
  (* a []byte, or nil *)
  | VBytes (b : option string).

Record spec := mkSpec { spec_name : string; spec_kind : kind; omitempty : bool }.

Definition zero_value (k : kind) : value :=
  match k with
  | KString => VString ""
  | KInt => VInt 0
  | KBool => VBool false
  | KTime => VTime zero_time
  | KRaw => VRaw None
  | KIntPtr => VIntPtr None
  | KStringPtr => VStringPtr None
  | KTimePtr => VTimePtr None
  | KBytes => VBytes None
  end.

(** The JSON of one value; a time out of range or a raw message that is not
    JSON makes [json.Marshal] fail. *)
Definition marshal_value (v : value) : option json :=
  match v with
  | VString s => Some (encode_string s)
  | VInt z => Some (JNumber (render_int z))
  | VBool b => Some (JBool b)
  | VTime t => JString <$> render_time t
  | VRaw r => r
  | VIntPtr z => Some (from_option (JNumber ∘ render_int) JNull z)
  | VStringPtr s => Some (from_option encode_string JNull s)
  | VTimePtr None => Some JNull
  | VTimePtr (Some t) => JString <$> render_time t
  | VBytes b => Some (from_option (JString ∘ encode_std) JNull b)
  end.

Definition omitted (sp : spec) (v : value) : bool :=
  omitempty sp && match v with
    | VString s => bool_decide (s = ""%string)
    | VInt z => z =? 0
    | VBool b => negb b
    | VIntPtr None | VStringPtr None | VTimePtr None | VBytes None => true
    | VBytes (Some b) => bool_decide (b = ""%string)
    | _ => false end.

Fixpoint marshal_fields (sps : list spec) (vs : list value) : option (list (string * json)) :=
  match sps, vs with
  | sp :: sps, v :: vs =>
      if omitted sp v then marshal_fields sps vs
      else j ← marshal_value v; rest ← marshal_fields sps vs; Some ((spec_name sp, j) :: rest)
  | _, _ => Some []
  end.

Definition marshal (sps : list spec) (vs : list value) : result json :=
  match marshal_fields sps vs with
  | Some fs => Ok (JObject fs)
  | None => Err (Plain "json: unsupported value")
  end.

(** A []byte is a base64 string, or an array of numbers decoded over the bytes
    already there. *)
Fixpoint decode_byte_array (l : list json) (old : string) : option string :=
  match l with
  | [] => Some EmptyString
  | j :: l =>
      let '(here, old) := match old with String a old => (a, old) | EmptyString => (NUL, EmptyString) end in
      a ← match j with
          | JNull => Some here
          | JNumber lit => z ← parse_int64 lit; if (0 <=? z) && (z <=? 255) then Some (byte_char z) else None
          | _ => None
          end;
      rest ← decode_byte_array l old; Some (String a rest)
  end.

Definition decode_bytes (j : json) (old : option string) : option (option string) :=
  match j with
  | JNull => Some None
  | JString s => Some <$> decode_std s
  | JArray l => Some <$> decode_byte_array l (default ""%string old)
  | _ => None
  end.

(** Storing a JSON value into a field of the given type. *)
Definition decode_value (k : kind) (j : json) (old : value) : option value :=
  match k, j with
  | KRaw, j => Some (VRaw (Some j))
  | KIntPtr, JNull => Some (VIntPtr None)
  | KStringPtr, JNull => Some (VStringPtr None)
  | KTimePtr, JNull => Some (VTimePtr None)
  | KBytes, j => VBytes <$> decode_bytes j (match old with VBytes b => b | _ => None end)
  | _, JNull => Some old
  | KString, JString s => Some (VString s)
  | KInt, JNumber lit => VInt <$> parse_int64 lit
  | KBool, JBool b => Some (VBool b)
  | KTime, JString s => VTime <$> parse_time s
  | KIntPtr, JNumber lit => VIntPtr ∘ Some <$> parse_int64 lit
  | KStringPtr, JString s => Some (VStringPtr (Some s))
  | KTimePtr, JString s => VTimePtr ∘ Some <$> parse_time s
  | _, _ => None
  end.

Definition set_field (i : nat) (k : kind) (j : json) (vs : list value) : option (list value) :=
  old ← vs !! i; v ← decode_value k j old; Some (<[i := v]> vs).

Fixpoint struct_fields (i : nat) (sps : list spec) : list (field (list value)) :=
  match sps with
  | [] => []
  | sp :: sps => (spec_name sp, set_field i (spec_kind sp)) :: struct_fields (S i) sps
  end.

Definition decode (sps : list spec) (m : RawMessage) (vs : list value) : option (list value) :=
  unmarshal (struct_fields 0 sps) m vs.

Definition zero_struct (sps : list spec) : list value := map (zero_value ∘ spec_kind) sps.

(** ** What survives a round trip *)
Definition value_ok (k : kind) (v : value) : Prop :=
  match k, v with
  | KString, VString s => coerce_utf8 s = s
  | KInt, VInt z => in_int64 z
  | KBool, VBool _ => True
  | KTime, VTime t => 0 ≤ year t ≤ 9999
  | KRaw, VRaw r => is_Some r
  | KIntPtr, VIntPtr z => from_option in_int64 True z
  | KStringPtr, VStringPtr s => from_option (λ s, coerce_utf8 s = s) True s
  | KTimePtr, VTimePtr t => from_option (λ t, 0 ≤ year t ≤ 9999) True t
  | KBytes, VBytes b => b ≠ Some ""%string
  | _, _ => False
  end.

Lemma render_time_some t : 0 ≤ year t ≤ 9999 → is_Some (render_time t).
Proof.
  intros H. unfold render_time.
  rewrite (proj2 (Z.leb_le _ _)), (proj2 (Z.leb_le _ _)) by lia. by eexists.
Qed.

Lemma marshal_decode_value k v :
  value_ok k v → ∃ j, marshal_value v = Some j ∧ ∀ old, decode_value k j old = Some v.
Proof.
  destruct k, v; cbn; try done; intros Hv.
  - eexists. split; [done|]. intros old. unfold encode_string. by rewrite Hv.
  - eexists. split; [done|]. intros old. cbn. by rewrite parse_render_int.
  - eauto.
  - destruct (render_time_some t Hv) as [s E]. rewrite E. eexists. split; [done|].
    intros old. cbn. by rewrite (parse_render_time _ _ E).
  - destruct Hv as [j ->]. eexists. split; [done|]. done.
  - destruct z as [z|]; cbn; eexists; (split; [done|]); intros old; cbn; [|done].
    by rewrite parse_render_int.
  - destruct s as [s|]; cbn; eexists; (split; [done|]); intros old; cbn; [|done]. by rewrite Hv.
  - destruct t as [t|]; cbn; [|by eexists]. destruct (render_time_some t Hv) as [s E]. rewrite E.
    eexists. split; [done|]. intros old. cbn. by rewrite (parse_render_time _ _ E).
  - destruct b as [b|]; cbn; eexists; (split; [done|]); intros old; cbn; [|done]. by rewrite decode_encode_std.
Qed.

Lemma find_struct_field i pre sp suf :
  NoDup (map spec_name (pre ++ sp :: suf)) →
  find_field (struct_fields i (pre ++ sp :: suf)) (spec_name sp) =
    Some (spec_name sp, set_field (i + length pre) (spec_kind sp)).
Proof.
  revert i. induction pre as [|sp' pre IH]; intros i Hnd; cbn.
  { unfold find_field. cbn. rewrite bool_decide_eq_true_2 by done. by rewrite Nat.add_0_r. }
  apply NoDup_cons in Hnd as [Hn Hnd]. specialize (IH (S i) Hnd). unfold find_field in *. cbn.
  rewrite bool_decide_eq_false_2.
  - rewrite Nat.add_succ_r. rewrite Nat.add_succ_l in IH.
    destruct (find _ _) eqn:E; [done|]. exfalso.
    assert (Hin : (spec_name sp, set_field (S i + length pre) (spec_kind sp)) ∈
      struct_fields (S i) (pre ++ sp :: suf)).
    { clear. generalize (S i). induction pre as [|sp1 pre IH]; intros i0; cbn; [rewrite Nat.add_0_r; by left|].
      right. rewrite Nat.add_succ_r. apply (IH (S i0)). }
    apply list_elem_of_In in Hin. pose proof (find_none _ _ E _ Hin) as Hf. cbn in Hf.
    by rewrite bool_decide_eq_true_2 in Hf.
  - intros E. apply Hn. rewrite E. apply list_elem_of_fmap. exists sp. split; [done|].
    apply elem_of_app. right. by left.
Qed.

(** Decoding the fields of a marshalled struct rebuilds them one by one. *)
Lemma decode_marshal_fields pre vpre suf vsuf fs strict :
  NoDup (map spec_name (pre ++ suf)) → length pre = length vpre →
  Forall2 (λ sp v, value_ok (spec_kind sp) v) suf vsuf →
  marshal_fields suf vsuf = Some fs →
  decode_fields strict (struct_fields 0 (pre ++ suf)) fs (vpre ++ zero_struct suf) =
    Some (vpre ++ vsuf).
Proof.
  intros Hnd Hlen Hok. revert pre vpre fs Hnd Hlen.
  induction Hok as [|sp v suf vsuf Hv Hok IH]; intros pre vpre fs Hnd Hlen Hm; cbn in Hm.
  { by simplify_eq. }
  assert (Happ : pre ++ sp :: suf = (pre ++ [sp]) ++ suf) by by rewrite <-app_assoc.
  assert (Hstep : ∀ fs, marshal_fields suf vsuf = Some fs →
    decode_fields strict (struct_fields 0 (pre ++ sp :: suf)) fs ((vpre ++ [v]) ++ zero_struct suf) =
      Some (vpre ++ v :: vsuf)).
  { intros fs' Hfs'. rewrite Happ, (IH (pre ++ [sp]) (vpre ++ [v])); [by rewrite <-app_assoc| | |done].
    - by rewrite <-Happ.
    - rewrite !length_app. cbn. lia. }
  destruct (omitted sp v) eqn:Eo.
  - specialize (Hstep fs Hm). rewrite <-app_assoc in Hstep. cbn in Hstep |- *.
    assert (zero_value (spec_kind sp) = v) as ->; [|done].
    unfold omitted in Eo. destruct (spec_kind sp), v; bool_prop; try done; repeat case_match; bool_prop;
      by subst.
  - apply bind_Some in Hm as (j & Hj & Hm). apply bind_Some in Hm as (rest & Hrest & [= <-]).
    destruct (marshal_decode_value _ _ Hv) as (j' & Hj' & Hdec).
    assert (j' = j) as -> by congruence.
    cbn [decode_fields]. rewrite (find_struct_field 0 pre sp suf Hnd). cbn [snd Nat.add].
    unfold set_field at 1. cbn [zero_struct map].
    rewrite lookup_app_r by lia. rewrite Hlen, Nat.sub_diag. cbn [lookup list_lookup mbind option_bind].
    rewrite Hdec. cbn [mbind option_bind].
    rewrite insert_app_r_alt by lia. rewrite Nat.sub_diag. cbn [insert list_insert].
    specialize (Hstep rest Hrest). by rewrite <-app_assoc in Hstep.
Qed.

Lemma marshal_fields_ok sps vs :
  Forall2 (λ sp v, value_ok (spec_kind sp) v) sps vs → is_Some (marshal_fields sps vs).
Proof.
  induction 1 as [|sp v sps vs Hv _ [fs IH]]; cbn; [by eexists|]. rewrite IH.
  destruct (marshal_decode_value _ _ Hv) as (j & -> & _). destruct (omitted _ _); by eexists.
Qed.

(** A struct whose values are representable survives its JSON. *)
Lemma decode_marshal sps vs :
  NoDup (map spec_name sps) → Forall2 (λ sp v, value_ok (spec_kind sp) v) sps vs →
  ∃ j, marshal sps vs = Ok j ∧ decode sps (Some j) (zero_struct sps) = Some vs.
Proof.
  intros Hnd Hok. destruct (marshal_fields_ok _ _ Hok) as [fs Hfs].
  exists (JObject fs). unfold marshal. rewrite Hfs. split; [done|].
  unfold decode, unmarshal. cbn. by apply (decode_marshal_fields [] [] sps vs).
Qed.
