(* ===== verification/Tx.v ===== *)
(** * Statements, faults and transactions

    A store operation issues a sequence of statements against a state [S] (the
    database, or the database together with the external services the
    operation calls).  Each statement succeeds or fails as a fault script
    says: the script is universally quantified in the theorems, so they hold
    whatever the network, the server and the caller's context do.  A failing
    statement has no effect, or (an acknowledgement that was lost) its whole
    effect.

    [transaction] is the shape of every transactional method: begin, a body,
    commit, and a deferred rollback that undoes the body's database effects on
    every path that does not commit - early returns included. *)
From S2P Require Import Prelude.

Inductive fault :=
  | Done
  | Fault (e : error)
  | AckLost (e : error)
  (* a batch call failed after the items at these positions took effect *)
  | Partial (kept : list nat) (e : error).
Definition script := list fault.

Definition M (S A : Type) : Type := script → S → result A * script * S.

Section Monad.
Context {S : Type}.

#[export] Instance M_ret : MRet (M S) := λ A a fs s, (Ok a, fs, s).
#[export] Instance M_bind : MBind (M S) := λ A B f m fs s,
  match m fs s with
  | (Ok a, fs, s) => f a fs s
  | (Err e, fs, s) => (Err e, fs, s)
  end.

Definition throw {A} (e : error) : M S A := λ fs s, (Err e, fs, s).
Definition lift {A} (r : result A) : M S A := λ fs s, (r, fs, s).
(** [fmt.Errorf("msg: %w", err)]. *)
Definition wrapM {A} (msg : string) (m : M S A) : M S A := λ fs s,
  let '(r, fs, s) := m fs s in (wrap_err msg r, fs, s).
(** [if errors.Is(err, e) { return e' }], any other error wrapped. *)
Definition on_error {A} (e e' : error) (msg : string) (m : M S A) : M S A := λ fs s,
  let '(r, fs, s) := m fs s in
  (match r with
   | Err err => Err (if errors_is err e then e' else Wrap msg err)
   | Ok a => Ok a
   end, fs, s).

(** The same, other errors returned as they are. *)
Definition replace_error {A} (e e' : error) (m : M S A) : M S A := λ fs s,
  let '(r, fs, s) := m fs s in
  (match r with
   | Err err => Err (if errors_is err e then e' else err)
   | Ok a => Ok a
   end, fs, s).
(** The items at the positions [kept], each at most once. *)
Definition select {B} (kept : list nat) (items : list B) : list B :=
  omap (λ i, items !! i) (remove_dups kept).
(** A call that writes several items: a failure may leave any of them written,
    in any order. *)
Definition batch {B} (put : list B → S → S) (items : list B) : M S () := λ fs s,
  match fs with
  | [] => (Ok (), [], put items s)
  | Done :: fs => (Ok (), fs, put items s)
  | Fault e :: fs => (Err e, fs, s)
  | AckLost e :: fs => (Err e, fs, put items s)
  | Partial kept e :: fs => (Err e, fs, put (select kept items) s)
  end.

(** One statement: [f] is its effect, an error of [f] a constraint violation
    or a row that is not there. *)
Definition stmt {A} (f : S → result (A * S)) : M S A := λ fs s,
  let apply fs := match f s with
                  | Ok (a, s') => (Ok a, fs, s')
                  | Err e => (Err e, fs, s)
                  end in
  match fs with
  | [] => apply []
  | Done :: fs => apply fs
  | Fault e :: fs | Partial _ e :: fs => (Err e, fs, s)
  | AckLost e :: fs =>
      match f s with
      | Ok (_, s') => (Err e, fs, s')
      | Err _ => (Err e, fs, s)
      end
  end.

Definition query {A} (f : S → A) : M S A := stmt (λ s, Ok (f s, s)).
Definition exec (f : S → S) : M S () := stmt (λ s, Ok ((), f s)).
End Monad.

(** What a rollback restores: the database part of the state. *)
Class Rollback (S : Type) := restore : S → S → S.

Inductive outcome (A : Type) := Commit (a : A) | Rolled (a : A).
Arguments Commit {A} _.
Arguments Rolled {A} _.

Definition transaction {S A} `{Rollback S} (begin_msg commit_msg : string)
    (body : M S (outcome A)) : M S A := λ fs s,
  match wrapM begin_msg (query (λ _, ())) fs s with
  | (Err e, fs, s) => (Err e, fs, s)
  | (Ok _, fs, s0) =>
      match body fs s0 with
      | (Err e, fs, s') => (Err e, fs, restore s0 s')
      | (Ok (Rolled a), fs, s') => (Ok a, fs, restore s0 s')
      | (Ok (Commit a), fs, s') =>
          match fs with
          | Fault e :: fs | Partial _ e :: fs => (Err (Wrap commit_msg e), fs, restore s0 s')
          | AckLost e :: fs => (Err (Wrap commit_msg e), fs, s')
          | Done :: fs => (Ok a, fs, s')
          | [] => (Ok a, [], s')
          end
      end
  end.

(** ** Reasoning *)

(** What a failing batch wrote is a part of the batch. *)
Lemma select_submseteq {B} kept (items : list B) : select kept items ⊆+ items.
Proof.
  assert (Hall : omap (λ i, items !! i) (seq 0 (length items)) = items).
  { induction items as [|x items IH]; [done|]. cbn. f_equal. rewrite <-fmap_S_seq. etrans; [|exact IH]. by apply list_omap_ext, Forall2_fmap_l, Forall_Forall2_diag, Forall_true. }
  assert (Hin : ∀ ks : list nat, omap (λ i, items !! i) ks = omap (λ i, items !! i) (filter (λ i, i < length items)%nat ks)).
  { induction ks as [|i ks IH]; [done|]. rewrite filter_cons. cbn. destruct (decide _) as [Hi|Hi]; cbn; rewrite IH; [done|].
    by rewrite lookup_ge_None_2 by lia. }
  unfold select. rewrite Hin.
  enough (omap (λ i, items !! i) (filter (λ i, i < length items)%nat (remove_dups kept)) ⊆+ omap (λ i, items !! i) (seq 0 (length items))) as H
    by by rewrite Hall in H.
  destruct (submseteq_Permutation (filter (λ i, i < length items)%nat (remove_dups kept)) (seq 0 (length items))) as [rest ->].
  - apply NoDup_submseteq; [apply NoDup_filter, NoDup_remove_dups|]. intros i [Hi _]%list_elem_of_filter. by apply elem_of_seq; lia.
  - rewrite omap_app. by apply submseteq_inserts_r.
Qed.
Lemma select_subset {B} kept (items : list B) x : x ∈ select kept items → x ∈ items.
Proof. intros H. by eapply elem_of_submseteq, select_submseteq. Qed.
Lemma select_nil {B} kept : select kept ([] : list B) = [].
Proof. apply submseteq_nil_r, select_submseteq. Qed.
Lemma select_single {B} kept (x : B) : select kept [x] = [] ∨ select kept [x] = [x].
Proof.
  pose proof (select_submseteq kept [x]) as H. pose proof (submseteq_length _ _ H) as Hl.
  destruct (select kept [x]) as [|y [|z l]]; [by left| |cbn in Hl; lia].
  right. by apply singleton_submseteq in H as ->.
Qed.
Lemma select_fmap {B C} (f : B → C) kept items : select kept (map f items) = map f (select kept items).
Proof.
  unfold select. induction (remove_dups kept) as [|i ks IH]; [done|]. cbn. rewrite list_lookup_fmap, IH.
  by destruct (items !! i).
Qed.

(** The state after running [m]. *)
Definition state_after {S A} (m : M S A) (fs : script) (s : S) : S := (m fs s).2.
Definition result_of {S A} (m : M S A) (fs : script) (s : S) : result A := (m fs s).1.1.

(** [m] keeps [R s] between the state it starts from and every state it can
    leave, whatever fails. *)
Definition stays {S A} (R : S → S → Prop) (m : M S A) : Prop :=
  ∀ fs s, R s (state_after m fs s).

Section Stays.
Context {S : Type} (R : S → S → Prop) `{!PreOrder R}.

Lemma stays_ret {A} (a : A) : stays R (mret a : M S A).
Proof. intros fs s. reflexivity. Qed.
Lemma stays_throw {A} e : stays R (throw e : M S A).
Proof. intros fs s. reflexivity. Qed.
Lemma stays_lift {A} (r : result A) : stays R (lift r).
Proof. intros fs s. reflexivity. Qed.
Lemma stays_wrapM {A} msg (m : M S A) : stays R m → stays R (wrapM msg m).
Proof.
  intros Hm fs s. specialize (Hm fs s). unfold state_after, wrapM in *.
  by destruct (m fs s) as [[??]?].
Qed.
Lemma stays_on_error {A} e e' msg (m : M S A) : stays R m → stays R (on_error e e' msg m).
Proof.
  intros Hm fs s. specialize (Hm fs s). unfold state_after, on_error in *.
  by destruct (m fs s) as [[??]?].
Qed.
Lemma stays_replace_error {A} e e' (m : M S A) : stays R m → stays R (replace_error e e' m).
Proof.
  intros Hm fs s. specialize (Hm fs s). unfold state_after, replace_error in *.
  by destruct (m fs s) as [[??]?].
Qed.
Lemma stays_batch {B} (put : list B → S → S) items :
  (∀ l s, R s (put l s)) → stays R (batch put items).
Proof.
  intros Hp fs s. unfold state_after, batch. destruct fs as [|[] fs]; cbn; auto; reflexivity.
Qed.
Lemma stays_bind {A B} (m : M S A) (f : A → M S B) :
  stays R m → (∀ a, stays R (f a)) → stays R (m ≫= f).
Proof.
  intros Hm Hf fs s. specialize (Hm fs s). unfold state_after, mbind, M_bind in *.
  destruct (m fs s) as [[[a|e] fs'] s']; [|done]. etrans; [exact Hm|]. apply Hf.
Qed.
Lemma stays_stmt {A} (f : S → result (A * S)) :
  (∀ s a s', f s = Ok (a, s') → R s s') → stays R (stmt f).
Proof.
  intros Hf fs s. unfold state_after, stmt.
  destruct fs as [|[] fs]; destruct (f s) as [[a s']|] eqn:E; cbn; eauto; reflexivity.
Qed.
Lemma stays_query {A} (f : S → A) : stays R (query f).
Proof. apply stays_stmt. intros s a s' [= _ ->]. reflexivity. Qed.
Lemma stays_exec (f : S → S) : (∀ s, R s (f s)) → stays R (exec f).
Proof. intros Hf. apply stays_stmt. intros s [] s' [= <-]. apply Hf. Qed.
End Stays.

(** A statement that succeeded had its effect. *)
Lemma stmt_ok {S A} (f : S → result (A * S)) fs s a fs' s' :
  stmt f fs s = (Ok a, fs', s') → f s = Ok (a, s').
Proof.
  unfold stmt. destruct fs as [|[] fs]; destruct (f s) as [[??]|]; intros; simplify_eq; done.
Qed.

Lemma bind_M_ok {S A B} (m : M S A) (f : A → M S B) fs s b fs' s' :
  (m ≫= f) fs s = (Ok b, fs', s') →
  ∃ a fs1 s1, m fs s = (Ok a, fs1, s1) ∧ f a fs1 s1 = (Ok b, fs', s').
Proof.
  unfold mbind, M_bind. destruct (m fs s) as [[[a|e] fs1] s1]; [|done]. eauto.
Qed.

Lemma wrapM_ok {S A} msg (m : M S A) fs s a fs' s' :
  wrapM msg m fs s = (Ok a, fs', s') → m fs s = (Ok a, fs', s').
Proof. unfold wrapM. destruct (m fs s) as [[[|] ?] ?]; cbn; by intros [=-> -> ->]. Qed.

Lemma on_error_ok {S A} e e' msg (m : M S A) fs s a fs' s' :
  on_error e e' msg m fs s = (Ok a, fs', s') → m fs s = (Ok a, fs', s').
Proof. unfold on_error. destruct (m fs s) as [[[|] ?] ?]; cbn; by intros [=-> -> ->]. Qed.

Lemma replace_error_ok {S A} e e' (m : M S A) fs s a fs' s' :
  replace_error e e' m fs s = (Ok a, fs', s') → m fs s = (Ok a, fs', s').
Proof. unfold replace_error. destruct (m fs s) as [[[|] ?] ?]; cbn; by intros [=-> -> ->]. Qed.

Lemma batch_ok {S B} (put : list B → S → S) items fs s u fs' s' :
  batch put items fs s = (Ok u, fs', s') → s' = put items s.
Proof. unfold batch. destruct fs as [|[] fs]; intros; by simplify_eq. Qed.

Lemma query_ok {S A} (f : S → A) fs s a fs' s' :
  query f fs s = (Ok a, fs', s') → a = f s ∧ s' = s.
Proof. intros H%stmt_ok. by simplify_eq. Qed.

Lemma exec_ok {S} (f : S → S) fs s u fs' s' :
  exec f fs s = (Ok u, fs', s') → s' = f s.
Proof. intros H%stmt_ok. by simplify_eq. Qed.

(** Every transaction is atomic: nothing happened, or the body's database
    effects were rolled back (a success is then an early return), or the body
    ran to its commit, acknowledged or with the acknowledgement lost. *)
Lemma transaction_cases {S A} `{Rollback S} bm cm (body : M S (outcome A)) fs s r fs' s' :
  transaction bm cm body fs s = (r, fs', s') →
  (s' = s ∧ is_ok r = false) ∨
  (∃ fs1, s' = restore s (state_after body fs1 s) ∧
    ∀ a, r = Ok a → result_of body fs1 s = Ok (Rolled a)) ∨
  (∃ fs1 a, result_of body fs1 s = Ok (Commit a) ∧ s' = state_after body fs1 s ∧
    ∀ a', r = Ok a' → a' = a).
Proof.
  unfold transaction, result_of, state_after.
  destruct (wrapM bm _ fs s) as [[[u|e] fs1] s0] eqn:Eb.
  - apply wrapM_ok, query_ok in Eb as [_ ->].
    destruct (body fs1 s) as [[[[a|a]|e] fs2] s2] eqn:E; cbn;
      [destruct fs2 as [|[|e|e|n e] fs2]| |]; intros [= <- <- <-].
    + right; right. exists fs1, a. rewrite E. naive_solver.
    + right; right. exists fs1, a. rewrite E. naive_solver.
    + right; left. exists fs1. by rewrite E.
    + right; right. exists fs1, a. by rewrite E.
    + right; left. exists fs1. by rewrite E.
    + right; left. exists fs1. rewrite E. naive_solver.
    + right; left. exists fs1. by rewrite E.
  - intros [= <- <- <-]. left. split; [|done].
    unfold wrapM, query, stmt in Eb. destruct fs as [|[] fs]; cbn in Eb; by simplify_eq.
Qed.

(** An invariant of the rolled-back state and of every committed body is an
    invariant of the transaction. *)
Lemma transaction_inv {S A} `{Rollback S} bm cm (body : M S (outcome A)) (P : S → Prop) fs s :
  P s → (∀ s', P (restore s s')) →
  (∀ fs1 a fs2 s', body fs1 s = (Ok (Commit a), fs2, s') → P s') →
  P (state_after (transaction bm cm body) fs s).
Proof.
  intros Hs Hr Hc. destruct (transaction bm cm body fs s) as [[r fs'] s'] eqn:E.
  unfold state_after. rewrite E. cbn.
  apply transaction_cases in E as [[-> _]|[(fs1 & -> & _)|(fs1 & a & Hres & -> & _)]]; [done|by apply Hr|].
  unfold result_of, state_after in *. destruct (body fs1 s) as [[r1 fs2] s2] eqn:E. cbn in *.
  subst r1. by eapply Hc.
Qed.

(** A relation the body keeps, and that survives a rollback, is kept by the
    transaction. *)
Lemma stays_rollback {S A} `{Rollback S} (R : S → S → Prop) `{!PreOrder R} bm cm (body : M S (outcome A)) :
  stays R body → (∀ s s', R s s' → R s (restore s s')) → stays R (transaction bm cm body).
Proof.
  intros Hbody Hr fs s. destruct (transaction bm cm body fs s) as [[r fs'] s'] eqn:E.
  unfold state_after. rewrite E. cbn.
  apply transaction_cases in E as [[-> _]|[(fs1 & -> & _)|(fs1 & a & _ & -> & _)]].
  - reflexivity.
  - by apply Hr.
  - apply Hbody.
Qed.

(** A body without early returns. *)
Definition commits_only {S A} (body : M S (outcome A)) : Prop :=
  ∀ fs s a, result_of body fs s ≠ Ok (Rolled a).

Lemma commits_bind {S A B} (m : M S B) (f : B → M S (outcome A)) :
  (∀ b, commits_only (f b)) → commits_only (m ≫= f).
Proof.
  intros Hf fs s a. unfold result_of, mbind, M_bind.
  destruct (m fs s) as [[[b|e] fs1] s1]; [apply Hf|done].
Qed.
Lemma commits_ret {S A} (a : A) : commits_only (mret (Commit a) : M S _).
Proof. by intros fs s a'. Qed.
Lemma commits_throw {S A} e : commits_only (throw e : M S (outcome A)).
Proof. by intros fs s a'. Qed.

Ltac solve_commits :=
  repeat first [apply commits_ret | apply commits_throw | apply commits_bind; intros ? | case_match].

(** A transaction of such a body that reports success has committed. *)
Lemma transaction_committed {S A} `{Rollback S} bm cm (body : M S (outcome A)) fs s a fs' s' :
  transaction bm cm body fs s = (Ok a, fs', s') → commits_only body →
  ∃ fs1 fs2, body fs1 s = (Ok (Commit a), fs2, s').
Proof.
  intros Ht Hno. apply transaction_cases in Ht as [[_ ?]|[(fs1 & _ & Hr)|(fs1 & a1 & Hres & -> & Ha)]]; [done| |].
  - exfalso. by eapply Hno, Hr.
  - rewrite (Ha a eq_refl). unfold result_of, state_after in *.
    destruct (body fs1 s) as [[r fs2] s2] eqn:E. cbn in Hres. subst r. exists fs1, fs2. cbn. by rewrite E.
Qed.

(** Failing statements: no effect, or the whole effect. *)
Lemma query_cases {S A} (f : S → A) fs s r fs' s' :
  query f fs s = (r, fs', s') → s' = s ∧ (r = Ok (f s) ∨ is_ok r = false).
Proof.
  unfold query, stmt. destruct fs as [|[] fs]; intros; simplify_eq; eauto.
Qed.

Lemma exec_cases {S A} (f : S → result (A * S)) fs s r fs' s' :
  stmt f fs s = (r, fs', s') →
  (∃ a, r = Ok a ∧ f s = Ok (a, s')) ∨ is_ok r = false ∧ (s' = s ∨ ∃ a, f s = Ok (a, s')).
Proof.
  unfold stmt. destruct fs as [|[] fs]; destruct (f s) as [[a s1]|] eqn:E; intros; simplify_eq; eauto 7.
Qed.

Lemma batch_cases {S B} (put : list B → S → S) items fs s r fs' s' :
  (put [] s = s) → batch put items fs s = (r, fs', s') →
  ∃ written, s' = put written s ∧ (written = items ∨ is_ok r = false ∧ ∃ kept, written = select kept items).
Proof.
  intros H0. unfold batch. destruct fs as [|[| | |kept] fs]; intros; simplify_eq; eauto 7.
  exists []. split; [done|]. right. split; [done|]. by exists [].
Qed.

Lemma batch_part {S B} (put : list B → S → S) items fs s r fs' s' :
  (put [] s = s) → batch put items fs s = (r, fs', s') →
  ∃ written, s' = put written s ∧ ∀ x, x ∈ written → x ∈ items.
Proof.
  intros H0 (l & -> & [->|(_ & kept & ->)])%batch_cases; [by exists items| |done].
  exists (select kept items). split; [done|]. intros x. apply select_subset.
Qed.

Lemma wrapM_cases {S A} msg (m : M S A) fs s r fs' s' :
  wrapM msg m fs s = (r, fs', s') →
  ∃ r0, m fs s = (r0, fs', s') ∧ r = wrap_err msg r0.
Proof. unfold wrapM. destruct (m fs s) as [[r0 ?]?]. intros [= <- <- <-]. eauto. Qed.

Lemma bind_M_cases {S A B} (m : M S A) (f : A → M S B) fs s r fs' s' :
  (m ≫= f) fs s = (r, fs', s') →
  (∃ a fs1 s1, m fs s = (Ok a, fs1, s1) ∧ f a fs1 s1 = (r, fs', s')) ∨
  (∃ e, m fs s = (Err e, fs', s') ∧ r = Err e).
Proof.
  unfold mbind, M_bind. destruct (m fs s) as [[[a|e] fs1] s1]; [eauto 6|].
  intros [= <- <- <-]. eauto.
Qed.

Ltac inv_M :=
  repeat match goal with
  | H : (_ ≫= _) _ _ = (Ok _, _, _) |- _ => apply bind_M_ok in H as (? & ? & ? & ? & ?)
  | H : wrapM _ _ _ _ = (Ok _, _, _) |- _ => apply wrapM_ok in H
  | H : on_error _ _ _ _ _ _ = (Ok _, _, _) |- _ => apply on_error_ok in H
  | H : replace_error _ _ _ _ _ = (Ok _, _, _) |- _ => apply replace_error_ok in H
  | H : batch _ _ _ _ = (Ok _, _, _) |- _ => apply batch_ok in H
  | H : query _ _ _ = (Ok _, _, _) |- _ => apply query_ok in H as [? ?]
  | H : exec _ _ _ = (Ok _, _, _) |- _ => apply exec_ok in H
  | H : stmt _ _ _ = (Ok _, _, _) |- _ => apply stmt_ok in H
  | H : lift _ _ _ = (Ok _, _, _) |- _ => unfold lift in H; injection H as H ? ?
  | H : throw _ _ _ = (Ok _, _, _) |- _ => discriminate H
  | H : mret _ _ _ = (Ok _, _, _) |- _ => injection H as ? ? ?
  end; subst.

(** ** Where errors come from

    [fails P m]: if every fault of the script carries an error of [P], so does
    every failure of [m], and the rest of the script still does. *)
Definition faults_in (P : error → Prop) (fs : script) : Prop :=
  Forall (λ f, match f with Done => True | Fault e | AckLost e | Partial _ e => P e end) fs.
Definition fails {S A} (P : error → Prop) (m : M S A) : Prop := ∀ fs s r fs' s',
  m fs s = (r, fs', s') → faults_in P fs → faults_in P fs' ∧ ∀ e, r = Err e → P e.

Section Fails.
Context {S : Type} (P : error → Prop) (P_wrap : ∀ msg e, P e → P (Wrap msg e)).

Lemma fails_ret {A} (a : A) : fails P (mret a : M S A).
Proof. intros fs s r fs' s' [= <- <- <-]. done. Qed.
Lemma fails_throw {A} e : P e → fails P (throw e : M S A).
Proof. intros He fs s r fs' s' [= <- <- <-] Hf. split; [done|by intros ? [= <-]]. Qed.
Lemma fails_lift {A} (x : result A) : (∀ e, x = Err e → P e) → fails P (lift x : M S A).
Proof. intros He fs s r fs' s' [= <- <- <-]. done. Qed.
Lemma fails_wrapM {A} msg (m : M S A) : fails P m → fails P (wrapM msg m).
Proof.
  intros Hm fs s r fs' s' (r0 & H & ->)%wrapM_cases Hf. destruct (Hm _ _ _ _ _ H Hf) as [? He].
  split; [done|]. intros e. destruct r0; [done|]. intros [= <-]. auto.
Qed.
Lemma fails_on_error {A} e e' msg (m : M S A) : P e' → fails P m → fails P (on_error e e' msg m).
Proof.
  intros He' Hm fs s r fs' s' H Hf. unfold on_error in H. destruct (m fs s) as [[r0 fs0] s0] eqn:E.
  destruct (Hm _ _ _ _ _ E Hf) as [? He]. destruct r0; simplify_eq; split; try done.
  intros x [= <-]. destruct (errors_is _ _); auto.
Qed.
Lemma fails_replace_error {A} e e' (m : M S A) : P e' → fails P m → fails P (replace_error e e' m).
Proof.
  intros He' Hm fs s r fs' s' H Hf. unfold replace_error in H. destruct (m fs s) as [[r0 fs0] s0] eqn:E.
  destruct (Hm _ _ _ _ _ E Hf) as [? He]. destruct r0; simplify_eq; split; try done.
  intros x [= <-]. destruct (errors_is _ _); auto.
Qed.
Lemma fails_bind {A B} (m : M S A) (f : A → M S B) : fails P m → (∀ a, fails P (f a)) → fails P (m ≫= f).
Proof.
  intros Hm Hk fs s r fs' s' H Hf. unfold mbind, M_bind in H. destruct (m fs s) as [[[a|e] fs1] s1] eqn:E.
  - destruct (Hm _ _ _ _ _ E Hf) as [Hf1 _]. by apply (Hk a _ _ _ _ _ H).
  - destruct (Hm _ _ _ _ _ E Hf) as [? He]. simplify_eq. split; [done|]. intros ? [= <-]. auto.
Qed.
Lemma fails_stmt {A} (f : S → result (A * S)) : (∀ s e, f s = Err e → P e) → fails P (stmt f).
Proof.
  intros Hf fs s r fs' s' H Hs. unfold stmt in H.
  destruct fs as [|[|e|e|n e] fs]; [|apply Forall_cons in Hs as [H0 Hs]..];
    destruct (f s) as [[a s1]|e1] eqn:E; simplify_eq; split; try done; intros ? [= <-]; eauto.
Qed.
Lemma fails_query {A} (f : S → A) : fails P (query f).
Proof. apply fails_stmt. done. Qed.
Lemma fails_batch {B} (put : list B → S → S) items : fails P (batch put items).
Proof.
  intros fs s r fs' s' H Hs. unfold batch in H.
  destruct fs as [|[|e|e|n e] fs]; [|apply Forall_cons in Hs as [H0 Hs]..]; simplify_eq; split; try done; by intros ? [= <-].
Qed.
Lemma fails_transaction {A} `{Rollback S} bm cm (body : M S (outcome A)) : fails P body → fails P (transaction bm cm body).
Proof.
  intros Hb fs s r fs' s' Ht Hf. unfold transaction in Ht.
  destruct (wrapM bm _ fs s) as [[[u|e] fs1] s1] eqn:E;
    destruct (fails_wrapM bm _ (fails_query _) _ _ _ _ _ E Hf) as [Hf1 He1].
  - destruct (body fs1 s1) as [[r1 fs2] s2] eqn:E2. destruct (Hb _ _ _ _ _ E2 Hf1) as [Hf2 He2].
    destruct r1 as [[a|a]|e1]; simplify_eq; [|by split|by split; [|intros ? [= <-]; auto]].
    destruct fs2 as [|[|e|e|n e] fs2]; [|apply Forall_cons in Hf2 as [H0 Hf2]..]; simplify_eq;
      split; try done; intros ? [= <-]; auto.
  - simplify_eq. split; [done|]. intros ? [= <-]. auto.
Qed.
End Fails.
