(* ===== verification/Migrations.v ===== *)
(** * The schema migrations (internal/store/postgres/migrations/migrations.go)

    The embedded files and their names, the version table and the transactions
    that apply and roll back one migration each.  What a script does to the
    schema is Postgres's, and nothing is assumed of it: [climbed] are the schemas
    that up and down scripts, each run at its turn, make. *)
From S2P Require Import Prelude Str Json Tx.

Record migration := mkMigration { version : Z; name : string; up : string; down : string }.

(** ** The embedded files *)
(** An entry of [fs.ReadDir], sorted by name; [Content] is what reading it gives. *)
Record entry := mkEntry { entry_Name : string; IsDir : bool; Content : result string }.

Definition HasSuffix (s suffix : string) : bool :=
  (String.length suffix <=? String.length s)%nat &&
  bool_decide (String.substring (String.length s - String.length suffix) (String.length suffix) s = suffix).
(** The name in an error is written as it is, where the code quotes it and adds
    what ParseInt found wrong. *)
Definition invalid_filename (file : string) : error := Plain ("invalid migration filename " +:+ file).

(** The version, the name and whether it is the up script. *)
Definition parse_filename (file : string) : result (Z * string * bool) :=
  match split "."%char file with
  | [base; direction; _] =>
      if negb (bool_decide (direction = "up"%string)) && negb (bool_decide (direction = "down"%string)) then Err (invalid_filename file)
      else
        let '(prefix, rest, found) := cut "_"%char base in
        if negb found then Err (invalid_filename file)
        else match ParseInt prefix with
             | Some v => Ok (v, rest, bool_decide (direction = "up"%string))
             | None => Err (invalid_filename file)
             end
  | _ => Err (invalid_filename file)
  end.

Definition add_entry (e : entry) (byVersion : gmap Z migration) : result (gmap Z migration) :=
  if IsDir e || negb (HasSuffix (entry_Name e) ".sql") then Ok byVersion
  else
    '(v, rest, is_up) ← parse_filename (entry_Name e);
    body ← wrap_err ("read migration " +:+ entry_Name e) (Content e);
    let m := default (mkMigration v rest "" "") (byVersion !! v) in
    if negb (bool_decide (name m = rest)) then Err (Plain ("migration version " +:+ render_int v +:+ " has conflicting names"))
    else Ok (<[v := if is_up : bool then mkMigration v (name m) body (down m) else mkMigration v (name m) (up m) body]> byVersion).
Fixpoint add_entries (entries : list entry) (byVersion : gmap Z migration) : result (gmap Z migration) :=
  match entries with
  | [] => Ok byVersion
  | e :: entries => byVersion ← add_entry e byVersion; add_entries entries byVersion
  end.
Definition incomplete (m : migration) : bool := bool_decide (up m = ""%string) || bool_decide (down m = ""%string).
Definition earlier (a b : migration) : bool := version a <? version b.
(** [files] is what [fs.ReadDir] returns. *)
Definition load (files : result (list entry)) : result (list migration) :=
  entries ← wrap_err "read embedded migrations" files;
  byVersion ← add_entries entries ∅;
  let all := map snd (map_to_list byVersion) in
  match List.find incomplete all with
  | Some m => Err (Plain ("migration " +:+ render_int (version m) +:+ " must have both up and down files"))
  | None => Ok (sort_stable earlier all)
  end.

(** ** The database *)
Section Runner.
Context {Schema : Type} (run_sql : string → Schema → result Schema).

(** [versions] is the table [schema_migrations] once it is there; [locked] the
    session's advisory lock. *)
Record Pg := mkPg { schema : Schema; versions : option (gmap Z string); locked : bool }.
#[export] Instance Pg_rollback : Rollback Pg := λ s s', mkPg (schema s) (versions s) (locked s').
Definition set_locked (b : bool) (w : Pg) : Pg := mkPg (schema w) (versions w) b.
Definition applied (w : Pg) : gmap Z string := default ∅ (versions w).

Definition ensureVersionTable : M Pg () :=
  wrapM "create schema_migrations" (exec (λ w, mkPg (schema w) (Some (applied w)) (locked w))).
(** The script, in one [Exec]. *)
Definition script_statement (sql : string) (w : Pg) : result (() * Pg) :=
  s ← run_sql sql (schema w); Ok ((), mkPg s (versions w) (locked w)).
(** [INSERT INTO schema_migrations]: [version] is the primary key. *)
Definition insert_version (m : migration) (w : Pg) : result (() * Pg) :=
  match applied w !! version m with
  | Some _ => Err (Plain "duplicate key value violates unique constraint")
  | None => Ok ((), mkPg (schema w) (Some (<[version m := name m]> (applied w))) (locked w))
  end.
Definition delete_version (m : migration) (w : Pg) : result (() * Pg) :=
  Ok ((), mkPg (schema w) (Some (delete (version m) (applied w))) (locked w)).

(** "migration 3", "migration 3 up". *)
Definition migration_label (m : migration) : string := "migration " +:+ render_int (version m).
Definition direction_label (m : migration) (is_up : bool) : string := migration_label m +:+ if is_up then " up" else " down".
Definition apply (m : migration) (is_up : bool) : M Pg () :=
  transaction (migration_label m +:+ ": begin") (direction_label m is_up +:+ ": commit") (
    wrapM (direction_label m is_up) (stmt (script_statement (if is_up then up m else down m)));;
    wrapM (direction_label m is_up +:+ ": record version") (stmt (if is_up then insert_version m else delete_version m));;
    mret (Commit ())).

(** [withLock]: the lock is given back by the deferred unlock or, if that or
    the call that takes it fails, by the end of the session. *)
Definition locking (fn : M Pg ()) : M Pg () := λ fs w,
  match wrapM "acquire migration lock" (exec (set_locked true)) fs w with
  | (Err e, fs, w) => (Err e, fs, set_locked false w)
  | (Ok _, fs, w) =>
      let '(r, fs, w) := fn fs w in
      let '(_, fs, w) := exec (set_locked false) fs w in
      (r, fs, set_locked false w)
  end.
Definition withLock (fn : M Pg ()) : M Pg () :=
  wrapM "acquire migration connection" (query (λ _, ()));; locking fn.

Fixpoint up_all (migrations : list migration) : M Pg () :=
  match migrations with
  | [] => mret ()
  | m :: migrations =>
      done ← wrapM (migration_label m +:+ ": check version") (query (λ w, bool_decide (is_Some (applied w !! version m))));
      (if (done : bool) then mret () else apply m true);;
      up_all migrations
  end.
Definition Up (files : result (list entry)) : M Pg () :=
  migrations ← lift (load files);
  withLock (ensureVersionTable;; up_all migrations).

(** [SELECT version … ORDER BY version DESC LIMIT 1]. *)
Definition newest_version (w : Pg) : option Z :=
  match map fst (map_to_list (applied w)) with [] => None | v :: vs => Some (foldr Z.max v vs) end.
(** [byVersion] is rebuilt from the loaded list. *)
Definition by_version (migrations : list migration) : gmap Z migration := foldl (λ t m, <[version m := m]> t) ∅ migrations.
Definition Down (files : result (list entry)) : M Pg () :=
  migrations ← lift (load files);
  withLock (
    ensureVersionTable;;
    v ← wrapM "find current migration" (query newest_version);
    match v with
    | None => mret ()
    | Some v =>
        match by_version migrations !! v with
        | None => throw (Plain ("database has unknown migration version " +:+ render_int v))
        | Some m => apply m false
        end
    end).

(** ** Histories: processes that migrate up and down, one at a time behind the
    lock, with any faults *)
Inductive op := MigrateUp (fs : script) | MigrateDown (fs : script).
Definition exec_op (files : result (list entry)) (o : op) (w : Pg) : Pg :=
  match o with MigrateUp fs => state_after (Up files) fs w | MigrateDown fs => state_after (Down files) fs w end.
Definition history (files : result (list entry)) (ops : list op) (w : Pg) : Pg := foldl (λ w o, exec_op files o w) w ops.
Definition fresh (s : Schema) : Pg := mkPg s None false.

(** Running scripts one after the other. *)
Fixpoint run_all (migrations : list migration) (s : Schema) : result Schema :=
  match migrations with [] => Ok s | m :: migrations => s ← run_sql (up m) s; run_all migrations s end.
(** The schemas the scripts of [ms] lead to from [s0]: [climbed k s] when [s]
    is what some up and down scripts, each run where its turn was, made of
    [s0], with the first [k] migrations applied in the end. *)
Inductive climbed (ms : list migration) (s0 : Schema) : nat → Schema → Prop :=
  | Ground : climbed ms s0 0 s0
  | Climb k m s s' : climbed ms s0 k s → ms !! k = Some m → run_sql (up m) s = Ok s' → climbed ms s0 (S k) s'
  | Descend k m s s' : climbed ms s0 (S k) s → ms !! k = Some m → run_sql (down m) s = Ok s' → climbed ms s0 k s'.
(** A down script undoes its up script. *)
Definition reversible (ms : list migration) : Prop :=
  ∀ m s s', m ∈ ms → run_sql (up m) s = Ok s' → run_sql (down m) s' = Ok s.
End Runner.
Arguments Pg : clear implicits.

(** ** Loading *)
Lemma add_entry_keys e t t' : map_Forall (λ v m, version m = v) t → add_entry e t = Ok t' → map_Forall (λ v m, version m = v) t'.
Proof.
  intros Ht. unfold add_entry. destruct (_ || _); [by intros [= <-]|]. intros ([[v rest] is_up] & _ & H)%bind_ok.
  apply bind_ok in H as (body & _ & H). destruct (negb _); [done|]. injection H as <-. apply map_Forall_insert_2; [by destruct is_up|done].
Qed.
Lemma add_entries_keys es t t' : map_Forall (λ v m, version m = v) t → add_entries es t = Ok t' → map_Forall (λ v m, version m = v) t'.
Proof.
  revert t. induction es as [|e es IH]; intros t Ht; cbn; [by intros [= <-]|]. intros (t1 & H1 & H2)%bind_ok. eapply IH; [|exact H2]. by eapply add_entry_keys.
Qed.

Definition ordered (ms : list migration) : Prop := StronglySorted (λ a b, version a < version b) ms.
Lemma load_ordered files ms : load files = Ok ms → ordered ms.
Proof.
  intros (es & _ & H)%bind_ok. apply bind_ok in H as (t & Ht & H). cbv zeta in H. destruct (List.find incomplete _); [done|]. injection H as <-.
  apply add_entries_keys in Ht; [|done].
  assert (Hs : StronglySorted (not_less earlier) (sort_stable earlier (map snd (map_to_list t)))).
  { apply sort_stable_sorted; unfold not_less, earlier; intros; bool_prop; lia. }
  assert (Hn : NoDup (map version (sort_stable earlier (map snd (map_to_list t))))).
  { rewrite sort_stable_perm, map_map. erewrite map_ext_in; [apply (NoDup_fst_map_to_list t)|].
    intros [v m] Hin. apply list_elem_of_In, elem_of_map_to_list in Hin. cbn. apply (Ht _ _ Hin). }
  revert Hs Hn. generalize (sort_stable earlier (map snd (map_to_list t))). intros l. unfold ordered.
  induction 1 as [|m l Hl IH Hm]; intros Hn; constructor; cbn in Hn; apply NoDup_cons in Hn as [Hm' Hn]; [by apply IH|].
  rewrite Forall_forall in Hm |- *. intros m' Hin. specialize (Hm m' Hin). unfold not_less, earlier in Hm. bool_prop.
  assert (version m ≠ version m'); [|lia]. intros E. apply Hm'. rewrite E. by apply list_elem_of_In, in_map, list_elem_of_In.
Qed.
Lemma ordered_lookup ms i j a b : ordered ms → ms !! i = Some a → ms !! j = Some b → (i < j)%nat → version a < version b.
Proof.
  intros H. revert i j. induction H as [|m ms Hms IH Hm]; intros i j Hi Hj Hlt; [done|]. destruct j as [|j]; [lia|]. destruct i as [|i]; cbn in *.
  - injection Hi as <-. rewrite Forall_forall in Hm. apply Hm. by eapply list_elem_of_lookup_2.
  - eapply IH; [done|done|lia].
Qed.
Lemma ordered_unique ms i j a b : ordered ms → ms !! i = Some a → ms !! j = Some b → version a = version b → i = j.
Proof.
  intros H Hi Hj E. destruct (lt_eq_lt_dec i j) as [[Hlt|Heq]|Hlt]; [|done|].
  - pose proof (ordered_lookup ms i j a b H Hi Hj Hlt). lia.
  - pose proof (ordered_lookup ms j i b a H Hj Hi Hlt). lia.
Qed.
Lemma by_version_lookup ms i m : ordered ms → ms !! i = Some m → by_version ms !! version m = Some m.
Proof.
  unfold by_version. induction ms as [|x ms IH] using rev_ind; intros Hs Hi; [done|]. rewrite foldl_app. cbn.
  destruct (decide (i < length ms)%nat) as [Hlt|Hge].
  - rewrite lookup_insert_ne.
    + apply IH; [|by rewrite lookup_app_l in Hi]. unfold ordered in *. by apply StronglySorted_app_1_l in Hs.
    + assert (version m < version x); [|lia]. eapply (ordered_lookup (ms ++ [x]) i (length ms)); [done|done| |done]. by rewrite list_lookup_middle.
  - rewrite lookup_app_r in Hi by lia. apply list_lookup_singleton_Some in Hi as [_ <-]. apply lookup_insert_eq.
Qed.

(** ** The database follows the list *)
Section Follows.
Context {Schema : Type} (run_sql : string → Schema → result Schema) (ms : list migration) (s0 : Schema).
Hypothesis ms_ordered : ordered ms.
Local Notation run_all := (run_all run_sql).

Definition names (l : list migration) : gmap Z string := list_to_map (map (λ m, (version m, name m)) l).
(** The version table names the first [k] migrations, and the schema is one the
    scripts lead to. *)
Definition at_ (k : nat) (w : Pg Schema) : Prop :=
  (k ≤ length ms)%nat ∧ applied w = names (take k ms) ∧ climbed run_sql ms s0 k (schema w).
(** The up scripts from the [k]th to the [k']th, run in order. *)
Definition steps (k k' : nat) (s s' : Schema) : Prop := run_all (take (k' - k) (drop k ms)) s = Ok s'.

Lemma names_lookup k m i : ms !! i = Some m → names (take k ms) !! version m = if (i <? k)%nat then Some (name m) else None.
Proof.
  intros Hi. unfold names. destruct (Nat.ltb_spec i k) as [Hlt|Hge].
  - apply elem_of_list_to_map_1.
    + rewrite <-list_fmap_compose. change (NoDup (map version (take k ms))). apply NoDup_alt. intros a b v Ha Hb.
      apply list_lookup_fmap_Some in Ha as (x & -> & Hx), Hb as (y & E & Hy).
      apply lookup_take_Some in Hx as [Hx _], Hy as [Hy _]. by eapply ordered_unique.
    + apply list_elem_of_In, in_map_iff. exists m. split; [done|]. apply list_elem_of_In, list_elem_of_lookup_2 with i. by rewrite lookup_take_lt.
  - apply not_elem_of_list_to_map_1. rewrite <-list_fmap_compose. intros H. apply list_elem_of_fmap in H as (x & E & Hx). cbn in E.
    apply list_elem_of_lookup in Hx as [j Hj]. apply lookup_take_Some in Hj as [Hj Hlt].
    assert (j = i) by by eapply (ordered_unique ms j i x m). lia.
Qed.
Lemma names_next k m : ms !! k = Some m → names (take (S k) ms) = <[version m := name m]> (names (take k ms)).
Proof.
  intros Hk. rewrite (take_S_r ms k m Hk). unfold names. rewrite map_app. cbn. apply list_to_map_snoc.
  apply not_elem_of_list_to_map_2. fold (names (take k ms)). by rewrite (names_lookup k m k Hk), Nat.ltb_irrefl.
Qed.
Lemma run_all_app a b s : run_all (a ++ b) s = s' ← run_all a s; run_all b s'.
Proof. revert s. induction a as [|m a IH]; intros s; [done|]. cbn. destruct (run_sql (up m) s); [apply IH|done]. Qed.
Lemma run_all_next k m s : ms !! k = Some m → run_all (take (S k) ms) s = s' ← run_all (take k ms) s; run_sql (up m) s'.
Proof.
  intros Hk. rewrite (take_S_r ms k m Hk), run_all_app. destruct (run_all (take k ms) s) as [s'|]; [|done]. cbn. by destruct (run_sql (up m) s').
Qed.

(** Where every down script undoes its up script, the schema is the prefix's. *)
Lemma climbed_prefix k s : reversible run_sql ms → climbed run_sql ms s0 k s → run_all (take k ms) s0 = Ok s.
Proof.
  intros Hrev. induction 1 as [|k m s s' _ IH Hm Hs|k m s s' _ IH Hm Hs]; [done| |].
  - by rewrite (run_all_next k m s0 Hm), IH.
  - rewrite (run_all_next k m s0 Hm) in IH. apply bind_ok in IH as (s1 & Hs1 & Hup).
    rewrite (Hrev m s1 _ (list_elem_of_lookup_2 _ _ _ Hm) Hup) in Hs. by injection Hs as <-.
Qed.
Lemma steps_refl k s : steps k k s s.
Proof. unfold steps. by rewrite Nat.sub_diag. Qed.
Lemma steps_cons k k' m s s1 s' : ms !! k = Some m → run_sql (up m) s = Ok s1 → (S k ≤ k')%nat → steps (S k) k' s1 s' → steps k k' s s'.
Proof.
  intros Hm Hs Hk H. unfold steps in *. rewrite (drop_S _ _ _ Hm). replace (k' - k)%nat with (S (k' - S k)) by lia. cbn. by rewrite Hs.
Qed.

Lemma at_locked k b w : at_ k (set_locked b w) ↔ at_ k w.
Proof. done. Qed.
Lemma at_restore k w w' : at_ k w → at_ k (restore w w').
Proof. done. Qed.
Lemma at_same k w w' : schema w' = schema w → applied w' = applied w → at_ k w → at_ k w'.
Proof. unfold at_. by intros -> ->. Qed.

Definition body_of (m : migration) (is_up : bool) : M (Pg Schema) (outcome ()) :=
  wrapM (direction_label m is_up) (stmt (script_statement run_sql (if is_up then up m else down m)));;
  wrapM (direction_label m is_up +:+ ": record version") (stmt (if is_up then insert_version m else delete_version m));;
  mret (Commit ()).
Lemma body_commits m is_up fs w a fs' w' : body_of m is_up fs w = (Ok a, fs', w') →
  a = Commit () ∧ ∃ s, run_sql (if is_up then up m else down m) (schema w) = Ok s ∧
    (if is_up then insert_version m else delete_version m) (mkPg s (versions w) (locked w)) = Ok ((), w').
Proof.
  intros (u & fs1 & w1 & H1 & H2)%bind_M_ok. apply wrapM_ok, stmt_ok in H1. apply bind_ok in H1 as (s & Hs & H1). injection H1 as _ <-.
  apply bind_M_ok in H2 as (u' & fs2 & w2 & H2 & H3). apply wrapM_ok, stmt_ok in H2. injection H3 as <- _ <-. split; [done|]. exists s. split; [done|]. by destruct u'.
Qed.
(** A transaction either changes nothing or commits the script and its row. *)
Lemma apply_cases m is_up fs w r fs' w' : apply run_sql m is_up fs w = (r, fs', w') →
  (is_ok r = false ∧ schema w' = schema w ∧ applied w' = applied w) ∨
  ∃ s, run_sql (if is_up then up m else down m) (schema w) = Ok s ∧
    (if is_up then insert_version m else delete_version m) (mkPg s (versions w) (locked w)) = Ok ((), w').
Proof.
  intros H. apply (transaction_cases _ _ (body_of m is_up)) in H as [[-> Hr]|[(fs1 & -> & Hr)|(fs1 & a & Hres & -> & _)]].
  - by left.
  - left. split; [|done]. destruct r as [u|]; [|done]. specialize (Hr u eq_refl). unfold result_of in Hr.
    destruct (body_of m is_up fs1 w) as [[r1 fs2] w2] eqn:E. cbn in Hr. subst r1. by apply body_commits in E as [? _].
  - right. unfold result_of, state_after in *. destruct (body_of m is_up fs1 w) as [[r1 fs2] w2] eqn:E. cbn in *. subst r1. by apply body_commits in E as [_ ?].
Qed.

Lemma apply_up k m fs w r fs' w' : at_ k w → ms !! k = Some m → apply run_sql m true fs w = (r, fs', w') →
  (is_ok r = false ∧ at_ k w' ∧ schema w' = schema w) ∨ at_ (S k) w' ∧ run_sql (up m) (schema w) = Ok (schema w').
Proof.
  intros (Hk & Ha & Hs) Hm [(Hr & E1 & E2)|(s & Hrun & Hins)]%apply_cases.
  - left. split_and!; [done|by apply (at_same k w)|done].
  - right. cbv iota beta in Hrun, Hins. unfold insert_version in Hins. change (applied (mkPg s (versions w) (locked w))) with (applied w) in Hins.
    rewrite Ha, (names_lookup k m k Hm), Nat.ltb_irrefl in Hins. injection Hins as <-. apply lookup_lt_Some in Hm as Hlt.
    split; [split; [lia|]; cbn [applied versions default schema]|done]. rewrite (names_next k m Hm). split; [done|]. by eapply Climb.
Qed.
Lemma apply_down k m fs w r fs' w' : at_ (S k) w → ms !! k = Some m → apply run_sql m false fs w = (r, fs', w') →
  (is_ok r = false ∧ at_ (S k) w' ∧ schema w' = schema w) ∨ at_ k w' ∧ run_sql (down m) (schema w) = Ok (schema w').
Proof.
  intros (Hk & Ha & Hs) Hm [(Hr & E1 & E2)|(s & Hrun & Hdel)]%apply_cases.
  - left. split_and!; [done|by apply (at_same (S k) w)|done].
  - right. cbv iota beta in Hrun, Hdel. unfold delete_version in Hdel. change (applied (mkPg s (versions w) (locked w))) with (applied w) in Hdel.
    injection Hdel as <-. split; [|done]. split; [lia|]. cbn [applied versions default schema]. split; [|by eapply Descend].
    rewrite Ha, (names_next k m Hm), delete_insert_id; [done|]. by rewrite (names_lookup k m k Hm), Nat.ltb_irrefl.
Qed.

Lemma up_all_spec l pre k fs w r fs' w' : ms = pre ++ l → at_ k w → (length pre ≤ k)%nat → up_all run_sql l fs w = (r, fs', w') →
  ∃ k', (k ≤ k')%nat ∧ at_ k' w' ∧ steps k k' (schema w) (schema w') ∧ (is_ok r = true → k' = length ms).
Proof.
  revert pre k fs w. induction l as [|m l IH]; intros pre k fs w Hms Hat Hpre H; cbn [up_all] in H.
  { injection H as <- <- <-. exists k. split_and!; [done|done|apply steps_refl|]. intros _. destruct Hat as [Hk _]. rewrite Hms, app_nil_r in *. lia. }
  assert (Hm : ms !! length pre = Some m) by (rewrite Hms; by apply list_lookup_middle).
  assert (Hms' : ms = (pre ++ [m]) ++ l) by by rewrite <-app_assoc.
  unfold mbind at 1, M_bind at 1 in H. destruct (wrapM _ _ fs w) as [[[done|e] fs1] w1] eqn:Eq.
  2: { injection H as <- <- <-. unfold wrapM in Eq. destruct (query _ fs w) as [[r2 fs2] w2] eqn:E2.
       apply query_cases in E2 as [-> _]. injection Eq as _ <- <-. exists k. split_and!; [done|done|apply steps_refl|done]. }
  apply wrapM_ok, query_ok in Eq as [-> ->]. unfold mbind, M_bind in H. case_bool_decide as Ha; cbn [mret M_ret] in H.
  - assert (length pre < k)%nat.
    { destruct Hat as (_ & E & _). rewrite E, (names_lookup k m _ Hm) in Ha. destruct (Nat.ltb_spec (length pre) k); [done|by destruct Ha]. }
    eapply (IH (pre ++ [m]) k); [done|done|rewrite length_app; cbn; lia|exact H].
  - assert (length pre = k) as <-.
    { destruct Hat as (_ & E & _). rewrite E, (names_lookup k m _ Hm) in Ha. destruct (Nat.ltb_spec (length pre) k); [|lia]. destruct Ha. by eexists. }
    destruct (apply run_sql m true fs1 w) as [[[u|e] fs2] w2] eqn:Ea; destruct (apply_up _ m _ _ _ _ _ Hat Hm Ea) as [(? & Hat' & Es)|[Hat' Es]]; try done.
    + apply (IH (pre ++ [m]) (S (length pre))) in H as (k' & Hk & ? & ? & ?); [|done|done|rewrite length_app; cbn; lia].
      exists k'. split_and!; [lia|done|by eapply steps_cons|done].
    + injection H as <- <- <-. exists (length pre). rewrite Es. split_and!; [done|done|apply steps_refl|done].
    + injection H as <- <- <-. exists (S (length pre)). split_and!; [lia|done|eapply steps_cons; [done..|apply steps_refl]|done].
Qed.

(** The newest version is the last one applied. *)
Lemma foldr_max_spec v vs : let n := foldr Z.max v vs in n ∈ v :: vs ∧ ∀ x, x ∈ v :: vs → x ≤ n.
Proof.
  cbn. induction vs as [|y vs [IH1 IH2]]; cbn; [split; [left|intros x Hx%list_elem_of_singleton; lia]|]. split.
  - destruct (Z.max_spec y (foldr Z.max v vs)) as [[_ ->]|[_ ->]]; set_solver.
  - intros x. rewrite !elem_of_cons. intros [->|[->|Hx]]; [|lia|]; [specialize (IH2 v (list_elem_of_here _ _)); lia|].
    assert (x ≤ foldr Z.max v vs) by (apply IH2; by right). lia.
Qed.
Lemma newest_version_spec k w : at_ k w →
  match k with
  | O => newest_version w = None
  | S j => ∃ m, ms !! j = Some m ∧ newest_version w = Some (version m)
  end.
Proof.
  intros (Hk & Ha & _). unfold newest_version. rewrite Ha. destruct k as [|j]; [done|].
  destruct (lookup_lt_is_Some_2 ms j) as [m Hm]; [lia|]. exists m. split; [done|].
  assert (Hin : ∀ v, v ∈ map fst (map_to_list (names (take (S j) ms))) ↔ ∃ i x, (i ≤ j)%nat ∧ ms !! i = Some x ∧ version x = v).
  { intros v. rewrite list_elem_of_In, in_map_iff. split.
    - intros ([v' n] & <- & H). apply list_elem_of_In, elem_of_map_to_list in H. cbn. apply elem_of_list_to_map_2 in H.
      apply list_elem_of_In, in_map_iff in H as (x & [= <- <-] & H). apply list_elem_of_In, list_elem_of_lookup in H as [i Hi].
      apply lookup_take_Some in Hi as [Hi Hlt]. exists i, x. split_and!; [lia|done|done].
    - intros (i & x & Hi & Hx & <-). exists (version x, name x). split; [done|]. apply list_elem_of_In, elem_of_map_to_list.
      rewrite (names_lookup (S j) x i Hx). by rewrite (proj2 (Nat.ltb_lt _ _)) by lia. }
  destruct (map fst _) as [|v vs]; [exfalso; apply (not_elem_of_nil (version m)), Hin; by exists j, m|].
  destruct (foldr_max_spec v vs) as [H1 H2]. f_equal. apply Z.le_antisymm.
  - apply Hin in H1 as (i & x & Hi & Hx & E). rewrite <-E. destruct (decide (i = j)) as [->|]; [by simplify_eq|].
    pose proof (ordered_lookup ms i j x m ms_ordered Hx Hm ltac:(lia)). lia.
  - apply H2, Hin. by exists j, m.
Qed.

Lemma ensure_at k fs w r fs' w' : at_ k w → ensureVersionTable fs w = (r, fs', w') → at_ k w' ∧ schema w' = schema w.
Proof.
  intros Hat H. unfold ensureVersionTable, wrapM in H. destruct (exec _ fs w) as [[r1 fs1] w1] eqn:E. injection H as _ _ <-.
  apply exec_cases in E as [(a & _ & [= _ <-])|[_ [->|(a & [= _ <-])]]]; done.
Qed.

Lemma withLock_cases (fn : M (Pg Schema) ()) fs w r fs' w' : withLock fn fs w = (r, fs', w') → locked w = false →
  locked w' = false ∧
  ((is_ok r = false ∧ schema w' = schema w ∧ applied w' = applied w) ∨
   ∃ fs1 fs2 w2, fn fs1 (set_locked true w) = (r, fs2, w2) ∧ w' = set_locked false w2).
Proof.
  intros H Hl. unfold withLock, mbind, M_bind in H. destruct (wrapM "acquire migration connection" _ fs w) as [[[u|e] fs1] w1] eqn:Ea.
  2: { injection H as <- <- <-. unfold wrapM in Ea. destruct (query _ fs w) as [[r2 fs2] w2] eqn:E2.
       apply query_cases in E2 as [-> _]. injection Ea as _ _ <-. split; [done|]. by left. }
  apply wrapM_ok, query_ok in Ea as [_ ->]. unfold locking in H. destruct (wrapM "acquire migration lock" _ fs1 w) as [[[u'|e] fs2] w2] eqn:El.
  - apply wrapM_ok, exec_ok in El as ->. destruct (fn fs2 _) as [[r2 fs3] w3] eqn:Ef. destruct (exec _ fs3 w3) as [[r4 fs4] w4] eqn:Eu.
    injection H as <- <- <-. split; [done|]. right. exists fs2, fs3, w3. split; [done|].
    apply exec_cases in Eu as [(a & _ & [= _ <-])|[_ [->|(a & [= _ <-])]]]; done.
  - injection H as <- <- <-. split; [done|]. left. split; [done|]. unfold wrapM in El. destruct (exec _ fs1 w) as [[r2 fs3] w3] eqn:E2.
    injection El as _ _ <-. apply exec_cases in E2 as [(a & _ & [= _ <-])|[_ [->|(a & [= _ <-])]]]; done.
Qed.

Section Loaded.
Context (files : result (list entry)) (loaded : load files = Ok ms).

Lemma Up_spec k fs w r fs' w' : at_ k w → locked w = false → Up run_sql files fs w = (r, fs', w') →
  locked w' = false ∧ ∃ k', (k ≤ k')%nat ∧ at_ k' w' ∧ steps k k' (schema w) (schema w') ∧ (is_ok r = true → k' = length ms).
Proof.
  intros Hat Hl H. unfold Up, mbind, M_bind, lift in H. rewrite loaded in H.
  apply withLock_cases in H as [Hl' [(Hr & Es & Ea)|(fs1 & fs2 & w2 & Hf & ->)]]; [| |done]; (split; [done|]).
  - exists k. rewrite Es. split_and!; [done|by apply (at_same k w)|apply steps_refl|by rewrite Hr].
  - unfold mbind, M_bind in Hf. destruct (ensureVersionTable fs1 _) as [[[u|e] fs3] w3] eqn:Ee; apply (ensure_at k) in Ee as [Ee Es]; try done;
      cbn in Es; rewrite <-Es.
    + exact (up_all_spec ms [] k _ _ _ _ _ eq_refl Ee ltac:(cbn; lia) Hf).
    + injection Hf as <- <- <-. exists k. split_and!; [done|done|apply steps_refl|done].
Qed.
Lemma Down_spec k fs w r fs' w' : at_ k w → locked w = false → Down run_sql files fs w = (r, fs', w') →
  locked w' = false ∧
  ((at_ k w' ∧ schema w' = schema w ∧ (is_ok r = true → k = O)) ∨
   ∃ m, ms !! pred k = Some m ∧ k ≠ O ∧ at_ (pred k) w' ∧ run_sql (down m) (schema w) = Ok (schema w')).
Proof.
  intros Hat Hl H. unfold Down, mbind, M_bind, lift in H. rewrite loaded in H.
  apply withLock_cases in H as [Hl' [(Hr & Es & Ea)|(fs1 & fs2 & w2 & Hf & ->)]]; [| |done]; (split; [done|]).
  - left. split_and!; [by apply (at_same k w)|done|by rewrite Hr].
  - unfold mbind, M_bind in Hf. destruct (ensureVersionTable fs1 _) as [[[u|e] fs3] w3] eqn:Ee; apply (ensure_at k) in Ee as [Ee Es]; try done;
      cbn in Es; rewrite <-Es.
    2: { injection Hf as <- <- <-. by left. }
    destruct (wrapM _ _ fs3 w3) as [[[v|e] fs4] w4] eqn:Eq.
    2: { injection Hf as <- <- <-. left. unfold wrapM in Eq. destruct (query _ fs3 w3) as [[r2 fs5] w5] eqn:E2.
         apply query_cases in E2 as [-> _]. by injection Eq as _ _ <-. }
    apply wrapM_ok, query_ok in Eq as [-> ->]. pose proof (newest_version_spec k w3 Ee) as Hn. destruct k as [|j].
    + rewrite Hn in Hf. injection Hf as <- <- <-. by left.
    + destruct Hn as (m & Hm & Hv). rewrite Hv, (by_version_lookup ms j m ms_ordered Hm) in Hf. cbn [pred].
      destruct (apply run_sql m false fs4 w3) as [[r5 fs5] w5] eqn:Ea. injection Hf as <- <- <-.
      apply (apply_down j m) in Ea as [(Hr & ? & ?)|[? ?]]; [left; by rewrite Hr|right; by exists m|done|done].
Qed.
Lemma history_spec ops k w : at_ k w → locked w = false →
  locked (history run_sql files ops w) = false ∧ ∃ k', at_ k' (history run_sql files ops w).
Proof.
  revert k w. induction ops as [|o ops IH]; intros k w Hat Hl; cbn; [by eauto|]. destruct o as [fs|fs]; cbn [exec_op]; unfold state_after.
  - destruct (Up run_sql files fs w) as [[r fs'] w'] eqn:E. apply (Up_spec k) in E as (Hl' & k' & _ & Hat' & _ & _); [|done|done]. by eapply IH.
  - destruct (Down run_sql files fs w) as [[r fs'] w'] eqn:E. apply (Down_spec k) in E as (Hl' & [(Hat' & _)|(m & _ & _ & Hat' & _)]); [| |done|done]; by eapply IH.
Qed.
End Loaded.
End Follows.

(** ** Without faults *)
Section Completes.
Context {Schema : Type} (run_sql : string → Schema → result Schema) (ms : list migration) (s0 : Schema).
Hypothesis ms_ordered : ordered ms.

Lemma up_all_completes l pre k w : ms = pre ++ l → at_ run_sql ms s0 k w → (length pre ≤ k)%nat → is_ok (run_all run_sql (drop k ms) (schema w)) = true →
  ∃ w', up_all run_sql l [] w = (Ok (), [], w').
Proof.
  revert pre k w. induction l as [|m l IH]; intros pre k w Hms Hat Hpre Hok; cbn [up_all]; [by eexists|].
  assert (Hm : ms !! length pre = Some m) by (rewrite Hms; by apply list_lookup_middle).
  assert (Hms' : ms = (pre ++ [m]) ++ l) by by rewrite <-app_assoc. pose proof Hat as (Hk & Ha & Hs).
  change (∃ w', ((if bool_decide (is_Some (applied w !! version m)) then mret () else apply run_sql m true);; up_all run_sql l) [] w = (Ok (), [], w')).
  rewrite Ha, (names_lookup ms ms_ordered k m _ Hm). destruct (Nat.ltb_spec (length pre) k) as [Hlt|Hge].
  - rewrite bool_decide_eq_true_2 by by eexists. eapply (IH (pre ++ [m]) k); [done|done|rewrite length_app; cbn; lia|done].
  - assert (length pre = k) as <- by lia. rewrite bool_decide_eq_false_2 by by intros [].
    assert (Hrun : ∃ s, run_sql (up m) (schema w) = Ok s).
    { rewrite (drop_S _ _ _ Hm) in Hok. cbn in Hok. destruct (run_sql (up m) (schema w)) as [s|]; [by eexists|done]. }
    destruct Hrun as [s Hrun]. rewrite (drop_S _ _ _ Hm) in Hok. cbn in Hok. rewrite Hrun in Hok.
    assert (Happly : apply run_sql m true [] w = (Ok (), [], mkPg s (Some (<[version m := name m]> (applied w))) (locked w))).
    { unfold apply, transaction, wrapM, stmt, query, mbind, M_bind, script_statement. cbn. rewrite Hrun. cbn. unfold insert_version.
      change (applied (mkPg s (versions w) (locked w))) with (applied w). by rewrite Ha, (names_lookup ms ms_ordered _ m _ Hm), Nat.ltb_irrefl. }
    unfold mbind, M_bind. rewrite Happly. destruct (apply_up run_sql ms s0 ms_ordered _ m _ _ _ _ _ Hat Hm Happly) as [[? _]|[Hat' _]]; [done|].
    eapply (IH (pre ++ [m])); [done|exact Hat'|rewrite length_app; cbn; lia|exact Hok].
Qed.
Lemma Up_completes files k w : load files = Ok ms → at_ run_sql ms s0 k w → is_ok (run_all run_sql (drop k ms) (schema w)) = true →
  is_ok (result_of (Up run_sql files) [] w) = true.
Proof.
  intros Hl Hat Hok. unfold result_of, Up, mbind, M_bind, lift. rewrite Hl. unfold withLock, locking, mbind, M_bind. cbn.
  assert (Hat' : at_ run_sql ms s0 k (mkPg (schema w) (Some (applied w)) true)) by exact Hat.
  destruct (up_all_completes ms [] k _ eq_refl Hat' ltac:(cbn; lia) Hok) as [w' E]. unfold applied in E. cbn in E. unfold applied. by rewrite E.
Qed.
End Completes.

(** C15: The schema follows the version table.  Through any sequence of
    migrations up and down, one at a time behind the lock, each failing
    anywhere - at the lock, at a script, at the version row, at the commit, or
    with the answer of the commit lost - the version table names exactly the
    first so many migrations of the list, the schema is what up and down
    scripts, each run at its turn, made of the first one, and the lock is free.
    Where every down script undoes its up script, that is the schema the up
    scripts of the named migrations make.  [Up] never goes back: it runs the
    scripts that follow, in order, and when it returns without an error every
    migration is applied; undisturbed it does return so if the remaining
    scripts run.  [Down] runs the down script of the last migration and takes
    back its row, or changes nothing: then it reports an error, or there was
    nothing to take back. *)
Theorem migrations_in_step {Schema} (run_sql : string → Schema → result Schema) files ms s0 ops :
  load files = Ok ms →
  let state k w := (k ≤ length ms)%nat ∧ applied w = names (take k ms) ∧ climbed run_sql ms s0 k (schema w) ∧ locked w = false in
  let w := history run_sql files ops (fresh s0) in
  ordered ms ∧ ∃ k, state k w ∧
  (reversible run_sql ms → run_all run_sql (take k ms) s0 = Ok (schema w)) ∧
  (∀ fs r fs' w', Up run_sql files fs w = (r, fs', w') → ∃ k', (k ≤ k')%nat ∧ state k' w' ∧
     run_all run_sql (take (k' - k) (drop k ms)) (schema w) = Ok (schema w') ∧ (is_ok r = true → k' = length ms)) ∧
  (is_ok (run_all run_sql (drop k ms) (schema w)) = true → is_ok (result_of (Up run_sql files) [] w) = true) ∧
  (∀ fs r fs' w', Down run_sql files fs w = (r, fs', w') →
     state k w' ∧ schema w' = schema w ∧ (is_ok r = true → k = O) ∨
     ∃ m, ms !! pred k = Some m ∧ k ≠ O ∧ state (pred k) w' ∧ run_sql (down m) (schema w) = Ok (schema w')).
Proof.
  intros Hl state w. pose proof (load_ordered files ms Hl) as Ho. split; [done|].
  assert (H0 : at_ run_sql ms s0 0 (fresh s0)) by (split; [lia|split; [done|constructor]]).
  destruct (history_spec run_sql ms s0 Ho files Hl ops 0 (fresh s0) H0 eq_refl) as (Hlock & k & Hat). fold w in Hlock, Hat.
  assert (Hst : ∀ k w, at_ run_sql ms s0 k w → locked w = false → state k w) by (intros k' w' (? & ? & ?) ?; by split_and!).
  exists k. split; [by apply Hst|]. split_and!.
  - intros Hrev. apply climbed_prefix; [done|apply Hat].
  - intros fs r fs' w' (Hl' & k' & Hk & Hat' & Hs & Hr)%(Up_spec run_sql ms s0 Ho files Hl k); [|done|done].
    exists k'. split_and!; [done|by apply Hst|exact Hs|done].
  - by apply (Up_completes run_sql ms s0 Ho files k).
  - intros fs r fs' w' (Hl' & [(Hat' & Hs & Hr)|(m & Hm & Hk & Hat' & Hs)])%(Down_spec run_sql ms s0 Ho files Hl k); [left|right|done|done].
    + split_and!; [by apply Hst|done|done].
    + exists m. split_and!; [done|done|by apply Hst|done].
Qed.

(** ** The files of a migration *)
Definition is_script (e : entry) : bool := negb (IsDir e) && HasSuffix (entry_Name e) ".sql".
Definition backs (e : entry) (m : migration) (is_up : bool) : Prop :=
  parse_filename (entry_Name e) = Ok (version m, name m, is_up) ∧ Content e = Ok (if is_up then up m else down m).
(** What the table has after the files [es]. *)
Record gathered (es : list entry) (t : gmap Z migration) : Prop := {
  gathered_key : ∀ v m, t !! v = Some m → version m = v;
  gathered_up : ∀ v m, t !! v = Some m → up m ≠ ""%string → ∃ e, e ∈ es ∧ backs e m true;
  gathered_down : ∀ v m, t !! v = Some m → down m ≠ ""%string → ∃ e, e ∈ es ∧ backs e m false;
  gathered_all : ∀ e, e ∈ es → is_script e = true → ∃ v rest is_up m, parse_filename (entry_Name e) = Ok (v, rest, is_up) ∧ t !! v = Some m ∧ name m = rest;
}.
Lemma add_entry_gathered es e t t' : gathered es t → add_entry e t = Ok t' → gathered (es ++ [e]) t'.
Proof.
  intros [Hk Hu Hd Ha]. unfold add_entry. destruct (IsDir e || negb _) eqn:Es.
  { intros [= <-]. split.
    - exact Hk.
    - intros v m Hm Hne. destruct (Hu v m Hm Hne) as (x & Hx & ?). exists x. split; [by apply elem_of_app; left|done].
    - intros v m Hm Hne. destruct (Hd v m Hm Hne) as (x & Hx & ?). exists x. split; [by apply elem_of_app; left|done].
    - intros x [Hx|Hx%list_elem_of_singleton]%elem_of_app Hs; [by apply Ha|]. subst x. unfold is_script in Hs.
      destruct (IsDir e), (HasSuffix (entry_Name e) ".sql"); done. }
  intros ([[v rest] is_up] & Hp & H)%bind_ok. apply bind_ok in H as (body & Hb & H). clear Es. destruct (negb _) eqn:En; [done|]. injection H as <-.
  apply negb_false_iff, bool_decide_eq_true in En. set (m0 := default (mkMigration v rest "" "") (t !! v)) in *.
  assert (Hc : Content e = Ok body) by (destruct (Content e); [by injection Hb as <-|done]).
  assert (H0 : (up m0 ≠ ""%string → version m0 = v ∧ ∃ x, x ∈ es ∧ backs x m0 true) ∧ (down m0 ≠ ""%string → version m0 = v ∧ ∃ x, x ∈ es ∧ backs x m0 false)).
  { subst m0. destruct (t !! v) as [m|] eqn:E; cbn; [|done]. pose proof (Hk v m E). split; intros Hne; (split; [done|]); [by eapply Hu|by eapply Hd]. }
  assert (Hnew : backs e (if is_up then mkMigration v (name m0) body (down m0) else mkMigration v (name m0) (up m0) body) is_up).
  { unfold backs. rewrite Hp, En, Hc. by destruct is_up. }
  split.
  - intros v' m. destruct (decide (v = v')) as [<-|Hv]; [rewrite lookup_insert_eq; intros [= <-]; by destruct is_up|]. rewrite lookup_insert_ne by done. by apply Hk.
  - intros v' m. destruct (decide (v = v')) as [<-|Hv]; [rewrite lookup_insert_eq; intros [= <-] Hne|rewrite lookup_insert_ne by done; intros Hm Hne].
    + destruct is_up; [by exists e; split; [apply elem_of_app; right; left|]|]. destruct (proj1 H0 Hne) as (Hv & x & Hx & Hb1 & Hb2).
      exists x. split; [by apply elem_of_app; left|]. split; [by rewrite Hb1, Hv|exact Hb2].
    + destruct (Hu v' m Hm Hne) as (x & Hx & ?). exists x. split; [by apply elem_of_app; left|done].
  - intros v' m. destruct (decide (v = v')) as [<-|Hv]; [rewrite lookup_insert_eq; intros [= <-] Hne|rewrite lookup_insert_ne by done; intros Hm Hne].
    + destruct is_up; [|by exists e; split; [apply elem_of_app; right; left|]]. destruct (proj2 H0 Hne) as (Hv & x & Hx & Hb1 & Hb2).
      exists x. split; [by apply elem_of_app; left|]. split; [by rewrite Hb1, Hv|exact Hb2].
    + destruct (Hd v' m Hm Hne) as (x & Hx & ?). exists x. split; [by apply elem_of_app; left|done].
  - intros x [Hx|Hx%list_elem_of_singleton]%elem_of_app Hs.
    + destruct (Ha x Hx Hs) as (v' & rest' & u' & m & E1 & E2 & E3). destruct (decide (v = v')) as [<-|Hv].
      * exists v, rest', u'. eexists. split; [done|]. rewrite lookup_insert_eq. split; [done|]. subst m0. rewrite E2 in *. cbn in *. by destruct is_up.
      * exists v', rest', u', m. by rewrite lookup_insert_ne.
    + subst x. exists v, rest, is_up. eexists. rewrite lookup_insert_eq. split_and!; [done|done|]. by destruct is_up.
Qed.

(** The loaded migrations are the files: each has an up and a down script, not
    empty, that are the contents of files of its version and name, and every
    script file belongs to one of them. *)
Theorem load_exact es ms : load (Ok es) = Ok ms →
  (∀ m, m ∈ ms → up m ≠ ""%string ∧ down m ≠ ""%string ∧ ∀ is_up, ∃ e, e ∈ es ∧ backs e m is_up) ∧
  (∀ e, e ∈ es → is_script e = true → ∃ m is_up, m ∈ ms ∧ parse_filename (entry_Name e) = Ok (version m, name m, is_up)).
Proof.
  intros H. cbn in H. apply bind_ok in H as (t & Ht & H). cbv zeta in H. destruct (List.find incomplete _) eqn:Ei; [done|]. injection H as <-.
  assert (Hg : ∀ done todo t0, gathered done t0 → add_entries todo t0 = Ok t → gathered (done ++ todo) t).
  { intros done todo. revert done. induction todo as [|e todo IH]; intros done t0 Hg; cbn; [intros [= <-]; by rewrite app_nil_r|].
    intros (t1 & H1 & H2)%bind_ok. change (done ++ e :: todo) with (done ++ [e] ++ todo). rewrite app_assoc. eapply IH; [|exact H2]. by eapply add_entry_gathered. }
  assert (Hg0 : gathered [] ∅) by (split; intros *; [by rewrite lookup_empty..|by intros ?%elem_of_nil]).
  destruct (Hg [] es ∅ Hg0 Ht) as [Hk Hu Hd Ha]. clear Hg Hg0. cbn [app] in *.
  assert (Hin : ∀ m, m ∈ sort_stable earlier (map snd (map_to_list t)) ↔ ∃ v, t !! v = Some m).
  { intros m. rewrite sort_stable_perm, list_elem_of_In, in_map_iff. split.
    - intros ([v x] & <- & Hx). exists v. by apply elem_of_map_to_list, list_elem_of_In.
    - intros [v Hv]. exists (v, m). split; [done|]. by apply list_elem_of_In, elem_of_map_to_list. }
  split.
  - intros m [v Hv]%Hin. assert (Hc : incomplete m = false).
    { apply (find_none _ _ Ei). apply in_map_iff. exists (v, m). split; [done|]. by apply list_elem_of_In, elem_of_map_to_list. }
    unfold incomplete in Hc. bool_prop. split_and!; [done|done|]. intros []; [by eapply Hu|by eapply Hd].
  - intros e He Hs. destruct (Ha e He Hs) as (v & rest & is_up & m & E1 & E2 & E3). exists m, is_up.
    split; [apply Hin; by exists v|]. by rewrite E1, (Hk v m E2), E3.
Qed.

(** ** Example: a schema as the list of what was created *)
Module Scripts.
Definition run (sql : string) (s : list string) : result (list string) :=
  match sql with
  | String "+"%char table => Ok (table :: s)
  | String "-"%char table =>
      match s with
      | x :: s => if bool_decide (x = table) then Ok s else Err (Plain "does not exist")
      | [] => Err (Plain "does not exist")
      end
  | _ => Err (Plain "syntax error")
  end.
Definition files : result (list entry) := Ok [
  mkEntry "000001_core.down.sql" false (Ok "-core"%string); mkEntry "000001_core.up.sql" false (Ok "+core"%string);
  mkEntry "000002_session_state.down.sql" false (Ok "-session_state"%string); mkEntry "000002_session_state.up.sql" false (Ok "+session_state"%string);
  mkEntry "migrations.go" false (Ok "package migrations"%string)].
Definition migrations : list migration := [mkMigration 1 "core" "+core" "-core"; mkMigration 2 "session_state" "+session_state" "-session_state"].
(** The second commit's answer is lost, a rollback, and a failed script. *)
Definition ops : list op := [
  MigrateUp [Done; Done; Done; Done; Done; Done; Done; Done; Done; Done; Done; Done; AckLost (Plain "connection reset")];
  MigrateDown []; MigrateUp [Done; Done; Done; Done; Done; Done; Fault (Plain "timeout")]].
End Scripts.
Lemma migrations_in_step_witness :
  load Scripts.files = Ok Scripts.migrations ∧
  let w := history Scripts.run Scripts.files Scripts.ops (fresh []) in
  schema w = ["core"%string] ∧ is_ok (result_of (Up Scripts.run Scripts.files) [] w) = true.
Proof.
  assert (Hl : load Scripts.files = Ok Scripts.migrations) by (vm_compute; reflexivity). split; [exact Hl|]. cbv zeta.
  destruct (migrations_in_step Scripts.run Scripts.files Scripts.migrations [] Scripts.ops Hl) as (_ & k & (Hk & Hn & _) & _ & _ & Hup & _).
  assert (Es : schema (history Scripts.run Scripts.files Scripts.ops (fresh [])) = ["core"%string]) by (vm_compute; reflexivity).
  split; [exact Es|]. apply Hup. rewrite Es.
  assert (k = 1%nat) as ->; [|vm_compute; reflexivity].
  assert (E : size (applied (history Scripts.run Scripts.files Scripts.ops (fresh []))) = 1%nat) by (vm_compute; reflexivity).
  rewrite Hn in E. destruct k as [|[|[|k]]]; [by vm_compute in E|reflexivity|by vm_compute in E|cbn in Hk; lia].
Defined.
