(* ===== verification/Domain.v ===== *)
(** * The persistence-neutral domain model (internal/domain)

    Every record of the domain package, with its source field names prefixed
    by the type; [IsCandidate], [IsActive] and the session state machine. *)
From S2P Require Import Prelude GoTime.
From Stdlib Require Floats.SpecFloat.

Record Company := mkCompany {
  Company_ID : UUID;
  Company_Name : string;
  Company_Slug : string;
  Company_CreatedAt : time;
  Company_UpdatedAt : time;
}.

Record User := mkUser {
  User_ID : UUID;
  User_CompanyID : UUID;
  User_Email : string;
  User_DisplayName : string;
  User_Role : string;
  User_CreatedAt : time;
  User_UpdatedAt : time;
}.

Record Task := mkTask {
  Task_ID : UUID;
  Task_CompanyID : UUID;
  Task_InterviewID : option UUID;
  Task_AssigneeID : option UUID;
  Task_Title : string;
  Task_Description : string;
  Task_Status : string;
  Task_DueAt : option time;
  Task_CompletedAt : option time;
  Task_CreatedAt : time;
  Task_UpdatedAt : time;
}.

Record Interview := mkInterview {
  Interview_ID : UUID;
  Interview_CompanyID : UUID;
  Interview_CreatedBy : option UUID;
  Interview_CandidateName : string;
  Interview_CandidateEmail : string;
  Interview_Status : string;
  Interview_ScheduledAt : option time;
  Interview_TerminalAt : option time;
  Interview_EraseRequestedAt : option time;
  Interview_LegalHold : bool;
  Interview_PurgedAt : option time;
  Interview_LastSequenceNumber : Z;
  Interview_CreatedAt : time;
  Interview_UpdatedAt : time;
}.

Record Invite := mkInvite {
  Invite_ID : UUID;
  Invite_CompanyID : UUID;
  Invite_InterviewID : option UUID;
  Invite_InvitedBy : option UUID;
  Invite_Email : string;
  Invite_Role : string;
  Invite_TokenHash : string;
  Invite_ExpiresAt : time;
  Invite_AcceptedAt : option time;
  Invite_CreatedAt : time;
}.

(** [SessionState] is a string type; these are its declared constants. *)
Definition SessionState := string.
Definition SessionStateActive : SessionState := "active".
Definition SessionStateCompleted : SessionState := "completed".
Definition SessionStateExpired : SessionState := "expired".
Definition SessionStateRevoked : SessionState := "revoked".

Record Session := mkSession {
  Session_ID : UUID;
  Session_CompanyID : UUID;
  Session_UserID : option UUID;
  Session_InterviewID : option UUID;
  Session_State : SessionState;
  Session_TokenHash : string;
  Session_ExpiresAt : time;
  Session_RevokedAt : option time;
  Session_CreatedAt : time;
  Session_LastSeenAt : option time;
}.

Definition IsCandidate (s : Session) : bool := bool_decide (is_Some (Session_InterviewID s)).

Definition IsActive (s : Session) (now : time) : bool :=
  bool_decide (Session_State s = SessionStateActive) &&
  bool_decide (Session_RevokedAt s = None) &&
  after (Session_ExpiresAt s) now.

Definition CanTransitionTo (s next : SessionState) : bool :=
  if bool_decide (s = next) then true
  else bool_decide (s = SessionStateActive) &&
    (bool_decide (next = SessionStateCompleted) || bool_decide (next = SessionStateExpired)
     || bool_decide (next = SessionStateRevoked)).

Definition InterviewStatusScheduled : string := "scheduled".
Definition InterviewStatusInProgress : string := "in_progress".
Definition InterviewStatusCompleted : string := "completed".
Definition InterviewStatusCancelled : string := "cancelled".

Definition ScoreStatusProposed : string := "proposed".
Definition ScoreStatusHumanApproved : string := "human_approved".
Definition ScoreStatusHumanRejected : string := "human_rejected".
Definition ScoreStatusHumanAdjusted : string := "human_adjusted".

(** Score values are [float64]s the platform only stores and copies; they are
    kept as the IEEE datum. *)
Definition float64 := Floats.SpecFloat.spec_float.

Record Score := mkScore {
  Score_ID : UUID;
  Score_CompanyID : UUID;
  Score_InterviewID : UUID;
  Score_Dimension : string;
  Score_ProposedValue : float64;
  Score_Rationale : string;
  Score_Status : string;
  Score_FinalValue : option float64;
  Score_DecisionNote : string;
  Score_DecidedBy : option UUID;
  Score_DecidedAt : option time;
  Score_CreatedAt : time;
  Score_UpdatedAt : time;
}.

Record Policy := mkPolicy {
  Policy_Key : string;
  Policy_Enabled : bool;
  Policy_UpdatedBy : option UUID;
  Policy_UpdatedAt : option time;
}.

(** ** The session state machine *)

(** One accepted transition of a session; nothing else of the row changes. *)
Inductive session_transition : Session → Session → Prop :=
  | transition_step s next revoked seen :
      CanTransitionTo (Session_State s) next = true →
      session_transition s
        (mkSession (Session_ID s) (Session_CompanyID s) (Session_UserID s)
           (Session_InterviewID s) next (Session_TokenHash s) (Session_ExpiresAt s)
           revoked (Session_CreatedAt s) seen).

Lemma CanTransitionTo_true s next :
  CanTransitionTo s next = true ↔
  s = next ∨
  (s = SessionStateActive ∧
   next ∈ [SessionStateCompleted; SessionStateExpired; SessionStateRevoked]).
Proof.
  unfold CanTransitionTo. rewrite !elem_of_cons, elem_of_nil.
  repeat case_bool_decide; cbn; naive_solver.
Qed.

(** Terminal session states are absorbing.  Whatever sequence of accepted
    transitions a session goes through, once it has left the active state its
    state never changes again and it is never usable, at any time. *)
Theorem terminal_session_absorbing s s' now :
  Session_State s ≠ SessionStateActive →
  rtc session_transition s s' →
  Session_State s' = Session_State s ∧ IsActive s' now = false.
Proof.
  intros Hs Hsteps.
  assert (E : Session_State s' = Session_State s).
  { induction Hsteps as [|s1 s2 s3 Hstep _ IH]; [done|].
    destruct Hstep as [s next ?? H]. apply CanTransitionTo_true in H as [<-|[? _]]; [|done].
    by apply IH. }
  split; [done|]. unfold IsActive. rewrite E. by rewrite bool_decide_eq_false_2.
Qed.

Definition example_session (st : SessionState) : Session :=
  mkSession 1%N 2%N None (Some 3%N) st "h"%string (10 * hour) None 0 None.

Lemma terminal_session_absorbing_witness :
  Session_State (example_session SessionStateExpired) = SessionStateExpired ∧
  IsActive (example_session SessionStateExpired) 0 = false.
Proof.
  apply (terminal_session_absorbing (example_session SessionStateExpired)
    (example_session SessionStateExpired) 0); [vm_compute; discriminate|].
  apply rtc_once. by apply (transition_step (example_session SessionStateExpired) SessionStateExpired).
Defined.
