(* ===== verification/Rbac.v ===== *)
(** * Authentication and authorization (internal/auth, internal/rbac)

    Bearer tokens, the permission matrix, the principal resolver, and the two
    HTTP wrappers [Middleware] and [Require].  A handler is a function of the
    request and of the request context (the principal [Middleware] stored);
    what it returns is left abstract, so the wrappers apply to handlers that
    read or change any state.  Response bodies keep the status and the error
    code; the human-readable message is not modelled. *)
From S2P Require Import Prelude Str GoTime Domain Sha256.

(** ** internal/auth *)
Definition ErrSessionNotFound := Sentinel "auth.ErrSessionNotFound".

(** The part of [*http.Request] read here: [r.Header.Get("Authorization")]
    (empty when absent). *)
Record Request := mkRequest { Authorization : string }.

Definition HashToken (token : string) : string := sum256 token.

(** [strings.EqualFold] against an ASCII literal without [k] or [s]. *)
Definition equal_fold (a b : string) : bool := bool_decide (to_lower a = to_lower b).

Definition BearerToken (r : Request) : option string :=
  let '(scheme, token, ok) := cut " "%char (Authorization r) in
  if negb ok || negb (equal_fold scheme "Bearer") || bool_decide (token = ""%string)
     || contains_char " "%char token
  then None else Some token.

(** ** Roles and permissions *)
Definition Role := string.
Definition RoleOwner : Role := "owner".
Definition RoleAdmin : Role := "admin".
Definition RoleRecruiter : Role := "recruiter".
Definition RoleInterviewer : Role := "interviewer".
Definition RoleViewer : Role := "viewer".

Definition Roles : list Role :=
  [RoleOwner; RoleAdmin; RoleRecruiter; RoleInterviewer; RoleViewer].

Definition Valid (r : Role) : bool := existsb (λ known, bool_decide (r = known)) Roles.

Definition Permission := string.
Definition PermCompanyRead : Permission := "company:read".
Definition PermCompanyWrite : Permission := "company:write".
Definition PermUsersRead : Permission := "users:read".
Definition PermUsersWrite : Permission := "users:write".
Definition PermInterviewsRead : Permission := "interviews:read".
Definition PermInterviewsWrite : Permission := "interviews:write".
Definition PermInterviewsErase : Permission := "interviews:erase".
Definition PermInterviewsLive : Permission := "interviews:live".
Definition PermTasksRead : Permission := "tasks:read".
Definition PermTasksWrite : Permission := "tasks:write".
Definition PermInvitesCandidate : Permission := "invites:candidate".
Definition PermInvitesMember : Permission := "invites:member".
Definition PermScoresRead : Permission := "scores:read".
Definition PermScoresApprove : Permission := "scores:approve".
Definition PermPoliciesRead : Permission := "policies:read".
Definition PermPoliciesWrite : Permission := "policies:write".
Definition PermAnalyticsRead : Permission := "analytics:read".
Definition PermSearch : Permission := "search".

Definition everyone : list Role :=
  [RoleOwner; RoleAdmin; RoleRecruiter; RoleInterviewer; RoleViewer].
Definition admins : list Role := [RoleOwner; RoleAdmin].
Definition hiring : list Role := [RoleOwner; RoleAdmin; RoleRecruiter].
Definition evaluators : list Role := [RoleOwner; RoleAdmin; RoleInterviewer].
Definition staff : list Role := [RoleOwner; RoleAdmin; RoleRecruiter; RoleInterviewer].

Definition policy_entries : list (Permission * list Role) := [
  (PermCompanyRead, everyone);
  (PermCompanyWrite, admins);
  (PermUsersRead, everyone);
  (PermUsersWrite, admins);
  (PermInterviewsRead, everyone);
  (PermInterviewsWrite, hiring);
  (PermInterviewsErase, admins);
  (PermInterviewsLive, staff);
  (PermTasksRead, everyone);
  (PermTasksWrite, staff);
  (PermInvitesCandidate, hiring);
  (PermInvitesMember, admins);
  (PermScoresRead, staff);
  (PermScoresApprove, evaluators);
  (PermPoliciesRead, everyone);
  (PermPoliciesWrite, admins);
  (PermAnalyticsRead, everyone);
  (PermSearch, everyone)].

Definition policy : gmap Permission (list Role) := list_to_map policy_entries.

Definition Can (role : Role) (permission : Permission) : bool :=
  existsb (λ allowed, bool_decide (role = allowed)) (default [] (policy !! permission)).

Record Principal := mkPrincipal {
  Principal_CompanyID : UUID;
  Principal_UserID : UUID;
  Principal_Role : Role;
}.

Definition Principal_Can (p : Principal) (permission : Permission) : bool :=
  Can (Principal_Role p) permission.

(** ** The resolver *)
Definition ErrUnauthenticated := Sentinel "rbac.ErrUnauthenticated".
Definition ErrUserNotFound := Sentinel "rbac.ErrUserNotFound".

(** [auth.SessionFinder] and [rbac.RoleFinder]: what the stores answer. *)
Record Resolver := mkResolver {
  FindSessionByTokenHash : string → result Session;
  UserRole : UUID → UUID → result Role;
  Now : time;
}.

Definition Resolve (r : Resolver) (req : Request) : result Principal :=
  match BearerToken req with
  | None => Err ErrUnauthenticated
  | Some token =>
      match FindSessionByTokenHash r (HashToken token) with
      | Err e =>
          if errors_is e ErrSessionNotFound then Err ErrUnauthenticated
          else Err (Wrap "resolve member session" e)
      | Ok session =>
          match Session_UserID session with
          | None => Err ErrUnauthenticated
          | Some user =>
              if IsCandidate session || negb (IsActive session (Now r))
              then Err ErrUnauthenticated
              else
                match UserRole r (Session_CompanyID session) user with
                | Err e =>
                    if errors_is e ErrUserNotFound then Err ErrUnauthenticated
                    else Err (Wrap "resolve member role" e)
                | Ok role =>
                    if negb (Valid role) then Err ErrUnauthenticated
                    else Ok (mkPrincipal (Session_CompanyID session) user role)
                end
          end
      end
  end.

(** ** HTTP wrappers *)
Record ErrorBody := mkErrorBody { eb_status : Z; eb_code : string }.

Section Handlers.
Context {R : Type} (WriteError : ErrorBody → R).

(** A handler behind [Middleware]: the request and [FromContext]'s answer. *)
Definition Handler := option Principal → Request → R.

Definition Middleware (resolve : Request → result Principal) (next : Handler) : Request → R :=
  λ r,
    match resolve r with
    | Err e =>
        if errors_is e ErrUnauthenticated
        then WriteError (mkErrorBody 401 "unauthorized")
        else WriteError (mkErrorBody 503 "identity_unavailable")
    | Ok principal => next (Some principal) r
    end.

Definition Require (permission : Permission) (next : Handler) : Handler :=
  λ ctx r,
    match ctx with
    | None => WriteError (mkErrorBody 401 "unauthorized")
    | Some principal =>
        if negb (Principal_Can principal permission)
        then WriteError (mkErrorBody 403 "forbidden")
        else next ctx r
    end.
End Handlers.

(** ** Lemmas *)
Ltac decide_elem := refine (bool_decide_eq_true_1 _ _); vm_compute; reflexivity.

Ltac refute_elem H :=
  exfalso; revert H; refine (bool_decide_eq_false_1 _ _); vm_compute; reflexivity.

Lemma existsb_elem `{EqDecision A} (x : A) l :
  existsb (λ y, bool_decide (x = y)) l = true ↔ x ∈ l.
Proof.
  rewrite existsb_exists. setoid_rewrite bool_decide_eq_true.
  setoid_rewrite <-list_elem_of_In. naive_solver.
Qed.

Lemma Valid_spec r : Valid r = true ↔ r ∈ Roles.
Proof. apply existsb_elem. Qed.

Lemma policy_lookup permission roles :
  policy !! permission = Some roles → (permission, roles) ∈ policy_entries.
Proof. apply elem_of_list_to_map_2. Qed.

Lemma Can_spec role permission :
  Can role permission = true ↔ ∃ roles, policy !! permission = Some roles ∧ role ∈ roles.
Proof.
  unfold Can. rewrite existsb_elem. destruct (policy !! permission); cbn; [naive_solver|].
  rewrite elem_of_nil. naive_solver.
Qed.

Lemma Can_valid role permission : Can role permission = true → Valid role = true.
Proof.
  intros (roles & H%policy_lookup & Hr)%Can_spec. apply Valid_spec. revert H Hr.
  unfold policy_entries, Roles, everyone, admins, hiring, evaluators, staff.
  repeat rewrite elem_of_cons. rewrite elem_of_nil.
  intros H Hr. destruct_or! H; simplify_eq; revert Hr; rewrite !elem_of_cons; naive_solver.
Qed.

(** [Resolve] succeeds exactly on an unexpired, unrevoked member session whose
    user still has a known role. *)
Lemma Resolve_ok r req p :
  Resolve r req = Ok p ↔
  ∃ token s,
    BearerToken req = Some token ∧ FindSessionByTokenHash r (HashToken token) = Ok s ∧
    Session_UserID s = Some (Principal_UserID p) ∧ Session_InterviewID s = None ∧
    IsActive s (Now r) = true ∧ Principal_CompanyID p = Session_CompanyID s ∧
    UserRole r (Session_CompanyID s) (Principal_UserID p) = Ok (Principal_Role p) ∧
    Valid (Principal_Role p) = true.
Proof.
  unfold Resolve, IsCandidate. split.
  - intros H. destruct (BearerToken req) as [token|]; [|done].
    destruct (FindSessionByTokenHash r (HashToken token)) as [s|e] eqn:Hs;
      [|by destruct (errors_is e _)].
    destruct (Session_UserID s) as [user|] eqn:Hu; [|done].
    destruct (_ || _) eqn:Hc; [done|]. bool_prop.
    destruct (UserRole r _ user) as [role|e] eqn:Hr; [|by destruct (errors_is e _)].
    destruct (Valid role) eqn:Hv; [|done]. simplify_eq/=.
    exists token, s. repeat split; try done. by apply eq_None_not_Some.
  - intros (token & s & -> & -> & -> & Hi & Ha & Hc & Hr & Hv). cbn -[Valid].
    rewrite Hi, Ha, Hr. cbn -[Valid]. rewrite Hv, <-Hc. by destruct p.
Qed.

(** ** Properties *)

(** The permission matrix is closed and ordered.  Only known roles hold
    permissions, a permission outside the matrix is held by nobody, the owner
    and the admin hold every permission of the matrix, every permission of the
    viewer is held by all roles, and the viewer holds no write. *)
Theorem permission_matrix role permission :
  (Can role permission = true → Valid role = true ∧ is_Some (policy !! permission)) ∧
  (Can role permission = true → Can RoleOwner permission = true ∧ Can RoleAdmin permission = true) ∧
  (Can RoleViewer permission = true → ∀ r, Valid r = true → Can r permission = true) ∧
  (permission ∈ [PermCompanyWrite; PermUsersWrite; PermInterviewsWrite; PermInterviewsErase;
                 PermTasksWrite; PermInvitesCandidate; PermInvitesMember; PermScoresApprove;
                 PermPoliciesWrite] → Can RoleViewer permission = false).
Proof.
  split_and!.
  - intros H. split; [by eapply Can_valid|]. apply Can_spec in H as (roles & -> & _). eauto.
  - rewrite !Can_spec. intros (roles & Hp & _). pose proof Hp as He%policy_lookup.
    assert (RoleOwner ∈ roles ∧ RoleAdmin ∈ roles) as [??]; [|split; by exists roles].
    revert He. unfold policy_entries. repeat rewrite elem_of_cons. rewrite elem_of_nil.
    intros He. destruct_or! He; simplify_eq; split; decide_elem.
  - intros (roles & Hp & Hv)%Can_spec r Hr%Valid_spec. apply Can_spec. exists roles.
    split; [done|]. pose proof Hp as He%policy_lookup. revert He.
    unfold policy_entries. repeat rewrite elem_of_cons. rewrite elem_of_nil.
    intros He. destruct_or! He; simplify_eq; try done;
      refute_elem Hv.
  - repeat rewrite elem_of_cons. rewrite elem_of_nil. intros H.
    destruct_or! H; subst; try done; vm_compute; done.
Qed.

(** A route [Middleware resolver (Require permission next)] runs its
    handler for exactly the requests that carry the token of an active member
    session whose stored role holds the permission, and the principal it sees
    has that session's company and user.  Every other request is answered 401,
    403 or 503 without running the handler. *)
Theorem guarded_route {R} (WriteError : ErrorBody → R) r permission
    (next : Handler (R := R)) req :
  let answer := Middleware WriteError (Resolve r) (Require WriteError permission next) req in
  (∃ p, Resolve r req = Ok p ∧ Principal_Can p permission = true ∧ answer = next (Some p) req ∧
    ∃ token s, BearerToken req = Some token ∧
      FindSessionByTokenHash r (HashToken token) = Ok s ∧ IsActive s (Now r) = true ∧
      Session_InterviewID s = None ∧ Session_UserID s = Some (Principal_UserID p) ∧
      Principal_CompanyID p = Session_CompanyID s ∧
      UserRole r (Principal_CompanyID p) (Principal_UserID p) = Ok (Principal_Role p)) ∨
  ((∀ p, Resolve r req = Ok p → Principal_Can p permission = false) ∧
   answer ∈ WriteError <$> [mkErrorBody 401 "unauthorized"; mkErrorBody 403 "forbidden";
                            mkErrorBody 503 "identity_unavailable"]).
Proof.
  cbv zeta. unfold Middleware. destruct (Resolve r req) as [p|e] eqn:Hr; cbn.
  - destruct (Principal_Can p permission) eqn:Hp; cbn.
    + left. exists p. split_and!; try done.
      apply Resolve_ok in Hr as (token & s & ? & ? & ? & ? & ? & Hc & ? & ?).
      exists token, s. rewrite Hc. done.
    + right. split; [naive_solver|]. rewrite !elem_of_cons. naive_solver.
  - right. split; [done|]. rewrite !elem_of_cons. case_match; naive_solver.
Qed.
