(* ===== verification/Pricing.v ===== *)
(** * Pricing a month of usage (internal/billing: pricing.go, credits.go)

    Usage and prices are [int64]; the charge arithmetic wraps where the code's
    does.  [perMillionCeil] goes through [math/big] and truncates only its
    final quotient. *)
From S2P Require Import Prelude Str GoTime Json.

Record Usage := mkUsage {
  Sessions : Z;
  ManagedInputTokens : Z;
  ManagedOutputTokens : Z;
  BYOKInputTokens : Z;
  BYOKOutputTokens : Z;
  Runs : Z;
  RunDurationMS : Z;
}.

Record PriceTable := mkPriceTable {
  BaseFeeCents : Z;
  IncludedSessions : Z;
  SessionCents : Z;
  ManagedInputPerMillionCents : Z;
  ManagedOutputPerMillionCents : Z;
  IncludedRuns : Z;
  RunCents : Z;
}.

Definition PriceTable_fields : list (field PriceTable) := [
  int64_field "base_fee_cents" (λ z t, mkPriceTable z (IncludedSessions t) (SessionCents t)
    (ManagedInputPerMillionCents t) (ManagedOutputPerMillionCents t) (IncludedRuns t) (RunCents t));
  int64_field "included_sessions" (λ z t, mkPriceTable (BaseFeeCents t) z (SessionCents t)
    (ManagedInputPerMillionCents t) (ManagedOutputPerMillionCents t) (IncludedRuns t) (RunCents t));
  int64_field "session_cents" (λ z t, mkPriceTable (BaseFeeCents t) (IncludedSessions t) z
    (ManagedInputPerMillionCents t) (ManagedOutputPerMillionCents t) (IncludedRuns t) (RunCents t));
  int64_field "managed_input_per_million_cents" (λ z t, mkPriceTable (BaseFeeCents t)
    (IncludedSessions t) (SessionCents t) z (ManagedOutputPerMillionCents t) (IncludedRuns t) (RunCents t));
  int64_field "managed_output_per_million_cents" (λ z t, mkPriceTable (BaseFeeCents t)
    (IncludedSessions t) (SessionCents t) (ManagedInputPerMillionCents t) z (IncludedRuns t) (RunCents t));
  int64_field "included_runs" (λ z t, mkPriceTable (BaseFeeCents t) (IncludedSessions t)
    (SessionCents t) (ManagedInputPerMillionCents t) (ManagedOutputPerMillionCents t) z (RunCents t));
  int64_field "run_cents" (λ z t, mkPriceTable (BaseFeeCents t) (IncludedSessions t) (SessionCents t)
    (ManagedInputPerMillionCents t) (ManagedOutputPerMillionCents t) (IncludedRuns t) z)].

Definition zero_price_table : PriceTable := mkPriceTable 0 0 0 0 0 0 0.

Definition price_entries (t : PriceTable) : list (string * Z) := [
  ("base_fee_cents"%string, BaseFeeCents t); ("included_sessions"%string, IncludedSessions t);
  ("session_cents"%string, SessionCents t);
  ("managed_input_per_million_cents"%string, ManagedInputPerMillionCents t);
  ("managed_output_per_million_cents"%string, ManagedOutputPerMillionCents t);
  ("included_runs"%string, IncludedRuns t); ("run_cents"%string, RunCents t)].

(** [ParsePriceTable]; the code ranges over a map, so which negative entry it
    names is unspecified: here, the first in declaration order. *)
Definition ParsePriceTable (raw : RawMessage) : result PriceTable :=
  match unmarshal_strict PriceTable_fields raw zero_price_table with
  | None => Err (Wrap "billing: price table" (Plain "json"))
  | Some table =>
      match find (λ e, e.2 <? 0) (price_entries table) with
      | Some (name, _) =>
          Err (Plain ("billing: price table " +:+ name +:+ " must not be negative"))
      | None => Ok table
      end
  end.

Definition KindBaseFee : string := "base_fee".
Definition KindSessions : string := "sessions".
Definition KindManagedInputTokens : string := "managed_input_tokens".
Definition KindManagedOutputTokens : string := "managed_output_tokens".
Definition KindRuns : string := "runs".
Definition KindCredit : string := "credit".

Record Line := mkLine {
  Line_Kind : string;
  Line_Description : string;
  Line_Quantity : Z;
  Line_AmountCents : Z;
  Line_CreditID : option UUID;
}.

(** [big.Int.Int64] keeps the low 64 bits of a quotient that does not fit. *)
Definition perMillionCeil (quantity centsPerMillion : Z) : Z :=
  if (quantity <=? 0) || (centsPerMillion <=? 0) then 0
  else
    let product := quantity * centsPerMillion in
    let quotient := Z.quot product 1000000 in
    let remainder := Z.rem product 1000000 in
    wrap64 (if 0 <? remainder then quotient + 1 else quotient).

Definition Price (usage : Usage) (table : PriceTable) : list Line :=
  let base := mkLine KindBaseFee "Monthly platform fee" 1 (BaseFeeCents table) None in
  let sessions :=
    let billable := Z.max (sub64 (Sessions usage) (IncludedSessions table)) 0 in
    if (0 <? billable) && (0 <? SessionCents table)
    then [mkLine KindSessions
            ("Candidate sessions beyond " +:+ render_int (IncludedSessions table) +:+ " included")
            billable (mul64 billable (SessionCents table)) None]
    else [] in
  let input :=
    let cents := perMillionCeil (ManagedInputTokens usage) (ManagedInputPerMillionCents table) in
    if 0 <? cents
    then [mkLine KindManagedInputTokens "Managed AI input tokens" (ManagedInputTokens usage) cents None]
    else [] in
  let output :=
    let cents := perMillionCeil (ManagedOutputTokens usage) (ManagedOutputPerMillionCents table) in
    if 0 <? cents
    then [mkLine KindManagedOutputTokens "Managed AI output tokens" (ManagedOutputTokens usage) cents None]
    else [] in
  let runs :=
    let billable := Z.max (sub64 (Runs usage) (IncludedRuns table)) 0 in
    if (0 <? billable) && (0 <? RunCents table)
    then [mkLine KindRuns
            ("Code runs beyond " +:+ render_int (IncludedRuns table) +:+ " included")
            billable (mul64 billable (RunCents table)) None]
    else [] in
  base :: sessions ++ input ++ output ++ runs.

Record Credit := mkCredit {
  Credit_ID : UUID;
  Credit_Description : string;
  Credit_RemainingCents : Z;
  Credit_GrantedAt : time;
  Credit_ExpiresAt : option time;
}.

Section Credits.
Context `{UuidLib}.

(** The order of [sortCredits]: soonest expiry, never expiring last, then
    oldest grant, then the rendered id. *)
Definition credit_less (a b : Credit) : bool :=
  match Credit_ExpiresAt a, Credit_ExpiresAt b with
  | Some _, None => true
  | None, Some _ => false
  | Some ea, Some eb =>
      if negb (ea =? eb) then before ea eb
      else if negb (Credit_GrantedAt a =? Credit_GrantedAt b)
      then before (Credit_GrantedAt a) (Credit_GrantedAt b)
      else String.ltb (uuid_String (Credit_ID a)) (uuid_String (Credit_ID b))
  | None, None =>
      if negb (Credit_GrantedAt a =? Credit_GrantedAt b)
      then before (Credit_GrantedAt a) (Credit_GrantedAt b)
      else String.ltb (uuid_String (Credit_ID a)) (uuid_String (Credit_ID b))
  end.

Definition sortCredits (credits : list Credit) : list Credit := sort_stable credit_less credits.

Definition credit_description (c : Credit) : string :=
  if bool_decide (Credit_Description c ≠ ""%string)
  then "Credit: " +:+ Credit_Description c else "Credit".

(** The loop of [ApplyCredits] over the sorted credits. *)
Fixpoint apply_credits_loop (due : Z) (ordered : list Credit) : list Line :=
  match ordered with
  | [] => []
  | credit :: rest =>
      if due <=? 0 then []
      else
        let applied := Z.min (Credit_RemainingCents credit) due in
        if applied <=? 0 then apply_credits_loop due rest
        else
          mkLine KindCredit (credit_description credit) 1 (wrap64 (- applied))
            (Some (Credit_ID credit)) :: apply_credits_loop (sub64 due applied) rest
  end.

Definition ApplyCredits (subtotalCents : Z) (credits : list Credit) : list Line :=
  apply_credits_loop subtotalCents (sortCredits credits).
End Credits.

(** One step of the summing loop of [Totals]: (subtotal, credits). *)
Definition totals_step (acc : Z * Z) (line : Line) : Z * Z :=
  let '(subtotal, credits) := acc in
  if bool_decide (Line_Kind line = KindCredit)
  then (subtotal, sub64 credits (Line_AmountCents line))
  else (add64 subtotal (Line_AmountCents line), credits).

Definition Totals (lines : list Line) : result (Z * Z * Z) :=
  let '(subtotal, credits) := foldl totals_step (0, 0) lines in
  let total := sub64 subtotal credits in
  if total <? 0 then Err (Plain "billing: credits exceed the subtotal")
  else Ok (subtotal, credits, total).

(** ** Billing periods *)
Definition PeriodStart (t : time) : time := date_month (year t) (month t).

Definition PreviousPeriod (now : time) : time := PeriodStart (PeriodStart now - day).

(** [time.Parse("2006-01", value)]: four digits, a dash, two digits of a
    month. *)
Definition ParsePeriod (value : string) : result time :=
  let bad := Err (Wrap "billing: period must be YYYY-MM" (Plain "parse")) in
  match value with
  | String a (String b (String c (String d (String "-"%char
      (String e (String f EmptyString)))))) =>
      if forallb is_digit [a; b; c; d; e; f] then
        let y := 1000 * digit_val a + 100 * digit_val b + 10 * digit_val c + digit_val d in
        let m := 10 * digit_val e + digit_val f in
        if (1 <=? m) && (m <=? 12) then Ok (date_month y m) else bad
      else bad
  | _ => bad
  end.

(** ** Rounding *)

(** C19: [perMillionCeil] is the exact ceiling of [quantity * price / 10^6]
    for every pair of [int64]s whose rounded charge fits an [int64] - the
    product itself may be far larger - and zero when either is not positive. *)
Theorem perMillionCeil_ceiling q c :
  let r := perMillionCeil q c in
  (q ≤ 0 ∨ c ≤ 0 → r = 0) ∧
  (0 < q → 0 < c → q * c ≤ max_int64 * 1000000 →
   0 < r ≤ max_int64 ∧ (r - 1) * 1000000 < q * c ≤ r * 1000000).
Proof.
  cbv zeta. unfold perMillionCeil. split.
  - intros [H|H]; [rewrite (proj2 (Z.leb_le q 0) H)|rewrite (proj2 (Z.leb_le c 0) H), orb_true_r]; done.
  - intros Hq Hc Hfit.
    rewrite (proj2 (Z.leb_gt q 0) Hq), (proj2 (Z.leb_gt c 0) Hc). cbn [orb].
    assert (0 < q * c) by nia.
    rewrite Z.quot_div_nonneg, Z.rem_mod_nonneg by lia.
    pose proof (Z.div_mod (q * c) 1000000 ltac:(done)).
    pose proof (Z.mod_pos_bound (q * c) 1000000 ltac:(done)).
    set (d := q * c / 1000000) in *. set (m := (q * c) mod 1000000) in *.
    rewrite wrap64_id; unfold_int64; destruct (0 <? m) eqn:E; bool_prop; lia.
Qed.

(** Beyond that the quotient is truncated to its low 64 bits. *)
Example perMillionCeil_truncates : perMillionCeil max_int64 2000000 = -2.
Proof. reflexivity. Qed.

(** ** Charges *)

Definition ceil_million (q c : Z) : Z :=
  if (q <=? 0) || (c <=? 0) then 0 else (q * c + 999999) / 1000000.

(** The specification of a month's charges, over unbounded integers. *)
Definition charge_spec (u : Usage) (t : PriceTable) : Z :=
  BaseFeeCents t +
  Z.max (Sessions u - IncludedSessions t) 0 * SessionCents t +
  ceil_million (ManagedInputTokens u) (ManagedInputPerMillionCents t) +
  ceil_million (ManagedOutputTokens u) (ManagedOutputPerMillionCents t) +
  Z.max (Runs u - IncludedRuns t) 0 * RunCents t.

(** A decoded price table: seven [int64]s, none negative. *)
Definition table_ok (t : PriceTable) : Prop :=
  Forall (λ e, 0 ≤ e.2 ≤ max_int64) (price_entries t).

(** Metered counts. *)
Definition usage_ok (u : Usage) : Prop :=
  0 ≤ Sessions u ≤ max_int64 ∧ 0 ≤ Runs u ≤ max_int64.

Lemma ceil_million_nonneg q c : 0 ≤ ceil_million q c.
Proof.
  unfold ceil_million. destruct (_ || _) eqn:E; bool_prop; [done|].
  apply Z.div_pos; nia.
Qed.

Lemma perMillionCeil_spec q c :
  ceil_million q c ≤ max_int64 → perMillionCeil q c = ceil_million q c.
Proof.
  unfold perMillionCeil, ceil_million. destruct (_ || _) eqn:E; bool_prop; [done|]. intros Hfit.
  rewrite Z.quot_div_nonneg, Z.rem_mod_nonneg by nia.
  assert (Heq : (if 0 <? (q * c) mod 1000000 then q * c / 1000000 + 1 else q * c / 1000000)
    = (q * c + 999999) / 1000000).
  { pose proof (Z.div_mod (q * c) 1000000 ltac:(done)).
    pose proof (Z.mod_pos_bound (q * c) 1000000 ltac:(done)).
    destruct (0 <? _) eqn:E'; bool_prop.
    - apply (Z.div_unique _ _ _ ((q * c) mod 1000000 - 1)); lia.
    - apply (Z.div_unique _ _ _ 999999); lia. }
  rewrite Heq. apply wrap64_id. unfold_int64.
  pose proof (Z.div_pos (q * c + 999999) 1000000). nia.
Qed.

Fixpoint sum_amounts (l : list Line) : Z :=
  match l with
  | [] => 0
  | line :: l => Line_AmountCents line + sum_amounts l
  end.

Lemma sum_amounts_app l1 l2 : sum_amounts (l1 ++ l2) = sum_amounts l1 + sum_amounts l2.
Proof. induction l1; cbn; lia. Qed.

Definition charge_line (line : Line) : Prop :=
  Line_Kind line ≠ KindCredit ∧ 0 ≤ Line_AmountCents line.
Definition credit_line (line : Line) : Prop :=
  Line_Kind line = KindCredit ∧ Line_AmountCents line < 0.

Lemma charges_sum_nonneg l : Forall charge_line l → 0 ≤ sum_amounts l.
Proof. induction 1 as [|line l [??] _ IH]; cbn; lia. Qed.

Lemma foldl_charges l s c :
  Forall charge_line l → 0 ≤ s → s + sum_amounts l ≤ max_int64 →
  foldl totals_step (s, c) l = (s + sum_amounts l, c).
Proof.
  intros Hl. revert s. induction Hl as [|line l [Hk Ha] Hl IH]; intros s Hs Hfit; cbn.
  - f_equal. lia.
  - cbn in Hfit. pose proof (charges_sum_nonneg l Hl).
    rewrite bool_decide_eq_false_2 by done. unfold add64.
    rewrite wrap64_id by (unfold_int64; lia). rewrite IH by lia. f_equal. lia.
Qed.

Lemma foldl_credits l s c :
  Forall credit_line l → 0 ≤ c → c - sum_amounts l ≤ max_int64 →
  foldl totals_step (s, c) l = (s, c - sum_amounts l).
Proof.
  intros Hl. revert c. induction Hl as [|line l [Hk Ha] Hl IH]; intros c Hc Hfit; cbn.
  - f_equal. lia.
  - cbn in Hfit. assert (sum_amounts l ≤ 0).
    { clear -Hl. induction Hl as [|line l [??] _ IH]; cbn; lia. }
    rewrite bool_decide_eq_true_2 by done. unfold sub64.
    rewrite wrap64_id by (unfold_int64; lia). rewrite IH by lia. f_equal. lia.
Qed.

(** The totals of an invoice made of charges followed by credits. *)
Lemma Totals_invoice charges credits :
  Forall charge_line charges → Forall credit_line credits →
  sum_amounts charges ≤ max_int64 → 0 ≤ sum_amounts charges + sum_amounts credits →
  Totals (charges ++ credits) =
    Ok (sum_amounts charges, - sum_amounts credits, sum_amounts charges + sum_amounts credits).
Proof.
  intros Hch Hcr Hfit Hpos. pose proof (charges_sum_nonneg _ Hch).
  assert (sum_amounts credits ≤ 0).
  { clear -Hcr. induction Hcr as [|line l [??] _ IH]; cbn; lia. }
  unfold Totals. rewrite foldl_app, foldl_charges by (done || lia).
  rewrite foldl_credits by (done || lia). unfold sub64.
  rewrite wrap64_id by (unfold_int64; lia).
  rewrite (proj2 (Z.ltb_ge _ 0)) by lia. repeat f_equal; lia.
Qed.

Lemma billable_spec a b :
  0 ≤ a ≤ max_int64 → 0 ≤ b ≤ max_int64 → Z.max (sub64 a b) 0 = Z.max (a - b) 0.
Proof. intros Ha Hb. unfold sub64. rewrite wrap64_id; [done|]. unfold_int64. lia. Qed.

(** One optional charge line: its amount, and that it is a charge. *)
Definition optional (b : bool) kind desc q amount : list Line :=
  if b then [mkLine kind desc q amount None] else [].

Definition optional_ok (b : bool) (kind : string) (amount : Z) : Prop :=
  kind ≠ KindCredit ∧ 0 ≤ amount ∧ (b = false → amount = 0).

Lemma optional_charge b kind desc q amount :
  optional_ok b kind amount →
  Forall charge_line (optional b kind desc q amount) ∧
  sum_amounts (optional b kind desc q amount) = amount.
Proof.
  intros (Hk & Ha & Hb). unfold optional. destruct b; cbn; [|split; [done|by rewrite Hb]].
  split; [|lia]. constructor; [|done]. by split.
Qed.

Lemma Price_lines u t :
  table_ok t → usage_ok u → charge_spec u t ≤ max_int64 →
  Forall charge_line (Price u t) ∧ sum_amounts (Price u t) = charge_spec u t.
Proof.
  intros Ht [Hs Hr] Hfit. unfold table_ok, price_entries in Ht.
  rewrite !Forall_cons in Ht. cbn [snd] in Ht.
  destruct Ht as (Hb & His & Hsc & Hip & Hop & Hir & Hrc & _).
  pose proof (ceil_million_nonneg (ManagedInputTokens u) (ManagedInputPerMillionCents t)).
  pose proof (ceil_million_nonneg (ManagedOutputTokens u) (ManagedOutputPerMillionCents t)).
  assert (0 ≤ Z.max (Sessions u - IncludedSessions t) 0 * SessionCents t) by nia.
  assert (0 ≤ Z.max (Runs u - IncludedRuns t) 0 * RunCents t) by nia.
  unfold charge_spec in *. unfold Price, mul64.
  rewrite !perMillionCeil_spec, !billable_spec by lia.
  rewrite !wrap64_id by (unfold_int64; lia).
  assert (Hopt : ∀ b1 b2 b3 b4 k1 k2 k3 k4 d1 d2 d3 d4 q1 q2 q3 q4 a1 a2 a3 a4 line,
    charge_line line → optional_ok b1 k1 a1 → optional_ok b2 k2 a2 → optional_ok b3 k3 a3 →
    optional_ok b4 k4 a4 →
    let l := line :: optional b1 k1 d1 q1 a1 ++ optional b2 k2 d2 q2 a2 ++
      optional b3 k3 d3 q3 a3 ++ optional b4 k4 d4 q4 a4 in
    Forall charge_line l ∧
    sum_amounts l = Line_AmountCents line + a1 + a2 + a3 + a4).
  { intros * Hl [F1 E1]%(optional_charge _ _ d1 q1) [F2 E2]%(optional_charge _ _ d2 q2)
      [F3 E3]%(optional_charge _ _ d3 q3) [F4 E4]%(optional_charge _ _ d4 q4).
    cbn [sum_amounts]. rewrite !sum_amounts_app, E1, E2, E3, E4. split; [|lia].
    constructor; [done|]. by rewrite !Forall_app. }
  edestruct Hopt as [Hl Hsum]; [| | | | |split; [exact Hl|etrans; [exact Hsum|cbn; lia]]].
  - by split; cbn; [|lia].
  - split_and!; [done|done|]. intros E%andb_false_iff. destruct E; bool_prop; nia.
  - split_and!; [done|done|]. intros E; bool_prop. lia.
  - split_and!; [done|done|]. intros E; bool_prop. lia.
  - split_and!; [done|done|]. intros E%andb_false_iff. destruct E; bool_prop; nia.
Qed.

(** What [ParsePriceTable] accepts: decoding stores [int64]s only, and a
    negative entry is refused. *)
Definition entries_le (t : PriceTable) : Prop :=
  Forall (λ e, e.2 ≤ max_int64) (price_entries t).

Lemma parse_int64_le s z : parse_int64 s = Some z → z ≤ max_int64.
Proof. unfold parse_int64. intros; repeat case_match; simplify_eq; bool_prop; lia. Qed.

Lemma PriceTable_fields_le f v t t' :
  f ∈ PriceTable_fields → f.2 v t = Some t' → entries_le t → entries_le t'.
Proof.
  unfold entries_le, price_entries. intros Hf Hset.
  unfold PriceTable_fields in Hf. rewrite !elem_of_cons, elem_of_nil in Hf.
  rewrite !Forall_cons. cbn [snd]. intros Ht.
  destruct_or?; subst; cbn in Hset; destruct v; simplify_eq; try done;
    apply bind_Some in Hset as (z & Hz%parse_int64_le & ?); simplify_eq; cbn; tauto.
Qed.

Lemma decode_PriceTable_le strict kvs t t' :
  decode_fields strict PriceTable_fields kvs t = Some t' → entries_le t → entries_le t'.
Proof.
  revert t. induction kvs as [|[k v] kvs IH]; intros t; cbn [decode_fields]; [by intros [= ->]|].
  destruct (find_field _ k) as [f|] eqn:E.
  - intros (t1 & Hset & Hrest)%bind_Some Ht. eapply IH; [done|].
    eapply PriceTable_fields_le; [by eapply find_field_elem|done|done].
  - destruct strict; [done|]. apply IH.
Qed.

Lemma ParsePriceTable_ok raw t : ParsePriceTable raw = Ok t → table_ok t.
Proof.
  unfold ParsePriceTable. case_match eqn:E; [|done]. destruct (find _ _) as [[]|] eqn:Hneg; [done|].
  intros [= ->].
  assert (Hle : entries_le t).
  { unfold unmarshal_strict in E. apply bind_Some in E as (v & _ & Hd).
    destruct v; cbn in Hd; simplify_eq; [by repeat constructor|].
    eapply decode_PriceTable_le; [done|]. by repeat constructor. }
  unfold table_ok. apply Forall_forall. intros e He.
  pose proof (find_none _ _ Hneg e (proj1 (list_elem_of_In _ _) He)).
  unfold entries_le in Hle. rewrite Forall_forall in Hle. specialize (Hle e He).
  cbn in *. bool_prop. lia.
Qed.

(** An invoice's charges are exactly the plan's: base fee, sessions and
    runs beyond their allowances, and each token kind rounded up to a cent -
    for every table [ParsePriceTable] accepts and every metered usage whose
    charge fits an [int64].  No line is negative and [Totals] accepts them. *)
Theorem Price_charges raw table u :
  ParsePriceTable raw = Ok table → usage_ok u → charge_spec u table ≤ max_int64 →
  Totals (Price u table) = Ok (charge_spec u table, 0, charge_spec u table) ∧
  Forall charge_line (Price u table) ∧ 0 ≤ charge_spec u table.
Proof.
  intros Hp Hu Hfit.
  assert (table_ok table) as Ht by (by eapply ParsePriceTable_ok).
  destruct (Price_lines u table Ht Hu Hfit) as [Hl Hs].
  split_and!; [|done|rewrite <-Hs; by apply charges_sum_nonneg].
  rewrite <-(app_nil_r (Price u table)), Totals_invoice; [|done|constructor|lia|].
  - rewrite Hs. cbn [sum_amounts]. repeat f_equal; lia.
  - cbn [sum_amounts]. pose proof (charges_sum_nonneg _ Hl). lia.
Qed.


Definition example_table_json : RawMessage := Some (JObject [
  ("base_fee_cents"%string, JNumber "5000"); ("included_sessions"%string, JNumber "3");
  ("session_cents"%string, JNumber "250"); ("managed_input_per_million_cents"%string, JNumber "300");
  ("run_cents"%string, JNumber "2")]).
Definition example_table : PriceTable := mkPriceTable 5000 3 250 300 0 0 2.
Definition example_usage : Usage := mkUsage 5 1500001 10 0 0 7 1000.

Lemma Price_charges_witness :
  Totals (Price example_usage example_table) = Ok (5965, 0, 5965).
Proof.
  apply (Price_charges example_table_json example_table example_usage);
    [vm_compute; reflexivity|split; vm_compute; split; discriminate|vm_compute; discriminate].
Defined.

(** ** Credits *)
Section CreditLemmas.
Context `{UuidLib}.

Lemma credit_less_asym a b : credit_less a b = true → credit_less b a = false.
Proof.
  unfold credit_less, before.
  intros; repeat case_match; bool_prop; try done; try lia; eauto using ltb_asym.
Qed.

Lemma credit_less_trans a b c :
  not_less credit_less a b → not_less credit_less b c → not_less credit_less a c.
Proof.
  unfold not_less, credit_less, before.
  intros; repeat case_match; bool_prop; try done; try lia; eauto using ltb_trans.
Qed.

(** The credit lines of [apply_credits_loop]. *)
Fixpoint usable (credits : list Credit) : Z :=
  match credits with
  | [] => 0
  | c :: credits => Z.max 0 (Credit_RemainingCents c) + usable credits
  end.

Lemma usable_nonneg l : 0 ≤ usable l.
Proof. induction l; cbn; lia. Qed.

Lemma usable_perm l l' : l ≡ₚ l' → usable l = usable l'.
Proof. induction 1; cbn; lia. Qed.

(** Which credit line is justified by which credits: a positive amount of at
    most what the credit had left. *)
Definition backed_by (credits : list Credit) (line : Line) : Prop :=
  Line_Kind line = KindCredit ∧
  ∃ c, c ∈ credits ∧ Line_CreditID line = Some (Credit_ID c) ∧
    0 < - Line_AmountCents line ≤ Credit_RemainingCents c.

Lemma apply_credits_loop_lines due l :
  0 ≤ due ≤ max_int64 →
  Forall (backed_by l) (apply_credits_loop due l) ∧
  - sum_amounts (apply_credits_loop due l) = Z.min due (usable l).
Proof.
  revert due. induction l as [|c l IH]; intros due Hdue; cbn -[Z.min Z.max].
  { split; [done|lia]. }
  pose proof (usable_nonneg l).
  destruct (due <=? 0) eqn:Ed; bool_prop; [split; [done|cbn; lia]|].
  assert (Hw : ∀ d, Forall (backed_by l) (apply_credits_loop d l) →
    Forall (backed_by (c :: l)) (apply_credits_loop d l)).
  { intros d Hf. eapply Forall_impl; [exact Hf|]. intros line (? & c' & ? & ?).
    split; [done|]. exists c'. split; [by right|done]. }
  destruct (_ <=? 0) eqn:Ea; bool_prop.
  - destruct (IH due Hdue) as [Hl Hs]. split; [by apply Hw|lia].
  - unfold sub64. rewrite !wrap64_id by (unfold_int64; lia).
    destruct (IH (due - Z.min (Credit_RemainingCents c) due)) as [Hl Hs]; [lia|].
    split; [constructor; [|by apply Hw]|cbn; lia].
    split; [done|]. exists c. cbn. split; [by left|]. split; [done|lia].
Qed.

(** Credits are spent greedily: a later credit is touched only when every
    earlier one is used up. *)
Lemma apply_credits_loop_app due l1 l2 :
  0 ≤ due ≤ max_int64 →
  apply_credits_loop due (l1 ++ l2) =
  apply_credits_loop due l1 ++ apply_credits_loop (due - Z.min due (usable l1)) l2.
Proof.
  revert due. induction l1 as [|c l IH]; intros due Hdue; cbn -[Z.min Z.max].
  { by rewrite Z.min_r, Z.sub_0_r by lia. }
  pose proof (usable_nonneg l).
  destruct (due <=? 0) eqn:Ed; bool_prop.
  - assert (due = 0) as -> by lia. rewrite Z.min_l by lia. by destruct l2.
  - destruct (_ <=? 0) eqn:Ea; bool_prop.
    + rewrite IH by done. do 2 f_equal. lia.
    + unfold sub64. rewrite !wrap64_id by (unfold_int64; lia).
      rewrite IH by lia. cbn. do 3 f_equal. lia.
Qed.

(** Credits are spent in order and never beyond themselves or the
    amount due.  For any credits, [ApplyCredits] produces credit lines each
    taking a positive amount of at most its credit's balance; together they
    take exactly the lesser of the amount due and everything available; and
    in the documented order (soonest expiry, then oldest grant, then id) a
    credit is touched only once every earlier one is used up. *)
Theorem ApplyCredits_spends credits due :
  0 ≤ due ≤ max_int64 →
  let ordered := sortCredits credits in
  ordered ≡ₚ credits ∧ StronglySorted (not_less credit_less) ordered ∧
  Forall (backed_by credits) (ApplyCredits due credits) ∧
  - sum_amounts (ApplyCredits due credits) = Z.min due (usable credits) ∧
  ∀ earlier later, ordered = earlier ++ later → due ≤ usable earlier →
    ApplyCredits due credits = apply_credits_loop due earlier.
Proof.
  intros Hdue ordered. pose proof (sort_stable_perm credit_less credits) as Hp.
  destruct (apply_credits_loop_lines due ordered Hdue) as [Hl Hs]. split_and!.
  - done.
  - apply sort_stable_sorted; [exact credit_less_trans|exact credit_less_asym].
  - eapply Forall_impl; [exact Hl|]. intros line (? & c & Hc & ?). split; [done|].
    exists c. split; [|done]. by rewrite <-Hp.
  - unfold ApplyCredits, sortCredits. rewrite <-(usable_perm _ _ Hp). exact Hs.
  - intros earlier later E Hcover. unfold ApplyCredits. fold ordered. rewrite E.
    rewrite apply_credits_loop_app by done. rewrite Z.min_l, Z.sub_diag by done.
    destruct later; cbn; by rewrite app_nil_r.
Qed.
End CreditLemmas.

Definition example_credits : list Credit := [
  mkCredit 1%N "Launch" 400 0 None; mkCredit 2%N "" 300 0 (Some (90 * day));
  mkCredit 3%N "Spent" (-5) 0 (Some (10 * day))].

Lemma ApplyCredits_spends_witness :
  - sum_amounts (@ApplyCredits BinUuid.lib 650 example_credits) = 650 ∧
  @ApplyCredits BinUuid.lib 300 example_credits =
    apply_credits_loop 300 [mkCredit 3%N "Spent" (-5) 0 (Some (10 * day));
      mkCredit 2%N "" 300 0 (Some (90 * day))].
Proof.
  split.
  - destruct (@ApplyCredits_spends BinUuid.lib example_credits 650) as (_ & _ & _ & H & _);
      [vm_compute; split; discriminate|exact H].
  - destruct (@ApplyCredits_spends BinUuid.lib example_credits 300) as (_ & _ & _ & _ & H);
      [vm_compute; split; discriminate|].
    eapply (H _ [mkCredit 1%N "Launch" 400 0 None]); [vm_compute; reflexivity|].
    vm_compute. discriminate.
Defined.

(** ** Periods *)

(** Billing periods tile the calendar.  [PeriodStart] is the first
    instant of the UTC month an instant lies in (so it is idempotent, and
    two instants share a period exactly when year and month agree),
    [PreviousPeriod] is the start of the calendar month before, and a period
    [ParsePeriod] accepts is the start of its own month. *)
Theorem billing_periods t :
  (PeriodStart t ≤ t ∧
   let '(y', m') := next_month (year t) (month t) in t < date_month y' m') ∧
  PeriodStart (PeriodStart t) = PeriodStart t ∧
  (∀ t', PeriodStart t = PeriodStart t' ↔ year t = year t' ∧ month t = month t') ∧
  (let p := PreviousPeriod t in
   PeriodStart p = p ∧ next_month (year p) (month p) = (year t, month t)) ∧
  (∀ value p, ParsePeriod value = Ok p → PeriodStart p = p).
Proof.
  assert (Hid : ∀ u, PeriodStart (PeriodStart u) = PeriodStart u).
  { intros u. unfold PeriodStart.
    destruct (date_month_components (year u) (month u) (month_range u)) as [-> ->]. done. }
  split; [apply month_bounds|]. split; [apply Hid|]. split; [|split].
  - intros t'. split; [|by unfold PeriodStart; intros [-> ->]]. unfold PeriodStart. intros E.
    destruct (date_month_components (year t) (month t) (month_range t)) as [Ey Em].
    rewrite E in Ey, Em.
    destruct (date_month_components (year t') (month t') (month_range t')) as [Ey' Em']. lia.
  - split; [apply Hid|]. assert (year (PreviousPeriod t) = year (PeriodStart t - day) ∧
      month (PreviousPeriod t) = month (PeriodStart t - day)) as [-> ->].
    { apply date_month_components, month_range. }
    by apply (month_before (year t) (month t)), eq_refl; apply month_range.
  - intros value p. unfold ParsePeriod. intros Hp. repeat case_match; simplify_eq. bool_prop.
    unfold PeriodStart.
    edestruct date_month_components as [-> ->]; [|done]. lia.
Qed.

Example periods : ParsePeriod "2024-03" = Ok (1709251200 * second) ∧
  PreviousPeriod (1709251200 * second) = date_month 2024 2 ∧
  is_ok (ParsePeriod "2024-13") = false.
Proof. vm_compute. done. Qed.
