(* ===== verification/Invoices.v ===== *)
(** * Closing a month: invoices and credits (internal/billing/close.go,
      internal/store/postgres/billing.go)

    The billing tables as lists of rows with the constraints of migration
    000011 that the code can meet; [WriteDraft] and [IssueInvoice] as
    transactions over them, [Closer.Close] above.  A SQL [date] is the instant
    of its midnight UTC. *)
From S2P Require Import Prelude Str GoTime Json Pricing Tx.

Record Company := mkCompany {
  CompanyID : UUID;
  PlanID : string;
  Currency : string;
  Company_PriceTable : RawMessage;
}.

Inductive DraftOutcome := DraftCreated | DraftRecomputed | DraftFinal.

(** ** The tables *)
Record PlanRow := mkPlanRow { plan_id : string; plan_currency : string; plan_price_table : RawMessage }.
Record CompanyRow := mkCompanyRow { company_row_id : UUID; company_plan : option string }.
Record CreditRow := mkCreditRow {
  credit_company : UUID;
  credit_id : UUID;
  credit_amount : Z;
  credit_text : string;
  credit_granted : time;
  credit_expires : option time;
}.
Record InvoiceRow := mkInvoiceRow {
  inv_company : UUID;
  inv_id : UUID;
  inv_period : time;
  inv_status : string;
  inv_plan : string;
  inv_currency : string;
  inv_subtotal : Z;
  inv_credits : Z;
  inv_total : Z;
  inv_computed_at : time;
  inv_issued_at : option time;
}.
Record LineRow := mkLineRow {
  line_company : UUID;
  line_invoice : UUID;
  line_no : Z;
  line : Line;
}.

Record DB := mkDB {
  db_plans : list PlanRow;
  db_companies : list CompanyRow;
  db_credits : list CreditRow;
  db_invoices : list InvoiceRow;
  db_lines : list LineRow;
}.

#[export] Instance DB_rollback : Rollback DB := λ s0 _, s0.

(** ** Statements *)

(** The rows of [Companies]: companies joined with their plan, by id. *)
Definition Companies (db : DB) : list Company :=
  c ← sort_stable (λ a b, N.ltb (company_row_id a) (company_row_id b)) (db_companies db);
  match company_plan c with
  | None => []
  | Some p =>
      match find (λ r, bool_decide (plan_id r = p)) (db_plans db) with
      | None => []
      | Some r => [mkCompany (company_row_id c) p (plan_currency r) (plan_price_table r)]
      end
  end.

Definition is_invoice (company : UUID) (period : time) (i : InvoiceRow) : bool :=
  bool_decide (inv_company i = company) && bool_decide (inv_period i = period).
Definition has_id (company id : UUID) (i : InvoiceRow) : bool :=
  bool_decide (inv_company i = company) && bool_decide (inv_id i = id).
Definition of_invoice (company id : UUID) (l : LineRow) : bool :=
  bool_decide (line_company l = company) && bool_decide (line_invoice l = id).

(** [INSERT INTO invoices … ON CONFLICT (company_id, period) DO NOTHING] and
    its number of affected rows. *)
Definition insert_invoice (company : Company) (id : UUID) (period now : time) (db : DB)
    : result (Z * DB) :=
  if existsb (is_invoice (CompanyID company) period) (db_invoices db) then Ok (0, db)
  else if existsb (has_id (CompanyID company) id) (db_invoices db)
  then Err (Plain "duplicate key value violates unique constraint invoices_pkey")
  else if negb (existsb (λ r, bool_decide (plan_id r = PlanID company)) (db_plans db))
  then Err (Plain "violates foreign key constraint invoices_plan_id_fkey")
  else if negb (bool_decide (PeriodStart period = period))
  then Err (Plain "violates check constraint invoices_period_check")
  else
    let row := mkInvoiceRow (CompanyID company) id period "draft" (PlanID company)
      (Currency company) 0 0 0 now None in
    Ok (1, mkDB (db_plans db) (db_companies db) (db_credits db) (db_invoices db ++ [row]) (db_lines db)).

Definition select_invoice (company : UUID) (period : time) (db : DB) : result ((UUID * string) * DB) :=
  match find (is_invoice company period) (db_invoices db) with
  | Some i => Ok ((inv_id i, inv_status i), db)
  | None => Err (Sentinel "pgx.ErrNoRows")
  end.

(** The month after a month start: [$3::date + interval '1 month']. *)
Definition month_after (period : time) : time :=
  let '(y, m) := next_month (year period) (month period) in date_month y m.

(** Whether a line counts against credits when computing invoice
    [invoiceID]: it belongs to another invoice that is not void. *)
Definition counted (db : DB) (excluded : option UUID) (l : LineRow) : bool :=
  existsb (λ i, has_id (line_company l) (line_invoice l) i &&
                negb (bool_decide (Some (inv_id i) = excluded)) &&
                negb (bool_decide (inv_status i = "void"%string))) (db_invoices db).

Definition uses_credit (c : CreditRow) (l : LineRow) : bool :=
  bool_decide (line_company l = credit_company c) &&
  bool_decide (Line_CreditID (line l) = Some (credit_id c)).

Fixpoint sum_lines (p : LineRow → bool) (ls : list LineRow) : Z :=
  match ls with
  | [] => 0
  | l :: ls => (if p l then Line_AmountCents (line l) else 0) + sum_lines p ls
  end.

Definition remaining (db : DB) (excluded : option UUID) (c : CreditRow) : Z :=
  credit_amount c + sum_lines (λ l, uses_credit c l && counted db excluded l) (db_lines db).

Definition in_window (company : UUID) (period : time) (c : CreditRow) : bool :=
  bool_decide (credit_company c = company) && (credit_granted c <? month_after period) &&
  match credit_expires c with None => true | Some e => period <? e end.

(** The rows of the query, scanned one by one: a balance that is not an [int64] fails the scan. *)
Fixpoint scan_credits (db : DB) (invoiceID : UUID) (cs : list CreditRow) : result (list Credit) :=
  match cs with
  | [] => Ok []
  | c :: cs =>
      let r := remaining db (Some invoiceID) c in
      if negb ((min_int64 <=? r) && (r <=? max_int64))
      then Err (Wrap "scan credit" (Plain "overflow"))
      else
        rest ← scan_credits db invoiceID cs;
        Ok (if 0 <? r
            then mkCredit (credit_id c) (credit_text c) r (credit_granted c) (credit_expires c) :: rest
            else rest)
  end.

Definition availableCredits (companyID invoiceID : UUID) (period : time) : M DB (list Credit) :=
  rows ← wrapM "query credits" (query (λ db,
    (db, List.filter (in_window companyID period) (db_credits db))));
  lift (scan_credits rows.1 invoiceID rows.2).

Definition delete_lines (company id : UUID) (db : DB) : DB :=
  mkDB (db_plans db) (db_companies db) (db_credits db) (db_invoices db)
    (List.filter (λ l, negb (of_invoice company id l)) (db_lines db)).

(** The CHECK and FOREIGN KEY constraints of [invoice_lines]. *)
Definition known_kinds : list string :=
  [KindBaseFee; KindSessions; KindManagedInputTokens; KindManagedOutputTokens; KindRuns; KindCredit].
Definition line_check (company : UUID) (db : DB) (l : Line) : bool :=
  bool_decide (Line_Kind l ∈ known_kinds) && (0 <=? Line_Quantity l) &&
  bool_decide (Line_Kind l = KindCredit ↔ is_Some (Line_CreditID l)) &&
  (if bool_decide (Line_Kind l = KindCredit) then Line_AmountCents l <? 0 else 0 <=? Line_AmountCents l) &&
  match Line_CreditID l with
  | None => true
  | Some id => existsb (λ c, bool_decide (credit_company c = company) && bool_decide (credit_id c = id))
                 (db_credits db)
  end.

Definition insert_line (company id : UUID) (no : Z) (l : Line) (db : DB) : result (() * DB) :=
  if existsb (λ r, of_invoice company id r && (line_no r =? no)) (db_lines db)
  then Err (Plain "duplicate key value violates unique constraint invoice_lines_pkey")
  else if negb (existsb (has_id company id) (db_invoices db))
  then Err (Plain "violates foreign key constraint invoice_lines_company_id_invoice_id_fkey")
  else if line_check company db l
  then Ok ((), mkDB (db_plans db) (db_companies db) (db_credits db) (db_invoices db)
                 (db_lines db ++ [mkLineRow company id no l]))
  else Err (Plain "violates check constraint of invoice_lines").

Fixpoint insert_lines (company id : UUID) (i : Z) (ls : list Line) : M DB () :=
  match ls with
  | [] => mret ()
  | l :: ls =>
      wrapM ("write invoice line " +:+ render_int (i + 1)) (stmt (insert_line company id (i + 1) l));;
      insert_lines company id (i + 1) ls
  end.

Definition update_totals (company : Company) (id : UUID) (subtotal credits total : Z) (now : time)
    (db : DB) : result (() * DB) :=
  if (0 <=? subtotal) && (0 <=? credits) && (0 <=? total) && (total =? subtotal - credits)
  then Ok ((), mkDB (db_plans db) (db_companies db) (db_credits db)
    (map (λ i, if has_id (CompanyID company) id i
               then mkInvoiceRow (inv_company i) (inv_id i) (inv_period i) (inv_status i)
                      (PlanID company) (Currency company) subtotal credits total now (inv_issued_at i)
               else i) (db_invoices db)) (db_lines db))
  else Err (Plain "violates check constraint of invoices").

(** ** The store's operations *)

(** The body of [WriteDraft]; [new_id] is the [uuid.New()] of the INSERT and
    [now] the transaction's clock. *)
Definition write_draft_body (company : Company) (period : time) (new_id : UUID) (now : time)
    (compute : list Credit → result (list Line)) : M DB (outcome DraftOutcome) :=
  wrapM "lock credits" (query (λ _, ()));;
  affected ← wrapM "create invoice" (stmt (insert_invoice company new_id period now));
  let out := if affected =? 1 then DraftCreated else DraftRecomputed in
  inv ← wrapM "lock invoice" (stmt (select_invoice (CompanyID company) period));
  let '(invoiceID, status) := inv in
  if negb (bool_decide (status = "draft"%string)) then mret (Rolled DraftFinal)
  else
    credits ← availableCredits (CompanyID company) invoiceID period;
    lines ← lift (compute credits);
    totals ← lift (Totals lines);
    let '(subtotal, creditTotal, total) := totals in
    wrapM "clear draft lines" (exec (delete_lines (CompanyID company) invoiceID));;
    insert_lines (CompanyID company) invoiceID 0 lines;;
    wrapM "update invoice totals"
      (stmt (update_totals company invoiceID subtotal creditTotal total now));;
    mret (Commit out).

Definition WriteDraft (company : Company) (period : time) (new_id : UUID) (now : time)
    (compute : list Credit → result (list Line)) : M DB DraftOutcome :=
  transaction "begin invoice" "commit invoice" (write_draft_body company period new_id now compute).

Definition ErrInvoiceNotDraft : error := Sentinel "postgres.ErrInvoiceNotDraft".

Definition is_draft (company : UUID) (period : time) (i : InvoiceRow) : bool :=
  is_invoice company period i && bool_decide (inv_status i = "draft"%string).

(** [IssueInvoice]: one conditional UPDATE; no draft row is
    [ErrInvoiceNotDraft]. *)
Definition issue_update (company : UUID) (period now : time) (db : DB) : bool * DB :=
  (existsb (is_draft company period) (db_invoices db),
   mkDB (db_plans db) (db_companies db) (db_credits db)
    (map (λ i, if is_draft company period i
               then mkInvoiceRow (inv_company i) (inv_id i) (inv_period i) "issued" (inv_plan i)
                      (inv_currency i) (inv_subtotal i) (inv_credits i) (inv_total i)
                      (inv_computed_at i) (Some now)
               else i) (db_invoices db)) (db_lines db)).

Definition IssueInvoice (company : UUID) (period now : time) : M DB () :=
  affected ← wrapM "issue invoice" (stmt (λ db, Ok (issue_update company period now db)));
  if (affected : bool) then mret () else throw ErrInvoiceNotDraft.

(** ** The closer *)
Section Close.
Context `{UuidLib}.

(** The [compute] callback of [closeCompany]. *)
Definition compute_lines (charges : list Line) (credits : list Credit) : result (list Line) :=
  totals ← Totals charges;
  let '(subtotal, _, _) := totals in
  Ok (charges ++ ApplyCredits subtotal credits).

Definition closeCompany (company : Company) (period : time) (usage : Usage) (new_id : UUID)
    (now : time) : M DB DraftOutcome :=
  table ← wrapM ("plan " +:+ PlanID company) (lift (ParsePriceTable (Company_PriceTable company)));
  WriteDraft company period new_id now (compute_lines (Price usage table)).

Record Report := mkReport {
  Period : time;
  Created : list UUID;
  Recomputed : list UUID;
  Final : list UUID;
  Unplanned : list UUID;
  Failures : list (UUID * error);
}.

Definition zero_usage : Usage := mkUsage 0 0 0 0 0 0 0.

(** The loop of [Close] over the companies; [now] and the fresh ids are the
    draws of each company's transaction.  A Go map answers the zero value
    for a company without usage. *)
Fixpoint close_loop (period : time) (usage : gmap UUID Usage) (ids : UUID → UUID) (now : time)
    (companies : list Company) (r : Report) : M DB Report := λ fs db,
  match companies with
  | [] => (Ok r, fs, db)
  | company :: companies =>
      let u := default zero_usage (usage !! CompanyID company) in
      let id := CompanyID company in
      let '(outcome, fs, db) := closeCompany company period u (ids id) now fs db in
      let r := match outcome with
        | Err e => mkReport (Period r) (Created r) (Recomputed r) (Final r) (Unplanned r)
                     (Failures r ++ [(id, e)])
        | Ok DraftCreated => mkReport (Period r) (Created r ++ [id]) (Recomputed r) (Final r)
                     (Unplanned r) (Failures r)
        | Ok DraftRecomputed => mkReport (Period r) (Created r) (Recomputed r ++ [id]) (Final r)
                     (Unplanned r) (Failures r)
        | Ok DraftFinal => mkReport (Period r) (Created r) (Recomputed r) (Final r ++ [id])
                     (Unplanned r) (Failures r)
        end in
      close_loop period usage ids now companies r fs db
  end.

(** Companies with usage and no plan; Go ranges over a map, so their order
    is not specified. *)
Definition unplanned (usage : gmap UUID Usage) (companies : list Company) : list UUID :=
  filter (λ id, id ∉ map CompanyID companies) (map fst (map_to_list usage)).

Definition Close (period : time) (usage : result (gmap UUID Usage)) (ids : UUID → UUID)
    (now : time) : M DB Report :=
  if negb (bool_decide (period = PeriodStart period))
  then throw (Plain "billing: period is not the start of a UTC month")
  else
    usage ← wrapM "billing: read usage" (lift usage);
    companies ← wrapM "billing: list companies" (query Companies);
    r ← close_loop period usage ids now companies (mkReport period [] [] [] [] []);
    mret (mkReport (Period r) (Created r) (Recomputed r) (Final r)
            (Unplanned r ++ unplanned usage companies) (Failures r)).

(** [ClickHouseUsage.Usage]: the rows of the view, those whose company id is
    not a UUID skipped, a later row replacing an earlier one. *)
Definition usage_of_rows (rows : list (string * Usage)) : gmap UUID Usage :=
  foldl (λ m r, match uuid_Parse r.1 with Some id => <[id := r.2]> m | None => m end) ∅ rows.
End Close.

(** ** Well-formed tables *)

Definition inv_key (i : InvoiceRow) : UUID * UUID := (inv_company i, inv_id i).
Definition inv_month (i : InvoiceRow) : UUID * time := (inv_company i, inv_period i).
Definition credit_key (c : CreditRow) : UUID * UUID := (credit_company c, credit_id c).

Definition lines_of (db : DB) (i : InvoiceRow) : list LineRow :=
  List.filter (of_invoice (inv_company i) (inv_id i)) (db_lines db).

(** The invariant of the billing tables: keys are unique, every line belongs
    to an invoice and satisfies the column checks, every invoice's totals are
    the totals of its lines, and no credit is spent beyond its amount by the
    invoices that are not void. *)
Record db_ok (db : DB) : Prop := {
  ok_invoice_key : NoDup (map inv_key (db_invoices db));
  ok_invoice_month : NoDup (map inv_month (db_invoices db));
  ok_credit_key : NoDup (map credit_key (db_credits db));
  ok_lines : Forall (λ l, line_check (line_company l) db (line l) = true ∧
    existsb (has_id (line_company l) (line_invoice l)) (db_invoices db) = true) (db_lines db);
  ok_totals : Forall (λ i, Totals (map line (lines_of db i)) =
    Ok (inv_subtotal i, inv_credits i, inv_total i)) (db_invoices db);
  ok_credits : Forall (λ c, 0 ≤ remaining db None c) (db_credits db);
}.

(** An invoice that is issued or void keeps its row and its lines. *)
Definition keeps_final (db db' : DB) : Prop :=
  Forall (λ i, inv_status i ≠ "draft"%string →
    i ∈ db_invoices db' ∧ lines_of db' i = lines_of db i) (db_invoices db).

(** What every billing operation guarantees, whatever fails. *)
Definition billing_step (db db' : DB) : Prop :=
  db_ok db → db_ok db' ∧ keeps_final db db' ∧ db_credits db' = db_credits db.

#[export] Instance billing_step_preorder : PreOrder billing_step.
Proof.
  split.
  - intros db Hok. split_and!; [done| |done]. apply Forall_forall. by intros i Hi _.
  - intros db1 db2 db3 H12 H23 Hok. destruct (H12 Hok) as (Hok2 & K12 & C12).
    destruct (H23 Hok2) as (Hok3 & K23 & C23). split_and!; [done| |congruence].
    unfold keeps_final in *. rewrite Forall_forall in K12, K23 |- *. intros i Hi Hs.
    destruct (K12 i Hi Hs) as [Hi2 E2]. destruct (K23 i Hi2 Hs) as [Hi3 E3].
    split; [done|]. congruence.
Qed.

(** *** Sums over the lines table *)
Lemma sum_lines_app p l1 l2 : sum_lines p (l1 ++ l2) = sum_lines p l1 + sum_lines p l2.
Proof. induction l1; cbn; lia. Qed.

Lemma sum_lines_ext p q ls :
  Forall (λ l, p l = q l) ls → sum_lines p ls = sum_lines q ls.
Proof. induction 1 as [|l ls E _ IH]; cbn; [done|]. rewrite E. lia. Qed.

Lemma sum_lines_filter p q ls :
  sum_lines p (List.filter q ls) = sum_lines (λ l, p l && q l) ls.
Proof.
  induction ls as [|l ls IH]; cbn; [done|].
  destruct (q l), (p l) eqn:E; cbn; rewrite ?E; lia.
Qed.

(** Dropping lines that are not positive does not lower a sum. *)
Lemma sum_lines_le p q ls :
  Forall (λ l, (q l = true → p l = true) ∧ (p l = true → Line_AmountCents (line l) ≤ 0)) ls →
  sum_lines p ls ≤ sum_lines q ls.
Proof.
  induction 1 as [|l ls [Hqp Hneg] _ IH]; cbn; [done|].
  destruct (q l) eqn:Eq.
  - rewrite Hqp by done. lia.
  - destruct (p l); [pose proof (Hneg eq_refl)|]; lia.
Qed.

Lemma has_id_spec c id i : has_id c id i = true ↔ inv_key i = (c, id).
Proof.
  unfold has_id, inv_key. rewrite andb_true_iff, !bool_decide_eq_true. naive_solver.
Qed.
Lemma is_invoice_spec c p i : is_invoice c p i = true ↔ inv_month i = (c, p).
Proof.
  unfold is_invoice, inv_month. rewrite andb_true_iff, !bool_decide_eq_true. naive_solver.
Qed.
Lemma of_invoice_spec c id l :
  of_invoice c id l = true ↔ line_company l = c ∧ line_invoice l = id.
Proof. unfold of_invoice. by rewrite andb_true_iff, !bool_decide_eq_true. Qed.

Lemma existsb_false {A} (p : A → bool) l : existsb p l = false ↔ Forall (λ x, p x = false) l.
Proof.
  induction l as [|x l IH]; cbn; [by split; constructor|].
  rewrite orb_false_iff, Forall_cons, IH. done.
Qed.
Lemma existsb_true {A} (p : A → bool) l : existsb p l = true ↔ ∃ x, x ∈ l ∧ p x = true.
Proof.
  rewrite existsb_exists. by setoid_rewrite list_elem_of_In.
Qed.

(** Rows are equal when they share a unique key. *)
Lemma NoDup_map_inj {A B} (f : A → B) l x y :
  NoDup (map f l) → x ∈ l → y ∈ l → f x = f y → x = y.
Proof.
  induction l as [|z l IH]; cbn; [by rewrite elem_of_nil|].
  rewrite NoDup_cons, !elem_of_cons. intros [Hz Hl] Hx Hy E.
  assert (Hin : ∀ w, w ∈ l → f w ∈ map f l) by (intros w Hw; apply list_elem_of_fmap; eauto).
  destruct Hx as [->|Hx], Hy as [->|Hy]; [done| | |by eauto];
    exfalso; apply Hz; [rewrite E|rewrite <-E]; by apply Hin.
Qed.

(** *** The INSERT of a new draft *)

(** A line of the table names an invoice of the table. *)
Lemma line_has_invoice db l :
  db_ok db → l ∈ db_lines db →
  ∃ i, i ∈ db_invoices db ∧ inv_key i = (line_company l, line_invoice l).
Proof.
  intros Hok Hl. pose proof (ok_lines db Hok) as H. rewrite Forall_forall in H.
  destruct (H l Hl) as [_ (i & Hi & Hid)%existsb_true]. exists i. by rewrite <-has_id_spec.
Qed.

Lemma line_check_credits company db db' l :
  db_credits db' = db_credits db → line_check company db' l = line_check company db l.
Proof. unfold line_check. by intros ->. Qed.

(** [counted] looks at the invoice's status only. *)
Lemma counted_app db row excl l :
  inv_key row ≠ (line_company l, line_invoice l) →
  counted (mkDB (db_plans db) (db_companies db) (db_credits db) (db_invoices db ++ [row]) (db_lines db))
    excl l = counted db excl l.
Proof.
  intros Hne. unfold counted. cbn. rewrite existsb_app. cbn.
  destruct (has_id _ _ row) eqn:E; [by apply has_id_spec in E|]. cbn. by rewrite orb_false_r.
Qed.

Lemma insert_invoice_step company id period now db a db' :
  insert_invoice company id period now db = Ok (a, db') → billing_step db db'.
Proof.
  unfold insert_invoice. destruct (existsb (is_invoice _ _) _) eqn:Emonth; [intros [= <- <-]; reflexivity|].
  destruct (existsb (has_id _ _) _) eqn:Ekey; [done|].
  destruct (negb (existsb _ _)); [done|]. destruct (negb _); [done|]. intros [= <- <-] Hok.
  set (row := mkInvoiceRow _ _ _ _ _ _ _ _ _ _ _).
  rewrite existsb_false, Forall_forall in Emonth, Ekey.
  assert (Hnew : ∀ l, l ∈ db_lines db → inv_key row ≠ (line_company l, line_invoice l)).
  { intros l Hl E. destruct (line_has_invoice db l Hok Hl) as (i & Hi & Hk).
    specialize (Ekey i Hi). rewrite <-E in Hk. change (inv_key row) with (CompanyID company, id) in Hk.
    apply has_id_spec in Hk. congruence. }
  assert (Hnil : lines_of db row = []).
  { unfold lines_of.
    induction (db_lines db) as [|l ls IH]; cbn; [done|].
    destruct (of_invoice _ _ l) eqn:E; [|apply IH; intros; apply Hnew; by right].
    exfalso. apply (Hnew l); [by left|]. apply of_invoice_spec in E as [-> ->]. done. }
  split_and!; [split|..]; cbn.
  - rewrite map_app. apply NoDup_app. split_and!; [apply Hok| |apply NoDup_singleton].
    intros k Hk ->%list_elem_of_singleton. apply list_elem_of_fmap in Hk as (i & E & Hi).
    specialize (Ekey i Hi). symmetry in E. apply (has_id_spec (CompanyID company) id) in E. congruence.
  - rewrite map_app. apply NoDup_app. split_and!; [apply Hok| |apply NoDup_singleton].
    intros k Hk ->%list_elem_of_singleton. apply list_elem_of_fmap in Hk as (i & E & Hi).
    specialize (Emonth i Hi). symmetry in E. apply (is_invoice_spec (CompanyID company) period) in E. congruence.
  - apply Hok.
  - eapply Forall_impl; [apply (ok_lines db Hok)|]. intros l [Hc He]. cbn. split.
    + rewrite <-Hc. by apply line_check_credits.
    + rewrite existsb_app. by rewrite He.
  - apply Forall_app. split; [apply (ok_totals db Hok)|]. constructor; [|done].
    unfold lines_of in Hnil. by rewrite Hnil.
  - eapply Forall_impl; [apply (ok_credits db Hok)|]. intros c Hc. cbn in Hc. unfold remaining in *. cbn.
    erewrite sum_lines_ext; [exact Hc|]. apply Forall_forall. intros l Hl.
    f_equal. by apply counted_app, Hnew.
  - unfold keeps_final. cbn. apply Forall_forall. intros i Hi _. split; [|done].
    apply elem_of_app. by left.
  - done.
Qed.

(** *** Replacing a draft's lines and totals *)

Fixpoint number (company id : UUID) (i : Z) (ls : list Line) : list LineRow :=
  match ls with
  | [] => []
  | l :: ls => mkLineRow company id (i + 1) l :: number company id (i + 1) ls
  end.

Lemma map_line_number company id i ls : map line (number company id i ls) = ls.
Proof. revert i. induction ls as [|l ls IH]; intros i; cbn; [done|]. by rewrite IH. Qed.

Lemma number_key company id i ls :
  Forall (λ l, line_company l = company ∧ line_invoice l = id) (number company id i ls).
Proof. revert i. induction ls; intros i; cbn; by constructor. Qed.

Definition with_lines (db : DB) (ls : list LineRow) : DB :=
  mkDB (db_plans db) (db_companies db) (db_credits db) (db_invoices db) ls.

Lemma insert_lines_ok company id i ls fs db u fs' db' :
  insert_lines company id i ls fs db = (Ok u, fs', db') →
  db' = with_lines db (db_lines db ++ number company id i ls) ∧
  Forall (λ l, line_check company db l = true) ls.
Proof.
  revert i fs db. induction ls as [|l ls IH]; intros i fs db H; cbn [insert_lines number] in H |- *.
  { inv_M. rewrite app_nil_r. split; [by destruct db'|done]. }
  inv_M. match goal with H : insert_lines _ _ _ _ _ _ = _ |- _ => apply IH in H as [-> Hls] end. unfold insert_line in *.
  repeat case_match; simplify_eq. cbn in *. split.
  - unfold with_lines; cbn. by rewrite <-app_assoc.
  - constructor; [done|]. eapply Forall_impl; [exact Hls|]. done.
Qed.

(** What a list of lines takes from one credit. *)
Fixpoint spend_of (id : UUID) (ls : list Line) : Z :=
  match ls with
  | [] => 0
  | l :: ls => (if bool_decide (Line_CreditID l = Some id) then - Line_AmountCents l else 0)
               + spend_of id ls
  end.

Fixpoint avail_of (id : UUID) (cs : list Credit) : Z :=
  match cs with
  | [] => 0
  | c :: cs => (if bool_decide (Credit_ID c = id) then Z.max 0 (Credit_RemainingCents c) else 0)
               + avail_of id cs
  end.

(** A [compute] callback takes from each credit at most what it is given. *)
Definition spends_within (compute : list Credit → result (list Line)) : Prop :=
  ∀ credits lines id, compute credits = Ok lines → spend_of id lines ≤ avail_of id credits.

Lemma spend_of_app id l1 l2 : spend_of id (l1 ++ l2) = spend_of id l1 + spend_of id l2.
Proof. induction l1; cbn; lia. Qed.
Lemma avail_of_perm id l1 l2 : l1 ≡ₚ l2 → avail_of id l1 = avail_of id l2.
Proof. induction 1; cbn; lia. Qed.
Lemma avail_of_nonneg id l : 0 ≤ avail_of id l.
Proof. induction l; cbn; [done|]. case_bool_decide; lia. Qed.

Lemma spend_of_loop id due cs :
  0 ≤ due ≤ max_int64 → spend_of id (apply_credits_loop due cs) ≤ avail_of id cs.
Proof.
  revert due. induction cs as [|c cs IH]; intros due Hdue; cbn -[Z.min Z.max]; [done|].
  pose proof (avail_of_nonneg id cs). destruct (due <=? 0) eqn:Ed; bool_prop.
  { cbn. case_bool_decide; lia. }
  destruct (_ <=? 0) eqn:Ea; bool_prop.
  - specialize (IH due Hdue). case_bool_decide; lia.
  - unfold sub64. rewrite !wrap64_id by (unfold_int64; lia). cbn -[Z.min Z.max].
    specialize (IH (due - Z.min (Credit_RemainingCents c) due) ltac:(lia)).
    repeat case_bool_decide; simplify_eq; lia.
Qed.

(** The available credits of [scan_credits], credit by credit. *)
Lemma scan_other db inv cs l id :
  scan_credits db inv cs = Ok l → Forall (λ c, credit_id c ≠ id) cs → avail_of id l = 0.
Proof.
  revert l. induction cs as [|c cs IH]; intros l; cbn [scan_credits]; [by intros [= <-]|].
  destruct (negb _); [done|]. intros (rest & Hrest & [= <-])%bind_ok [Hne Hcs]%Forall_cons.
  specialize (IH rest Hrest Hcs). destruct (0 <? _); cbn; [|done].
  by rewrite bool_decide_eq_false_2.
Qed.

Lemma scan_avail db inv cs l c :
  scan_credits db inv cs = Ok l →
  (∀ c', c' ∈ cs → credit_id c' = credit_id c → c' = c) → NoDup cs →
  avail_of (credit_id c) l ≤ Z.max 0 (remaining db (Some inv) c).
Proof.
  revert l. induction cs as [|c' cs IH]; intros l; cbn [scan_credits].
  { intros [= <-] _ _. cbn. lia. }
  destruct (negb _); [done|].
  intros (rest & Hrest & [= <-])%bind_ok Huniq [Hnin Hnd]%NoDup_cons.
  destruct (decide (credit_id c' = credit_id c)) as [Eid|Hne].
  - pose proof (Huniq c' ltac:(by left) Eid) as ->.
    assert (E0 : avail_of (credit_id c) rest = 0).
    { eapply scan_other; [exact Hrest|]. apply Forall_forall. intros c2 Hc2 E2.
      apply Hnin. rewrite <-(Huniq c2); [done|by right|done]. }
    destruct (0 <? _) eqn:E; cbn -[Z.max]; [rewrite bool_decide_eq_true_2 by done|]; lia.
  - specialize (IH rest Hrest ltac:(intros c2 Hc2; apply Huniq; by right) Hnd).
    destruct (0 <? _); cbn -[Z.max]; [rewrite bool_decide_eq_false_2 by done|]; lia.
Qed.

(** The committed state of a recomputed draft [row]. *)
Definition retotal (company : Company) (id : UUID) (s c t now : Z) (i : InvoiceRow) : InvoiceRow :=
  if has_id (CompanyID company) id i
  then mkInvoiceRow (inv_company i) (inv_id i) (inv_period i) (inv_status i)
         (PlanID company) (Currency company) s c t now (inv_issued_at i)
  else i.

Definition recomputed (company : Company) (id : UUID) (lines : list Line) (s c t now : Z) (db : DB) : DB :=
  mkDB (db_plans db) (db_companies db) (db_credits db)
    (map (retotal company id s c t now) (db_invoices db))
    (List.filter (λ l, negb (of_invoice (CompanyID company) id l)) (db_lines db) ++
     number (CompanyID company) id 0 lines).

Lemma retotal_same company id s c t now i :
  inv_key (retotal company id s c t now i) = inv_key i ∧
  inv_month (retotal company id s c t now i) = inv_month i ∧
  inv_status (retotal company id s c t now i) = inv_status i.
Proof. unfold retotal. by destruct (has_id _ _ _). Qed.

Lemma has_id_retotal company id s c t now i co iv :
  has_id co iv (retotal company id s c t now i) = has_id co iv i.
Proof. unfold retotal. by destruct (has_id (CompanyID company) id i). Qed.

Lemma existsb_map {A B} (f : A → B) p l : existsb p (map f l) = existsb (λ x, p (f x)) l.
Proof. induction l as [|x l IH]; cbn; [done|]. by rewrite IH. Qed.

Lemma existsb_ext {A} (p q : A → bool) l : (∀ x, p x = q x) → existsb p l = existsb q l.
Proof. intros E. induction l as [|x l IH]; cbn; [done|]. by rewrite E, IH. Qed.

Lemma counted_recomputed company id lines s c t now db excl l :
  counted (recomputed company id lines s c t now db) excl l = counted db excl l.
Proof.
  unfold counted. cbn. rewrite existsb_map. apply existsb_ext. intros i.
  rewrite has_id_retotal. destruct (retotal_same company id s c t now i) as (Hk & _ & ->).
  unfold inv_key in Hk. by injection Hk as _ ->.
Qed.

(** Excluding an invoice from the count is dropping its lines. *)
Lemma counted_excluded db id l :
  counted db (Some id) l = counted db None l && negb (bool_decide (line_invoice l = id)).
Proof.
  unfold counted. induction (db_invoices db) as [|i invs IH]; cbn; [done|]. rewrite IH.
  destruct (has_id _ _ i) eqn:E; cbn; [|done]. apply has_id_spec in E.
  assert (inv_id i = line_invoice l) as -> by (unfold inv_key in E; congruence).
  repeat case_bool_decide; simplify_eq; cbn; try done; by rewrite ?andb_false_r, ?andb_true_r.
Qed.

(** A line that uses a credit is negative. *)
Lemma credit_line_negative company db l id :
  line_check company db l = true → Line_CreditID l = Some id → Line_AmountCents l < 0.
Proof.
  unfold line_check. intros H Hid. bool_prop.
  match goal with H : _ ↔ _ |- _ => rewrite Hid in H end.
  rewrite bool_decide_eq_true_2 in * by naive_solver. by bool_prop.
Qed.

Lemma sum_number_spend c company id i ls p :
  credit_company c = company →
  Forall (λ l, ∀ k, Line_CreditID l = Some k → Line_AmountCents l ≤ 0) ls →
  - spend_of (credit_id c) ls ≤ sum_lines (λ l, uses_credit c l && p l) (number company id i ls).
Proof.
  intros Hc Hls. revert i. induction Hls as [|l ls Hl _ IH]; intros i; cbn; [lia|].
  specialize (IH (i + 1)). unfold uses_credit at 1. cbn.
  rewrite (bool_decide_eq_true_2 (company = credit_company c)) by done. cbn.
  case_bool_decide as E; cbn; [|lia]. pose proof (Hl _ E). destruct (p _); lia.
Qed.

Lemma sum_number_other c company id i ls p :
  credit_company c ≠ company → sum_lines (λ l, uses_credit c l && p l) (number company id i ls) = 0.
Proof.
  intros Hc. revert i. induction ls as [|l ls IH]; intros i; cbn; [done|]. rewrite IH.
  unfold uses_credit. cbn. by rewrite bool_decide_eq_false_2.
Qed.

(** No credit is overspent by recomputing a draft within its available
    credits. *)
Lemma recomputed_credits company id lines s cr t now db c :
  db_ok db → c ∈ db_credits db →
  Forall (λ l, line_check (CompanyID company) db l = true) lines →
  (credit_company c = CompanyID company →
   spend_of (credit_id c) lines ≤ Z.max 0 (remaining db (Some id) c)) →
  0 ≤ remaining (recomputed company id lines s cr t now db) None c.
Proof.
  intros Hok Hc Hlines Hspend.
  pose proof (ok_credits db Hok) as Hpos. rewrite Forall_forall in Hpos. specialize (Hpos c Hc).
  pose proof (ok_lines db Hok) as Hl. cbn in Hpos.
  assert (Hneg : Forall (λ l, uses_credit c l = true → Line_AmountCents (line l) ≤ 0) (db_lines db)).
  { eapply Forall_impl; [exact Hl|]. intros l [Hcheck _] [_ Hu]%andb_true_iff. bool_prop.
    pose proof (credit_line_negative _ _ _ _ Hcheck Hu). lia. }
  unfold remaining in *. cbn [recomputed db_lines credit_amount].
  rewrite (sum_lines_ext _ (λ l, uses_credit c l && counted db None l)) by
    (apply Forall_forall; intros; by rewrite counted_recomputed).
  rewrite sum_lines_app, sum_lines_filter.
  destruct (decide (credit_company c = CompanyID company)) as [Ec|Ec].
  - specialize (Hspend Ec). pose proof (sum_number_spend c (CompanyID company) id 0 lines (counted db None) Ec) as Hnew.
    ospecialize (Hnew _).
    { eapply Forall_impl; [exact Hlines|]. intros l Hcheck k Hk.
      pose proof (credit_line_negative _ _ _ _ Hcheck Hk). lia. }
    set (kept := sum_lines (λ l, uses_credit c l && counted db None l &&
      negb (of_invoice (CompanyID company) id l)) (db_lines db)) in *.
    assert (Ekept : sum_lines (λ l, uses_credit c l && counted db (Some id) l) (db_lines db) = kept).
    { apply sum_lines_ext, Forall_forall. intros l _. rewrite counted_excluded.
      unfold uses_credit, of_invoice. rewrite Ec.
      by destruct (bool_decide (line_company l = _)), (bool_decide (Line_CreditID _ = _)),
        (counted db None l), (bool_decide (line_invoice l = id)). }
    assert (sum_lines (λ l, uses_credit c l && counted db None l) (db_lines db) ≤ kept).
    { apply sum_lines_le. eapply Forall_impl; [exact Hneg|]. cbn. intros l Hn.
      destruct (uses_credit c l), (counted db None l); cbn; split; first [done|by intros; apply Hn]. }
    lia.
  - rewrite sum_number_other, Z.add_0_r by done.
    enough (sum_lines (λ l, uses_credit c l && counted db None l) (db_lines db) ≤
      sum_lines (λ l, uses_credit c l && counted db None l &&
        negb (of_invoice (CompanyID company) id l)) (db_lines db)) by lia.
    apply sum_lines_le. eapply Forall_impl; [exact Hneg|]. cbn. intros l Hn.
    destruct (uses_credit c l), (counted db None l); cbn; split; first [done|by intros; apply Hn].
Qed.

Lemma filter_filter_negb {A} (p q : A → bool) l :
  (∀ x, p x = true → q x = false) → List.filter p (List.filter (λ x, negb (q x)) l) = List.filter p l.
Proof.
  intros Hpq. induction l as [|x l IH]; cbn; [done|].
  destruct (q x) eqn:Eq; cbn; rewrite IH; [|done].
  destruct (p x) eqn:Ep; [|done]. rewrite Hpq in Eq; done.
Qed.
Lemma filter_negb_self {A} (p : A → bool) l : List.filter p (List.filter (λ x, negb (p x)) l) = [].
Proof.
  induction l as [|x l IH]; cbn; [done|]. destruct (p x) eqn:E; cbn; [done|]. by rewrite E.
Qed.

(** The lines of each invoice after a recomputation. *)
Lemma lines_of_recomputed company id lines s c t now db i :
  lines_of (recomputed company id lines s c t now db) i =
  if has_id (CompanyID company) id i then number (CompanyID company) id 0 lines else lines_of db i.
Proof.
  unfold lines_of. cbn. rewrite List.filter_app.
  pose proof (number_key (CompanyID company) id 0 lines) as Hk.
  destruct (has_id _ _ i) eqn:E.
  - apply has_id_spec in E. injection E as -> ->. rewrite filter_negb_self. apply filter_all_true.
    eapply Forall_impl; [exact Hk|]. intros l ?. by apply of_invoice_spec.
  - assert (Hne : ∀ l, of_invoice (inv_company i) (inv_id i) l = true →
      of_invoice (CompanyID company) id l = false).
    { intros l [Hc Hi]%of_invoice_spec. apply not_true_is_false. intros [Hc' Hi']%of_invoice_spec.
      assert (has_id (CompanyID company) id i = true) as Hid by
        (apply has_id_spec; unfold inv_key; congruence). congruence. }
    rewrite filter_filter_negb by done. rewrite (filter_all_false _ (number _ _ _ _)), app_nil_r; [done|].
    eapply Forall_impl; [exact Hk|]. cbn. intros l Hl. apply not_true_is_false. intros Ht%Hne.
    apply of_invoice_spec in Hl. congruence.
Qed.

Lemma recomputed_step company id lines s c t now db row :
  db_ok db → row ∈ db_invoices db → has_id (CompanyID company) id row = true →
  inv_status row = "draft"%string →
  Forall (λ l, line_check (CompanyID company) db l = true) lines →
  Totals lines = Ok (s, c, t) →
  (∀ k, k ∈ db_credits db → credit_company k = CompanyID company →
    spend_of (credit_id k) lines ≤ Z.max 0 (remaining db (Some id) k)) →
  db_ok (recomputed company id lines s c t now db) ∧
  keeps_final db (recomputed company id lines s c t now db).
Proof.
  intros Hok Hrow Hid Hdraft Hcheck Htot Hspend.
  assert (Hmap : ∀ {B} (f : InvoiceRow → B), (∀ i, f (retotal company id s c t now i) = f i) →
    map f (map (retotal company id s c t now) (db_invoices db)) = map f (db_invoices db)).
  { intros B f Hf. rewrite map_map. apply map_ext. done. }
  split; [split|].
  - cbn. rewrite Hmap; [apply Hok|]. intros i. apply retotal_same.
  - cbn. rewrite Hmap; [apply Hok|]. intros i. apply retotal_same.
  - apply Hok.
  - cbn. apply Forall_app. split.
    + pose proof (ok_lines db Hok) as Hl. rewrite Forall_forall in Hl. apply Forall_forall.
      intros l [Hl1 _]%list_elem_of_In%filter_In. apply list_elem_of_In in Hl1.
      destruct (Hl l Hl1) as [Hc He]. split; [rewrite <-Hc; by apply line_check_credits|].
      rewrite existsb_map, <-He. apply existsb_ext. intros. apply has_id_retotal.
    + assert (Hex : existsb (has_id (CompanyID company) id)
        (map (retotal company id s c t now) (db_invoices db)) = true).
      { rewrite existsb_map. apply existsb_true. exists row. by rewrite has_id_retotal. }
      clear Htot Hspend. generalize 0. induction lines as [|l ls IH]; intros n; cbn; [done|].
      apply Forall_cons in Hcheck as [Hl Hls]. constructor; [|by apply IH]. cbn.
      split; [|done]. rewrite <-Hl. by apply line_check_credits.
  - pose proof (ok_totals db Hok) as Ht. rewrite Forall_forall in Ht |- *.
    intros i' (i & -> & Hi)%list_elem_of_fmap. rewrite lines_of_recomputed, has_id_retotal.
    destruct (has_id _ _ i) eqn:E.
    + rewrite map_line_number, Htot. unfold retotal. by rewrite E.
    + unfold retotal. rewrite E. by apply Ht.
  - apply Forall_forall. intros k Hk. cbn. apply recomputed_credits; [done..|]. intros. by apply Hspend.
  - unfold keeps_final. apply Forall_forall. intros i Hi Hs.
    assert (Hne : has_id (CompanyID company) id i = false).
    { apply not_true_is_false. intros Hi'%has_id_spec. apply has_id_spec in Hid.
      assert (i = row) as ->; [|done].
      eapply (NoDup_map_inj inv_key); [apply Hok|done|done|congruence]. }
    rewrite lines_of_recomputed, Hne. split; [|done]. apply list_elem_of_fmap.
    exists i. split; [|done]. unfold retotal. by rewrite Hne.
Qed.

(** ** Every operation preserves the invariant *)

Lemma select_invoice_ok company period db id st db' :
  select_invoice company period db = Ok (id, st, db') →
  db' = db ∧ ∃ i, i ∈ db_invoices db ∧ inv_key i = (company, id) ∧
    inv_period i = period ∧ inv_status i = st.
Proof.
  unfold select_invoice. destruct (find _ _) as [i|] eqn:E; [|done]. intros [= <- <- <-].
  apply find_some in E as [Hi Hm]. apply list_elem_of_In in Hi. apply is_invoice_spec in Hm.
  split; [done|]. exists i. unfold inv_month, inv_key in *. split_and!; [done|congruence..|done].
Qed.

(** What a committed [write_draft_body] did. *)
Lemma write_draft_body_ok company period new_id now compute fs db a fs' db' :
  write_draft_body company period new_id now compute fs db = (Ok (Commit a), fs', db') →
  ∃ n db1 row cs lines s c t,
    insert_invoice company new_id period now db = Ok (n, db1) ∧
    a = (if n =? 1 then DraftCreated else DraftRecomputed) ∧
    row ∈ db_invoices db1 ∧ inv_key row = (CompanyID company, inv_id row) ∧
    inv_period row = period ∧ inv_status row = "draft"%string ∧
    scan_credits db1 (inv_id row)
      (List.filter (in_window (CompanyID company) period) (db_credits db1)) = Ok cs ∧
    compute cs = Ok lines ∧ Totals lines = Ok (s, c, t) ∧
    Forall (λ l, line_check (CompanyID company) db1 l = true) lines ∧
    db' = recomputed company (inv_id row) lines s c t now db1.
Proof.
  unfold write_draft_body, availableCredits. intros H. inv_M.
  match goal with H : select_invoice _ _ _ = Ok (?p, _) |- _ => destruct p as [id st];
    apply select_invoice_ok in H as (-> & row & Hrow & Hkey & Hper & Hst) end.
  destruct (negb _) eqn:Ed; [inv_M; done|]. bool_prop. subst st. inv_M.
  match goal with H : (let '_ := ?p in _) _ _ = _ |- _ => destruct p as [[s c] t] end. inv_M.
  match goal with H : insert_lines _ _ _ _ _ _ = _ |- _ => apply insert_lines_ok in H as [-> Hc] end.
  assert (inv_id row = id) as Eid by (unfold inv_key in Hkey; congruence). subst id.
  unfold update_totals in *. destruct (_ && _); [|done]. simplify_eq/=.
  do 8 eexists. split_and!; try done.
Qed.

(** A credit row of the window has a unique id. *)
Lemma window_unique db company period c c' :
  db_ok db → c ∈ db_credits db → credit_company c = company →
  c' ∈ List.filter (in_window company period) (db_credits db) → credit_id c' = credit_id c → c' = c.
Proof.
  intros Hok Hc Hcomp [Hin Hw]%list_elem_of_In%filter_In E. apply list_elem_of_In in Hin.
  unfold in_window in Hw. bool_prop.
  eapply (NoDup_map_inj credit_key); [apply Hok|done|done|]. unfold credit_key. congruence.
Qed.

Lemma NoDup_map_1 {A B} (f : A → B) l : NoDup (map f l) → NoDup l.
Proof.
  induction l as [|x l IH]; cbn; [constructor|]. intros [Hx Hl]%NoDup_cons.
  constructor; [|by apply IH]. intros Hin. apply Hx. apply list_elem_of_fmap. eauto.
Qed.

Lemma NoDup_List_filter {A} (p : A → bool) l : NoDup l → NoDup (List.filter p l).
Proof.
  induction 1 as [|x l Hx _ IH]; cbn; [constructor|]. destruct (p x); [|done].
  constructor; [|done]. intros Hin. apply Hx.
  by apply list_elem_of_In, filter_In, proj1, list_elem_of_In in Hin.
Qed.

Lemma WriteDraft_step company period new_id now compute :
  spends_within compute → stays billing_step (WriteDraft company period new_id now compute).
Proof.
  intros Hspend fs db. apply (transaction_inv _ _ _ (billing_step db)); [reflexivity|reflexivity|].
  intros fs1 a fs2 db' (n & db1 & row & cs & lines & s & c & t & Hins & _ & Hrow & Hkey & _ & Hst &
    Hcs & Hcompute & Htot & Hcheck & ->)%write_draft_body_ok.
  apply insert_invoice_step in Hins. etrans; [exact Hins|]. clear Hins. intros Hok.
  assert (Hid : has_id (CompanyID company) (inv_id row) row = true) by by apply has_id_spec.
  edestruct (recomputed_step company (inv_id row) lines s c t now db1 row); try done.
  intros k Hk Hcomp. etrans; [by apply Hspend|]. apply (scan_avail _ _ _ _ _ Hcs).
  - intros c' Hc' E. by eapply window_unique.
  - eapply NoDup_List_filter, NoDup_map_1, Hok.
Qed.

(** The totals of charges: nothing credited, a subtotal that is not
    negative. *)
Lemma Totals_charges ls s c t :
  Forall (λ l, Line_Kind l ≠ KindCredit) ls → Totals ls = Ok (s, c, t) →
  c = 0 ∧ 0 ≤ s ≤ max_int64 ∧ t = s.
Proof.
  intros Hls. unfold Totals.
  assert (Hf : ∀ s0, in_int64 s0 → ∃ s1, foldl totals_step (s0, 0) ls = (s1, 0) ∧ in_int64 s1).
  { induction Hls as [|l ls Hl _ IH]; intros s0 Hs0; cbn; [eauto|].
    rewrite bool_decide_eq_false_2 by done. apply IH, wrap64_range. }
  destruct (Hf 0) as (s1 & -> & Hs1); [by unfold_int64|].
  unfold sub64. rewrite Z.sub_0_r, wrap64_id by done.
  destruct (s1 <? 0) eqn:E; bool_prop; intros [= <- <- <-]. unfold_int64. lia.
Qed.

Lemma Price_kinds usage table :
  Forall (λ l, Line_Kind l ≠ KindCredit ∧ Line_CreditID l = None) (Price usage table).
Proof.
  unfold Price. constructor; [done|]. rewrite !Forall_app.
  split_and!; match goal with |- context[if ?b then _ else _] => destruct b end; by repeat constructor.
Qed.

Lemma spend_of_Price id usage table : spend_of id (Price usage table) = 0.
Proof.
  induction (Price_kinds usage table) as [|l ls [_ E] _ IH]; cbn; [done|]. by rewrite E, IH.
Qed.

Section Closing.
Context `{UuidLib}.

Lemma compute_lines_within usage table : spends_within (compute_lines (Price usage table)).
Proof.
  intros credits lines id. unfold compute_lines. intros ([[s c] t] & Ht & E)%bind_ok.
  assert (lines = Price usage table ++ ApplyCredits s credits) as -> by congruence. clear E.
  apply Totals_charges in Ht as (_ & Hs & _); [|eapply Forall_impl; [apply Price_kinds|naive_solver]].
  rewrite spend_of_app, spend_of_Price, Z.add_0_l. unfold ApplyCredits, sortCredits.
  rewrite <-(avail_of_perm _ _ _ (sort_stable_perm credit_less credits)).
  by apply spend_of_loop.
Qed.

Lemma closeCompany_step company period usage id now :
  stays billing_step (closeCompany company period usage id now).
Proof.
  unfold closeCompany. apply stays_bind; [apply _| |].
  - apply stays_wrapM, stays_lift. apply _.
  - intros table. apply WriteDraft_step, compute_lines_within.
Qed.

Lemma close_loop_step period usage ids now companies r :
  stays billing_step (close_loop period usage ids now companies r).
Proof.
  revert r. induction companies as [|company companies IH]; intros r fs db.
  { unfold state_after. cbn. reflexivity. }
  unfold state_after in *. cbn [close_loop].
  pose proof (closeCompany_step company period (default zero_usage (usage !! CompanyID company))
    (ids (CompanyID company)) now fs db) as Hstep. unfold state_after in Hstep.
  destruct (closeCompany _ _ _ _ _ _ _) as [[out fs'] db']. cbn in Hstep.
  etrans; [exact Hstep|]. apply IH.
Qed.

Lemma Close_step period usage ids now : stays billing_step (Close period usage ids now).
Proof.
  unfold Close. destruct (negb _); [apply stays_throw; apply _|].
  apply stays_bind; [apply _|apply stays_wrapM, stays_lift; apply _|]. intros u.
  apply stays_bind; [apply _|apply stays_wrapM, stays_query; apply _|]. intros cs.
  apply stays_bind; [apply _|apply close_loop_step|]. intros r. apply stays_ret. apply _.
Qed.

(** Issuing changes a draft's status, and nothing a line or a total says. *)
Lemma IssueInvoice_step company period now : stays billing_step (IssueInvoice company period now).
Proof.
  unfold IssueInvoice. apply stays_bind; [apply _| |intros []; [apply stays_ret|apply stays_throw]; apply _].
  apply stays_wrapM, stays_stmt; [apply _|]. intros db a db' [= _ <-] Hok.
  set (upd := λ i, if is_draft company period i then _ else i).
  assert (Hupd : ∀ i, inv_key (upd i) = inv_key i ∧ inv_month (upd i) = inv_month i ∧
    (inv_subtotal (upd i), inv_credits (upd i), inv_total (upd i)) =
      (inv_subtotal i, inv_credits i, inv_total i) ∧
    (inv_status (upd i) = "void"%string ↔ inv_status i = "void"%string)).
  { intros i. unfold upd. destruct (is_draft _ _ _) eqn:E; [|done].
    unfold is_draft in E. bool_prop. cbn. split_and!; [done..|]. by split; congruence. }
  assert (Hid : ∀ co iv i, has_id co iv (upd i) = has_id co iv i).
  { intros co iv i. apply eq_iff_eq_true. rewrite !has_id_spec. by destruct (Hupd i) as [-> _]. }
  assert (Hcount : ∀ l, counted (issue_update company period now db).2 None l = counted db None l).
  { intros l. unfold counted. cbn. fold upd. rewrite existsb_map. apply existsb_ext. intros i.
    rewrite Hid. f_equal. f_equal. apply bool_decide_ext, Hupd. }
  split_and!; [split|..]; cbn; fold upd.
  - rewrite map_map, (map_ext _ inv_key); [apply Hok|]. intros i. apply Hupd.
  - rewrite map_map, (map_ext _ inv_month); [apply Hok|]. intros i. apply Hupd.
  - apply Hok.
  - eapply Forall_impl; [apply (ok_lines db Hok)|]. intros l [Hc He]. split.
    + rewrite <-Hc. by apply line_check_credits.
    + rewrite existsb_map, <-He. apply existsb_ext. intros. apply Hid.
  - pose proof (ok_totals db Hok) as Ht. rewrite Forall_forall in Ht |- *.
    intros i' (i & -> & Hi)%list_elem_of_fmap. destruct (Hupd i) as ([= E1 E2] & _ & Etot & _).
    specialize (Ht i Hi).
    unfold lines_of in Ht |- *. rewrite E1, E2. cbn. cbn in Ht. rewrite Ht. congruence.
  - eapply Forall_impl; [apply (ok_credits db Hok)|]. cbn. intros c Hc. unfold remaining in *. cbn.
    erewrite sum_lines_ext; [exact Hc|]. apply Forall_forall. intros l _. cbn. f_equal. apply Hcount.
  - unfold keeps_final. apply Forall_forall. intros i Hi Hs. split; [|done].
    apply list_elem_of_fmap. exists i. split; [|done]. unfold upd.
    destruct (is_draft _ _ _) eqn:E; [|done]. unfold is_draft in E. bool_prop. done.
  - done.
Qed.
End Closing.

(** ** The properties *)
Section Properties.
Context `{UuidLib}.

(** Any history of the billing code: close runs and issues, for any periods,
    usages, fresh ids and clocks, with anything failing anywhere. *)
Inductive billing_run (db : DB) : DB → Prop :=
  | run_close period usage ids now fs :
      billing_run db (state_after (Close period usage ids now) fs db)
  | run_issue company period now fs :
      billing_run db (state_after (IssueInvoice company period now) fs db).

Lemma billing_run_step db db' : rtc billing_run db db' → billing_step db db'.
Proof.
  induction 1 as [|db1 db2 db3 Hstep _ IH]; [reflexivity|]. etrans; [|exact IH].
  destruct Hstep; [apply Close_step|apply IssueInvoice_step].
Qed.

(** C3: whatever closes, re-closes, issues and failures the billing tables
    go through, no credit is ever spent beyond its amount by the invoices
    that are not void, and every invoice's stored totals are the totals of
    its lines, never negative. *)
Theorem credits_never_overspent db db' :
  db_ok db → rtc billing_run db db' →
  Forall (λ c, 0 ≤ remaining db' None c) (db_credits db') ∧
  Forall (λ i, Totals (map line (lines_of db' i)) = Ok (inv_subtotal i, inv_credits i, inv_total i)
               ∧ 0 ≤ inv_total i) (db_invoices db').
Proof.
  intros Hok Hrun. destruct (billing_run_step db db' Hrun Hok) as (Hok' & _ & _).
  split; [apply Hok'|]. eapply Forall_impl; [apply (ok_totals db' Hok')|]. cbn. intros i Ht.
  split; [done|]. unfold Totals in Ht. destruct (foldl _ _ _) as [s c].
  destruct (_ <? 0) eqn:E; simplify_eq. bool_prop. lia.
Qed.

(** C26: an issued or void invoice is final.  No close, re-close or issue,
    succeeding or failing at any statement, changes its row or its lines. *)
Theorem final_invoice_untouched db db' i :
  db_ok db → rtc billing_run db db' → i ∈ db_invoices db → inv_status i ≠ "draft"%string →
  i ∈ db_invoices db' ∧ lines_of db' i = lines_of db i.
Proof.
  intros Hok Hrun Hi Hs. destruct (billing_run_step db db' Hrun Hok) as (_ & K & _).
  unfold keeps_final in K. rewrite Forall_forall in K. by apply K.
Qed.

(** A company that closes gets exactly its invoice: when [closeCompany]
    reports a created or recomputed draft, the period's invoice is a draft
    whose lines are the priced usage followed by the credits applied to it,
    whose total is what those lines add up to, under the plan's currency. *)
Theorem closeCompany_invoice company period usage id now fs db o fs' db' :
  closeCompany company period usage id now fs db = (Ok o, fs', db') → o ≠ DraftFinal →
  db_ok db →
  ∃ table row credits subtotal applied total,
    ParsePriceTable (Company_PriceTable company) = Ok table ∧
    row ∈ db_invoices db' ∧ inv_month row = (CompanyID company, period) ∧
    inv_status row = "draft"%string ∧ inv_currency row = Currency company ∧
    map line (lines_of db' row) = Price usage table ++ ApplyCredits subtotal credits ∧
    Totals (Price usage table) = Ok (subtotal, 0, subtotal) ∧
    Totals (map line (lines_of db' row)) = Ok (inv_subtotal row, applied, total) ∧
    inv_total row = total ∧ inv_credits row = applied ∧ 0 ≤ total.
Proof.
  intros Hc Ho Hok. unfold closeCompany in Hc. inv_M.
  unfold WriteDraft in *.
  match goal with H : transaction _ _ _ _ _ = _ |- _ =>
    apply transaction_cases in H as [[_ ?]|[(fs1 & _ & Hr)|(fs1 & a & Hres & -> & Ha)]] end; [done| |].
  { specialize (Hr o eq_refl). exfalso. unfold result_of in Hr.
    destruct (write_draft_body _ _ _ _ _ _ _) as [[r2 fs2] s2] eqn:E. cbn in Hr. subst r2.
    unfold write_draft_body in E. inv_M.
    match goal with H : (let '_ := ?p in _) _ _ = _ |- _ => destruct p as [id' st] end.
    destruct (negb _); inv_M; [by simplify_eq|].
    match goal with H : (let '_ := ?p in _) _ _ = _ |- _ => destruct p as [[s c] t] end. inv_M. done. }
  clear Ha. unfold result_of, state_after in *.
  destruct (write_draft_body _ _ _ _ _ _ _) as [[r2 fs2] s2] eqn:E. cbn in Hres |- *. subst r2.
  apply write_draft_body_ok in E as (n & db1 & row & cs & lines & s & c & t & Hins & _ & Hrow & Hkey &
    Hper & Hst & Hcs & Hcomp & Htot & Hcheck & ->).
  unfold compute_lines in Hcomp. apply bind_ok in Hcomp as ([[sub c0] t0] & Hsub & El).
  destruct (Totals_charges _ _ _ _ ltac:(eapply Forall_impl; [apply Price_kinds|naive_solver]) Hsub)
    as (-> & Hs & ->).
  assert (Hid : has_id (CompanyID company) (inv_id row) row = true) by by apply has_id_spec.
  eexists _, (retotal company (inv_id row) s c t now row), cs, sub, c, t.
  assert (lines = Price usage x ++ ApplyCredits sub cs) as -> by congruence.
  assert (Hlines : lines_of (recomputed company (inv_id row) (Price usage x ++ ApplyCredits sub cs)
    s c t now db1) (retotal company (inv_id row) s c t now row) =
    number (CompanyID company) (inv_id row) 0 (Price usage x ++ ApplyCredits sub cs)).
  { rewrite lines_of_recomputed, has_id_retotal. by rewrite Hid. }
  rewrite Hlines, map_line_number. unfold retotal. rewrite Hid. cbn.
  split_and!; try done.
  - cbn. apply list_elem_of_fmap. exists row. unfold retotal. by rewrite Hid.
  - unfold inv_month. cbn. unfold inv_key in Hkey. congruence.
  - unfold Totals in Htot. destruct (foldl _ _ _). destruct (_ <? 0) eqn:Eneg; simplify_eq. bool_prop. lia.
Qed.

(** The report of [close_loop], company by company. *)
Definition report_ids (r : Report) : list UUID :=
  Created r ++ Recomputed r ++ Final r ++ map fst (Failures r).

Lemma close_loop_report period usage ids now companies r fs db res fs' db' :
  close_loop period usage ids now companies r fs db = (res, fs', db') →
  ∃ r', res = Ok r' ∧ Period r' = Period r ∧ Unplanned r' = Unplanned r ∧
    report_ids r' ≡ₚ report_ids r ++ map CompanyID companies.
Proof.
  revert r fs db. induction companies as [|company companies IH]; intros r fs db; cbn [close_loop].
  { intros [= <- <- <-]. exists r. cbn. by rewrite app_nil_r. }
  destruct (closeCompany _ _ _ _ _ _ _) as [[out fs1] db1]. intros Hrest.
  apply IH in Hrest as (r' & -> & Hp & Hu & Hperm). exists r'. split; [done|].
  assert (Heff : ∀ r1, Period r1 = Period r → Unplanned r1 = Unplanned r →
    report_ids r1 ≡ₚ CompanyID company :: report_ids r → Period r' = Period r1 →
    Unplanned r' = Unplanned r1 → report_ids r' ≡ₚ report_ids r1 ++ map CompanyID companies →
    Period r' = Period r ∧ Unplanned r' = Unplanned r ∧
    report_ids r' ≡ₚ report_ids r ++ map CompanyID (company :: companies)).
  { intros r1 E1 E2 Ep E3 E4 ->. split_and!; [congruence..|]. rewrite Ep. cbn.
    by rewrite Permutation_middle. }
  destruct out as [[]|e]; (eapply Heff; [| | |exact Hp|exact Hu|exact Hperm]; [done|done|]);
    unfold report_ids; cbn; rewrite ?map_app; cbn; solve_Permutation.
Qed.

(** A close run accounts for everyone.  For the start of a month, with
    usage and the company list read, [Close] never fails as a whole: each
    planned company is reported exactly once - created, recomputed, final or
    failed, one company's failure not stopping the others - and the
    unplanned ones are exactly those with usage and no plan. *)
Theorem Close_accounts_for_everyone period usage ids now fs db :
  PeriodStart period = period → fs = [] ∨ (∃ fs', fs = Done :: fs') →
  ∃ r fs' db', Close period (Ok usage) ids now fs db = (Ok r, fs', db') ∧
    Period r = period ∧ report_ids r ≡ₚ map CompanyID (Companies db) ∧
    ∀ id, id ∈ Unplanned r ↔ is_Some (usage !! id) ∧ id ∉ map CompanyID (Companies db).
Proof.
  intros Hp Hfs. unfold Close. rewrite bool_decide_eq_true_2 by done. cbn [negb].
  assert (Hq : ∃ fs1, (wrapM "billing: list companies" (query Companies) : M DB _) fs db =
    (Ok (Companies db), fs1, db)) by (destruct Hfs as [->|[fs' ->]]; by eexists).
  destruct Hq as [fs1 Hq].
  assert (Hl : (wrapM "billing: read usage" (lift (Ok usage)) : M DB _) fs db =
    (Ok usage, fs, db)) by done.
  unfold mbind, M_bind. rewrite Hl, Hq.
  destruct (close_loop period usage ids now (Companies db) (mkReport period [] [] [] [] []) fs1 db)
    as [[res fs2] db2] eqn:E.
  apply close_loop_report in E as (r & -> & Ep & Eu & Hperm).
  eexists _, fs2, db2. split; [reflexivity|]. cbn. split_and!; [done|exact Hperm|].
  intros id. rewrite Eu. cbn. unfold unplanned. rewrite list_elem_of_filter.
  rewrite (list_elem_of_fmap fst (map_to_list usage) id). split.
  - intros [Hn ([k u] & -> & Hk)]. cbn in *. apply elem_of_map_to_list in Hk. eauto.
  - intros [[u Hu] Hn]. split; [done|]. exists (id, u). split; [done|].
    by apply elem_of_map_to_list.
Qed.
End Properties.

(** ** A worked example: two plans, a credit, a month of usage *)
Definition example_db : DB := mkDB
  [mkPlanRow "growth" "USD" example_table_json; mkPlanRow "bad" "USD" (Some (JArray []))]
  [mkCompanyRow 8%N (Some "bad"%string); mkCompanyRow 7%N (Some "growth"%string); mkCompanyRow 9%N None]
  [mkCreditRow 7%N 1%N 400 "Launch" 0 None] [] [].
Definition example_month : time := date_month 2026 9.
Definition example_usages : gmap UUID Usage := <[7%N := example_usage]> (<[9%N := example_usage]> ∅).
Definition example_close : M DB Report :=
  @Close BinUuid.lib example_month (Ok example_usages) (λ _, 33%N) 0.

Example example_report :
  result_of example_close [] example_db =
    Ok (mkReport example_month [7%N] [] [] [9%N]
      [(8%N, Wrap "plan bad" (Wrap "billing: price table" (Plain "json")))]) ∧
  map inv_total (db_invoices (state_after example_close [] example_db)) = [5565].
Proof. vm_compute. done. Qed.

Lemma example_db_ok : db_ok example_db.
Proof.
  split; cbn; try apply NoDup_singleton; by repeat constructor.
Qed.

Definition example_closed : DB := state_after example_close [] example_db.
Definition example_issued : DB := state_after (IssueInvoice 7%N example_month 5) [] example_closed.
Definition example_final : InvoiceRow :=
  mkInvoiceRow 7%N 33%N example_month "issued" "growth" "USD" 5965 400 5565 0 (Some 5).

Lemma example_history : rtc (@billing_run BinUuid.lib) example_db example_issued.
Proof.
  eapply rtc_l; [apply (@run_close BinUuid.lib _ example_month (Ok example_usages) (λ _, 33%N) 0 [])|].
  eapply rtc_l; [apply (@run_issue BinUuid.lib _ 7%N example_month 5 [])|]. constructor.
Qed.

Lemma credits_never_overspent_witness :
  Forall (λ c, 0 ≤ remaining example_issued None c) (db_credits example_issued).
Proof.
  apply (@credits_never_overspent BinUuid.lib example_db example_issued example_db_ok example_history).
Defined.

(** A later close with the month's invoice issued leaves it alone. *)
Lemma final_invoice_untouched_witness :
  example_final ∈ db_invoices (state_after example_close [Done; Done; AckLost (Plain "x")] example_issued).
Proof.
  apply (@final_invoice_untouched BinUuid.lib example_issued _ example_final).
  - apply (@billing_run_step BinUuid.lib example_db example_issued example_history example_db_ok).
  - apply rtc_once, (@run_close BinUuid.lib _ example_month (Ok example_usages) (λ _, 33%N) 0).
  - vm_compute. left.
  - vm_compute. discriminate.
Defined.

Lemma closeCompany_invoice_witness :
  ∃ row, row ∈ db_invoices example_closed ∧ inv_month row = (7%N, example_month) ∧ inv_currency row = "USD"%string.
Proof.
  edestruct (@closeCompany_invoice BinUuid.lib (mkCompany 7%N "growth" "USD" example_table_json)
    example_month example_usage 33%N 0 [] example_db DraftCreated [] example_closed)
    as (_ & row & _ & _ & _ & _ & _ & Hrow & Hm & _ & Hc & _);
    [vm_compute; reflexivity|discriminate|exact example_db_ok|].
  exists row. done.
Defined.

Lemma Close_accounts_for_everyone_witness :
  ∃ r fs' db', @Close BinUuid.lib example_month (Ok example_usages) (λ _, 33%N) 0 [] example_db = (Ok r, fs', db')
    ∧ report_ids r ≡ₚ [7%N; 8%N].
Proof.
  edestruct (@Close_accounts_for_everyone BinUuid.lib example_month example_usages (λ _, 33%N) 0 [] example_db)
    as (r & fs' & db' & E & _ & Hp & _); [vm_compute; reflexivity|by left|].
  exists r, fs', db'. split; [exact E|exact Hp].
Defined.

(** ** A close run, company by company *)
Section Run.
Context `{UuidLib}.

(** The invoices and lines of a company; a close of another company leaves
    them as they are. *)
Definition own_rows (company : UUID) (db : DB) : list InvoiceRow * list LineRow :=
  (List.filter (λ i, bool_decide (inv_company i = company)) (db_invoices db),
   List.filter (λ l, bool_decide (line_company l = company)) (db_lines db)).

Lemma insert_invoice_other company id period now db a db' c :
  insert_invoice company id period now db = Ok (a, db') → CompanyID company ≠ c → own_rows c db' = own_rows c db.
Proof.
  unfold insert_invoice. intros Hi Hc. repeat case_match; simplify_eq; try done. unfold own_rows. cbn. f_equal.
  rewrite List.filter_app. cbn. by rewrite bool_decide_eq_false_2, app_nil_r.
Qed.
Lemma recomputed_other company id lines s c t now db c0 :
  CompanyID company ≠ c0 → own_rows c0 (recomputed company id lines s c t now db) = own_rows c0 db.
Proof.
  intros Hc. unfold own_rows. cbn. f_equal.
  - induction (db_invoices db) as [|i il IH]; [done|]. cbn. destruct (retotal_same company id s c t now i) as ([= -> _] & _).
    rewrite IH. case_bool_decide as E; [|done]. f_equal. unfold retotal.
    destruct (has_id _ _ i) eqn:Ei; [|done]. apply has_id_spec in Ei. injection Ei as Ei _. congruence.
  - rewrite List.filter_app, filter_filter_negb.
    + rewrite (filter_all_false _ (number _ _ _ _)), app_nil_r; [done|]. eapply Forall_impl; [apply number_key|].
      intros l [El _]. by rewrite El, bool_decide_eq_false_2.
    + intros l Hl. bool_prop. apply not_true_is_false. intros [E _]%of_invoice_spec. congruence.
Qed.
Lemma WriteDraft_other company period id now compute fs db c :
  CompanyID company ≠ c → own_rows c (state_after (WriteDraft company period id now compute) fs db) = own_rows c db.
Proof.
  intros Hc. apply (transaction_inv _ _ _ (λ db', own_rows c db' = own_rows c db)); [done|done|].
  intros fs1 a fs2 db' (n & db1 & row & cs & lines & s & cr & t & Hins & _ & _ & _ & _ & _ & _ & _ & _ & _ & ->)%write_draft_body_ok.
  rewrite recomputed_other by done. by apply (insert_invoice_other company id period now db n).
Qed.
Lemma closeCompany_other company period usage id now fs db r fs' db' c :
  closeCompany company period usage id now fs db = (r, fs', db') → CompanyID company ≠ c → own_rows c db' = own_rows c db.
Proof.
  unfold closeCompany, mbind, M_bind, wrapM, lift. intros Hrun Hc. destruct (ParsePriceTable _); cbn in Hrun; [|by injection Hrun as _ _ <-].
  pose proof (WriteDraft_other company period id now (compute_lines (Price usage a)) fs db c Hc) as Ho.
  unfold state_after in Ho. by rewrite Hrun in Ho.
Qed.

(** The company has its invoice of the month: a final one, or a draft with the
    priced usage and the credits applied to it. *)
Definition invoiced (company : Company) (period : time) (usage : Usage) (db : DB) : Prop :=
  ∃ row, row ∈ db_invoices db ∧ inv_month row = (CompanyID company, period) ∧
    Totals (map line (lines_of db row)) = Ok (inv_subtotal row, inv_credits row, inv_total row) ∧
    (inv_status row = "draft"%string →
     inv_currency row = Currency company ∧
     ∃ table credits subtotal, ParsePriceTable (Company_PriceTable company) = Ok table ∧
       Totals (Price usage table) = Ok (subtotal, 0, subtotal) ∧
       map line (lines_of db row) = Price usage table ++ ApplyCredits subtotal credits).

Lemma lines_of_own db row : lines_of db row = List.filter (of_invoice (inv_company row) (inv_id row)) (own_rows (inv_company row) db).2.
Proof.
  unfold lines_of, own_rows. cbn. induction (db_lines db) as [|l ls IH]; [done|]. cbn.
  case_bool_decide as E; cbn; rewrite IH; [done|]. destruct (of_invoice _ _ l) eqn:El; [|done]. by apply of_invoice_spec in El as [? _].
Qed.
Lemma invoiced_own company period usage db db' :
  own_rows (CompanyID company) db' = own_rows (CompanyID company) db → invoiced company period usage db → invoiced company period usage db'.
Proof.
  intros Ho (row & Hrow & Hm & Ht & Hd). assert (Ec : inv_company row = CompanyID company) by (unfold inv_month in Hm; congruence).
  assert (El : lines_of db' row = lines_of db row) by (rewrite !lines_of_own, Ec; congruence).
  exists row. rewrite El. split_and!; [|done..].
  assert (Hin : row ∈ (own_rows (CompanyID company) db').1).
  { rewrite Ho. unfold own_rows. cbn. apply list_elem_of_In, filter_In. split; [by apply list_elem_of_In|by apply bool_decide_eq_true]. }
  apply list_elem_of_In, filter_In in Hin as [Hin _]. by apply list_elem_of_In.
Qed.

Lemma insert_invoice_draft company id period now db a db' i :
  insert_invoice company id period now db = Ok (a, db') → find (is_invoice (CompanyID company) period) (db_invoices db') = Some i →
  inv_status i ≠ "draft"%string → i ∈ db_invoices db.
Proof.
  unfold insert_invoice. destruct (existsb (is_invoice _ _) _) eqn:Em; [intros [= <- <-]|].
  - intros Hf _. apply find_some in Hf as [Hf _]. by apply list_elem_of_In.
  - repeat (case_match; [done|]). intros [= <- <-]. cbn. intros Hf Hs. apply find_some in Hf as [Hf _]. apply in_app_iff in Hf as [Hf|[<-|[]]]; [|done].
    by apply list_elem_of_In.
Qed.
Lemma closeCompany_final company period usage id now fs db fs' db' :
  closeCompany company period usage id now fs db = (Ok DraftFinal, fs', db') →
  db' = db ∧ ∃ row, row ∈ db_invoices db ∧ inv_month row = (CompanyID company, period) ∧ inv_status row ≠ "draft"%string.
Proof.
  intros Hc. unfold closeCompany in Hc. inv_M. unfold WriteDraft in *.
  match goal with H : transaction _ _ _ _ _ = _ |- _ =>
    apply transaction_cases in H as [[_ ?]|[(fs1 & -> & Hr)|(fs1 & a & Hres & _ & Ha)]] end; [done| |].
  2: { specialize (Ha _ eq_refl) as <-. unfold result_of in Hres. destruct (write_draft_body _ _ _ _ _ _ _) as [[r2 fs2] s2] eqn:E. cbn in Hres.
       subst r2. apply write_draft_body_ok in E as (n & ? & ? & ? & ? & ? & ? & ? & _ & E & _). by destruct (n =? 1). }
  specialize (Hr _ eq_refl). split; [done|]. unfold result_of in Hr. destruct (write_draft_body _ _ _ _ _ _ _) as [[r2 fs2] s2] eqn:E. cbn in Hr. subst r2.
  unfold write_draft_body in E. inv_M.
  match goal with H : select_invoice _ _ _ = Ok (?p, _) |- _ => destruct p as [id' st]; rename H into Hsel end.
  destruct (negb _) eqn:Ed; [|inv_M; match goal with H : (let '_ := ?p in _) _ _ = _ |- _ => destruct p as [[s c] t] end; inv_M; done].
  bool_prop. unfold select_invoice in Hsel. destruct (find _ _) as [i|] eqn:Ef; [|done]. injection Hsel as <- <- <-.
  match goal with H : insert_invoice _ _ _ _ _ = _ |- _ => pose proof (insert_invoice_draft _ _ _ _ _ _ _ i H Ef) as Hi end.
  apply find_some in Ef as [_ Em]. apply is_invoice_spec in Em. exists i. split_and!; [by apply Hi|done|done].
Qed.
Lemma closeCompany_invoiced company period usage id now fs db o fs' db' :
  db_ok db → closeCompany company period usage id now fs db = (Ok o, fs', db') → invoiced company period usage db'.
Proof.
  intros Hok Hc. pose proof (closeCompany_step company period usage id now fs db) as Hs. unfold state_after in Hs. rewrite Hc in Hs.
  destruct (Hs Hok) as [Hok' _]. cbn in Hok'. pose proof (ok_totals db' Hok') as Ht. rewrite Forall_forall in Ht.
  assert (o = DraftFinal ∨ o ≠ DraftFinal) as [->|Ho] by (destruct o; auto).
  - apply closeCompany_final in Hc as (-> & row & Hrow & Hm & Hst). exists row. split_and!; [done|done|by apply Ht|done].
  - destruct (closeCompany_invoice company period usage id now fs db o fs' db' Hc Ho Hok)
      as (table & row & credits & sub & applied & total & Hp & Hrow & Hm & _ & Hcur & Hl & Hsub & _).
    exists row. split_and!; [done|done|by apply Ht|]. intros _. split; [done|]. by exists table, credits, sub.
Qed.

(** What [close_loop] did when nobody failed. *)
Lemma close_loop_invoiced period usage ids now companies r fs db r' fs' db' :
  close_loop period usage ids now companies r fs db = (Ok r', fs', db') → Failures r' = [] → db_ok db → NoDup (map CompanyID companies) →
  Failures r = [] ∧ ∀ company, company ∈ companies → invoiced company period (default zero_usage (usage !! CompanyID company)) db'.
Proof.
  revert r fs db. induction companies as [|company companies IH]; intros r fs db; cbn [close_loop].
  { intros [= <- _ _] Hf _ _. split; [done|]. by intros c ?%elem_of_nil. }
  destruct (closeCompany _ _ _ _ _ fs db) as [[out fs1] db1] eqn:E. intros Hrest Hf Hok Hnd. cbn in Hnd. apply NoDup_cons in Hnd as [Hn Hnd].
  pose proof (closeCompany_step company period (default zero_usage (usage !! CompanyID company)) (ids (CompanyID company)) now fs db) as Hs.
  unfold state_after in Hs. rewrite E in Hs. destruct (Hs Hok) as [Hok1 _].
  destruct (IH _ _ _ Hrest Hf Hok1 Hnd) as [Hf1 Hrest']. destruct out as [o|e].
  2: { cbn in Hf1. by destruct (Failures r). }
  split; [by destruct o|]. intros c [->|Hc]%elem_of_cons; [|by apply Hrest'].
  apply (closeCompany_invoiced company) in E; [|done]. eapply invoiced_own; [|exact E].
  (* the rest of the run is about other companies *)
  clear IH Hf Hs Hok Hok1 E Hrest' Hf1 Hnd. revert Hrest Hn. generalize (CompanyID company) as c. intros c. clear company.
  match goal with |- close_loop _ _ _ _ _ ?r0 _ _ = _ → _ => generalize r0 end. clear r. revert fs1 db1.
  induction companies as [|company companies IH]; intros fs1 db1 r; cbn [close_loop]; [by intros [= _ _ <-]|].
  destruct (closeCompany _ _ _ _ _ fs1 db1) as [[out fs2] db2] eqn:E. cbn. intros Hrest [Hne Hn]%not_elem_of_cons.
  rewrite (IH _ _ _ Hrest Hn). eapply closeCompany_other; [exact E|done].
Qed.
End Run.
