(* ===== verification/Events.v ===== *)
(** * The event catalog and envelope (internal/events)

    Every payload type of the catalog with its JSON schema, the envelope, and
    [New] and [Envelope.Decode] over any payload.  [New]'s event id bytes and
    time are arguments. *)
From S2P Require Import Prelude Str GoTime Json Rfc3339 Codec.

(** ** Event types *)
Definition EventType := string.
Definition SessionEventsTopic : string := "session-events".
Definition EventTypeJobPosted : EventType := "job.posted".
Definition EventTypeJobClosed : EventType := "job.closed".
Definition EventTypeCandidateApplied : EventType := "candidate.applied".
Definition EventTypeCandidateStageChanged : EventType := "candidate.stage_changed".
Definition EventTypeCandidateRejected : EventType := "candidate.rejected".
Definition EventTypeCandidateHired : EventType := "candidate.hired".
Definition EventTypeInterviewScheduled : EventType := "interview.scheduled".
Definition EventTypeInterviewCompleted : EventType := "interview.completed".
Definition EventTypeSessionStarted : EventType := "session.started".
Definition EventTypeAIResponseCompleted : EventType := "ai.response.completed".
Definition EventTypePromptSubmitted : EventType := "prompt.submitted".
Definition EventTypeExecutionRequested : EventType := "execution.requested".
Definition EventTypeExecutionCompleted : EventType := "execution.completed".
Definition EventTypeCodeDiff : EventType := "code.diff".
Definition EventTypeSessionSubmitted : EventType := "session.submitted".
Definition EventTypeSessionExpired : EventType := "session.expired".
Definition EventTypeScoreComputed : EventType := "score.computed".
Definition ExecutionStatusSucceeded : string := "succeeded".
Definition ExecutionStatusFailed : string := "failed".
Definition ExecutionStatusTimedOut : string := "timed_out".
Definition ExecutionStatusOOMKilled : string := "oom_killed".
Definition ExecutionStatusError : string := "error".
Definition DiffOriginManual : string := "manual".
Definition DiffOriginAIApplied : string := "ai_applied".
Definition AIResponseStatusCompleted : string := "completed".
Definition AIResponseStatusTruncated : string := "truncated".
Definition AIResponseStatusRefused : string := "refused".
Definition AIResponseStatusError : string := "error".
Definition AIResponseStatusCancelled : string := "cancelled".

(** ** Payloads

    The [Payload] interface, with the type's struct tags. *)
Class Payload (P : Type) := {
  event_type : EventType;
  SchemaVersion : Z;
  schema : list spec;
  to_values : P → list value;
  of_values : list value → option P;
  of_to_values : ∀ p, of_values (to_values p) = Some p;
  schema_nodup : NoDup (map spec_name schema);
}.
Arguments event_type P {_}.
Arguments SchemaVersion P {_}.
Arguments schema P {_}.

Ltac solve_payload := first [intros []; reflexivity|apply (bool_decide_eq_true_1 _); vm_compute; reflexivity].

Record SessionStarted := mkSessionStarted {
  SessionStarted_SessionID : string;
  SessionStarted_InterviewID : string;
  SessionStarted_InviteID : string;
  SessionStarted_Scope : string;
  SessionStarted_ExpiresAt : time;
}.
#[export] Instance SessionStarted_payload : Payload SessionStarted.
Proof.
  refine {| event_type := EventTypeSessionStarted; SchemaVersion := 1;
    schema := [
    mkSpec "session_id" KString false; mkSpec "interview_id" KString false;
    mkSpec "invite_id" KString false; mkSpec "scope" KString false;
    mkSpec "expires_at" KTime false];
    to_values := λ p, [
    VString (SessionStarted_SessionID p); VString (SessionStarted_InterviewID p);
    VString (SessionStarted_InviteID p); VString (SessionStarted_Scope p);
    VTime (SessionStarted_ExpiresAt p)];
    of_values := λ vs, match vs with
    | [VString x0; VString x1; VString x2; VString x3; VTime x4] => Some (mkSessionStarted x0 x1 x2 x3 x4)
    | _ => None end |}; solve_payload.
Defined.

Record PromptSubmitted := mkPromptSubmitted {
  PromptSubmitted_SessionID : string;
  PromptSubmitted_InterviewID : string;
  PromptSubmitted_PromptID : string;
  PromptSubmitted_Prompt : string;
  PromptSubmitted_HistoryTurns : Z;
  PromptSubmitted_CompletionSequenceNumber : Z;
}.
#[export] Instance PromptSubmitted_payload : Payload PromptSubmitted.
Proof.
  refine {| event_type := EventTypePromptSubmitted; SchemaVersion := 1;
    schema := [
    mkSpec "session_id" KString false; mkSpec "interview_id" KString false;
    mkSpec "prompt_id" KString false; mkSpec "prompt" KString false;
    mkSpec "history_turns" KInt false; mkSpec "completion_sequence_number" KInt false];
    to_values := λ p, [
    VString (PromptSubmitted_SessionID p); VString (PromptSubmitted_InterviewID p);
    VString (PromptSubmitted_PromptID p); VString (PromptSubmitted_Prompt p);
    VInt (PromptSubmitted_HistoryTurns p); VInt (PromptSubmitted_CompletionSequenceNumber p)];
    of_values := λ vs, match vs with
    | [VString x0; VString x1; VString x2; VString x3; VInt x4; VInt x5] => Some (mkPromptSubmitted x0 x1 x2 x3 x4 x5)
    | _ => None end |}; solve_payload.
Defined.

Record ExecutionRequested := mkExecutionRequested {
  ExecutionRequested_SessionID : string;
  ExecutionRequested_InterviewID : string;
  ExecutionRequested_ExecutionID : string;
  ExecutionRequested_Language : string;
  ExecutionRequested_Entrypoint : string;
  ExecutionRequested_SnapshotKey : string;
  ExecutionRequested_FileCount : Z;
  ExecutionRequested_SnapshotBytes : Z;
}.
#[export] Instance ExecutionRequested_payload : Payload ExecutionRequested.
Proof.
  refine {| event_type := EventTypeExecutionRequested; SchemaVersion := 1;
    schema := [
    mkSpec "session_id" KString false; mkSpec "interview_id" KString false;
    mkSpec "execution_id" KString false; mkSpec "language" KString false;
    mkSpec "entrypoint" KString false; mkSpec "snapshot_key" KString false;
    mkSpec "file_count" KInt false; mkSpec "snapshot_bytes" KInt false];
    to_values := λ p, [
    VString (ExecutionRequested_SessionID p); VString (ExecutionRequested_InterviewID p);
    VString (ExecutionRequested_ExecutionID p); VString (ExecutionRequested_Language p);
    VString (ExecutionRequested_Entrypoint p); VString (ExecutionRequested_SnapshotKey p);
    VInt (ExecutionRequested_FileCount p); VInt (ExecutionRequested_SnapshotBytes p)];
    of_values := λ vs, match vs with
    | [VString x0; VString x1; VString x2; VString x3; VString x4; VString x5; VInt x6; VInt x7] => Some (mkExecutionRequested x0 x1 x2 x3 x4 x5 x6 x7)
    | _ => None end |}; solve_payload.
Defined.

Record ExecutionCompleted := mkExecutionCompleted {
  ExecutionCompleted_SessionID : string;
  ExecutionCompleted_InterviewID : string;
  ExecutionCompleted_ExecutionID : string;
  ExecutionCompleted_Status : string;
  ExecutionCompleted_ExitCode : Z;
  ExecutionCompleted_DurationMS : Z;
  ExecutionCompleted_Stdout : string;
  ExecutionCompleted_Stderr : string;
  ExecutionCompleted_StdoutTruncated : bool;
  ExecutionCompleted_StderrTruncated : bool;
  ExecutionCompleted_ErrorCode : string;
}.
#[export] Instance ExecutionCompleted_payload : Payload ExecutionCompleted.
Proof.
  refine {| event_type := EventTypeExecutionCompleted; SchemaVersion := 1;
    schema := [
    mkSpec "session_id" KString false; mkSpec "interview_id" KString false;
    mkSpec "execution_id" KString false; mkSpec "status" KString false;
    mkSpec "exit_code" KInt false; mkSpec "duration_ms" KInt false;
    mkSpec "stdout" KString false; mkSpec "stderr" KString false;
    mkSpec "stdout_truncated" KBool false; mkSpec "stderr_truncated" KBool false;
    mkSpec "error_code" KString true];
    to_values := λ p, [
    VString (ExecutionCompleted_SessionID p); VString (ExecutionCompleted_InterviewID p);
    VString (ExecutionCompleted_ExecutionID p); VString (ExecutionCompleted_Status p);
    VInt (ExecutionCompleted_ExitCode p); VInt (ExecutionCompleted_DurationMS p);
    VString (ExecutionCompleted_Stdout p); VString (ExecutionCompleted_Stderr p);
    VBool (ExecutionCompleted_StdoutTruncated p);
    VBool (ExecutionCompleted_StderrTruncated p); VString (ExecutionCompleted_ErrorCode p)];
    of_values := λ vs, match vs with
    | [VString x0; VString x1; VString x2; VString x3; VInt x4; VInt x5; VString x6;
    VString x7; VBool x8; VBool x9; VString x10] => Some (mkExecutionCompleted x0 x1 x2 x3 x4 x5 x6 x7 x8 x9 x10)
    | _ => None end |}; solve_payload.
Defined.

Record CodeDiff := mkCodeDiff {
  CodeDiff_SessionID : string;
  CodeDiff_InterviewID : string;
  CodeDiff_ClientSequence : Z;
  CodeDiff_Origin : string;
  CodeDiff_PromptID : string;
  CodeDiff_Path : string;
  CodeDiff_Patch : string;
  CodeDiff_LinesAdded : Z;
  CodeDiff_LinesRemoved : Z;
}.
#[export] Instance CodeDiff_payload : Payload CodeDiff.
Proof.
  refine {| event_type := EventTypeCodeDiff; SchemaVersion := 1;
    schema := [
    mkSpec "session_id" KString false; mkSpec "interview_id" KString false;
    mkSpec "client_sequence" KInt false; mkSpec "origin" KString false;
    mkSpec "prompt_id" KString true; mkSpec "path" KString false;
    mkSpec "patch" KString false; mkSpec "lines_added" KInt false;
    mkSpec "lines_removed" KInt false];
    to_values := λ p, [
    VString (CodeDiff_SessionID p); VString (CodeDiff_InterviewID p);
    VInt (CodeDiff_ClientSequence p); VString (CodeDiff_Origin p);
    VString (CodeDiff_PromptID p); VString (CodeDiff_Path p); VString (CodeDiff_Patch p);
    VInt (CodeDiff_LinesAdded p); VInt (CodeDiff_LinesRemoved p)];
    of_values := λ vs, match vs with
    | [VString x0; VString x1; VInt x2; VString x3; VString x4; VString x5; VString x6;
    VInt x7; VInt x8] => Some (mkCodeDiff x0 x1 x2 x3 x4 x5 x6 x7 x8)
    | _ => None end |}; solve_payload.
Defined.

Record SessionSubmitted := mkSessionSubmitted {
  SessionSubmitted_SessionID : string;
  SessionSubmitted_InterviewID : string;
}.
#[export] Instance SessionSubmitted_payload : Payload SessionSubmitted.
Proof.
  refine {| event_type := EventTypeSessionSubmitted; SchemaVersion := 1;
    schema := [
    mkSpec "session_id" KString false; mkSpec "interview_id" KString false];
    to_values := λ p, [
    VString (SessionSubmitted_SessionID p); VString (SessionSubmitted_InterviewID p)];
    of_values := λ vs, match vs with
    | [VString x0; VString x1] => Some (mkSessionSubmitted x0 x1)
    | _ => None end |}; solve_payload.
Defined.

Record SessionExpired := mkSessionExpired {
  SessionExpired_SessionID : string;
  SessionExpired_InterviewID : string;
}.
#[export] Instance SessionExpired_payload : Payload SessionExpired.
Proof.
  refine {| event_type := EventTypeSessionExpired; SchemaVersion := 1;
    schema := [
    mkSpec "session_id" KString false; mkSpec "interview_id" KString false];
    to_values := λ p, [
    VString (SessionExpired_SessionID p); VString (SessionExpired_InterviewID p)];
    of_values := λ vs, match vs with
    | [VString x0; VString x1] => Some (mkSessionExpired x0 x1)
    | _ => None end |}; solve_payload.
Defined.

Record ScoreComputed := mkScoreComputed {
  ScoreComputed_SessionID : string;
  ScoreComputed_InterviewID : string;
  ScoreComputed_Trigger : EventType;
  ScoreComputed_MetricsComplete : bool;
  ScoreComputed_Metrics : RawMessage;
  ScoreComputed_Recommendation : string;
  ScoreComputed_RecommendationErr : string;
}.
#[export] Instance ScoreComputed_payload : Payload ScoreComputed.
Proof.
  refine {| event_type := EventTypeScoreComputed; SchemaVersion := 1;
    schema := [
    mkSpec "session_id" KString false; mkSpec "interview_id" KString false;
    mkSpec "trigger" KString false; mkSpec "metrics_complete" KBool false;
    mkSpec "metrics" KRaw false; mkSpec "recommendation" KString true;
    mkSpec "recommendation_error" KString true];
    to_values := λ p, [
    VString (ScoreComputed_SessionID p); VString (ScoreComputed_InterviewID p);
    VString (ScoreComputed_Trigger p); VBool (ScoreComputed_MetricsComplete p);
    VRaw (ScoreComputed_Metrics p); VString (ScoreComputed_Recommendation p);
    VString (ScoreComputed_RecommendationErr p)];
    of_values := λ vs, match vs with
    | [VString x0; VString x1; VString x2; VBool x3; VRaw x4; VString x5; VString x6] => Some (mkScoreComputed x0 x1 x2 x3 x4 x5 x6)
    | _ => None end |}; solve_payload.
Defined.

Record AIResponseCompleted := mkAIResponseCompleted {
  AIResponseCompleted_SessionID : string;
  AIResponseCompleted_InterviewID : string;
  AIResponseCompleted_PromptID : string;
  AIResponseCompleted_Mode : string;
  AIResponseCompleted_Provider : string;
  AIResponseCompleted_Model : string;
  AIResponseCompleted_Status : string;
  AIResponseCompleted_StopReason : string;
  AIResponseCompleted_ErrorCode : string;
  AIResponseCompleted_ResponseText : string;
  AIResponseCompleted_InputTokens : Z;
  AIResponseCompleted_OutputTokens : Z;
  AIResponseCompleted_LatencyMS : Z;
}.
#[export] Instance AIResponseCompleted_payload : Payload AIResponseCompleted.
Proof.
  refine {| event_type := EventTypeAIResponseCompleted; SchemaVersion := 1;
    schema := [
    mkSpec "session_id" KString false; mkSpec "interview_id" KString false;
    mkSpec "prompt_id" KString false; mkSpec "mode" KString false;
    mkSpec "provider" KString false; mkSpec "model" KString false;
    mkSpec "status" KString false; mkSpec "stop_reason" KString true;
    mkSpec "error_code" KString true; mkSpec "response_text" KString false;
    mkSpec "input_tokens" KInt false; mkSpec "output_tokens" KInt false;
    mkSpec "latency_ms" KInt false];
    to_values := λ p, [
    VString (AIResponseCompleted_SessionID p); VString (AIResponseCompleted_InterviewID p);
    VString (AIResponseCompleted_PromptID p); VString (AIResponseCompleted_Mode p);
    VString (AIResponseCompleted_Provider p); VString (AIResponseCompleted_Model p);
    VString (AIResponseCompleted_Status p); VString (AIResponseCompleted_StopReason p);
    VString (AIResponseCompleted_ErrorCode p);
    VString (AIResponseCompleted_ResponseText p); VInt (AIResponseCompleted_InputTokens p);
    VInt (AIResponseCompleted_OutputTokens p); VInt (AIResponseCompleted_LatencyMS p)];
    of_values := λ vs, match vs with
    | [VString x0; VString x1; VString x2; VString x3; VString x4; VString x5; VString x6;
    VString x7; VString x8; VString x9; VInt x10; VInt x11; VInt x12] => Some (mkAIResponseCompleted x0 x1 x2 x3 x4 x5 x6 x7 x8 x9 x10 x11 x12)
    | _ => None end |}; solve_payload.
Defined.

Record JobPosted := mkJobPosted {
  JobPosted_JobID : string;
  JobPosted_Title : string;
  JobPosted_Location : string;
  JobPosted_PostedBy : string;
  JobPosted_RemoteOK : bool;
}.
#[export] Instance JobPosted_payload : Payload JobPosted.
Proof.
  refine {| event_type := EventTypeJobPosted; SchemaVersion := 1;
    schema := [
    mkSpec "job_id" KString false; mkSpec "title" KString false;
    mkSpec "location" KString false; mkSpec "posted_by" KString false;
    mkSpec "remote_ok" KBool false];
    to_values := λ p, [
    VString (JobPosted_JobID p); VString (JobPosted_Title p);
    VString (JobPosted_Location p); VString (JobPosted_PostedBy p);
    VBool (JobPosted_RemoteOK p)];
    of_values := λ vs, match vs with
    | [VString x0; VString x1; VString x2; VString x3; VBool x4] => Some (mkJobPosted x0 x1 x2 x3 x4)
    | _ => None end |}; solve_payload.
Defined.

Record JobClosed := mkJobClosed {
  JobClosed_JobID : string;
  JobClosed_Reason : string;
}.
#[export] Instance JobClosed_payload : Payload JobClosed.
Proof.
  refine {| event_type := EventTypeJobClosed; SchemaVersion := 1;
    schema := [
    mkSpec "job_id" KString false; mkSpec "reason" KString false];
    to_values := λ p, [
    VString (JobClosed_JobID p); VString (JobClosed_Reason p)];
    of_values := λ vs, match vs with
    | [VString x0; VString x1] => Some (mkJobClosed x0 x1)
    | _ => None end |}; solve_payload.
Defined.

Record CandidateApplied := mkCandidateApplied {
  CandidateApplied_CandidateID : string;
  CandidateApplied_JobID : string;
  CandidateApplied_ApplicationID : string;
  CandidateApplied_ResumeURL : string;
}.
#[export] Instance CandidateApplied_payload : Payload CandidateApplied.
Proof.
  refine {| event_type := EventTypeCandidateApplied; SchemaVersion := 1;
    schema := [
    mkSpec "candidate_id" KString false; mkSpec "job_id" KString false;
    mkSpec "application_id" KString false; mkSpec "resume_url" KString false];
    to_values := λ p, [
    VString (CandidateApplied_CandidateID p); VString (CandidateApplied_JobID p);
    VString (CandidateApplied_ApplicationID p); VString (CandidateApplied_ResumeURL p)];
    of_values := λ vs, match vs with
    | [VString x0; VString x1; VString x2; VString x3] => Some (mkCandidateApplied x0 x1 x2 x3)
    | _ => None end |}; solve_payload.
Defined.

Record CandidateStageChanged := mkCandidateStageChanged {
  CandidateStageChanged_CandidateID : string;
  CandidateStageChanged_ApplicationID : string;
  CandidateStageChanged_FromStage : string;
  CandidateStageChanged_ToStage : string;
  CandidateStageChanged_ChangedBy : string;
}.
#[export] Instance CandidateStageChanged_payload : Payload CandidateStageChanged.
Proof.
  refine {| event_type := EventTypeCandidateStageChanged; SchemaVersion := 1;
    schema := [
    mkSpec "candidate_id" KString false; mkSpec "application_id" KString false;
    mkSpec "from_stage" KString false; mkSpec "to_stage" KString false;
    mkSpec "changed_by" KString false];
    to_values := λ p, [
    VString (CandidateStageChanged_CandidateID p);
    VString (CandidateStageChanged_ApplicationID p);
    VString (CandidateStageChanged_FromStage p); VString (CandidateStageChanged_ToStage p);
    VString (CandidateStageChanged_ChangedBy p)];
    of_values := λ vs, match vs with
    | [VString x0; VString x1; VString x2; VString x3; VString x4] => Some (mkCandidateStageChanged x0 x1 x2 x3 x4)
    | _ => None end |}; solve_payload.
Defined.

Record CandidateRejected := mkCandidateRejected {
  CandidateRejected_CandidateID : string;
  CandidateRejected_ApplicationID : string;
  CandidateRejected_Reason : string;
}.
#[export] Instance CandidateRejected_payload : Payload CandidateRejected.
Proof.
  refine {| event_type := EventTypeCandidateRejected; SchemaVersion := 1;
    schema := [
    mkSpec "candidate_id" KString false; mkSpec "application_id" KString false;
    mkSpec "reason" KString false];
    to_values := λ p, [
    VString (CandidateRejected_CandidateID p); VString (CandidateRejected_ApplicationID p);
    VString (CandidateRejected_Reason p)];
    of_values := λ vs, match vs with
    | [VString x0; VString x1; VString x2] => Some (mkCandidateRejected x0 x1 x2)
    | _ => None end |}; solve_payload.
Defined.

Record CandidateHired := mkCandidateHired {
  CandidateHired_CandidateID : string;
  CandidateHired_ApplicationID : string;
  CandidateHired_JobID : string;
  CandidateHired_StartDate : string;
}.
#[export] Instance CandidateHired_payload : Payload CandidateHired.
Proof.
  refine {| event_type := EventTypeCandidateHired; SchemaVersion := 1;
    schema := [
    mkSpec "candidate_id" KString false; mkSpec "application_id" KString false;
    mkSpec "job_id" KString false; mkSpec "start_date" KString false];
    to_values := λ p, [
    VString (CandidateHired_CandidateID p); VString (CandidateHired_ApplicationID p);
    VString (CandidateHired_JobID p); VString (CandidateHired_StartDate p)];
    of_values := λ vs, match vs with
    | [VString x0; VString x1; VString x2; VString x3] => Some (mkCandidateHired x0 x1 x2 x3)
    | _ => None end |}; solve_payload.
Defined.

Record InterviewScheduled := mkInterviewScheduled {
  InterviewScheduled_InterviewID : string;
  InterviewScheduled_ApplicationID : string;
  InterviewScheduled_InterviewerID : string;
  InterviewScheduled_ScheduledAt : string;
}.
#[export] Instance InterviewScheduled_payload : Payload InterviewScheduled.
Proof.
  refine {| event_type := EventTypeInterviewScheduled; SchemaVersion := 1;
    schema := [
    mkSpec "interview_id" KString false; mkSpec "application_id" KString false;
    mkSpec "interviewer_id" KString false; mkSpec "scheduled_at" KString false];
    to_values := λ p, [
    VString (InterviewScheduled_InterviewID p);
    VString (InterviewScheduled_ApplicationID p);
    VString (InterviewScheduled_InterviewerID p); VString (InterviewScheduled_ScheduledAt p)];
    of_values := λ vs, match vs with
    | [VString x0; VString x1; VString x2; VString x3] => Some (mkInterviewScheduled x0 x1 x2 x3)
    | _ => None end |}; solve_payload.
Defined.

Record InterviewCompleted := mkInterviewCompleted {
  InterviewCompleted_InterviewID : string;
  InterviewCompleted_ApplicationID : string;
  InterviewCompleted_Outcome : string;
  InterviewCompleted_Feedback : string;
}.
#[export] Instance InterviewCompleted_payload : Payload InterviewCompleted.
Proof.
  refine {| event_type := EventTypeInterviewCompleted; SchemaVersion := 1;
    schema := [
    mkSpec "interview_id" KString false; mkSpec "application_id" KString false;
    mkSpec "outcome" KString false; mkSpec "feedback" KString false];
    to_values := λ p, [
    VString (InterviewCompleted_InterviewID p);
    VString (InterviewCompleted_ApplicationID p); VString (InterviewCompleted_Outcome p);
    VString (InterviewCompleted_Feedback p)];
    of_values := λ vs, match vs with
    | [VString x0; VString x1; VString x2; VString x3] => Some (mkInterviewCompleted x0 x1 x2 x3)
    | _ => None end |}; solve_payload.
Defined.

(** ** The envelope *)
Record Envelope := mkEnvelope {
  EventID : string;
  Envelope_EventType : EventType;
  Envelope_SchemaVersion : Z;
  Envelope_CompanyID : string;
  SequenceNumber : Z;
  OccurredAt : time;
  Envelope_Payload : RawMessage;
}.

Definition envelope_schema : list spec := [
  mkSpec "event_id" KString false; mkSpec "event_type" KString false;
  mkSpec "schema_version" KInt false; mkSpec "company_id" KString false;
  mkSpec "sequence_number" KInt false; mkSpec "occurred_at" KTime false;
  mkSpec "payload" KRaw false].

Definition envelope_values (e : Envelope) : list value := [
  VString (EventID e); VString (Envelope_EventType e); VInt (Envelope_SchemaVersion e);
  VString (Envelope_CompanyID e); VInt (SequenceNumber e); VTime (OccurredAt e);
  VRaw (Envelope_Payload e)].

Definition envelope_of_values (vs : list value) : option Envelope :=
  match vs with
  | [VString i; VString t; VInt v; VString c; VInt n; VTime o; VRaw p] => Some (mkEnvelope i t v c n o p)
  | _ => None
  end.

(** [json.Marshal(envelope)] and [json.Unmarshal(data, &envelope)]. *)
Definition marshal_envelope (e : Envelope) : result json := marshal envelope_schema (envelope_values e).
Definition unmarshal_envelope (m : RawMessage) : option Envelope :=
  vs ← decode envelope_schema m (zero_struct envelope_schema); envelope_of_values vs.

Definition hex_digit (z : Z) : ascii := ascii_of_nat (Z.to_nat (if z <? 10 then 48 + z else 87 + z)).
Fixpoint hex_encode (bytes : list Z) : string :=
  match bytes with
  | [] => EmptyString
  | b :: bytes => String (hex_digit (b / 16)) (String (hex_digit (b mod 16)) (hex_encode bytes))
  end.

Section Payloads.
Context {P : Type} `{Payload P}.

Definition marshal_payload (p : P) : result json := marshal (schema P) (to_values p).
Definition unmarshal_payload (m : RawMessage) : option P :=
  vs ← decode (schema P) m (zero_struct (schema P)); of_values vs.

(** [New]: [random] is what [rand.Read] returned, [now] the clock. *)
Definition New (companyID : string) (sequenceNumber : Z) (random : result (list Z)) (now : time)
    (payload : P) : result Envelope :=
  body ← wrap_err "events: marshal payload" (marshal_payload payload);
  bytes ← wrap_err "events: generate event id" random;
  Ok (mkEnvelope (hex_encode bytes) (event_type P) (SchemaVersion P) companyID sequenceNumber now
        (Some body)).

(** [Envelope.Decode] into a zero [P]. *)
Definition Decode (e : Envelope) : result P :=
  if negb (bool_decide (Envelope_EventType e = event_type P))
  then Err (Plain "events: envelope type does not match target type")
  else match unmarshal_payload (Envelope_Payload e) with
       | Some p => Ok p
       | None => Err (Wrap "events: unmarshal payload" (Plain "json"))
       end.

(** Representable payloads: strings that are valid UTF-8, integers in
    range, times JSON can express. *)
Definition payload_ok (p : P) : Prop :=
  Forall2 (λ sp v, value_ok (spec_kind sp) v) (schema P) (to_values p).

Lemma payload_roundtrip p :
  payload_ok p → ∃ j, marshal_payload p = Ok j ∧ unmarshal_payload (Some j) = Some p.
Proof.
  intros Hok. destruct (decode_marshal (schema P) (to_values p) schema_nodup Hok) as (j & Hj & Hd).
  exists j. split; [done|]. unfold unmarshal_payload. rewrite Hd. cbn. apply of_to_values.
Qed.
End Payloads.

Definition envelope_ok (e : Envelope) : Prop :=
  Forall2 (λ sp v, value_ok (spec_kind sp) v) envelope_schema (envelope_values e).

Lemma envelope_roundtrip e :
  envelope_ok e → ∃ j, marshal_envelope e = Ok j ∧ unmarshal_envelope (Some j) = Some e.
Proof.
  intros Hok. destruct (decode_marshal envelope_schema (envelope_values e)) as (j & Hj & Hd).
  - apply (bool_decide_eq_true_1 _). vm_compute. reflexivity.
  - exact Hok.
  - exists j. split; [done|]. unfold unmarshal_envelope. rewrite Hd. by destruct e.
Qed.

(** C27: events survive the wire.  For every payload type of the catalog, an
    envelope [New] builds from a representable payload, marshalled and
    unmarshalled, is the same envelope, and [Decode] gives back the payload;
    decoding it as a payload of another event type is refused. *)
Theorem event_roundtrip `{Payload P} `{Payload Q} (p : P) company seq bytes now e :
  New company seq (Ok bytes) now p = Ok e → payload_ok p → envelope_ok e →
  ∃ j, marshal_envelope e = Ok j ∧ unmarshal_envelope (Some j) = Some e ∧
    Decode e = Ok p ∧
    (event_type Q ≠ event_type P → is_ok (Decode (P:=Q) e) = false).
Proof.
  intros Hnew Hp He. destruct (envelope_roundtrip e He) as (j & Hj & Hu).
  destruct (payload_roundtrip p Hp) as (body & Hb & Hd).
  unfold New in Hnew. rewrite Hb in Hnew. cbn in Hnew. injection Hnew as <-.
  exists j. split_and!; [done|done| |].
  - unfold Decode. cbn [Envelope_EventType Envelope_Payload]. rewrite bool_decide_eq_true_2 by done.
    cbn [negb]. by rewrite Hd.
  - intros Hne. unfold Decode. cbn [Envelope_EventType]. by rewrite bool_decide_eq_false_2.
Qed.

(** Closes [payload_ok] and [envelope_ok] on a concrete value. *)
Ltac solve_representable :=
  unfold payload_ok, envelope_ok;
  repeat (apply Forall2_cons; split;
    [vm_compute; first [reflexivity|split; discriminate|by eexists]|]); constructor.

Definition example_diff : CodeDiff :=
  mkCodeDiff "s" "i" 3 DiffOriginManual "" "main.go" "@@ -1 +1 @@" 1 1.

Lemma event_roundtrip_witness :
  ∃ e, New "c" 4 (Ok [1; 171]) (date_month 2026 9) example_diff = Ok e ∧
    EventID e = "01ab"%string ∧ Decode e = Ok example_diff ∧ is_ok (Decode (P:=SessionStarted) e) = false.
Proof.
  eexists. split; [vm_compute; reflexivity|]. split; [reflexivity|].
  edestruct (event_roundtrip (Q:=SessionStarted) example_diff "c" 4 [1; 171] (date_month 2026 9))
    as (j & _ & _ & Hd & Hq); [vm_compute; reflexivity| | |].
  - solve_representable.
  - solve_representable.
  - split; [exact Hd|]. apply Hq. vm_compute. discriminate.
Defined.
