(* ===== verification/Metrics.v ===== *)
(** * Scoring metrics from a session's timeline (internal/scoring/metrics)

    [Dedupe] and [Compute] over timeline events; counters are [int64]s that
    wrap.  The loop of [Compute] is [compute_step] folded over the ordered
    timeline.  Ratios are IEEE binary64 divisions. *)
From S2P Require Import Prelude Str GoTime Json Rfc3339 Codec Events.
From Stdlib Require Floats.SpecFloat.

Record Event := mkEvent {
  Event_SequenceNumber : Z;
  Event_EventType : EventType;
  Event_OccurredAt : time;
  Event_Payload : RawMessage;
}.

Record Metrics := mkMetrics {
  PromptCount : Z;
  AIResponseCount : Z;
  AIErrorCount : Z;
  AIInputTokens : Z;
  AIOutputTokens : Z;
  RunCount : Z;
  RunSucceededCount : Z;
  LastRunStatus : string;
  DiffCount : Z;
  AIDiffCount : Z;
  LinesAdded : Z;
  LinesRemoved : Z;
  AILinesAdded : Z;
  ActiveDurationMS : Z;
  TimeToFirstRunMS : option Z;
}.

Definition zero_metrics : Metrics := mkMetrics 0 0 0 0 0 0 0 "" 0 0 0 0 0 0 None.

(** [float64(n)] and binary64 division, round to nearest even. *)
Definition float64_of_int (n : Z) : SpecFloat.spec_float :=
  SpecFloat.binary_normalize 53 1024 n 0 false.
Definition ratio (part whole : Z) : SpecFloat.spec_float :=
  if whole =? 0 then SpecFloat.S754_zero false
  else SpecFloat.SFdiv 53 1024 (float64_of_int part) (float64_of_int whole).
Definition RunSuccessRate (m : Metrics) := ratio (RunSucceededCount m) (RunCount m).
Definition AILineShare (m : Metrics) := ratio (AILinesAdded m) (LinesAdded m).

Definition ActivityTypes : list EventType := [
  EventTypeSessionStarted; EventTypePromptSubmitted; EventTypeAIResponseCompleted;
  EventTypeExecutionRequested; EventTypeExecutionCompleted; EventTypeCodeDiff;
  EventTypeSessionSubmitted; EventTypeSessionExpired].

Definition isActivity (eventType : EventType) : bool :=
  existsb (λ t, bool_decide (t = eventType)) ActivityTypes.

(** [decode]: straight into the payload struct, whatever the event's type. *)
Definition decode_payload (P : Type) `{Payload P} (e : Event) : result P :=
  match unmarshal_payload (Event_Payload e) with
  | Some p => Ok p
  | None => Err (Wrap ("metrics: decode " +:+ Event_EventType e +:+ " #" +:+
                       render_int (Event_SequenceNumber e)) (Plain "json"))
  end.

Definition seq_less (a b : Event) : bool := Event_SequenceNumber a <? Event_SequenceNumber b.

(** The second loop of [Dedupe]; [prev] is the sequence number of the last
    event kept. *)
Fixpoint drop_copies (prev : option Z) (ordered : list Event) : list Event :=
  match ordered with
  | [] => []
  | e :: ordered =>
      if bool_decide (prev = Some (Event_SequenceNumber e)) then drop_copies prev ordered
      else e :: drop_copies (Some (Event_SequenceNumber e)) ordered
  end.

Definition Dedupe (timeline : list Event) : list Event :=
  drop_copies None (sort_stable seq_less timeline).

(** The variables of [Compute]'s loop. *)
Record Acc := mkAcc {
  acc_m : Metrics;
  first : time;
  last : time;
  firstRun : time;
  lastRunSequence : Z;
}.

Definition compute_payload (acc : Acc) (e : Event) : result Acc :=
  let m := acc_m acc in
  let at_ := Event_OccurredAt e in
  let keep m := mkAcc m (first acc) (last acc) (firstRun acc) (lastRunSequence acc) in
  let ty := Event_EventType e in
  if bool_decide (ty = EventTypePromptSubmitted) then
    Ok (keep (mkMetrics (add64 (PromptCount m) 1) (AIResponseCount m) (AIErrorCount m)
      (AIInputTokens m) (AIOutputTokens m) (RunCount m) (RunSucceededCount m) (LastRunStatus m)
      (DiffCount m) (AIDiffCount m) (LinesAdded m) (LinesRemoved m) (AILinesAdded m)
      (ActiveDurationMS m) (TimeToFirstRunMS m)))
  else if bool_decide (ty = EventTypeAIResponseCompleted) then
    p ← decode_payload AIResponseCompleted e;
    Ok (keep (mkMetrics (PromptCount m) (add64 (AIResponseCount m) 1)
      (if bool_decide (AIResponseCompleted_Status p = AIResponseStatusError)
       then add64 (AIErrorCount m) 1 else AIErrorCount m)
      (add64 (AIInputTokens m) (AIResponseCompleted_InputTokens p))
      (add64 (AIOutputTokens m) (AIResponseCompleted_OutputTokens p))
      (RunCount m) (RunSucceededCount m) (LastRunStatus m) (DiffCount m) (AIDiffCount m)
      (LinesAdded m) (LinesRemoved m) (AILinesAdded m) (ActiveDurationMS m) (TimeToFirstRunMS m)))
  else if bool_decide (ty = EventTypeExecutionRequested) then
    Ok (mkAcc m (first acc) (last acc)
      (if is_zero (firstRun acc) || before at_ (firstRun acc) then at_ else firstRun acc)
      (lastRunSequence acc))
  else if bool_decide (ty = EventTypeExecutionCompleted) then
    p ← decode_payload ExecutionCompleted e;
    let newer := lastRunSequence acc <? Event_SequenceNumber e in
    Ok (mkAcc (mkMetrics (PromptCount m) (AIResponseCount m) (AIErrorCount m) (AIInputTokens m)
      (AIOutputTokens m) (add64 (RunCount m) 1)
      (if bool_decide (ExecutionCompleted_Status p = ExecutionStatusSucceeded)
       then add64 (RunSucceededCount m) 1 else RunSucceededCount m)
      (if newer then ExecutionCompleted_Status p else LastRunStatus m)
      (DiffCount m) (AIDiffCount m) (LinesAdded m) (LinesRemoved m) (AILinesAdded m)
      (ActiveDurationMS m) (TimeToFirstRunMS m))
      (first acc) (last acc) (firstRun acc)
      (if newer then Event_SequenceNumber e else lastRunSequence acc))
  else if bool_decide (ty = EventTypeCodeDiff) then
    p ← decode_payload CodeDiff e;
    let ai := bool_decide (CodeDiff_Origin p = DiffOriginAIApplied) in
    Ok (keep (mkMetrics (PromptCount m) (AIResponseCount m) (AIErrorCount m) (AIInputTokens m)
      (AIOutputTokens m) (RunCount m) (RunSucceededCount m) (LastRunStatus m)
      (add64 (DiffCount m) 1) (if ai then add64 (AIDiffCount m) 1 else AIDiffCount m)
      (add64 (LinesAdded m) (CodeDiff_LinesAdded p)) (add64 (LinesRemoved m) (CodeDiff_LinesRemoved p))
      (if ai then add64 (AILinesAdded m) (CodeDiff_LinesAdded p) else AILinesAdded m)
      (ActiveDurationMS m) (TimeToFirstRunMS m)))
  else Ok acc.

Definition compute_step (acc : Acc) (e : Event) : result Acc :=
  if negb (isActivity (Event_EventType e)) then Ok acc
  else
    let at_ := Event_OccurredAt e in
    compute_payload
      (mkAcc (acc_m acc) (if is_zero (first acc) || before at_ (first acc) then at_ else first acc)
         (if after at_ (last acc) then at_ else last acc) (firstRun acc) (lastRunSequence acc)) e.

Fixpoint compute_loop (acc : Acc) (ordered : list Event) : result Acc :=
  match ordered with
  | [] => Ok acc
  | e :: ordered => acc ← compute_step acc e; compute_loop acc ordered
  end.

Definition finish (acc : Acc) : Metrics :=
  let m := acc_m acc in
  mkMetrics (PromptCount m) (AIResponseCount m) (AIErrorCount m) (AIInputTokens m)
    (AIOutputTokens m) (RunCount m) (RunSucceededCount m) (LastRunStatus m) (DiffCount m)
    (AIDiffCount m) (LinesAdded m) (LinesRemoved m) (AILinesAdded m)
    (if is_zero (first acc) then 0 else milliseconds (time_sub (last acc) (first acc)))
    (if is_zero (firstRun acc) then None
     else Some (milliseconds (time_sub (firstRun acc) (first acc)))).

Definition Compute (timeline : list Event) : result Metrics :=
  acc ← compute_loop (mkAcc zero_metrics zero_time zero_time zero_time (-1)) (Dedupe timeline);
  Ok (finish acc).

(** ** Dedupe *)

Definition seq_lt (a b : Event) : Prop := Event_SequenceNumber a < Event_SequenceNumber b.

Lemma sorted_by_seq l : StronglySorted (not_less seq_less) (sort_stable seq_less l).
Proof.
  apply sort_stable_sorted; unfold not_less, seq_less; intros; bool_prop; lia.
Qed.

(** What the second loop keeps of a sorted list. *)
Lemma drop_copies_spec prev l :
  StronglySorted (not_less seq_less) l →
  (∀ k, prev = Some k → Forall (λ e, k ≤ Event_SequenceNumber e) l) →
  StronglySorted seq_lt (drop_copies prev l) ∧
  Forall (λ e, ∀ k, prev = Some k → k < Event_SequenceNumber e) (drop_copies prev l) ∧
  ∀ k, prev ≠ Some k → head (List.filter (λ e, Event_SequenceNumber e =? k) l) =
    head (List.filter (λ e, Event_SequenceNumber e =? k) (drop_copies prev l)).
Proof.
  intros Hl. revert prev. induction Hl as [|e l Hl IH He]; intros prev Hprev; cbn [drop_copies].
  { split_and!; [constructor|done|done]. }
  case_bool_decide as Ep.
  - destruct (IH prev) as (H1 & H2 & H3).
    { intros k Hk. specialize (Hprev k Hk). by apply Forall_cons in Hprev as [_ ?]. }
    split_and!; [done|done|]. intros k Hk. cbn. rewrite <-H3 by done.
    destruct (Z.eqb_spec (Event_SequenceNumber e) k); [congruence|done].
  - destruct (IH (Some (Event_SequenceNumber e))) as (H1 & H2 & H3).
    { intros k [= <-]. eapply Forall_impl; [exact He|]. unfold not_less, seq_less. cbn. intros x Hx.
      bool_prop. lia. }
    split_and!.
    + constructor; [done|]. eapply Forall_impl; [exact H2|]. cbn. intros x Hx. by apply Hx.
    + constructor.
      * intros k ->. specialize (Hprev k eq_refl). apply Forall_cons in Hprev as [Hk _].
        assert (k ≠ Event_SequenceNumber e) by congruence. lia.
      * eapply Forall_impl; [exact H2|]. cbn. intros x Hx k ->. specialize (Hx _ eq_refl).
        specialize (Hprev k eq_refl). apply Forall_cons in Hprev as [Hk _]. lia.
    + intros k Hk. cbn. destruct (Z.eqb_spec (Event_SequenceNumber e) k) as [|Hne]; [done|].
      apply H3. congruence.
Qed.

(** The event kept for a sequence number is the first delivered with it. *)
Lemma Dedupe_spec timeline :
  StronglySorted seq_lt (Dedupe timeline) ∧
  ∀ k, head (List.filter (λ e, Event_SequenceNumber e =? k) (Dedupe timeline)) =
       head (List.filter (λ e, Event_SequenceNumber e =? k) timeline).
Proof.
  destruct (drop_copies_spec None (sort_stable seq_less timeline) (sorted_by_seq _)) as (H1 & _ & H3);
    [done|]. split; [done|]. intros k. unfold Dedupe. rewrite <-H3 by done.
  rewrite sort_stable_filter; [done|]. unfold seq_less. intros x y. lia.
Qed.

(** A strictly sorted list is determined by the event at each number. *)
Definition at_seq (k : Z) (e : Event) : bool := Event_SequenceNumber e =? k.

Lemma strict_head l e :
  StronglySorted seq_lt l →
  e ∈ l ↔ head (List.filter (at_seq (Event_SequenceNumber e)) l) = Some e.
Proof.
  induction 1 as [|x l Hl IH Hx]; cbn; [by rewrite elem_of_nil|]. unfold at_seq at 1.
  rewrite elem_of_cons. destruct (Z.eqb_spec (Event_SequenceNumber x) (Event_SequenceNumber e)) as [E|Hne].
  - cbn. split; [|by intros [= ->]; left]. intros [->|Hin]; [done|].
    rewrite Forall_forall in Hx. specialize (Hx e Hin). unfold seq_lt in Hx. lia.
  - rewrite <-IH. split; [intros [->|]; done|by right].
Qed.

Lemma strict_NoDup l : StronglySorted seq_lt l → NoDup l.
Proof.
  induction 1 as [|x l Hl IH Hx]; constructor; [|done]. intros Hin.
  rewrite Forall_forall in Hx. specialize (Hx x Hin). unfold seq_lt in Hx. lia.
Qed.

#[export] Instance seq_lt_antisymm : AntiSymm (=) seq_lt.
Proof. intros x y. unfold seq_lt. lia. Qed.

Lemma sorted_head_eq l1 l2 :
  StronglySorted seq_lt l1 → StronglySorted seq_lt l2 →
  (∀ k, head (List.filter (at_seq k) l1) = head (List.filter (at_seq k) l2)) → l1 = l2.
Proof.
  intros H1 H2 Hhd. apply (StronglySorted_unique seq_lt); [done|done|].
  apply NoDup_Permutation; [by apply strict_NoDup..|]. intros e.
  by rewrite !strict_head, Hhd.
Qed.

(** Redeliveries of a sequence number carry the same event. *)
Definition redelivered (timeline : list Event) : Prop :=
  ∀ a b, a ∈ timeline → b ∈ timeline → Event_SequenceNumber a = Event_SequenceNumber b → a = b.

Lemma redelivered_head l e :
  redelivered l → e ∈ l → head (List.filter (at_seq (Event_SequenceNumber e)) l) = Some e.
Proof.
  intros Hr He. destruct (List.filter _ l) as [|x xs] eqn:E; cbn.
  - assert (Hin : In e (List.filter (at_seq (Event_SequenceNumber e)) l)).
    { apply filter_In. split; [by apply list_elem_of_In|]. apply Z.eqb_refl. }
    by rewrite E in Hin.
  - assert (Hin : In x (List.filter (at_seq (Event_SequenceNumber e)) l)) by (rewrite E; by left).
    apply filter_In in Hin as [Hx Hk]. apply list_elem_of_In in Hx. unfold at_seq in Hk. bool_prop.
    f_equal. by apply Hr.
Qed.

Lemma Dedupe_same_events t1 t2 :
  redelivered t1 → (∀ e, e ∈ t1 ↔ e ∈ t2) → Dedupe t1 = Dedupe t2.
Proof.
  intros H1 Hset.
  assert (H2 : redelivered t2) by (intros a b Ha%Hset Hb%Hset; by apply H1).
  destruct (Dedupe_spec t1) as [S1 E1], (Dedupe_spec t2) as [S2 E2].
  apply sorted_head_eq; [done|done|]. intros k. unfold at_seq. rewrite E1, E2. fold (at_seq k).
  destruct (List.filter (at_seq k) t1) as [|e l] eqn:F1.
  - destruct (List.filter (at_seq k) t2) as [|e2 l2] eqn:F2; [done|]. exfalso.
    assert (Hin : In e2 (List.filter (at_seq k) t2)) by (rewrite F2; by left).
    apply filter_In in Hin as [Hin Hk]. apply list_elem_of_In, Hset, list_elem_of_In in Hin.
    assert (Hin' : In e2 (List.filter (at_seq k) t1)) by by apply filter_In.
    by rewrite F1 in Hin'.
  - assert (Hin : In e (List.filter (at_seq k) t1)) by (rewrite F1; by left).
    apply filter_In in Hin as [Hin Hk]. unfold at_seq in Hk. bool_prop. subst k.
    apply list_elem_of_In, Hset in Hin. cbn. symmetry. by apply redelivered_head.
Qed.

(** C14: metrics do not depend on delivery.  For any timeline, the events that
    count are sorted by sequence number, one per number: the first delivered
    with it.  So as long as redeliveries repeat the same event, two timelines
    holding the same events - in any order, with any duplication - yield the
    same metrics or the same error. *)
Theorem Compute_order_independent t1 t2 :
  redelivered t1 → (∀ e, e ∈ t1 ↔ e ∈ t2) →
  Compute t1 = Compute t2 ∧ StronglySorted seq_lt (Dedupe t1) ∧
  ∀ e, e ∈ Dedupe t1 ↔ e ∈ t1.
Proof.
  intros Hr Hset. unfold Compute. rewrite (Dedupe_same_events t1 t2) by done. split; [done|].
  rewrite <-(Dedupe_same_events t1 t2) by done.
  destruct (Dedupe_spec t1) as [Hs Hk]. split; [done|]. intros e.
  rewrite (strict_head _ e Hs). unfold at_seq. rewrite Hk. split.
  - intros Hh. assert (Hin : In e (List.filter (at_seq (Event_SequenceNumber e)) t1)).
    { unfold at_seq. destruct (List.filter _ t1); cbn in Hh; simplify_eq. by left. }
    apply filter_In in Hin as [Hin _]. by apply list_elem_of_In.
  - by apply redelivered_head.
Qed.

Definition example_timeline : list Event := [
  mkEvent 3 EventTypeExecutionCompleted (100 * second) (Some (JObject [("status"%string, JString "succeeded")]));
  mkEvent 1 EventTypeSessionStarted (10 * second) (Some JNull);
  mkEvent 2 EventTypeExecutionRequested (70 * second) (Some JNull);
  mkEvent 4 EventTypeCodeDiff (130 * second)
    (Some (JObject [("origin"%string, JString "ai_applied"); ("lines_added"%string, JNumber "12")]));
  mkEvent 5 EventTypeScoreComputed (999 * second) None].
Definition example_metrics : Metrics :=
  mkMetrics 0 0 0 0 0 1 1 "succeeded" 1 1 12 0 12 120000 (Some 60000).

Example compute_example : Compute example_timeline = Ok example_metrics.
Proof. vm_compute. done. Qed.
Example ratio_examples : RunSuccessRate example_metrics = ratio 3 3 ∧
  ratio 0 0 = SpecFloat.S754_zero false ∧ ratio 1 2 = SpecFloat.S754_finite false 4503599627370496 (-53).
Proof. vm_compute. done. Qed.

Lemma example_redelivered : redelivered example_timeline.
Proof.
  intros a b Ha Hb. unfold example_timeline in *.
  rewrite !elem_of_cons, elem_of_nil in Ha, Hb. destruct_or!; subst; cbn; done.
Qed.

Lemma Compute_order_independent_witness :
  Compute (reverse example_timeline ++ example_timeline) = Ok example_metrics.
Proof.
  destruct (Compute_order_independent example_timeline (reverse example_timeline ++ example_timeline))
    as (E & _).
  - exact example_redelivered.
  - intros e. rewrite elem_of_app, elem_of_reverse. tauto.
  - rewrite <-E. vm_compute. reflexivity.
Defined.

(** ** What the counters count *)
Definition of_type (ty : EventType) (e : Event) : bool := bool_decide (Event_EventType e = ty).
Fixpoint count (ty : EventType) (l : list Event) : Z :=
  match l with
  | [] => 0
  | e :: l => (if of_type ty e then 1 else 0) + count ty l
  end.

Lemma count_app ty l1 l2 : count ty (l1 ++ l2) = count ty l1 + count ty l2.
Proof. induction l1; cbn; lia. Qed.
Lemma count_bounds ty l : 0 ≤ count ty l ≤ Z.of_nat (length l).
Proof. induction l as [|e l IH]; cbn [count length]; [lia|]. destruct (of_type ty e); lia. Qed.

Record counters_ok (seen : list Event) (m : Metrics) : Prop := {
  prompts_counted : PromptCount m = count EventTypePromptSubmitted seen;
  responses_counted : AIResponseCount m = count EventTypeAIResponseCompleted seen;
  runs_counted : RunCount m = count EventTypeExecutionCompleted seen;
  diffs_counted : DiffCount m = count EventTypeCodeDiff seen;
  errors_bounded : 0 ≤ AIErrorCount m ≤ AIResponseCount m;
  successes_bounded : 0 ≤ RunSucceededCount m ≤ RunCount m;
  ai_diffs_bounded : 0 ≤ AIDiffCount m ≤ DiffCount m;
}.

Definition times_ok (seen : list Event) (acc : Acc) : Prop :=
  (firstRun acc = zero_time ↔ count EventTypeExecutionRequested seen = 0) ∧
  ((first acc = zero_time ∧ firstRun acc = zero_time ∧ last acc = zero_time) ∨
   (zero_time < first acc ≤ last acc ∧
    (firstRun acc = zero_time ∨ first acc ≤ firstRun acc ≤ last acc))).

Lemma add64_1 z : 0 ≤ z < max_int64 → add64 z 1 = z + 1.
Proof. intros. unfold add64. apply wrap64_id. unfold_int64. lia. Qed.

(** Evaluate the closed comparisons of the goal. *)
Ltac closed_bools :=
  repeat match goal with
  | |- context[bool_decide (?a = ?b)] =>
      let v := eval vm_compute in (bool_decide (a = b)) in
      first [constr_eq v true|constr_eq v false]; change (bool_decide (a = b)) with v; cbv iota
  end.
Ltac decide_here := apply (bool_decide_eq_true_1 _); vm_compute; reflexivity.

(** The counters after one payload. *)
Lemma compute_payload_counters acc e acc' seen :
  compute_payload acc e = Ok acc' → counters_ok seen (acc_m acc) →
  Z.of_nat (length seen) < max_int64 → counters_ok (seen ++ [e]) (acc_m acc').
Proof.
  intros Hc Hok Hlen.
  pose proof (count_bounds EventTypePromptSubmitted seen).
  pose proof (count_bounds EventTypeAIResponseCompleted seen).
  pose proof (count_bounds EventTypeExecutionCompleted seen).
  pose proof (count_bounds EventTypeCodeDiff seen).
  destruct Hok as [C1 C2 C3 C4 C5 C6 C7]. unfold compute_payload in Hc.
  destruct acc as [m ????]. cbn in *.
  assert (Hty : ∀ ty, count ty [e] = if bool_decide (Event_EventType e = ty) then 1 else 0).
  { intros ty. cbn. unfold of_type. case_bool_decide; lia. }
  split; rewrite ?count_app, ?Hty; clear Hty; revert Hc;
    (destruct (decide (Event_EventType e ∈ ActivityTypes)) as [Hin|Hout];
     [unfold ActivityTypes in Hin; rewrite !elem_of_cons, elem_of_nil in Hin; repeat destruct Hin as [Hin|Hin]; try done;
      rewrite Hin; closed_bools; intros; inv_bind; subst; cbn in *; rewrite ?add64_1 by lia; try lia;
      case_bool_decide; rewrite ?add64_1 by lia; lia
     |rewrite !bool_decide_eq_false_2 by (intros E; apply Hout; rewrite E; decide_here);
      intros [= <-]; cbn; lia]).
Qed.

Lemma compute_step_counters acc e acc' seen :
  compute_step acc e = Ok acc' → counters_ok seen (acc_m acc) →
  Z.of_nat (length seen) < max_int64 → counters_ok (seen ++ [e]) (acc_m acc').
Proof.
  unfold compute_step. destruct (isActivity _) eqn:Ea; cbn [negb].
  - intros Hc Hok Hlen. by eapply compute_payload_counters in Hc.
  - intros [= <-] [C1 C2 C3 C4 C5 C6 C7] _.
    assert (Hty : ∀ ty, ty ∈ ActivityTypes → count ty [e] = 0).
    { intros ty Hty. cbn. unfold of_type. rewrite bool_decide_eq_false_2; [done|]. intros E.
      unfold isActivity in Ea. rewrite <-not_true_iff_false, existsb_exists in Ea. apply Ea.
      exists ty. rewrite <-list_elem_of_In. by rewrite bool_decide_eq_true. }
    split; rewrite ?count_app, ?Hty by decide_here; lia.
Qed.

Lemma compute_payload_times acc e acc' :
  compute_payload acc e = Ok acc' →
  first acc' = first acc ∧ last acc' = last acc ∧
  firstRun acc' = (if of_type EventTypeExecutionRequested e &&
                      (is_zero (firstRun acc) || before (Event_OccurredAt e) (firstRun acc))
                   then Event_OccurredAt e else firstRun acc).
Proof.
  unfold compute_payload, of_type.
  destruct (decide (Event_EventType e ∈ ActivityTypes)) as [Hin|Hout].
  - unfold ActivityTypes in Hin. rewrite !elem_of_cons, elem_of_nil in Hin.
    repeat destruct Hin as [Hin|Hin]; try done; rewrite Hin; closed_bools; intros Hc; inv_bind; by subst.
  - rewrite !bool_decide_eq_false_2 by (intros E; apply Hout; rewrite E; decide_here).
    by intros [= <-].
Qed.

Lemma compute_step_times acc e acc' seen :
  compute_step acc e = Ok acc' → zero_time < Event_OccurredAt e →
  times_ok seen acc → times_ok (seen ++ [e]) acc'.
Proof.
  unfold compute_step, times_ok. intros Hc Hat [Hrun Hord]. rewrite count_app. cbn [count].
  destruct (isActivity _) eqn:Ea; cbn [negb] in Hc.
  - apply compute_payload_times in Hc as (E1 & E2 & E3). cbn in E1, E2, E3. rewrite E1, E2, E3.
    pose proof (count_bounds EventTypeExecutionRequested seen).
    unfold is_zero, before, after. set (t := Event_OccurredAt e) in *. clearbody t.
    destruct (of_type _ e); cbn [andb];
      destruct (Z.eqb_spec (first acc) zero_time), (Z.eqb_spec (firstRun acc) zero_time),
        (Z.ltb_spec t (first acc)), (Z.ltb_spec t (firstRun acc)), (Z.ltb_spec (last acc) t);
      cbn [orb]; lia.
  - injection Hc as <-. assert (of_type EventTypeExecutionRequested e = false) as ->.
    { unfold of_type. apply bool_decide_eq_false. intros E. rewrite E in Ea. vm_compute in Ea. done. }
    rewrite !Z.add_0_r. done.
Qed.

Lemma compute_loop_ok acc l acc' seen :
  compute_loop acc l = Ok acc' → Forall (λ e, zero_time < Event_OccurredAt e) l →
  Z.of_nat (length (seen ++ l)) ≤ max_int64 →
  counters_ok seen (acc_m acc) → times_ok seen acc →
  counters_ok (seen ++ l) (acc_m acc') ∧ times_ok (seen ++ l) acc'.
Proof.
  intros Hc Hat. revert acc seen Hc. induction Hat as [|e l He Hl IH]; intros acc seen Hc Hlen Hcnt Htm.
  { cbn in Hc. rewrite app_nil_r. by simplify_eq. }
  cbn in Hc. apply bind_ok in Hc as (acc1 & Hstep & Hrest).
  replace (seen ++ e :: l) with ((seen ++ [e]) ++ l) in * by by rewrite <-app_assoc.
  apply (IH acc1); [done|done| |by eapply compute_step_times].
  eapply compute_step_counters; [done|done|]. rewrite !length_app in Hlen. cbn in Hlen. lia.
Qed.

Lemma milliseconds_mono a b : 0 ≤ a ≤ b → 0 ≤ milliseconds a ≤ milliseconds b.
Proof.
  intros H. unfold milliseconds. split; [apply Z.quot_pos; unfold millisecond; lia|].
  apply Z.quot_le_mono; [done|lia].
Qed.

(** The counters mean what they say.  Over a timeline of any length an
    [int64] can count, with instants after the zero time, the computed
    metrics count exactly the distinct prompts, responses, finished runs and
    diffs; successes, errors and AI diffs never exceed their totals; the
    active duration is not negative and contains the time to the first run,
    which is present exactly when a run was requested. *)
Theorem Compute_counts timeline m :
  Compute timeline = Ok m →
  Z.of_nat (length (Dedupe timeline)) ≤ max_int64 →
  Forall (λ e, zero_time < Event_OccurredAt e) (Dedupe timeline) →
  counters_ok (Dedupe timeline) m ∧ 0 ≤ ActiveDurationMS m ∧
  (TimeToFirstRunMS m = None ↔ count EventTypeExecutionRequested (Dedupe timeline) = 0) ∧
  (∀ ms, TimeToFirstRunMS m = Some ms → 0 ≤ ms ≤ ActiveDurationMS m).
Proof.
  unfold Compute. intros (acc & Hloop & [= <-])%bind_ok Hlen Hat.
  destruct (compute_loop_ok _ _ _ [] Hloop Hat Hlen) as [Hcnt [Hrun Hord]].
  { split; done. }
  { split; [done|by left]. }
  cbn [app] in *. unfold finish. cbn [ActiveDurationMS TimeToFirstRunMS]. unfold is_zero.
  assert (Hsub : ∀ a b c, a ≤ b ≤ c → 0 ≤ milliseconds (time_sub b a) ≤ milliseconds (time_sub c a)).
  { intros a b c H. apply milliseconds_mono. unfold time_sub. unfold_int64. lia. }
  split; [by destruct Hcnt|].
  destruct (Z.eqb_spec (first acc) zero_time), (Z.eqb_spec (firstRun acc) zero_time);
    split_and!; try (by rewrite <-Hrun); try (intros ms [= <-]);
    try (rewrite <-Hrun; naive_solver); try lia;
    try (apply (Hsub _ (last acc) (last acc)); lia); try (apply Hsub; lia).
Qed.

Lemma Compute_counts_witness :
  counters_ok (Dedupe example_timeline) example_metrics ∧ 0 ≤ ActiveDurationMS example_metrics.
Proof.
  destruct (Compute_counts example_timeline example_metrics) as (H1 & H2 & _).
  - vm_compute. reflexivity.
  - vm_compute. discriminate.
  - vm_compute. repeat constructor.
  - split; [exact H1|exact H2].
Defined.
