(* ===== verification/Outbox.v ===== *)
(** * The transactional outbox and its relay (internal/outbox)

    Messages, [NewMessage], the Kafka records [publish] writes and the polling
    loop of [Relay.Run] over any [Source]. *)
From S2P Require Import Prelude Str GoTime Json Rfc3339 Codec Events Tx.

Record Message := mkMessage {
  Message_ID : Z;
  Message_CompanyID : UUID;
  Topic : string;
  Key : string;
  Message_EventType : EventType;
  Message_Envelope : RawMessage;
}.

(** A Kafka record as [publish] builds it. *)
Record KafkaMessage := mkKafkaMessage {
  Kafka_Topic : string;
  Kafka_Key : string;
  Kafka_Value : RawMessage;
  Kafka_Headers : list (string * string);
}.

Section Outbox.
Context `{UuidLib}.

Definition NewMessage (topic key : string) (envelope : Envelope) : result Message :=
  if bool_decide (topic = ""%string) || bool_decide (key = ""%string)
  then Err (Plain "outbox: topic and key are required")
  else match uuid_Parse (Envelope_CompanyID envelope) with
    | None => Err (Wrap "outbox: company_id" (Plain "invalid UUID"))
    | Some companyID =>
        body ← wrap_err "outbox: marshal envelope" (marshal_envelope envelope);
        Ok (mkMessage 0 companyID topic key (Envelope_EventType envelope) (Some body))
    end.
End Outbox.

Definition record_of (m : Message) : KafkaMessage :=
  mkKafkaMessage (Topic m) (Key m) (Message_Envelope m) [("event_type"%string, Message_EventType m)].

Record Config := mkConfig { BatchSize : Z; Interval : duration }.

Definition NewRelay (config : Config) : result () :=
  if (BatchSize config <=? 0) || (Interval config <=? 0)
  then Err (Plain "outbox: batch size and interval must be positive") else Ok ().

(** The Kafka log a state contains, and writing to it.  The list holds the
    messages of every partition: the order of two messages means something
    only where they share a partition, as those of one key do.
    [WriteMessages] spreads a batch over partitions by the hash of the key and
    writes each partition's part on its own, so a failure may leave any part
    of the batch written. *)
Class KafkaLog (S : Type) := {
  kafka : S → list KafkaMessage;
  kafka_append : list KafkaMessage → S → S;
  kafka_append_log : ∀ l s, kafka (kafka_append l s) = kafka s ++ l;
}.

Section Relay.
Context {S : Type} `{KafkaLog S}.

Definition publish (messages : list Message) : M S () :=
  let records := map record_of messages in
  wrapM ("outbox: write " +:+ render_int (Z.of_nat (length records)) +:+ " messages")
    (batch kafka_append records).

(** One iteration of [Run]: relay a batch and tell whether to poll again at
    once or wait for the interval, and the error [OnError] is called with.
    [cancelled] is whether the context is done after the call. *)
Inductive turn := Stop | Again | Wait (failed : option error).

Definition relay_turn (config : Config)
    (Drain : Z → (list Message → M S ()) → M S Z) (cancelled : bool) (fs : script) (s : S)
    : turn * S :=
  let '(relayed, _, s) := Drain (BatchSize config) publish fs s in
  (if cancelled then Stop
   else match relayed with
    | Err e => Wait (Some e)
    | Ok n => if n =? BatchSize config then Again else Wait None
    end, s).

(** [Run]: turns until the context is done; each turn has its own faults. *)
Fixpoint Run (config : Config) (Drain : Z → (list Message → M S ()) → M S Z)
    (turns : list (bool * script)) (s : S) : list turn * S :=
  match turns with
  | [] => ([], s)
  | (cancelled, fs) :: turns =>
      match relay_turn config Drain cancelled fs s with
      | (Stop, s) => ([Stop], s)
      | (t, s) => let '(ts, s) := Run config Drain turns s in (t :: ts, s)
      end
  end.
End Relay.
