(* ===== verification/Store.v ===== *)
(** * The operational store (internal/store/postgres: sessions.go, events.go,
      diffs.go, scores.go, outbox.go, interviews.go, companies.go)

    The tables the candidate session flow reads and writes, keyed by primary
    key, and the store's methods as transactions over them.  The Kafka log is
    part of the state but outside the database: a rollback keeps it.  The
    [bigserial] of [event_outbox] is not transactional either. *)
From S2P Require Import Prelude Str GoTime Json Rfc3339 Codec Domain Rbac Events Metrics Outbox Tx.

(** ** Score rows (internal/scoring: service.go, recommendation.go) *)
Record Recommendation := mkRecommendation {
  Decision : string;
  Confidence : float64;
  Rationale : string;
}.

Record Score := mkScore {
  Score_CompanyID : UUID;
  Score_InterviewID : UUID;
  Score_SessionID : UUID;
  Score_Trigger : EventType;
  Score_Metrics : Metrics;
  MetricsComplete : bool;
  Score_Recommendation : option Recommendation;
  RecommendationModel : string;
  RecommendationError : string;
  ComputedAt : time;
}.

(** ** The tables *)
Record SessionRow := mkSessionRow { row_session : Session; last_diff_sequence : Z }.

Record PurgeRow := mkPurgeRow {
  purge_reason : string;
  search_documents_deleted : Z;
  purge_at : time;
}.

(** A primary key [(company_id, id)]. *)
Notation pk := (UUID * UUID)%type.

Record Tables := mkTables {
  t_companies : gmap UUID string;   (* id -> ai_key_mode *)
  t_interviews : gmap pk Interview;
  t_sessions : gmap pk SessionRow;
  t_invites : gmap pk Invite;
  t_scores : gmap pk Score;         (* (company_id, session_id) *)
  t_interview_scores : gmap pk Domain.Score;
  t_purge_log : gmap pk PurgeRow;   (* (company_id, interview_id) *)
  t_outbox : list Message;
  t_outbox_id : Z;
}.

Definition set_interviews f (t : Tables) : Tables :=
  mkTables (t_companies t) (f (t_interviews t)) (t_sessions t) (t_invites t) (t_scores t)
    (t_interview_scores t) (t_purge_log t) (t_outbox t) (t_outbox_id t).
Definition set_sessions f (t : Tables) : Tables :=
  mkTables (t_companies t) (t_interviews t) (f (t_sessions t)) (t_invites t) (t_scores t)
    (t_interview_scores t) (t_purge_log t) (t_outbox t) (t_outbox_id t).
Definition set_invites f (t : Tables) : Tables :=
  mkTables (t_companies t) (t_interviews t) (t_sessions t) (f (t_invites t)) (t_scores t)
    (t_interview_scores t) (t_purge_log t) (t_outbox t) (t_outbox_id t).
Definition set_scores f (t : Tables) : Tables :=
  mkTables (t_companies t) (t_interviews t) (t_sessions t) (t_invites t) (f (t_scores t))
    (t_interview_scores t) (t_purge_log t) (t_outbox t) (t_outbox_id t).
Definition set_interview_scores f (t : Tables) : Tables :=
  mkTables (t_companies t) (t_interviews t) (t_sessions t) (t_invites t) (t_scores t)
    (f (t_interview_scores t)) (t_purge_log t) (t_outbox t) (t_outbox_id t).
Definition set_purge_log f (t : Tables) : Tables :=
  mkTables (t_companies t) (t_interviews t) (t_sessions t) (t_invites t) (t_scores t)
    (t_interview_scores t) (f (t_purge_log t)) (t_outbox t) (t_outbox_id t).
Definition set_outbox f n (t : Tables) : Tables :=
  mkTables (t_companies t) (t_interviews t) (t_sessions t) (t_invites t) (t_scores t)
    (t_interview_scores t) (t_purge_log t) (f (t_outbox t)) n.

(** The database and the Kafka log beside it. *)
Record World := mkWorld { tables : Tables; log : list KafkaMessage }.

#[export] Instance World_rollback : Rollback World := λ s0 s,
  mkWorld (set_outbox id (t_outbox_id (tables s)) (tables s0)) (log s).

#[export] Instance World_kafka : KafkaLog World := {|
  kafka := log;
  kafka_append l s := mkWorld (tables s) (log s ++ l);
  kafka_append_log l s := eq_refl;
|}.

(** One SQL statement over the tables. *)
Definition sql {A} (f : Tables → result (A * Tables)) : M World A :=
  stmt (λ s, '(a, t) ← f (tables s); Ok (a, mkWorld t (log s))).

Definition ErrNoRows : error := Sentinel "pgx.ErrNoRows".
Definition ErrInterviewNotFound : error := Sentinel "postgres.ErrInterviewNotFound".
Definition ErrInvalidInvite : error := Sentinel "candidateworkspace.ErrInvalidInvite".
Definition ErrDiffOutOfOrder : error := Sentinel "candidateworkspace.ErrDiffOutOfOrder".
Definition ErrInterviewGone : error := Sentinel "scoring.ErrInterviewGone".
Definition ErrCompanyNotFound : error := Sentinel "postgres.ErrCompanyNotFound".

(** ** Shared statements *)

Definition with_sequence (i : Interview) (last now : Z) : Interview :=
  mkInterview (Interview_ID i) (Interview_CompanyID i) (Interview_CreatedBy i)
    (Interview_CandidateName i) (Interview_CandidateEmail i) (Interview_Status i)
    (Interview_ScheduledAt i) (Interview_TerminalAt i) (Interview_EraseRequestedAt i)
    (Interview_LegalHold i) (Interview_PurgedAt i) last (Interview_CreatedAt i) now.

(** [UPDATE interviews SET last_sequence_number = last_sequence_number + $3 …
    WHERE … purged_at IS NULL RETURNING last_sequence_number]; a [bigint] that
    overflows is an error. *)
Definition advance_sequence (company interview : UUID) (count now : Z) (t : Tables)
    : result (Z * Tables) :=
  match t_interviews t !! (company, interview) with
  | Some i =>
      if bool_decide (Interview_PurgedAt i = None) then
        let last := Interview_LastSequenceNumber i + count in
        if last <=? max_int64
        then Ok (last, set_interviews <[(company, interview) := with_sequence i last now]> t)
        else Err (Plain "bigint out of range")
      else Err ErrNoRows
  | None => Err ErrNoRows
  end.

Definition allocateSequence (company interview : UUID) (count now : Z) : M World Z :=
  if count <? 1 then throw (Plain "allocate sequence: count must be positive")
  else
    last ← on_error ErrNoRows ErrInterviewNotFound "allocate interview sequence"
             (sql (advance_sequence company interview count now));
    mret (add64 (sub64 last count) 1).

(** [INSERT INTO event_outbox]: the id comes from the sequence, which a
    rollback does not rewind. *)
Definition insert_outbox_row (m : Message) (t : Tables) : result (() * Tables) :=
  if bool_decide (is_Some (t_companies t !! Message_CompanyID m)) &&
     bool_decide (Topic m ≠ ""%string) && bool_decide (Key m ≠ ""%string) &&
     bool_decide (Message_EventType m ≠ ""%string)
  then
    let id := t_outbox_id t + 1 in
    let row := mkMessage id (Message_CompanyID m) (Topic m) (Key m) (Message_EventType m)
                 (Message_Envelope m) in
    Ok ((), set_outbox (λ o, o ++ [row]) id t)
  else Err (Plain "violates a constraint of event_outbox").

Definition insertOutbox (m : Message) : M World () :=
  wrapM "write outbox" (sql (insert_outbox_row m)).

Fixpoint insertOutboxes (ms : list Message) : M World () :=
  match ms with
  | [] => mret ()
  | m :: ms => insertOutbox m;; insertOutboxes ms
  end.

(** ** events.go *)
Definition record_events_body (company interview : UUID) (count now : Z)
    (build : Z → result (list Message)) : M World (outcome Z) :=
  first ← allocateSequence company interview count now;
  messages ← lift (build first);
  insertOutboxes messages;;
  mret (Commit first).

Definition RecordEvents (company interview : UUID) (count now : Z)
    (build : Z → result (list Message)) : M World Z :=
  transaction "begin record events" "commit record events"
    (record_events_body company interview count now build).

(** ** diffs.go *)

(** [UPDATE sessions SET last_diff_sequence = $3 WHERE … AND interview_id = $4
    AND last_diff_sequence < $3]: the number of rows it advanced. *)
Definition advance_diff (company session interview : UUID) (clientSequence : Z) (t : Tables)
    : result (bool * Tables) :=
  match t_sessions t !! (company, session) with
  | Some r =>
      if bool_decide (Session_InterviewID (row_session r) = Some interview) &&
         (last_diff_sequence r <? clientSequence)
      then Ok (true, set_sessions <[(company, session) := mkSessionRow (row_session r) clientSequence]> t)
      else Ok (false, t)
  | None => Ok (false, t)
  end.

Definition record_diff_body (company session interview : UUID) (clientSequence now : Z)
    (build : Z → result Message) : M World (outcome Z) :=
  advanced ← wrapM "advance diff sequence" (sql (advance_diff company session interview clientSequence));
  if negb advanced then throw ErrDiffOutOfOrder
  else
    sequence ← allocateSequence company interview 1 now;
    message ← lift (build sequence);
    insertOutbox message;;
    mret (Commit sequence).

Definition RecordDiff (company session interview : UUID) (clientSequence now : Z)
    (build : Z → result Message) : M World Z :=
  transaction "begin record diff" "commit record diff"
    (record_diff_body company session interview clientSequence now build).

(** ** sessions.go *)
Record StartParams := mkStartParams {
  Start_SessionID : UUID;
  Start_TokenHash : string;
  Start_ExpiresAt : time;
}.
Record Started := mkStarted {
  Started_Session : Session;
  Started_InviteID : UUID;
  Started_SequenceNumber : Z;
}.

(** The invite a token hash names and that can still be consumed; the hash is
    unique across companies. *)
Definition consumable (hash : string) (now : time) (i : Invite) : bool :=
  bool_decide (Invite_TokenHash i = hash) && bool_decide (Invite_AcceptedAt i = None) &&
  after (Invite_ExpiresAt i) now && bool_decide (is_Some (Invite_InterviewID i)).

Definition accept (now : time) (i : Invite) : Invite :=
  mkInvite (Invite_ID i) (Invite_CompanyID i) (Invite_InterviewID i) (Invite_InvitedBy i)
    (Invite_Email i) (Invite_Role i) (Invite_TokenHash i) (Invite_ExpiresAt i) (Some now)
    (Invite_CreatedAt i).

Definition consume_invite (hash : string) (now : time) (t : Tables)
    : result ((UUID * UUID * UUID) * Tables) :=
  match find (λ kv, consumable hash now kv.2) (map_to_list (t_invites t)) with
  | Some (k, i) =>
      match Invite_InterviewID i with
      | Some interview =>
          Ok ((Invite_ID i, Invite_CompanyID i, interview), set_invites <[k := accept now i]> t)
      | None => Err ErrNoRows
      end
  | None => Err ErrNoRows
  end.

(** [INSERT INTO sessions]: primary key and globally unique token hash. *)
Definition insert_session (s : Session) (t : Tables) : result (() * Tables) :=
  if bool_decide (t_sessions t !! (Session_CompanyID s, Session_ID s) = None) &&
     forallb (λ kv, negb (bool_decide (Session_TokenHash (row_session kv.2) = Session_TokenHash s)))
       (map_to_list (t_sessions t)) &&
     bool_decide (Session_TokenHash s ≠ ""%string)
  then Ok ((), set_sessions <[(Session_CompanyID s, Session_ID s) := mkSessionRow s 0]> t)
  else Err (Plain "duplicate key value violates unique constraint of sessions").

Definition start_session_body (inviteHash : string) (params : StartParams) (now : time)
    (build : Started → result Message) : M World (outcome Started) :=
  ids ← on_error ErrNoRows ErrInvalidInvite "consume invite" (sql (consume_invite inviteHash now));
  let '(inviteID, companyID, interviewID) := ids in
  sequence ← on_error ErrNoRows ErrInvalidInvite "allocate interview sequence"
    (sql (advance_sequence companyID interviewID 1 now));
  let session := mkSession (Start_SessionID params) companyID None (Some interviewID)
    SessionStateActive (Start_TokenHash params) (Start_ExpiresAt params) None now None in
  wrapM "create session" (sql (insert_session session));;
  let started := mkStarted session inviteID sequence in
  message ← lift (build started);
  insertOutbox message;;
  mret (Commit started).

Definition StartSession (inviteHash : string) (params : StartParams) (now : time)
    (build : Started → result Message) : M World Started :=
  transaction "begin invite exchange" "commit invite exchange"
    (start_session_body inviteHash params now build).

Definition find_session (hash : string) (t : Tables) : result (Session * Tables) :=
  match find (λ kv, bool_decide (Session_TokenHash (row_session kv.2) = hash)) (map_to_list (t_sessions t)) with
  | Some (_, r) => Ok (row_session r, t)
  | None => Err ErrNoRows
  end.
Definition FindSessionByTokenHash (hash : string) : M World Session :=
  on_error ErrNoRows ErrSessionNotFound "find session" (sql (find_session hash)).

(** ** scores.go *)
Definition ScoreExists (company session : UUID) : M World bool :=
  wrapM "check score" (sql (λ t, Ok (bool_decide (is_Some (t_scores t !! (company, session))), t))).

(** [INSERT INTO scores … SELECT … FROM interviews WHERE … purged_at IS NULL
    ON CONFLICT DO NOTHING]: whether a row was inserted; a session that does
    not exist violates the foreign key. *)
Definition ErrForeignKey : error := Sentinel "pgconn.23503".
Definition insert_score (s : Score) (t : Tables) : result (bool * Tables) :=
  let key := (Score_CompanyID s, Score_SessionID s) in
  match t_interviews t !! (Score_CompanyID s, Score_InterviewID s) with
  | Some i =>
      if negb (bool_decide (Interview_PurgedAt i = None)) then Ok (false, t)
      else if bool_decide (is_Some (t_scores t !! key)) then Ok (false, t)
      else if negb (bool_decide (Score_Trigger s ∈ [EventTypeSessionSubmitted; EventTypeSessionExpired]))
      then Err (Plain "violates check constraint scores_trigger_event_type_check")
      else if bool_decide (is_Some (t_sessions t !! key))
      then Ok (true, set_scores <[key := s]> t)
      else Err ErrForeignKey
  | None => Ok (false, t)
  end.

Definition save_score_body (score : Score) (now : time) (build : Z → result Message)
    : M World (outcome bool) :=
  inserted ← on_error ErrForeignKey ErrInterviewGone "insert score" (sql (insert_score score));
  if negb inserted then
    exists_ ← ScoreExists (Score_CompanyID score) (Score_SessionID score);
    if (exists_ : bool) then mret (Rolled false) else throw ErrInterviewGone
  else
    sequence ← replace_error ErrInterviewNotFound ErrInterviewGone
      (allocateSequence (Score_CompanyID score) (Score_InterviewID score) 1 now);
    message ← lift (build sequence);
    insertOutbox message;;
    mret (Commit true).

Definition SaveScore (score : Score) (now : time) (build : Z → result Message) : M World bool :=
  transaction "begin save score" "commit save score" (save_score_body score now build).

(** A timestamptz has whole microseconds: pgx sends the seconds and the
    nanoseconds, cut to microseconds. *)
Definition timestamptz (t : time) : time := t / 1000 * 1000.
(** [GetScore]: the JSON columns hold the values that were written,
    [recommendation_error] is NULL beside a recommendation, and [computed_at]
    is what its column keeps of the time. *)
Definition read_score (row : Score) : Score :=
  mkScore (Score_CompanyID row) (Score_InterviewID row) (Score_SessionID row) (Score_Trigger row) (Score_Metrics row) (MetricsComplete row)
    (Score_Recommendation row) (RecommendationModel row)
    match Score_Recommendation row with Some _ => "" | None => RecommendationError row end (timestamptz (ComputedAt row)).
Definition select_score (company session : UUID) (t : Tables) : result (Score * Tables) :=
  match t_scores t !! (company, session) with
  | Some row => Ok (read_score row, t)
  | None => Err ErrNoRows
  end.
Definition GetScore (company session : UUID) : M World Score := wrapM "get score" (sql (select_score company session)).

(** A state that contains the operational store. *)
Class HasWorld (S : Type) := {
  world : S → World;
  with_world : World → S → S;
  world_with : ∀ w s, world (with_world w s) = w;
}.
#[export] Instance World_world : HasWorld World := {| world := id; with_world w _ := w; world_with w s := eq_refl |}.

Definition in_world {S A} `{HasWorld S} (m : M World A) : M S A := λ fs s,
  let '(r, fs, w) := m fs (world s) in (r, fs, with_world w s).

(** ** outbox.go *)

(** [SELECT … ORDER BY id LIMIT $1]. *)
Definition pending (limit : Z) (t : Tables) : list Message :=
  take (Z.to_nat limit)
    (sort_stable (λ a b, Message_ID a <? Message_ID b) (t_outbox t)).

Definition delete_outbox (ids : list Z) (t : Tables) : Tables :=
  set_outbox (List.filter (λ m, negb (bool_decide (Message_ID m ∈ ids)))) (t_outbox_id t) t.

(** [Drain]; [locked] is what [pg_try_advisory_xact_lock] answered. *)
Definition drain_body (locked : bool) (limit : Z) (publish : list Message → M World ())
    : M World (outcome Z) :=
  locked ← wrapM "lock outbox" (query (λ _, locked));
  if negb locked then mret (Rolled 0)
  else
    messages ← wrapM "read outbox" (query (λ s, pending limit (tables s)));
    match messages with
    | [] => mret (Rolled 0)
    | _ =>
        publish messages;;
        wrapM "delete relayed outbox rows"
          (sql (λ t, Ok ((), delete_outbox (map Message_ID messages) t)));;
        mret (Commit (Z.of_nat (length messages)))
    end.

Definition Drain (locked : bool) (limit : Z) (publish : list Message → M World ()) : M World Z :=
  transaction "begin outbox relay" "commit outbox relay" (drain_body locked limit publish).

(** ** interviews.go, companies.go *)
Definition insert_interview (i : Interview) (t : Tables) : result (() * Tables) :=
  let key := (Interview_CompanyID i, Interview_ID i) in
  if bool_decide (t_interviews t !! key = None) &&
     bool_decide (is_Some (t_companies t !! Interview_CompanyID i)) &&
     bool_decide (Interview_CandidateName i ≠ ""%string) &&
     bool_decide (Interview_CandidateEmail i ≠ ""%string) &&
     bool_decide (Interview_Status i ≠ ""%string) &&
     (bool_decide (Interview_PurgedAt i = None) || bool_decide (is_Some (Interview_TerminalAt i)))
  then Ok ((), set_interviews <[key := with_sequence i 0 (Interview_UpdatedAt i)]> t)
  else Err (Plain "violates a constraint of interviews").
Definition Create (i : Interview) : M World () := wrapM "create interview" (sql (insert_interview i)).

Definition Get (company interview : UUID) : M World Interview :=
  wrapM "get interview" (sql (λ t, match t_interviews t !! (company, interview) with
                                   | Some i => Ok (i, t)
                                   | None => Err ErrNoRows end)).

Definition AIKeyMode (company : UUID) : M World string :=
  on_error ErrNoRows ErrCompanyNotFound "read ai_key_mode"
    (sql (λ t, match t_companies t !! company with Some m => Ok (m, t) | None => Err ErrNoRows end)).

(** ** What the statements do *)

Lemma sql_ok {A} (f : Tables → result (A * Tables)) fs s a fs' s' :
  sql f fs s = (Ok a, fs', s') → ∃ t, f (tables s) = Ok (a, t) ∧ s' = mkWorld t (log s).
Proof.
  unfold sql. intros H%stmt_ok. apply bind_ok in H as ([a' t] & Hf & E). exists t. by simplify_eq.
Qed.

Ltac inv_store :=
  repeat (inv_M; match goal with
  | H : sql _ _ _ = (Ok _, _, _) |- _ => apply sql_ok in H as (? & ? & ->)
  end); inv_M.

(** The rows [insertOutboxes] appends, with the ids the sequence gives. *)
Fixpoint numbered (id : Z) (ms : list Message) : list Message :=
  match ms with
  | [] => []
  | m :: ms => mkMessage (id + 1) (Message_CompanyID m) (Topic m) (Key m) (Message_EventType m)
                 (Message_Envelope m) :: numbered (id + 1) ms
  end.

Lemma insertOutboxes_ok ms fs s u fs' s' :
  insertOutboxes ms fs s = (Ok u, fs', s') →
  s' = mkWorld (set_outbox (λ o, o ++ numbered (t_outbox_id (tables s)) ms)
                  (t_outbox_id (tables s) + Z.of_nat (length ms)) (tables s)) (log s).
Proof.
  revert fs s. induction ms as [|m ms IH]; intros fs s H; cbn [insertOutboxes numbered length] in *.
  { inv_M. destruct s' as [[] l]. unfold set_outbox. cbn. by rewrite app_nil_r, Z.add_0_r. }
  unfold insertOutbox in H. inv_store.
  match goal with H : insertOutboxes _ _ _ = _ |- _ => apply IH in H as -> end.
  unfold insert_outbox_row in *. destruct (_ && _); [|done]. simplify_eq/=.
  unfold set_outbox. cbn. rewrite <-app_assoc. do 2 f_equal. lia.
Qed.

Lemma insertOutbox_ok m fs s u fs' s' :
  insertOutbox m fs s = (Ok u, fs', s') →
  s' = mkWorld (set_outbox (λ o, o ++ numbered (t_outbox_id (tables s)) [m])
                  (t_outbox_id (tables s) + 1) (tables s)) (log s).
Proof.
  unfold insertOutbox. intros H. inv_store. unfold insert_outbox_row in *.
  destruct (_ && _); [|done]. by simplify_eq.
Qed.

Lemma advance_sequence_ok company interview count now t last t' :
  advance_sequence company interview count now t = Ok (last, t') →
  ∃ i, t_interviews t !! (company, interview) = Some i ∧ Interview_PurgedAt i = None ∧
    last = Interview_LastSequenceNumber i + count ∧ last ≤ max_int64 ∧
    t' = set_interviews <[(company, interview) := with_sequence i last now]> t.
Proof.
  unfold advance_sequence. destruct (_ !! _) as [i|]; [|done]. case_bool_decide; [|done].
  destruct (_ <=? _) eqn:E; [|done]. intros [= <- <-]. bool_prop. by exists i.
Qed.

(** Sequence counters are [bigint]s that start at zero and only grow. *)
Definition sequences_ok (t : Tables) : Prop :=
  map_Forall (λ _ i, 0 ≤ Interview_LastSequenceNumber i) (t_interviews t).

Lemma allocateSequence_ok company interview count now fs s first fs' s' :
  allocateSequence company interview count now fs s = (Ok first, fs', s') →
  sequences_ok (tables s) →
  ∃ i, 1 ≤ count ∧ t_interviews (tables s) !! (company, interview) = Some i ∧
    Interview_PurgedAt i = None ∧ first = Interview_LastSequenceNumber i + 1 ∧
    s' = mkWorld (set_interviews
      <[(company, interview) := with_sequence i (Interview_LastSequenceNumber i + count) now]> (tables s)) (log s).
Proof.
  unfold allocateSequence. intros H Hok. destruct (count <? 1) eqn:Ec; [inv_M|]. bool_prop. inv_store.
  match goal with H : advance_sequence _ _ _ _ _ = _ |- _ =>
    apply advance_sequence_ok in H as (i & Hi & Hp & -> & Hmax & ->) end.
  exists i. split_and!; [done|done|done| |done].
  pose proof (Hok _ _ Hi) as Hpos. cbn in Hpos.
  unfold add64, sub64. rewrite !wrap64_id by (unfold_int64; rewrite ?wrap64_id; unfold_int64; lia). lia.
Qed.

(** ** Growth: what every write keeps

    Whatever a store method does - succeed, fail at any statement, lose its
    commit's acknowledgement - interviews keep their rows and their sequence
    counters only grow, sessions keep their rows and their diff counters only
    grow, an accepted invite stays accepted, and a stored score stays. *)
Definition unique_tokens (t : Tables) : Prop :=
  ∀ k1 k2 r1 r2, t_sessions t !! k1 = Some r1 → t_sessions t !! k2 = Some r2 →
    Session_TokenHash (row_session r1) = Session_TokenHash (row_session r2) → k1 = k2.

Record grows (t t' : Tables) : Prop := {
  grow_sequences : sequences_ok t → sequences_ok t';
  grow_interview : ∀ k i, t_interviews t !! k = Some i →
    ∃ i', t_interviews t' !! k = Some i' ∧
      Interview_LastSequenceNumber i ≤ Interview_LastSequenceNumber i' ∧
      Interview_PurgedAt i' = Interview_PurgedAt i;
  grow_session : ∀ k r, t_sessions t !! k = Some r →
    ∃ r', t_sessions t' !! k = Some r' ∧ row_session r' = row_session r ∧
      last_diff_sequence r ≤ last_diff_sequence r';
  grow_invite : ∀ k i', t_invites t' !! k = Some i' →
    ∃ i, t_invites t !! k = Some i ∧ Invite_TokenHash i' = Invite_TokenHash i ∧
      (Invite_AcceptedAt i' = None → Invite_AcceptedAt i = None);
  grow_score : ∀ k x, t_scores t !! k = Some x → t_scores t' !! k = Some x;
  grow_tokens : unique_tokens t → unique_tokens t';
}.

#[export] Instance grows_preorder : PreOrder grows.
Proof.
  split.
  - intros t. split; eauto 6 using Z.le_refl.
  - intros t1 t2 t3 H12 H23. split.
    + intros H. apply H23, H12, H.
    + intros k i Hi. destruct (grow_interview _ _ H12 k i Hi) as (i2 & Hi2 & ? & E2).
      destruct (grow_interview _ _ H23 k i2 Hi2) as (i3 & Hi3 & ? & E3).
      exists i3. split; [done|]. split; [lia|congruence].
    + intros k r Hr. destruct (grow_session _ _ H12 k r Hr) as (r2 & Hr2 & E2 & ?).
      destruct (grow_session _ _ H23 k r2 Hr2) as (r3 & Hr3 & E3 & ?).
      exists r3. split; [done|]. split; [congruence|lia].
    + intros k i3 Hi3. destruct (grow_invite _ _ H23 k i3 Hi3) as (i2 & Hi2 & E2 & A2).
      destruct (grow_invite _ _ H12 k i2 Hi2) as (i1 & Hi1 & E1 & A1).
      exists i1. split; [done|]. split; [congruence|auto].
    + intros k x Hx. by apply H23, H12.
    + intros H. apply H23, H12, H.
Qed.

Definition grows_w (s s' : World) : Prop := grows (tables s) (tables s').
#[export] Instance grows_w_preorder : PreOrder grows_w.
Proof. split; [intros s; unfold grows_w; reflexivity|intros s1 s2 s3; unfold grows_w; apply transitivity]. Qed.

Lemma grows_outbox f n t : grows t (set_outbox f n t).
Proof. split; cbn; eauto 6 using Z.le_refl. Qed.

Lemma grows_sql {A} (f : Tables → result (A * Tables)) :
  (∀ t a t', f t = Ok (a, t') → grows t t') → stays grows_w (sql f).
Proof.
  intros Hf. apply stays_stmt; [apply _|]. intros s a s' ([a' t] & Ht & [= _ <-])%bind_ok.
  unfold grows_w. cbn. by eapply Hf.
Qed.

Lemma grows_advance company interview count now t last t' :
  0 ≤ count → advance_sequence company interview count now t = Ok (last, t') → grows t t'.
Proof.
  intros Hc (i & Hi & Hp & -> & _ & ->)%advance_sequence_ok. split; cbn; eauto 6 using Z.le_refl.
  - intros Hok k i'. cbn. rewrite lookup_insert_Some. intros [[<- <-]|[_ H]]; [|by eapply Hok].
    cbn. specialize (Hok _ _ Hi). cbn in Hok. lia.
  - intros k i' Hi'. destruct (decide (k = (company, interview))) as [->|Hne].
    + rewrite lookup_insert_eq. rewrite Hi in Hi'. injection Hi' as <-.
      eexists. split; [done|]. cbn. split; [lia|done].
    + rewrite lookup_insert_ne by done. exists i'. split; [done|]. split; [lia|done].
Qed.

Lemma stays_allocate company interview count now :
  stays grows_w (allocateSequence company interview count now).
Proof.
  unfold allocateSequence. destruct (count <? 1) eqn:E; [apply stays_throw; apply _|]. bool_prop.
  apply stays_bind; [apply _| |intros; apply stays_ret; apply _].
  apply stays_on_error, grows_sql. intros t a t'. apply grows_advance. lia.
Qed.

Lemma stays_insertOutbox m : stays grows_w (insertOutbox m).
Proof.
  apply stays_wrapM, grows_sql. intros t a t'. unfold insert_outbox_row.
  destruct (_ && _); [|done]. intros [= _ <-]. apply grows_outbox.
Qed.

Lemma stays_insertOutboxes ms : stays grows_w (insertOutboxes ms).
Proof.
  induction ms as [|m ms IH]; cbn; [apply stays_ret; apply _|].
  apply stays_bind; [apply _|apply stays_insertOutbox|done].
Qed.

Lemma grows_consume hash now t a t' : consume_invite hash now t = Ok (a, t') → grows t t'.
Proof.
  unfold consume_invite. destruct (find _ _) as [[k i]|] eqn:E; [|done].
  destruct (Invite_InterviewID i); [|done]. intros [= _ <-].
  apply find_some in E as [Hin _]. apply list_elem_of_In, elem_of_map_to_list in Hin.
  split; cbn; eauto 6 using Z.le_refl. intros k' i'. rewrite lookup_insert_Some. intros [[<- <-]|[_ H]].
  - by exists i.
  - by exists i'.
Qed.

Lemma unique_tokens_insert k r t :
  (∀ k' r', t_sessions t !! k' = Some r' → k' ≠ k →
     Session_TokenHash (row_session r') ≠ Session_TokenHash (row_session r)) →
  unique_tokens t → unique_tokens (set_sessions <[k := r]> t).
Proof.
  intros Hnew Hu k1 k2 r1 r2 H1 H2 Heq. cbn in H1, H2.
  apply lookup_insert_Some in H1 as [[<- <-]|[? H1]]; apply lookup_insert_Some in H2 as [[<- <-]|[? H2]];
    [done|by destruct (Hnew _ _ H2)|by destruct (Hnew _ _ H1)|by eapply Hu].
Qed.

Lemma grows_insert_session s t a t' : insert_session s t = Ok (a, t') → grows t t'.
Proof.
  unfold insert_session. destruct (_ && _) eqn:E; [|done]. bool_prop. intros [= _ <-].
  split; cbn; eauto 6 using Z.le_refl.
  - intros k r Hr. rewrite lookup_insert_ne by congruence. eauto 6 using Z.le_refl.
  - apply unique_tokens_insert. intros k r Hr _ Heq.
    match goal with H : forallb _ _ = true |- _ => rewrite List.forallb_forall in H;
      assert (false = true) as [=]; rewrite <-(H (k, r)) end; [by cbn; rewrite bool_decide_eq_true_2|].
    by apply list_elem_of_In, elem_of_map_to_list.
Qed.

Lemma grows_insert_score x t a t' : insert_score x t = Ok (a, t') → grows t t'.
Proof.
  unfold insert_score. destruct (_ !! _) as [i|]; [|by intros [= _ <-]].
  destruct (negb _); [by intros [= _ <-]|]. case_bool_decide as Ex; [by intros [= _ <-]|].
  destruct (negb _); [done|]. case_bool_decide; [|done]. intros [= _ <-].
  split; cbn; eauto 6 using Z.le_refl. intros k y Hy. rewrite lookup_insert_ne; [done|]. intros <-. apply Ex. by eexists.
Qed.

Lemma grows_advance_diff company session interview cs t a t' :
  advance_diff company session interview cs t = Ok (a, t') → grows t t'.
Proof.
  unfold advance_diff. destruct (_ !! _) as [r|] eqn:Er; [|by intros [= _ <-]].
  destruct (_ && _) eqn:E; [|by intros [= _ <-]]. bool_prop. intros [= _ <-].
  split; cbn; eauto 6 using Z.le_refl.
  - intros k r' Hr'. destruct (decide (k = (company, session))) as [->|Hne].
    + rewrite lookup_insert_eq. eexists. split; [done|]. rewrite Er in Hr'. injection Hr' as <-.
      cbn. split; [done|lia].
    + rewrite lookup_insert_ne by done. exists r'. split; [done|]. split; [done|lia].
  - intros Hu. apply unique_tokens_insert; [|done]. intros k r' Hr' Hne Heq. apply Hne. by eapply Hu.
Qed.

(** *** The methods *)
Lemma grows_restore s s' : grows_w s (restore s s').
Proof. apply grows_outbox. Qed.

Lemma stays_transaction {A} bm cm (body : M World (outcome A)) :
  stays grows_w body → stays grows_w (transaction bm cm body).
Proof.
  intros Hbody fs s. apply (transaction_inv _ _ _ (grows_w s)); [reflexivity|apply grows_restore|].
  intros fs1 a fs2 s' E. specialize (Hbody fs1 s). unfold state_after in Hbody. by rewrite E in Hbody.
Qed.

Ltac stays_chain :=
  repeat first
    [ apply stays_allocate | apply stays_insertOutbox | apply stays_insertOutboxes
    | apply stays_transaction
    | apply stays_bind; [apply _| |intros ?]
    | apply stays_wrapM | apply stays_on_error | apply stays_replace_error
    | apply stays_ret; apply _ | apply stays_throw; apply _ | apply stays_lift; apply _
    | apply stays_query; apply _
    | progress case_match ].

Lemma stays_RecordEvents company interview count now build :
  stays grows_w (RecordEvents company interview count now build).
Proof. unfold RecordEvents, record_events_body. stays_chain. Qed.

Lemma stays_RecordDiff company session interview cs now build :
  stays grows_w (RecordDiff company session interview cs now build).
Proof.
  unfold RecordDiff, record_diff_body. stays_chain. apply grows_sql. intros. by eapply grows_advance_diff.
Qed.

Lemma stays_StartSession hash params now build : stays grows_w (StartSession hash params now build).
Proof.
  unfold StartSession, start_session_body. stays_chain; apply grows_sql; intros.
  - by eapply grows_consume.
  - eapply grows_advance; [|done]. lia.
  - by eapply grows_insert_session.
Qed.

Lemma stays_SaveScore score now build : stays grows_w (SaveScore score now build).
Proof.
  unfold SaveScore, save_score_body, ScoreExists. stays_chain; apply grows_sql; intros.
  - by eapply grows_insert_score.
  - by simplify_eq.
Qed.

Lemma stays_Drain locked limit : stays grows_w (Drain locked limit publish).
Proof.
  unfold Drain, drain_body. stays_chain.
  { apply stays_batch; [apply _|]. intros ms s. unfold grows_w. cbn. reflexivity. }
  apply grows_sql. intros t u t' [= _ <-]. apply grows_outbox.
Qed.

(** Any write of the session flow, whatever fails in it. *)
Inductive store_op (s : World) : World → Prop :=
  | op_events company interview count now build fs :
      store_op s (state_after (RecordEvents company interview count now build) fs s)
  | op_diff company session interview cs now build fs :
      store_op s (state_after (RecordDiff company session interview cs now build) fs s)
  | op_start hash params now build fs :
      store_op s (state_after (StartSession hash params now build) fs s)
  | op_score score now build fs :
      store_op s (state_after (SaveScore score now build) fs s)
  | op_drain locked limit fs :
      store_op s (state_after (Drain locked limit publish) fs s).

Lemma store_history_grows s s' : rtc store_op s s' → grows_w s s'.
Proof.
  induction 1 as [|s1 s2 s3 Hop _ IH]; [reflexivity|]. etrans; [|exact IH]. destruct Hop.
  - apply stays_RecordEvents.
  - apply stays_RecordDiff.
  - apply stays_StartSession.
  - apply stays_SaveScore.
  - apply stays_Drain.
Qed.

(** *** Effects *)

(** Nothing of the database changed but the sequence of [event_outbox]. *)
Definition unchanged (s s' : World) : Prop :=
  log s' = log s ∧ tables s' = set_outbox id (t_outbox_id (tables s')) (tables s).

(** [count] numbers after the interview's last were reserved and the messages
    built from the first went to the outbox. *)
Definition recorded (company interview : UUID) (count now : Z) (build : Z → result (list Message))
    (first : Z) (s s' : World) : Prop :=
  ∃ i ms, 1 ≤ count ∧ t_interviews (tables s) !! (company, interview) = Some i ∧
    Interview_PurgedAt i = None ∧ first = Interview_LastSequenceNumber i + 1 ∧ build first = Ok ms ∧
    s' = mkWorld
      (set_outbox (λ o, o ++ numbered (t_outbox_id (tables s)) ms)
        (t_outbox_id (tables s) + Z.of_nat (length ms))
        (set_interviews <[(company, interview) :=
           with_sequence i (Interview_LastSequenceNumber i + count) now]> (tables s))) (log s).

Lemma record_events_body_ok company interview count now build fs s first fs' s' :
  record_events_body company interview count now build fs s = (Ok (Commit first), fs', s') →
  sequences_ok (tables s) → recorded company interview count now build first s s'.
Proof.
  intros H Hok. unfold record_events_body in H. inv_M.
  match goal with H : allocateSequence _ _ _ _ _ _ = _ |- _ =>
    apply allocateSequence_ok in H as (i & Hc & Hi & Hp & -> & ->); [|done] end.
  match goal with H : insertOutboxes _ _ _ = _ |- _ => apply insertOutboxes_ok in H as -> end.
  eexists i, _. split_and!; done.
Qed.

(** A write that does not touch Kafka keeps the log. *)
Definition same_log (s s' : World) : Prop := log s = log s'.
#[export] Instance same_log_preorder : PreOrder same_log.
Proof. split; [done|]. intros ???. apply eq_trans. Qed.
Lemma same_log_sql {A} (f : Tables → result (A * Tables)) : stays same_log (sql f).
Proof. apply stays_stmt; [apply _|]. by intros s a s' ([??] & _ & [= _ <-])%bind_ok. Qed.
Ltac log_chain :=
  repeat first
    [ apply same_log_sql | apply stays_bind; [apply _| |intros ?]
    | apply stays_wrapM | apply stays_on_error | apply stays_replace_error
    | apply stays_ret; apply _ | apply stays_throw; apply _ | apply stays_lift; apply _
    | apply stays_query; apply _ | progress case_match ].
Lemma same_log_allocate company interview count now :
  stays same_log (allocateSequence company interview count now).
Proof. unfold allocateSequence. log_chain. Qed.
Lemma same_log_outboxes ms : stays same_log (insertOutboxes ms).
Proof. induction ms as [|m ms IH]; cbn; [log_chain|]. unfold insertOutbox. apply stays_bind; [apply _|log_chain|done]. Qed.

(** A transaction over the database either leaves it alone or committed. *)
Lemma transaction_effect {A} bm cm (body : M World (outcome A)) fs s r fs' s' :
  transaction bm cm body fs s = (r, fs', s') → stays same_log body → commits_only body →
  (unchanged s s' ∧ is_ok r = false) ∨
  ∃ a fs1 fs2, body fs1 s = (Ok (Commit a), fs2, s') ∧ ∀ a', r = Ok a' → a' = a.
Proof.
  intros Ht Hlog Hno. apply transaction_cases in Ht as [[-> Hr]|[(fs1 & -> & Hr)|(fs1 & a & Hres & -> & Ha)]].
  - left. split; [|done]. split; [done|]. by destruct s as [[]?].
  - left. split.
    + split; cbn; [symmetry; apply Hlog|done].
    + destruct r as [a|]; [|done]. exfalso. by eapply Hno, Hr.
  - right. unfold result_of, state_after in *. destruct (body fs1 s) as [[r1 fs2] s2] eqn:E. cbn in Hres.
    subst r1. exists a, fs1, fs2. by rewrite E.
Qed.

Lemma RecordEvents_effect company interview count now build fs s r fs' s' :
  sequences_ok (tables s) →
  RecordEvents company interview count now build fs s = (r, fs', s') →
  (unchanged s s' ∧ is_ok r = false) ∨
  ∃ first, recorded company interview count now build first s s' ∧ ∀ n, r = Ok n → n = first.
Proof.
  intros Hok H. apply transaction_effect in H as [?|(first & fs1 & fs2 & Hbody & Hr)].
  - by left.
  - right. exists first. split; [|done]. by eapply record_events_body_ok.
  - unfold record_events_body. apply stays_bind; [apply _|apply same_log_allocate|intros ?].
    apply stays_bind; [apply _|log_chain|intros ?].
    apply stays_bind; [apply _|apply same_log_outboxes|intros ?]. log_chain.
  - unfold record_events_body. solve_commits.
Qed.

Lemma RecordEvents_bound company interview count now build fs s n fs' s' :
  RecordEvents company interview count now build fs s = (Ok n, fs', s') → sequences_ok (tables s) →
  1 ≤ n ∧ n + count - 1 ≤ max_int64.
Proof.
  intros H Hok. unfold RecordEvents in H.
  apply transaction_committed in H as (fs1 & fs2 & Hb); [|unfold record_events_body; solve_commits].
  unfold record_events_body in Hb. inv_M.
  match goal with H : allocateSequence _ _ _ _ _ _ = _ |- _ =>
    pose proof H as Ha; apply allocateSequence_ok in H as (i & Hc & Hi & _ & -> & _); [|done] end.
  unfold allocateSequence in Ha. destruct (count <? 1); [inv_M|]. inv_store.
  match goal with H : advance_sequence _ _ _ _ _ = _ |- _ =>
    apply advance_sequence_ok in H as (i' & Hi' & _ & -> & Hle & _) end.
  simplify_eq. pose proof (Hok _ _ Hi). cbn in *. lia.
Qed.

(** ** Properties *)

(** Recording events is all or nothing.  Whatever fails, [RecordEvents]
    either leaves the database as it was (but for the outbox id sequence), or
    reserves exactly the [count] numbers after the interview's last one and
    writes exactly the built messages; it reports success, with the first
    reserved number, only in the second case. *)
Theorem RecordEvents_all_or_nothing company interview count now build fs s r fs' s' :
  sequences_ok (tables s) →
  RecordEvents company interview count now build fs s = (r, fs', s') →
  (unchanged s s' ∧ is_ok r = false) ∨
  ∃ first, recorded company interview count now build first s s' ∧ ∀ n, r = Ok n → n = first.
Proof. apply RecordEvents_effect. Qed.

(** *** Diffs *)
Lemma RecordDiff_ok company session interview cs now build fs s n fs' s' :
  RecordDiff company session interview cs now build fs s = (Ok n, fs', s') → sequences_ok (tables s) →
  ∃ r i, t_sessions (tables s) !! (company, session) = Some r ∧ last_diff_sequence r < cs ∧
    Session_InterviewID (row_session r) = Some interview ∧
    t_sessions (tables s') !! (company, session) = Some (mkSessionRow (row_session r) cs) ∧
    t_interviews (tables s) !! (company, interview) = Some i ∧
    n = Interview_LastSequenceNumber i + 1 ∧
    t_interviews (tables s') !! (company, interview) = Some (with_sequence i n now).
Proof.
  intros H Hok. unfold RecordDiff in H.
  apply transaction_committed in H as (fs1 & fs2 & Hb); [|unfold record_diff_body; solve_commits].
  unfold record_diff_body in Hb. inv_store. destruct (negb _) eqn:Ea; [inv_M|]. bool_prop. subst. inv_store.
  match goal with H : advance_diff _ _ _ _ _ = _ |- _ => unfold advance_diff in H end.
  destruct (t_sessions (tables s) !! (company, session)) as [r|] eqn:Er; [|done].
  destruct (_ && _) eqn:E; [|done]. bool_prop. simplify_eq/=.
  match goal with H : allocateSequence _ _ _ _ _ _ = _ |- _ =>
    apply allocateSequence_ok in H as (i & Hc & Hi & Hp & -> & ->); [|done] end.
  match goal with H : insertOutbox _ _ _ = _ |- _ => apply insertOutbox_ok in H as -> end.
  cbn in *. exists r, i. split_and!; try done; by rewrite lookup_insert_eq.
Qed.

(** C2: code diffs are accepted in order.  If two diffs of a session are
    accepted, with any writes of the session flow in between - other diffs,
    events, scores, relays, anything failing anywhere - the later one has the
    larger client sequence and the larger event sequence number.  So a
    resent or late diff is never accepted twice. *)
Theorem diffs_accepted_in_order company session interview cs1 cs2 now1 now2 build1 build2
    fs1 fs2 s s1 s2 s3 n1 n2 fs1' fs2' :
  sequences_ok (tables s) →
  RecordDiff company session interview cs1 now1 build1 fs1 s = (Ok n1, fs1', s1) →
  rtc store_op s1 s2 →
  RecordDiff company session interview cs2 now2 build2 fs2 s2 = (Ok n2, fs2', s3) →
  cs1 < cs2 ∧ n1 < n2.
Proof.
  intros Hok H1 Hhist%store_history_grows H2.
  assert (Hgrow1 : grows_w s s1).
  { pose proof (stays_RecordDiff company session interview cs1 now1 build1 fs1 s) as Hs.
    unfold state_after in Hs. by rewrite H1 in Hs. }
  assert (Hok2 : sequences_ok (tables s2)) by by apply Hhist, Hgrow1.
  apply RecordDiff_ok in H1 as (r1 & i1 & _ & _ & _ & Hr1 & _ & -> & Hi1); [|done].
  apply RecordDiff_ok in H2 as (r2 & i2 & Hr2 & Hlt & _ & _ & Hi2 & -> & _); [|done].
  destruct (grow_session _ _ Hhist _ _ Hr1) as (r & Hr & _ & Hle).
  destruct (grow_interview _ _ Hhist _ _ Hi1) as (i & Hi & Hile & _).
  simplify_eq/=. lia.
Qed.

(** *** Invites *)

(** [invites_token_hash_idx]: a token hash names one invite. *)
Definition unique_hashes (t : Tables) : Prop := ∀ k1 k2 i1 i2,
  t_invites t !! k1 = Some i1 → t_invites t !! k2 = Some i2 →
  Invite_TokenHash i1 = Invite_TokenHash i2 → k1 = k2.

Lemma consume_invite_ok hash now t ids t' :
  consume_invite hash now t = Ok (ids, t') →
  ∃ k i interview, t_invites t !! k = Some i ∧ Invite_TokenHash i = hash ∧
    Invite_AcceptedAt i = None ∧ now < Invite_ExpiresAt i ∧ Invite_InterviewID i = Some interview ∧
    ids = (Invite_ID i, Invite_CompanyID i, interview) ∧ t' = set_invites <[k := accept now i]> t.
Proof.
  unfold consume_invite. destruct (find _ _) as [[k i]|] eqn:E; [|done].
  apply find_some in E as [Hin Hc]. apply list_elem_of_In, elem_of_map_to_list in Hin.
  destruct (Invite_InterviewID i) as [interview|] eqn:Ei; [|done]. intros [= <- <-].
  cbn in Hc. unfold consumable, after in Hc. bool_prop. exists k, i, interview. by split_and!.
Qed.

Lemma StartSession_ok hash params now build fs s started fs' s' :
  StartSession hash params now build fs s = (Ok started, fs', s') →
  ∃ k i interview, t_invites (tables s) !! k = Some i ∧ Invite_TokenHash i = hash ∧
    Invite_AcceptedAt i = None ∧ now < Invite_ExpiresAt i ∧
    Invite_InterviewID i = Some interview ∧
    t_invites (tables s') !! k = Some (accept now i) ∧
    Session_State (Started_Session started) = SessionStateActive ∧
    Session_CompanyID (Started_Session started) = Invite_CompanyID i ∧
    Session_InterviewID (Started_Session started) = Some interview ∧
    Session_UserID (Started_Session started) = None ∧
    t_sessions (tables s') !! (Invite_CompanyID i, Start_SessionID params) =
      Some (mkSessionRow (Started_Session started) 0) ∧
    Started_Session started = mkSession (Start_SessionID params) (Invite_CompanyID i) None (Some interview)
      SessionStateActive (Start_TokenHash params) (Start_ExpiresAt params) None now None.
Proof.
  intros H. unfold StartSession in H.
  apply transaction_committed in H as (fs1 & fs2 & Hb); [|unfold start_session_body; solve_commits].
  unfold start_session_body in Hb. inv_store.
  match goal with H : consume_invite _ _ _ = Ok _ |- _ =>
    apply consume_invite_ok in H as (k & i & interview & Hi & Hh & Ha & He & Hint & -> & ->) end.
  inv_store.
  match goal with H : advance_sequence _ _ _ _ _ = _ |- _ =>
    apply advance_sequence_ok in H as (iv & _ & _ & -> & _ & ->) end.
  match goal with H : insert_session _ _ = _ |- _ => unfold insert_session in H end.
  destruct (_ && _) eqn:E; [|done]. simplify_eq/=.
  match goal with H : insertOutbox _ _ _ = _ |- _ => apply insertOutbox_ok in H as -> end.
  cbn. exists k, i, interview. by split_and!; rewrite ?lookup_insert_eq.
Qed.

(** C13: an invite is exchanged once.  After a successful exchange - which
    needs an invite bound to an interview, not yet accepted and not expired,
    and leaves one active candidate session for it - no later exchange of the
    same token succeeds or changes anything, whatever the session flow did in
    between. *)
Theorem invite_single_use hash params1 params2 now1 now2 build1 build2 fs1 fs2 s s1 s2 s3
    started fs1' fs2' r :
  unique_hashes (tables s) →
  StartSession hash params1 now1 build1 fs1 s = (Ok started, fs1', s1) →
  rtc store_op s1 s2 →
  StartSession hash params2 now2 build2 fs2 s2 = (r, fs2', s3) →
  Session_State (Started_Session started) = SessionStateActive ∧
  IsCandidate (Started_Session started) = true ∧
  is_ok r = false ∧ unchanged s2 s3.
Proof.
  intros Huniq H1 Hhist%store_history_grows H2.
  assert (Hgrow1 : grows_w s s1).
  { pose proof (stays_StartSession hash params1 now1 build1 fs1 s) as Hs.
    unfold state_after in Hs. by rewrite H1 in Hs. }
  apply StartSession_ok in H1 as (k & i & interview & Hi & Hh & _ & _ & _ & Hacc & Hact & _ & Hint & _).
  split; [done|]. split; [unfold IsCandidate; rewrite Hint; by apply bool_decide_eq_true_2|].
  apply transaction_effect in H2 as [[Hun Hr]|(a & fs3 & fs4 & Hb & _)]; [done| | |].
  - exfalso. unfold start_session_body in Hb. inv_store.
    match goal with H : consume_invite _ _ _ = Ok _ |- _ =>
      apply consume_invite_ok in H as (k2 & i2 & interview2 & Hi2 & Hh2 & Ha2 & _) end.
    destruct (grow_invite _ _ Hhist _ _ Hi2) as (i1 & Hi1 & Hh1 & Ha1).
    destruct (grow_invite _ _ Hgrow1 _ _ Hi1) as (i0 & Hi0 & Hh0 & _).
    assert (k = k2) as -> by (eapply Huniq; [exact Hi|exact Hi0|congruence]).
    specialize (Ha1 Ha2). rewrite Hacc in Hi1. by simplify_eq.
  - unfold start_session_body. log_chain.
  - unfold start_session_body. solve_commits.
Qed.

Lemma in_world_ok {S A} `{HasWorld S} (m : M World A) fs (s : S) a fs' s' :
  in_world m fs s = (Ok a, fs', s') → ∃ w, m fs (world s) = (Ok a, fs', w) ∧ world s' = w.
Proof.
  unfold in_world. destruct (m fs (world s)) as [[r fs1] w]. intros [= -> -> <-]. exists w. by rewrite world_with.
Qed.

(** *** Scores *)
Lemma insert_score_ok x t b t' :
  insert_score x t = Ok (b, t') →
  if b then t_scores t !! (Score_CompanyID x, Score_SessionID x) = None ∧
    t' = set_scores <[(Score_CompanyID x, Score_SessionID x) := x]> t
  else t' = t.
Proof.
  unfold insert_score. destruct (_ !! _) as [i|]; [|by intros [= <- <-]].
  destruct (negb _); [by intros [= <- <-]|]. case_bool_decide as Ex; [by intros [= <- <-]|].
  destruct (negb _); [done|]. case_bool_decide; [|done]. intros [= <- <-].
  split; [|done]. by apply eq_None_not_Some.
Qed.

Lemma save_score_body_ok score now build fs s o fs' s' :
  save_score_body score now build fs s = (Ok o, fs', s') → sequences_ok (tables s) →
  (o = Rolled false ∧ tables s' = tables s ∧
   is_Some (t_scores (tables s) !! (Score_CompanyID score, Score_SessionID score))) ∨
  (o = Commit true ∧
   t_scores (tables s) !! (Score_CompanyID score, Score_SessionID score) = None ∧
   t_scores (tables s') !! (Score_CompanyID score, Score_SessionID score) = Some score ∧
   ∃ i m, t_interviews (tables s) !! (Score_CompanyID score, Score_InterviewID score) = Some i ∧
     Interview_PurgedAt i = None ∧ build (Interview_LastSequenceNumber i + 1) = Ok m ∧
     t_outbox (tables s') = t_outbox (tables s) ++ numbered (t_outbox_id (tables s)) [m]).
Proof.
  intros H Hok. unfold save_score_body in H. inv_store.
  match goal with H : insert_score _ _ = Ok (?b, _) |- _ => apply insert_score_ok in H; destruct b end.
  - destruct_and?. subst. cbn [negb] in *. inv_store.
    match goal with H : allocateSequence _ _ _ _ _ _ = _ |- _ =>
      apply allocateSequence_ok in H as (i & Hc & Hi & Hp & -> & ->); [|done] end.
    match goal with H : insertOutbox _ _ _ = _ |- _ => apply insertOutbox_ok in H as -> end.
    right. cbn in *. split_and!; [done|done|by rewrite lookup_insert_eq|]. eexists i, _. by split_and!.
  - cbn [negb] in *. subst. unfold ScoreExists in *. inv_store.
    match goal with H : (if ?b then _ else _) _ _ = _ |- _ => destruct b eqn:Eb; inv_M end.
    simplify_eq/=. case_bool_decide; [|done]. left. by split_and!.
Qed.

(** [SaveScore] leaves a score of the session behind: its own if it answers
    [true], and then there was none before. *)
Lemma SaveScore_ok score now build fs s b fs' s' :
  SaveScore score now build fs s = (Ok b, fs', s') → sequences_ok (tables s) →
  let key := (Score_CompanyID score, Score_SessionID score) in
  if b then t_scores (tables s) !! key = None ∧ t_scores (tables s') !! key = Some score
  else is_Some (t_scores (tables s') !! key).
Proof.
  unfold SaveScore. intros [[_ ?]|[(fs1 & -> & Hr)|(fs1 & a & Hres & -> & Ha)]]%transaction_cases Hok; [done| |].
  - specialize (Hr b eq_refl). unfold result_of in Hr.
    destruct (save_score_body _ _ _ _ _) as [[r1 fs2] s2] eqn:E. cbn in Hr. subst r1.
    apply save_score_body_ok in E as [([= ->] & _ & Hx)|([=] & _)]; [exact Hx|done].
  - unfold result_of, state_after in *. destruct (save_score_body _ _ _ _ _) as [[r1 fs2] s2] eqn:E. cbn in *. subst r1.
    specialize (Ha b eq_refl) as ->. apply save_score_body_ok in E as [([=] & _)|([= ->] & Hn & Hs & _)]; [|done]. done.
Qed.

Lemma GetScore_stored company session score s :
  t_scores (tables s) !! (company, session) = Some score → result_of (GetScore company session) [] s = Ok (read_score score).
Proof. intros Hs. unfold result_of, GetScore, wrapM, sql, stmt, select_score. by rewrite Hs. Qed.

(** C12: a session is scored once.  [SaveScore] reports [true] exactly when it
    stored the score of a session that had none, in an interview not purged,
    together with one outbox message carrying the interview's next number;
    afterwards, whatever the session flow does, saving a score of that
    session never inserts again, the stored score stays as it was and is what
    [GetScore] reads. *)
Theorem score_saved_once score score' now1 now2 build1 build2 fs1 fs2 s s1 s2 s3 fs1' fs2' r :
  sequences_ok (tables s) →
  SaveScore score now1 build1 fs1 s = (Ok true, fs1', s1) →
  rtc store_op s1 s2 →
  Score_CompanyID score' = Score_CompanyID score → Score_SessionID score' = Score_SessionID score →
  SaveScore score' now2 build2 fs2 s2 = (r, fs2', s3) →
  (∃ i m, t_interviews (tables s) !! (Score_CompanyID score, Score_InterviewID score) = Some i ∧
     Interview_PurgedAt i = None ∧ build1 (Interview_LastSequenceNumber i + 1) = Ok m ∧
     t_outbox (tables s1) = t_outbox (tables s) ++ numbered (t_outbox_id (tables s)) [m]) ∧
  r ≠ Ok true ∧
  t_scores (tables s3) !! (Score_CompanyID score, Score_SessionID score) = Some score ∧
  result_of (GetScore (Score_CompanyID score) (Score_SessionID score)) [] s3 = Ok (read_score score).
Proof.
  intros Hok H1 Hhist%store_history_grows Ec Es H2.
  assert (Hgrow1 : grows_w s s1).
  { pose proof (stays_SaveScore score now1 build1 fs1 s) as Hs. unfold state_after in Hs. by rewrite H1 in Hs. }
  assert (Hgrow2 : grows_w s2 s3).
  { pose proof (stays_SaveScore score' now2 build2 fs2 s2) as Hs. unfold state_after in Hs. by rewrite H2 in Hs. }
  unfold SaveScore in H1.
  apply transaction_cases in H1 as [[_ ?]|[(fs3 & _ & Hr)|(fs3 & a & Hres & -> & Ha)]]; [done| |].
  { specialize (Hr true eq_refl). unfold result_of in Hr.
    destruct (save_score_body _ _ _ _ _) as [[r1 fs4] s4] eqn:E. cbn in Hr. subst r1.
    apply save_score_body_ok in E as [[[=] _]|[[=] _]]; done. }
  unfold result_of, state_after in *.
  destruct (save_score_body _ _ _ _ _) as [[r1 fs4] s4] eqn:E. cbn in Hres, Hgrow1, Hhist |- *. subst r1.
  apply save_score_body_ok in E as [[[=] _]|(_ & _ & Hstored & Hmsg)]; [|done].
  assert (Hs2 : t_scores (tables s2) !! (Score_CompanyID score, Score_SessionID score) = Some score)
    by by apply Hhist.
  assert (Hok2 : sequences_ok (tables s2)) by by apply Hhist, Hgrow1.
  assert (Hs3 : t_scores (tables s3) !! (Score_CompanyID score, Score_SessionID score) = Some score) by by apply Hgrow2.
  split; [done|]. split; [|split; [done|by apply GetScore_stored]]. intros ->. unfold SaveScore in H2.
  apply transaction_cases in H2 as [[_ ?]|[(fs5 & _ & Hr)|(fs5 & a2 & Hres2 & -> & Ha2)]]; [done| |].
  - specialize (Hr true eq_refl). unfold result_of in Hr.
    destruct (save_score_body _ _ _ _ s2) as [[r2 fs6] s6] eqn:E2. cbn in Hr. subst r2.
    apply save_score_body_ok in E2 as [[[=] _]|[[=] _]]; done.
  - unfold result_of in Hres2.
    destruct (save_score_body _ _ _ _ s2) as [[r2 fs6] s6] eqn:E2. cbn in Hres2. subst r2.
    apply save_score_body_ok in E2 as [[[=] _]|(_ & Hn & _)]; [|done].
    rewrite Ec, Es in Hn. congruence.
Qed.

(** *** The outbox and its relay *)

(** Rows in id order, no id beyond the sequence. *)
Definition id_lt (a b : Message) : Prop := Message_ID a < Message_ID b.
Definition outbox_ok (t : Tables) : Prop :=
  StronglySorted id_lt (t_outbox t) ∧ Forall (λ m, Message_ID m ≤ t_outbox_id t) (t_outbox t).

(** No message is lost: a row leaves the outbox only once its record is in the
    Kafka log. *)
Record keeps_messages (s s' : World) : Prop := {
  keep_ids : t_outbox_id (tables s) ≤ t_outbox_id (tables s');
  keep_order : outbox_ok (tables s) → outbox_ok (tables s');
  keep_log : log s `prefix_of` log s';
  keep_message : outbox_ok (tables s) → ∀ m, m ∈ t_outbox (tables s) →
    m ∈ t_outbox (tables s') ∨ record_of m ∈ log s';
}.

Lemma prefix_elem {A} (l l' : list A) x : l `prefix_of` l' → x ∈ l → x ∈ l'.
Proof. intros [k ->] Hx. apply elem_of_app. by left. Qed.

#[export] Instance keeps_messages_preorder : PreOrder keeps_messages.
Proof.
  split; [split; [lia|done|done|by left]|].
  intros s1 s2 s3 [I1 O1 L1 M1] [I2 O2 L2 M2]. split; [lia|auto|by etrans|].
  intros Hok m [Hm|Hm]%M1; [auto| |done]. right. by eapply prefix_elem.
Qed.

Lemma outbox_ok_ids t id' :
  outbox_ok t → t_outbox_id t ≤ id' → outbox_ok (set_outbox id id' t).
Proof.
  intros [Hs Hid] Hle. split; [done|]. cbn. eapply Forall_impl; [exact Hid|]. cbn. lia.
Qed.

Lemma keeps_messages_restore s s' : keeps_messages s s' → keeps_messages s (restore s s').
Proof.
  intros [I O L M]. split; cbn; [done| |done|by left]. intros Hok. by apply outbox_ok_ids.
Qed.

(** A statement that leaves the outbox alone. *)
Lemma keeps_sql {A} (f : Tables → result (A * Tables)) :
  (∀ t a t', f t = Ok (a, t') → t_outbox t' = t_outbox t ∧ t_outbox_id t' = t_outbox_id t) →
  stays keeps_messages (sql f).
Proof.
  intros Hf. apply stays_stmt; [apply _|]. intros s a s' ([a' t] & Ht & [= _ <-])%bind_ok.
  destruct (Hf _ _ _ Ht) as [E1 E2].
  split; cbn; [lia| |done|rewrite E1; by left]. unfold outbox_ok. by rewrite E1, E2.
Qed.

Lemma keeps_insertOutbox m : stays keeps_messages (insertOutbox m).
Proof.
  apply stays_wrapM, stays_stmt; [apply _|]. intros s a s' ([a' t] & Ht & [= _ <-])%bind_ok.
  unfold insert_outbox_row in Ht. destruct (_ && _); [|done]. simplify_eq/=.
  split; cbn; [lia| |done|intros m' Hm; left; apply elem_of_app; by left].
  intros [Hs Hid]. split; cbn.
  - apply StronglySorted_app_2; [|done|repeat constructor].
    intros x y Hx ->%list_elem_of_singleton. rewrite Forall_forall in Hid. specialize (Hid x Hx).
    unfold id_lt. cbn. lia.
  - apply Forall_app. split; [eapply Forall_impl; [exact Hid|cbn; lia]|]. repeat constructor. cbn. lia.
Qed.

Lemma keeps_allocate company interview count now :
  stays keeps_messages (allocateSequence company interview count now).
Proof.
  unfold allocateSequence. destruct (count <? 1); [apply stays_throw; apply _|].
  apply stays_bind; [apply _| |intros; apply stays_ret; apply _].
  apply stays_on_error, keeps_sql. by intros t a t' (i & _ & _ & _ & _ & ->)%advance_sequence_ok.
Qed.

Lemma keeps_insertOutboxes ms : stays keeps_messages (insertOutboxes ms).
Proof.
  induction ms as [|m ms IH]; cbn; [apply stays_ret; apply _|].
  apply stays_bind; [apply _|apply keeps_insertOutbox|done].
Qed.

Ltac keeps_chain :=
  repeat first
    [ apply keeps_allocate | apply keeps_insertOutbox | apply keeps_insertOutboxes
    | apply (stays_rollback keeps_messages); [|apply keeps_messages_restore]
    | apply stays_bind; [apply _| |intros ?]
    | apply stays_wrapM | apply stays_on_error | apply stays_replace_error
    | apply stays_ret; apply _ | apply stays_throw; apply _ | apply stays_lift; apply _
    | apply stays_query; apply _
    | progress case_match ].

Lemma keeps_writes s s' :
  store_op s s' → (∃ locked limit fs, s' = state_after (Drain locked limit publish) fs s) ∨
  keeps_messages s s'.
Proof.
  intros Hop. destruct Hop; [right..|left; eauto].
  - revert fs s. change (stays keeps_messages (RecordEvents company interview count now build)).
    unfold RecordEvents, record_events_body. keeps_chain.
  - revert fs s. change (stays keeps_messages (RecordDiff company session interview cs now build)).
    unfold RecordDiff, record_diff_body. keeps_chain. apply keeps_sql. unfold advance_diff.
    intros t1 res t1' E. repeat case_match; by simplify_eq.
  - revert fs s. change (stays keeps_messages (StartSession hash params now build)).
    unfold StartSession, start_session_body. keeps_chain; apply keeps_sql; intros t1 res t1' E.
    + by apply consume_invite_ok in E as (? & ? & ? & _ & _ & _ & _ & _ & _ & ->).
    + by apply advance_sequence_ok in E as (? & _ & _ & _ & _ & ->).
    + unfold insert_session in E. case_match; by simplify_eq.
  - revert fs s. change (stays keeps_messages (SaveScore score now build)).
    unfold SaveScore, save_score_body, ScoreExists. keeps_chain; apply keeps_sql; intros t1 res t1' E.
    + apply insert_score_ok in E. destruct res; [by destruct E as [_ ->]|by subst].
    + by simplify_eq.
Qed.

Lemma pending_prefix limit t : outbox_ok t → pending limit t `prefix_of` t_outbox t.
Proof.
  intros [Hs _]. unfold pending. rewrite sort_stable_id.
  - exists (drop (Z.to_nat limit) (t_outbox t)). by rewrite take_drop.
  - clear -Hs. induction Hs as [|m l Hl IH Hm]; constructor; [done|].
    eapply Forall_impl; [exact Hm|]. unfold not_less, id_lt. cbn. intros x Hx. by apply Z.ltb_ge; lia.
Qed.

(** Deleting the ids of a prefix deletes exactly the prefix. *)
Lemma delete_prefix l1 l2 :
  StronglySorted id_lt (l1 ++ l2) →
  List.filter (λ m, negb (bool_decide (Message_ID m ∈ map Message_ID l1))) (l1 ++ l2) = l2.
Proof.
  intros Hs. rewrite List.filter_app, filter_all_false, filter_all_true; [done|..].
  - apply Forall_forall. intros m Hm. apply negb_true_iff, bool_decide_eq_false.
    intros (m1 & E & Hm1)%list_elem_of_fmap.
    pose proof (StronglySorted_app_1_elem_of _ _ _ _ _ Hs Hm1 Hm) as Hlt. unfold id_lt in Hlt. lia.
  - apply Forall_forall. intros m Hm. apply negb_false_iff, bool_decide_eq_true.
    apply list_elem_of_fmap. eauto.
Qed.

Lemma wrap_ok {A} msg (r : result A) a : wrap_err msg r = Ok a → r = Ok a.
Proof. by destruct r; intros [=->]. Qed.
Lemma is_ok_wrap {A} msg (r : result A) : is_ok (wrap_err msg r) = is_ok r.
Proof. by destruct r. Qed.

(** The body of [Drain], whatever fails. *)
Lemma drain_body_cases locked limit fs s r fs' s' :
  drain_body locked limit publish fs s = (r, fs', s') →
  let batch := pending limit (tables s) in
  ∃ written, log s' = log s ++ map record_of written ∧ written ⊆+ batch ∧
    (tables s' = tables s ∧
       (∀ o, r = Ok o → o = Rolled 0 ∧ written = [] ∧ (locked = false ∨ batch = [])) ∨
     written = batch ∧ tables s' = delete_outbox (map Message_ID batch) (tables s) ∧
       (∀ o, r = Ok o → o = Commit (Z.of_nat (length batch)) ∧ locked = true)).
Proof.
  intros H batch. unfold drain_body in H.
  apply bind_M_cases in H as [(lk & fs1 & s1 & Hl & H)|(e & Hl & ->)].
  2: { apply wrapM_cases in Hl as (r0 & [-> _]%query_cases & _). exists [].
       split_and!; [by rewrite app_nil_r|apply submseteq_nil_l|left; split; done]. }
  apply wrapM_cases in Hl as (r0 & [-> Hr0]%query_cases & E0). symmetry in E0. apply wrap_ok in E0. subst r0.
  destruct Hr0 as [[= ->]|]; [|done]. destruct locked; cbn [negb] in H.
  2: { injection H as <- <- <-. exists []. split; [by rewrite app_nil_r|]. split; [apply submseteq_nil_l|]. left. split; [done|].
       intros o [= <-]. split_and!; [done|done|by left]. }
  apply bind_M_cases in H as [(ms & fs2 & s2 & Hq & H)|(e & Hq & ->)].
  2: { apply wrapM_cases in Hq as (r0 & [-> _]%query_cases & _). exists [].
       split_and!; [by rewrite app_nil_r|apply submseteq_nil_l|left; split; done]. }
  apply wrapM_cases in Hq as (r0 & [-> Hr0]%query_cases & E0). symmetry in E0. apply wrap_ok in E0. subst r0.
  destruct Hr0 as [[= ->]|]; [|done]. fold batch in H. destruct batch as [|m ms] eqn:Eb.
  { injection H as <- <- <-. exists []. split; [by rewrite app_nil_r|]. split; [apply submseteq_nil_l|]. left. split; [done|].
    intros o [= <-]. split_and!; [done|done|by right]. }
  rewrite <-Eb in *.
  apply bind_M_cases in H as [(u & fs3 & s3 & Hp & H)|(e & Hp & ->)].
  2: { apply wrapM_cases in Hp as (r0 & Hb & _). apply batch_cases in Hb as (l & -> & Hl).
       - assert (∃ written, l = map record_of written ∧ written ⊆+ batch) as (written & -> & Hw).
         { destruct Hl as [->|(_ & kept & ->)]; [by exists batch|].
           exists (select kept batch). split; [by rewrite select_fmap|apply select_submseteq]. }
         exists written. split; [done|]. split; [done|]. left. split; done.
       - cbn. destruct s. by rewrite app_nil_r. }
  apply wrapM_cases in Hp as (r0 & Hb & E0). symmetry in E0. apply wrap_ok in E0. subst r0.
  apply batch_cases in Hb as (l & -> & [->|[? _]]); [|done|cbn; destruct s; by rewrite app_nil_r].
  exists batch.
  apply bind_M_cases in H as [(u2 & fs4 & s4 & Hd & H)|(e & Hd & ->)].
  - inv_store. injection H as <- <- <-. simplify_eq/=. split; [done|]. split; [done|]. right. split; [done|].
    split; [done|]. intros o [= <-]. done.
  - apply wrapM_cases in Hd as (r0 & Hd & E0). destruct r0 as [|e0]; [done|].
    apply exec_cases in Hd as [(? & ? & _)|[_ [->|(u3 & Hu)]]]; [done| |].
    + split; [done|]. split; [done|]. left. done.
    + apply bind_ok in Hu as ([??] & Hu & ?). simplify_eq/=. split; [done|]. split; [done|]. right. done.
Qed.

(** One [Drain], whatever fails: messages of the pending batch are appended
    to the log, each once; the rows stay, or the batch - all of it written, in
    id order - leaves the outbox. *)
Lemma Drain_cases locked limit fs s r fs' s' :
  Drain locked limit publish fs s = (r, fs', s') →
  let batch := pending limit (tables s) in
  ∃ written, log s' = log s ++ map record_of written ∧ written ⊆+ batch ∧
    (tables s' = tables s ∧
       (∀ k, r = Ok k → k = 0 ∧ written = [] ∧ (locked = false ∨ batch = [])) ∨
     written = batch ∧ tables s' = delete_outbox (map Message_ID batch) (tables s) ∧
       (∀ k, r = Ok k → k = Z.of_nat (length batch) ∧ locked = true)).
Proof.
  intros H batch. unfold Drain in H.
  apply transaction_cases in H as [[-> Hr]|[(fs1 & -> & Hr)|(fs1 & a & Hres & -> & Ha)]].
  - exists []. split; [by rewrite app_nil_r|]. split; [apply submseteq_nil_l|]. left. split; [done|]. by intros k ->.
  - unfold result_of, state_after in *. destruct (drain_body _ _ _ _ _) as [[r1 fs2] s2] eqn:E. cbn in *.
    apply drain_body_cases in E. cbv zeta in E. fold batch in E.
    destruct E as (n & Hlog & Hsub & [[Ht Ho]|(Hn & Ht & Ho)]); exists n; (split; [done|]); (split; [done|]); left;
      (split; [rewrite Ht; by destruct s as [[] ?]|]); intros k ->; specialize (Hr k eq_refl); subst r1.
    + destruct (Ho _ eq_refl) as ([= ->] & -> & Hc). done.
    + destruct (Ho _ eq_refl) as [[=] _].
  - unfold result_of, state_after in *. destruct (drain_body _ _ _ _ _) as [[r1 fs2] s2] eqn:E. cbn in *.
    subst r1. apply drain_body_cases in E. cbv zeta in E. fold batch in E.
    destruct E as (n & Hlog & Hsub & [[Ht Ho]|(Hn & Ht & Ho)]); destruct (Ho _ eq_refl) as [Eo ?];
      [done|injection Eo as ->]. exists n. split; [done|]. split; [done|]. right. split; [done|]. split; [done|].
    intros k Hk. by rewrite (Ha k Hk).
Qed.

Lemma delete_pending limit t :
  outbox_ok t →
  delete_outbox (map Message_ID (pending limit t)) t =
    set_outbox (drop (length (pending limit t))) (t_outbox_id t) t.
Proof.
  intros Hok. destruct (pending_prefix limit t Hok) as [rest E]. destruct Hok as [Hs _].
  set (p := pending limit t) in *. clearbody p. unfold delete_outbox, set_outbox.
  rewrite E in *. by rewrite delete_prefix, drop_app_length.
Qed.

Lemma removed_pending limit t : outbox_ok t →
  t_outbox t = pending limit t ++ t_outbox (delete_outbox (map Message_ID (pending limit t)) t).
Proof.
  intros Hok. rewrite delete_pending by done. destruct (pending_prefix limit t Hok) as [rest Er].
  cbn. rewrite Er at 1. f_equal. rewrite Er. by rewrite drop_app_length.
Qed.

Lemma keeps_Drain locked limit : stays keeps_messages (Drain locked limit publish).
Proof.
  intros fs s. destruct (Drain locked limit publish fs s) as [[r fs'] s'] eqn:E.
  unfold state_after. rewrite E. cbn.
  apply Drain_cases in E as (written & Hlog & _ & [[Ht _]|(-> & Ht & _)]).
  - split; rewrite ?Ht; [lia|done|by eexists|by left].
  - split; rewrite ?Ht.
    + done.
    + intros [Hs Hid]. split; cbn.
      * clear -Hs. induction Hs as [|m l Hl IH Hm]; cbn; [constructor|].
        destruct (negb _); [|done]. constructor; [done|].
        apply Forall_forall. intros x [Hx _]%elem_of_filter_bool. rewrite Forall_forall in Hm. auto.
      * apply Forall_forall. intros x [Hx _]%elem_of_filter_bool. rewrite Forall_forall in Hid. auto.
    + by eexists.
    + intros Hok m Hm. rewrite delete_pending by done.
      destruct (pending_prefix limit (tables s) Hok) as [rest Er].
      set (p := pending limit (tables s)) in *. clearbody p. cbn. rewrite Er in Hm |- *.
      rewrite drop_app_length. apply elem_of_app in Hm as [Hm|Hm]; [right|by left].
      rewrite Hlog. apply elem_of_app. right. apply list_elem_of_fmap. eauto.
Qed.

Lemma store_history_keeps s s' : rtc store_op s s' → keeps_messages s s'.
Proof.
  induction 1 as [|s1 s2 s3 Hop _ IH]; [reflexivity|]. etrans; [|exact IH].
  apply keeps_writes in Hop as [(locked & limit & fs & ->)|Hk]; [apply keeps_Drain|done].
Qed.

(** C1: the outbox loses nothing.  Through any history of session writes and
    relays, with anything failing anywhere, every message written to the
    outbox is still there or has been written to Kafka, whose log only grows.
    A single [Drain] takes a first part of the outbox, in the order the
    messages were written.  It appends to Kafka only messages of that batch -
    any part of it, when the write fails - and removes rows only when the whole
    batch was appended, in order, and then exactly that batch; a [Drain] that
    reports success removed exactly what it appended, and returns its number. *)
Theorem outbox_at_least_once s s1 s2 locked limit fs r fs' :
  outbox_ok (tables s) → rtc store_op s s1 →
  Drain locked limit publish fs s1 = (r, fs', s2) →
  (∀ m, m ∈ t_outbox (tables s) → m ∈ t_outbox (tables s1) ∨ record_of m ∈ log s1) ∧
  log s `prefix_of` log s1 ∧ StronglySorted id_lt (t_outbox (tables s1)) ∧
  ∃ batch written, batch `prefix_of` t_outbox (tables s1) ∧ written ⊆+ batch ∧
    log s2 = log s1 ++ map record_of written ∧
    (t_outbox (tables s2) = t_outbox (tables s1) ∨
     written = batch ∧ t_outbox (tables s1) = batch ++ t_outbox (tables s2)) ∧
    (∀ k, r = Ok k → k = Z.of_nat (length written) ∧ t_outbox (tables s1) = written ++ t_outbox (tables s2)).
Proof.
  intros Hok Hhist%store_history_keeps H.
  assert (Hok1 : outbox_ok (tables s1)) by by apply Hhist.
  split; [by apply Hhist|]. split; [apply Hhist|]. split; [apply Hok1|].
  pose proof (pending_prefix limit (tables s1) Hok1) as Hpre.
  apply Drain_cases in H as (written & Hlog & Hsub & [[Ht Hr]|(-> & Ht & Hr)]);
    exists (pending limit (tables s1)), written || exists (pending limit (tables s1)), (pending limit (tables s1));
    split_and!; try done.
  - left. by rewrite Ht.
  - intros k Hk. destruct (Hr k Hk) as (-> & -> & _). by rewrite Ht.
  - right. split; [done|]. rewrite Ht. by apply removed_pending.
  - intros k Hk. destruct (Hr k Hk) as [-> _]. split; [done|]. rewrite Ht. by apply removed_pending.
Qed.

(** Fault-free turns of the relay. *)
Lemma pending_take limit t : outbox_ok t → pending limit t = take (Z.to_nat limit) (t_outbox t).
Proof.
  intros [Hs _]. unfold pending. rewrite sort_stable_id; [done|].
  clear -Hs. induction Hs as [|m l Hl IH Hm]; constructor; [done|].
  eapply Forall_impl; [exact Hm|]. unfold not_less, id_lt. cbn. intros x Hx. by apply Z.ltb_ge; lia.
Qed.

Lemma Drain_fault_free limit s :
  outbox_ok (tables s) →
  let batch := take (Z.to_nat limit) (t_outbox (tables s)) in
  Drain true limit publish [] s =
    (Ok (Z.of_nat (length batch)), [],
     mkWorld (set_outbox (drop (length batch)) (t_outbox_id (tables s)) (tables s))
       (log s ++ map record_of batch)).
Proof.
  intros Hok batch. pose proof (pending_take limit (tables s) Hok) as Hp. fold batch in Hp.
  pose proof (delete_pending limit (tables s) Hok) as Hd. rewrite Hp in Hd.
  unfold Drain, transaction, drain_body. unfold mbind, M_bind.
  cbn -[pending delete_outbox batch]. rewrite Hp.
  destruct batch as [|m ms] eqn:Eb.
  - cbn. rewrite app_nil_r. unfold restore, World_rollback. by destruct s as [[] ?].
  - rewrite <-Eb in *. cbn -[delete_outbox batch]. by rewrite Hd.
Qed.

(** An undisturbed relay empties the outbox.  When no statement fails and
    no other relay holds the lock, running the relay for as many turns as it
    takes batches to cover the pending rows leaves the outbox empty and the
    Kafka log extended by exactly the pending messages, once each, in order;
    it waits only when a batch was not full. *)
Theorem relay_empties_outbox config s n :
  outbox_ok (tables s) → NewRelay config = Ok () →
  Z.of_nat (length (t_outbox (tables s))) ≤ Z.of_nat n * BatchSize config →
  let '(turns, s') := Run config (Drain true) (replicate n (false, [])) s in
  t_outbox (tables s') = [] ∧ log s' = log s ++ map record_of (t_outbox (tables s)) ∧
  length turns = n ∧ Forall (λ t, t = Again ∨ t = Wait None) turns.
Proof.
  intros Hok Hc. assert (0 < BatchSize config) as Hb.
  { unfold NewRelay in Hc. destruct (_ || _) eqn:E; [done|]. by bool_prop. }
  revert s Hok. induction n as [|n IH]; intros s Hok Hlen; cbn [replicate Run].
  { assert (t_outbox (tables s) = []) as -> by (apply nil_length_inv; lia).
    cbn. by rewrite app_nil_r. }
  unfold relay_turn. rewrite (Drain_fault_free _ _ Hok). cbn [negb].
  set (batch := take (Z.to_nat (BatchSize config)) (t_outbox (tables s))).
  set (s1 := mkWorld _ _).
  assert (Hok1 : outbox_ok (tables s1)).
  { pose proof (keeps_Drain true (BatchSize config) [] s) as K. unfold state_after in K.
    rewrite (Drain_fault_free _ _ Hok) in K. by apply K. }
  assert (Hbatch : batch = take (length batch) (t_outbox (tables s))).
  { unfold batch. rewrite length_take, <-take_take. f_equal. by rewrite firstn_all. }
  assert (Hsplit : batch ++ drop (length batch) (t_outbox (tables s)) = t_outbox (tables s))
    by (rewrite Hbatch at 1; apply take_drop).
  specialize (IH s1 Hok1). cbn [tables t_outbox s1 set_outbox] in IH.
  rewrite length_drop in IH.
  assert (Hlb : length batch = (Z.to_nat (BatchSize config) `min` length (t_outbox (tables s)))%nat)
    by apply length_take.
  destruct (_ =? _); destruct (Run _ _ _ s1) as [ts s'];
    (destruct IH as (H1 & H2 & H3 & H4); [lia|]; cbn; split_and!; [done| |by f_equal|]; [|by constructor; auto]);
    rewrite H2; cbn [log s1]; rewrite <-app_assoc, <-map_app; do 2 f_equal; exact Hsplit.
Qed.

(** ** A worked example *)
Definition example_interview : Interview :=
  mkInterview 3%N 7%N None "Ada" "ada@example.org" InterviewStatusInProgress None None None false None 4 0 0.
Definition example_invite : Invite :=
  mkInvite 9%N 7%N (Some 3%N) None "ada@example.org" "candidate" "hash" (10 * hour) None 0.
Definition example_member : Session :=
  mkSession 5%N 7%N None (Some 3%N) SessionStateActive "token" (10 * hour) None 0 None.
Definition example_world : World := mkWorld (mkTables
  {[7%N := "managed"%string]} {[(7%N, 3%N) := example_interview]}
  {[(7%N, 5%N) := mkSessionRow example_member 2]} {[(7%N, 9%N) := example_invite]}
  ∅ ∅ ∅ [mkMessage 11 7%N "session-events" "k" "code.diff" None] 11) [].
Definition example_message (n : Z) : Message :=
  mkMessage 0 7%N "session-events" ("k" +:+ render_int n) "code.diff" None.
Definition example_build (n : Z) : result Message := Ok (example_message n).

Lemma example_sequences : sequences_ok (tables example_world).
Proof. apply map_Forall_singleton. vm_compute. discriminate. Qed.
Lemma example_outbox : outbox_ok (tables example_world).
Proof. split; repeat constructor. vm_compute. discriminate. Qed.
Lemma example_hashes : unique_hashes (tables example_world).
Proof.
  intros k1 k2 i1 i2. cbn. intros [<- _]%lookup_singleton_Some [<- _]%lookup_singleton_Some. done.
Qed.

Lemma RecordEvents_all_or_nothing_witness :
  let m := RecordEvents 7%N 3%N 2 100 (λ n, Ok [example_message n]) in
  recorded 7%N 3%N 2 100 (λ n, Ok [example_message n]) 5 example_world (state_after m [] example_world) ∧
  unchanged example_world (state_after m [Done; Done; Fault (Plain "x")] example_world).
Proof.
  cbv zeta. split.
  - destruct (RecordEvents_all_or_nothing 7%N 3%N 2 100 (λ n, Ok [example_message n]) [] example_world
      (Ok 5) [] (state_after (RecordEvents 7%N 3%N 2 100 (λ n, Ok [example_message n])) [] example_world))
      as [[_ H]|(first & H & E)];
      [exact example_sequences|vm_compute; reflexivity|discriminate H|].
    rewrite <-(E 5 eq_refl) in H. exact H.
  - destruct (RecordEvents_all_or_nothing 7%N 3%N 2 100 (λ n, Ok [example_message n])
      [Done; Done; Fault (Plain "x")] example_world (Err (Wrap "write outbox" (Plain "x"))) []
      (state_after (RecordEvents 7%N 3%N 2 100 (λ n, Ok [example_message n]))
        [Done; Done; Fault (Plain "x")] example_world)) as [[H _]|(first & H & E)];
      [exact example_sequences|vm_compute; reflexivity|exact H|].
    destruct H as (i & ms & _ & Hi & _ & _ & Hb & E'). exfalso.
    apply (f_equal (λ s, t_interviews (tables s) !! (7%N, 3%N))) in E'. vm_compute in E', Hi.
    injection Hi as <-. discriminate E'.
Defined.

Definition example_diffed (cs : Z) (s : World) : World :=
  state_after (RecordDiff 7%N 5%N 3%N cs 100 example_build) [] s.

Lemma diffs_accepted_in_order_witness :
  let s1 := example_diffed 4 example_world in
  result_of (RecordDiff 7%N 5%N 3%N 4 200 example_build) [] s1 = Err ErrDiffOutOfOrder ∧
  result_of (RecordDiff 7%N 5%N 3%N 6 200 example_build) [] s1 = Ok 6 ∧ 4 < 6 ∧ 5 < 6.
Proof.
  cbv zeta. split; [vm_compute; reflexivity|]. split; [vm_compute; reflexivity|].
  apply (diffs_accepted_in_order 7%N 5%N 3%N 4 6 100 200 example_build example_build [] []
    example_world (example_diffed 4 example_world) (example_diffed 4 example_world)
    (state_after (RecordDiff 7%N 5%N 3%N 6 200 example_build) [] (example_diffed 4 example_world)) 5 6 [] []).
  - exact example_sequences.
  - vm_compute. reflexivity.
  - apply rtc_refl.
  - vm_compute. reflexivity.
Defined.

Definition example_params : StartParams := mkStartParams 20%N "fresh" (30 * hour).
Definition example_start : M World Started :=
  StartSession "hash" example_params hour (λ st, Ok (example_message (Started_SequenceNumber st))).
Definition example_started_session : Session :=
  mkSession 20%N 7%N None (Some 3%N) SessionStateActive "fresh" (30 * hour) None hour None.

Lemma invite_single_use_witness :
  let s1 := state_after example_start [] example_world in
  result_of example_start [] example_world = Ok (mkStarted example_started_session 9%N 5) ∧
  result_of example_start [] s1 = Err ErrInvalidInvite ∧
  unchanged s1 (state_after example_start [] s1).
Proof.
  cbv zeta. split; [vm_compute; reflexivity|]. split; [vm_compute; reflexivity|].
  apply (invite_single_use "hash" example_params example_params hour hour
    (λ st, Ok (example_message (Started_SequenceNumber st)))
    (λ st, Ok (example_message (Started_SequenceNumber st))) [] [] example_world
    (state_after example_start [] example_world) (state_after example_start [] example_world)
    (state_after example_start [] (state_after example_start [] example_world))
    (mkStarted example_started_session 9%N 5) [] [] (Err ErrInvalidInvite)).
  - exact example_hashes.
  - vm_compute. reflexivity.
  - apply rtc_refl.
  - vm_compute. reflexivity.
Defined.

Definition example_score : Score :=
  mkScore 7%N 3%N 5%N EventTypeSessionSubmitted example_metrics true None "" "disabled" 0.

Lemma score_saved_once_witness :
  let s1 := state_after (SaveScore example_score 1 example_build) [] example_world in
  result_of (SaveScore example_score 1 example_build) [] example_world = Ok true ∧
  result_of (SaveScore example_score 2 example_build) [] s1 = Ok false ∧
  t_scores (tables (state_after (SaveScore example_score 2 example_build) [] s1)) !! (7%N, 5%N)
    = Some example_score.
Proof.
  cbv zeta. split; [vm_compute; reflexivity|]. split; [vm_compute; reflexivity|].
  apply (score_saved_once example_score example_score 1 2 example_build example_build [] [] example_world
    (state_after (SaveScore example_score 1 example_build) [] example_world)
    (state_after (SaveScore example_score 1 example_build) [] example_world)
    (state_after (SaveScore example_score 2 example_build) []
      (state_after (SaveScore example_score 1 example_build) [] example_world)) [] [] (Ok false)).
  - exact example_sequences.
  - vm_compute. reflexivity.
  - apply rtc_refl.
  - reflexivity.
  - reflexivity.
  - vm_compute. reflexivity.
Defined.

Lemma outbox_at_least_once_witness :
  let s1 := example_diffed 4 example_world in
  let s2 := state_after (Drain true 10 publish) [Done; Done; Done; Partial [1%nat] (Plain "kafka")] s1 in
  log s2 = map record_of (drop 1 (t_outbox (tables s1))) ∧
  ∃ batch written, batch `prefix_of` t_outbox (tables s1) ∧ written ⊆+ batch ∧ log s2 = map record_of written.
Proof.
  cbv zeta. split; [vm_compute; reflexivity|].
  destruct (outbox_at_least_once example_world (example_diffed 4 example_world)
    (state_after (Drain true 10 publish) [Done; Done; Done; Partial [1%nat] (Plain "kafka")]
      (example_diffed 4 example_world)) true 10 [Done; Done; Done; Partial [1%nat] (Plain "kafka")]
    (Err (Wrap "outbox: write 2 messages" (Plain "kafka"))) [])
    as (_ & _ & _ & batch & written & Hp & Hw & Hl & _).
  - exact example_outbox.
  - apply rtc_once, (op_diff example_world 7%N 5%N 3%N 4 100 example_build []).
  - vm_compute. reflexivity.
  - exists batch, written. split; [exact Hp|]. split; [exact Hw|exact Hl].
Defined.

Lemma relay_empties_outbox_witness :
  let s := example_diffed 4 example_world in
  let '(turns, s') := Run (mkConfig 1 second) (Drain true) (replicate 2 (false, [])) s in
  t_outbox (tables s') = [] ∧ length (log s') = 2%nat.
Proof.
  cbv zeta.
  pose proof (relay_empties_outbox (mkConfig 1 second) (example_diffed 4 example_world) 2) as H.
  destruct (Run _ _ _ _) as [turns s']. destruct H as (H1 & H2 & _).
  - apply (store_history_keeps example_world); [|exact example_outbox].
    apply rtc_once, (op_diff example_world 7%N 5%N 3%N 4 100 example_build []).
  - reflexivity.
  - vm_compute. discriminate.
  - split; [exact H1|]. rewrite H2. vm_compute. reflexivity.
Defined.
