(* ===== verification/Sandbox.v ===== *)
(** * The execution sandbox (internal/sandbox: sandbox.go, service.go, container.go)

    Paths and limits a spec may ask for, the snapshot a container mounts, the
    container life cycle of [ContainerRunner.Run] over an arbitrary container
    engine, and the HTTP service with its bounded execution slots.  Removing the
    snapshot directory can fail part of the way.  What the command that creates a
    container asks for is read off its words by [parse_create]. *)
From S2P Require Import Prelude Str GoTime Json Domain Tx.

(** ** [path.Clean] and [filepath.Join] (Go's standard library, on Linux)

    [clean_comps rooted st cs] processes the slash-separated components [cs]
    with [st] (innermost first) already emitted. *)
Definition slash : ascii := "/"%char.

Fixpoint clean_comps (rooted : bool) (st cs : list string) : list string :=
  match cs with
  | [] => reverse st
  | c :: cs =>
      if bool_decide (c = ""%string) || bool_decide (c = "."%string) then clean_comps rooted st cs
      else if bool_decide (c = ".."%string) then
        match st with
        | top :: st' =>
            if bool_decide (top = ".."%string) then clean_comps rooted (c :: st) cs
            else clean_comps rooted st' cs
        | [] => if rooted then clean_comps rooted [] cs else clean_comps rooted [c] cs
        end
      else clean_comps rooted (c :: st) cs
  end.

Definition comps (p : string) : list string := clean_comps (has_prefix "/" p) [] (split slash p).

Definition Clean (p : string) : string :=
  let body := join slash (comps p) in
  if has_prefix "/" p then "/" +:+ body
  else if bool_decide (body = ""%string) then "." else body.

Definition Join (dir name : string) : string :=
  if bool_decide (dir = ""%string) then (if bool_decide (name = ""%string) then "" else Clean name)
  else if bool_decide (name = ""%string) then Clean dir
  else Clean (dir +:+ String slash name).

(** ** Paths a snapshot may contain *)
Definition backslash : ascii := "\"%char.

Definition validPath (name : string) : result () :=
  if bool_decide (name = ""%string) || (255 <? len name) then Err (Plain "bad length")
  else if has_prefix "/" name || contains_char backslash name then Err (Plain "must be relative")
  else if negb (bool_decide (Clean name = name)) || bool_decide (name = "."%string) ||
          has_prefix "../" name || bool_decide (name = ".."%string)
  then Err (Plain "must be clean and inside the workspace")
  else if contains_any [NUL; ":"%char; ","%char] name
  then Err (Plain "contains a forbidden character")
  else Ok ().

Definition ValidatePath (name : string) : result () := validPath name.

(** ** Limits *)
Record Limits := mkLimits {
  WallClock : duration;
  CPUs : float64;
  MemoryBytes : Z;
  PIDs : Z;
  OutputBytes : Z;
  TmpBytes : Z;
}.

Definition f64_0 : float64 := SpecFloat.S754_zero false.
Definition f64_1 : float64 := SpecFloat.binary_normalize 53 1024 1 0 false.
Definition f64_2 : float64 := SpecFloat.binary_normalize 53 1024 2 0 false.

Definition DefaultLimits : Limits :=
  mkLimits (10 * second) f64_1 (Z.shiftl 256 20) 64 (Z.shiftl 1 20) (Z.shiftl 64 20).
Definition MaxLimits : Limits :=
  mkLimits (60 * second) f64_2 (Z.shiftl 1 30) 256 (Z.shiftl 4 20) (Z.shiftl 256 20).

Definition withDefaults (l : Limits) : Limits :=
  mkLimits
    (if WallClock l <=? 0 then WallClock DefaultLimits else WallClock l)
    (if SpecFloat.SFleb (CPUs l) f64_0 then CPUs DefaultLimits else CPUs l)
    (if MemoryBytes l <=? 0 then MemoryBytes DefaultLimits else MemoryBytes l)
    (if PIDs l <=? 0 then PIDs DefaultLimits else PIDs l)
    (if OutputBytes l <=? 0 then OutputBytes DefaultLimits else OutputBytes l)
    (if TmpBytes l <=? 0 then TmpBytes DefaultLimits else TmpBytes l).

Definition within (l max : Limits) : result () :=
  if WallClock max <? WallClock l then Err (Plain "wall clock above max")
  else if SpecFloat.SFltb (CPUs max) (CPUs l) then Err (Plain "cpus above max")
  else if MemoryBytes max <? MemoryBytes l then Err (Plain "memory above max")
  else if PIDs max <? PIDs l then Err (Plain "pids above max")
  else if OutputBytes max <? OutputBytes l then Err (Plain "output above max")
  else if TmpBytes max <? TmpBytes l then Err (Plain "tmp above max")
  else Ok ().

(** ** Languages and specs *)
Record Language := mkLanguage { Image : string; Command : string → list string }.

Definition Languages (name : string) : option Language :=
  if bool_decide (name = "python"%string) then
    Some (mkLanguage "python:3.12-alpine" (λ e, ["python3"; "-I"; "-B"; e]%string))
  else if bool_decide (name = "javascript"%string) then
    Some (mkLanguage "node:22-alpine" (λ e, ["node"; e]%string))
  else if bool_decide (name = "shell"%string) then
    Some (mkLanguage "alpine:3.20" (λ e, ["/bin/sh"; e]%string))
  else None.

Record Spec := mkSpec {
  ExecutionID : string;
  Spec_Language : string;
  Entrypoint : string;
  Files : gmap string string;
  Stdin : string;
  Spec_Limits : Limits;
}.

Definition Status := string.
Definition StatusSucceeded : Status := "succeeded".
Definition StatusFailed : Status := "failed".
Definition StatusTimedOut : Status := "timed_out".
Definition StatusOOMKilled : Status := "oom_killed".

Record Result := mkResult {
  Result_Status : Status;
  ExitCode : Z;
  Stdout : string;
  Stderr : string;
  StdoutTruncated : bool;
  StderrTruncated : bool;
  Duration : duration;
}.
Definition no_result : Result := mkResult "" 0 "" "" false false 0.

Definition ErrInvalidSpec : error := Sentinel "sandbox.ErrInvalidSpec".
Definition invalid {A} (msg : string) : result A := Err (Wrap msg ErrInvalidSpec).

Definition maxFiles : Z := 200.
Definition maxSnapshotBytes : Z := Z.shiftl 8 20.

(** [executionIDPattern]: [^[A-Za-z0-9][A-Za-z0-9_.-]{0,62}$]. *)
Definition alnum (a : ascii) : bool :=
  is_digit a || in_range 65 90 a || in_range 97 122 a.
Definition id_char (a : ascii) : bool := alnum a || existsb (Ascii.eqb a) ["_"; "."; "-"]%char.
Fixpoint all_chars (p : ascii → bool) (s : string) : bool :=
  match s with EmptyString => true | String a s => p a && all_chars p s end.
Definition executionIDPattern (s : string) : bool :=
  match s with
  | EmptyString => false
  | String a s => alnum a && all_chars id_char s && (len s <=? 62)
  end.

(** The loop over the files: the first bad path, or the total size. *)
Fixpoint check_files (files : list (string * string)) (total : Z) : result Z :=
  match files with
  | [] => Ok total
  | (name, content) :: files =>
      match validPath name with
      | Err _ => invalid "file"
      | Ok _ => check_files files (total + len content)
      end
  end.

Definition normalize (spec : Spec) : result (Spec * Language) :=
  if negb (executionIDPattern (ExecutionID spec)) then invalid "execution id"
  else match Languages (Spec_Language spec) with
  | None => invalid "unsupported language"
  | Some language =>
      let count := Z.of_nat (size (Files spec)) in
      if (count =? 0) || (maxFiles <? count) then invalid "snapshot must have 1..200 files"
      else
        total ← check_files (map_to_list (Files spec)) 0;
        if maxSnapshotBytes <? total then invalid "snapshot exceeds 8388608 bytes"
        else if negb (bool_decide (is_Some (Files spec !! Entrypoint spec)))
        then invalid "entrypoint is not in the snapshot"
        else
          let limits := withDefaults (Spec_Limits spec) in
          match within limits MaxLimits with
          | Err _ => invalid "limits"
          | Ok _ =>
              Ok (mkSpec (ExecutionID spec) (Spec_Language spec) (Entrypoint spec) (Files spec)
                    (Stdin spec) limits, language)
          end
  end.

Definition Validate (spec : Spec) : result () := _ ← normalize spec; Ok ().

(** ** Clean paths *)

(** A component that names an entry of the directory it is resolved in. *)
Definition plain_comp (c : string) : Prop := c ≠ ""%string ∧ c ≠ "."%string ∧ c ≠ ".."%string.

Lemma clean_comps_app rooted st cs ds :
  clean_comps rooted st (cs ++ ds) = clean_comps rooted (reverse (clean_comps rooted st cs)) ds.
Proof.
  revert st. induction cs as [|c cs IH]; intros st; cbn [clean_comps app].
  { by rewrite reverse_involutive. }
  split_match; auto.
Qed.

Lemma clean_comps_plain rooted st cs :
  Forall plain_comp cs → clean_comps rooted st cs = reverse st ++ cs.
Proof.
  revert st. induction cs as [|c cs IH]; intros st Hcs; cbn [clean_comps]. { by rewrite app_nil_r. }
  apply Forall_cons in Hcs as [(? & ? & ?) Hcs]. rewrite !bool_decide_eq_false_2 by done. cbn.
  rewrite IH by done. by rewrite reverse_cons, <-app_assoc.
Qed.

(** What is emitted: [..]s, then plain components. *)
Lemma clean_comps_shape rooted st cs n ps :
  st = reverse ps ++ replicate n ".."%string → Forall plain_comp ps →
  ∃ n' ps', clean_comps rooted st cs = replicate n' ".."%string ++ ps' ∧ Forall plain_comp ps'.
Proof.
  revert st n ps. induction cs as [|c cs IH]; intros st n ps Hst Hps; cbn [clean_comps].
  { exists n, ps. by rewrite Hst, reverse_app, reverse_involutive, reverse_replicate. }
  destruct (_ || _) eqn:Ed; [by eapply IH|]. apply orb_false_iff in Ed as [E1 E2]. bool_prop.
  case_bool_decide as E3.
  - destruct st as [|top st'].
    + destruct rooted; [by apply (IH [] 0%nat [])|]. rewrite E3. by apply (IH [".."%string] 1%nat []).
    + case_bool_decide as E4.
      * destruct ps as [|p ps _] using rev_ind.
        { apply (IH _ (S n) []); [|done]. cbn in *. by rewrite E3, Hst. }
        exfalso. rewrite reverse_snoc in Hst. cbn in Hst. injection Hst as -> _.
        apply Forall_app in Hps as [_ Hp]. apply Forall_singleton in Hp as (_ & _ & Hp). done.
      * destruct ps as [|p ps _] using rev_ind.
        { exfalso. destruct n; cbn in Hst; [done|]. injection Hst as -> _. done. }
        rewrite reverse_snoc in Hst. cbn in Hst. injection Hst as _ ->.
        apply Forall_app in Hps as [Hps _]. by apply (IH _ n ps).
  - apply (IH _ n (ps ++ [c])).
    + rewrite reverse_snoc. cbn. by rewrite Hst.
    + apply Forall_app. split; [done|]. by apply Forall_singleton.
Qed.

Lemma clean_comps_elem rooted st cs c :
  c ∈ clean_comps rooted st cs → c ∈ st ∨ c ∈ cs.
Proof.
  revert st. induction cs as [|d cs IH]; intros st; cbn [clean_comps].
  { rewrite elem_of_reverse. auto. }
  split_match; intros H%IH; rewrite ?elem_of_cons in *; naive_solver.
Qed.

Lemma has_prefix_split name : has_prefix "../" name = false →
  ∀ l, split slash name = ".."%string :: l → name = ".."%string.
Proof.
  intros Hp l Hl. pose proof (join_split slash name) as Hj. rewrite Hl in Hj.
  destruct l as [|s l]; [done|]. cbn in Hj. subst. done.
Qed.

(** Accepted names are exactly the non-empty lists of plain components, short
    enough and free of the characters the mount option or Windows treat
    specially. *)
Definition plain_path (name : string) : Prop :=
  len name ≤ 255 ∧ Forall plain_comp (split slash name) ∧
  contains_any [backslash; NUL; ":"%char; ","%char] name = false.

Lemma contains_any_cons c cs s : contains_any (c :: cs) s = contains_char c s || contains_any cs s.
Proof.
  induction s as [|a s IH]; cbn; [done|]. rewrite IH.
  by destruct (Ascii.eqb a c), (existsb _ cs), (contains_char c s).
Qed.

Lemma clean_fixed name : has_prefix "/" name = false → Clean name = name → name ≠ "."%string →
  clean_comps false [] (split slash name) = split slash name.
Proof.
  unfold Clean, comps. intros Hr. rewrite Hr. set (l := clean_comps _ _ _).
  case_bool_decide as E; [by intros <- ?|]. intros Hj _.
  assert (l ≠ []) as Hne by (intros ->; done).
  rewrite <-Hj at 1. rewrite split_join; [done..|].
  apply Forall_forall. intros c Hc. subst l. apply clean_comps_elem in Hc as [Hc|Hc].
  - by apply not_elem_of_nil in Hc.
  - pose proof (split_no_sep slash name) as Hs. by eapply Forall_forall in Hs.
Qed.

Lemma plain_name name : Forall plain_comp (split slash name) →
  name ≠ ""%string ∧ has_prefix "/" name = false ∧ Clean name = name ∧ name ≠ "."%string ∧
  has_prefix "../" name = false ∧ name ≠ ".."%string.
Proof.
  intros Hp. assert (name ≠ ""%string) as H1.
  { intros ->. apply Forall_cons in Hp as [(? & _) _]. done. }
  assert (has_prefix "/" name = false) as H2.
  { destruct name as [|a name]; [done|]. cbn. destruct (Ascii.eqb "/" a) eqn:E; [|done].
    apply Ascii.eqb_eq in E as <-. cbn in Hp. apply Forall_cons in Hp as [(? & _) _]. done. }
  split_and!; [done..| | | |].
  - unfold Clean, comps. rewrite H2, clean_comps_plain, reverse_nil, app_nil_l, join_split by done.
    by rewrite bool_decide_eq_false_2.
  - intros ->. apply Forall_cons in Hp as [(_ & ? & _) _]. done.
  - destruct (has_prefix "../" name) eqn:E; [|done]. exfalso.
    destruct name as [|a [|b [|c name]]]; cbn in E; try (rewrite ?andb_false_r in E; done).
    rewrite andb_true_r in E.
    bool_prop. repeat match goal with E : Ascii.eqb _ _ = true |- _ => apply Ascii.eqb_eq in E as <- end.
    apply Forall_cons in Hp as [(_ & _ & Hd) _]. done.
  - intros ->. apply Forall_cons in Hp as [(_ & _ & ?) _]. done.
Qed.

Lemma validPath_plain name : validPath name = Ok () ↔ plain_path name.
Proof.
  unfold validPath, plain_path. rewrite (contains_any_cons backslash). split.
  - intros H. repeat (case_match; [done|]). bool_prop.
    repeat match goal with E : (_ || _) = false |- _ => apply orb_false_iff in E as [? ?] end. bool_prop.
    split_and!; [done| |by apply orb_false_iff].
    assert (clean_comps false [] (split slash name) = split slash name) as Hc by by apply clean_fixed.
    destruct (clean_comps_shape false [] (split slash name) 0 []) as (n & ps & Hn & Hps); [done..|].
    rewrite Hn in Hc. destruct n as [|n]; [by rewrite <-Hc|]. cbn in Hc.
    exfalso. symmetry in Hc. by apply has_prefix_split in Hc.
  - intros (Hl & Hp & [E1 E2]%orb_false_iff).
    apply plain_name in Hp as (? & Hr & Hc & ? & Hd & ?).
    rewrite E1, E2, Hc, Hr, Hd, !bool_decide_eq_false_2, bool_decide_eq_true_2 by done.
    rewrite (proj2 (Z.ltb_ge _ _) Hl). cbn [negb orb]. by rewrite !bool_decide_eq_false_2.
Qed.

(** The canonical text of a component list. *)
Definition render_path (rooted : bool) (l : list string) : string :=
  if rooted then String slash (join slash l)
  else if bool_decide (l = []) then "." else join slash l.

Definition clean_list (rooted : bool) (l : list string) : Prop :=
  Forall (λ c, contains_char slash c = false) l ∧
  ∃ n ps, l = replicate n ".."%string ++ ps ∧ Forall plain_comp ps ∧ (rooted = true → n = 0%nat).

Lemma clean_list_fixed rooted l : clean_list rooted l → clean_comps rooted [] l = l.
Proof.
  intros (_ & n & ps & -> & Hps & Hn).
  rewrite clean_comps_app, clean_comps_plain, reverse_involutive by done. f_equal.
  destruct rooted; [by rewrite Hn|]. clear.
  assert (∀ k, clean_comps false (replicate k ".."%string) (replicate n ".."%string)
               = replicate k ".."%string ++ replicate n ".."%string) as H; [|apply (H 0%nat)].
  induction n as [|n IH]; intros k; cbn [clean_comps replicate].
  { by rewrite reverse_replicate, app_nil_r. }
  rewrite !bool_decide_eq_false_2 by done. cbn [orb]. rewrite bool_decide_eq_true_2 by done.
  assert (replicate k ".."%string ++ ".."%string :: replicate n ".."%string
          = replicate (S k) ".."%string ++ replicate n ".."%string) as ->.
  { change (".."%string :: replicate n ".."%string) with (replicate (S n) ".."%string).
    rewrite <-!replicate_add. f_equal. lia. }
  rewrite <-IH. by destruct k.
Qed.

Lemma comps_clean p : clean_list (has_prefix "/" p) (comps p).
Proof.
  unfold comps. split.
  - apply Forall_forall. intros c [[]%not_elem_of_nil|Hc]%clean_comps_elem.
    pose proof (split_no_sep slash p) as Hs. by eapply Forall_forall in Hs.
  - destruct (has_prefix "/" p).
    + exists 0%nat, (clean_comps true [] (split slash p)). split_and!; [done| |done].
      assert (∀ st cs, Forall plain_comp st → Forall plain_comp (clean_comps true st cs)) as H; [|by apply H].
      intros st cs. revert st. induction cs as [|c cs IH]; intros st Hst; cbn [clean_comps].
      { by apply Forall_reverse. }
      destruct (_ || _) eqn:Ed; [by apply IH|]. apply orb_false_iff in Ed as [E1 E2]. bool_prop.
      case_bool_decide as E3.
      * destruct Hst as [|top st' Ht Hst]; [by apply IH|]. case_bool_decide as E4; [|by apply IH].
        by destruct Ht as (_ & _ & ?).
      * apply IH. by constructor.
    + destruct (clean_comps_shape false [] (split slash p) 0 []) as (n & ps & Hn & Hps); [done..|].
      exists n, ps. naive_solver.
Qed.

Lemma clean_list_app rooted l m :
  clean_list rooted l → Forall (λ c, contains_char slash c = false) m → Forall plain_comp m →
  clean_list rooted (l ++ m).
Proof.
  intros (Hl & n & ps & -> & Hps & Hn) Hm Hp. split; [by apply Forall_app|].
  exists n, (ps ++ m). rewrite app_assoc. split_and!; [done| |done]. by apply Forall_app.
Qed.

Lemma clean_list_init rooted l c : clean_list rooted (l ++ [c]) → clean_list rooted l.
Proof.
  intros ([Hl _]%Forall_app & n & ps & E & Hps & Hn). split; [done|].
  destruct ps as [|p ps _] using rev_ind.
  - rewrite app_nil_r in E. destruct n as [|n]; [by apply app_nil in E as [_ ?]|].
    rewrite replicate_S_end in E. apply app_inj_tail in E as [-> _].
    exists n, []. rewrite app_nil_r. split_and!; [done..|]. intros ?%Hn. done.
  - rewrite app_assoc in E. apply app_inj_tail in E as [-> _].
    apply Forall_app in Hps as [Hps _]. by exists n, ps.
Qed.

(** A path is rooted when its first component is empty and not its last. *)
Lemma has_prefix_slash s :
  has_prefix "/" s = match split slash s with EmptyString :: _ :: _ => true | _ => false end.
Proof.
  destruct s as [|a s]; [done|]. cbn. rewrite andb_true_r, Ascii.eqb_sym.
  pose proof (split_not_nil slash s). change ("/"%char) with slash.
  destruct (Ascii.eqb a slash), (split slash s) as [|? ?]; done.
Qed.

Lemma split_render rooted l : clean_list rooted l → l ≠ [] →
  split slash (render_path rooted l) = if rooted then ""%string :: l else l.
Proof.
  intros (Hl & _) Hne. unfold render_path. rewrite bool_decide_eq_false_2 by done.
  destruct rooted; cbn; [rewrite Ascii.eqb_refl|]; by rewrite split_join.
Qed.

Lemma clean_list_head rooted l : clean_list rooted l → ∀ l', l ≠ ""%string :: l'.
Proof.
  intros (_ & n & ps & -> & Hps & _) l'. destruct n; [|done].
  destruct Hps as [|? ? (? & _) _]; [done|]. cbn. congruence.
Qed.

Lemma comps_render rooted l : clean_list rooted l → comps (render_path rooted l) = l.
Proof.
  intros Hc. destruct (decide (l = [])) as [->|Hne]; [by destruct rooted|].
  unfold comps. rewrite has_prefix_slash, split_render by done.
  pose proof (clean_list_fixed _ _ Hc). pose proof (clean_list_head _ _ Hc).
  destruct rooted, l as [|[|a c] l]; naive_solver.
Qed.

Lemma Clean_render p : Clean p = render_path (has_prefix "/" p) (comps p).
Proof.
  unfold Clean, render_path. destruct (has_prefix "/" p); [done|].
  pose proof (clean_list_head _ _ (comps_clean p)) as Hh.
  destruct (comps p) as [|c l]; [done|]. rewrite (bool_decide_eq_false_2 (_ :: _ = [])) by done.
  rewrite bool_decide_eq_false_2; [done|]. intros E. destruct l; cbn in E; [naive_solver|].
  destruct c; [naive_solver|done].
Qed.

Lemma comps_Clean p : comps (Clean p) = comps p.
Proof. rewrite Clean_render. apply comps_render, comps_clean. Qed.

(** Joining an accepted name below a directory appends its components. *)
Lemma Join_render dir name : dir ≠ ""%string → Forall plain_comp (split slash name) →
  Join dir name = render_path (has_prefix "/" dir) (comps dir ++ split slash name) ∧
  clean_list (has_prefix "/" dir) (comps dir ++ split slash name).
Proof.
  intros Hd Hp. pose proof (plain_name _ Hp) as (Hne & _). unfold Join.
  rewrite !bool_decide_eq_false_2, Clean_render by done. unfold comps.
  rewrite split_app, clean_comps_app, clean_comps_plain, reverse_involutive by done.
  assert (has_prefix "/" (dir +:+ String slash name) = has_prefix "/" dir) as ->
    by (destruct dir; [done|]; cbn; by rewrite !andb_true_r).
  split; [done|]. apply clean_list_app; [apply comps_clean|apply split_no_sep|done].
Qed.

Lemma comps_Join dir name : dir ≠ ""%string → Forall plain_comp (split slash name) →
  comps (Join dir name) = comps dir ++ split slash name.
Proof. intros Hd Hp. destruct (Join_render dir name) as [-> ?]; [done..|]. by apply comps_render. Qed.

(** [filepath.Dir]: everything up to the last slash, cleaned. *)
Definition Dir_of (p : string) : string := Clean (join slash (removelast (split slash p) ++ [""%string])).

Lemma comps_Dir_of rooted l c :
  clean_list rooted (l ++ [c]) → comps (Dir_of (render_path rooted (l ++ [c]))) = l.
Proof.
  intros Hc. unfold Dir_of. rewrite comps_Clean, split_render by (done || by destruct l).
  assert (removelast (if rooted then ""%string :: l ++ [c] else l ++ [c])
          = if rooted then ""%string :: l else l) as ->.
  { destruct rooted; [|apply removelast_last].
    change (""%string :: l ++ [c]) with ((""%string :: l) ++ [c]). apply removelast_last. }
  unfold comps. rewrite has_prefix_slash, split_join.
  - pose proof (clean_list_fixed _ _ (clean_list_init _ _ _ Hc)) as Hf.
    pose proof (clean_list_head _ _ (clean_list_init _ _ _ Hc)) as Hh.
    assert (∀ r, clean_comps r [] l = l → clean_comps r [] (l ++ [""%string]) = l) as Hr.
    { intros r E. rewrite clean_comps_app, E. cbn. by rewrite reverse_involutive. }
    destruct rooted.
    + by destruct l; apply (Hr true).
    + destruct l as [|[|a d] l]; [done|naive_solver|by apply (Hr false)].
  - by destruct rooted, l.
  - destruct (clean_list_init _ _ _ Hc) as [Hl _].
    apply Forall_app. split; [by destruct rooted; repeat constructor|by repeat constructor].
Qed.

(** ** The host: its files and the container engine

    A file system maps a path to a node; a path is its cleaned components,
    innermost first (the services use absolute paths, and no symbolic link is
    created below a snapshot directory).  The container engine is outside this
    repository: a host only records the commands it was given, and the engine
    answers them by an arbitrary function of that history. *)
Inductive node := Dir | File (content : string).
Notation fs_path := (list string).
Notation filesystem := (gmap (list string) node).

#[export] Instance node_eq_dec : EqDecision node.
Proof. solve_decision. Defined.

(** A command given to the engine, and the files it could see then. *)
Record Call := mkCall { args : list string; seen : filesystem }.
Record Host := mkHost { files : filesystem; calls : list Call }.

Definition path_of (p : string) : fs_path := reverse (comps p).

(** The result of [f] on the host's files as one system call, which may fail
    or succeed without its caller learning so. *)
Definition os_call {A} (f : filesystem → result (A * filesystem)) : M Host A :=
  stmt (λ h, '(a, fs) ← f (files h); Ok (a, mkHost fs (calls h))).

(** [os.MkdirTemp] returns a new directory; [dir] is the name it picked. *)
Definition mkdir_temp (dir : string) (fs : filesystem) : result (() * filesystem) :=
  match fs !! path_of dir with
  | None => Ok ((), <[path_of dir := Dir]> fs)
  | Some _ => Err (Plain "file exists")
  end.

Fixpoint mkdir_all (p : fs_path) (fs : filesystem) : result filesystem :=
  match fs !! p with
  | Some Dir => Ok fs
  | Some (File _) => Err (Plain "not a directory")
  | None =>
      match p with
      | [] => Ok fs
      | _ :: parent => fs ← mkdir_all parent fs; Ok (<[p := Dir]> fs)
      end
  end.

Definition write_file (p : fs_path) (content : string) (fs : filesystem) : result filesystem :=
  match fs !! p with
  | Some Dir => Err (Plain "is a directory")
  | _ => Ok (<[p := File content]> fs)
  end.

Definition below (d p : fs_path) : Prop := ∃ q, p = q ++ d.
#[export] Instance below_dec d p : Decision (below d p).
Proof.
  refine (cast_if (decide (p = take (length p - length d) p ++ d))).
  - eexists. eassumption.
  - intros [q ->]. apply n. rewrite length_app, Nat.add_sub, take_app_length. done.
Defined.

(** [os.RemoveAll] deletes what is at or below [d], one entry after the other;
    a failure may leave any of it.  Its callers ignore the error. *)
Definition paths_below (d : fs_path) (fs : filesystem) : list fs_path :=
  filter (below d) (map fst (map_to_list fs)).
Definition delete_paths (ps : list fs_path) (fs : filesystem) : filesystem :=
  filter (λ kv, kv.1 ∉ ps) fs.
Definition RemoveAll (sweep : fault) (d : fs_path) (fs : filesystem) : filesystem :=
  state_after (batch delete_paths (paths_below d fs)) [sweep] fs.

(** ** [writeSnapshot] *)
Fixpoint write_files (dir : string) (entries : list (string * string)) : M Host () :=
  match entries with
  | [] => mret ()
  | (name, content) :: entries =>
      let target := Join dir name in
      wrapM "sandbox: create"
        (os_call (λ fs, fs ← mkdir_all (path_of (Dir_of target)) fs; Ok ((), fs)));;
      wrapM "sandbox: write"
        (os_call (λ fs, fs ← write_file (path_of target) content fs; Ok ((), fs)));;
      write_files dir entries
  end.

(** The snapshot directory, or the error after removing it; [order] is the
    order Go happens to iterate the map in, [sweep] what the removal meets. *)
Definition writeSnapshot (dir : string) (order : list (string * string)) (sweep : fault) : M Host () := λ fs h,
  match wrapM "sandbox: create snapshot dir" (os_call (mkdir_temp dir)) fs h with
  | (Err e, fs, h) => (Err e, fs, h)
  | (Ok _, fs, h) =>
      let body :=
        wrapM "sandbox: chmod snapshot dir" (os_call (λ fs, Ok ((), fs)));;
        write_files dir order in
      match body fs h with
      | (Ok _, fs, h) => (Ok (), fs, h)
      | (Err e, fs, h) => (Err e, fs, mkHost (RemoveAll sweep (path_of dir) (files h)) (calls h))
      end
  end.

Lemma os_call_ok {A} (f : filesystem → result (A * filesystem)) fs h a fs' h' :
  os_call f fs h = (Ok a, fs', h') → ∃ g, f (files h) = Ok (a, g) ∧ h' = mkHost g (calls h).
Proof.
  unfold os_call. intros H%stmt_ok. apply bind_ok in H as ([a' g] & ? & ?). simplify_eq. eauto.
Qed.

Lemma os_call_cases {A} (f : filesystem → result (A * filesystem)) fs h r fs' h' :
  os_call f fs h = (r, fs', h') →
  h' = h ∨ ∃ a g, f (files h) = Ok (a, g) ∧ h' = mkHost g (calls h).
Proof.
  unfold os_call. intros [(a & -> & Hf)|(_ & [->|[a Hf]])]%exec_cases; [right| by left|right];
    apply bind_ok in Hf as ([a' g] & ? & ?); simplify_eq; eauto.
Qed.

(** Nothing at or below [d] exists. *)
Definition free (d : fs_path) (fs : filesystem) : Prop := ∀ p, below d p → fs !! p = None.

(** [fs'] differs from [fs] at or below [d] only. *)
Definition same_outside (d : fs_path) (fs fs' : filesystem) : Prop :=
  ∀ p, ¬ below d p → fs' !! p = fs !! p.

#[export] Instance same_outside_preorder d : PreOrder (same_outside d).
Proof. split; [done|]. intros a b c Hab Hbc p Hp. rewrite (Hbc p), (Hab p); done. Qed.

Lemma below_refl d : below d d.
Proof. by exists []. Qed.
Lemma below_app d q : below d (q ++ d).
Proof. by exists q. Qed.

Lemma paths_below_spec d fs p : p ∈ paths_below d fs ↔ below d p ∧ is_Some (fs !! p).
Proof.
  unfold paths_below. rewrite list_elem_of_filter, list_elem_of_In, in_map_iff. split.
  - intros [Hb ([q n] & <- & H%list_elem_of_In%elem_of_map_to_list)]. by split; [|exists n].
  - intros [Hb [n H]]. split; [done|]. exists (p, n). split; [done|]. by apply list_elem_of_In, elem_of_map_to_list.
Qed.
Lemma delete_paths_outside d ps fs : (∀ p, p ∈ ps → below d p) → same_outside d fs (delete_paths ps fs).
Proof.
  intros Hps p Hp. unfold delete_paths. destruct (fs !! p) eqn:E.
  - apply map_lookup_filter_Some_2; [done|]. intros Hin. by apply Hp, Hps.
  - apply map_lookup_filter_None_2. by left.
Qed.
Lemma RemoveAll_outside sweep d fs : same_outside d fs (RemoveAll sweep d fs).
Proof.
  unfold RemoveAll, state_after, batch.
  assert (Hb : ∀ p, p ∈ paths_below d fs → below d p) by (intros p [? _]%paths_below_spec; done).
  destruct sweep; cbn; try done; apply delete_paths_outside; [done..|]. intros p Hp%select_subset. auto.
Qed.
Lemma RemoveAll_restores d fs fs' : free d fs → same_outside d fs fs' → RemoveAll Done d fs' = fs.
Proof.
  intros Hf Hs. apply map_eq. intros p. cbn. unfold delete_paths.
  destruct (decide (below d p)) as [Hp|Hp].
  - rewrite (Hf p Hp). apply map_lookup_filter_None_2. destruct (fs' !! p) eqn:E; [right|by left].
    cbn. intros x _ Hx. apply Hx, paths_below_spec. split; [done|]. by rewrite E.
  - rewrite <-(Hs p Hp). pose proof (RemoveAll_outside Done d fs' p Hp) as H. exact H.
Qed.

Lemma write_file_ok p content g g' :
  write_file p content g = Ok g' → g !! p ≠ Some Dir ∧ g' = <[p := File content]> g.
Proof. unfold write_file. destruct (g !! p) as [[]|]; intros; by simplify_eq. Qed.

(** A directory below the existing directory [d] is made without touching
    anything else. *)
Lemma mkdir_all_below d q fs fs' :
  fs !! d = Some Dir → mkdir_all (q ++ d) fs = Ok fs' →
  fs' !! (q ++ d) = Some Dir ∧ same_outside d fs fs' ∧
  (∀ p c, fs' !! p = Some (File c) ↔ fs !! p = Some (File c)) ∧ fs' !! d = Some Dir.
Proof.
  revert fs'. induction q as [|c q IH]; intros fs' Hd; cbn.
  { destruct d; cbn; rewrite Hd; intros [= <-]; done. }
  destruct (fs !! (c :: q ++ d)) as [[|]|] eqn:E; [by intros [= <-]|done|].
  intros (g & Hg & [= <-])%bind_ok. destruct (IH g) as (H1 & H2 & H3 & H4); [done..|].
  split_and!.
  - by rewrite lookup_insert_eq.
  - intros p Hp. rewrite lookup_insert_ne; [by apply H2|]. intros <-. apply Hp. by exists (c :: q).
  - intros p x. rewrite <-H3. destruct (decide (p = c :: q ++ d)) as [->|Hne].
    + rewrite lookup_insert_eq. split; [done|]. rewrite H3. congruence.
    + by rewrite lookup_insert_ne.
  - rewrite lookup_insert_ne; [done|]. intros Heq. apply (f_equal length) in Heq.
    cbn in Heq. rewrite length_app in Heq. lia.
Qed.

(** The invariant of the writing loop: the files below [d] are the entries
    written so far. *)
Definition written (d : fs_path) (fs0 fs : filesystem) (done_ : list (string * string)) : Prop :=
  fs !! d = Some Dir ∧ same_outside d fs0 fs ∧
  ∀ p c, below d p → fs !! p = Some (File c) ↔
    ∃ name, (name, c) ∈ done_ ∧ p = reverse (split slash name) ++ d.

Lemma path_of_Join dir name : dir ≠ ""%string → Forall plain_comp (split slash name) →
  path_of (Join dir name) = reverse (split slash name) ++ path_of dir ∧
  path_of (Dir_of (Join dir name)) = tail (reverse (split slash name)) ++ path_of dir.
Proof.
  intros Hd Hp. unfold path_of. rewrite comps_Join, reverse_app by done. split; [done|].
  destruct (Join_render dir name) as [-> Hc]; [done..|].
  destruct (split slash name) as [|c l _] eqn:E using rev_ind; [by apply split_not_nil in E|].
  rewrite app_assoc in *. rewrite comps_Dir_of by done. by rewrite reverse_snoc, reverse_app.
Qed.

Lemma write_one dir name content fs0 fs g fs' done_ :
  dir ≠ ""%string → Forall plain_comp (split slash name) → name ∉ done_.*1 →
  written (path_of dir) fs0 fs done_ →
  mkdir_all (path_of (Dir_of (Join dir name))) fs = Ok g →
  write_file (path_of (Join dir name)) content g = Ok fs' →
  written (path_of dir) fs0 fs' ((name, content) :: done_).
Proof.
  intros Hd Hp Hnew (H1 & H2 & H3). destruct (path_of_Join dir name) as [-> ->]; [done..|].
  intros (M1 & M2 & M3 & M4)%mkdir_all_below; [|done]. set (p := reverse (split slash name) ++ path_of dir).
  intros [Hnd ->]%write_file_ok.
  assert (p ≠ path_of dir) as Hpd.
  { intros E. apply (f_equal length) in E. subst p. rewrite length_app, length_reverse in E.
    pose proof (split_not_nil slash name). destruct (split slash name); cbn in *; [done|lia]. }
  split_and!.
  - by rewrite lookup_insert_ne.
  - etrans; [done|]. etrans; [done|]. intros q Hq. rewrite lookup_insert_ne; [done|].
    intros <-. apply Hq, below_app.
  - intros q c Hq. destruct (decide (q = p)) as [->|Hne].
    + rewrite lookup_insert_eq. split.
      * intros [= ->]. exists name. split; [by left|done].
      * intros (name' & Hin & E). apply app_inv_tail, (inj reverse), split_inj in E as <-.
        apply elem_of_cons in Hin as [[= ->]|Hin]; [done|]. exfalso. apply Hnew.
        apply list_elem_of_fmap. by exists (name, c).
    + rewrite lookup_insert_ne, M3, H3 by done. split; intros (name' & Hin & ->); exists name'.
      * split; [by right|done].
      * apply elem_of_cons in Hin as [[= -> ->]|Hin]; done.
Qed.

Lemma write_files_ok dir entries fs h u fs' h' fs0 done_ :
  dir ≠ ""%string → Forall (λ e, Forall plain_comp (split slash e.1)) entries →
  NoDup (entries.*1 ++ done_.*1) → written (path_of dir) fs0 (files h) done_ →
  write_files dir entries fs h = (Ok u, fs', h') →
  calls h' = calls h ∧ written (path_of dir) fs0 (files h') (reverse entries ++ done_).
Proof.
  intros Hd. revert fs h done_. induction entries as [|[name content] entries IH];
    intros fs h done_ Hp Hnd Hw H; cbn [write_files] in H; [by inv_M|].
  apply Forall_cons in Hp as [Hp1 Hp]. cbn in Hnd, Hp1. apply NoDup_cons in Hnd as [Hnew Hnd].
  inv_M. repeat match goal with H : os_call _ _ _ = _ |- _ => apply os_call_ok in H as (? & ? & ?) end.
  inv_bind. simplify_eq/=. rewrite reverse_cons, <-app_assoc. match goal with W : write_files _ _ _ _ = _ |- _ => eapply (IH _ _ ((name, content) :: done_)) in W end.
  - eassumption.
  - done.
  - cbn. rewrite <-Permutation_middle. by apply NoDup_cons.
  - cbn. eapply write_one; try done. intros ?. apply Hnew. apply elem_of_app. by right.
Qed.

Lemma write_files_outside dir entries fs h r fs' h' :
  dir ≠ ""%string → Forall (λ e, Forall plain_comp (split slash e.1)) entries →
  files h !! path_of dir = Some Dir → write_files dir entries fs h = (r, fs', h') →
  calls h' = calls h ∧ same_outside (path_of dir) (files h) (files h').
Proof.
  intros Hd. revert fs h. induction entries as [|[name content] entries IH]; intros fs h Hp Hdir H.
  { by injection H as <- <- <-. }
  apply Forall_cons in Hp as [Hp1 Hp]. cbn in Hp1. destruct (path_of_Join dir name) as [E1 E2]; [done..|].
  cbn [write_files] in H. rewrite E1, E2 in H.
  assert (∀ g, mkdir_all (tail (reverse (split slash name)) ++ path_of dir) (files h) = Ok g →
    same_outside (path_of dir) (files h) g ∧ g !! path_of dir = Some Dir) as Hmk.
  { intros g (_ & ? & _ & ?)%mkdir_all_below; done. }
  assert (∀ g g', g !! path_of dir = Some Dir →
    write_file (reverse (split slash name) ++ path_of dir) content g = Ok g' →
    same_outside (path_of dir) g g' ∧ g' !! path_of dir = Some Dir) as Hwr.
  { intros g g' Hg [Hnd ->]%write_file_ok. split.
    - intros q Hq. rewrite lookup_insert_ne; [done|]. intros <-. apply Hq, below_app.
    - rewrite lookup_insert_ne; [done|]. intros Ep. by rewrite Ep in Hnd. }
  apply bind_M_cases in H as [([] & fs1 & h1 & Hm & H)|(e & Hm & ->)].
  - apply wrapM_ok, os_call_ok in Hm as (g & Hg & ->). inv_bind. simplify_eq/=.
    destruct (Hmk _ ltac:(eassumption)) as [? ?].
    apply bind_M_cases in H as [([] & fs2 & h2 & Hm & H)|(e & Hm & ->)].
    + apply wrapM_ok, os_call_ok in Hm as (g' & Hg' & ->). inv_bind. simplify_eq/=.
      destruct (Hwr _ _ ltac:(eassumption) ltac:(eassumption)) as [? ?].
      apply IH in H as [? ?]; [|done..]. split; [done|]. etrans; [eassumption|]. by etrans.
    + apply wrapM_cases in Hm as (r0 & Hm & _). apply os_call_cases in Hm as [->|(? & ? & Hg & ->)]; [done|].
      inv_bind. simplify_eq/=. destruct (Hwr _ _ ltac:(eassumption) ltac:(eassumption)) as [? ?].
      split; [done|]. by etrans.
  - apply wrapM_cases in Hm as (r0 & Hm & _). apply os_call_cases in Hm as [->|(? & ? & Hg & ->)]; [done|].
    inv_bind. simplify_eq/=. by destruct (Hmk _ ltac:(eassumption)) as [? ?].
Qed.

Lemma same_below_fresh d fs0 g : free d fs0 → g = <[d := Dir]> fs0 → written d fs0 g [].
Proof.
  intros Hf ->. split_and!.
  - by rewrite lookup_insert_eq.
  - intros p Hp. rewrite lookup_insert_ne; [done|]. intros <-. apply Hp, below_refl.
  - intros p c Hp. destruct (decide (p = d)) as [->|Hne].
    + rewrite lookup_insert_eq. split; [done|]. by intros (? & []%not_elem_of_nil & _).
    + rewrite lookup_insert_ne, Hf by done. split; [done|]. by intros (? & []%not_elem_of_nil & _).
Qed.

Lemma writeSnapshot_cases dir order sweep fs h r fs' h' :
  dir ≠ ""%string → Forall (λ e, Forall plain_comp (split slash e.1)) order → NoDup order.*1 →
  free (path_of dir) (files h) →
  writeSnapshot dir order sweep fs h = (r, fs', h') →
  calls h' = calls h ∧
  ((∃ e, r = Err e) ∧ same_outside (path_of dir) (files h) (files h') ∧
     (sweep = Done → files h' = files h ∨ files h' = <[path_of dir := Dir]> (files h)) ∨
   r = Ok () ∧ written (path_of dir) (files h) (files h') (reverse order)).
Proof.
  intros Hd Hp Hnd Hfree. unfold writeSnapshot.
  destruct (wrapM _ (os_call (mkdir_temp dir)) fs h) as [[[u|e] fs1] h1] eqn:E.
  - apply wrapM_ok, os_call_ok in E as (g & Hg & ->). unfold mkdir_temp in Hg.
    destruct (files h !! path_of dir); simplify_eq/=. set (g := <[path_of dir := Dir]> (files h)).
    pose proof (same_below_fresh (path_of dir) (files h) g Hfree eq_refl) as Hw0.
    destruct ((wrapM _ _;; write_files dir order) fs1 _) as [[[u2|e] fs2] h2] eqn:Eb; intros [= <- <- <-].
    + inv_M. match goal with H : os_call _ _ _ = _ |- _ => apply os_call_ok in H as (? & ? & ->) end.
      simplify_eq/=. match goal with W : write_files _ _ _ _ = _ |- _ => eapply (write_files_ok _ _ _ _ _ _ _ (files h) []) in W as [-> Hw] end;
        [|done|done|cbn; rewrite app_nil_r; exact Hnd|exact Hw0].
      rewrite app_nil_r in Hw. destruct u2. auto.
    + assert (calls h2 = calls h ∧ same_outside (path_of dir) g (files h2)) as [Hc Hs].
      { apply bind_M_cases in Eb as [([] & fs3 & h3 & Hm & Hb)|(e' & Hm & _)].
        - apply wrapM_ok, os_call_ok in Hm as (? & Hg' & ->). simplify_eq/=.
          eapply write_files_outside in Hb; [exact Hb|done..|]. cbn. apply Hw0.
        - apply wrapM_cases in Hm as (r0 & Hm & _).
          apply os_call_cases in Hm as [->|(? & ? & Hg' & ->)]; by simplify_eq/=. }
      assert (same_outside (path_of dir) (files h) (files h2)) as Ho by (etrans; [apply Hw0|done]).
      cbn. split; [done|]. left. split; [by eexists|]. split; [etrans; [exact Ho|apply RemoveAll_outside]|].
      intros ->. left. by apply RemoveAll_restores.
  - intros [= <- <- <-]. apply wrapM_cases in E as (r0 & E & _).
    apply os_call_cases in E as [->|(a & g & Hg & ->)]; [split; [done|]; left; split; [by eexists|]; split; [done|auto]|].
    unfold mkdir_temp in Hg. destruct (files h !! path_of dir); simplify_eq/=. split; [done|]. left.
    split; [by eexists|]. split; [apply (same_below_fresh (path_of dir) (files h) _ Hfree eq_refl)|auto].
Qed.

(** ** Output capture *)
Record limitedBuffer := mkBuffer { buf : string; limit : Z; truncated : bool }.

Fixpoint take_bytes (n : nat) (s : string) : string :=
  match n, s with
  | S n, String a s => String a (take_bytes n s)
  | _, _ => EmptyString
  end.

Definition Write (b : limitedBuffer) (p : string) : limitedBuffer :=
  let room := limit b - len (buf b) in
  if 0 <? room then
    if room <? len p then mkBuffer (buf b +:+ take_bytes (Z.to_nat room) p) (limit b) true
    else mkBuffer (buf b +:+ p) (limit b) (truncated b)
  else if 0 <? len p then mkBuffer (buf b) (limit b) true
  else b.

Definition capture (n : Z) (chunks : list string) : limitedBuffer :=
  fold_left Write chunks (mkBuffer "" n false).

Lemma take_bytes_app n s t :
  take_bytes n (s +:+ t) = take_bytes n s +:+ take_bytes (n - String.length s) t.
Proof.
  revert s. induction n as [|n IH]; intros [|a s]; cbn; [done..|]. by rewrite IH.
Qed.
Lemma take_bytes_prefix n s : ∃ t, s = take_bytes n s +:+ t.
Proof.
  revert s. induction n as [|n IH]; intros s; [by exists s|]. destruct s as [|a s]; [by exists ""%string|].
  destruct (IH s) as [t E]. exists t. cbn. by rewrite <-E.
Qed.
Lemma take_bytes_all n s : (String.length s ≤ n)%nat → take_bytes n s = s.
Proof. revert s. induction n; intros [|a s]; cbn; intros; [done|lia|done|]. rewrite IHn; [done|lia]. Qed.
Lemma length_take_bytes n s : String.length (take_bytes n s) = (n `min` String.length s)%nat.
Proof. revert s. induction n; intros [|a s]; cbn; [done..|]. by rewrite IHn. Qed.

(** The buffer [b] has been offered the bytes [s]. *)
Definition offered (b : limitedBuffer) (s : string) : Prop :=
  b = mkBuffer (take_bytes (Z.to_nat (limit b)) s) (limit b) (limit b <? len s).

Lemma Write_offered b s p : 0 ≤ limit b → offered b s → offered (Write b p) (s +:+ p).
Proof.
  intros Hn Hb. unfold offered in *. rewrite Hb. set (n := limit b) in *. clearbody n. clear Hb b.
  assert (len (take_bytes (Z.to_nat n) s) = n `min` len s) as Hlen.
  { unfold len. rewrite length_take_bytes. lia. }
  unfold Write. cbn [limit buf truncated]. rewrite Hlen.
  destruct (Z.lt_ge_cases (len s) n) as [Hs|Hs].
  - replace (n - n `min` len s) with (n - len s) by lia. rewrite (proj2 (Z.ltb_lt 0 (n - len s))) by lia.
    destruct (n - len s <? len p) eqn:E; bool_prop; cbn [limit buf truncated];
      rewrite take_bytes_app, len_app; f_equal.
    + f_equal. f_equal. unfold len. lia.
    + symmetry. apply Z.ltb_lt. lia.
    + f_equal. symmetry. apply take_bytes_all. unfold len in *. lia.
    + rewrite !(proj2 (Z.ltb_ge _ _)); [done|lia..].
  - replace (n - n `min` len s) with 0 by lia. cbn [Z.ltb Z.compare].
    assert (take_bytes (Z.to_nat n) (s +:+ p) = take_bytes (Z.to_nat n) s) as Ht.
    { rewrite take_bytes_app. replace (Z.to_nat n - String.length s)%nat with O by (unfold len in *; lia).
      apply append_nil_r. }
    destruct (0 <? len p) eqn:E; bool_prop; cbn [limit buf truncated]; rewrite Ht, len_app; f_equal.
    + symmetry. apply Z.ltb_lt. lia.
    + f_equal. unfold len in *. lia.
Qed.

Lemma limit_Write b p : limit (Write b p) = limit b.
Proof. unfold Write. by repeat case_match. Qed.

(** The buffer holds the first [limit] bytes of everything written, and says
    whether there was more. *)
Lemma capture_spec n chunks : 0 ≤ n →
  capture n chunks = mkBuffer (take_bytes (Z.to_nat n) (concat_bytes chunks)) n
    (n <? len (concat_bytes chunks)).
Proof.
  intros Hn. unfold capture.
  assert (∀ b s, limit b = n → offered b s →
    offered (fold_left Write chunks b) (s +:+ concat_bytes chunks) ∧ limit (fold_left Write chunks b) = n) as H.
  { induction chunks as [|p chunks IH]; intros b s Hl Hb; cbn; [by rewrite append_nil_r|].
    rewrite append_assoc. apply IH; [by rewrite limit_Write|]. apply Write_offered; [lia|done]. }
  destruct (H (mkBuffer "" n false) ""%string) as [Ho Hl]; [done| |].
  - unfold offered. cbn. f_equal; [by destruct (Z.to_nat n)|]. symmetry. apply Z.ltb_ge. exact Hn.
  - unfold offered in Ho. rewrite Hl in Ho. exact Ho.
Qed.

(** ** [ContainerRunner] *)

(** What a command of the engine did, seen from the runner: the CLI's error,
    the chunks it wrote, its trimmed stdout read as JSON, the time it took, and
    whether the deadline of the run or the caller's context is over by then. *)
Record Answer := mkAnswer {
  cli_error : option error;
  cli_stdout : list string;
  cli_stderr : list string;
  cli_json : RawMessage;
  elapsed : duration;
  run_ctx_done : bool;
  ctx_error : option error;
}.

Definition RuntimeGVisor : string := "runsc".
Definition RuntimeRunc : string := "runc".
Definition LabelSandbox : string := "ta-platform.sandbox".
Definition NobodyUser : string := "65534:65534".
Definition containerPrefix : string := "ta-sbx-".
Definition workspaceMount : string := "/workspace".

Record containerState := mkState { Running : bool; OOMKilled : bool; State_ExitCode : Z }.
Definition containerState_fields : list (field containerState) := [
  bool_field "Running" (λ b s, mkState b (OOMKilled s) (State_ExitCode s));
  bool_field "OOMKilled" (λ b s, mkState (Running s) b (State_ExitCode s));
  int64_field "ExitCode" (λ z s, mkState (Running s) (OOMKilled s) z)].

Record ContainerRunner := mkRunner { runtime : string; SeccompProfile : string; WorkDir : string }.

Section Runner.
Context (engine : list Call → Answer) (FormatFloat : float64 → string).
Context (r : ContainerRunner).

Definition cli (a : list string) (h : Host) : Answer * Host :=
  let calls' := calls h ++ [mkCall a (files h)] in (engine calls', mkHost (files h) calls').

Definition createArgs (name dir : string) (spec : Spec) (language : Language) : list string :=
  let limits := Spec_Limits spec in
  let seccomp := if bool_decide (SeccompProfile r = ""%string) then "seccomp=builtin"%string
                 else "seccomp=" +:+ SeccompProfile r in
  let memory := render_int (MemoryBytes limits) in
  let tmp := render_int (TmpBytes limits) in
  ["create"; "--name"; name; "--runtime"; runtime r; "--pull"; "never";
   "--label"; LabelSandbox +:+ "=true";
   "--label"; LabelSandbox +:+ ".execution-id=" +:+ ExecutionID spec;
   "--network"; "none"; "--hostname"; "sandbox"; "--read-only";
   "--tmpfs"; "/tmp:rw,noexec,nosuid,nodev,size=" +:+ tmp +:+ ",mode=1777";
   "--mount"; "type=bind,source=" +:+ dir +:+ ",target=" +:+ workspaceMount +:+ ",readonly";
   "--workdir"; workspaceMount; "--user"; NobodyUser; "--cap-drop"; "ALL";
   "--security-opt"; "no-new-privileges"; "--security-opt"; seccomp;
   "--memory"; memory; "--memory-swap"; memory; "--cpus"; FormatFloat (CPUs limits);
   "--pids-limit"; render_int (PIDs limits); "--ulimit"; "nofile=256:256";
   "--ulimit"; "fsize=" +:+ tmp +:+ ":" +:+ tmp; "--log-driver"; "none";
   "--env"; "HOME=/tmp"; "--interactive"]%string
  ++ (if bool_decide (runtime r = RuntimeGVisor)
      then ["--ulimit"; "nproc=" +:+ render_int (PIDs limits) +:+ ":" +:+ render_int (PIDs limits)]%string
      else [])
  ++ [Image language] ++ Command language (Entrypoint spec).

Definition inspect (name : string) (h : Host) : result containerState * Host :=
  let '(a, h) := cli ["inspect"; "--format"; "{{json .State}}"; name]%string h in
  match cli_error a with
  | Some e => (Err (Wrap "sandbox: inspect container" e), h)
  | None =>
      match unmarshal containerState_fields (cli_json a) (mkState false false 0) with
      | Some state => (Ok state, h)
      | None => (Err (Plain "sandbox: decode container state"), h)
      end
  end.

Definition stopped (name : string) (h : Host) : bool * Host :=
  let '(state, h) := inspect name h in
  (match state with Err _ => true | Ok s => negb (Running s) end, h).

Definition with_status (res : Result) (status : Status) (code : Z) : Result :=
  mkResult status code (Stdout res) (Stderr res) (StdoutTruncated res) (StderrTruncated res) (Duration res).

(** From [create] to the verdict; [Run]'s deferred calls come after it. *)
Definition run_container (name dir : string) (spec : Spec) (language : Language) (h : Host)
    : (Result * option error) * Host :=
  let '(a, h) := cli (createArgs name dir spec language) h in
  match cli_error a with
  | Some e => ((no_result, Some (Wrap "sandbox: create container" e)), h)
  | None =>
      let '(a, h) := cli ["start"; "--attach"; "--interactive"; name]%string h in
      let stdout := capture (OutputBytes (Spec_Limits spec)) (cli_stdout a) in
      let stderr := capture (OutputBytes (Spec_Limits spec)) (cli_stderr a) in
      let result := mkResult "" 0 (buf stdout) (buf stderr) (truncated stdout) (truncated stderr) (elapsed a) in
      if run_ctx_done a then
        let '(k, h) := cli ["kill"; "--signal"; "KILL"; name]%string h in
        match ctx_error k with
        | Some e => ((result, Some e), h)
        | None =>
            let timed_out := (with_status result StatusTimedOut (-1), None) in
            match cli_error k with
            | Some e =>
                let '(is_stopped, h) := stopped name h in
                if negb is_stopped
                then ((result, Some (Wrap "sandbox: kill timed-out container" e)), h)
                else (timed_out, h)
            | None => (timed_out, h)
            end
        end
      else
        let '(state, h) := inspect name h in
        match state with
        | Err e => ((result, Some e), h)
        | Ok state =>
            if Running state
            then ((result, Some (Plain "sandbox: container still running after attach ended")), h)
            else
              let status := if OOMKilled state then StatusOOMKilled
                            else if State_ExitCode state =? 0 then StatusSucceeded
                            else StatusFailed in
              ((with_status result status (State_ExitCode state), None), h)
        end
  end.

(** [Run]: [dir] is the directory [os.MkdirTemp] picks, [order] the order the
    snapshot map is iterated in; the deferred removals run on every path,
    [sweep] is what removing the directory meets. *)
Definition Run (spec : Spec) (dir : string) (order : list (string * string)) (fs : script) (sweep : fault) (h : Host)
    : (Result * option error) * Host :=
  match normalize spec with
  | Err e => ((no_result, Some e), h)
  | Ok (spec, language) =>
      match writeSnapshot dir order sweep fs h with
      | (Err e, _, h) => ((no_result, Some e), h)
      | (Ok _, _, h) =>
          let name := containerPrefix +:+ ExecutionID spec in
          let '(res, h) := run_container name dir spec language h in
          let '(_, h) := cli ["rm"; "--force"; "--volumes"; name]%string h in
          (res, mkHost (RemoveAll sweep (path_of dir) (files h)) (calls h))
      end
  end.

(** [strings.Fields] on ASCII text. *)
Definition is_space (a : ascii) : bool := in_range 9 13 a || in_range 32 32 a.
Fixpoint fields_of (word s : string) : list string :=
  let emit rest := if bool_decide (word = ""%string) then rest else word :: rest in
  match s with
  | EmptyString => emit []
  | String a s => if is_space a then emit (fields_of "" s) else fields_of (word +:+ String a "") s
  end.

Definition Reap (h : Host) : result Z * Host :=
  let '(a, h) := cli ["ps"; "--all"; "--quiet"; "--filter"; "label=" +:+ LabelSandbox +:+ "=true"]%string h in
  match cli_error a with
  | Some e => (Err (Wrap "sandbox: list leftover containers" e), h)
  | None =>
      match fields_of "" (concat_bytes (cli_stdout a)) with
      | [] => (Ok 0, h)
      | ids =>
          let '(a, h) := cli (["rm"; "--force"; "--volumes"]%string ++ ids) h in
          match cli_error a with
          | Some e => (Err (Wrap "sandbox: remove leftover containers" e), h)
          | None => (Ok (Z.of_nat (length ids)), h)
          end
      end
  end.

(** ** What [normalize] guarantees *)
Definition limits_ok (l : Limits) : Prop :=
  0 < WallClock l ≤ 60 * second ∧
  SpecFloat.SFleb (CPUs l) f64_0 = false ∧ SpecFloat.SFltb f64_2 (CPUs l) = false ∧
  0 < MemoryBytes l ≤ 2 ^ 30 ∧ 0 < PIDs l ≤ 256 ∧ 0 < OutputBytes l ≤ 2 ^ 22 ∧ 0 < TmpBytes l ≤ 2 ^ 28.

Lemma limits_normalized l : within (withDefaults l) MaxLimits = Ok () → limits_ok (withDefaults l).
Proof.
  unfold within. intros H. repeat (case_match; [done|]). bool_prop. unfold limits_ok.
  unfold withDefaults in *. cbn [WallClock CPUs MemoryBytes PIDs OutputBytes TmpBytes] in *.
  split_and!; try assumption; repeat case_match; bool_prop; try lia; try done.
Qed.

Lemma check_files_ok entries total n : check_files entries total = Ok n →
  Forall (λ e, plain_path e.1) entries ∧ n = total + foldr (λ e k, len e.2 + k) 0 entries.
Proof.
  revert total. induction entries as [|[name c] entries IH]; intros total; cbn.
  { intros [= <-]. split; [done|lia]. }
  destruct (validPath name) as [[]|] eqn:E; [|done]. apply validPath_plain in E.
  intros [H ->]%IH. split; [by constructor|]. lia.
Qed.

Lemma normalize_ok spec spec' language :
  normalize spec = Ok (spec', language) →
  limits_ok (Spec_Limits spec') ∧ Files spec' = Files spec ∧ ExecutionID spec' = ExecutionID spec ∧
  Entrypoint spec' = Entrypoint spec ∧ executionIDPattern (ExecutionID spec) = true ∧
  map_Forall (λ name _, plain_path name) (Files spec) ∧ is_Some (Files spec !! Entrypoint spec') ∧
  (1 ≤ size (Files spec) ≤ 200)%nat ∧
  Languages (Spec_Language spec) = Some language.
Proof.
  unfold normalize. destruct (executionIDPattern _) eqn:Eid; [|done].
  destruct (Languages _) as [lang|] eqn:El; [|done]. cbn. case_match eqn:Es; [done|].
  intros (total & Hf & H)%bind_ok. apply check_files_ok in Hf as [Hf _].
  repeat case_match; try done. injection H as <- <-. cbn. apply orb_false_iff in Es as [? ?]. bool_prop.
  match goal with W : within _ _ = Ok ?u |- _ => destruct u; apply limits_normalized in W end.
  unfold maxFiles in *. split_and!; try done; try lia.
  intros name c Hn. apply elem_of_map_to_list in Hn. exact (proj1 (Forall_forall _ _) Hf _ Hn).
Qed.

(** The engine commands of one execution after [create]. *)
Definition own_commands (name : string) : list (list string) :=
  [["start"; "--attach"; "--interactive"; name]; ["kill"; "--signal"; "KILL"; name];
   ["inspect"; "--format"; "{{json .State}}"; name]]%string.

Lemma inspect_calls name h state h' : inspect name h = (state, h') →
  files h' = files h ∧ calls h' = calls h ++ [mkCall ["inspect"; "--format"; "{{json .State}}"; name]%string (files h)].
Proof. unfold inspect. cbn. intros H. repeat case_match; by simplify_eq. Qed.

Lemma capture_len n chunks : 0 ≤ n → len (buf (capture n chunks)) ≤ n.
Proof. intros Hn. rewrite capture_spec by done. cbn. unfold len. rewrite length_take_bytes. lia. Qed.

Lemma run_container_calls name dir spec language h res err h' :
  0 ≤ OutputBytes (Spec_Limits spec) →
  run_container name dir spec language h = ((res, err), h') →
  files h' = files h ∧
  (∃ mid, calls h' = calls h ++ mkCall (createArgs name dir spec language) (files h) :: mid ∧
    Forall (λ c, args c ∈ own_commands name ∧ seen c = files h) mid) ∧
  (len (Stdout res) ≤ OutputBytes (Spec_Limits spec) ∧ len (Stderr res) ≤ OutputBytes (Spec_Limits spec)) ∧
  (err = None → Result_Status res ∈ [StatusSucceeded; StatusFailed; StatusTimedOut; StatusOOMKilled]).
Proof.
  intros Hl. unfold run_container, stopped. cbv zeta. cbn [cli]. set (c0 := mkCall (createArgs _ _ _ _) _).
  destruct (cli_error (engine _)) eqn:E0; [intros [= <- <- <-]; cbn; split_and!; try done; by exists []|].
  set (h1 := mkHost _ (calls h ++ [c0])). cbn [cli files calls h1].
  set (c1 := mkCall ["start"; _; _; _]%string _).
  pose proof (capture_len _ (cli_stdout (engine ((calls h ++ [c0]) ++ [c1]))) Hl).
  pose proof (capture_len _ (cli_stderr (engine ((calls h ++ [c0]) ++ [c1]))) Hl).
  destruct (run_ctx_done _) eqn:E1.
  - set (c2 := mkCall ["kill"; _; _; _]%string _).
    destruct (ctx_error _) eqn:E2.
    { intros [= <- <- <-]. cbn. split_and!; try done. exists [c1; c2]. rewrite <-!app_assoc. split; [done|].
      repeat constructor; set_solver. }
    case_match eqn:E3.
    2: { intros [= <- <- <-]. cbn. split_and!; try done; [|set_solver]. exists [c1; c2]. rewrite <-!app_assoc.
         split; [done|]. repeat constructor; set_solver. }
    destruct (inspect name _) as [state h3] eqn:E4. apply inspect_calls in E4 as [Ef Ec]. cbn in Ef, Ec.
    destruct (negb _); intros [= <- <- <-]; cbn; split_and!; try done; [| |set_solver].
    all: rewrite Ec; exists [c1; c2; mkCall ["inspect"; "--format"; "{{json .State}}"; name]%string (files h)];
      rewrite <-!app_assoc; split; [done|]; repeat constructor; set_solver.
  - destruct (inspect name _) as [state h3] eqn:E4. apply inspect_calls in E4 as [Ef Ec]. cbn in Ef, Ec.
    assert (∃ mid, calls h3 = calls h ++ c0 :: mid ∧
      Forall (λ c, args c ∈ own_commands name ∧ seen c = files h) mid) as Hm.
    { rewrite Ec. exists [c1; mkCall ["inspect"; "--format"; "{{json .State}}"; name]%string (files h)].
      rewrite <-!app_assoc. split; [done|]. repeat constructor; set_solver. }
    destruct state as [state|e]; [|by intros [= <- <- <-]].
    destruct (Running state); intros [= <- <- <-]; cbn; split_and!; try done.
    destruct (OOMKilled state), (State_ExitCode state =? 0); set_solver.
Qed.

(** The files below the snapshot directory are exactly the snapshot. *)
Definition holds_snapshot (dir : string) (spec : Spec) (fs0 fs : filesystem) : Prop :=
  same_outside (path_of dir) fs0 fs ∧
  ∀ p c, below (path_of dir) p → fs !! p = Some (File c) ↔
    ∃ name, Files spec !! name = Some c ∧ p = reverse (split slash name) ++ path_of dir.

(** ** What the engine makes of the [create] command

    The command line of [create] as the container CLI reads it: options with a
    value, flags without one, up to the first argument that is not an option,
    the image; what follows is the program the container runs. *)
Definition create_flags : list string := [
  "--read-only"; "--interactive"; "--privileged"; "--init"; "--rm"; "--tty"; "--publish-all";
  "--oom-kill-disable"; "--no-healthcheck"; "--quiet"; "--help"]%string.
Fixpoint parse_options (args : list string) : option (list (string * string) * list string) :=
  match args with
  | [] => Some ([], [])
  | o :: rest =>
      if negb (has_prefix "-" o) then Some ([], args)
      else if existsb (String.eqb o) create_flags
      then '(options, program) ← parse_options rest; Some ((o, ""%string) :: options, program)
      else match rest with
           | v :: rest => '(options, program) ← parse_options rest; Some ((o, v) :: options, program)
           | [] => None
           end
  end.
Definition parse_create (args : list string) : option (list (string * string) * list string) :=
  match args with
  | c :: args => if String.eqb c "create" then parse_options args else None
  | [] => None
  end.

(** Options as words of the command line. *)
Definition words (o : string * string) : list string :=
  o.1 :: if existsb (String.eqb o.1) create_flags then [] else [o.2].
Definition well_formed (o : string * string) : Prop :=
  has_prefix "-" o.1 = true ∧ (existsb (String.eqb o.1) create_flags = true → o.2 = ""%string).
Lemma parse_words options program image : Forall well_formed options → has_prefix "-" image = false →
  parse_options (flat_map words options ++ image :: program) = Some (options, image :: program).
Proof.
  intros Ho Hi. induction Ho as [|[o v] options [H1 H2] _ IH]; cbn [flat_map app parse_options]; [by rewrite Hi|].
  unfold words at 1. cbn [fst snd] in *. destruct (existsb _ create_flags) eqn:Ef; cbn [app parse_options]; rewrite H1, Ef; cbn [negb]; rewrite IH; [|done].
  by rewrite (H2 eq_refl).
Qed.

(** The options a container of the sandbox has: no network, a root file system
    and the one bind mount read-only, a small [/tmp] that runs nothing, nobody's
    user id, no capability, no new privileges, seccomp on, and the limits of
    the execution.  Nothing else is asked for: no other mount, device, name
    space, port or privilege. *)
Definition hardened_options (runtime seccomp cpus name dir execution : string) (limits : Limits) : list (string * string) :=
  let tmp := render_int (TmpBytes limits) in
  let memory := render_int (MemoryBytes limits) in
  let pids := render_int (PIDs limits) in
  [("--name", name); ("--runtime", runtime); ("--pull", "never");
   ("--label", "ta-platform.sandbox=true"); ("--label", "ta-platform.sandbox.execution-id=" +:+ execution);
   ("--network", "none"); ("--hostname", "sandbox"); ("--read-only", "");
   ("--tmpfs", "/tmp:rw,noexec,nosuid,nodev,size=" +:+ tmp +:+ ",mode=1777");
   ("--mount", join ","%char ["type=bind"; "source=" +:+ dir; "target=/workspace"; "readonly"]);
   ("--workdir", "/workspace"); ("--user", "65534:65534"); ("--cap-drop", "ALL");
   ("--security-opt", "no-new-privileges"); ("--security-opt", "seccomp=" +:+ seccomp);
   ("--memory", memory); ("--memory-swap", memory); ("--cpus", cpus); ("--pids-limit", pids);
   ("--ulimit", "nofile=256:256"); ("--ulimit", "fsize=" +:+ tmp +:+ ":" +:+ tmp);
   ("--log-driver", "none"); ("--env", "HOME=/tmp"); ("--interactive", "")]%string
  ++ (if bool_decide (runtime = "runsc"%string) then [("--ulimit", "nproc=" +:+ pids +:+ ":" +:+ pids)]%string else []).

Lemma createArgs_hardened name dir spec l language : Languages l = Some language →
  parse_create (createArgs name dir spec language) =
    Some (hardened_options (runtime r) (if bool_decide (SeccompProfile r = ""%string) then "builtin" else SeccompProfile r)
            (FormatFloat (CPUs (Spec_Limits spec))) name dir (ExecutionID spec) (Spec_Limits spec),
          Image language :: Command language (Entrypoint spec)).
Proof.
  intros Hl. set (options := hardened_options _ _ _ _ _ _ _).
  assert (Hwords : createArgs name dir spec language = "create"%string :: flat_map words options ++ Image language :: Command language (Entrypoint spec)).
  { unfold createArgs, options, hardened_options, RuntimeGVisor. rewrite flat_map_app.
    by destruct (bool_decide (runtime r = "runsc"%string)), (bool_decide (SeccompProfile r = ""%string)). }
  rewrite Hwords. apply (parse_words options).
  - unfold options, hardened_options. apply Forall_app.
    split; [|destruct (bool_decide (runtime r = _))]; repeat (apply Forall_cons; split; [by split|]); by apply Forall_nil.
  - unfold Languages in Hl. by repeat case_bool_decide; simplify_eq.
Qed.

(** C18: An execution is confined.  Whatever the container engine answers,
    whatever system call fails and however the run ends, [Run] starts at most
    one container.  The command that creates it reads, option for option, as a
    container without network, capabilities, new privileges or a writable file
    system but a small [/tmp], with seccomp on, limits inside [MaxLimits], and
    one mount: the snapshot directory, read-only.  The engine sees, in that
    directory, exactly the files of the snapshot and no other change to the
    host; every later command names this container only, and the last one
    force-removes it.  Afterwards nothing outside the directory has changed,
    and the host's files are as they were unless removing it failed - an error
    [Run] ignores.  A run that is refused or cannot write its snapshot issues
    no command.  Captured output never exceeds the limit. *)
Theorem Run_confined spec dir order fs sweep h res err h' :
  dir ≠ ""%string → free (path_of dir) (files h) → order ≡ₚ map_to_list (Files spec) →
  Run spec dir order fs sweep h = ((res, err), h') →
  same_outside (path_of dir) (files h) (files h') ∧
  ((calls h' = calls h ∧ is_Some err ∧
     (sweep = Done → files h' = files h ∨ files h' = <[path_of dir := Dir]> (files h))) ∨
   ((sweep = Done → files h' = files h) ∧ ∃ spec' language mid g create,
     let name := containerPrefix +:+ ExecutionID spec in
     normalize spec = Ok (spec', language) ∧ limits_ok (Spec_Limits spec') ∧
     calls h' = calls h ++ mkCall create g :: mid ++ [mkCall ["rm"; "--force"; "--volumes"; name]%string g] ∧
     parse_create create =
       Some (hardened_options (runtime r) (if bool_decide (SeccompProfile r = ""%string) then "builtin" else SeccompProfile r)
               (FormatFloat (CPUs (Spec_Limits spec'))) name dir (ExecutionID spec) (Spec_Limits spec'),
             Image language :: Command language (Entrypoint spec)) ∧
     Forall (λ c, args c ∈ own_commands name ∧ seen c = g) mid ∧
     holds_snapshot dir spec (files h) g ∧
     len (Stdout res) ≤ OutputBytes (Spec_Limits spec') ∧ len (Stderr res) ≤ OutputBytes (Spec_Limits spec') ∧
     (err = None → Result_Status res ∈ [StatusSucceeded; StatusFailed; StatusTimedOut; StatusOOMKilled]))).
Proof.
  intros Hd Hfree Hord. unfold Run. destruct (normalize spec) as [[spec' language]|e] eqn:En.
  2: { intros [= <- <- <-]. split; [done|]. left. eauto. }
  pose proof (normalize_ok _ _ _ En) as (Hl & Hfiles & Hid & Hentry & _ & Hpaths & _ & _ & Hlang).
  destruct (writeSnapshot dir order sweep fs h) as [[w fs1] h1] eqn:Ew.
  apply writeSnapshot_cases in Ew as [Hc Hw]; [|done| | |done].
  2: { apply Forall_forall. intros [name c] Hin. rewrite Hord in Hin. apply elem_of_map_to_list in Hin.
       by apply (Hpaths name c). }
  2: { rewrite Hord. apply NoDup_fst_map_to_list. }
  destruct Hw as [([e ->] & Ho & Hh)|[-> (Hdir & Hout & Hw)]].
  { intros [= <- <- <-]. split; [done|]. left. by split_and!. }
  rewrite Hid. destruct (run_container _ _ _ _ _) as [[res1 err1] h2] eqn:Er.
  apply run_container_calls in Er as (Ef & (mid & Ec & Hmid) & (? & ?) & Hst); [|unfold limits_ok in Hl; lia].
  intros [= <- <- <-]. cbn [files calls]. rewrite Ef. split; [etrans; [exact Hout|apply RemoveAll_outside]|].
  right. split; [intros ->; by apply RemoveAll_restores|].
  exists spec', language, mid, (files h1), (createArgs (containerPrefix +:+ ExecutionID spec) dir spec' language).
  cbn -[parse_create hardened_options createArgs]. rewrite Ec, Hc, <-app_assoc. split_and!; try done.
  { by rewrite (createArgs_hardened _ _ _ _ _ Hlang), Hid, Hentry. }
  split; [done|].
  intros p c Hp. rewrite Hw by done.
  assert (∀ name, (name, c) ∈ reverse order ↔ Files spec !! name = Some c) as Hn.
  { intros name. by rewrite elem_of_reverse, Hord, elem_of_map_to_list. }
  by setoid_rewrite Hn.
Qed.
End Runner.

(** ** Snapshots and the service (service.go) *)
Definition decode_files : list (string * json) → gmap string string → option (gmap string string) :=
  fix go kvs m :=
    match kvs with
    | [] => Some m
    | (k, JString s) :: kvs => go kvs (<[k := s]> m)
    | (k, JNull) :: kvs => go kvs (<[k := ""%string]> m)
    | _ => None
    end.
Definition Snapshot_fields : list (field (gmap string string)) := [
  ("files"%string, λ v m, match v with
                          | JNull => Some ∅
                          | JObject kvs => decode_files kvs m
                          | _ => None end)].

Definition sorted_entries (files : gmap string string) : list (string * string) :=
  sort_stable (λ a b, String.ltb a.1 b.1) (map_to_list files).

Definition EncodeSnapshot (files : gmap string string) : result json :=
  if forallb (λ e, valid_utf8 e.2) (map_to_list files)
  then Ok (JObject [("files"%string,
         JObject (map (λ e, (coerce_utf8 e.1, encode_string e.2)) (sorted_entries files)))])
  else invalid "file is not UTF-8".

Definition decodeSnapshot (body : RawMessage) : result (gmap string string) :=
  match unmarshal Snapshot_fields body ∅ with
  | Some files => Ok files
  | None => Err (Plain "decode snapshot")
  end.

Record ExecuteRequest := mkExecuteRequest {
  Req_ExecutionID : string;
  SnapshotKey : string;
  Req_Language : string;
  Req_Entrypoint : string;
  Req_Stdin : string;
  TimeoutMS : Z;
}.
Definition ExecuteRequest_fields : list (field ExecuteRequest) := [
  string_field "execution_id" (λ x r, mkExecuteRequest x (SnapshotKey r) (Req_Language r) (Req_Entrypoint r) (Req_Stdin r) (TimeoutMS r));
  string_field "snapshot_key" (λ x r, mkExecuteRequest (Req_ExecutionID r) x (Req_Language r) (Req_Entrypoint r) (Req_Stdin r) (TimeoutMS r));
  string_field "language" (λ x r, mkExecuteRequest (Req_ExecutionID r) (SnapshotKey r) x (Req_Entrypoint r) (Req_Stdin r) (TimeoutMS r));
  string_field "entrypoint" (λ x r, mkExecuteRequest (Req_ExecutionID r) (SnapshotKey r) (Req_Language r) x (Req_Stdin r) (TimeoutMS r));
  string_field "stdin" (λ x r, mkExecuteRequest (Req_ExecutionID r) (SnapshotKey r) (Req_Language r) (Req_Entrypoint r) x (TimeoutMS r));
  int64_field "timeout_ms" (λ x r, mkExecuteRequest (Req_ExecutionID r) (SnapshotKey r) (Req_Language r) (Req_Entrypoint r) (Req_Stdin r) x)].

Record ExecuteResponse := mkExecuteResponse {
  Resp_ExecutionID : string;
  Resp_Status : Status;
  Resp_ExitCode : Z;
  Resp_Stdout : string;
  Resp_Stderr : string;
  Resp_StdoutTruncated : bool;
  Resp_StderrTruncated : bool;
  DurationMS : Z;
}.

Definition ErrBusy : error := Sentinel "sandbox.ErrBusy".

(** [NewService]'s capacity. *)
Definition slots (concurrency : Z) : Z := if concurrency <? 1 then 1 else concurrency.

Section Service.
Context {S : Type}.
(** [SnapshotReader.Get(key, maxBytes)] and [Runner.Run], over any state. *)
Context (get : string → Z → S → result RawMessage) (run : Spec → S → (Result * option error) * S).

Definition spec_of (request : ExecuteRequest) (files : gmap string string) : Spec :=
  mkSpec (Req_ExecutionID request) (Req_Language request) (Req_Entrypoint request) files
    (Req_Stdin request) (mkLimits (mul64 (TimeoutMS request) millisecond) f64_0 0 0 0 0).

(** The body of [Execute] once it holds a slot. *)
Definition execute_admitted (request : ExecuteRequest) (s : S) : result ExecuteResponse * S :=
  if bool_decide (SnapshotKey request = ""%string) then (invalid "snapshot_key is required", s)
  else match get (SnapshotKey request) (maxSnapshotBytes * 2) s with
  | Err e => (Err (Wrap "load snapshot" e), s)
  | Ok body =>
      match decodeSnapshot body with
      | Err _ => (invalid "decode snapshot", s)
      | Ok files =>
          let '((result, err), s) := run (spec_of request files) s in
          (match err with
           | Some e => Err e
           | None => Ok (mkExecuteResponse (Req_ExecutionID request) (Result_Status result) (ExitCode result)
               (Stdout result) (Stderr result) (StdoutTruncated result) (StderrTruncated result)
               (milliseconds (Duration result)))
           end, s)
      end
  end.

(** [Execute] with [running] other executions under way. *)
Definition Execute (capacity running : Z) (request : ExecuteRequest) (s : S)
    : result ExecuteResponse * S :=
  if running <? capacity then execute_admitted request s else (Err ErrBusy, s).

(** [handleExecute]: the status and error code written, or the response. *)
Definition http_code (r : result ExecuteResponse) : Z * string :=
  match r with
  | Ok _ => (200, ""%string)
  | Err e =>
      if errors_is e ErrInvalidSpec then (400, "invalid_spec"%string)
      else if errors_is e ErrBusy then (503, "busy"%string)
      else (502, "sandbox_error"%string)
  end.

Definition no_request : ExecuteRequest := mkExecuteRequest "" "" "" "" "" 0.

(** [body] is the first JSON value of the request's first megabyte. *)
Definition handleExecute (capacity running : Z) (body : RawMessage) (s : S)
    : (Z * string) * option ExecuteResponse * S :=
  match unmarshal_strict ExecuteRequest_fields body no_request with
  | None => ((400, "invalid_request"%string), None, s)
  | Some request =>
      let '(response, s) := Execute capacity running request s in
      (http_code response, match response with Ok r => Some r | Err _ => None end, s)
  end.
End Service.

(** Requests arriving at and leaving a service: a slot is taken on arrival when
    one is free, and given back by the deferred receive on every path. *)
Inductive traffic := Arrive (id : N) | Leave (id : N).

Definition serve (capacity : Z) (t : traffic) (running : list N) : list N * option (result ()) :=
  match t with
  | Arrive id =>
      if Z.of_nat (length running) <? capacity then (id :: running, Some (Ok ()))
      else (running, Some (Err ErrBusy))
  | Leave id => (List.filter (λ j, negb (bool_decide (j = id))) running, None)
  end.

Fixpoint serve_all (capacity : Z) (ts : list traffic) (running : list N) : list N :=
  match ts with
  | [] => running
  | t :: ts => serve_all capacity ts (serve capacity t running).1
  end.

Lemma decode_files_app l m :
  NoDup l.*1 →
  decode_files (map (λ e : string * string, (e.1, JString e.2)) l) m = Some (list_to_map l ∪ m).
Proof.
  revert m. induction l as [|[k v] l IH]; intros m; cbn [map fmap list_fmap fst snd].
  { intros _. cbn. by rewrite (left_id_L ∅ (∪)). }
  intros [Hk Hl]%NoDup_cons. change (decode_files (map (λ e : string * string, (e.1, JString e.2)) l) (<[k:=v]> m)
    = Some (list_to_map ((k, v) :: l) ∪ m)).
  rewrite IH by done. f_equal. cbn. rewrite <-insert_union_l, insert_union_r; [done|].
  by apply not_elem_of_list_to_map_1.
Qed.

(** A snapshot whose names and contents are UTF-8 is stored and loaded
    unchanged, whatever the order of the map; contents that are not UTF-8 are
    refused, and a text that is no snapshot is refused on loading. *)
Theorem snapshot_roundtrip files :
  map_Forall (λ name _, valid_utf8 name = true) files →
  match EncodeSnapshot files with
  | Ok body => decodeSnapshot (Some body) = Ok files
  | Err e => errors_is e ErrInvalidSpec = true ∧ ∃ name content, files !! name = Some content ∧ valid_utf8 content = false
  end.
Proof.
  intros Hn. unfold EncodeSnapshot. destruct (forallb _ _) eqn:E.
  - unfold decodeSnapshot, unmarshal. cbn. set (l := sorted_entries files).
    assert (l ≡ₚ map_to_list files) as Hl by apply sort_stable_perm.
    assert (map (λ e, (coerce_utf8 e.1, encode_string e.2)) l = map (λ e, (e.1, JString e.2)) l) as ->.
    { apply map_ext_in. intros [k v] Hin%list_elem_of_In. rewrite Hl in Hin.
      rewrite forallb_forall in E. pose proof (E (k, v) (proj1 (list_elem_of_In _ _) Hin)) as Ev.
      apply elem_of_map_to_list, Hn in Hin. unfold valid_utf8 in *. bool_prop. unfold encode_string. cbn.
      cbn in Ev. congruence. }
    replace (find_field Snapshot_fields "files") with (head Snapshot_fields) by done. cbn [head Snapshot_fields snd].
    rewrite decode_files_app; [|rewrite Hl; apply NoDup_fst_map_to_list].
    cbn. rewrite (right_id_L ∅ (∪)). f_equal. rewrite (list_to_map_proper l (map_to_list files)); [apply list_to_map_to_list| |done].
    rewrite Hl. apply NoDup_fst_map_to_list.
  - split; [done|]. assert (¬ Forall (λ e, valid_utf8 e.2 = true) (map_to_list files)) as H.
    { intros H. rewrite Forall_forall in H. assert (forallb (λ e, valid_utf8 e.2) (map_to_list files) = true); [|congruence].
      apply forallb_forall. intros x Hx%list_elem_of_In. by apply H. }
    apply not_Forall_Exists in H; [|apply _]. apply Exists_exists in H as ([k v] & Hin & Hv).
    apply elem_of_map_to_list in Hin. exists k, v. split; [done|]. by apply not_true_is_false.
Qed.

(** However requests arrive and leave, a service never runs more executions
    than its slots (at least one); a request is answered [ErrBusy], having
    touched neither the snapshot store nor the runner, only when every slot is
    taken, and the client then sees 503; as soon as a running execution leaves,
    the next request is admitted. *)
Theorem executions_bounded {S} (get : string → Z → S → result RawMessage)
    (run : Spec → S → (Result * option error) * S) concurrency ts body s :
  let capacity := slots concurrency in
  let running := serve_all capacity ts [] in
  let n := Z.of_nat (length running) in
  1 ≤ capacity ∧ n ≤ capacity ∧
  (n = capacity →
     ∀ request, unmarshal_strict ExecuteRequest_fields body no_request = Some request →
     handleExecute get run capacity n body s = ((503, "busy"%string), None, s)) ∧
  (∀ id, id ∈ running → ∀ id',
     (serve capacity (Arrive id') (serve capacity (Leave id) running).1).2 = Some (Ok ())).
Proof.
  intros capacity running n.
  assert (∀ ts l, Z.of_nat (length l) ≤ capacity → Z.of_nat (length (serve_all capacity ts l)) ≤ capacity) as Hs.
  { intros ts'. induction ts' as [|t ts' IH]; intros l Hl; cbn; [done|]. apply IH. destruct t; cbn.
    - destruct (_ <? _) eqn:E; bool_prop; cbn [fst length]; lia.
    - pose proof (filter_length_le (λ j, negb (bool_decide (j = id))) l). lia. }
  assert (1 ≤ capacity) as H1 by (unfold capacity, slots; destruct (_ <? 1) eqn:E; bool_prop; lia).
  assert (n ≤ capacity) as Hn by (apply Hs; cbn; lia). split_and!; [done..| |].
  - intros E request Hr. unfold handleExecute. rewrite Hr. unfold Execute.
    by rewrite (proj2 (Z.ltb_ge _ _)) by lia.
  - intros id Hid id'. cbn. rewrite (proj2 (Z.ltb_lt _ _)); [done|].
    enough (length (List.filter (λ j, negb (bool_decide (j = id))) running) < length running)%nat by lia.
    clear -Hid. induction running as [|j l IH]; [by apply not_elem_of_nil in Hid|]. cbn.
    pose proof (filter_length_le (λ j, negb (bool_decide (j = id))) l).
    apply elem_of_cons in Hid as [->|Hid]; [rewrite bool_decide_eq_true_2 by done; cbn; lia|].
    apply IH in Hid. case_bool_decide; cbn; lia.
Qed.

Definition example_files : gmap string string := {["main.py"%string := "print(1)"%string]}.

Lemma snapshot_roundtrip_witness :
  map_Forall (λ name _, valid_utf8 name = true) example_files ∧
  match EncodeSnapshot example_files with
  | Ok body => decodeSnapshot (Some body) = Ok example_files
  | Err e => errors_is e ErrInvalidSpec = true ∧ ∃ name content,
      example_files !! name = Some content ∧ valid_utf8 content = false
  end.
Proof.
  assert (map_Forall (λ name _, valid_utf8 name = true) example_files) as H by by apply map_Forall_singleton.
  split; [exact H|]. exact (snapshot_roundtrip _ H).
Defined.

(** An execution on an engine that answers every command with success and a
    stopped container. *)
Definition calm_engine (h : list Call) : Answer :=
  mkAnswer None ["hi"%string] []
    (Some (JObject [("Running"%string, JBool false); ("OOMKilled"%string, JBool false);
                    ("ExitCode"%string, JNumber "0")])) second false None.
Definition example_spec : Spec :=
  mkSpec "run-1" "python" "pkg/main.py" {["pkg/main.py"%string := "print(1)"%string]} ""
    (mkLimits 0 f64_0 0 0 0 0).
Definition example_runner : ContainerRunner := mkRunner RuntimeGVisor "" "/work".
Definition example_host : Host := mkHost ∅ [].
Definition run_example : (Result * option error) * Host :=
  Run calm_engine (λ _, "1"%string) example_runner example_spec "/work/ta-sbx-1"
    [("pkg/main.py", "print(1)")]%string [] Done example_host.

Example run_example_result :
  run_example.1 = (mkResult StatusSucceeded 0 "hi" "" false false second, None) ∧
  map (λ c, hd ""%string (args c)) (calls run_example.2) = ["create"; "start"; "inspect"; "rm"]%string ∧
  files run_example.2 = ∅.
Proof. by vm_compute. Qed.

Lemma Run_confined_witness :
  files run_example.2 = ∅ ∧
  ∃ create g, calls run_example.2 !! 0%nat = Some (mkCall create g) ∧
    match parse_create create with
    | Some (options, program) =>
        ("--network", "none")%string ∈ options ∧
        ("--mount", "type=bind,source=/work/ta-sbx-1,target=/workspace,readonly")%string ∈ options ∧
        program = ["python:3.12-alpine"; "python3"; "-I"; "-B"; "pkg/main.py"]%string
    | None => False
    end.
Proof.
  destruct run_example as [[res err] h'] eqn:E.
  destruct (Run_confined calm_engine (λ _, "1"%string) example_runner example_spec "/work/ta-sbx-1"
    [("pkg/main.py", "print(1)")]%string [] Done example_host res err h') as [_ H].
  - discriminate.
  - intros p _. apply lookup_empty.
  - reflexivity.
  - exact E.
  - destruct H as [(Hc & _)|(Hf & spec' & language & mid & g & create & Hn & _ & Hc & Hp & _)].
    + exfalso. assert (calls run_example.2 ≠ []) as Hne by (vm_compute; discriminate). apply Hne. rewrite E. exact Hc.
    + split; [exact (Hf eq_refl)|]. exists create, g. split; [cbn [snd]; rewrite Hc; reflexivity|].
      rewrite Hp. vm_compute in Hn. injection Hn as <- <-. split; [|split; [|reflexivity]].
      * apply (bool_decide_eq_true_1 _). vm_compute. reflexivity.
      * apply (bool_decide_eq_true_1 _). vm_compute. reflexivity.
Defined.

(** C19: [ValidatePath] accepts exactly the names made of non-empty components
    other than [.] and [..], of at most 255 bytes, without backslash, NUL,
    colon or comma; joined to any directory, such a name resolves to those
    components below it, so no accepted name leaves the workspace and two
    accepted names never meet. *)
Theorem accepted_paths name :
  (ValidatePath name = Ok () ↔ plain_path name) ∧
  (plain_path name → ∀ dir, dir ≠ ""%string →
     path_of (Join dir name) = reverse (split slash name) ++ path_of dir ∧
     ∀ name', plain_path name' → path_of (Join dir name') = path_of (Join dir name) → name' = name).
Proof.
  split; [apply validPath_plain|]. intros (_ & Hp & _) dir Hd. split; [by apply path_of_Join|].
  intros name' (_ & Hp' & _). rewrite (proj1 (path_of_Join dir name Hd Hp)), (proj1 (path_of_Join dir name' Hd Hp')).
  intros E. by eapply split_inj, (inj reverse), app_inv_tail.
Qed.
