(* ===== verification/MergeTree.v ===== *)
(** * The merge trees (ClickHouse)

    A table [ENGINE = ReplacingMergeTree(version) ORDER BY key]: rows in
    insertion order, [FINAL] keeps of every key the row of the highest version,
    the last inserted of several.  The event log and the per-event projections
    of the analytics are such tables.  A table [ENGINE = AggregatingMergeTree
    ORDER BY key] keeps states that merges combine, one [ENGINE =
    SummingMergeTree] numbers that merges add up. *)
From S2P Require Import Prelude GoTime.

Section Replacing.
Context {A K : Type} `{CntK : Countable K} (key : A → K) (version : A → time).

Definition replace_row (t : gmap K A) (r : A) : gmap K A :=
  match t !! key r with
  | Some old => if version r <? version old then t else <[key r := r]> t
  | None => <[key r := r]> t
  end.
Definition final_rows (rows : list A) : gmap K A := foldl replace_row ∅ rows.

(** A background merge drops the row at [i] if a row that replaces it remains. *)
Definition replaced_by (r : A) (before after : list A) : bool :=
  existsb (λ r', bool_decide (key r' = key r) && (version r <? version r')) before ||
  existsb (λ r', bool_decide (key r' = key r) && (version r <=? version r')) after.
Definition merge_at (i : nat) (rows : list A) : list A :=
  match rows !! i with
  | Some r => if replaced_by r (take i rows) (drop (S i) rows) then delete i rows else rows
  | None => rows
  end.

(** ** FINAL

    [FINAL] reads of every key the newest row: a fold of an associative
    choice, so it does not depend on what merges have already dropped. *)
Definition newest (a b : option A) : option A :=
  match a, b with
  | Some x, Some y => if version y <? version x then a else b
  | None, _ => b
  | _, None => a
  end.
Definition of_key (k : K) (r : A) : option A := if decide (key r = k) then Some r else None.
Definition newest_of (k : K) (rows : list A) : option A := foldr (λ r acc, newest (of_key k r) acc) None rows.

Lemma newest_assoc a b c : newest a (newest b c) = newest (newest a b) c.
Proof.
  destruct a as [x|], b as [y|], c as [z|]; cbn; try done;
    repeat (cbn [newest]; match goal with |- context [?u <? ?v] => destruct (u <? v) eqn:?; try done end);
    bool_prop; lia.
Qed.
Lemma newest_None_r a : newest a None = a.
Proof. by destruct a. Qed.

Lemma newest_of_app k a b : newest_of k (a ++ b) = newest (newest_of k a) (newest_of k b).
Proof. induction a as [|r a IH]; [done|]. unfold newest_of in *. cbn. by rewrite IH, newest_assoc. Qed.

Lemma final_lookup rows k : final_rows rows !! k = newest_of k rows.
Proof.
  unfold final_rows. induction rows as [|r rows IH] using rev_ind; [done|].
  rewrite foldl_app, (newest_of_app k rows [r]). cbn. rewrite newest_None_r, <-IH. unfold replace_row, of_key.
  set (t := foldl _ _ _). destruct (decide (key r = k)) as [<-|Hk].
  - destruct (t !! key r) as [old|] eqn:E; cbn; [|by rewrite lookup_insert_eq].
    destruct (_ <? _); [done|by rewrite lookup_insert_eq].
  - rewrite newest_None_r. destruct (t !! key r) as [old|]; [destruct (_ <? _)|];
      by rewrite ?lookup_insert_ne.
Qed.

Lemma newest_of_some k rows r : newest_of k rows = Some r → r ∈ rows ∧ key r = k.
Proof.
  revert r. induction rows as [|x rows IH]; intros r; cbn; [done|]. fold (newest_of k rows) in *. unfold of_key.
  destruct (decide (key x = k)) as [Hk|]; cbn [newest].
  - destruct (newest_of k rows) as [y|].
    + cbn [newest]. destruct (_ <? _); intros [= <-]; [by split; [left|]|].
      destruct (IH y eq_refl). by split; [right|].
    + intros [= <-]. by split; [left|].
  - intros [? ?]%IH. by split; [right|].
Qed.

Lemma newest_of_ge k rows x :
  x ∈ rows → key x = k → ∃ r, newest_of k rows = Some r ∧ version x ≤ version r.
Proof.
  intros Hx Hk. induction Hx as [x rows|x y rows Hx IH]; cbn [newest_of foldr]; fold (newest_of k rows).
  - unfold of_key at 1. rewrite decide_True by done.
    destruct (newest_of k rows) as [y|]; cbn [newest]; [|by eauto with lia].
    destruct (version y <? _) eqn:E; bool_prop; eexists; (split; [done|lia]).
  - destruct (IH Hk) as (r & Hr & Hle). rewrite Hr. unfold of_key.
    destruct (decide (key y = k)); cbn [newest]; [|by eauto].
    destruct (version r <? _) eqn:E; bool_prop; eexists; (split; [done|lia]).
Qed.

Lemma final_dom rows k : is_Some (final_rows rows !! k) ↔ ∃ r, r ∈ rows ∧ key r = k.
Proof.
  rewrite final_lookup. split.
  - intros [r Hr]. exists r. by apply newest_of_some.
  - intros (r & Hin & Hk). destruct (newest_of_ge k rows r Hin Hk) as (x & -> & _). by eexists.
Qed.

(** Merges are invisible to [FINAL]. *)
Lemma merge_final i rows : final_rows (merge_at i rows) = final_rows rows.
Proof.
  unfold merge_at. destruct (rows !! i) as [r|] eqn:Er; [|done]. destruct (replaced_by _ _ _) eqn:E; [|done].
  apply map_eq. intros k. rewrite !final_lookup, delete_take_drop.
  transitivity (newest_of k (take i rows ++ r :: drop (S i) rows)); [|by rewrite take_drop_middle].
  rewrite !newest_of_app. change (newest_of k (r :: ?l)) with (newest (of_key k r) (newest_of k l)).
  unfold of_key. destruct (decide (key r = k)) as [Hk|]; [|done].
  unfold replaced_by in E. apply orb_true_iff in E as [E|E];
    apply existsb_witness in E as (x & Hx & Hr); bool_prop.
  - destruct (newest_of_ge k _ x Hx) as (y & -> & Hy); [congruence|]. rewrite newest_assoc. cbn [newest].
    by rewrite (proj2 (Z.ltb_lt _ _)) by lia.
  - destruct (newest_of_ge k _ x Hx) as (y & -> & Hy); [congruence|]. cbn [newest].
    by rewrite (proj2 (Z.ltb_ge _ _)) by lia.
Qed.

Lemma merge_subset i rows r : r ∈ merge_at i rows → r ∈ rows.
Proof.
  unfold merge_at. destruct (rows !! i) eqn:Er; [|done]. destruct (replaced_by _ _ _); [|done].
  rewrite delete_take_drop, elem_of_app. intros [H|H]; [by apply elem_of_take in H as (? & ? & ?); eapply list_elem_of_lookup_2|].
  apply list_elem_of_lookup in H as [j Hj]. rewrite lookup_drop in Hj. by eapply list_elem_of_lookup_2.
Qed.
End Replacing.

(** ** AggregatingMergeTree

    Rows of one key are combined by background merges, at any time; a query
    combines what is left.  Combining is associative and commutative, so the
    merges do not show; where it is also idempotent, as for sets, minima and
    maxima, a row inserted twice does not show either. *)
Class Combines {S} (combine : S → S → S) := {
  combine_assoc : Assoc (=) combine;
  combine_comm : Comm (=) combine;
}.
#[export] Existing Instances combine_assoc combine_comm.
Class Semilattice {S} (combine : S → S → S) := {
  semilattice_combines : Combines combine;
  combine_idem : IdemP (=) combine;
}.
#[export] Existing Instances semilattice_combines combine_idem.

Section Aggregating.
Context {K S : Type} `{CntK : Countable K} (combine : S → S → S).

Definition combine_opt (a b : option S) : option S := union_with (λ x y, Some (combine x y)) a b.
Definition merged (rows : list (K * S)) : gmap K S :=
  foldl (λ m r, partial_alter (λ o, combine_opt o (Some r.2)) r.1 m) ∅ rows.
(** A background merge of the rows at [i] and [j]. *)
Definition combine_at (i j : nat) (rows : list (K * S)) : list (K * S) :=
  match rows !! i, rows !! j with
  | Some a, Some b => if bool_decide (a.1 = b.1) && (i <? j)%nat then <[i := (a.1, combine a.2 b.2)]> (delete j rows) else rows
  | _, _ => rows
  end.
End Aggregating.
Section AggregatingLemmas.
Context {K S : Type} `{CntK : Countable K} (combine : S → S → S) `{!Combines combine}.
Local Notation joined := (combine_opt combine).
Local Notation merge_rows := (merged combine (K:=K)).

#[export] Instance opt_assoc : Assoc (=) joined.
Proof. intros [x|] [y|] [z|]; cbn; try done. by rewrite (assoc combine). Qed.
#[export] Instance opt_comm : Comm (=) joined.
Proof. intros [x|] [y|]; cbn; try done. by rewrite (comm combine). Qed.
Lemma opt_none_r a : joined a None = a.
Proof. by destruct a. Qed.

Definition at_key (k : K) (r : K * S) : option S := if decide (r.1 = k) then Some r.2 else None.
Definition merged_of (k : K) (rows : list (K * S)) : option S := foldr (λ r acc, joined (at_key k r) acc) None rows.
Lemma merged_of_cons k r rows : merged_of k (r :: rows) = joined (at_key k r) (merged_of k rows).
Proof. done. Qed.
Lemma merged_of_app k a b : merged_of k (a ++ b) = joined (merged_of k a) (merged_of k b).
Proof. induction a as [|r a IH]; [change (merged_of k b = joined None (merged_of k b)); by destruct (merged_of k b)|]. rewrite <-app_comm_cons, !merged_of_cons. by rewrite IH, (assoc joined). Qed.
Lemma merged_lookup rows k : merge_rows rows !! k = merged_of k rows.
Proof.
  unfold merged. induction rows as [|r rows IH] using rev_ind; [done|].
  rewrite foldl_app, merged_of_app. cbn. rewrite opt_none_r, <-IH. unfold at_key. destruct (decide (r.1 = k)) as [<-|Hk].
  - by rewrite lookup_partial_alter_eq.
  - rewrite lookup_partial_alter_ne by done. by rewrite opt_none_r.
Qed.
Lemma merged_of_perm k a b : a ≡ₚ b → merged_of k a = merged_of k b.
Proof.
  induction 1 as [|r a b _ IH|r1 r2 a|a b c _ IH1 _ IH2]; [done|by rewrite !merged_of_cons, IH| |by rewrite IH1].
  rewrite !merged_of_cons. by rewrite !(assoc joined), (comm joined (at_key k r1)).
Qed.
Lemma merged_app_same a a' b b' : merge_rows a = merge_rows a' → merge_rows b = merge_rows b' → merge_rows (a ++ b) = merge_rows (a' ++ b').
Proof.
  intros Ha Hb. apply map_eq. intros k. rewrite !merged_lookup, !merged_of_app, <-!merged_lookup. by rewrite Ha, Hb.
Qed.
(** States already combined by key, as a [GROUP BY] of a block gives them. *)
Lemma merged_grouped rows : merge_rows (map_to_list (merge_rows rows)) = merge_rows rows.
Proof.
  apply map_eq. intros k. rewrite merged_lookup. generalize (merge_rows rows) as m. intros m.
  induction m as [|k' s m Hm IH] using map_ind; [by rewrite map_to_list_empty|].
  rewrite (merged_of_perm k _ _ (map_to_list_insert m k' s Hm)), merged_of_cons, IH. unfold at_key. cbn.
  destruct (decide (k' = k)) as [<-|Hk]; [by rewrite lookup_insert_eq, Hm|rewrite lookup_insert_ne by done; by destruct (m !! k)].
Qed.
Lemma delete_insert_same (i : nat) (x : K * S) (rows : list (K * S)) : delete i (<[i:=x]> rows) = delete i rows.
Proof. revert i. induction rows as [|y rows IH]; intros [|i]; [done..|]. cbn. f_equal. apply IH. Qed.
(** The rows a background merge replaces, and what it leaves. *)
Lemma combine_at_old (i j : nat) k a b (rows : list (K * S)) : (i < j)%nat → rows !! i = Some (k, a) → rows !! j = Some (k, b) →
  rows ≡ₚ (k, a) :: (k, b) :: delete i (delete j rows).
Proof.
  intros Hlt Ei Ej. rewrite (Permutation_swap _ _ _). etrans; [by apply delete_Permutation|]. apply Permutation_skip.
  apply delete_Permutation. by rewrite list_lookup_delete_lt.
Qed.
Lemma combine_at_new (i j : nat) k a b (rows : list (K * S)) : (i < j)%nat → rows !! i = Some (k, a) → rows !! j = Some (k, b) →
  <[i:=(k, combine a b)]> (delete j rows) ≡ₚ (k, combine a b) :: delete i (delete j rows).
Proof.
  intros Hlt Ei Ej. pose proof (lookup_lt_Some _ _ _ Ej). etrans; [apply (delete_Permutation _ i (k, combine a b))|].
  - apply list_lookup_insert_eq. rewrite length_delete; [lia|by eexists].
  - apply Permutation_skip. by rewrite delete_insert_same.
Qed.
Lemma merged_combine_at i j rows : merge_rows (combine_at combine i j rows) = merge_rows rows.
Proof.
  unfold combine_at. destruct (rows !! i) as [[k1 a]|] eqn:Ei; [|done]. destruct (rows !! j) as [[k2 b]|] eqn:Ej; [|done].
  destruct (bool_decide _) eqn:Ek; [|done]. bool_prop. cbn in Ek. subst k2. destruct (Nat.ltb_spec i j) as [Hlt|]; [|done].
  cbn [andb fst snd]. apply map_eq. intros k. rewrite !merged_lookup.
  rewrite (merged_of_perm k _ _ (combine_at_old i j k1 a b rows Hlt Ei Ej)), (merged_of_perm k _ _ (combine_at_new i j k1 a b rows Hlt Ei Ej)).
  rewrite !merged_of_cons, (assoc joined). f_equal. unfold at_key. cbn. by destruct (decide (k1 = k)).
Qed.
End AggregatingLemmas.

Section Idempotent.
Context {K S : Type} `{CntK : Countable K} (combine : S → S → S) `{!Semilattice combine}.
Local Notation joined := (combine_opt combine).
Local Notation merge_rows := (merged combine (K:=K)).
Local Notation merged_of := (merged_of combine (K:=K)).

Lemma merged_of_again k r rows : r ∈ rows → merged_of k (r :: rows) = merged_of k rows.
Proof.
  intros (l1 & l2 & ->)%list_elem_of_split.
  rewrite (merged_of_perm combine k (r :: l1 ++ r :: l2) (r :: r :: l1 ++ l2)) by by rewrite <-Permutation_middle.
  rewrite (merged_of_perm combine k (l1 ++ r :: l2) (r :: l1 ++ l2)) by by rewrite <-Permutation_middle. rewrite !(merged_of_cons combine).
  rewrite (assoc joined). f_equal. unfold at_key. destruct (decide _); [|done]. cbn. by rewrite (idemp combine).
Qed.
Lemma merged_of_subset k a b : a ⊆ b → merged_of k (a ++ b) = merged_of k b.
Proof.
  induction a as [|r a IH]; intros H; [done|]. rewrite <-app_comm_cons, merged_of_again; [apply IH; intros x Hx; apply H; by right|].
  apply elem_of_app. right. apply H. by left.
Qed.
(** Only the set of the rows matters. *)
Lemma merged_same a b : a ⊆ b → b ⊆ a → merge_rows a = merge_rows b.
Proof.
  intros H1 H2. apply map_eq. intros k. rewrite !(merged_lookup combine), <-(merged_of_subset k a b H1), <-(merged_of_subset k b a H2).
  apply (merged_of_perm combine), Permutation_app_comm.
Qed.
End Idempotent.

(** ** Regrouping

    A query that groups the rows of a table by a coarser key sees what it would
    see of the rows never combined. *)
Section Regrouping.
Context {K S K' S' : Type} `{CntK : Countable K} `{CntK' : Countable K'}.
Context (combine : S → S → S) `{!Combines combine} (combine' : S' → S' → S') `{!Combines combine'}.
Context (coarse : K → option K') (read : K → S → S').
Hypothesis read_combine : ∀ k a b, read k (combine a b) = combine' (read k a) (read k b).

Definition regroup (r : K * S) : option (K' * S') := k ← coarse r.1; Some (k, read r.1 r.2).

Lemma merged_of_omap_cons k r rows : merged_of combine' k (omap regroup (r :: rows)) =
  combine_opt combine' (regroup r ≫= at_key k) (merged_of combine' k (omap regroup rows)).
Proof.
  change (omap regroup (r :: rows)) with (match regroup r with Some x => x :: omap regroup rows | None => omap regroup rows end).
  destruct (regroup r) as [x|]; [apply merged_of_cons|]. by destruct (merged_of combine' k (omap regroup rows)).
Qed.
Lemma omap_perm {A B} (f : A → option B) l l' : l ≡ₚ l' → omap f l ≡ₚ omap f l'.
Proof. by intros ->. Qed.

Lemma merged_regroup rows : merged combine' (omap regroup (map_to_list (merged combine rows))) = merged combine' (omap regroup rows).
Proof.
  apply map_eq. intros k. rewrite !(merged_lookup combine'). induction rows as [|[k0 s] rows IH] using rev_ind; [done|].
  transitivity (combine_opt combine' (regroup (k0, s) ≫= at_key k) (merged_of combine' k (omap regroup rows))).
  2: { rewrite <-merged_of_omap_cons. apply (merged_of_perm combine'), omap_perm, Permutation_cons_append. }
  unfold merged. rewrite foldl_app. cbn [foldl fst snd]. fold (merged combine rows). rewrite <-IH. generalize (merged combine rows). intros m. clear IH.
  destruct (m !! k0) as [s0|] eqn:Em.
  - rewrite (partial_alter_ext _ (λ _, Some (combine s0 s))) by (intros x Hx; rewrite Em in Hx; by subst x).
    change (partial_alter _ k0 m) with (<[k0 := combine s0 s]> m).
    rewrite <-insert_delete_eq.
    rewrite (merged_of_perm combine' k _ _ (omap_perm regroup _ _ (map_to_list_insert (delete k0 m) k0 (combine s0 s) (lookup_delete_eq m k0)))).
    rewrite <-(insert_delete_id m k0 s0 Em) at 2.
    rewrite (merged_of_perm combine' k _ _ (omap_perm regroup _ _ (map_to_list_insert (delete k0 m) k0 s0 (lookup_delete_eq m k0)))).
    rewrite !merged_of_omap_cons, (assoc (combine_opt combine')). f_equal. unfold regroup. cbn [fst snd]. destruct (coarse k0) as [k'|]; [|done].
    cbn [mbind option_bind]. unfold at_key. cbn [fst snd]. destruct (decide (k' = k)); [|done]. cbn. by rewrite read_combine, (comm combine').
  - rewrite (partial_alter_ext _ (λ _, Some s)) by (intros x Hx; rewrite Em in Hx; by subst x).
    change (partial_alter _ k0 m) with (<[k0 := s]> m).
    rewrite (merged_of_perm combine' k _ _ (omap_perm regroup _ _ (map_to_list_insert m k0 s Em))). apply merged_of_omap_cons.
Qed.
Lemma merged_regroup_same rows rows' : merged combine rows = merged combine rows' →
  merged combine' (omap regroup rows) = merged combine' (omap regroup rows').
Proof. intros E. by rewrite <-(merged_regroup rows), E, merged_regroup. Qed.
End Regrouping.

(** ** SummingMergeTree

    Merges add the rows of a key up, and drop a row whose sums are all zero.
    [count] is one of the sums, a UInt64: while it counts the rows a table was
    given, none of which counts for nothing, no row is ever dropped. *)
Definition add_u64 (a b : Z) : Z := (a + b) mod two64.
#[export] Instance add_u64_combines : Combines add_u64.
Proof.
  split; [intros a b c|intros a b]; unfold add_u64; [|by rewrite Z.add_comm].
  by rewrite Zplus_mod_idemp_r, Zplus_mod_idemp_l, Z.add_assoc.
Qed.

Section Summing.
Context {K S : Type} `{CntK : Countable K} (combine : S → S → S) `{!Combines combine} (zero : S → bool).
Definition drop_zero_at (i : nat) (rows : list (K * S)) : list (K * S) :=
  match rows !! i with
  | Some r => if zero r.2 then delete i rows else rows
  | None => rows
  end.

Context (count : S → Z).
Hypothesis count_combine : ∀ a b, count (combine a b) = add_u64 (count a) (count b).
Hypothesis count_zero : ∀ s, zero s = true → count s = 0.

Definition weight (rows : list (K * S)) : Z := foldr (λ r n, count r.2 + n) 0 rows.
(** Every row counts for something, [n] in all. *)
Definition counts (n : Z) (rows : list (K * S)) : Prop := Forall (λ r, 1 ≤ count r.2) rows ∧ weight rows = n.

Lemma weight_cons r rows : weight (r :: rows) = count r.2 + weight rows.
Proof. done. Qed.
Lemma weight_app a b : weight (a ++ b) = weight a + weight b.
Proof. induction a as [|r a IH]; [done|]. rewrite <-app_comm_cons, !weight_cons. lia. Qed.
Lemma counts_app n m a b : counts n a → counts m b → counts (n + m) (a ++ b).
Proof. intros [Ha Wa] [Hb Wb]. split; [by apply Forall_app|]. rewrite weight_app. lia. Qed.
Lemma counts_perm n a b : a ≡ₚ b → counts n a → counts n b.
Proof.
  intros Hp [Ha Wa]. split; [by rewrite <-Hp|]. subst n. clear Ha. induction Hp as [|r a b _ IH|r1 r2 a|a b c _ IH1 _ IH2]; [done| | |congruence]; rewrite !weight_cons; lia.
Qed.
Lemma counts_nonneg n rows : counts n rows → 0 ≤ n.
Proof. intros [H <-]. induction H as [|r rows Hr _ IH]; [done|]. rewrite weight_cons. lia. Qed.
Lemma counts_two n k a b rows : n < two64 → counts n ((k, a) :: (k, b) :: rows) → counts n ((k, combine a b) :: rows).
Proof.
  intros Hn [Hf Hw]. inversion_clear Hf as [|? ? Ha Hf']. inversion_clear Hf' as [|? ? Hb Hr]. cbn in Ha, Hb. rewrite !weight_cons in Hw. cbn in Hw.
  assert (0 ≤ weight rows) by (by eapply counts_nonneg; split). assert (Hc : count (combine a b) = count a + count b).
  { rewrite count_combine. unfold add_u64. apply Z.mod_small. lia. }
  split; [constructor; [cbn; lia|done]|]. rewrite weight_cons. cbn. lia.
Qed.

Lemma counts_merged n rows : n < two64 → counts n rows → counts n (map_to_list (merged combine rows)).
Proof.
  revert n. induction rows as [|[k0 s] rows IH] using rev_ind; intros n Hn [Hf Hw].
  { change (merged combine []) with (∅ : gmap K S). by rewrite map_to_list_empty. }
  apply Forall_app in Hf as [Hf Hs]. rewrite weight_app in Hw. inversion_clear Hs as [|? ? Hs' _]. rewrite weight_cons in Hw. cbn in Hw, Hs'.
  assert (Hm := IH (weight rows) ltac:(lia) (conj Hf eq_refl)). clear IH.
  unfold merged. rewrite foldl_app. cbn [foldl fst snd]. fold (merged combine rows). revert Hm. generalize (merged combine rows). intros m Hm.
  assert (Hall : counts n ((k0, s) :: map_to_list m)).
  { destruct Hm as [Hmf Hmw]. split; [by constructor|]. rewrite weight_cons. cbn. lia. }
  destruct (m !! k0) as [s0|] eqn:Em.
  - rewrite (partial_alter_ext _ (λ _, Some (combine s0 s))) by (intros x Hx; rewrite Em in Hx; by subst x).
    change (partial_alter _ k0 m) with (<[k0 := combine s0 s]> m). rewrite <-insert_delete_eq.
    eapply counts_perm; [symmetry; apply map_to_list_insert, lookup_delete_eq|]. apply counts_two; [done|].
    eapply counts_perm; [|exact Hall]. rewrite <-(insert_delete_id m k0 s0 Em) at 1. rewrite map_to_list_insert by apply lookup_delete_eq.
    by apply Permutation_swap.
  - rewrite (partial_alter_ext _ (λ _, Some s)) by (intros x Hx; rewrite Em in Hx; by subst x).
    change (partial_alter _ k0 m) with (<[k0 := s]> m). eapply counts_perm; [|exact Hall]. by rewrite map_to_list_insert.
Qed.
Lemma counts_combine_at n i j rows : n < two64 → counts n rows → counts n (combine_at combine i j rows).
Proof.
  intros Hn Hc. unfold combine_at. destruct (rows !! i) as [[k1 a]|] eqn:Ei; [|done]. destruct (rows !! j) as [[k2 b]|] eqn:Ej; [|done].
  destruct (bool_decide _) eqn:Ek; [|done]. bool_prop. cbn in Ek. subst k2. destruct (Nat.ltb_spec i j) as [Hlt|]; [|done].
  cbn [andb fst snd]. eapply counts_perm; [symmetry; by eapply combine_at_new|]. apply counts_two; [done|].
  eapply counts_perm; [by eapply combine_at_old|done].
Qed.
Lemma counts_drop_zero n i rows : counts n rows → drop_zero_at i rows = rows.
Proof.
  intros [Hf _]. unfold drop_zero_at. destruct (rows !! i) as [r|] eqn:E; [|done]. destruct (zero r.2) eqn:Ez; [|done].
  apply count_zero in Ez. rewrite Forall_lookup in Hf. specialize (Hf i r E). cbn in Hf. lia.
Qed.
End Summing.
