(* ===== verification/EventLog.v ===== *)
(** * The event log writer (internal/eventlogwriter: writer.go, store.go)

    The consumer that projects the session-events topic into ClickHouse: the
    decoding of one Kafka message into a row, the batches of [Run] with every
    failure of the reader and of ClickHouse, and the [events] table with its
    [ReplacingMergeTree] engine.  [history] interleaves producers, background
    merges of the table and the lifetimes of the writer's process. *)
From S2P Require Import Prelude Str GoTime Json Rfc3339 Codec Events Tx MergeTree.

(** ** Rows *)
Record Row := mkRow {
  Row_EventID : string;
  Row_CompanyID : string;
  Row_InterviewID : string;
  Row_SequenceNumber : Z;
  Row_EventType : EventType;
  Row_SchemaVersion : Z;
  Row_OccurredAt : time;
  Row_Payload : RawMessage;
  Row_CandidateID : option string;
  Row_JobID : option string;
  Row_ApplicationID : option string;
  Row_SessionID : option string;
  Row_UserID : option string;
  Row_Outcome : option string;
  IngestedAt : time;
}.

Record promotedPayload := mkPromoted {
  Promoted_InterviewID : string;
  Promoted_CandidateID : option string;
  Promoted_JobID : option string;
  Promoted_ApplicationID : option string;
  Promoted_SessionID : option string;
  Promoted_UserID : option string;
  Promoted_Outcome : option string;
}.

Definition promoted_schema : list spec := [
  mkSpec "interview_id" KString false; mkSpec "candidate_id" KStringPtr false;
  mkSpec "job_id" KStringPtr false; mkSpec "application_id" KStringPtr false;
  mkSpec "session_id" KStringPtr false; mkSpec "user_id" KStringPtr false;
  mkSpec "outcome" KStringPtr false].

Definition unmarshal_promoted (m : RawMessage) : option promotedPayload :=
  vs ← decode promoted_schema m (zero_struct promoted_schema);
  match vs with
  | [VString i; VStringPtr c; VStringPtr j; VStringPtr a; VStringPtr s; VStringPtr u; VStringPtr o] =>
      Some (mkPromoted i c j a s u o)
  | _ => None
  end.

Definition Decode (value : RawMessage) (ingestedAt : time) : result Row :=
  match unmarshal_envelope value with
  | None => Err (Wrap "envelope" (Plain "json"))
  | Some envelope =>
      if bool_decide (EventID envelope = ""%string) || bool_decide (Envelope_CompanyID envelope = ""%string) ||
         bool_decide (Envelope_EventType envelope = ""%string) || (SequenceNumber envelope <? 0) ||
         is_zero (OccurredAt envelope)
      then Err (Plain "invalid event envelope")
      else if negb (json_Valid (Envelope_Payload envelope)) then Err (Plain "payload is not valid JSON")
      else match unmarshal_promoted (Envelope_Payload envelope) with
        | None => Err (Wrap "typed payload projection" (Plain "json"))
        | Some promoted =>
            if bool_decide (Promoted_InterviewID promoted = ""%string)
            then Err (Plain "payload.interview_id is required")
            else Ok (mkRow (EventID envelope) (Envelope_CompanyID envelope) (Promoted_InterviewID promoted)
              (SequenceNumber envelope) (Envelope_EventType envelope) (Envelope_SchemaVersion envelope)
              (OccurredAt envelope) (Envelope_Payload envelope) (Promoted_CandidateID promoted)
              (Promoted_JobID promoted) (Promoted_ApplicationID promoted) (Promoted_SessionID promoted)
              (Promoted_UserID promoted) (Promoted_Outcome promoted) ingestedAt)
        end
  end.

(** ** The events table

    [ENGINE = ReplacingMergeTree(ingested_at) ORDER BY (company_id,
    interview_id, sequence_number)], see [MergeTree]. *)
Definition event_key : Type := string * string * Z.
Definition row_key (r : Row) : event_key := (Row_CompanyID r, Row_InterviewID r, Row_SequenceNumber r).

Notation final_rows := (MergeTree.final_rows row_key IngestedAt).
Notation newest_of := (MergeTree.newest_of row_key IngestedAt).
Notation merge_at := (MergeTree.merge_at row_key IngestedAt).
Notation final_lookup := (MergeTree.final_lookup row_key IngestedAt).
Notation final_dom := (MergeTree.final_dom row_key IngestedAt).
Notation newest_of_some := (MergeTree.newest_of_some row_key IngestedAt).
Notation newest_of_ge := (MergeTree.newest_of_ge row_key IngestedAt).
Notation merge_final := (MergeTree.merge_final row_key IngestedAt).
Notation merge_subset := (MergeTree.merge_subset row_key IngestedAt).

(** ** The writer *)

(** A Kafka message as the reader returns it. *)
Record Message := mkMessage { Partition : Z; Offset : nat; Value : RawMessage }.

(** The topic's partitions, the consumer group's committed offsets, where the
    reader stands, the table and what [OnInvalid] was called with. *)
Record LogWorld := mkLogWorld {
  topic : gmap Z (list RawMessage);
  committed : gmap Z nat;
  position : gmap Z nat;
  events_table : list Row;
  reported : list (Message * error);
}.

Definition offset_of (m : gmap Z nat) (p : Z) : nat := default 0%nat (m !! p).
Definition partition (w : LogWorld) (p : Z) : list RawMessage := default [] (topic w !! p).

Definition set_position (f : gmap Z nat → gmap Z nat) (w : LogWorld) : LogWorld :=
  mkLogWorld (topic w) (committed w) (f (position w)) (events_table w) (reported w).
Definition set_table (f : list Row → list Row) (w : LogWorld) : LogWorld :=
  mkLogWorld (topic w) (committed w) (position w) (f (events_table w)) (reported w).
Definition report_invalid (m : Message) (e : error) (w : LogWorld) : LogWorld :=
  mkLogWorld (topic w) (committed w) (position w) (events_table w) (reported w ++ [(m, e)]).

(** [CommitMessages]: the group's offset of a partition becomes the one after
    its highest message in the call. *)
Definition highest (p : Z) (messages : list Message) : option nat :=
  foldr (λ m acc, if Partition m =? p then Some (Nat.max (S (Offset m)) (default 0%nat acc)) else acc) None messages.
Definition commit_offsets (messages : list Message) (w : LogWorld) : LogWorld :=
  mkLogWorld (topic w)
    (foldl (λ c m, match highest (Partition m) messages with
                   | Some o => <[Partition m := o]> c
                   | None => c end) (committed w) messages)
    (position w) (events_table w) (reported w).

(** What a fetch meets: the next message of a partition, a partition handed
    back by the group and read again from its committed offset, or an error. *)
Inductive delivery := Next (p : Z) | Reassigned (p : Z) | FetchFails (e : error).

Definition next_message (p : Z) (w : LogWorld) : option (Message * LogWorld) :=
  let o := offset_of (position w) p in
  v ← partition w p !! o;
  Some (mkMessage p o v, set_position <[p := S o]> w).

(** [FetchMessage] waits while there is nothing to read; [None] is a fetch
    that is still waiting. *)
Fixpoint FetchMessage (ds : list delivery) (w : LogWorld)
    : option (result Message) * list delivery * LogWorld :=
  match ds with
  | [] => (None, [], w)
  | FetchFails e :: ds => (Some (Err e), ds, w)
  | d :: ds =>
      let '(p, w) := match d with
        | Reassigned p => (p, set_position <[p := offset_of (committed w) p]> w)
        | Next p => (p, w)
        | FetchFails _ => (0, w) end in
      match next_message p w with
      | Some (m, w) => (Some (Ok m), ds, w)
      | None => FetchMessage ds w
      end
  end.

Record Config := mkConfig { BatchSize : Z; BatchWait : duration; OnInvalid : bool }.

Definition New (config : Config) : result () :=
  if BatchSize config <=? 0 then Err (Plain "event-log-writer: batch size must be positive")
  else if BatchWait config <=? 0 then Err (Plain "event-log-writer: batch wait must be positive")
  else Ok ().

(** One iteration of [Run] meets these: deliveries, [ctx.Err()], the clock at
    each message decoded, the faults of ClickHouse and of the commit. *)
Record turn := mkTurn {
  deliveries : list delivery;
  ctx_err : option error;
  clock : nat → time;
  faults : script;
}.

(** The inner loop of [Run]; [room] is how many more messages the batch takes,
    a fetch still waiting when the batch's time is over is a break. *)
Fixpoint fill_batch (room : nat) (t : turn) (ds : list delivery) (messages : list Message) (w : LogWorld)
    : result (list Message) * LogWorld :=
  match room with
  | O => (Ok messages, w)
  | S room =>
      match FetchMessage ds w with
      | (None, _, w) => (Ok messages, w)
      | (Some (Ok m), ds, w) => fill_batch room t ds (messages ++ [m]) w
      | (Some (Err e), _, w) =>
          (match ctx_err t with
           | None => if errors_is e context_DeadlineExceeded then Ok messages
                     else Err (Wrap "event-log-writer: fill batch" e)
           | Some c => Err c
           end, w)
      end
  end.

Fixpoint decode_batch (config : Config) (clock : nat → time) (i : nat) (messages : list Message) (w : LogWorld)
    : list Row * LogWorld :=
  match messages with
  | [] => ([], w)
  | m :: messages =>
      match Decode (Value m) (clock i) with
      | Err e =>
          decode_batch config clock (S i) messages (if OnInvalid config then report_invalid m e w else w)
      | Ok row =>
          let '(rows, w) := decode_batch config clock (S i) messages w in (row :: rows, w)
      end
  end.

Section Columns.
(** The ClickHouse driver's [DateTime64(precision, 'UTC')] of an instant. *)
Variable DateTime64 : Z → time → time.

Definition columns (r : Row) : Row :=
  mkRow (Row_EventID r) (Row_CompanyID r) (Row_InterviewID r) (Row_SequenceNumber r) (Row_EventType r)
    (Row_SchemaVersion r mod 65536) (DateTime64 3 (Row_OccurredAt r)) (Row_Payload r) (Row_CandidateID r)
    (Row_JobID r) (Row_ApplicationID r) (Row_SessionID r) (Row_UserID r) (Row_Outcome r)
    (DateTime64 6 (IngestedAt r)).

Fixpoint append_rows (rows : list Row) : M LogWorld () :=
  match rows with
  | [] => mret ()
  | r :: rows => wrapM ("append event " +:+ Row_EventID r) (query (λ _, ()));; append_rows rows
  end.

Definition Insert (rows : list Row) : M LogWorld () :=
  match rows with
  | [] => mret ()
  | _ =>
      wrapM "prepare ClickHouse batch" (query (λ _, ()));;
      append_rows rows;;
      wrapM "send ClickHouse batch" (batch (λ rows, set_table (λ t, t ++ rows)) (map columns rows))
  end.

Definition write_batch (rows : list Row) (messages : list Message) : M LogWorld () :=
  wrapM "event-log-writer: insert batch" (Insert rows);;
  wrapM "event-log-writer: commit offsets" (batch commit_offsets messages).

(** One iteration of [Run]; the error is what [Run] returns. *)
Definition run_turn (config : Config) (t : turn) (w : LogWorld) : option error * LogWorld :=
  match FetchMessage (deliveries t) w with
  | (None, _, w) => (None, w)
  | (Some (Err e), _, w) =>
      (Some (match ctx_err t with
             | Some c => c
             | None => Wrap "event-log-writer: fetch event" e end), w)
  | (Some (Ok first), ds, w) =>
      match fill_batch (Z.to_nat (BatchSize config - 1)) t ds [first] w with
      | (Err e, w) => (Some e, w)
      | (Ok messages, w) =>
          let '(rows, w) := decode_batch config (clock t) 0 messages w in
          let '(r, _, w) := write_batch rows messages (faults t) w in
          (match r with Err e => Some e | Ok _ => None end, w)
      end
  end.

Fixpoint Run (config : Config) (turns : list turn) (w : LogWorld) : option error * LogWorld :=
  match turns with
  | [] => (None, w)
  | t :: turns =>
      match run_turn config t w with
      | (Some e, w) => (Some e, w)
      | (None, w) => Run config turns w
      end
  end.

(** ** Histories *)
Inductive op :=
  | Produce (p : Z) (value : RawMessage)
  | MergeParts (i : nat)
  (* a process starts at the committed offsets and runs until it returns or is killed *)
  | Process (config : Config) (turns : list turn).

Definition exec_op (o : op) (w : LogWorld) : LogWorld :=
  match o with
  | Produce p v =>
      mkLogWorld (<[p := partition w p ++ [v]]> (topic w)) (committed w) (position w) (events_table w) (reported w)
  | MergeParts i => set_table (merge_at i) w
  | Process config turns => (Run config turns (set_position (λ _, committed w) w)).2
  end.
Definition history (ops : list op) (w : LogWorld) : LogWorld := foldl (λ w o, exec_op o w) w ops.
Definition empty_log : LogWorld := mkLogWorld ∅ ∅ ∅ [] [].
End Columns.

(** ** Rows and the clock *)

(** The sort key and the content of a row do not depend on the clock. *)
Definition with_ingested (at_ : time) (r : Row) : Row :=
  mkRow (Row_EventID r) (Row_CompanyID r) (Row_InterviewID r) (Row_SequenceNumber r) (Row_EventType r)
    (Row_SchemaVersion r) (Row_OccurredAt r) (Row_Payload r) (Row_CandidateID r) (Row_JobID r)
    (Row_ApplicationID r) (Row_SessionID r) (Row_UserID r) (Row_Outcome r) at_.

Lemma Decode_clock v at1 at2 row : Decode v at1 = Ok row → Decode v at2 = Ok (with_ingested at2 row).
Proof. unfold Decode. intros H. split_match; done. Qed.

(** ** The projection *)
Section Projection.
Variable DateTime64 : Z → time → time.
(** Whether every writer process of the history reports what it skips. *)
Variable reporting : bool.
Local Notation columns := (columns DateTime64).

(** A row of the table is the stored form of a message of the topic. *)
Definition from_topic (w : LogWorld) (r : Row) : Prop :=
  ∃ p v at_ row, v ∈ partition w p ∧ Decode v at_ = Ok row ∧ r = columns row.

(** A message is dealt with: its key is in the table, or it cannot be decoded
    (and was reported). *)
Definition handled (w : LogWorld) (m : Message) : Prop :=
  match Decode (Value m) 0 with
  | Ok row => ∃ r, r ∈ events_table w ∧ row_key r = row_key row
  | Err _ => reporting = true → ∃ e, (m, e) ∈ reported w
  end.

Definition in_log (w : LogWorld) (m : Message) : Prop := partition w (Partition m) !! Offset m = Some (Value m).

Record log_inv (msgs : list Message) (w : LogWorld) : Prop := {
  inv_rows : ∀ r, r ∈ events_table w → from_topic w r;
  inv_committed : ∀ m, in_log w m → (Offset m < offset_of (committed w) (Partition m))%nat → handled w m;
  inv_position : ∀ m, in_log w m → (Offset m < offset_of (position w) (Partition m))%nat → handled w m ∨ m ∈ msgs;
  inv_batch : ∀ m, m ∈ msgs → in_log w m ∧ ∀ m', in_log w m' → Partition m' = Partition m →
    (Offset m' ≤ Offset m)%nat → handled w m' ∨ m' ∈ msgs;
  inv_bounds : ∀ p, (offset_of (committed w) p ≤ length (partition w p))%nat ∧
    (offset_of (position w) p ≤ length (partition w p))%nat;
}.

(** [w'] has the rows, reports and topic of [w] and more. *)
Record extends (w w' : LogWorld) : Prop := {
  ext_topic : ∀ m, in_log w m → in_log w' m;
  ext_keys : ∀ r, r ∈ events_table w → ∃ r', r' ∈ events_table w' ∧ row_key r' = row_key r;
  ext_reported : ∀ x, x ∈ reported w → x ∈ reported w';
}.

Lemma handled_extends w w' m : extends w w' → handled w m → handled w' m.
Proof.
  intros Hx. unfold handled. destruct (Decode _ _).
  - intros (r & Hr & Hk). destruct (ext_keys _ _ Hx r Hr) as (r' & ? & ?). exists r'. split; [done|congruence].
  - intros H Hrep. destruct (H Hrep) as [e' He]. exists e'. by apply (ext_reported _ _ Hx).
Qed.

Lemma offset_of_insert m p p' o : offset_of (<[p := o]> m) p' = if decide (p = p') then o else offset_of m p'.
Proof.
  unfold offset_of. destruct (decide (p = p')) as [->|]; [by rewrite lookup_insert_eq|by rewrite lookup_insert_ne].
Qed.

(** Moving the reader back to a committed offset, and reading one message. *)
Lemma inv_seek msgs w p :
  log_inv msgs w → log_inv msgs (set_position <[p := offset_of (committed w) p]> w).
Proof.
  intros [H1 H2 H3 H4 H5]. constructor; [done|done| |done|].
  - intros m Hm. cbn. rewrite offset_of_insert.
    destruct (decide _) as [->|]; intros Ho; [left; by apply H2|by apply H3].
  - intros p'. specialize (H5 p'). cbn. rewrite offset_of_insert. change (partition _ p') with (partition w p').
    destruct (decide _) as [->|]; lia.
Qed.

Lemma inv_next msgs w p m w' :
  next_message p w = Some (m, w') → log_inv msgs w → log_inv (msgs ++ [m]) w'.
Proof.
  unfold next_message. intros (v & Hv & [= <- <-])%bind_Some [H1 H2 H3 H4 H5].
  assert (Hpos : ∀ m', in_log w m' → Partition m' = p → (Offset m' ≤ offset_of (position w) p)%nat →
    handled w m' ∨ m' ∈ msgs ++ [mkMessage p (offset_of (position w) p) v]).
  { intros [p' o' v'] Hm' <- Ho. cbn in *. apply Nat.le_lteq in Ho as [Ho| ->].
    - destruct (H3 _ Hm' Ho); [by left|right]. by apply elem_of_app; left.
    - right. unfold in_log in Hm'. cbn in Hm'. rewrite Hv in Hm'. simplify_eq. apply elem_of_app. right. by left. }
  constructor; [done|done| | |].
  3:{ intros p'. specialize (H5 p'). cbn. rewrite offset_of_insert. change (partition _ p') with (partition w p').
      apply lookup_lt_Some in Hv. destruct (decide _) as [<-|]; lia. }
  - intros m Hm. cbn. rewrite offset_of_insert. destruct (decide _) as [Hp|]; intros Ho.
    + apply Hpos; [done|done|lia].
    + destruct (H3 m Hm Ho); [by left|right]. by apply elem_of_app; left.
  - intros m [Hm|Hm]%elem_of_app.
    + destruct (H4 m Hm) as [Hl Hle]. split; [done|]. intros m' Hl' Hp Ho.
      destruct (Hle m' Hl' Hp Ho); [by left|right]. by apply elem_of_app; left.
    + apply list_elem_of_singleton in Hm as ->. split; [done|]. intros m' Hl' Hp Ho. by apply Hpos.
Qed.

Lemma inv_log_fetch ds msgs w r ds' w' :
  FetchMessage ds w = (r, ds', w') → log_inv msgs w →
  match r with Some (Ok m) => log_inv (msgs ++ [m]) w' | _ => log_inv msgs w' end.
Proof.
  revert w. induction ds as [|d ds IH]; intros w; cbn; [by intros [= <- <- <-]|].
  destruct d as [p|p|e].
  - destruct (next_message p w) as [[m w1]|] eqn:E; [|by apply IH]. intros [= <- <- <-]. by eapply inv_next.
  - destruct (next_message p _) as [[m w1]|] eqn:E.
    + intros [= <- <- <-] Hi. eapply inv_next; [exact E|]. by apply inv_seek.
    + intros H Hi. eapply IH; [exact H|]. by apply inv_seek.
  - by intros [= <- <- <-].
Qed.

Lemma inv_fill room t ds msgs w r w' :
  fill_batch room t ds msgs w = (r, w') → log_inv msgs w →
  match r with Ok msgs' => log_inv msgs' w' | Err _ => ∃ msgs', log_inv msgs' w' end.
Proof.
  revert ds msgs w. induction room as [|room IH]; intros ds msgs w; cbn; [by intros [= <- <-]|].
  destruct (FetchMessage ds w) as [[[[m|e]|] ds1] w1] eqn:E; intros H Hi; apply (inv_log_fetch _ _ _ _ _ _ E) in Hi.
  - by eapply IH.
  - destruct (ctx_err t); [|destruct (errors_is _ _)]; simplify_eq; eauto.
  - by simplify_eq.
Qed.

(** Rows and reports are added, nothing else changes. *)
Lemma inv_grow msgs w rows l :
  log_inv msgs w → (∀ r, r ∈ rows → from_topic w r) →
  log_inv msgs (mkLogWorld (topic w) (committed w) (position w) (events_table w ++ rows) (reported w ++ l)).
Proof.
  set (w' := mkLogWorld _ _ _ _ _). intros [H1 H2 H3 H4 H5] Hr.
  assert (Hx : extends w w').
  { constructor; [done| |by intros; apply elem_of_app; left].
    intros r Hin. exists r. split; [by apply elem_of_app; left|done]. }
  constructor.
  - intros r [Hin|Hin]%elem_of_app; [by apply H1|by apply Hr].
  - intros m Hm Ho. by eapply handled_extends; [|apply H2].
  - intros m Hm Ho. destruct (H3 m Hm Ho); [left; by eapply handled_extends|by right].
  - intros m Hm. destruct (H4 m Hm) as [Hl Hle]. split; [done|]. intros m' Hm' Hp Ho.
    destruct (Hle m' Hm' Hp Ho); [left; by eapply handled_extends|by right].
  - exact H5.
Qed.

Lemma Decode_err v a b e : Decode v a = Err e → ∃ e', Decode v b = Err e'.
Proof. intros H. destruct (Decode v b) as [row|e'] eqn:E; [|by eauto]. apply (Decode_clock _ _ a) in E. congruence. Qed.

Lemma decode_batch_spec config clk i msgs w rows w' :
  decode_batch config clk i msgs w = (rows, w') → (reporting = true → OnInvalid config = true) →
  ∃ l, w' = mkLogWorld (topic w) (committed w) (position w) (events_table w) (reported w ++ l) ∧
    (∀ r, r ∈ rows → ∃ m at_, m ∈ msgs ∧ Decode (Value m) at_ = Ok r) ∧
    ∀ m, m ∈ msgs → match Decode (Value m) 0 with
      | Ok row => ∃ r, r ∈ rows ∧ row_key r = row_key row
      | Err _ => reporting = true → ∃ e, (m, e) ∈ l end.
Proof.
  intros H Hrep. revert i w rows H. induction msgs as [|m msgs IH]; intros i w rows; cbn.
  { intros [= <- <-]. exists []. split; [by destruct w; rewrite app_nil_r|]. split; [by intros r ?%elem_of_nil|by intros m ?%elem_of_nil]. }
  destruct (Decode (Value m) (clk i)) as [row|e] eqn:E.
  - destruct (decode_batch _ _ _ _ w) as [rows1 w1] eqn:E1. intros [= <- <-].
    destruct (IH _ _ _ E1) as (l & -> & Hr & Hm). exists l. split; [done|]. split.
    + intros r [->|Hin]%elem_of_cons; [exists m, (clk i); split; [by left|done]|].
      destruct (Hr r Hin) as (m' & at_ & ? & ?). exists m', at_. split; [by right|done].
    + intros m' [->|Hin]%elem_of_cons.
      * rewrite (Decode_clock _ _ 0 _ E). exists row. split; [by left|done].
      * specialize (Hm m' Hin). destruct (Decode _ 0); [|done]. destruct Hm as (r & ? & ?).
        exists r. split; [by right|done].
  - intros H. destruct (IH _ _ _ H) as (l & -> & Hr & Hm). destruct (OnInvalid config) eqn:Eo; cbn.
    + exists ((m, e) :: l). rewrite <-app_assoc. split; [done|]. split.
      * intros r Hin. destruct (Hr r Hin) as (m' & at_ & ? & ?). exists m', at_. split; [by right|done].
      * intros m' [->|Hin]%elem_of_cons.
        -- destruct (Decode_err _ _ 0 _ E) as [e' ->]. intros _. exists e. by left.
        -- specialize (Hm m' Hin). destruct (Decode _ 0); [done|]. intros Hb. destruct (Hm Hb) as [e1 ?].
           exists e1. by right.
    + exists l. split; [done|]. split.
      * intros r Hin. destruct (Hr r Hin) as (m' & at_ & ? & ?). exists m', at_. split; [by right|done].
      * intros m' [->|Hin]%elem_of_cons; [|by apply Hm].
        destruct (Decode_err _ _ 0 _ E) as [e' ->]. intros Hb. by specialize (Hrep Hb).
Qed.

Lemma append_rows_cases rows fs w r fs' w' : append_rows rows fs w = (r, fs', w') → w' = w.
Proof.
  revert fs. induction rows as [|x rows IH]; intros fs; cbn [append_rows]; [by intros [= <- <- <-]|].
  intros [(u & fs1 & s1 & H1 & H)|(e & H1 & _)]%bind_M_cases;
    apply wrapM_cases in H1 as (r0 & [-> _]%query_cases & _); [by eapply IH|done].
Qed.

Lemma set_table_nil f w : f (events_table w) = events_table w → set_table f w = w.
Proof. destruct w. unfold set_table. cbn. by intros ->. Qed.

Lemma Insert_cases rows fs w r fs' w' :
  Insert DateTime64 rows fs w = (r, fs', w') →
  ∃ written, w' = set_table (λ t, t ++ written) w ∧ (∀ x, x ∈ written → x ∈ map columns rows) ∧
    (is_ok r = true → written = map columns rows).
Proof.
  unfold Insert. destruct rows as [|x rows].
  { intros [= <- <- <-]. exists []. split; [|done]. symmetry. apply set_table_nil. by rewrite app_nil_r. }
  assert (Hnone : w = set_table (λ t, t ++ []) w) by (symmetry; apply set_table_nil; by rewrite app_nil_r).
  assert (Hnil : ∀ y : Row, y ∈ [] → y ∈ map columns (x :: rows)) by by intros y ?%elem_of_nil.
  intros [(u & fs1 & s1 & H1 & H)|(e & H1 & ->)]%bind_M_cases;
    apply wrapM_cases in H1 as (r0 & [-> _]%query_cases & _); [|by exists []].
  apply bind_M_cases in H as [(u' & fs2 & s2 & H2 & H)|(e & H2 & ->)];
    apply append_rows_cases in H2 as ->; [|by exists []].
  apply wrapM_cases in H as (r1 & (written & -> & [->|(Hr & kept & ->)])%batch_cases & ->).
  - by exists (map columns (x :: rows)).
  - exists (select kept (map columns (x :: rows))). split; [done|]. split; [intros y; apply select_subset|by destruct r1].
  - apply set_table_nil. by rewrite app_nil_r.
Qed.

(** *** Committed offsets *)
Lemma highest_spec p msgs o : highest p msgs = Some o → ∃ m, m ∈ msgs ∧ Partition m = p ∧ o = S (Offset m).
Proof.
  revert o. induction msgs as [|m msgs IH]; intros o; cbn; [done|].
  destruct (Z.eqb_spec (Partition m) p) as [Hp|]; [|intros (x & ? & ?)%IH; exists x; split; [by right|done]].
  intros [= <-]. fold (highest p msgs). destruct (highest p msgs) as [k|]; cbn [default from_option id]; [|exists m; split_and!; [by left|done|lia]].
  destruct (IH k eq_refl) as (x & Hx & Hxp & Hk). destruct (decide (S (Offset m) ≤ k)%nat).
  - exists x. split_and!; [by right|done|lia].
  - exists m. split_and!; [by left|done|lia].
Qed.

Lemma commit_offset msgs w p :
  (∃ m, m ∈ msgs ∧ Partition m = p ∧ offset_of (committed (commit_offsets msgs w)) p = S (Offset m)) ∨
  offset_of (committed (commit_offsets msgs w)) p = offset_of (committed w) p.
Proof.
  cbn [commit_offsets committed]. generalize (committed w).
  generalize msgs at 3 5. intros l. induction l as [|m l IH]; intros c; cbn; [by right|].
  destruct (IH (match highest (Partition m) msgs with Some o => <[Partition m:=o]> c | None => c end)) as [|E]; [by left|].
  rewrite E. destruct (highest _ _) as [o|] eqn:Eh; [|by right]. rewrite offset_of_insert.
  destruct (decide _) as [<-|]; [left|by right]. destruct (highest_spec _ _ _ Eh) as (x & ? & ? & ?). by exists x.
Qed.

Lemma inv_commit ms w :
  log_inv [] w →
  (∀ m, m ∈ ms → in_log w m ∧ ∀ m', in_log w m' → Partition m' = Partition m → (Offset m' ≤ Offset m)%nat → handled w m') →
  log_inv [] (commit_offsets ms w).
Proof.
  intros [H1 H2 H3 H4 H5] Hms. constructor; [done| |done|done|].
  - intros m Hm Ho. change (handled w m). destruct (commit_offset ms w (Partition m)) as [(x & Hx & Hp & E)|E];
      rewrite E in Ho; [|by apply H2]. destruct (Hms x Hx) as [_ Hle]. by apply Hle; [..|lia].
  - intros p. specialize (H5 p). change (partition (commit_offsets ms w)) with (partition w).
    destruct (commit_offset ms w p) as [(x & Hx & <- & E)|E]; rewrite E; [|done].
    destruct (Hms x Hx) as [Hl%lookup_lt_Some _]. cbn [position commit_offsets]. lia.
Qed.

Lemma inv_write msgs rows w fs r fs' w' :
  write_batch DateTime64 rows msgs fs w = (r, fs', w') → log_inv msgs w →
  (∀ r, r ∈ rows → ∃ m at_, m ∈ msgs ∧ Decode (Value m) at_ = Ok r) →
  (∀ m, m ∈ msgs → match Decode (Value m) 0 with
    | Ok row => ∃ r, r ∈ rows ∧ row_key r = row_key row
    | Err _ => reporting = true → ∃ e, (m, e) ∈ reported w end) →
  match r with Ok _ => log_inv [] w' | Err _ => ∃ msgs', log_inv msgs' w' end.
Proof.
  intros H Hi Hsound Hmsgs. unfold write_batch in H.
  assert (Hgrow : ∀ written, (∀ x, x ∈ written → x ∈ map columns rows) → log_inv msgs (set_table (λ t, t ++ written) w)).
  { intros n Hsub. replace (set_table _ w) with (mkLogWorld (topic w) (committed w) (position w)
      (events_table w ++ n) (reported w ++ [])) by by destruct w; rewrite app_nil_r.
    apply inv_grow; [done|]. intros r0 (row & -> & Hrow)%Hsub%list_elem_of_fmap.
    destruct (Hsound row Hrow) as (m & at_ & Hm & Hd).
    exists (Partition m), (Value m), at_, row. split_and!; [|done|done].
    destruct (inv_batch _ _ Hi m Hm) as [Hl _]. by eapply list_elem_of_lookup_2. }
  apply bind_M_cases in H as [(u & fs1 & w1 & H1 & H)|(e & H1 & ->)].
  2:{ apply wrapM_cases in H1 as (r0 & (n & -> & Hn & _)%Insert_cases & _). eauto. }
  apply wrapM_cases in H1 as (r0 & (n & -> & Hsub & Hn)%Insert_cases & Hr0). destruct r0; [|done].
  specialize (Hn eq_refl). set (w1 := set_table _ w) in *.
  assert (Hall : ∀ m, m ∈ msgs → handled w1 m).
  { intros m Hm. specialize (Hmsgs m Hm). unfold handled. destruct (Decode _ _); [|exact Hmsgs].
    destruct Hmsgs as (row & Hrow & Hk). exists (columns row). split; [|done]. cbn.
    rewrite Hn. apply elem_of_app. right. by apply list_elem_of_fmap_2. }
  assert (Hi1 : log_inv [] w1).
  { destruct (Hgrow n Hsub) as [I1 I2 I3 I4 I5]. constructor; [done|done| |by intros m ?%elem_of_nil|done].
    intros m Hm Ho. left. destruct (I3 m Hm Ho); [done|by apply Hall]. }
  apply wrapM_cases in H as (r1 & (l & -> & Hcom)%batch_part & ->); [|by destruct w1].
  assert (Hc : log_inv [] (commit_offsets l w1)).
  { apply inv_commit; [done|]. intros m Hj%Hcom.
    destruct (inv_batch _ _ (Hgrow n Hsub) m Hj) as [Hl Hle]. split; [done|]. intros m' Hm' Hp Ho.
    destruct (Hle m' Hm' Hp Ho); [done|by apply Hall]. }
  destruct r1; cbn; eauto.
Qed.

Lemma inv_turn config t w e w' :
  run_turn DateTime64 config t w = (e, w') → (reporting = true → OnInvalid config = true) → log_inv [] w →
  match e with None => log_inv [] w' | Some _ => ∃ msgs, log_inv msgs w' end.
Proof.
  unfold run_turn. intros H Hrep Hi.
  destruct (FetchMessage _ w) as [[[[m|e1]|] ds] w1] eqn:E1; apply (inv_log_fetch _ _ _ _ _ _ E1) in Hi; simplify_eq; [|by eauto|done].
  destruct (fill_batch _ t ds _ w1) as [[msgs|e2] w2] eqn:E2; apply (inv_fill _ _ _ _ _ _ _ E2) in Hi; simplify_eq; [|done].
  destruct (decode_batch _ _ _ _ w2) as [rows w3] eqn:E3.
  destruct (decode_batch_spec _ _ _ _ _ _ _ E3 Hrep) as (l & -> & Hrows & Hmsgs).
  destruct (write_batch _ _ _ _ _) as [[r fs'] w4] eqn:E4.
  assert (log_inv msgs (mkLogWorld (topic w2) (committed w2) (position w2) (events_table w2) (reported w2 ++ l))) as Hi3.
  { rewrite <-(app_nil_r (events_table w2)). apply inv_grow; [done|]. by intros r0 ?%elem_of_nil. }
  pose proof (inv_write _ _ _ _ _ _ _ E4 Hi3 Hrows) as Hw.
  assert (match r with Ok _ => log_inv [] w4 | Err _ => ∃ msgs', log_inv msgs' w4 end) as Hr.
  { apply Hw. intros m' Hm'. specialize (Hmsgs m' Hm'). destruct (Decode _ _); [done|]. intros Hb.
    destruct (Hmsgs Hb) as [e9 ?]. exists e9. apply elem_of_app. by right. }
  destruct r; simplify_eq; done.
Qed.

Lemma inv_log_run config turns w e w' :
  Run DateTime64 config turns w = (e, w') → (reporting = true → OnInvalid config = true) → log_inv [] w →
  ∃ msgs, log_inv msgs w'.
Proof.
  intros H Hrep. revert w H. induction turns as [|t turns IH]; intros w; cbn; [intros [= <- <-]; eauto|].
  destruct (run_turn _ _ _ w) as [[e1|] w1] eqn:E; intros H Hi; pose proof (inv_turn _ _ _ _ _ E Hrep Hi) as H1; cbn in H1.
  - by simplify_eq.
  - by eapply IH.
Qed.

(** Between two operations the batch of a dead process is forgotten. *)
Definition op_reports (o : op) : Prop :=
  match o with Process config _ => reporting = true → OnInvalid config = true | _ => True end.

Definition log_ok (w : LogWorld) : Prop := log_inv [] (set_position (λ _, committed w) w).

Lemma log_inv_restart msgs w : log_inv msgs w → log_ok w.
Proof.
  intros [H1 H2 H3 H4 H5]. constructor; [done|done| |by intros m ?%elem_of_nil|].
  - intros m Hm Ho. left. by apply H2.
  - intros p. specialize (H5 p). cbn. change (partition _ p) with (partition w p). lia.
Qed.

Lemma log_ok_op o w : op_reports o → log_ok w → log_ok (exec_op DateTime64 o w).
Proof.
  intros Hrep Hi. destruct o as [p v|i|config turns]; cbn [exec_op].
  - set (w' := mkLogWorld _ _ _ _ _).
    assert (E : ∀ q, partition w' q = if decide (p = q) then partition w p ++ [v] else partition w q).
    { intros q. unfold partition at 1. cbn. destruct (decide _) as [->|]; [by rewrite lookup_insert_eq|by rewrite lookup_insert_ne]. }
    assert (Hsub : ∀ q i x, partition w q !! i = Some x → partition w' q !! i = Some x).
    { intros q i x Hx. rewrite E. destruct (decide _) as [->|]; [by apply lookup_app_l_Some|done]. }
    assert (Hold : ∀ m, in_log w' m → (Offset m < offset_of (committed w) (Partition m))%nat → in_log w m).
    { intros m Hm Ho. destruct (inv_bounds _ _ Hi (Partition m)) as [Hb _]. cbn in Hb.
      unfold in_log in *. rewrite E in Hm. destruct (decide _) as [->|]; [|done].
      apply lookup_app_Some in Hm as [?|[? _]]; [done|]. change (partition _ (Partition m)) with (partition w (Partition m)) in Hb. lia. }
    destruct Hi as [H1 H2 H3 H4 H5]. constructor.
    + intros r Hr. destruct (H1 r Hr) as (q & x & at_ & row & Hx & Hd & ->).
      apply list_elem_of_lookup in Hx as [i Hx]. exists q, x, at_, row. split_and!; [|done|done].
      eapply list_elem_of_lookup_2, Hsub, Hx.
    + intros m Hm Ho. apply (H2 m); [by apply Hold|done].
    + intros m Hm Ho. left. apply (H2 m); [by apply Hold|done].
    + by intros m ?%elem_of_nil.
    + intros q. destruct (H5 q) as [Hb _]. cbn in *. change (partition _ q) with (partition w' q).
      change (partition _ q) with (partition w q) in Hb. rewrite E. destruct (decide _) as [<-|]; rewrite ?length_app; cbn; lia.
  - destruct Hi as [H1 H2 H3 H4 H5].
    assert (Hkeep : ∀ m, handled w m → handled (set_table (merge_at i) w) m).
    { intros m. unfold handled. destruct (Decode _ _); [|done]. cbn.
      intros H%final_dom. rewrite <-(merge_final i) in H. by apply final_dom in H. }
    constructor.
    + intros r Hr%merge_subset. by apply H1.
    + intros m Hm Ho. by apply Hkeep, (H2 m).
    + intros m Hm Ho. left. by apply Hkeep, (H2 m).
    + by intros m ?%elem_of_nil.
    + exact H5.
  - destruct (Run _ _ _ _) as [e w'] eqn:E. destruct (inv_log_run _ _ _ _ _ E Hrep Hi) as [msgs Hm].
    by eapply log_inv_restart.
Qed.

Lemma log_ok_history ops : Forall op_reports ops → log_ok (history DateTime64 ops empty_log).
Proof.
  unfold history. intros Hops. assert (log_ok empty_log) as Hi.
  { assert (∀ m, ¬ in_log (set_position (λ _, committed empty_log) empty_log) m) as Hn.
    { intros m Hm. unfold in_log, partition in Hm. cbn in Hm. by rewrite lookup_empty in Hm. }
    constructor; [by intros r ?%elem_of_nil|by intros m ?%Hn..|by intros m ?%elem_of_nil|].
    intros p. unfold offset_of. cbn. rewrite lookup_empty. cbn. lia. }
  revert Hi. generalize empty_log. induction Hops as [|o ops Ho _ IH]; intros w Hi; [done|].
  apply IH. by apply log_ok_op.
Qed.

(** *** An undisturbed process *)
Lemma highest_snoc p msgs m :
  highest p (msgs ++ [m]) =
    if Partition m =? p then Some (Nat.max (S (Offset m)) (default 0%nat (highest p msgs))) else highest p msgs.
Proof.
  induction msgs as [|x msgs IH]; [done|]. cbn [app highest foldr]. fold (highest p (msgs ++ [m])) (highest p msgs).
  rewrite IH. destruct (Partition m =? p), (Partition x =? p); try done. f_equal. cbn [default from_option id]. lia.
Qed.

Lemma highest_some p msgs : is_Some (highest p msgs) ↔ ∃ m, m ∈ msgs ∧ Partition m = p.
Proof.
  split.
  - intros [o (m & ? & ? & _)%highest_spec]. by exists m.
  - intros (m & Hm & <-). induction Hm as [m msgs|m x msgs _ IH]; cbn; [by rewrite Z.eqb_refl; eexists|].
    destruct (Partition x =? Partition m); [by eexists|done].
Qed.

Lemma commit_exact msgs w p o : highest p msgs = Some o → offset_of (committed (commit_offsets msgs w)) p = o.
Proof.
  intros Ho. assert (∃ m, m ∈ msgs ∧ Partition m = p) as (m & Hm & Hp) by by apply highest_some; eexists.
  cbn [commit_offsets committed].
  assert (Hkeep : ∀ l c, offset_of c p = o →
    offset_of (foldl (λ c m, match highest (Partition m) msgs with
      | Some o => <[Partition m := o]> c | None => c end) c l) p = o).
  { intros l. induction l as [|x l IH]; intros c Hc; [done|]. apply IH.
    destruct (highest (Partition x) msgs) as [o'|] eqn:E; [|done]. rewrite offset_of_insert.
    destruct (decide _) as [Hx|]; [|done]. rewrite Hx in E. congruence. }
  assert (Hall : ∀ l c, m ∈ l → offset_of (foldl (λ c m, match highest (Partition m) msgs with
      | Some o => <[Partition m := o]> c | None => c end) c l) p = o); [|by apply Hall].
  intros l c (l1 & l2 & ->)%list_elem_of_split. rewrite foldl_app. cbn [foldl]. apply Hkeep.
  rewrite Hp, Ho, offset_of_insert. by rewrite decide_True.
Qed.

(** Reading on from where the reader stands in [p]. *)
Record reads (p : Z) (msgs : list Message) (w w' : LogWorld) : Prop := {
  reads_partition : ∀ q, partition w' q = partition w q;
  reads_position : highest p msgs = Some (offset_of (position w') p);
  reads_bound : (offset_of (position w') p ≤ length (partition w p))%nat;
  reads_forward : (offset_of (position w) p < offset_of (position w') p)%nat;
}.

Lemma fetch_next p j w :
  FetchMessage (replicate j (Next p)) w =
    match j, partition w p !! offset_of (position w) p with
    | S j, Some v => (Some (Ok (mkMessage p (offset_of (position w) p) v)), replicate j (Next p),
        set_position <[p := S (offset_of (position w) p)]> w)
    | _, _ => (None, [], w)
    end.
Proof.
  induction j as [|j IH]; [done|]. cbn [replicate FetchMessage]. unfold next_message.
  destruct (partition w p !! _) as [v|] eqn:E; [done|]. cbn. rewrite IH. by destruct j.
Qed.

Lemma fill_next p j t room msgs w0 w :
  reads p msgs w0 w → ∃ msgs' w', fill_batch room t (replicate j (Next p)) msgs w = (Ok msgs', w') ∧ reads p msgs' w0 w'.
Proof.
  revert j msgs w. induction room as [|room IH]; intros j msgs w Hr; cbn [fill_batch]; [eauto|].
  rewrite fetch_next. destruct j as [|j]; [eauto|].
  destruct (partition w p !! _) as [v|] eqn:E; [|eauto]. apply IH. destruct Hr as [R1 R2 R3 R4].
  constructor; cbn; [done| | |]; rewrite ?offset_of_insert, ?decide_True by done.
  - rewrite highest_snoc. cbn. rewrite Z.eqb_refl, R2. cbn. f_equal. lia.
  - apply lookup_lt_Some in E. rewrite R1 in E. lia.
  - lia.
Qed.

Lemma append_rows_nil rows w : append_rows rows [] w = (Ok (), [], w).
Proof. induction rows as [|x rows IH]; [done|exact IH]. Qed.
Lemma write_batch_nil rows msgs w :
  write_batch DateTime64 rows msgs [] w =
    (Ok (), [], commit_offsets msgs (set_table (λ t, t ++ map columns rows) w)).
Proof.
  unfold write_batch, Insert, wrapM, mbind, M_bind. destruct rows as [|x rows].
  - cbn. rewrite (set_table_nil (λ t, t ++ [])); [done|by rewrite app_nil_r].
  - cbn [query stmt wrap_err]. rewrite append_rows_nil. reflexivity.
Qed.

Definition undisturbed (p : Z) (t : turn) : Prop := ∃ j, deliveries t = replicate (S j) (Next p) ∧ faults t = [].

Lemma turn_undisturbed config p t w :
  undisturbed p t → (reporting = true → OnInvalid config = true) →
  offset_of (committed w) p = offset_of (position w) p → (offset_of (position w) p ≤ length (partition w p))%nat →
  ∃ w', run_turn DateTime64 config t w = (None, w') ∧ partition w' p = partition w p ∧
    offset_of (committed w') p = offset_of (position w') p ∧
    (offset_of (position w') p ≤ length (partition w p))%nat ∧
    (S (offset_of (position w) p) `min` length (partition w p) ≤ offset_of (position w') p)%nat.
Proof.
  intros (j & Hd & Hf) Hrep Hc Hle. unfold run_turn. rewrite Hd, fetch_next, Hf.
  destruct (partition w p !! _) as [v|] eqn:E.
  2:{ apply lookup_ge_None in E. exists w. split_and!; [done|done|done|lia|lia]. }
  destruct (fill_next p j t (Z.to_nat (BatchSize config - 1)) [mkMessage p (offset_of (position w) p) v] w
    (set_position <[p := S (offset_of (position w) p)]> w)) as (msgs & w2 & -> & [R1 R2 R3 R4]).
  { apply lookup_lt_Some in E. constructor; cbn; rewrite ?Z.eqb_refl, ?offset_of_insert, ?decide_True by done; cbn [default from_option id Offset];
      [done|f_equal; lia|lia|lia]. }
  destruct (decode_batch _ _ _ _ w2) as [rows w3] eqn:E3.
  destruct (decode_batch_spec _ _ _ _ _ _ _ E3 Hrep) as (l & -> & _). rewrite write_batch_nil.
  eexists. split; [done|]. split; [apply R1|]. rewrite (commit_exact _ _ _ _ R2). split_and!; [done|done|]. cbn [position commit_offsets set_table]. lia.
Qed.

Lemma run_undisturbed config p turns w :
  Forall (undisturbed p) turns → (reporting = true → OnInvalid config = true) →
  offset_of (committed w) p = offset_of (position w) p → (offset_of (position w) p ≤ length (partition w p))%nat →
  (length (partition w p) ≤ offset_of (committed w) p + length turns)%nat →
  ∃ w', Run DateTime64 config turns w = (None, w') ∧ partition w' p = partition w p ∧
    offset_of (committed w') p = length (partition w p).
Proof.
  intros Ht Hrep. revert w. induction Ht as [|t turns Ht _ IH]; intros w Hc Hle Hlen; cbn [Run].
  { exists w. cbn in Hlen. split_and!; [done|done|lia]. }
  destruct (turn_undisturbed config p t w Ht Hrep Hc Hle) as (w1 & -> & Hp & Hc1 & Hle1 & Hlt).
  destruct (IH w1) as (w' & HR & Hp' & Hc'); [done|by rewrite Hp|rewrite Hp; cbn in Hlen; lia|].
  exists w'. rewrite Hp in *. done.
Qed.

(** *** The facts about a well-formed log *)
Definition same_key (w : LogWorld) (row : Row) (v : RawMessage) : Prop :=
  (∃ p, v ∈ partition w p) ∧ ∃ at_ row', Decode v at_ = Ok row' ∧ row_key row' = row_key row.

(** The table holds a message: [FINAL] at its key is the stored form of a
    message of the topic with that key - of this one if the key is its alone. *)
Definition projected (w : LogWorld) (m : Message) : Prop :=
  match Decode (Value m) 0 with
  | Ok row => ∃ v at_ row', same_key w row v ∧ Decode v at_ = Ok row' ∧
      final_rows (events_table w) !! row_key row = Some (columns row') ∧
      ((∀ v', same_key w row v' → v' = Value m) → row' = with_ingested at_ row)
  | Err _ => reporting = true → ∃ e, (m, e) ∈ reported w
  end.

Lemma handled_projected w m :
  (∀ r, r ∈ events_table w → from_topic w r) → handled w m → projected w m.
Proof.
  intros Hrows. unfold handled, projected. destruct (Decode (Value m) 0) as [row|] eqn:E; [|done].
  intros Hk%final_dom. destruct Hk as [r Hr]. pose proof Hr as Hr'. rewrite final_lookup in Hr'.
  apply newest_of_some in Hr' as [Hin Hkey]. destruct (Hrows r Hin) as (p & v & at_ & row' & Hv & Hd & ->).
  assert (same_key w row v) as Hs by (split; [by exists p|by exists at_, row']).
  exists v, at_, row'. split_and!; [done|done|done|]. intros Honly. rewrite (Honly v Hs) in Hd.
  apply (Decode_clock _ _ at_) in E. congruence.
Qed.

Lemma log_ok_projected w m :
  log_ok w → in_log w m → (Offset m < offset_of (committed w) (Partition m))%nat → projected w m.
Proof. intros [H1 H2 _ _ _] Hm Ho. apply handled_projected; [exact H1|by apply H2]. Qed.
End Projection.

(** C8: the event log is an at-least-once projection of the topic.  Through any
    history of produced messages, background merges and writer processes -
    with any fetch errors, rebalances, failed, partial or unacknowledged
    inserts and commits, and restarts - every row of the table is the stored
    form of a message of the topic; and every message below the committed
    offset is in [FINAL] under its (company, interview, sequence) key, exactly
    as decoded if the key is its alone, or cannot be decoded and was reported. *)
Theorem log_projection DateTime64 reporting ops :
  Forall (op_reports reporting) ops →
  let w := history DateTime64 ops empty_log in
  (∀ r, r ∈ events_table w → from_topic DateTime64 w r) ∧
  ∀ m, in_log w m → (Offset m < offset_of (committed w) (Partition m))%nat → projected DateTime64 reporting w m.
Proof.
  intros Hops w. pose proof (log_ok_history DateTime64 reporting ops Hops) as Hi.
  split; [apply Hi|]. intros m Hm Ho. by apply log_ok_projected.
Qed.

(** An undisturbed writer catches up.  After any history, a process whose
    fetches and writes succeed, given as many turns as the partition has
    uncommitted messages, still runs, has committed the whole partition, and
    every message of it is projected. *)
Theorem writer_catches_up DateTime64 reporting ops config turns p :
  Forall (op_reports reporting) ops → (reporting = true → OnInvalid config = true) → Forall (undisturbed p) turns →
  let w := history DateTime64 ops empty_log in
  (length (partition w p) ≤ offset_of (committed w) p + length turns)%nat →
  let started := set_position (λ _, committed w) w in
  let w' := exec_op DateTime64 (Process config turns) w in
  Run DateTime64 config turns started = (None, w') ∧
  offset_of (committed w') p = length (partition w' p) ∧
  ∀ o v, partition w' p !! o = Some v → projected DateTime64 reporting w' (mkMessage p o v).
Proof.
  intros Hops Hrep Ht w Hlen started w'. pose proof (log_ok_history DateTime64 reporting ops Hops) as Hi. fold w in Hi.
  destruct (run_undisturbed DateTime64 reporting config p turns started) as (w1 & HR & Hp & Hc); [done|done|done| |done|].
  { apply (inv_bounds _ _ _ _ Hi p). }
  assert (w' = w1) as Hw by by (unfold w'; cbn [exec_op]; fold started; rewrite HR).
  assert (log_ok DateTime64 reporting w') as Hi' by by apply log_ok_op.
  rewrite <-Hw in HR, Hp, Hc. split; [done|]. split; [by rewrite Hp|]. intros o v Hv.
  apply log_ok_projected; [done|done|]. cbn [Offset Partition]. rewrite Hc, <-Hp. by eapply lookup_lt_Some.
Qed.

(** *** Witnesses: a batch inserted twice, since its commit failed *)
Definition example_millis (precision : Z) (t : time) : time :=
  let unit := 10 ^ (9 - precision) in t / unit * unit.
Definition example_payload : json := JObject [("session_id"%string, JString "s"); ("interview_id"%string, JString "i")].
Definition example_value : RawMessage :=
  match marshal_envelope (mkEnvelope "e1" EventTypeSessionSubmitted 1 "c" 1 1234567 (Some example_payload)) with
  | Ok j => Some j
  | Err _ => None
  end.
Definition example_config : Config := mkConfig 10 second true.
Definition example_lost : error := Plain "connection lost".
Definition example_ops : list op := [
  Produce 0 example_value; Produce 0 None;
  Process example_config [mkTurn [Next 0; Next 0] None Z.of_nat [Done; Done; Done; Fault example_lost]];
  Process example_config [mkTurn [Next 0; Next 0] None (λ i, 5000 + Z.of_nat i) []];
  MergeParts 0; Produce 0 example_value].

Lemma log_projection_witness :
  let w := history example_millis example_ops empty_log in
  length (events_table w) = 1%nat ∧ length (reported w) = 2%nat ∧
  projected example_millis true w (mkMessage 0 0 example_value) ∧ projected example_millis true w (mkMessage 0 1 None).
Proof.
  destruct (log_projection example_millis true example_ops) as [_ H]; [by repeat constructor|].
  split; [by vm_compute|]. split; [by vm_compute|]. split; apply H; vm_compute; first [reflexivity|lia].
Defined.

Lemma writer_catches_up_witness :
  let w := history example_millis example_ops empty_log in
  let turns := [mkTurn [Next 0; Next 0] None Z.of_nat []] in
  Run example_millis example_config turns (set_position (λ _, committed w) w) =
    (None, exec_op example_millis (Process example_config turns) w).
Proof.
  apply (writer_catches_up example_millis true example_ops example_config _ 0); [by repeat constructor|done| |].
  - constructor; [|done]. by exists 1%nat.
  - vm_compute. lia.
Defined.

(** ** Reading a partition

    What a fetch does to the positions, for any consumer of the group: the
    offsets below the new position were below the old one, are committed, or are
    the message's. *)
Lemma fetched ds g r ds' g' : FetchMessage ds g = (r, ds', g') →
  topic g' = topic g ∧ committed g' = committed g ∧
  match r with
  | Some (Ok m) => partition g (Partition m) !! Offset m = Some (Value m) ∧ offset_of (position g') (Partition m) = S (Offset m) ∧
      ∀ p i, (i < offset_of (position g') p)%nat →
        (i < offset_of (position g) p)%nat ∨ (i < offset_of (committed g) p)%nat ∨ p = Partition m ∧ i = Offset m
  | _ => ∀ p i, (i < offset_of (position g') p)%nat → (i < offset_of (position g) p)%nat ∨ (i < offset_of (committed g) p)%nat
  end.
Proof.
  revert g. induction ds as [|d ds IH]; intros g H; [injection H as <- <- <-; auto|].
  assert (Hstep : ∀ p g1, topic g1 = topic g → committed g1 = committed g →
    (∀ q i, (i < offset_of (position g1) q)%nat → (i < offset_of (position g) q)%nat ∨ (i < offset_of (committed g) q)%nat) →
    match next_message p g1 with Some (m, g2) => (Some (Ok m), ds, g2) | None => FetchMessage ds g1 end = (r, ds', g') → 
    topic g' = topic g ∧ committed g' = committed g ∧
    match r with
    | Some (Ok m) => partition g (Partition m) !! Offset m = Some (Value m) ∧ offset_of (position g') (Partition m) = S (Offset m) ∧
        ∀ p i, (i < offset_of (position g') p)%nat →
          (i < offset_of (position g) p)%nat ∨ (i < offset_of (committed g) p)%nat ∨ p = Partition m ∧ i = Offset m
    | _ => ∀ p i, (i < offset_of (position g') p)%nat → (i < offset_of (position g) p)%nat ∨ (i < offset_of (committed g) p)%nat
    end).
  { intros p g1 Ht Hc Hp Hn. destruct (next_message p g1) as [[m g2]|] eqn:En.
    - injection Hn as <- <- <-. unfold next_message in En.
      destruct (partition g1 p !! offset_of (position g1) p) as [v|] eqn:Ev; [|done]. injection En as <- <-. cbn.
      split_and!; [done|done|by unfold partition in *; rewrite <-Ht|by rewrite offset_of_insert, decide_True|]. intros q i. rewrite offset_of_insert. case_decide as Eq; [subst q|].
      + intros Hi. destruct (decide (i = offset_of (position g1) p)) as [->|]; [by auto|]. destruct (Hp p i); auto. lia.
      + intros Hi. destruct (Hp q i); auto.
    - destruct (IH g1 Hn) as (Ht' & Hc' & Hr). rewrite Ht, Hc in *. split_and!; [done|done|].
      unfold partition in *. rewrite Ht in Hr. destruct r as [[m|]|].
      + destruct Hr as (Hv & Hpos & Hr). split_and!; [done|done|]. intros q i Hi. destruct (Hr q i Hi) as [Hi'|[|]]; auto. destruct (Hp q i Hi'); auto.
      + intros q i Hi. destruct (Hr q i Hi) as [Hi'|]; auto.
      + intros q i Hi. destruct (Hr q i Hi) as [Hi'|]; auto. }
  destruct d as [p|p|e]; cbn [FetchMessage] in H.
  - apply (Hstep p g); auto.
  - apply (Hstep p (set_position <[p := offset_of (committed g) p]> g)); try done. intros q i. cbn. rewrite offset_of_insert.
    case_decide; [subst|]; auto.
  - injection H as <- <- <-. auto.
Qed.

(** A batch of messages gathered since [g0]. *)
Definition known (g0 : LogWorld) (messages : list Message) (p : Z) (i : nat) : Prop :=
  (i < offset_of (position g0) p)%nat ∨ (i < offset_of (committed g0) p)%nat ∨ ∃ m, m ∈ messages ∧ Partition m = p ∧ Offset m = i.
Record gathered (g0 g : LogWorld) (messages : list Message) : Prop := {
  ga_topic : topic g = topic g0;
  ga_committed : committed g = committed g0;
  ga_log : ∀ m, m ∈ messages → partition g0 (Partition m) !! Offset m = Some (Value m);
  ga_position : ∀ p i, (i < offset_of (position g) p)%nat → known g0 messages p i;
  ga_below : ∀ m i, m ∈ messages → (i ≤ Offset m)%nat → known g0 messages (Partition m) i;
}.
Lemma gathered_nil g : gathered g g [].
Proof. split; [done|done| |intros p i; by left|]; by intros m * ?%elem_of_nil. Qed.
Lemma known_more g0 messages m p i : known g0 messages p i → known g0 (messages ++ [m]) p i.
Proof. intros [?|[?|(m' & ? & ?)]]; [by left|by right; left|]. right. right. exists m'. rewrite elem_of_app. auto. Qed.
Lemma gathered_fetch g0 g messages ds r ds' g' : gathered g0 g messages → FetchMessage ds g = (r, ds', g') →
  match r with Some (Ok m) => gathered g0 g' (messages ++ [m]) | _ => gathered g0 g' messages end.
Proof.
  intros [Ht Hc Hlog Hpos Hbelow] H. destruct (fetched _ _ _ _ _ H) as (Ht' & Hc' & Hr). rewrite Hc in Hr.
  destruct r as [[m|]|].
  2, 3: split; [congruence|congruence|done| |done]; intros p i Hi; destruct (Hr p i Hi); [by apply Hpos|by right; left].
  destruct Hr as (Hv & Hp & Hr).
  assert (Hk : ∀ p i, (i < offset_of (position g') p)%nat → known g0 (messages ++ [m]) p i).
  { intros p i Hi. destruct (Hr p i Hi) as [Hi'|[Hi'|[-> ->]]]; [by apply known_more, Hpos|by right; left|].
    right. right. exists m. rewrite elem_of_app, list_elem_of_singleton. auto. }
  split; [congruence|congruence| |exact Hk|].
  - intros m' [Hm|Hm%list_elem_of_singleton]%elem_of_app; [by apply Hlog|]. subst m'. unfold partition in *. by rewrite <-Ht.
  - intros m' i [Hm|Hm%list_elem_of_singleton]%elem_of_app Hi; [by apply known_more, Hbelow|]. subst m'. apply Hk. rewrite Hp. lia.
Qed.
