(* ===== verification/Housekeeper.v ===== *)
(** * Retention and erasure (internal/housekeeper, internal/store/postgres/housekeeper.go)

    The batch run of the Housekeeper, its Postgres store and its two external
    deletes, over a state that holds the operational tables beside the search
    documents and the ClickHouse tables.  A rollback restores the operational
    tables only. *)
From S2P Require Import Prelude Str GoTime Domain Outbox Tx Store.

Record Doc := mkDoc { doc_company : UUID; doc_interview : UUID; doc_body : string }.
Record Row := mkRow { row_company : UUID; row_interview : UUID; row_data : string }.

(** The operational tables, the documents of the Event Indexer's collection
    and the ClickHouse tables by name. *)
Record Estate := mkEstate {
  db : Tables;
  documents : list Doc;
  clickhouse : gmap string (list Row);
}.

#[export] Instance Estate_rollback : Rollback Estate := λ s0 s,
  mkEstate (set_outbox id (t_outbox_id (db s)) (db s0)) (documents s) (clickhouse s).

Definition on_db {A} (f : Tables → result (A * Tables)) : M Estate A :=
  stmt (λ s, '(a, t) ← f (db s); Ok (a, mkEstate t (documents s) (clickhouse s))).

Definition ReasonRetention : string := "retention".
Definition ReasonErasure : string := "erasure".

Record Candidate := mkCandidate { CompanyID : UUID; InterviewID : UUID; Reason : string }.
#[export] Instance Candidate_eq_dec : EqDecision Candidate.
Proof. solve_decision. Defined.
Record Stats := mkStats { SearchDocumentsDeleted : Z }.
Record Config := mkConfig { Retention : duration; BatchSize : Z }.

(** [New]'s check of its configuration. *)
Definition New (config : Config) : result Config :=
  if (Retention config <=? 0) || (BatchSize config <=? 0)
  then Err (Plain "housekeeper: retention and batch size must be positive") else Ok config.

(** ** store/postgres/housekeeper.go *)
Definition ErasedPlaceholder : string := "[erased]".

Definition purgeEligible (cutoff : time) (i : Interview) : bool :=
  bool_decide (Interview_PurgedAt i = None) && negb (Interview_LegalHold i) &&
  (bool_decide (is_Some (Interview_EraseRequestedAt i)) ||
   match Interview_TerminalAt i with Some t => before t cutoff | None => false end).

Definition reason_of (i : Interview) : string :=
  if bool_decide (is_Some (Interview_EraseRequestedAt i)) then ReasonErasure else ReasonRetention.

(** [ORDER BY coalesce(erase_requested_at, terminal_at), company_id, id]. *)
Definition purge_time (i : Interview) : time :=
  match Interview_EraseRequestedAt i with
  | Some t => t
  | None => default 0 (Interview_TerminalAt i)
  end.
Definition purge_before (a b : pk * Interview) : bool :=
  if purge_time a.2 <? purge_time b.2 then true
  else if purge_time b.2 <? purge_time a.2 then false
  else if N.ltb a.1.1 b.1.1 then true
  else if N.ltb b.1.1 a.1.1 then false
  else N.ltb a.1.2 b.1.2.

Definition list_candidates (cutoff : time) (limit : Z) (t : Tables) : list Candidate :=
  map (λ kv, mkCandidate kv.1.1 kv.1.2 (reason_of kv.2))
    (take (Z.to_nat limit)
      (sort_stable purge_before
        (List.filter (λ kv, purgeEligible cutoff kv.2) (map_to_list (t_interviews t))))).

Definition Candidates (cutoff : time) (limit : Z) : M Estate (list Candidate) :=
  wrapM "list purge candidates" (query (λ s, list_candidates cutoff limit (db s))).

Definition lock_candidate (cutoff : time) (c : Candidate) (t : Tables) : result (string * Tables) :=
  match t_interviews t !! (CompanyID c, InterviewID c) with
  | Some i => if purgeEligible cutoff i then Ok (reason_of i, t) else Err ErrNoRows
  | None => Err ErrNoRows
  end.

(** The skeleton keeps ids, status, lifecycle timestamps, flags and the
    sequence counter. *)
Definition skeleton (now : time) (i : Interview) : Interview :=
  mkInterview (Interview_ID i) (Interview_CompanyID i) (Interview_CreatedBy i)
    ErasedPlaceholder ErasedPlaceholder (Interview_Status i) (Interview_ScheduledAt i)
    (Some (default now (Interview_TerminalAt i))) (Interview_EraseRequestedAt i) (Interview_LegalHold i)
    (Some now) (Interview_LastSequenceNumber i) (Interview_CreatedAt i) now.

Definition skeletonize (now : time) (company interview : UUID) : Tables → Tables :=
  set_interviews (alter (skeleton now) (company, interview)).
Definition delete_scores (company interview : UUID) : Tables → Tables :=
  set_scores (filter (λ kv, ¬ (kv.1.1 = company ∧ Score_InterviewID kv.2 = interview))).
Definition delete_interview_scores (company interview : UUID) : Tables → Tables :=
  set_interview_scores (filter (λ kv, ¬ (kv.1.1 = company ∧ Domain.Score_InterviewID kv.2 = interview))).
Definition of_interview (company interview : UUID) (k : pk) (r : SessionRow) : Prop :=
  k.1 = company ∧ Session_InterviewID (row_session r) = Some interview.
(** Deleting sessions cascades to the scores that reference them. *)
Definition delete_sessions (company interview : UUID) (t : Tables) : Tables :=
  let gone (k : pk) := match t_sessions t !! k with
    | Some r => bool_decide (of_interview company interview k r) | None => false end in
  set_scores (filter (λ kv, gone kv.1 = false))
    (set_sessions (filter (λ kv, ¬ of_interview company interview kv.1 kv.2)) t).
Definition delete_invites (company interview : UUID) : Tables → Tables :=
  set_invites (filter (λ kv, ¬ (kv.1.1 = company ∧ Invite_InterviewID kv.2 = Some interview))).

(** [INSERT INTO purge_log … ON CONFLICT DO NOTHING]. *)
Definition write_purge_log (company interview : UUID) (row : PurgeRow) : Tables → Tables :=
  set_purge_log (λ l, match l !! (company, interview) with
                      | Some _ => l
                      | None => <[(company, interview) := row]> l end).

Definition purge_statements (now : time) (company interview : UUID) : list (string * (Tables → Tables)) := [
  ("skeletonize interview", skeletonize now company interview);
  ("delete scores", delete_scores company interview);
  ("delete interview scores", delete_interview_scores company interview);
  ("delete sessions", delete_sessions company interview);
  ("delete invites", delete_invites company interview)]%string.

Fixpoint run_statements (sts : list (string * (Tables → Tables))) : M Estate () :=
  match sts with
  | [] => mret ()
  | (name, f) :: sts => wrapM name (on_db (λ t, Ok ((), f t)));; run_statements sts
  end.

(** After the lock: the external deletes, the statements and the log row. *)
Definition purge_locked (c : Candidate) (now : time) (deleteExternal : M Estate Stats) (reason : string)
    : M Estate (outcome bool) :=
  stats ← deleteExternal;
  run_statements (purge_statements now (CompanyID c) (InterviewID c));;
  wrapM "write purge log" (on_db (λ t, Ok ((),
    write_purge_log (CompanyID c) (InterviewID c)
      (mkPurgeRow reason (SearchDocumentsDeleted stats) now) t)));;
  mret (Commit true).

Definition purge_body (c : Candidate) (cutoff now : time) (deleteExternal : M Estate Stats)
    : M Estate (outcome bool) := λ fs s,
  match on_db (lock_candidate cutoff c) fs s with
  | (Err e, fs, s) =>
      if errors_is e ErrNoRows then (Ok (Rolled false), fs, s)
      else (Err (Wrap "lock purge candidate" e), fs, s)
  | (Ok reason, fs, s) => purge_locked c now deleteExternal reason fs s
  end.

Definition Purge (c : Candidate) (cutoff now : time) (deleteExternal : M Estate Stats) : M Estate bool :=
  transaction "begin purge" "commit purge" (purge_body c cutoff now deleteExternal).

(** ** The external deletes (stores.go) *)
Section External.
Context `{uuids : UuidLib}.

Definition InterviewFilter (company interview : UUID) : string :=
  "company_id:=`" +:+ uuid_String company +:+ "` && interview_id:=`" +:+ uuid_String interview +:+ "`".
Arguments InterviewFilter : simpl never.

Definition ClickHouseTables : list string := ["events"; "session_metric_rows"; "interview_activity"]%string.

(** Typesense evaluates a filter; for the filters the Housekeeper renders, the
    documented meaning of [field:=`value`] is an exact match. *)
Context (matches : string → Doc → bool).

Definition delete_documents (company interview : UUID) (docs : list Doc) : list Doc :=
  List.filter (λ d, negb (matches (InterviewFilter company interview) d)) docs.

(** [TypesenseSearch.DeleteInterview]: how many documents were deleted. *)
Definition Search_DeleteInterview (company interview : UUID) : M Estate Z :=
  stmt (λ s,
    let left := delete_documents company interview (documents s) in
    Ok (Z.of_nat (length (documents s)) - Z.of_nat (length left), mkEstate (db s) left (clickhouse s))).

Definition delete_rows (company interview : UUID) (rows : list Row) : list Row :=
  List.filter (λ r, negb (bool_decide (row_company r = company ∧ row_interview r = interview))) rows.

(** [ClickHouseAnalytics.DeleteInterview]: tables that do not exist are
    skipped. *)
Fixpoint delete_from (tables : list string) (company interview : UUID) : M Estate () :=
  match tables with
  | [] => mret ()
  | table :: tables =>
      exists_ ← wrapM "check" (query (λ s, bool_decide (is_Some (clickhouse s !! table))));
      if (exists_ : bool) then
        wrapM "delete from" (exec (λ s,
          mkEstate (db s) (documents s) (alter (delete_rows company interview) table (clickhouse s))));;
        delete_from tables company interview
      else delete_from tables company interview
  end.
Definition Analytics_DeleteInterview (company interview : UUID) : M Estate () :=
  delete_from ClickHouseTables company interview.

(** ** housekeeper.go *)
Definition deleteExternal (c : Candidate) : M Estate Stats :=
  deleted ← wrapM "delete search documents" (Search_DeleteInterview (CompanyID c) (InterviewID c));
  wrapM "delete event log rows" (Analytics_DeleteInterview (CompanyID c) (InterviewID c));;
  mret (mkStats deleted).

Record Report := mkReport {
  Report_Candidates : Z;
  Purged : list Candidate;
  Skipped : list Candidate;
  Failures : list (Candidate * error);
}.

(** The loop over the candidates; [ctx k] is [ctx.Err()] before the [k]th. *)
Fixpoint purge_loop (ctx : nat → option error) (k : nat) (cutoff now : time) (cs : list Candidate)
    (report : Report) (fs : script) (s : Estate) : (Report * option error) * script * Estate :=
  match cs with
  | [] => ((report, None), fs, s)
  | c :: cs =>
      match ctx k with
      | Some e => ((report, Some e), fs, s)
      | None =>
          let '(r, fs, s) := Purge c cutoff now (deleteExternal c) fs s in
          let report := match r with
            | Err e => mkReport (Report_Candidates report) (Purged report) (Skipped report) (Failures report ++ [(c, e)])
            | Ok true => mkReport (Report_Candidates report) (Purged report ++ [c]) (Skipped report) (Failures report)
            | Ok false => mkReport (Report_Candidates report) (Purged report) (Skipped report ++ [c]) (Failures report)
            end in
          purge_loop ctx (S k) cutoff now cs report fs s
      end
  end.

Definition Run (config : Config) (ctx : nat → option error) (now : time) (fs : script) (s : Estate)
    : (Report * option error) * script * Estate :=
  let cutoff := time_add now (- Retention config) in
  match Candidates cutoff (BatchSize config) fs s with
  | (Err e, fs, s) => ((mkReport 0 [] [] [], Some (Wrap "housekeeper: list candidates" e)), fs, s)
  | (Ok cs, fs, s) =>
      purge_loop ctx 0 cutoff now cs (mkReport (Z.of_nat (length cs)) [] [] []) fs s
  end.

(** ** What a purge does *)
Context (matches_spec : ∀ company interview d,
  matches (InterviewFilter company interview) d
  = bool_decide (doc_company d = company ∧ doc_interview d = interview)).

Definition interview_of (c : Candidate) : pk := (CompanyID c, InterviewID c).

(** Everything stored about interview [k]. *)
Record same_interview (k : pk) (s s' : Estate) : Prop := {
  si_interview : t_interviews (db s') !! k = t_interviews (db s) !! k;
  si_scores : ∀ sk x, sk.1 = k.1 → Score_InterviewID x = k.2 →
    t_scores (db s') !! sk = Some x ↔ t_scores (db s) !! sk = Some x;
  si_interview_scores : ∀ sk x, sk.1 = k.1 → Domain.Score_InterviewID x = k.2 →
    t_interview_scores (db s') !! sk = Some x ↔ t_interview_scores (db s) !! sk = Some x;
  si_sessions : ∀ sk x, of_interview k.1 k.2 sk x →
    t_sessions (db s') !! sk = Some x ↔ t_sessions (db s) !! sk = Some x;
  si_invites : ∀ ik x, ik.1 = k.1 → Invite_InterviewID x = Some k.2 →
    t_invites (db s') !! ik = Some x ↔ t_invites (db s) !! ik = Some x;
  si_log : t_purge_log (db s') !! k = t_purge_log (db s) !! k;
  si_documents : List.filter (λ d, bool_decide (doc_company d = k.1 ∧ doc_interview d = k.2)) (documents s')
    = List.filter (λ d, bool_decide (doc_company d = k.1 ∧ doc_interview d = k.2)) (documents s);
  si_rows : ∀ table,
    List.filter (λ r, bool_decide (row_company r = k.1 ∧ row_interview r = k.2)) <$> clickhouse s' !! table
    = List.filter (λ r, bool_decide (row_company r = k.1 ∧ row_interview r = k.2)) <$> clickhouse s !! table;
}.

#[export] Instance same_interview_preorder k : PreOrder (same_interview k).
Proof.
  split; [by split|]. intros a b c Hab Hbc.
  split; intros; (etrans; [apply Hbc|apply Hab]); done.
Qed.

(** A score belongs to the interview of its session. *)
Definition scores_consistent (t : Tables) : Prop :=
  ∀ k x r, t_scores t !! k = Some x → t_sessions t !! k = Some r →
    Session_InterviewID (row_session r) = Some (Score_InterviewID x).

(** What the external deletes leave of interview [c]: nothing. *)
Definition externally_erased (k : pk) (s : Estate) : Prop :=
  (∀ d, d ∈ documents s → ¬ (doc_company d = k.1 ∧ doc_interview d = k.2)) ∧
  (∀ table rows r, table ∈ ClickHouseTables → clickhouse s !! table = Some rows →
     r ∈ rows → ¬ (row_company r = k.1 ∧ row_interview r = k.2)).

(** External effects concern [k] only, and never the operational tables. *)
Definition external (k : pk) (s s' : Estate) : Prop :=
  db s' = db s ∧ ∀ k', k' ≠ k → same_interview k' s s'.
#[export] Instance external_preorder k : PreOrder (external k).
Proof.
  split; [done|]. intros a b c [E1 H1] [E2 H2]. split; [congruence|]. intros k' Hk. etrans; eauto.
Qed.

Lemma pk_neq (k k' : pk) (a b : UUID) : k' ≠ k → (a = k.1 ∧ b = k.2) → ¬ (a = k'.1 ∧ b = k'.2).
Proof. destruct k, k'; cbn. intros Hk [-> ->] [-> ->]. done. Qed.

Lemma filter_filter_keep {A} (p q : A → bool) l :
  (∀ x, p x = true → q x = true) → List.filter p (List.filter q l) = List.filter p l.
Proof.
  intros Hpq. induction l as [|x l IH]; cbn; [done|].
  destruct (q x) eqn:Eq; cbn; rewrite IH; [done|].
  destruct (p x) eqn:Ep; [|done]. apply Hpq in Ep. congruence.
Qed.

Lemma filter_other_docs (k k' : pk) l : k' ≠ k →
  List.filter (λ d, bool_decide (doc_company d = k'.1 ∧ doc_interview d = k'.2)) (delete_documents k.1 k.2 l)
  = List.filter (λ d, bool_decide (doc_company d = k'.1 ∧ doc_interview d = k'.2)) l.
Proof.
  intros Hk. apply filter_filter_keep. intros d Hd. bool_prop. rewrite matches_spec.
  apply negb_true_iff, bool_decide_eq_false_2. intros ?. by eapply pk_neq.
Qed.

Lemma filter_other_rows (k k' : pk) l : k' ≠ k →
  List.filter (λ r, bool_decide (row_company r = k'.1 ∧ row_interview r = k'.2)) (delete_rows k.1 k.2 l)
  = List.filter (λ r, bool_decide (row_company r = k'.1 ∧ row_interview r = k'.2)) l.
Proof.
  intros Hk. apply filter_filter_keep. intros d Hd. bool_prop.
  apply negb_true_iff, bool_decide_eq_false_2. intros ?. by eapply pk_neq.
Qed.

Lemma external_search c : stays (external (interview_of c)) (Search_DeleteInterview (CompanyID c) (InterviewID c)).
Proof.
  apply stays_stmt; [apply _|]. intros s a s' [= _ <-]. split; [done|]. intros k' Hk. split; try done. cbn.
  by apply (filter_other_docs (interview_of c)).
Qed.

Lemma external_rows k table s :
  external k s (mkEstate (db s) (documents s) (alter (delete_rows k.1 k.2) table (clickhouse s))).
Proof.
  split; [done|]. intros k' Hk. split; try done. intros t. cbn.
  destruct (decide (t = table)) as [->|].
  - rewrite lookup_alter_eq. destruct (clickhouse s !! table); [|done]. cbn. f_equal. by apply filter_other_rows.
  - by rewrite lookup_alter_ne.
Qed.

Lemma external_tables ts c : stays (external (interview_of c)) (delete_from ts (CompanyID c) (InterviewID c)).
Proof.
  induction ts as [|t ts IH]; cbn [delete_from]; [by apply stays_ret, _|].
  apply stays_bind; [apply _|by apply stays_wrapM, stays_query, _|]. intros [|]; [|done].
  apply stays_bind; [apply _| |done]. apply stays_wrapM, stays_exec; [apply _|]. intros s.
  apply (external_rows (interview_of c)).
Qed.

Lemma external_deleteExternal c : stays (external (interview_of c)) (deleteExternal c).
Proof.
  apply stays_bind; [apply _|apply stays_wrapM, external_search|]. intros n.
  apply stays_bind; [apply _|apply stays_wrapM, external_tables|]. intros u. by apply stays_ret, _.
Qed.

(** External effects on [k] at most, the operational tables aside: what is
    left of any purge of [k] that does not commit. *)
Definition beside (k : pk) (s s' : Estate) : Prop :=
  t_outbox_id (db s') = t_outbox_id (db s) ∧ external k s (mkEstate (db s) (documents s') (clickhouse s')).
#[export] Instance beside_preorder k : PreOrder (beside k).
Proof.
  split; [intros []; split; done|]. intros a b c [E1 [_ H1]] [E2 [_ H2]]. split; [congruence|].
  split; [done|]. intros k' Hk. destruct (H1 k' Hk), (H2 k' Hk). split; try done.
  - etrans; [apply si_documents1|apply si_documents0].
  - intros t. etrans; [apply si_rows1|apply si_rows0].
Qed.

Lemma external_beside {A} k (m : M Estate A) : stays (external k) m → stays (beside k) m.
Proof.
  intros Hm fs s. destruct (Hm fs s) as [E H]. split; [by rewrite E|]. split; [done|].
  intros k' Hk. destruct (H k' Hk). by split.
Qed.

Lemma beside_on_db {A} k (f : Tables → result (A * Tables)) :
  (∀ t a t', f t = Ok (a, t') → t_outbox_id t' = t_outbox_id t) → stays (beside k) (on_db f).
Proof.
  intros Hf. apply stays_stmt; [apply _|]. intros s a s' H. apply bind_ok in H as ([a' t] & Hft & E).
  simplify_eq. split; [by eapply Hf|]. split; [done|]. intros k' _. by destruct s.
Qed.

Lemma purge_statements_id now company interview :
  Forall (λ st, ∀ t, t_outbox_id (st.2 t) = t_outbox_id t) (purge_statements now company interview).
Proof. by repeat constructor. Qed.

Lemma beside_statements k sts :
  Forall (λ st : string * (Tables → Tables), ∀ t, t_outbox_id (st.2 t) = t_outbox_id t) sts →
  stays (beside k) (run_statements sts).
Proof.
  induction 1 as [|[name f] sts Hf _ IH]; cbn [run_statements]; [by apply stays_ret, _|].
  apply stays_bind; [apply _| |done]. apply stays_wrapM, beside_on_db. intros t a t' [= _ <-]. apply Hf.
Qed.

Lemma beside_locked c now reason : stays (beside (interview_of c)) (purge_locked c now (deleteExternal c) reason).
Proof.
  unfold purge_locked.
  apply stays_bind; [apply _|apply external_beside, external_deleteExternal|]. intros stats.
  apply stays_bind; [apply _|apply beside_statements, purge_statements_id|]. intros u.
  apply stays_bind; [apply _| |intros ?; by apply stays_ret, _].
  apply stays_wrapM, beside_on_db. by intros t a t' [= _ <-].
Qed.

Lemma beside_body c cutoff now : stays (beside (interview_of c)) (purge_body c cutoff now (deleteExternal c)).
Proof.
  intros fs s. unfold state_after, purge_body.
  assert (stays (beside (interview_of c)) (on_db (lock_candidate cutoff c))) as Hl.
  { apply beside_on_db. intros t a t'. unfold lock_candidate. intros H. repeat case_match; by simplify_eq. }
  specialize (Hl fs s). unfold state_after in Hl.
  destruct (on_db (lock_candidate cutoff c) fs s) as [[[reason|e] fs1] s1].
  - etrans; [exact Hl|]. apply beside_locked.
  - by destruct (errors_is e ErrNoRows).
Qed.

(** The tables after a committed purge. *)
Definition purged_tables (now : time) (k : pk) (row : PurgeRow) (t : Tables) : Tables :=
  write_purge_log k.1 k.2 row (foldl (λ t st, st.2 t) t (purge_statements now k.1 k.2)).

Lemma run_statements_ok sts fs s u fs' s' :
  run_statements sts fs s = (Ok u, fs', s') →
  s' = mkEstate (foldl (λ t st, st.2 t) (db s) sts) (documents s) (clickhouse s).
Proof.
  revert fs s. induction sts as [|[name f] sts IH]; intros fs s H; cbn [run_statements] in H.
  { inv_M. by destruct s'. }
  inv_M. match goal with H : run_statements _ _ _ = _ |- _ => apply IH in H as -> end.
  match goal with H : on_db _ _ _ = _ |- _ => apply stmt_ok in H end. inv_bind. by simplify_eq/=.
Qed.

Lemma delete_from_ok ts company interview fs s u fs' s' :
  delete_from ts company interview fs s = (Ok u, fs', s') →
  db s' = db s ∧ documents s' = documents s ∧
  (∀ table rows r, clickhouse s' !! table = Some rows → r ∈ rows →
     (table ∈ ts → ¬ (row_company r = company ∧ row_interview r = interview)) ∧
     ∃ rows0, clickhouse s !! table = Some rows0 ∧ r ∈ rows0).
Proof.
  revert fs s. induction ts as [|t ts IH]; intros fs s H; cbn [delete_from] in H.
  { inv_M. split_and!; [done..|]. intros table rows r Hl Hr. split; [|by eauto]. by intros []%not_elem_of_nil. }
  inv_M. case_bool_decide as Ht; inv_M.
  - match goal with H : delete_from _ _ _ _ _ = _ |- _ => apply IH in H as (-> & -> & Hrows) end.
    cbn in *. split_and!; [done..|]. intros table rows r Hl Hr. destruct (Hrows _ _ _ Hl Hr) as [Hts (rows0 & Hl0 & Hr0)].
    destruct (decide (table = t)) as [->|Hne].
    + rewrite lookup_alter_eq in Hl0. apply fmap_Some in Hl0 as (rows1 & Hl1 & ->).
      unfold delete_rows in Hr0. apply elem_of_filter_bool in Hr0 as [Hr1 Hr0]. bool_prop. eauto.
    + rewrite lookup_alter_ne in Hl0 by done. split; [|by eauto]. intros [->|Hin]%elem_of_cons; [done|auto].
  - match goal with H : delete_from _ _ _ _ _ = _ |- _ => apply IH in H as (-> & -> & Hrows) end.
    split_and!; [done..|]. intros table rows r Hl Hr. destruct (Hrows _ _ _ Hl Hr) as [Hts (rows0 & Hl0 & Hr0)].
    split; [|by eauto]. intros [->|Hin]%elem_of_cons; [|auto]. exfalso. apply Ht. by rewrite Hl0.
Qed.

Lemma deleteExternal_ok c fs s stats fs' s' :
  deleteExternal c fs s = (Ok stats, fs', s') →
  db s' = db s ∧ externally_erased (interview_of c) s'.
Proof.
  unfold deleteExternal. intros H. inv_M.
  match goal with H : Search_DeleteInterview _ _ _ _ = _ |- _ => apply stmt_ok in H; injection H as _ <- end.
  match goal with H : Analytics_DeleteInterview _ _ _ _ = _ |- _ => apply delete_from_ok in H as (Hdb & Hdocs & Hrows) end.
  cbn in Hdb, Hdocs. split; [done|]. split.
  - intros d. rewrite Hdocs. unfold delete_documents. rewrite elem_of_filter_bool, matches_spec.
    intros [_ Hd]. by bool_prop.
  - intros table rows r Ht Hl Hr. by apply (Hrows _ _ _ Hl Hr).
Qed.

(** Everything personal about [k] is gone; its skeleton and log row stay. *)
Definition erased (now : time) (k : pk) (i : Interview) (s' : Estate) : Prop :=
  externally_erased k s' ∧
  t_interviews (db s') !! k = Some (skeleton now i) ∧
  (∀ sk x, t_scores (db s') !! sk = Some x → ¬ (sk.1 = k.1 ∧ Score_InterviewID x = k.2)) ∧
  (∀ sk x, t_interview_scores (db s') !! sk = Some x → ¬ (sk.1 = k.1 ∧ Domain.Score_InterviewID x = k.2)) ∧
  (∀ sk x, t_sessions (db s') !! sk = Some x → ¬ of_interview k.1 k.2 sk x) ∧
  (∀ ik x, t_invites (db s') !! ik = Some x → ¬ (ik.1 = k.1 ∧ Invite_InterviewID x = Some k.2)) ∧
  is_Some (t_purge_log (db s') !! k).

Lemma purged_tables_erased now k row i s docs ch :
  t_interviews (db s) !! k = Some i → externally_erased k (mkEstate (db s) docs ch) →
  erased now k i (mkEstate (purged_tables now k row (db s)) docs ch).
Proof.
  intros Hi [Hd Hr]. destruct k as [company interview]. unfold erased. cbn.
  split_and!; [done| | | | | | ].
  - by rewrite lookup_alter_eq, Hi.
  - intros sk x Hx. by apply map_lookup_filter_Some in Hx as [[_ Hx]%map_lookup_filter_Some _].
  - intros sk x Hx. by apply map_lookup_filter_Some in Hx as [_ Hx].
  - intros sk x Hx. by apply map_lookup_filter_Some in Hx as [_ Hx].
  - intros sk x Hx. by apply map_lookup_filter_Some in Hx as [_ Hx].
  - destruct (t_purge_log (db s) !! (company, interview)) eqn:E; [done|]. by rewrite lookup_insert_eq.
Qed.

Lemma filter_keeps {K V} `{Countable K} (P : K * V → Prop) `{!∀ x, base.Decision (P x)} (m : gmap K V) k x :
  P (k, x) → filter P m !! k = Some x ↔ m !! k = Some x.
Proof. intros Hp. rewrite map_lookup_filter_Some. naive_solver. Qed.

Lemma purged_tables_same now (k k' : pk) row t docs ch :
  k' ≠ k → scores_consistent t →
  same_interview k' (mkEstate t docs ch) (mkEstate (purged_tables now k row t) docs ch).
Proof.
  intros Hk Hc. destruct k as [company interview]. split; cbn; try done.
  - by rewrite lookup_alter_ne.
  - intros sk x E1 E2. split; [by intros [[? _]%map_lookup_filter_Some _]%map_lookup_filter_Some|].
    intros Hx. apply map_lookup_filter_Some_2; [apply map_lookup_filter_Some_2; [done|]|].
    + cbn. intros ?. by eapply (pk_neq (company, interview) k').
    + cbn. destruct (t_sessions t !! sk) as [r|] eqn:Er; [|done]. apply bool_decide_eq_false_2.
      intros [? Hs]. rewrite (Hc _ _ _ Hx Er) in Hs. injection Hs as Hs.
      by eapply (pk_neq (company, interview) k').
  - intros sk x E1 E2. apply filter_keeps. cbn. intros ?. by eapply (pk_neq (company, interview) k').
  - intros sk x [E1 E2]. apply filter_keeps. unfold of_interview. cbn. intros [? E3].
    eapply (pk_neq (company, interview) k'); [done| |split; [exact E1|]]; cbn; [split; [done|reflexivity]|congruence].
  - intros sk x E1 E2. apply filter_keeps. cbn. intros [? E3].
    eapply (pk_neq (company, interview) k'); [done| |split; [exact E1|]]; cbn; [split; [done|reflexivity]|congruence].
  - destruct (t_purge_log t !! (company, interview)) eqn:E; [done|]. by rewrite lookup_insert_ne.
Qed.

Lemma purge_locked_ok c now reason fs s o fs' s' :
  purge_locked c now (deleteExternal c) reason fs s = (Ok o, fs', s') →
  o = Commit true ∧ (∃ row, db s' = purged_tables now (interview_of c) row (db s)) ∧
  externally_erased (interview_of c) s'.
Proof.
  unfold purge_locked. intros Hh. inv_M.
  match goal with H : deleteExternal _ _ _ = _ |- _ => apply deleteExternal_ok in H as [Hdb Hext] end.
  match goal with H : run_statements _ _ _ = _ |- _ => apply run_statements_ok in H as -> end.
  match goal with H : on_db _ _ _ = _ |- _ => apply stmt_ok in H end. inv_bind. simplify_eq/=.
  split; [done|]. split; [|done]. eexists. by rewrite <-Hdb.
Qed.

Lemma lock_candidate_cases cutoff c fs s r fs' s' :
  on_db (lock_candidate cutoff c) fs s = (r, fs', s') →
  s' = s ∧ ∀ reason, r = Ok reason →
    ∃ i, t_interviews (db s) !! interview_of c = Some i ∧ purgeEligible cutoff i = true.
Proof.
  assert (∀ reason t, lock_candidate cutoff c (db s) = Ok (reason, t) → t = db s ∧
    ∃ i, t_interviews (db s) !! interview_of c = Some i ∧ purgeEligible cutoff i = true) as Hl.
  { unfold lock_candidate, interview_of. intros reason t Hh. repeat case_match; simplify_eq. eauto. }
  intros [(a & -> & Hh)|(Hr & Hh)]%exec_cases.
  - apply bind_ok in Hh as ([a' t] & Hf & E). simplify_eq. apply Hl in Hf as [-> Hi]. split; [by destruct s|].
    intros reason _. exact Hi.
  - split; [|by intros reason ->]. destruct Hh as [->|(a & Hh)]; [done|].
    apply bind_ok in Hh as ([a' t] & Hf & E). simplify_eq. apply Hl in Hf as [-> _]. by destruct s.
Qed.

Lemma restore_beside k s s' :
  beside k s s' → db (restore s s') = db s ∧ external k s (restore s s').
Proof.
  intros [E Hx]. assert (db (restore s s') = db s) as Hdb.
  { cbn. rewrite E. unfold set_outbox, id. by destruct (db s). }
  split; [done|]. unfold restore, Estate_rollback. cbn in Hdb. by rewrite Hdb.
Qed.

(** What a purge can end in; [eligible] is the interview the lock saw. *)
Inductive purge_result (cutoff now : time) (k : pk) (s s' : Estate) : result bool → Prop :=
  | purge_untouched r : r ≠ Ok true → db s' = db s → documents s' = documents s →
      clickhouse s' = clickhouse s → purge_result cutoff now k s s' r
  | purge_failed e i : t_interviews (db s) !! k = Some i → purgeEligible cutoff i = true →
      db s' = db s → external k s s' → purge_result cutoff now k s s' (Err e)
  | purge_done r i : r ≠ Ok false → t_interviews (db s) !! k = Some i → purgeEligible cutoff i = true →
      erased now k i s' → purge_result cutoff now k s s' r.

Lemma Purge_cases c cutoff now fs s r fs' s' :
  scores_consistent (db s) →
  Purge c cutoff now (deleteExternal c) fs s = (r, fs', s') →
  purge_result cutoff now (interview_of c) s s' r ∧
  ∀ k', k' ≠ interview_of c → same_interview k' s s'.
Proof.
  intros Hc Hp. unfold Purge, transaction in Hp.
  destruct (wrapM _ (query _) fs s) as [[[u|e] fs0] s0] eqn:Eb.
  2: { injection Hp as <- <- <-. apply wrapM_cases in Eb as (r0 & [-> _]%query_cases & _).
       split; [by apply purge_untouched|done]. }
  apply wrapM_ok, query_ok in Eb as [_ ->].
  pose proof (beside_body c cutoff now fs0 s) as Hb. unfold state_after, purge_body in *.
  destruct (on_db (lock_candidate cutoff c) fs0 s) as [[[reason|e] fs1] s1] eqn:El;
    apply lock_candidate_cases in El as [-> Hi].
  - destruct (Hi reason eq_refl) as (i & Hk & He).
    assert (∀ s2, beside (interview_of c) s s2 → ∀ e, purge_result cutoff now (interview_of c) s (restore s s2) (Err e) ∧
      ∀ k', k' ≠ interview_of c → same_interview k' s (restore s s2)) as Hroll.
    { intros s2 [Hdb Hx]%restore_beside e. split; [by apply (purge_failed _ _ _ _ _ e i)|apply Hx]. }
    destruct (purge_locked c now (deleteExternal c) reason fs1 s) as [[[o|e] fs2] s2] eqn:E.
    + apply purge_locked_ok in E as (-> & (row & Hdb) & Hext). cbn in Hb.
      assert (∀ r, r ≠ Ok false → purge_result cutoff now (interview_of c) s s2 r ∧
        ∀ k', k' ≠ interview_of c → same_interview k' s s2) as Hdone.
      { intros r0 Hr0. destruct s2 as [t2 d2 c2]. cbn in Hdb. subst t2. split.
        - apply (purge_done _ _ _ _ _ r0 i); [done..|]. by apply purged_tables_erased.
        - intros k' Hk'. etrans; [by apply Hb|]. by apply purged_tables_same. }
      destruct fs2 as [|[|e|e|n e] fs2]; injection Hp as <- <- <-; [by apply Hdone..| |by apply Hdone|];
        by apply Hroll.
    + injection Hp as <- <- <-. by apply Hroll.
  - assert (restore s s = s) as Hrs by (by destruct s as [[] ? ?]).
    assert (∀ r, r ≠ Ok true → purge_result cutoff now (interview_of c) s (restore s s) r ∧
        ∀ k', k' ≠ interview_of c → same_interview k' s (restore s s)) as Hun.
    { intros r0 Hr0. rewrite Hrs. split; [by apply purge_untouched|done]. }
    destruct (errors_is e ErrNoRows); injection Hp as <- <- <-; by apply Hun.
Qed.

Lemma purged_consistent now k row t : scores_consistent t → scores_consistent (purged_tables now k row t).
Proof.
  intros Hc sk x r Hx Hr. destruct k. cbn in Hx, Hr.
  apply map_lookup_filter_Some in Hx as [[Hx _]%map_lookup_filter_Some _].
  apply map_lookup_filter_Some in Hr as [Hr _]. by eapply Hc.
Qed.

Lemma consistent_after c cutoff now fs s :
  scores_consistent (db s) → scores_consistent (db (state_after (Purge c cutoff now (deleteExternal c)) fs s)).
Proof.
  intros Hc. destruct (Purge c cutoff now (deleteExternal c) fs s) as [[r fs'] s'] eqn:E.
  unfold state_after. rewrite E. cbn.
  apply transaction_cases in E as [[-> _]|[(fs1 & -> & _)|(fs1 & a & Hr & -> & _)]]; [done| |].
  - pose proof (restore_beside _ _ _ (beside_body c cutoff now fs1 s)) as [-> _]. done.
  - unfold result_of, state_after, purge_body in *.
    destruct (on_db (lock_candidate cutoff c) fs1 s) as [[[reason|e] fs2] s2] eqn:El;
      apply lock_candidate_cases in El as [-> _].
    + destruct (purge_locked _ _ _ _ _ _) as [[[o|e] fs3] s3] eqn:E; [|done].
      apply purge_locked_ok in E as (_ & (row & Hdb) & _). cbn. rewrite Hdb. by apply purged_consistent.
    + by destruct (errors_is e ErrNoRows).
Qed.

(** Being erased is stable under what happens to other interviews. *)
Lemma erased_stable now k i s s' : same_interview k s s' → erased now k i s → erased now k i s'.
Proof.
  intros Hs ([Hd Hr] & Hi & H1 & H2 & H3 & H4 & H5). destruct Hs.
  unfold erased, externally_erased. split_and!.
  - intros d Hin Hk. assert (d ∈ List.filter (λ d, bool_decide (doc_company d = k.1 ∧ doc_interview d = k.2)) (documents s')) as Hf.
    { apply elem_of_filter_bool. by rewrite bool_decide_eq_true. }
    rewrite si_documents0, elem_of_filter_bool in Hf. destruct Hf as [Hf _]. by apply (Hd d).
  - intros table rows r Ht Hl Hin Hk. specialize (si_rows0 table). rewrite Hl in si_rows0. cbn in si_rows0.
    symmetry in si_rows0. apply fmap_Some in si_rows0 as (rows0 & Hl0 & E).
    assert (r ∈ List.filter (λ r, bool_decide (row_company r = k.1 ∧ row_interview r = k.2)) rows) as Hf.
    { apply elem_of_filter_bool. by rewrite bool_decide_eq_true. }
    rewrite E, elem_of_filter_bool in Hf. destruct Hf as [Hf _]. by apply (Hr table rows0 r).
  - by rewrite si_interview0.
  - intros sk x Hx [E1 E2]. rewrite si_scores0 in Hx by done. by eapply H1.
  - intros sk x Hx [E1 E2]. rewrite si_interview_scores0 in Hx by done. by eapply H2.
  - intros sk x Hx Hof. rewrite si_sessions0 in Hx by done. by eapply H3.
  - intros sk x Hx [E1 E2]. rewrite si_invites0 in Hx by done. by eapply H4.
  - by rewrite si_log0.
Qed.

Lemma candidates_nodup cutoff limit t : NoDup (interview_of <$> list_candidates cutoff limit t).
Proof.
  unfold list_candidates. assert (∀ l : list (pk * Interview),
    interview_of <$> map (λ kv, mkCandidate kv.1.1 kv.1.2 (reason_of kv.2)) l = l.*1) as ->.
  { induction l as [|[[a b] i] l IH]; cbn; [done|]. by f_equal. }
  eapply sublist_NoDup; [|apply fmap_sublist, sublist_take].
  rewrite sort_stable_perm. apply (sublist_NoDup _ (map_to_list (t_interviews t)).*1); [|apply fmap_sublist].
  - apply NoDup_fst_map_to_list.
  - induction (map_to_list (t_interviews t)) as [|x l IH]; cbn; [constructor|].
    destruct (purgeEligible cutoff x.2); by constructor.
Qed.

Lemma candidates_eligible cutoff limit t c : c ∈ list_candidates cutoff limit t →
  ∃ i, t_interviews t !! interview_of c = Some i ∧ purgeEligible cutoff i = true.
Proof.
  unfold list_candidates. intros ([k i] & -> & Hin)%list_elem_of_fmap. cbn.
  eapply elem_of_sublist in Hin; [|apply sublist_take].
  rewrite sort_stable_perm, elem_of_filter_bool, elem_of_map_to_list in Hin.
  exists i. by destruct k.
Qed.

(** The operational rows of [k] are the same. *)
Definition same_rows (k : pk) (s s' : Estate) : Prop :=
  same_interview k s (mkEstate (db s') (documents s) (clickhouse s)).

Lemma same_rows_trans k s s1 s' : same_rows k s s1 → same_interview k s1 s' → same_rows k s s'.
Proof.
  intros H1 H2. unfold same_rows in *. etrans; [exact H1|]. destruct H2. split; done.
Qed.

Lemma same_rows_pre k s s1 s' : same_interview k s s1 → same_rows k s1 s' → same_rows k s s'.
Proof.
  intros H1 H2. split; intros; cbn; try done; (etrans; [apply H2|apply H1]); done.
Qed.

(** What a run did to its candidates, against the report it makes. *)
Record accounted (cutoff now : time) (cs : list Candidate) (s s' : Estate)
    (purged skipped : list Candidate) (failed : list (Candidate * error)) : Prop := {
  acc_others : ∀ k, k ∉ interview_of <$> cs → same_interview k s s';
  acc_purged : ∀ c, c ∈ purged → c ∈ cs ∧ ∃ i, t_interviews (db s) !! interview_of c = Some i ∧
    purgeEligible cutoff i = true ∧ erased now (interview_of c) i s';
  acc_skipped : ∀ c, c ∈ skipped → c ∈ cs ∧ same_interview (interview_of c) s s';
  acc_failed : ∀ c e, (c, e) ∈ failed → c ∈ cs ∧
    (same_rows (interview_of c) s s' ∨ ∃ i, erased now (interview_of c) i s');
}.

Lemma same_of_eq k s s' : db s' = db s → documents s' = documents s → clickhouse s' = clickhouse s →
  same_interview k s s'.
Proof. intros E1 E2 E3. split; intros; by rewrite ?E1, ?E2, ?E3. Qed.

Lemma accounted_step cutoff now c cs s s1 s' r purged skipped failed :
  interview_of c ∉ interview_of <$> cs →
  purge_result cutoff now (interview_of c) s s1 r →
  (∀ k, k ≠ interview_of c → same_interview k s s1) →
  accounted cutoff now cs s1 s' purged skipped failed →
  accounted cutoff now (c :: cs) s s'
    (match r with Ok true => c :: purged | _ => purged end)
    (match r with Ok false => c :: skipped | _ => skipped end)
    (match r with Err e => (c, e) :: failed | _ => failed end).
Proof.
  intros Hc Hr Hsame [Ho Hp Hs Hf].
  assert (∀ c', c' ∈ cs → interview_of c' ≠ interview_of c) as Hne.
  { intros c' Hin E. apply Hc. rewrite <-E. by apply list_elem_of_fmap_2. }
  pose proof (Ho _ Hc) as Hrest. split.
  - intros k [Hk1 Hk2]%not_elem_of_cons. etrans; [by apply Hsame|by apply Ho].
  - assert (∀ c', c' ∈ purged → c' ∈ c :: cs ∧ ∃ i, t_interviews (db s) !! interview_of c' = Some i ∧
      purgeEligible cutoff i = true ∧ erased now (interview_of c') i s') as Hold.
    { intros c' (Hin & i & Hi & He)%Hp. split; [by right|]. exists i. split; [|done].
      by rewrite <-(si_interview _ _ _ (Hsame _ (Hne _ Hin))). }
    intros c' Hin. destruct r as [[|]|e]; [|by apply Hold..].
    apply elem_of_cons in Hin as [->|Hin]; [|by apply Hold]. split; [by left|].
    inversion Hr as [| |? i ? Hi He Her]; subst; [done|]. exists i. split_and!; [done..|].
    by eapply erased_stable.
  - assert (∀ c', c' ∈ skipped → c' ∈ c :: cs ∧ same_interview (interview_of c') s s') as Hold.
    { intros c' [Hin Hx]%Hs. split; [by right|]. etrans; [by apply Hsame, Hne|done]. }
    intros c' Hin. destruct r as [[|]|e]; [by apply Hold| |by apply Hold].
    apply elem_of_cons in Hin as [->|Hin]; [|by apply Hold]. split; [by left|].
    etrans; [|exact Hrest]. inversion Hr; subst; [by apply same_of_eq|done].
  - assert (∀ c' e, (c', e) ∈ failed → c' ∈ c :: cs ∧
      (same_rows (interview_of c') s s' ∨ ∃ i, erased now (interview_of c') i s')) as Hold.
    { intros c' e [Hin Hx]%Hf. split; [by right|]. destruct Hx as [Hx|Hx]; [left|by right].
      eapply same_rows_pre; [by apply Hsame, Hne|done]. }
    intros c' e Hin. destruct r as [[|]|e']; [by apply (Hold c' e)..|].
    apply elem_of_cons in Hin as [[= -> ->]|Hin]; [|by apply (Hold c' e)]. split; [by left|].
    inversion Hr as [? _ E1 E2 E3|? i Hi He Edb Hx|? i _ Hi He Her]; subst.
    + left. eapply same_rows_trans; [|exact Hrest]. unfold same_rows. by apply same_of_eq.
    + left. eapply same_rows_trans; [|exact Hrest]. unfold same_rows. by apply same_of_eq.
    + right. exists i. by eapply erased_stable.
Qed.

Lemma purge_loop_accounted ctx j cutoff now cs report fs s report' err fs' s' :
  scores_consistent (db s) → NoDup (interview_of <$> cs) →
  purge_loop ctx j cutoff now cs report fs s = ((report', err), fs', s') →
  ∃ purged skipped failed,
    report' = mkReport (Report_Candidates report) (Purged report ++ purged) (Skipped report ++ skipped)
                (Failures report ++ failed) ∧
    accounted cutoff now cs s s' purged skipped failed ∧
    (err = None → length purged + length skipped + length failed = length cs)%nat.
Proof.
  revert j report fs s. induction cs as [|c cs IH]; intros j report fs s Hc Hnd Hl; cbn [purge_loop] in Hl.
  { injection Hl as <- <- <- <-. exists [], [], []. rewrite !app_nil_r. split; [by destruct report|].
    split; [|done]. by split; [|intros ? []%not_elem_of_nil|intros ? []%not_elem_of_nil|intros ? ? []%not_elem_of_nil]. }
  destruct (ctx j) as [e|].
  { injection Hl as <- <- <- <-. exists [], [], []. rewrite !app_nil_r. split; [by destruct report|].
    split; [|done]. by split; [|intros ? []%not_elem_of_nil|intros ? []%not_elem_of_nil|intros ? ? []%not_elem_of_nil]. }
  apply NoDup_cons in Hnd as [Hnew Hnd].
  destruct (Purge c cutoff now (deleteExternal c) fs s) as [[r fs1] s1] eqn:E.
  pose proof (consistent_after c cutoff now fs s Hc) as Hc1. unfold state_after in Hc1. rewrite E in Hc1. cbn in Hc1.
  apply Purge_cases in E as [Hr Hsame]; [|done].
  apply IH in Hl as (purged & skipped & failed & -> & Hacc & Hlen); [|done..].
  eapply accounted_step in Hacc; [|exact Hnew|exact Hr|exact Hsame].
  exists (match r with Ok true => c :: purged | _ => purged end),
    (match r with Ok false => c :: skipped | _ => skipped end),
    (match r with Err e => (c, e) :: failed | _ => failed end).
  split; [|split; [exact Hacc|]].
  - destruct r as [[|]|e]; cbn; by rewrite <-?app_assoc.
  - intros He. apply Hlen in He. destruct r as [[|]|e]; cbn; lia.
Qed.

(** What the schedule says of an interview that may be purged. *)
Definition may_be_purged (cutoff : time) (i : Interview) : Prop :=
  Interview_PurgedAt i = None ∧ Interview_LegalHold i = false ∧
  (is_Some (Interview_EraseRequestedAt i) ∨ ∃ t, Interview_TerminalAt i = Some t ∧ t < cutoff).

Lemma purgeEligible_spec cutoff i : purgeEligible cutoff i = true ↔ may_be_purged cutoff i.
Proof.
  unfold purgeEligible, may_be_purged, before. split.
  - intros H. bool_prop. split_and!; [done..|].
    match goal with H : _ || _ = true |- _ => apply orb_true_iff in H as [H|H] end; bool_prop; [by left|right].
    destruct (Interview_TerminalAt i) as [t|]; [bool_prop; eauto|done].
  - intros (-> & -> & H). rewrite bool_decide_eq_true_2 by done. cbn. apply orb_true_iff.
    destruct H as [H|(t & -> & H)]; [left; by apply bool_decide_eq_true|right; by apply Z.ltb_lt].
Qed.

(** C9: A run of the Housekeeper, whatever statement, external delete, commit
    or context fails at any point, touches nothing of an interview that was not
    eligible when it started - purged already, under legal hold, or neither
    erasure-requested nor ended before the cutoff.  Every interview it reports
    purged was eligible and is left without documents, event rows, scores,
    sessions or invites, as a skeleton with a log row; one it reports failed
    keeps all its operational rows, hence stays eligible for the next run, or
    (a lost acknowledgement) is completely purged; one it skipped is untouched.
    Unless the context ended, every candidate is accounted for. *)
Theorem Run_respects_holds config ctx now fs s report err fs' s' :
  scores_consistent (db s) →
  Run config ctx now fs s = ((report, err), fs', s') →
  let cutoff := time_add now (- Retention config) in
  (∀ k, (∀ i, t_interviews (db s) !! k = Some i → ¬ may_be_purged cutoff i) → same_interview k s s') ∧
  (∀ c, c ∈ Purged report → ∃ i, t_interviews (db s) !! interview_of c = Some i ∧
     may_be_purged cutoff i ∧ erased now (interview_of c) i s') ∧
  (∀ c, c ∈ Skipped report → same_interview (interview_of c) s s') ∧
  (∀ c e, (c, e) ∈ Failures report →
     same_rows (interview_of c) s s' ∨ ∃ i, erased now (interview_of c) i s') ∧
  (err = None → Z.of_nat (length (Purged report) + length (Skipped report) + length (Failures report))
     = Report_Candidates report ∧ Report_Candidates report ≤ Z.max 0 (BatchSize config)).
Proof.
  intros Hc Hrun cutoff. unfold Run in Hrun. fold cutoff in Hrun.
  destruct (Candidates cutoff (BatchSize config) fs s) as [[[cs|e] fs1] s1] eqn:E.
  2: { injection Hrun as <- <- <- <-. apply wrapM_cases in E as (r0 & [-> _]%query_cases & _).
       split_and!; [done|intros ? []%not_elem_of_nil|intros ? []%not_elem_of_nil|intros ? ? []%not_elem_of_nil|done]. }
  apply wrapM_ok, query_ok in E as [-> ->].
  apply purge_loop_accounted in Hrun as (purged & skipped & failed & -> & [Ho Hp Hs Hf] & Hlen);
    [|done|apply candidates_nodup].
  cbn. split_and!.
  - intros k Hk. apply Ho. intros (c & -> & Hin)%list_elem_of_fmap.
    apply candidates_eligible in Hin as (i & Hi & He). by apply (Hk i Hi), purgeEligible_spec.
  - intros c [_ (i & Hi & He & H)]%Hp. exists i. by rewrite <-purgeEligible_spec.
  - intros c [_ H]%Hs. exact H.
  - intros c e [_ H]%Hf. exact H.
  - intros He. rewrite (Hlen He). split; [done|]. unfold list_candidates. rewrite length_map, length_take. lia.
Qed.

(** ** Undisturbed runs *)
Lemma run_statements_nil sts s :
  run_statements sts [] s = (Ok (), [], mkEstate (foldl (λ t st, st.2 t) (db s) sts) (documents s) (clickhouse s)).
Proof.
  revert s. induction sts as [|[name f] sts IH]; intros s; cbn [run_statements foldl]; [by destruct s|].
  unfold mbind, M_bind. cbn. by rewrite IH.
Qed.

Lemma delete_from_nil ts company interview s :
  ∃ s', delete_from ts company interview [] s = (Ok (), [], s').
Proof.
  revert s. induction ts as [|t ts IH]; intros s; cbn [delete_from]; [by exists s|].
  unfold mbind, M_bind. cbn. case_bool_decide; cbn; apply IH.
Qed.

Lemma bind_to {A B} (m : M Estate A) (f : A → M Estate B) fs s a fs1 s1 :
  m fs s = (Ok a, fs1, s1) → (m ≫= f) fs s = f a fs1 s1.
Proof. intros E. unfold mbind, M_bind. by rewrite E. Qed.
Lemma wrapM_to {A} msg (m : M Estate A) fs s a fs1 s1 :
  m fs s = (Ok a, fs1, s1) → wrapM msg m fs s = (Ok a, fs1, s1).
Proof. intros E. unfold wrapM. by rewrite E. Qed.

Lemma deleteExternal_nil c s : ∃ stats s', deleteExternal c [] s = (Ok stats, [], s').
Proof.
  unfold deleteExternal. erewrite bind_to; [|by apply wrapM_to].
  edestruct delete_from_nil as [s' E]. erewrite bind_to; [|apply wrapM_to, E]. by eexists _, s'.
Qed.

Lemma Purge_nil c cutoff now s i :
  t_interviews (db s) !! interview_of c = Some i → purgeEligible cutoff i = true →
  ∃ s', Purge c cutoff now (deleteExternal c) [] s = (Ok true, [], s').
Proof.
  intros Hi He. assert (∃ s', purge_body c cutoff now (deleteExternal c) [] s = (Ok (Commit true), [], s')) as [s' E].
  { unfold purge_body, on_db, stmt, lock_candidate. unfold interview_of in Hi. rewrite Hi, He. cbn [mbind result_bind].
    destruct (deleteExternal_nil c (mkEstate (db s) (documents s) (clickhouse s))) as (stats & s1 & E).
    unfold purge_locked. erewrite bind_to; [|exact E].
    erewrite bind_to; [|apply run_statements_nil]. erewrite bind_to; [|by apply wrapM_to]. by eexists. }
  exists s'. unfold Purge, transaction. cbn [wrapM query stmt]. by rewrite E.
Qed.

Lemma purge_loop_nil j cutoff now cs report s :
  scores_consistent (db s) → NoDup (interview_of <$> cs) →
  (∀ c, c ∈ cs → ∃ i, t_interviews (db s) !! interview_of c = Some i ∧ purgeEligible cutoff i = true) →
  ∃ s', purge_loop (λ _, None) j cutoff now cs report [] s
    = ((mkReport (Report_Candidates report) (Purged report ++ cs) (Skipped report) (Failures report), None), [], s') ∧
    scores_consistent (db s').
Proof.
  revert j report s. induction cs as [|c cs IH]; intros j report s Hc Hnd Hel; cbn [purge_loop].
  { exists s. rewrite app_nil_r. by destruct report. }
  apply NoDup_cons in Hnd as [Hnew Hnd]. destruct (Hel c) as (i & Hi & He); [by left|].
  destruct (Purge_nil c cutoff now s i Hi He) as [s1 E]. rewrite E.
  pose proof (consistent_after c cutoff now [] s Hc) as Hc1. unfold state_after in Hc1. rewrite E in Hc1. cbn in Hc1.
  apply Purge_cases in E as [_ Hsame]; [|done].
  destruct (IH (S j) (mkReport (Report_Candidates report) (Purged report ++ [c]) (Skipped report) (Failures report)) s1)
    as (s' & -> & Hs'); [done..| |].
  - intros c' Hin. assert (interview_of c' ≠ interview_of c) as Hne.
    { intros Ec. apply Hnew. rewrite <-Ec. by apply list_elem_of_fmap_2. }
    rewrite (si_interview _ _ _ (Hsame _ Hne)). by apply Hel; right.
  - exists s'. cbn. by rewrite <-app_assoc.
Qed.

Definition eligible (cutoff : time) (t : Tables) : list pk :=
  (List.filter (λ kv, purgeEligible cutoff kv.2) (map_to_list (t_interviews t))).*1.

Lemma eligible_spec cutoff t k : k ∈ eligible cutoff t ↔ ∃ i, t_interviews t !! k = Some i ∧ purgeEligible cutoff i = true.
Proof.
  unfold eligible. rewrite list_elem_of_fmap. split.
  - intros ([k' i] & -> & Hin). rewrite elem_of_filter_bool, elem_of_map_to_list in Hin. eauto.
  - intros (i & Hi & He). exists (k, i). by rewrite elem_of_filter_bool, elem_of_map_to_list.
Qed.

Lemma eligible_nodup cutoff t : NoDup (eligible cutoff t).
Proof.
  unfold eligible. apply (sublist_NoDup _ (map_to_list (t_interviews t)).*1); [apply NoDup_fst_map_to_list|].
  apply fmap_sublist. induction (map_to_list (t_interviews t)) as [|x l IH]; cbn; [constructor|].
  destruct (purgeEligible cutoff x.2); by constructor.
Qed.

Lemma length_candidates cutoff limit t :
  length (list_candidates cutoff limit t) = (Z.to_nat limit `min` length (eligible cutoff t))%nat.
Proof.
  unfold list_candidates, eligible. rewrite length_map, length_take, length_fmap. f_equal.
  apply Permutation_length, sort_stable_perm.
Qed.

Definition run_once (config : Config) (now : time) (s : Estate) : Estate :=
  (Run config (λ _, None) now [] s).2.

Lemma run_once_progress config now s :
  let cutoff := time_add now (- Retention config) in
  scores_consistent (db s) →
  scores_consistent (db (run_once config now s)) ∧
  (length (eligible cutoff (db (run_once config now s)))
   ≤ length (eligible cutoff (db s)) - Z.to_nat (BatchSize config))%nat.
Proof.
  intros cutoff Hc. unfold run_once.
  set (cs := list_candidates cutoff (BatchSize config) (db s)).
  destruct (purge_loop_nil 0 cutoff now cs (mkReport (Z.of_nat (length cs)) [] [] []) s)
    as (s' & E & Hc'); [done|apply candidates_nodup|intros c; apply candidates_eligible|].
  assert (Run config (λ _, None) now [] s = ((mkReport (Z.of_nat (length cs)) ([] ++ cs) [] [], None), [], s')) as Hrun
    by exact E.
  rewrite Hrun. cbn [snd]. split; [done|].
  apply purge_loop_accounted in E as (purged & skipped & failed & Er & [Ho Hp _ _] & _); [|done|apply candidates_nodup].
  cbn in Er. injection Er as Epurged _ _.
  enough (length (eligible cutoff (db s') ++ (interview_of <$> cs)) ≤ length (eligible cutoff (db s)))%nat as Hlen.
  { rewrite length_app, length_fmap in Hlen. unfold cs in Hlen. rewrite length_candidates in Hlen. lia. }
  assert (∀ k, k ∈ eligible cutoff (db s') → k ∉ interview_of <$> cs) as Hdisj.
  { intros k (i & Hi & He)%eligible_spec (c & -> & Hin)%list_elem_of_fmap. rewrite Epurged in Hin.
    apply Hp in Hin as (_ & i0 & _ & _ & (_ & Hsk & _)). rewrite Hsk in Hi. injection Hi as <-.
    unfold purgeEligible in He. cbn in He. done. }
  apply submseteq_length, NoDup_submseteq.
  - apply NoDup_app. split_and!; [apply eligible_nodup|exact Hdisj|apply candidates_nodup].
  - intros k [Hk|Hk]%elem_of_app.
    + pose proof (Hdisj _ Hk) as Hn. rewrite eligible_spec in *. by rewrite <-(si_interview _ _ _ (Ho k Hn)).
    + apply list_elem_of_fmap in Hk as (c & -> & Hin). apply eligible_spec. by apply (candidates_eligible _ (BatchSize config)).
Qed.

(** C28: Undisturbed, the Housekeeper finishes: after as many batches as the
    backlog needs, no eligible interview is left, and every interview that was
    eligible has been purged. *)
Theorem runs_drain_backlog config now n s :
  let cutoff := time_add now (- Retention config) in
  New config = Ok config → scores_consistent (db s) →
  (Z.of_nat (length (eligible cutoff (db s))) ≤ Z.of_nat n * BatchSize config) →
  eligible cutoff (db (Nat.iter n (run_once config now) s)) = [].
Proof.
  intros cutoff Hnew Hc. assert (0 < BatchSize config) as Hb.
  { unfold New in Hnew. destruct (_ || _) eqn:E; [done|]. apply orb_false_iff in E as [_ E]. by bool_prop. }
  assert (scores_consistent (db (Nat.iter n (run_once config now) s)) ∧
    (length (eligible cutoff (db (Nat.iter n (run_once config now) s)))
     ≤ length (eligible cutoff (db s)) - n * Z.to_nat (BatchSize config))%nat) as [_ Hn].
  { induction n as [|n [IHc IHn]]; [split; [done|change (Nat.iter 0 (run_once config now) s) with s; lia]|].
    change (Nat.iter (S n) (run_once config now) s) with (run_once config now (Nat.iter n (run_once config now) s)).
    destruct (run_once_progress config now (Nat.iter n (run_once config now) s) IHc) as [? Hlen].
    fold cutoff in Hlen. split; [done|]. lia. }
  intros Hle. apply nil_length_inv.
  assert (length (eligible cutoff (db s)) ≤ n * Z.to_nat (BatchSize config))%nat; [|lia].
  apply Nat2Z.inj_le. rewrite Nat2Z.inj_mul, Z2Nat.id by lia. exact Hle.
Qed.
End External.

(** ** A concrete estate *)
Definition exact_match `{UuidLib} (filter : string) (d : Doc) : bool :=
  bool_decide (filter = InterviewFilter (doc_company d) (doc_interview d)).

Definition backtick : ascii := "`"%char.
Lemma render_plain u : contains_char backtick (BinUuid.render_uuid u) = false.
Proof. destruct u as [|p]; [done|]. cbn. induction p as [p IH|p IH|]; cbn; [exact IH..|done]. Qed.

Lemma exact_match_spec company interview d :
  let _ := BinUuid.lib in
  exact_match (InterviewFilter company interview) d
  = bool_decide (doc_company d = company ∧ doc_interview d = interview).
Proof.
  intros lib. unfold exact_match. apply bool_decide_ext.
  assert (∀ c i, split backtick (InterviewFilter c i)
    = ["company_id:="; uuid_String c; " && interview_id:="; uuid_String i; ""]%string) as Hs.
  { intros c i. unfold InterviewFilter.
    change ("company_id:=`" +:+ uuid_String c +:+ "` && interview_id:=`" +:+ uuid_String i +:+ "`")
      with ("company_id:=" +:+ String backtick (uuid_String c +:+ String backtick
        (" && interview_id:=" +:+ String backtick (uuid_String i +:+ String backtick ""))))%string.
    rewrite !split_app_sep; [done|apply render_plain|done|apply render_plain|done]. }
  split; [|by intros [-> ->]]. intros E%(f_equal (split backtick)). rewrite !Hs in E.
  injection E as E1 E2. split; by apply uuid_String_inj.
Qed.

Definition example_ended : Interview :=
  mkInterview 3%N 7%N None "Ada" "ada@example.org" InterviewStatusCompleted None (Some 0) None false None 4 0 0.
Definition example_held : Interview :=
  mkInterview 4%N 7%N None "Bo" "bo@example.org" InterviewStatusCompleted None (Some 0) (Some 1) true None 2 0 0.
Definition example_estate : Estate := mkEstate
  (set_interviews (λ _, {[(7%N, 3%N) := example_ended; (7%N, 4%N) := example_held]}) (tables example_world))
  [mkDoc 7%N 3%N "a"; mkDoc 7%N 4%N "b"]
  {["events"%string := [mkRow 7%N 3%N "x"; mkRow 7%N 4%N "y"]]}.
Definition example_config : Config := mkConfig hour 10.

Lemma example_consistent : scores_consistent (db example_estate).
Proof. intros k x r Hx. change (t_scores (db example_estate)) with (∅ : gmap pk Score) in Hx. by rewrite lookup_empty in Hx. Qed.

Definition example_run : (Report * option error) * script * Estate :=
  Run (uuids := BinUuid.lib) (exact_match (H := BinUuid.lib)) example_config (λ _, None) (10 * hour) [] example_estate.

Lemma Run_respects_holds_witness :
  scores_consistent (db example_estate) ∧
  Purged example_run.1.1.1 = [mkCandidate 7%N 3%N ReasonRetention] ∧
  same_interview (7%N, 4%N) example_estate example_run.2 ∧
  erased (10 * hour) (7%N, 3%N) example_ended example_run.2.
Proof.
  split; [exact example_consistent|]. split; [by vm_compute|].
  destruct example_run as [[[report err] fs'] s'] eqn:E.
  assert (Purged report = [mkCandidate 7%N 3%N ReasonRetention]) as Hp.
  { change report with ((report, err), fs', s').1.1.1. rewrite <-E. by vm_compute. }
  destruct (Run_respects_holds (uuids := BinUuid.lib) exact_match exact_match_spec example_config (λ _, None) (10 * hour) []
    example_estate report err fs' s' example_consistent E) as (H1 & H2 & _).
  split.
  - apply H1. intros i Hi. replace i with example_held by (apply (inj Some); rewrite <-Hi; by vm_compute). by intros (_ & [=] & _).
  - destruct (H2 (mkCandidate 7%N 3%N ReasonRetention)) as (i & Hi & _ & Her); [rewrite Hp; by left|].
    replace example_ended with i by (apply (inj Some); rewrite <-Hi; by vm_compute). exact Her.
Defined.

Lemma runs_drain_backlog_witness :
  let cutoff := time_add (10 * hour) (- hour) in
  eligible cutoff (db example_estate) = [(7%N, 3%N)] ∧
  eligible cutoff (db (Nat.iter 1 (run_once (uuids := BinUuid.lib) (exact_match (H := BinUuid.lib)) example_config (10 * hour)) example_estate)) = [].
Proof.
  cbv zeta. split; [by vm_compute|].
  apply (runs_drain_backlog (uuids := BinUuid.lib) (exact_match (H := BinUuid.lib)) exact_match_spec example_config (10 * hour) 1 example_estate).
  - reflexivity.
  - exact example_consistent.
  - vm_compute. discriminate.
Defined.
