(* ===== verification/Unidiff.v ===== *)
(** * Unified diffs (internal/candidateworkspace/unidiff.go)

    The hunk-header pattern, the counting loop, and a grammar of single-file
    unified diffs that the loop recognises exactly. *)
From S2P Require Import Prelude Str Json.

#[local] Open Scope string_scope.
#[local] Open Scope list_scope.
#[local] Open Scope Z_scope.

(** A maximal run of digits and what follows. *)
Fixpoint take_digits (s : string) : string * string :=
  match s with
  | String a s' => if is_digit a then let '(d, r) := take_digits s' in (String a d, r) else ("", s)
  | EmptyString => ("", "")
  end.

Definition drop_char (c : ascii) (s : string) : option string :=
  match s with
  | String a s => if Ascii.eqb a c then Some s else None
  | EmptyString => None
  end.

(** [(\d+)(?:,(\d+))?]: the number, the optional second number and the rest. *)
Definition range_field (s : string) : option (string * string * string) :=
  let '(first, rest) := take_digits s in
  if bool_decide (first = "") then None
  else match drop_char "," rest with
  | Some rest' =>
      let '(second, rest'') := take_digits rest' in
      if bool_decide (second = "") then Some (first, "", rest) else Some (first, second, rest'')
  | None => Some (first, "", rest)
  end.

(** [hunkHeader]: [^@@ -(\d+)(?:,(\d+))? \+(\d+)(?:,(\d+))? @@]; the second
    and fourth groups, which are the ones the caller uses. *)
Definition drop_prefix (p s : string) : option string :=
  if has_prefix p s then Some (substring (String.length p) (String.length s - String.length p) s) else None.

Definition hunkHeader (line : string) : option (string * string) :=
  s ← drop_prefix "@@ -" line;
  '(_, old, s) ← range_field s;
  s ← drop_prefix " +" s;
  '(_, new, s) ← range_field s;
  _ ← drop_prefix " @@" s;
  Some (old, new).

(** [strconv.Atoi] with its error dropped: out of range gives the largest
    [int]. *)
Definition hunkLength (field : string) : Z :=
  if bool_decide (field = "") then 1
  else match parse_nat field with
       | Some n => Z.min n max_int64
       | None => 0
       end.

Definition truncate (s : string) : string :=
  if 40 <? len s then substring 0 40 s +:+ String "226" (String "128" (String "166" "")) else s.

Definition at_header (line : string) : bool := has_prefix "@@" line.
Definition file_header (line : string) : bool :=
  has_prefix "--- " line || has_prefix "+++ " line || has_prefix "diff " line || has_prefix "index " line.

Definition unexpected {A} (line : string) : result A := Err (Plain ("unexpected " +:+ truncate line)).

Fixpoint skip_headers (lines : list string) : result (list string) :=
  match lines with
  | [] => Ok []
  | line :: rest =>
      if at_header line then Ok lines
      else if file_header line then skip_headers rest else unexpected line
  end.

Record counts := mkCounts { added : Z; removed : Z; oldSeen : Z; newSeen : Z }.

(** One line of a hunk body. *)
Definition count_line (line : string) (c : counts) : option counts :=
  if has_prefix "+" line then Some (mkCounts (added c + 1) (removed c) (oldSeen c) (newSeen c + 1))
  else if has_prefix "-" line then Some (mkCounts (added c) (removed c + 1) (oldSeen c + 1) (newSeen c))
  else if has_prefix " " line || bool_decide (line = "")
  then Some (mkCounts (added c) (removed c) (oldSeen c + 1) (newSeen c + 1))
  else if has_prefix "\" line then Some c
  else None.

(** The inner loop: up to the next header or the end. *)
Fixpoint hunk_body (lines : list string) (c : counts) : result (list string * counts) :=
  match lines with
  | [] => Ok ([], c)
  | line :: rest =>
      if at_header line then Ok (lines, c)
      else match count_line line c with
           | Some c => hunk_body rest c
           | None => unexpected line
           end
  end.

(** The outer loop; every iteration consumes a header line, so the number of
    lines is fuel enough. *)
Fixpoint count_hunks (fuel : nat) (lines : list string) (hunks total_added total_removed : Z)
    : result (Z * Z * Z) :=
  match lines, fuel with
  | [], _ => Ok (hunks, total_added, total_removed)
  | _, O => Err (Plain "out of fuel")
  | line :: rest, S fuel =>
      match hunkHeader line with
      | None => Err (Plain ("expected a hunk header, got " +:+ truncate line))
      | Some (old, new) =>
          '(rest, c) ← hunk_body rest (mkCounts total_added total_removed 0 0);
          if negb (oldSeen c =? hunkLength old) || negb (newSeen c =? hunkLength new)
          then Err (Plain "hunk: header and body disagree")
          else count_hunks fuel rest (hunks + 1) (added c) (removed c)
      end
  end.

Definition patch_lines (patch : string) : list string := split LF (trim_suffix LF patch).

Definition countUnifiedDiff (patch : string) : result (Z * Z) :=
  lines ← skip_headers (patch_lines patch);
  '(hunks, a, r) ← count_hunks (length lines) lines 0 0 0;
  if hunks =? 0 then Err (Plain "patch has no hunks") else Ok (a, r).

(** ** The grammar *)

Inductive edit := Add | Remove | Keep | NoNewline.
Definition classify (line : string) : option edit :=
  if at_header line then None
  else if has_prefix "+" line then Some Add
  else if has_prefix "-" line then Some Remove
  else if has_prefix " " line || bool_decide (line = "") then Some Keep
  else if has_prefix "\" line then Some NoNewline
  else None.

Definition total (f : edit → Z) (body : list string) : Z :=
  foldr (λ line n, match classify line with Some e => f e | None => 0 end + n) 0 body.
Definition adds : list string → Z := total (λ e, match e with Add => 1 | _ => 0 end).
Definition removes : list string → Z := total (λ e, match e with Remove => 1 | _ => 0 end).
Definition keeps : list string → Z := total (λ e, match e with Keep => 1 | _ => 0 end).

(** A hunk: its header line and its body. *)
Record hunk := mkHunk { header : string; body : list string }.
Definition hunk_lines (h : hunk) : list string := header h :: body h.

Definition hunk_ok (h : hunk) : Prop :=
  ∃ old new, hunkHeader (header h) = Some (old, new) ∧
    Forall (λ line, is_Some (classify line)) (body h) ∧
    removes (body h) + keeps (body h) = hunkLength old ∧
    adds (body h) + keeps (body h) = hunkLength new.

Definition sum_of (f : list string → Z) (hs : list hunk) : Z := foldr (λ h n, f (body h) + n) 0 hs.

(** A single-file unified diff with [a] added and [r] removed lines. *)
Definition unified_diff (lines : list string) (a r : Z) : Prop :=
  ∃ headers hs, lines = headers ++ concat (map hunk_lines hs) ∧
    Forall (λ line, file_header line = true) headers ∧ hs ≠ [] ∧ Forall hunk_ok hs ∧
    a = sum_of adds hs ∧ r = sum_of removes hs.

Lemma total_cons f line l : total f (line :: l) = match classify line with Some e => f e | None => 0 end + total f l.
Proof. done. Qed.

Lemma sum_of_cons f h hs : sum_of f (h :: hs) = f (body h) + sum_of f hs.
Proof. done. Qed.

Lemma at_header_ok line old new : hunkHeader line = Some (old, new) → at_header line = true.
Proof.
  unfold hunkHeader, drop_prefix, at_header. destruct (has_prefix "@@ -" line) eqn:E; [|done]. intros _.
  destruct line as [|a [|b line]]; cbn in *; [done|by rewrite andb_false_r in E|].
  apply andb_true_iff in E as [-> E]. apply andb_true_iff in E as [-> _]. done.
Qed.

Lemma file_header_not line : file_header line = true → at_header line = false.
Proof.
  unfold file_header, at_header. destruct line as [|a line]; [done|]. cbn.
  destruct (Ascii.eqb "@" a) eqn:E; [|done]. apply Ascii.eqb_eq in E as <-. done.
Qed.

Lemma count_line_classify line c : at_header line = false →
  count_line line c = (λ e, match e with
    | Add => mkCounts (added c + 1) (removed c) (oldSeen c) (newSeen c + 1)
    | Remove => mkCounts (added c) (removed c + 1) (oldSeen c + 1) (newSeen c)
    | Keep => mkCounts (added c) (removed c) (oldSeen c + 1) (newSeen c + 1)
    | NoNewline => c end) <$> classify line.
Proof. intros H. unfold count_line, classify. rewrite H. by repeat case_match. Qed.

(** The body loop stops exactly at the first header. *)
Lemma hunk_body_spec lines c rest c' :
  hunk_body lines c = Ok (rest, c') ↔
  ∃ l, lines = l ++ rest ∧ Forall (λ line, is_Some (classify line)) l ∧
    match rest with [] => True | line :: _ => at_header line = true end ∧
    c' = mkCounts (added c + adds l) (removed c + removes l)
           (oldSeen c + (removes l + keeps l)) (newSeen c + (adds l + keeps l)).
Proof.
  revert c. induction lines as [|line lines IH]; intros c; cbn [hunk_body].
  { split.
    - intros [= <- <-]. exists []. split_and!; [done..|]. destruct c. cbn. f_equal; lia.
    - intros (l & Hl & _ & _ & ->). symmetry in Hl. apply app_nil in Hl as [-> ->]. destruct c. cbn. do 3 f_equal; lia. }
  destruct (at_header line) eqn:Eh.
  { split.
    - intros [= <- <-]. exists []. split_and!; [done..|]. destruct c. cbn. f_equal; lia.
    - intros (l & Hl & Hf & _ & ->). destruct l as [|x l].
      + cbn in Hl. subst. destruct c. cbn. do 3 f_equal; lia.
      + injection Hl as <- _. apply Forall_cons in Hf as [[e He] _]. unfold classify in He. by rewrite Eh in He. }
  rewrite count_line_classify by done. destruct (classify line) as [e|] eqn:Ec; cbn [fmap option_fmap option_map].
  - rewrite IH. split.
    + intros (l & -> & Hf & Hr & ->). exists (line :: l). split_and!; [done|by constructor|done|].
      unfold adds, removes, keeps. rewrite !total_cons, Ec. destruct e; cbn; f_equal; lia.
    + intros (l & Hl & Hf & Hr & ->). destruct l as [|x l].
      * cbn in Hl. subst. by rewrite Eh in Hr.
      * injection Hl as <- ->. apply Forall_cons in Hf as [_ Hf]. exists l. split_and!; [done..|].
        unfold adds, removes, keeps. rewrite !total_cons, Ec. destruct e; cbn; f_equal; lia.
  - split; [done|]. intros (l & Hl & Hf & Hr & _). destruct l as [|x l].
    + cbn in Hl. subst. by rewrite Eh in Hr.
    + injection Hl as <- _. apply Forall_cons in Hf as [[e He] _]. congruence.
Qed.

Lemma count_hunks_spec fuel lines n a r n' a' r' :
  (length lines ≤ fuel)%nat →
  count_hunks fuel lines n a r = Ok (n', a', r') ↔
  ∃ hs, lines = concat (map hunk_lines hs) ∧ Forall hunk_ok hs ∧
    n' = n + Z.of_nat (length hs) ∧ a' = a + sum_of adds hs ∧ r' = r + sum_of removes hs.
Proof.
  revert lines n a r. induction fuel as [|fuel IH]; intros lines n a r Hlen.
  { destruct lines; [|cbn in Hlen; lia]. cbn. split.
    - intros [= <- <- <-]. exists []. cbn. by rewrite !Z.add_0_r.
    - intros ([|h hs] & Hl & _ & -> & -> & ->); [cbn; by rewrite !Z.add_0_r|done]. }
  destruct lines as [|line lines]; cbn [count_hunks].
  { split.
    - intros [= <- <- <-]. exists []. cbn. by rewrite !Z.add_0_r.
    - intros ([|h hs] & Hl & _ & -> & -> & ->); [cbn; by rewrite !Z.add_0_r|done]. }
  cbn in Hlen. split.
  - destruct (hunkHeader line) as [[old new]|] eqn:Eh; [|done].
    intros ([rest c] & Hb & H)%bind_ok. apply hunk_body_spec in Hb as (l & -> & Hf & Hr & ->).
    cbn in H. destruct (_ || _) eqn:E; [done|]. apply orb_false_iff in E as [E1 E2]. bool_prop.
    rewrite length_app in Hlen. apply IH in H as (hs & -> & Hhs & -> & -> & ->); [|lia].
    exists (mkHunk line l :: hs). rewrite !sum_of_cons. cbn [length body].
    split_and!; [done| |lia|lia|lia].
    constructor; [|done]. exists old, new. cbn [header body]. split_and!; [done|done|lia|lia].
  - intros ([|h hs] & Hl & Hhs & -> & -> & ->); [done|]. cbn in Hl. injection Hl as -> ->.
    apply Forall_cons in Hhs as [(old & new & Eh & Hf & E1 & E2) Hhs]. rewrite Eh.
    assert (hunk_body (body h ++ concat (map hunk_lines hs)) (mkCounts a r 0 0) =
      Ok (concat (map hunk_lines hs), mkCounts (a + adds (body h)) (r + removes (body h))
        (0 + (removes (body h) + keeps (body h))) (0 + (adds (body h) + keeps (body h))))) as ->.
    { apply hunk_body_spec. exists (body h). split_and!; [done|done| |done].
      destruct hs as [|h' hs]; [done|]. cbn. apply Forall_cons in Hhs as [(o' & n'' & Eh' & _) _].
      by eapply at_header_ok. }
    cbn [mbind result_bind oldSeen newSeen]. rewrite !Z.add_0_l, E1, E2, !Z.eqb_refl. cbn [negb orb added removed].
    apply IH; [rewrite length_app in Hlen; lia|]. rewrite !sum_of_cons. cbn [length].
    exists hs. split_and!; [done|done|lia|lia|lia].
Qed.

Lemma skip_headers_spec lines rest :
  skip_headers lines = Ok rest ↔
  ∃ hd, lines = hd ++ rest ∧ Forall (λ line, file_header line = true) hd ∧
    match rest with [] => True | line :: _ => at_header line = true end.
Proof.
  induction lines as [|line lines IH]; cbn [skip_headers].
  { split; [intros [= <-]; by exists []|]. intros (hd & Hl & _). symmetry in Hl. by apply app_nil in Hl as [-> ->]. }
  destruct (at_header line) eqn:Eh.
  { split; [intros [= <-]; by exists []|]. intros ([|x hd] & Hl & Hf & _); [cbn in Hl; by subst|].
    injection Hl as <- _. apply Forall_cons in Hf as [Hx _]. apply file_header_not in Hx. congruence. }
  destruct (file_header line) eqn:Ef.
  - rewrite IH. split.
    + intros (hd & -> & Hf & Hr). exists (line :: hd). split_and!; [done|by constructor|done].
    + intros ([|x hd] & Hl & Hf & Hr).
      * cbn in Hl. subst. congruence.
      * injection Hl as <- ->. apply Forall_cons in Hf as [_ Hf]. by exists hd.
  - split; [done|]. intros ([|x hd] & Hl & Hf & Hr).
    + cbn in Hl. subst. congruence.
    + injection Hl as <- _. apply Forall_cons in Hf as [Hx _]. congruence.
Qed.

(** C17: [countUnifiedDiff] terminates and accepts exactly the single-file
    unified diffs - file headers, then at least one hunk, each with a body of
    added, removed, kept and no-newline lines that matches the two line counts
    of its header - and returns their numbers of added and removed lines; the
    counts never go negative and are bounded by the lines of the patch. *)
Theorem countUnifiedDiff_exact patch a r :
  (countUnifiedDiff patch = Ok (a, r) ↔ unified_diff (patch_lines patch) a r) ∧
  (unified_diff (patch_lines patch) a r → 0 ≤ a ∧ 0 ≤ r ∧ a + r ≤ Z.of_nat (length (patch_lines patch))).
Proof.
  assert (∀ f l, (∀ e, 0 ≤ f e) → 0 ≤ total f l) as Hpos.
  { intros f l Hf. induction l as [|x l IH]; [done|]. rewrite total_cons.
    destruct (classify x) as [e|]; [pose proof (Hf e)|]; lia. }
  assert (∀ l, 0 ≤ adds l ∧ 0 ≤ removes l ∧ adds l + removes l ≤ Z.of_nat (length l)) as Hl.
  { intros l. split_and!; [apply Hpos; by intros []|apply Hpos; by intros []|].
    unfold adds, removes. induction l as [|x l IH]; [done|]. rewrite !total_cons. cbn [length].
    destruct (classify x) as [[]|]; lia. }
  split; [split|].
  - unfold countUnifiedDiff. intros (lines & Hs & H)%bind_ok. apply bind_ok in H as ([[n a'] r'] & Hc & H).
    destruct (n =? 0) eqn:En; [done|]. injection H as <- <-. bool_prop.
    apply count_hunks_spec in Hc as (hs & -> & Hhs & -> & -> & ->); [|done].
    apply skip_headers_spec in Hs as (hd & -> & Hf & _). exists hd, hs. split_and!; try done.
    intros ->. done.
  - intros (hd & hs & Hlines & Hf & Hne & Hhs & -> & ->). unfold countUnifiedDiff.
    assert (skip_headers (patch_lines patch) = Ok (concat (map hunk_lines hs))) as ->.
    { apply skip_headers_spec. exists hd. split_and!; [done..|]. destruct hs as [|h hs]; [done|]. cbn.
      apply Forall_cons in Hhs as [(o & n & Eh & _) _]. by eapply at_header_ok. }
    cbn. assert (count_hunks (length (concat (map hunk_lines hs))) (concat (map hunk_lines hs)) 0 0 0 =
      Ok (0 + Z.of_nat (length hs), 0 + sum_of adds hs, 0 + sum_of removes hs)) as ->.
    { apply count_hunks_spec; [done|]. by exists hs. }
    cbn. destruct hs; [done|]. done.
  - intros (hd & hs & -> & _ & _ & _ & -> & ->). rewrite length_app. clear -Hl.
    induction hs as [|h hs IH]; [cbn; lia|]. rewrite !sum_of_cons. pose proof (Hl (body h)).
    cbn [map concat hunk_lines app length]. rewrite length_app. lia.
Qed.

Example count_example :
  countUnifiedDiff ("--- a/main.py" +:+ String LF ("+++ b/main.py" +:+ String LF ("@@ -1,2 +1,3 @@" +:+ String LF
    (" x = 1" +:+ String LF ("-y = 2" +:+ String LF ("+y = 3" +:+ String LF ("+z = 4" +:+ String LF ""))))))) = Ok (2, 1).
Proof. by vm_compute. Qed.
