(* ===== verification/Sse.v ===== *)
(** * Server-Sent Events (internal/sse)

    What the writer puts on the wire and how the reader parses it, byte by
    byte: [bufio.Scanner] lines with their limit, fields, comments and the end
    of the stream. *)
From S2P Require Import Prelude Str.

Record Event := mkEvent { ID : string; Name : string; Data : string }.
#[export] Instance Event_eq_dec : EqDecision Event.
Proof. solve_decision. Defined.

Definition line (s : string) : string := s +:+ String LF "".

(** ** Writer: the bytes of one call *)
Definition SendRaw (name data : string) : result string :=
  if contains_any [CR; LF] name then Err (Plain "sse: event name contains a newline")
  else Ok (line ("event: " +:+ name) +:+ line ("data: " +:+ data) +:+ line "").

Definition SendWithID (id name data : string) : result string :=
  if contains_any [CR; LF] id then Err (Plain "sse: event id contains a newline")
  else if contains_any [CR; LF] name then Err (Plain "sse: event name contains a newline")
  else Ok (line ("id: " +:+ id) +:+ line ("event: " +:+ name) +:+ line ("data: " +:+ data) +:+ line "").

Definition Comment (text : string) : result string :=
  if contains_any [CR; LF] text then Err (Plain "sse: comment contains a newline")
  else Ok (line (": " +:+ text) +:+ line "").

(** ** Reader *)
Definition io_EOF : error := Sentinel "io.EOF".
Definition io_ErrUnexpectedEOF : error := Sentinel "io.ErrUnexpectedEOF".
Definition bufio_ErrTooLong : error := Sentinel "bufio.ErrTooLong".

Definition max_line : Z := Z.shiftl 4 20.

(** [bufio.ScanLines]: lines without their LF and one CR before it; a last
    line without LF is a line unless it is empty. *)
Definition drop_cr (s : string) : string := trim_suffix CR s.
Definition raw_lines (s : string) : list string :=
  let l := split LF s in
  if bool_decide (List.last l ""%string = ""%string) then removelast l else l.

(** [strings.TrimPrefix(value, " ")]. *)
Definition trim_space (s : string) : string :=
  match s with String a s' => if Ascii.eqb a " " then s' else s | EmptyString => s end.

(** The event being assembled. *)
Record pending := mkPending { p_id : string; p_name : string; p_data : list string; seen : bool }.
Definition fresh : pending := mkPending "" "" [] false.

Definition complete (p : pending) : Event :=
  mkEvent (p_id p) (if bool_decide (p_name p = ""%string) then "message" else p_name p) (join LF (p_data p)).

(** One non-blank line. *)
Definition scan_field (l : string) (p : pending) : pending :=
  if has_prefix ":" l then p
  else
    let '(field, value, _) := cut ":" l in
    let value := trim_space value in
    if bool_decide (field = "event"%string) then mkPending (p_id p) value (p_data p) true
    else if bool_decide (field = "data"%string) then mkPending (p_id p) (p_name p) (p_data p ++ [value]) true
    else if bool_decide (field = "id"%string) then mkPending value (p_name p) (p_data p) true
    else p.

(** [Next] on the unread lines. *)
Fixpoint scan (lines : list string) (p : pending) : result Event * list string :=
  match lines with
  | [] => (Err (if seen p then io_ErrUnexpectedEOF else io_EOF), [])
  | l :: lines =>
      if max_line <=? len l then (Err bufio_ErrTooLong, [])
      else
        let l := drop_cr l in
        if bool_decide (l = ""%string) then
          if seen p then (Ok (complete p), lines) else scan lines p
        else scan lines (scan_field l p)
  end.
Definition Next (lines : list string) : result Event * list string := scan lines fresh.

(** Reading until [Next] fails: the events and the error; each event takes a
    line, so the number of lines is fuel enough. *)
Fixpoint read_loop (fuel : nat) (lines : list string) : list Event * option error :=
  match fuel with
  | O => ([], None)
  | S fuel =>
      match Next lines with
      | (Err e, _) => ([], Some e)
      | (Ok ev, rest) => let '(evs, e) := read_loop fuel rest in (ev :: evs, e)
      end
  end.
Definition read_all (s : string) : list Event * option error :=
  read_loop (S (length (raw_lines s))) (raw_lines s).

(** ** What a client can send *)
Inductive sent :=
  | Raw (name data : string)
  | WithID (id name data : string)
  | Commented (text : string).

Definition bytes_of (x : sent) : result string :=
  match x with
  | Raw name data => SendRaw name data
  | WithID id name data => SendWithID id name data
  | Commented text => Comment text
  end.

Definition one_line (s : string) : Prop := contains_char LF s = false ∧ contains_char CR s = false.

(** Named events whose data is one line (JSON is) and fits the reader. *)
Definition sendable (x : sent) : Prop :=
  match x with
  | Raw name data => name ≠ ""%string ∧ one_line name ∧ one_line data ∧
      len name + 7 < max_line ∧ len data + 6 < max_line
  | WithID id name data => name ≠ ""%string ∧ one_line id ∧ one_line name ∧ one_line data ∧
      len id + 4 < max_line ∧ len name + 7 < max_line ∧ len data + 6 < max_line
  | Commented text => one_line text ∧ len text + 2 < max_line
  end.

Definition event_of (x : sent) : list Event :=
  match x with
  | Raw name data => [mkEvent "" name data]
  | WithID id name data => [mkEvent id name data]
  | Commented _ => []
  end.

Definition wire (xs : list sent) : string :=
  concat_bytes (map (λ x, match bytes_of x with Ok b => b | Err _ => ""%string end) xs).

(** The lines of the wire. *)
Definition lines_of (x : sent) : list string :=
  match x with
  | Raw name data => ["event: " +:+ name; "data: " +:+ data; ""]%string
  | WithID id name data => ["id: " +:+ id; "event: " +:+ name; "data: " +:+ data; ""]%string
  | Commented text => [": " +:+ text; ""]%string
  end.

Lemma contains_any_nl s : contains_any [CR; LF] s = contains_char CR s || contains_char LF s.
Proof.
  induction s as [|a s IH]; cbn; [done|]. rewrite IH.
  by destruct (Ascii.eqb a CR), (Ascii.eqb a LF), (contains_char CR s), (contains_char LF s).
Qed.


Lemma split_line s rest : contains_char LF s = false → split LF (line s +:+ rest) = s :: split LF rest.
Proof. intros H. unfold line. rewrite <-append_assoc. cbn [String.append]. by apply split_app_sep. Qed.

Lemma bytes_sendable x : sendable x →
  bytes_of x = Ok (concat_bytes (map line (lines_of x))) ∧
  Forall (λ l, contains_char LF l = false ∧ contains_char CR l = false ∧ len l < max_line) (lines_of x).
Proof.
  assert (∀ s, one_line s → contains_any [CR; LF] s = false) as Ho.
  { intros s [H1 H2]. by rewrite contains_any_nl, H1, H2. }
  assert (∀ p s, one_line s → contains_char LF p = false → contains_char CR p = false → len p + len s < max_line →
    contains_char LF (p +:+ s) = false ∧ contains_char CR (p +:+ s) = false ∧ len (p +:+ s) < max_line) as Hl.
  { intros p s [H1 H2] H3 H4 H5. by rewrite !contains_char_app, H1, H2, H3, H4, len_app. }
  assert (contains_char LF "" = false ∧ contains_char CR "" = false ∧ len "" < max_line) as He by done.
  destruct x as [name data|id name data|text]; cbn [sendable bytes_of lines_of map concat_bytes foldr].
  - intros (_ & Hn & Hd & Ln & Ld). unfold SendRaw. rewrite (Ho name) by done. rewrite append_nil_r. split; [done|].
    repeat constructor; try (apply Hl; [done..|cbn -[Z.add len max_line]; change (len "event: ") with 7; change (len "data: ") with 6; lia]); done.
  - intros (_ & Hi & Hn & Hd & Li & Ln & Ld). unfold SendWithID. rewrite (Ho id), (Ho name) by done.
    rewrite append_nil_r. split; [done|].
    repeat constructor; try (apply Hl; [done..|change (len "event: ") with 7; change (len "data: ") with 6; change (len "id: ") with 4; lia]); done.
  - intros (Ht & Lt). unfold Comment. rewrite (Ho text) by done. rewrite append_nil_r. split; [done|].
    repeat constructor; try (apply Hl; [done..|change (len ": ") with 2; lia]); done.
Qed.

Lemma split_lines ls rest : Forall (λ l, contains_char LF l = false) ls →
  split LF (concat_bytes (map line ls) +:+ rest) = ls ++ split LF rest.
Proof.
  induction 1 as [|l ls Hl _ IH]; [done|]. cbn [map concat_bytes foldr].
  rewrite <-append_assoc, split_line by done. cbn. by rewrite <-IH.
Qed.

Definition all_lines (xs : list sent) : list string := concat (map lines_of xs).

Lemma wire_lines xs : Forall sendable xs →
  split LF (wire xs) = all_lines xs ++ [""%string] ∧
  Forall (λ l, contains_char LF l = false ∧ contains_char CR l = false ∧ len l < max_line) (all_lines xs).
Proof.
  induction 1 as [|x xs Hx _ [IH1 IH2]]; [done|]. destruct (bytes_sendable x Hx) as [Hb Hf].
  change (wire (x :: xs)) with (match bytes_of x with Ok b => b | Err _ => ""%string end +:+ wire xs).
  rewrite Hb, split_lines.
  - unfold all_lines in *. cbn [map concat]. rewrite IH1, <-app_assoc. split; [done|]. by apply Forall_app.
  - eapply Forall_impl; [exact Hf|]. cbn. naive_solver.
Qed.

(** The scanner as a fold over lines: completed events and what is pending. *)
Fixpoint feed (p : pending) (ls : list string) : list Event * pending :=
  match ls with
  | [] => ([], p)
  | l :: ls =>
      if bool_decide (drop_cr l = ""%string) then
        if seen p then let '(es, q) := feed fresh ls in (complete p :: es, q) else feed p ls
      else feed (scan_field (drop_cr l) p) ls
  end.

Lemma feed_app p a b :
  feed p (a ++ b) = ((feed p a).1 ++ (feed (feed p a).2 b).1, (feed (feed p a).2 b).2).
Proof.
  revert p. induction a as [|l a IH]; intros p; cbn [feed app]; [cbn; by destruct (feed p b)|].
  case_bool_decide; [|by rewrite IH]. destruct (seen p); [|by rewrite IH].
  rewrite IH. destruct (feed fresh a) as [ea qa]. cbn. by destruct (feed qa b).
Qed.

Definition short (ls : list string) : Prop := Forall (λ l, len l < max_line) ls.
Definition end_error (p : pending) : error := if seen p then io_ErrUnexpectedEOF else io_EOF.

Lemma scan_feed ls p : short ls →
  match scan ls p with
  | (Ok ev, rest) => (length rest < length ls)%nat ∧ short rest ∧
      feed p ls = (ev :: (feed fresh rest).1, (feed fresh rest).2)
  | (Err e, _) => (feed p ls).1 = [] ∧ e = end_error (feed p ls).2
  end.
Proof.
  intros Hs. revert p. induction Hs as [|l ls Hl Hs IH]; intros p; cbn [scan feed]; [done|].
  rewrite (proj2 (Z.leb_gt _ _)) by done. case_bool_decide.
  - destruct (seen p) eqn:E.
    + split; [cbn; lia|]. split; [done|]. by destruct (feed fresh ls).
    + specialize (IH p). destruct (scan ls p) as [[ev|e] rest]; [|done]. destruct IH as (? & ? & ?).
      split_and!; [cbn; lia|done..].
  - specialize (IH (scan_field (drop_cr l) p)). destruct (scan ls _) as [[ev|e] rest]; [|done].
    destruct IH as (? & ? & ?). split_and!; [cbn; lia|done..].
Qed.

Lemma read_loop_feed fuel ls : (length ls < fuel)%nat → short ls →
  read_loop fuel ls = ((feed fresh ls).1, Some (end_error (feed fresh ls).2)).
Proof.
  revert ls. induction fuel as [|fuel IH]; intros ls Hf Hs; [lia|]. cbn [read_loop]. unfold Next.
  pose proof (scan_feed ls fresh Hs) as H. destruct (scan ls fresh) as [[ev|e] rest].
  - destruct H as (Hl & Hr & ->). rewrite IH; [done|lia|done].
  - destruct H as [-> ->]. done.
Qed.

Lemma trim_suffix_free c s : contains_char c s = false → trim_suffix c s = s.
Proof.
  induction s as [|a s IH]; [done|]. cbn [contains_char]. intros [E H]%orb_false_iff.
  destruct s as [|b s]; [cbn; by rewrite E|].
  change (String a (trim_suffix c (String b s)) = String a (String b s)). by rewrite IH.
Qed.

Lemma feed_line p l ls : drop_cr l = l → l ≠ ""%string → feed p (l :: ls) = feed (scan_field l p) ls.
Proof. intros E Hl. cbn [feed]. rewrite E. by rewrite bool_decide_eq_false_2. Qed.
Lemma feed_blank p ls : seen p = true →
  feed p (""%string :: ls) = (complete p :: (feed fresh ls).1, (feed fresh ls).2).
Proof. intros E. cbn [feed drop_cr trim_suffix]. rewrite bool_decide_eq_true_2, E by done. by destruct (feed fresh ls). Qed.
Lemma complete_named id name data : name ≠ ""%string →
  complete (mkPending id name [data] true) = mkEvent id name data.
Proof. intros Hn. unfold complete. cbn [p_id p_name p_data]. by rewrite bool_decide_eq_false_2. Qed.

Lemma feed_sent x : sendable x → feed fresh (lines_of x) = (event_of x, fresh).
Proof.
  intros Hx. destruct (bytes_sendable x Hx) as [_ Hf].
  assert (Forall (λ l, drop_cr l = l) (lines_of x)) as Hcr.
  { eapply Forall_impl; [exact Hf|]. cbn. intros l (_ & Hl & _). by apply trim_suffix_free. }
  clear Hf. destruct x as [name data|id name data|text]; cbn [lines_of event_of] in *; rewrite !Forall_cons in Hcr.
  - destruct Hx as (Hn & _). destruct Hcr as (E1 & E2 & _).
    rewrite (feed_line _ _ _ E1), (feed_line _ _ _ E2), feed_blank by done. cbn [feed fst snd].
    do 2 f_equal. by apply (complete_named "").
  - destruct Hx as (Hn & _). destruct Hcr as (E1 & E2 & E3 & _).
    rewrite (feed_line _ _ _ E1), (feed_line _ _ _ E2), (feed_line _ _ _ E3), feed_blank by done. cbn [feed fst snd].
    do 2 f_equal. by apply (complete_named id).
  - destruct Hcr as (E1 & _). by rewrite (feed_line _ _ _ E1).
Qed.

Lemma feed_all xs : Forall sendable xs → feed fresh (all_lines xs) = (concat (map event_of xs), fresh).
Proof.
  unfold all_lines. induction 1 as [|x xs Hx _ IH]; [done|]. cbn [map concat].
  rewrite feed_app, feed_sent by done. cbn. by rewrite IH.
Qed.

Lemma split_cat c s t : ∃ ls l h tl, split c s = ls ++ [l] ∧ split c t = h :: tl ∧
  split c (s +:+ t) = ls ++ (l +:+ h) :: tl.
Proof.
  pose proof (split_not_nil c t) as Ht. destruct (split c t) as [|h tl] eqn:Et; [done|].
  induction s as [|a s (ls & l & h' & tl' & E1 & E2 & E3)]; cbn [split String.append].
  { exists [], ""%string, h, tl. split_and!; [done..|]. by rewrite Et. }
  injection E2 as <- <-. rewrite E1, E3. destruct (Ascii.eqb a c).
  - by exists (""%string :: ls), l, h, tl.
  - destruct ls as [|l0 ls]; cbn; [by exists [], (String a l), h, tl|].
    by exists (String a l0 :: ls), l, h, tl.
Qed.

Lemma contains_char_prefix c s t : contains_char c (s +:+ t) = false → contains_char c s = false.
Proof. rewrite contains_char_app. by intros [? _]%orb_false_iff. Qed.

Lemma read_sent xs : Forall sendable xs → read_all (wire xs) = (concat (map event_of xs), Some io_EOF).
Proof.
  intros Hx. destruct (wire_lines xs Hx) as [Hw Hf].
  assert (short (all_lines xs)) as Hs by (eapply Forall_impl; [exact Hf|]; cbn; naive_solver).
  unfold read_all, raw_lines. rewrite Hw, last_last, removelast_last, bool_decide_eq_true_2 by done.
  rewrite read_loop_feed, feed_all by (done || lia). done.
Qed.

(** A stream cut off at any byte. *)
Lemma read_cut xs s t : Forall sendable xs → wire xs = s +:+ t →
  ∃ es e, read_all s = (es, Some e) ∧ es `prefix_of` concat (map event_of xs) ∧ e ∈ [io_EOF; io_ErrUnexpectedEOF].
Proof.
  intros Hx. destruct (wire_lines xs Hx) as [Hw Hf].
  assert (short (all_lines xs)) as Hs by (eapply Forall_impl; [exact Hf|]; cbn; naive_solver).
  intros Hst. destruct (split_cat LF s t) as (ls & l & h & tl & E1 & E2 & E3).
  rewrite <-Hst, Hw in E3.
  assert (∃ rest, all_lines xs = ls ++ rest ∧ (l ≠ ""%string → ∃ l' rest', rest = (l +:+ l') :: rest')) as (rest & Er & Hl).
  { destruct tl as [|x tl _] using rev_ind.
    - apply app_inj_tail in E3 as [-> E3]. exists []. rewrite app_nil_r. split; [done|].
      intros Hl. by destruct l.
    - change (ls ++ (l +:+ h)%string :: tl ++ [x]) with (ls ++ ((l +:+ h)%string :: tl) ++ [x]) in E3.
      rewrite app_assoc in E3. apply app_inj_tail in E3 as [-> _]. eauto. }
  assert (e : feed fresh (all_lines xs) = (concat (map event_of xs), fresh)) by by apply feed_all.
  rewrite Er, feed_app in e. injection e as Ee _.
  rewrite Er in Hs, Hf. apply Forall_app in Hs as [Hs1 Hs2], Hf as [Hf1 Hf2].
  unfold read_all, raw_lines. rewrite E1, last_last, removelast_last. case_bool_decide as El.
  + rewrite read_loop_feed by (done || lia). eexists _, _. split; [done|]. rewrite <-Ee.
    split; [by apply prefix_app_r|]. unfold end_error. destruct (seen _); set_solver.
  + destruct (Hl El) as (l' & rest' & ->). apply Forall_cons in Hf2 as [(_ & Hcr & Hlen) _].
    rewrite read_loop_feed; [|lia|].
    * eexists _, _. split; [done|]. rewrite feed_app. cbn [fst snd feed].
      assert (drop_cr l = l) as -> by (apply trim_suffix_free; by eapply contains_char_prefix).
      rewrite bool_decide_eq_false_2 by done. cbn [fst snd]. rewrite app_nil_r, <-Ee.
      split; [by apply prefix_app_r|]. unfold end_error. destruct (seen _); set_solver.
    * apply Forall_app. split; [done|]. constructor; [|done]. rewrite len_app in Hlen. unfold len in *. lia.
Qed.

(** C29: Whatever a server sends - named events with or without ids, carrying
    one-line data, between comments - a client reads back exactly, in order,
    and then the clean end of the stream.  A stream cut off at any byte yields
    a prefix of the events, never a mangled one, and ends with the end of file
    or the unexpected end of file. *)
Theorem sse_roundtrip xs : Forall sendable xs →
  read_all (wire xs) = (concat (map event_of xs), Some io_EOF) ∧
  ∀ s t, wire xs = s +:+ t → ∃ es e, read_all s = (es, Some e) ∧
    es `prefix_of` concat (map event_of xs) ∧ e ∈ [io_EOF; io_ErrUnexpectedEOF].
Proof.
  intros Hx. split; [by apply read_sent|]. intros s t Hst. by eapply read_cut.
Qed.

Definition example_sent : list sent :=
  [Commented "keep-alive"; WithID "7" "delta" "{}"; Raw "done" "{}"].
Lemma sse_roundtrip_witness :
  Forall sendable example_sent ∧
  read_all (wire example_sent) = ([mkEvent "7" "delta" "{}"; mkEvent "" "done" "{}"], Some io_EOF).
Proof.
  assert (Forall sendable example_sent) as H.
  { unfold example_sent. repeat constructor; vm_compute; congruence. }
  split; [exact H|]. exact (proj1 (sse_roundtrip _ H)).
Defined.
