(* ===== verification/Gateway.v ===== *)
(** * The AI Gateway (internal/aigateway: gateway.go, provider.go, anthropic.go,
      emitter.go, http.go)

    Validation of a completion request, the Claude adapter over the events of
    its SDK stream, the completion itself - key resolution, streaming, the
    wiping of the key, the outcome and the event that records it - and the
    HTTP endpoint. *)
From S2P Require Import Prelude Str GoTime Json Codec Events Tx Outbox.

(** ** Requests *)
Record Message := mkMessage { Role : string; Content : string }.
Definition RoleUser : string := "user".
Definition RoleAssistant : string := "assistant".

Definition ModeManaged : string := "managed".
Definition ModeBYOK : string := "byok".
Definition defaultMaxTokens : Z := 16000.
Definition maxMaxTokens : Z := 64000.
Definition DefaultModel : string := "claude-opus-5".

Record CompleteRequest := mkCompleteRequest {
  CompanyID : string;
  InterviewID : string;
  SessionID : string;
  PromptID : string;
  Request_SequenceNumber : Z;
  Mode : string;
  Model : string;
  System : string;
  Messages : list Message;
  MaxTokens : Z;
}.

Definition is_role (r : string) : bool := bool_decide (r = RoleUser) || bool_decide (r = RoleAssistant).

Fixpoint check_messages (ms : list Message) : result () :=
  match ms with
  | [] => Ok ()
  | m :: ms =>
      if negb (is_role (Role m)) then Err (Plain "role must be user or assistant")
      else if blank (Content m) then Err (Plain "content must not be empty")
      else check_messages ms
  end.

Section Requests.
Context `{uuids : UuidLib}.

Definition is_uuid (s : string) : bool := bool_decide (is_Some (uuid_Parse s)).

(** [Validate] mutates the request it is called on; here it returns it. *)
Definition Validate (r : CompleteRequest) : result CompleteRequest :=
  if negb (is_uuid (CompanyID r) && is_uuid (InterviewID r) && is_uuid (SessionID r) && is_uuid (PromptID r))
  then Err (Plain "must be a UUID")
  else if Request_SequenceNumber r <? 1 then Err (Plain "sequence_number must be positive")
  else
    let mode := if bool_decide (Mode r = ""%string) then ModeManaged else Mode r in
    if negb (bool_decide (mode = ModeManaged)) && negb (bool_decide (mode = ModeBYOK))
    then Err (Plain "mode must be managed or byok")
    else if bool_decide (Messages r = []) then Err (Plain "messages must not be empty")
    else
      _ ← check_messages (Messages r);
      if negb (bool_decide (Role <$> last (Messages r) = Some RoleUser))
      then Err (Plain "the last message must be from the user")
      else
        let max := if MaxTokens r =? 0 then defaultMaxTokens else MaxTokens r in
        if (max <? 1) || (maxMaxTokens <? max) then Err (Plain "max_tokens out of range")
        else
          let model := if bool_decide (Model r = ""%string) then DefaultModel else Model r in
          Ok (mkCompleteRequest (CompanyID r) (InterviewID r) (SessionID r) (PromptID r)
                (Request_SequenceNumber r) mode model (System r) (Messages r) max).

(** What the rest of the gateway may rely on. *)
Definition request_ok (r : CompleteRequest) : Prop :=
  (∃ c i s p, uuid_Parse (CompanyID r) = Some c ∧ uuid_Parse (InterviewID r) = Some i ∧
     uuid_Parse (SessionID r) = Some s ∧ uuid_Parse (PromptID r) = Some p) ∧
  1 ≤ Request_SequenceNumber r ∧ Mode r ∈ [ModeManaged; ModeBYOK] ∧
  Forall (λ m, Role m ∈ [RoleUser; RoleAssistant] ∧ blank (Content m) = false) (Messages r) ∧
  Role <$> last (Messages r) = Some RoleUser ∧
  1 ≤ MaxTokens r ≤ 64000 ∧ Model r ≠ ""%string.

Lemma check_messages_ok ms u : check_messages ms = Ok u →
  Forall (λ m, Role m ∈ [RoleUser; RoleAssistant] ∧ blank (Content m) = false) ms.
Proof.
  induction ms as [|m ms IH]; cbn; [done|]. destruct (is_role (Role m)) eqn:Er; [|done].
  cbn. destruct (blank (Content m)) eqn:Eb; [done|]. intros H. constructor; [|by apply IH].
  split; [|done]. unfold is_role in Er. apply orb_true_iff in Er as [Er|Er]; bool_prop; rewrite Er; set_solver.
Qed.

Lemma check_messages_complete ms :
  Forall (λ m, Role m ∈ [RoleUser; RoleAssistant] ∧ blank (Content m) = false) ms → check_messages ms = Ok ().
Proof.
  induction 1 as [|m ms [Hr Hb] _ IH]; [done|]. cbn. rewrite Hb, IH.
  assert (is_role (Role m) = true) as ->; [|done].
  unfold is_role. apply elem_of_cons in Hr as [->|Hr]; [done|]. by apply list_elem_of_singleton in Hr as ->.
Qed.

Lemma Validate_ok r r' : Validate r = Ok r' → request_ok r'.
Proof.
  unfold Validate, request_ok. intros H. case_match eqn:Eu; [done|]. apply negb_false_iff in Eu.
  case_match eqn:Es; [done|]. case_match eqn:Em; [done|]. case_bool_decide as Ene; [done|].
  apply bind_ok in H as (u & Hc & H). apply check_messages_ok in Hc.
  case_match eqn:El; [done|]. case_match eqn:Emax; [done|]. injection H as <-. cbn.
  apply orb_false_iff in Emax as [??]. bool_prop. unfold is_uuid in *. bool_prop. unfold maxMaxTokens in *.
  split_and!; [|done| |done|done|lia|lia|by destruct (bool_decide_reflect (Model r = ""%string))].
  - repeat match goal with H : is_Some _ |- _ => destruct H as [? ?] end. eauto 10.
  - apply andb_false_iff in Em as [Em|Em]; bool_prop; rewrite Em; set_solver.
Qed.

(** A request that passes [Validate] has four UUIDs, a positive sequence
    number, a known mode, a model, a token limit within bounds and a
    conversation of known roles and non-blank turns that ends with the user;
    validating it again changes nothing, and every request of that shape
    passes. *)
Theorem Validate_exact r r' :
  (Validate r = Ok r' → request_ok r' ∧ Messages r' = Messages r ∧ PromptID r' = PromptID r ∧
     Request_SequenceNumber r' = Request_SequenceNumber r ∧ Validate r' = Ok r') ∧
  (request_ok r → Validate r = Ok r).
Proof.
  assert (∀ r, request_ok r → Validate r = Ok r) as Hc.
  { clear. intros r ((c & i & s & p & E1 & E2 & E3 & E4) & Hs & Hm & Hms & Hl & Ht & Hmod). unfold Validate, is_uuid.
    rewrite E1, E2, E3, E4, !bool_decide_eq_true_2 by done. cbn [andb negb].
    rewrite (proj2 (Z.ltb_ge _ _)) by lia.
    assert (Messages r ≠ []) as Hne by (intros E; by rewrite E in Hl).
    assert ((if bool_decide (Mode r = ""%string) then ModeManaged else Mode r) = Mode r) as ->.
    { case_bool_decide as E; [|done]. rewrite E in Hm. set_solver. }
    assert (negb (bool_decide (Mode r = ModeManaged)) && negb (bool_decide (Mode r = ModeBYOK)) = false) as ->.
    { apply elem_of_cons in Hm as [->|Hm]; [done|]. by apply list_elem_of_singleton in Hm as ->. }
    rewrite bool_decide_eq_false_2, check_messages_complete by done. cbn. rewrite Hl, bool_decide_eq_true_2 by done.
    cbn. replace (MaxTokens r =? 0) with false by (symmetry; apply Z.eqb_neq; lia).
    unfold maxMaxTokens. rewrite !(proj2 (Z.ltb_ge _ _)) by lia. cbn. rewrite bool_decide_eq_false_2 by done.
    by destruct r. }
  split; [|apply Hc]. intros H. pose proof (Validate_ok _ _ H) as Hok. split; [done|].
  split_and!; [| | |by apply Hc]; unfold Validate in H; repeat (case_match; [done|]);
    apply bind_ok in H as (u & _ & H); repeat (case_match; [done|]); by injection H as <-.
Qed.
End Requests.

(** ** Providers *)
Record Usage := mkUsage { InputTokens : Z; OutputTokens : Z }.
Definition FinishReason := string.
Definition FinishStop : FinishReason := "stop".
Definition FinishLength : FinishReason := "length".
Definition FinishRefusal : FinishReason := "refusal".

(** A key in memory is named by the address of its bytes. *)
Definition key_ref := N.

Record ProviderRequest := mkProviderRequest {
  Provider_Model : string;
  Provider_System : string;
  Provider_Messages : list Message;
  Provider_MaxTokens : Z;
  APIKey : option key_ref;
}.

Record ProviderResult := mkProviderResult {
  Result_Model : string;
  Result_FinishReason : FinishReason;
  Result_StopReason : string;
  Result_Usage : Usage;
}.
Definition no_result : ProviderResult := mkProviderResult "" "" "" (mkUsage 0 0).

(** [*ProviderError]: a code and the underlying error. *)
Definition ProviderError (code : string) (e : error) : error := Typed "aigateway.ProviderError" code e.

Definition errorCode (e : error) : string :=
  match errors_as "aigateway.ProviderError" e with
  | Some code => if bool_decide (code = ""%string) then "provider_error" else code
  | None => "provider_error"
  end.

Definition errClientGone : error := Sentinel "aigateway.errClientGone".

(** *** The Claude adapter (anthropic.go)

    The SDK delivers a stream of events and then an error or none; both are
    inputs here.  An API error carries its HTTP status. *)
Inductive sdk_event :=
  | MessageStart (model : string) (input_tokens : Z)
  | TextDelta (text : string)
  | MessageDelta (stop_reason : string) (input_tokens output_tokens : Z)
  | OtherEvent.
Inductive sdk_error :=
  | APIError (status : Z)
  | OtherError (e : error).

Definition finishReason (stop : string) : FinishReason :=
  if bool_decide (stop = "max_tokens"%string) || bool_decide (stop = "model_context_window_exceeded"%string)
  then FinishLength
  else if bool_decide (stop = "refusal"%string) then FinishRefusal
  else FinishStop.

Definition classifyAnthropicError (ctx_error : option error) (e : sdk_error) : error :=
  match ctx_error with
  | Some e => e
  | None =>
      match e with
      | APIError status =>
          let code :=
            if (status =? 401) || (status =? 403) then "provider_auth"
            else if status =? 429 then "provider_rate_limited"
            else if (status =? 400) || (status =? 404) then "provider_invalid_request"
            else if 500 <=? status then "provider_unavailable"
            else "provider_error" in
          ProviderError code (Plain ("status " +:+ render_int status))
      | OtherError e => ProviderError "provider_unavailable" e
      end
  end.

Section Stream.
Context {S : Type}.

(** Relaying the events: the deltas handed to [onDelta] so far, the result so
    far, and the error [onDelta] returned, which stops the loop. *)
Fixpoint relay_events (events : list sdk_event) (onDelta : string → M S ()) (delivered : list string)
    (result : ProviderResult) (fs : script) (s : S)
    : (list string * ProviderResult * option error) * script * S :=
  match events with
  | [] => ((delivered, result, None), fs, s)
  | MessageStart model input :: events =>
      let result := mkProviderResult (if bool_decide (model = ""%string) then Result_Model result else model)
        (Result_FinishReason result) (Result_StopReason result)
        (mkUsage input (OutputTokens (Result_Usage result))) in
      relay_events events onDelta delivered result fs s
  | TextDelta text :: events =>
      if bool_decide (text = ""%string) then relay_events events onDelta delivered result fs s
      else
        match onDelta text fs s with
        | (Err e, fs, s) => ((delivered ++ [text], result, Some e), fs, s)
        | (Ok _, fs, s) => relay_events events onDelta (delivered ++ [text]) result fs s
        end
  | MessageDelta stop input output :: events =>
      let result := mkProviderResult (Result_Model result) (Result_FinishReason result) stop
        (mkUsage (if 0 <? input then input else InputTokens (Result_Usage result)) output) in
      relay_events events onDelta delivered result fs s
  | OtherEvent :: events => relay_events events onDelta delivered result fs s
  end.

Definition Stream (events : list sdk_event) (final : option sdk_error) (ctx_error : option error)
    (request : ProviderRequest) (onDelta : string → M S ()) (fs : script) (s : S)
    : (list string * ProviderResult * option error) * script * S :=
  match relay_events events onDelta [] (mkProviderResult (Provider_Model request) "" "" (mkUsage 0 0)) fs s with
  | ((delivered, result, Some e), fs, s) => ((delivered, result, Some e), fs, s)
  | ((delivered, result, None), fs, s) =>
      match final with
      | Some e => ((delivered, result, Some (classifyAnthropicError ctx_error e)), fs, s)
      | None =>
          if bool_decide (Result_StopReason result = ""%string)
          then ((delivered, result, Some (ProviderError "incomplete_stream" (Plain "stream ended without a stop reason"))), fs, s)
          else ((delivered, mkProviderResult (Result_Model result) (finishReason (Result_StopReason result))
                   (Result_StopReason result) (Result_Usage result), None), fs, s)
      end
  end.

(** ** Completing *)
Record Outcome := mkOutcome {
  Status : string;
  Outcome_StopReason : string;
  ErrorCode : string;
  Outcome_Model : string;
  Outcome_Usage : Usage;
}.

(** The keys a process holds in memory; wiping one overwrites its bytes, and
    changes neither another key nor the Kafka log. *)
Class KeyMemory (S : Type) `{KafkaLog S} := {
  reveal : key_ref → S → string;
  zero_key : key_ref → S → S;
  reveal_zero : ∀ k s, reveal k (zero_key k s) = ""%string;
  reveal_zero_other : ∀ k k' s, k' ≠ k → reveal k' (zero_key k s) = reveal k' s;
  kafka_zero : ∀ k s, kafka (zero_key k s) = kafka s;
  reveal_append : ∀ k l s, reveal k (kafka_append l s) = reveal k s;
}.

Context `{KL : !KafkaLog S} {KM : KeyMemory S}.

(** A provider: its name and its streaming call, which returns the deltas it
    handed to [onDelta], the result so far and an error. *)
Record Provider := mkProvider {
  Provider_Name : string;
  Provider_Stream : ProviderRequest → (string → M S ()) → script → S →
    (list string * ProviderResult * option error) * script * S;
}.

(** [KeyResolver.ResolveKey], or none when BYOK is not configured. *)
Definition resolver := option (string → M S key_ref).

Definition resolveKey (keys : resolver) (ctx_error : option error) (company : string) : M S key_ref := λ fs s,
  match keys with
  | None => (Err (ProviderError "byok_unavailable" (Plain "BYOK is not configured")), fs, s)
  | Some ResolveKey =>
      match ResolveKey company fs s with
      | (Ok k, fs, s) => (Ok k, fs, s)
      | (Err e, fs, s) =>
          (Err (match ctx_error with
                | Some e => e
                | None => ProviderError "byok_key_unavailable" e end), fs, s)
      end
  end.

(** [Key.Zero] on the request's key; a nil key is left alone. *)
Definition wipe (k : option key_ref) (s : S) : S :=
  match k with Some k => zero_key k s | None => s end.

(** The status and error code of a completion. *)
Definition outcome_status (ctx_error err : option error) (finish : FinishReason) : string * string :=
  match err with
  | None =>
      if bool_decide (finish = FinishLength) then (AIResponseStatusTruncated, ""%string)
      else if bool_decide (finish = FinishRefusal) then (AIResponseStatusRefused, ""%string)
      else (AIResponseStatusCompleted, ""%string)
  | Some e =>
      if bool_decide (is_Some ctx_error) || errors_is e context_Canceled || errors_is e errClientGone
      then (AIResponseStatusCancelled, "cancelled"%string)
      else (AIResponseStatusError, errorCode e)
  end.

(** [KafkaEmitter.Emit] on a writer for [topic]. *)
Definition Emit (topic key : string) (envelope : Envelope) : M S () :=
  body ← lift (wrap_err "aigateway: marshal envelope" (marshal_envelope envelope));
  wrapM "aigateway: write"
    (batch kafka_append [mkKafkaMessage topic key (Some body) [("event_type"%string, Envelope_EventType envelope)]]).

(** What [Complete] reads from its surroundings: [ctx.Err()] after the stream,
    the clock and the random event id. *)
Record surroundings := mkSurroundings {
  ctx_error : option error;
  now : time;
  latency : duration;
  event_id : result (list Z);
}.

Definition completion (provider : Provider) (request : CompleteRequest) (outcome : Outcome) (text : string)
    (latency : duration) : AIResponseCompleted :=
  mkAIResponseCompleted (SessionID request) (InterviewID request) (PromptID request) (Mode request)
    (Provider_Name provider) (Outcome_Model outcome) (Status outcome) (Outcome_StopReason outcome)
    (ErrorCode outcome) text (InputTokens (Outcome_Usage outcome)) (OutputTokens (Outcome_Usage outcome))
    (milliseconds latency).

(** Streaming, from the key to the wiped key: the deltas, the result and the
    error. *)
Definition stream_request (provider : Provider) (keys : resolver) (env : surroundings)
    (request : CompleteRequest) (onDelta : string → M S ()) (fs : script) (s : S)
    : (list string * ProviderResult * option error) * script * S :=
  let provider_request key :=
    mkProviderRequest (Model request) (System request) (Messages request) (MaxTokens request) key in
  let '(key, fs, s) :=
    if bool_decide (Mode request = ModeBYOK)
    then let '(k, fs, s) := resolveKey keys (ctx_error env) (CompanyID request) fs s in (Some <$> k, fs, s)
    else (Ok None, fs, s) in
  match key with
  | Err e => (([], no_result, Some e), fs, s)
  | Ok key =>
      let '(res, fs, s) := Provider_Stream provider (provider_request key) onDelta fs s in
      (res, fs, wipe key s)
  end.

Definition Complete (provider : Provider) (topic : string) (keys : resolver) (env : surroundings)
    (request : CompleteRequest) (onDelta : string → M S ()) (fs : script) (s : S)
    : (Outcome * option error) * script * S :=
  let '((delivered, result, err), fs, s) := stream_request provider keys env request onDelta fs s in
  let '(status, code) := outcome_status (ctx_error env) err (Result_FinishReason result) in
  let outcome := mkOutcome status (Result_StopReason result) code
    (if bool_decide (Result_Model result = ""%string) then Model request else Result_Model result)
    (Result_Usage result) in
  match New (CompanyID request) (Request_SequenceNumber request) (event_id env) (now env)
          (completion provider request outcome (concat_bytes delivered) (latency env)) with
  | Err e => ((outcome, Some e), fs, s)
  | Ok envelope =>
      match Emit topic (SessionID request) envelope fs s with
      | (Err e, fs, s) => ((outcome, Some e), fs, s)
      | (Ok _, fs, s) => ((outcome, None), fs, s)
      end
  end.

(** ** What a completion leaves behind *)
Lemma Emit_cases topic key envelope fs s r fs' s' :
  Emit topic key envelope fs s = (r, fs', s') →
  (∃ body, marshal_envelope envelope = Ok body ∧ (r = Ok () ∨ is_ok r = false) ∧
     let m := mkKafkaMessage topic key (Some body) [("event_type"%string, Envelope_EventType envelope)] in
     (s' = kafka_append [m] s ∨ is_ok r = false ∧ (s' = s ∨ s' = kafka_append [] s))) ∨
  is_ok r = false ∧ s' = s.
Proof.
  unfold Emit. destruct (marshal_envelope envelope) as [body|e] eqn:E; cbn; [|intros [= <- <- <-]; by right].
  unfold mbind, M_bind, lift, wrapM. cbn. intros H. left. exists body. split; [done|].
  unfold batch in H. destruct fs as [|[|e|e|n e] fs]; cbn in H; injection H as <- <- <-; cbn; auto 6.
  split; [by right|]. set (m := mkKafkaMessage topic key (Some body) _).
  destruct (select_single n m) as [-> | ->]; auto.
Qed.

Lemma resolveKey_state keys ce company fs s :
  (∀ f, keys = Some f → ∀ fs s, kafka (state_after (f company) fs s) = kafka s) →
  kafka (state_after (resolveKey keys ce company) fs s) = kafka s.
Proof.
  intros Hk. unfold state_after, resolveKey. destruct keys as [f|]; [|done].
  specialize (Hk f eq_refl fs s). unfold state_after in Hk. by destruct (f company fs s) as [[[k|e] fs1] s1].
Qed.

(** Streaming writes nothing to Kafka. *)
Definition quiet (provider : Provider) (keys : resolver) (request : CompleteRequest) (onDelta : string → M S ()) : Prop :=
  (∀ r fs s, kafka (Provider_Stream provider r onDelta fs s).2 = kafka s) ∧
  (∀ f, keys = Some f → ∀ fs s, kafka (state_after (f (CompanyID request)) fs s) = kafka s).

Lemma stream_request_quiet provider keys env request onDelta fs s :
  quiet provider keys request onDelta →
  kafka (stream_request provider keys env request onDelta fs s).2 = kafka s.
Proof.
  intros [Hp Hk]. unfold stream_request. case_bool_decide.
  - pose proof (resolveKey_state keys (ctx_error env) (CompanyID request) fs s Hk) as Hr. unfold state_after in Hr.
    destruct (resolveKey _ _ _ fs s) as [[[k|e] fs1] s1]; cbn in *; [|done].
    match goal with |- context [Provider_Stream provider ?r onDelta fs1 s1] => specialize (Hp r fs1 s1) end.
    destruct (Provider_Stream _ _ _ _ _) as [[res fs2] s2]. cbn in *. rewrite kafka_zero. congruence.
  - match goal with |- context [Provider_Stream provider ?r onDelta fs s] => specialize (Hp r fs s) end.
    by destruct (Provider_Stream _ _ _ _ _) as [[res fs2] s2].
Qed.

(** The outcome has one of five statuses, and the event is in the log unless
    [Complete] reports an error. *)
Lemma Complete_cases provider topic keys env request onDelta fs s outcome err fs' s' :
  Complete provider topic keys env request onDelta fs s = ((outcome, err), fs', s') →
  let '((delivered, result, e), fs1, s1) := stream_request provider keys env request onDelta fs s in
  Status outcome ∈ [AIResponseStatusCompleted; AIResponseStatusTruncated; AIResponseStatusRefused;
                    AIResponseStatusCancelled; AIResponseStatusError] ∧
  ((is_Some err ∧ kafka s' = kafka s1) ∨
   ∃ envelope body,
     New (CompanyID request) (Request_SequenceNumber request) (event_id env) (now env)
       (completion provider request outcome (concat_bytes delivered) (latency env)) = Ok envelope ∧
     marshal_envelope envelope = Ok body ∧
     kafka s' = kafka s1 ++ [mkKafkaMessage topic (SessionID request) (Some body)
                               [("event_type"%string, EventTypeAIResponseCompleted)]]).
Proof.
  intros Hc. unfold Complete in Hc.
  destruct (stream_request provider keys env request onDelta fs s) as [[[[delivered result] e] fs1] s1].
  destruct (outcome_status (ctx_error env) e (Result_FinishReason result)) as [status code] eqn:Eo.
  cbv zeta in Hc. set (o := mkOutcome _ _ _ _ _) in Hc. assert (Hst : status ∈ [AIResponseStatusCompleted; AIResponseStatusTruncated;
    AIResponseStatusRefused; AIResponseStatusCancelled; AIResponseStatusError]).
  { unfold outcome_status in Eo. repeat case_match; injection Eo as <- <-; set_solver. }
  destruct (New _ _ _ _ _) as [envelope|e'] eqn:En.
  - assert (Envelope_EventType envelope = EventTypeAIResponseCompleted) as Het.
    { unfold New in En. inv_bind. by subst. }
    destruct (Emit topic (SessionID request) envelope fs1 s1) as [[[u|e'] fs2] s2] eqn:Ee; injection Hc as <- <- <- <-;
      (split; [exact Hst|]); apply Emit_cases in Ee as [(body & Hb & _ & Hs2)|[He Hs2]]; cbn in *.
    + right. exists envelope, body. split_and!; [done..|]. destruct Hs2 as [->|[? _]]; [|done].
      by rewrite kafka_append_log, Het.
    + done.
    + destruct Hs2 as [->|[_ [->| ->]]]; [right|left..].
      * exists envelope, body. by rewrite kafka_append_log, Het.
      * eauto.
      * rewrite kafka_append_log, app_nil_r. eauto.
    + subst s2. left. eauto.
  - injection Hc as <- <- <- <-. split; [exact Hst|]. left. eauto.
Qed.

(** C22: A completion is always recorded.  Whatever the key lookup, the
    provider and the client do - success, truncation, refusal, provider error
    or a client that goes away - [Complete] either reports an error writing the
    event, or has appended exactly one [ai.response.completed] to Kafka, keyed
    by the session and numbered as the request says, carrying the outcome it
    returns and exactly the text handed to the client, including a last delta
    the client did not take. *)
Theorem Complete_records provider topic keys env request onDelta fs s outcome err fs' s' :
  quiet provider keys request onDelta →
  Complete provider topic keys env request onDelta fs s = ((outcome, err), fs', s') →
  let delivered := (stream_request provider keys env request onDelta fs s).1.1.1.1 in
  Status outcome ∈ [AIResponseStatusCompleted; AIResponseStatusTruncated; AIResponseStatusRefused;
                    AIResponseStatusCancelled; AIResponseStatusError] ∧
  ((is_Some err ∧ kafka s' = kafka s) ∨
   ∃ envelope body,
     New (CompanyID request) (Request_SequenceNumber request) (event_id env) (now env)
       (completion provider request outcome (concat_bytes delivered) (latency env)) = Ok envelope ∧
     marshal_envelope envelope = Ok body ∧
     kafka s' = kafka s ++ [mkKafkaMessage topic (SessionID request) (Some body)
                              [("event_type"%string, EventTypeAIResponseCompleted)]]).
Proof.
  intros Hq Hc%Complete_cases. pose proof (stream_request_quiet provider keys env request onDelta fs s Hq) as Hs.
  destruct (stream_request provider keys env request onDelta fs s) as [[[[delivered result] e] fs1] s1].
  cbn in Hs |- *. by rewrite Hs in Hc.
Qed.

(** A company's own key is used only for its own BYOK completion and is
    wiped when [Complete] returns, however it returns; without a key the
    provider is not called at all, and a managed completion never sees one. *)
Theorem byok_key_wiped provider topic keys env request onDelta fs s :
  Mode request = ModeBYOK →
  match resolveKey keys (ctx_error env) (CompanyID request) fs s with
  | (Ok k, _, _) => reveal k (Complete provider topic keys env request onDelta fs s).2 = ""%string
  | (Err _, _, _) => ∀ provider', Provider_Name provider' = Provider_Name provider →
      Complete provider' topic keys env request onDelta fs s = Complete provider topic keys env request onDelta fs s
  end.
Proof.
  intros Hm. unfold Complete, stream_request. rewrite bool_decide_eq_true_2 by done.
  destruct (resolveKey _ _ _ fs s) as [[[k|e] fs1] s1] eqn:Er; cbn.
  - destruct (Provider_Stream _ _ _ _ _) as [[[[delivered result] e] fs2] s2].
    destruct (outcome_status _ _ _) as [status code]. destruct (New _ _ _ _ _) as [envelope|e']; cbn; [|apply reveal_zero].
    destruct (Emit _ _ _ _ _) as [[r fs3] s3] eqn:Ee.
    assert (reveal k s3 = ""%string) as Hr.
    { apply Emit_cases in Ee as [(body & _ & _ & [->|[_ [->| ->]]])|[_ ->]];
        rewrite ?reveal_append; apply reveal_zero. }
    by destruct r.
  - intros provider' Hn. unfold completion. by rewrite Hn.
Qed.
End Stream.

(** ** The HTTP endpoint (http.go)

    [send] writes one event of the response stream; [body] is the decoded
    request, [None] for a body that is not a JSON completion request. *)
Section Endpoint.
Context {S : Type} `{KL : !KafkaLog S} {KM : KeyMemory S} `{uuids : UuidLib}.
Context (send : string → json → M S ()).

Definition EventDelta : string := "delta".
Definition EventDone : string := "done".

Definition delta_json (text : string) : json := JObject [("text"%string, encode_string text)].
Definition usage_json (u : Usage) : json :=
  JObject [("input_tokens", JNumber (render_int (InputTokens u))); ("output_tokens", JNumber (render_int (OutputTokens u)))]%string.
Definition outcome_json (o : Outcome) : json :=
  let optional (k v : string) := if bool_decide (v = ""%string) then [] else [(k, encode_string v)] in
  JObject ([("status"%string, encode_string (Status o))] ++ optional "stop_reason" (Outcome_StopReason o) ++
    optional "error_code" (ErrorCode o) ++
    [("model"%string, encode_string (Outcome_Model o)); ("usage"%string, usage_json (Outcome_Usage o))]).

(** A failed write means the client disconnected. *)
Definition send_delta (text : string) : M S () := λ fs s,
  match send EventDelta (delta_json text) fs s with
  | (Err _, fs, s) => (Err (Wrap "client" errClientGone), fs, s)
  | r => r
  end.

Definition complete (provider : Provider) (topic : string) (keys : resolver) (env : surroundings)
    (body : option CompleteRequest) (fs : script) (s : S) : (Z * option Outcome) * script * S :=
  match body with
  | None => ((400, None), fs, s)
  | Some request =>
      match Validate request with
      | Err _ => ((400, None), fs, s)
      | Ok request =>
          let '((outcome, _), fs, s) := Complete provider topic keys env request send_delta fs s in
          let '(_, fs, s) := send EventDone (outcome_json outcome) fs s in
          ((200, Some outcome), fs, s)
      end
  end.

(** [invalidateKey]; [company] is the decoded [company_id]. *)
Definition invalidateKey (invalidate : string → S → S) (company : option string) (s : S) : Z * S :=
  match company with
  | Some company => if is_uuid company then (204, invalidate company s) else (400, s)
  | None => (400, s)
  end.
End Endpoint.

(** ** The Claude stream *)
Fixpoint text_deltas (events : list sdk_event) : list string :=
  match events with
  | [] => []
  | TextDelta text :: events =>
      if bool_decide (text = ""%string) then text_deltas events else text :: text_deltas events
  | _ :: events => text_deltas events
  end.

(** The last stop reason the stream announced. *)
Definition stop_reason (events : list sdk_event) (d : string) : string :=
  fold_left (λ d e, match e with MessageDelta stop _ _ => stop | _ => d end) events d.

Lemma relay_events_spec {S} events (onDelta : string → M S ()) delivered result fs s delivered' result' err fs' s' :
  relay_events events onDelta delivered result fs s = ((delivered', result', err), fs', s') →
  (∃ ds, delivered' = delivered ++ ds ∧ ds `prefix_of` text_deltas events ∧ (err = None → ds = text_deltas events)) ∧
  (err = None → Result_StopReason result' = stop_reason events (Result_StopReason result)).
Proof.
  revert delivered result fs s. induction events as [|e events IH]; intros delivered result fs s H; cbn in H.
  { injection H as <- <- <- <- <-. split; [|done]. exists []. by rewrite app_nil_r. }
  destruct e as [model input|text|stop input output|]; cbn [text_deltas].
  - apply IH in H as [H1 H2]. split; [exact H1|]. exact H2.
  - case_bool_decide; [by apply IH in H|].
    destruct (onDelta text fs s) as [[[u|e] fs1] s1].
    + apply IH in H as [(ds & -> & Hp & Hn) H2]. split; [|exact H2].
      exists (text :: ds). rewrite <-app_assoc. split_and!; [done|by apply prefix_cons|].
      intros He. by rewrite Hn.
    + injection H as <- <- <- <- <-. split; [|done]. exists [text]. split_and!; [done| |done].
      apply prefix_cons, prefix_nil.
  - apply IH in H as [H1 H2]. split; [exact H1|]. exact H2.
  - by apply IH in H.
Qed.

(** The adapter hands the client exactly the non-empty text deltas of the
    SDK stream, in order and up to the first one the client refuses; it reports
    success only for a stream that ended without an error and announced a stop
    reason, all of whose text was delivered, and then with that reason's finish
    reason - a stream that just stops is an error. *)
Theorem Stream_faithful {S} events final ctx_error request (onDelta : string → M S ()) fs s delivered result err fs' s' :
  Stream events final ctx_error request onDelta fs s = ((delivered, result, err), fs', s') →
  delivered `prefix_of` text_deltas events ∧
  (err = None → final = None ∧ delivered = text_deltas events ∧
     stop_reason events "" ≠ ""%string ∧ Result_StopReason result = stop_reason events "" ∧
     Result_FinishReason result = finishReason (stop_reason events "")) ∧
  ((∀ text fs s, is_ok (result_of (onDelta text) fs s) = true) → stop_reason events "" = ""%string → is_Some err).
Proof.
  unfold Stream. intros H.
  destruct (relay_events _ _ _ _ _ _) as [[[[delivered1 result1] err1] fs1] s1] eqn:Er.
  pose proof (relay_events_spec _ _ _ _ _ _ _ _ _ _ _ Er) as [(ds & Hd & Hp & Hn) Hs]. cbn in Hd, Hs. subst delivered1.
  destruct err1 as [e|]; [injection H as <- <- <- <- <-; split_and!; [done|done|by eexists]|].
  destruct final as [e|]; [injection H as <- <- <- <- <-; split_and!; [done|done|by eexists]|].
  specialize (Hn eq_refl). specialize (Hs eq_refl).
  case_bool_decide as E; injection H as <- <- <- <- <-; cbn.
  - split_and!; [done|done|by eexists].
  - rewrite Hs in E |- *. split_and!; [done| |done]. intros _. by rewrite Hn.
Qed.

(** *** A process: its keys and the Kafka log *)
Record Process := mkProcess { memory : gmap N string; process_log : list KafkaMessage }.
#[export] Instance Process_kafka : KafkaLog Process := {|
  kafka := process_log;
  kafka_append l s := mkProcess (memory s) (process_log s ++ l);
  kafka_append_log l s := eq_refl;
|}.
#[export] Instance Process_keys : KeyMemory Process.
Proof.
  refine {| reveal k s := default ""%string (memory s !! k);
            zero_key k s := mkProcess (<[k := ""%string]> (memory s)) (process_log s) |}.
  - intros k s. cbn. by rewrite lookup_insert_eq.
  - intros k k' s Hk. cbn. by rewrite lookup_insert_ne.
  - done.
  - done.
Defined.

Definition example_events : list sdk_event :=
  [MessageStart "claude" 12; TextDelta "Use "; TextDelta "a map."; MessageDelta "end_turn" 0 7].
Definition example_provider : Provider (S := Process) :=
  mkProvider "anthropic" (Stream example_events None None).
Definition example_keys : resolver (S := Process) :=
  Some (λ _, exec (λ s, mkProcess (<[5%N := "sk-secret"%string]> (memory s)) (process_log s));; mret 5%N).
Definition example_env : surroundings := mkSurroundings None (date_month 2026 9) (2 * second) (Ok [10]).
Definition example_request : CompleteRequest :=
  mkCompleteRequest "x" "h" "h" "h" 3 ModeBYOK "claude" "" [mkMessage RoleUser "how?"] 16000.
Definition example_client : string → M Process () := λ _, mret ().
Definition example_completion : (Outcome * option error) * script * Process :=
  Complete example_provider "session-events" example_keys example_env example_request example_client []
    (mkProcess ∅ []).

Lemma Complete_records_witness :
  quiet example_provider example_keys example_request example_client ∧
  example_completion.1.1.2 = None ∧
  ∃ envelope body,
    New "x" 3 (Ok [10]) (date_month 2026 9)
      (completion example_provider example_request example_completion.1.1.1 "Use a map." (2 * second)) = Ok envelope ∧
    marshal_envelope envelope = Ok body ∧
    kafka example_completion.2 = [mkKafkaMessage "session-events" "h" (Some body)
                              [("event_type"%string, EventTypeAIResponseCompleted)]].
Proof.
  assert (quiet example_provider example_keys example_request example_client) as Hq.
  { split.
    - intros r fs s. done.
    - intros f [= <-] fs s. unfold state_after, mbind, M_bind, exec, stmt. destruct fs as [|[] fs]; done. }
  split; [exact Hq|]. split; [vm_compute; reflexivity|].
  destruct example_completion as [[[outcome err] fs'] s'] eqn:E.
  destruct (Complete_records example_provider "session-events" example_keys example_env example_request example_client
    [] (mkProcess ∅ []) outcome err fs' s' Hq E) as [_ [[He _]|H]].
  - exfalso. assert (err = None) as ->; [|by destruct He].
    change err with (outcome, err, fs', s').1.1.2. rewrite <-E. vm_compute. reflexivity.
  - exact H.
Defined.

Lemma byok_key_wiped_witness :
  Mode example_request = ModeBYOK ∧ reveal 5%N example_completion.2 = ""%string.
Proof.
  split; [reflexivity|].
  exact (byok_key_wiped example_provider "session-events" example_keys example_env example_request example_client []
    (mkProcess ∅ []) eq_refl).
Defined.

Lemma Stream_faithful_witness :
  let '(delivered, result, err, fs', s') := Stream example_events None None
    (mkProviderRequest "m" "" [] 10 None) example_client [] (mkProcess ∅ []) in
  err = None ∧ delivered = ["Use "; "a map."]%string ∧ Result_FinishReason result = FinishStop.
Proof.
  destruct (Stream _ _ _ _ _ _ _) as [[[[delivered result] err] fs'] s'] eqn:E.
  assert (err = None) as He.
  { change err with (delivered, result, err, fs', s').1.1.2. rewrite <-E. vm_compute. reflexivity. }
  destruct (Stream_faithful _ _ _ _ _ _ _ _ _ _ _ _ E) as (_ & H & _).
  destruct (H He) as (_ & -> & _ & _ & ->). split; [exact He|]. split; reflexivity.
Defined.
