(* ===== verification/Scoring.v ===== *)
(** * The Scoring Service (internal/scoring: service.go, recommendation.go,
      consumer.go, clickhouse.go)

    The queries of the event log, the scoring of one trigger, the AI
    recommendation and the consumer that retries a trigger until the log has
    caught up. *)
From S2P Require Import Prelude Str GoTime Json JsonText Rfc3339 Codec.
From S2P Require Import EventLog Gateway Domain Events Metrics Outbox Tx Store.
From Stdlib Require Floats.SpecFloat.

(** ** Errors *)
Definition ErrBehind : error := Sentinel "scoring.ErrBehind".
Definition PermanentError (e : error) : error := Typed "scoring.PermanentError" "" e.
Definition is_permanent (e : error) : bool := bool_decide (is_Some (errors_as "scoring.PermanentError" e)).
Definition RecommendationErr (code : string) (e : error) : error := Typed "scoring.RecommendationError" code e.

(** ** Triggers *)
Record Trigger := mkTrigger {
  Trigger_EventType : EventType;
  Trigger_CompanyID : UUID;
  Trigger_InterviewID : UUID;
  Trigger_SessionID : UUID;
  Trigger_SequenceNumber : Z;
}.

Definition trigger_schema : list spec := [mkSpec "session_id" KString false; mkSpec "interview_id" KString false].
Definition unmarshal_ids (m : RawMessage) : option (string * string) :=
  vs ← decode trigger_schema m (zero_struct trigger_schema);
  match vs with [VString session; VString interview] => Some (session, interview) | _ => None end.

Definition is_trigger_type (ty : EventType) : bool :=
  bool_decide (ty = EventTypeSessionSubmitted) || bool_decide (ty = EventTypeSessionExpired).

Section Uuids.
Context `{uuids : UuidLib}.

Definition uuid_field (ty : EventType) (name value : string) : result UUID :=
  match uuid_Parse value with
  | Some u => Ok u
  | None => Err (Plain (ty +:+ " " +:+ name +:+ " must be a UUID"))
  end.

(** [None] is [ok = false] with a nil error. *)
Definition ParseTrigger (envelope : Envelope) : result (option Trigger) :=
  let ty := Envelope_EventType envelope in
  if negb (is_trigger_type ty) then Ok None
  else match unmarshal_ids (Envelope_Payload envelope) with
    | None => Err (Wrap ("decode " +:+ ty +:+ " payload") (Plain "json"))
    | Some (session, interview) =>
        company ← uuid_field ty "company_id" (Envelope_CompanyID envelope);
        interview ← uuid_field ty "interview_id" interview;
        session ← uuid_field ty "session_id" session;
        if SequenceNumber envelope <? 1 then Err (Plain "trigger sequence_number must be positive")
        else Ok (Some (mkTrigger ty company interview session (SequenceNumber envelope)))
    end.

(** ** The event log's queries (clickhouse.go) *)
Record Progress := mkProgress { MaxSequence : Z; Present : Z }.

Definition CaughtUp (p : Progress) (sequence : Z) : bool := (sequence <=? MaxSequence p) && (sequence <=? Present p).

Definition of_interview (company interview : UUID) (r : Row) : bool :=
  bool_decide (Row_CompanyID r = uuid_String company) && bool_decide (Row_InterviewID r = uuid_String interview).

(** [max] of no rows is 0; [uniqExactIf] counts distinct values. *)
Definition progress_query (company interview : UUID) (upTo : Z) (rows : list Row) : Progress :=
  let sequences := map Row_SequenceNumber (List.filter (of_interview company interview) rows) in
  mkProgress
    (match sequences with [] => 0 | n :: ns => foldl Z.max n ns end)
    (Z.of_nat (length (remove_dups (List.filter (λ n, (1 <=? n) && (n <=? upTo)) sequences)))).

Definition event_of (r : Row) : Metrics.Event :=
  mkEvent (Row_SequenceNumber r) (Row_EventType r) (Row_OccurredAt r) (Row_Payload r).

(** [FROM events FINAL … ORDER BY sequence_number]. *)
Definition timeline_rows (company interview session : UUID) (upTo : Z) (rows : list Row) : list Row :=
  List.filter (λ r, of_interview company interview r &&
    bool_decide (Row_SessionID r = Some (uuid_String session)) && (Row_SequenceNumber r <=? upTo))
    (map snd (map_to_list (final_rows rows))).
Definition timeline_query (company interview session : UUID) (upTo : Z) (rows : list Row) : list Metrics.Event :=
  sort_stable seq_less (map event_of (timeline_rows company interview session upTo rows)).
End Uuids.

(** ** Recommendations *)
Definition DecisionAdvance : string := "advance".
Definition DecisionHold : string := "hold".
Definition DecisionReject : string := "reject".
Definition RecommendationErrInvalidJSON : string := "invalid_json".
Definition RecommendationErrProvider : string := "provider_error".
Definition RecommendationErrTimeout : string := "timeout".
Definition RecommendationErrDisabled : string := "disabled".

Record recommendation_fields := mkFields {
  field_Decision : option string;
  field_Confidence : option float64;
  field_Rationale : option string;
}.

(** A [*float64] field. *)
Definition float_ptr_field {T} (name : string) (set : option float64 → T → T) : field T :=
  (name, λ v t, match v with
                | JNull => Some (set None t)
                | JNumber lit => f ← parse_float64 lit; Some (set (Some f) t)
                | _ => None end).

Definition recommendation_struct : list (field recommendation_fields) := [
  string_ptr_field "decision" (λ d f, mkFields d (field_Confidence f) (field_Rationale f));
  float_ptr_field "confidence" (λ c f, mkFields (field_Decision f) c (field_Rationale f));
  string_ptr_field "rationale" (λ r f, mkFields (field_Decision f) (field_Confidence f) r)].

Definition f64_zero : float64 := SpecFloat.S754_zero false.
Definition f64_one : float64 := SpecFloat.binary_normalize 53 1024 1 0 false.
Definition is_decision (d : string) : bool := bool_decide (d ∈ [DecisionAdvance; DecisionHold; DecisionReject]).

Definition ParseRecommendation (text : string) : result Recommendation :=
  match unmarshal_strict recommendation_struct (parse_json text) (mkFields None None None) with
  | None => Err (Plain "not one recommendation object")
  | Some (mkFields (Some decision) (Some confidence) (Some rationale)) =>
      if negb (is_decision decision) then Err (Plain "unknown decision")
      else if SpecFloat.SFltb confidence f64_zero || SpecFloat.SFltb f64_one confidence
      then Err (Plain "confidence must be between 0 and 1")
      else if blank rationale then Err (Plain "rationale must not be empty")
      else Ok (mkRecommendation decision confidence rationale)
  | Some _ => Err (Plain "decision, confidence and rationale are required")
  end.

(** [metrics.Metrics] as JSON. *)
Definition metrics_schema : list spec := [
  mkSpec "prompt_count" KInt false; mkSpec "ai_response_count" KInt false; mkSpec "ai_error_count" KInt false;
  mkSpec "ai_input_tokens" KInt false; mkSpec "ai_output_tokens" KInt false; mkSpec "run_count" KInt false;
  mkSpec "run_succeeded_count" KInt false; mkSpec "last_run_status" KString false; mkSpec "diff_count" KInt false;
  mkSpec "ai_diff_count" KInt false; mkSpec "lines_added" KInt false; mkSpec "lines_removed" KInt false;
  mkSpec "ai_lines_added" KInt false; mkSpec "active_duration_ms" KInt false;
  mkSpec "time_to_first_run_ms" KIntPtr false].
Definition metrics_values (m : Metrics) : list value := [
  VInt (PromptCount m); VInt (AIResponseCount m); VInt (AIErrorCount m); VInt (AIInputTokens m);
  VInt (AIOutputTokens m); VInt (RunCount m); VInt (RunSucceededCount m); VString (LastRunStatus m);
  VInt (DiffCount m); VInt (AIDiffCount m); VInt (LinesAdded m); VInt (LinesRemoved m); VInt (AILinesAdded m);
  VInt (ActiveDurationMS m); VIntPtr (TimeToFirstRunMS m)].
Definition metrics_of_values (vs : list value) : option Metrics :=
  match vs with
  | [VInt a; VInt b; VInt c; VInt d; VInt e; VInt f; VInt g; VString h; VInt i; VInt j; VInt k; VInt l; VInt m; VInt n; VIntPtr o] =>
      Some (mkMetrics a b c d e f g h i j k l m n o)
  | _ => None
  end.
Definition marshal_metrics (m : Metrics) : result json := marshal metrics_schema (metrics_values m).
Definition unmarshal_metrics (m : RawMessage) : option Metrics :=
  vs ← decode metrics_schema m (zero_struct metrics_schema); metrics_of_values vs.

Definition recommendationSystem : string :=
  "You review metrics from a candidate's timed coding session and recommend whether to advance them." +:+ String LF
  ("Reply with exactly one JSON object and nothing else — no prose, no code fences:" +:+ String LF
  (quoted "{'decision': 'advance' | 'hold' | 'reject', 'confidence': <number from 0 to 1>, 'rationale': '<one or two sentences>'}" +:+ String LF
  "AI assistance is allowed in the session; judge how effectively it was used, not whether it was used.")).

(** ** The service *)
Section Service.
Context `{uuids : UuidLib} {S : Type} `{HW : HasWorld S}.
(** The events table in the state and the float formatting of encoding/json. *)
Context (log : S → list Row) (FormatFloat : float64 → string).

(** [ProviderRecommender]. *)
Record recommender := mkRecommender {
  rec_Provider : Gateway.Provider (S:=S);
  rec_Model : string;
  rec_MaxTokens : Z;
}.

(** A finite float; [json.Marshal] refuses the others. *)
Definition marshal_float (f : float64) : result json :=
  match f with
  | SpecFloat.S754_nan | SpecFloat.S754_infinity _ => Err (Plain "json: unsupported value")
  | _ => Ok (JNumber (FormatFloat f))
  end.

(** The input of a recommendation: the metrics and the two ratios. *)
Definition recommendation_input (m : Metrics) : result string :=
  body ← marshal_metrics m;
  rate ← marshal_float (RunSuccessRate m);
  share ← marshal_float (AILineShare m);
  Ok (render (match body with
              | JObject fields => JObject (fields ++ [("run_success_rate"%string, rate); ("ai_line_share"%string, share)])
              | j => j end)).

(** What a scoring meets: the clocks, what other processes do between the two
    reads of the log, [ctx.Err()] of the recommendation's context after the
    stream and when its error is classified, and the random event id. *)
Record surroundings := mkSurroundings {
  scored_at : time;
  db_now : time;
  meanwhile : S → S;
  stream_ctx : option error;
  recommend_ctx : option error;
  event_random : result (list Z);
  event_at : time;
}.

Definition concat_deltas (deltas : list string) : string := foldr String.append EmptyString deltas.

(** [Recommend]: the recommendation or its error, and the model. *)
Definition Recommend (r : recommender) (env : surroundings) (m : Metrics) (fs : script) (s : S)
    : (result Recommendation * string) * script * S :=
  match recommendation_input m with
  | Err e => ((Err e, ""%string), fs, s)
  | Ok input =>
      let model := if bool_decide (rec_Model r = ""%string) then Gateway.DefaultModel else rec_Model r in
      let maxTokens := if rec_MaxTokens r =? 0 then 1024 else rec_MaxTokens r in
      let request := Gateway.mkProviderRequest model recommendationSystem
        [Gateway.mkMessage Gateway.RoleUser ("Session metrics:" +:+ String LF input)] maxTokens None in
      let '((deltas, result, err), fs, s) :=
        Gateway.Provider_Stream (rec_Provider r) request (λ _, mret ()) fs s in
      let model := if bool_decide (Gateway.Result_Model result = ""%string) then model else Gateway.Result_Model result in
      match err with
      | Some e =>
          ((Err (RecommendationErr
             (match stream_ctx env with Some _ => RecommendationErrTimeout | None => RecommendationErrProvider end) e),
            model), fs, s)
      | None =>
          match ParseRecommendation (concat_deltas deltas) with
          | Err e => ((Err (RecommendationErr RecommendationErrInvalidJSON e), model), fs, s)
          | Ok rec => ((Ok rec, model), fs, s)
          end
      end
  end.

Definition recommendationErrorCode (ctx : option error) (e : error) : string :=
  let by_context :=
    if errors_is e context_DeadlineExceeded || bool_decide (is_Some ctx)
    then RecommendationErrTimeout else RecommendationErrProvider in
  match errors_as "scoring.RecommendationError" e with
  | Some code => if bool_decide (code = ""%string) then by_context else code
  | None => by_context
  end.

Definition with_recommendation (score : Score) (rec : option Recommendation) (model err : string) : Score :=
  mkScore (Score_CompanyID score) (Score_InterviewID score) (Score_SessionID score) (Score_Trigger score)
    (Score_Metrics score) (MetricsComplete score) rec model err (ComputedAt score).

Definition recommend (rec : option recommender) (env : surroundings) (score : Score) : M S Score := λ fs s,
  match rec with
  | None => (Ok (with_recommendation score (Score_Recommendation score) (RecommendationModel score)
                   RecommendationErrDisabled), fs, s)
  | Some r =>
      let '((answer, model), fs, s) := Recommend r env (Score_Metrics score) fs s in
      (Ok match answer with
          | Err e => with_recommendation score (Score_Recommendation score) model
                       (recommendationErrorCode (recommend_ctx env) e)
          | Ok rec => with_recommendation score (Some rec) model (RecommendationError score)
          end, fs, s)
  end.

Definition scoreComputedMessage (env : surroundings) (score : Score) (sequence : Z) : result Message :=
  metricsJSON ← marshal_metrics (Score_Metrics score);
  let payload := mkScoreComputed (uuid_String (Score_SessionID score)) (uuid_String (Score_InterviewID score))
    (Score_Trigger score) (MetricsComplete score) (Some metricsJSON)
    (match Score_Recommendation score with Some rec => Decision rec | None => ""%string end)
    (RecommendationError score) in
  envelope ← Events.New (uuid_String (Score_CompanyID score)) sequence (event_random env) (event_at env) payload;
  NewMessage SessionEventsTopic (uuid_String (Score_SessionID score)) envelope.

Inductive Outcome := OutcomeScored | OutcomeAlreadyScored.

(** The classification of [SaveScore]'s error. *)
Definition save_errors {A} (m : M S A) : M S A := λ fs s,
  let '(r, fs, s) := m fs s in
  (match r with
   | Err e => Err (if errors_is e ErrInterviewGone then PermanentError e else Wrap "scoring: save score" e)
   | Ok a => Ok a
   end, fs, s).

Definition permanent {A} (msg : string) (r : result A) : result A :=
  match r with Ok a => Ok a | Err e => Err (PermanentError (Wrap msg e)) end.

Definition other_processes (f : S → S) : M S () := λ fs s, (Ok (), fs, f s).

Definition score_of (trigger : Trigger) (computed : Metrics) (complete : bool) (at_ : time) : Score :=
  mkScore (Trigger_CompanyID trigger) (Trigger_InterviewID trigger) (Trigger_SessionID trigger)
    (Trigger_EventType trigger) computed complete None "" "" at_.

(** The second half of [Score], once the log has been found complete or the
    attempt is the last. *)
Definition score_session (rec : option recommender) (env : surroundings) (trigger : Trigger) (complete : bool)
    : M S Outcome :=
  other_processes (meanwhile env);;
  timeline ← wrapM "scoring: read session timeline" (wrapM "query session timeline"
    (query (λ s, timeline_query (Trigger_CompanyID trigger) (Trigger_InterviewID trigger)
                   (Trigger_SessionID trigger) (Trigger_SequenceNumber trigger) (log s))));
  computed ← lift (permanent "scoring: compute metrics" (Compute timeline));
  score ← recommend rec env (score_of trigger computed complete (scored_at env));
  saved ← save_errors (in_world (SaveScore score (db_now env) (scoreComputedMessage env score)));
  mret (if saved : bool then OutcomeScored else OutcomeAlreadyScored).

(** [Score]. *)
Definition ScoreTrigger (rec : option recommender) (env : surroundings) (trigger : Trigger) (final : bool)
    : M S Outcome :=
  exists_ ← wrapM "scoring: check existing score"
    (in_world (ScoreExists (Trigger_CompanyID trigger) (Trigger_SessionID trigger)));
  if exists_ : bool then mret OutcomeAlreadyScored
  else
    let upTo := Trigger_SequenceNumber trigger in
    progress ← wrapM "scoring: read event log progress" (wrapM "query event log progress"
      (query (λ s, progress_query (Trigger_CompanyID trigger) (Trigger_InterviewID trigger) upTo (log s))));
    let complete := CaughtUp progress upTo in
    if negb complete && negb final then throw (Wrap "have fewer events than the trigger" ErrBehind)
    else score_session rec env trigger complete.

(** ** The consumer *)
Record ConsumerConfig := mkConsumerConfig { MaxAttempts : Z; BaseBackoff : duration; MaxBackoff : duration }.

Definition NewConsumer (config : ConsumerConfig) : result () :=
  if (MaxAttempts config <? 1) || (BaseBackoff config <=? 0) || (MaxBackoff config <? BaseBackoff config)
  then Err (Plain "scoring: max attempts and backoff must be positive, with max backoff >= base") else Ok ().

(** [Backoff]: the loop runs at most [attempt - 1] times. *)
Fixpoint backoff_loop (n : nat) (wait max_ : duration) : duration :=
  match n with
  | O => wait
  | Datatypes.S n => if wait <? max_ then backoff_loop n (mul64 wait 2) max_ else wait
  end.
Definition Backoff (config : ConsumerConfig) (attempt : Z) : duration :=
  Z.min (backoff_loop (Z.to_nat (attempt - 1)) (BaseBackoff config) (MaxBackoff config)) (MaxBackoff config).

(** What [handle] reported before it returned nil. *)
Inductive handling :=
  | Skipped
  | Invalid (e : error)
  | Scored (trigger : Trigger) (outcome : Outcome) (attempt : Z).

(** [sleepContext]: the context's error if it ends first. *)
Definition sleep (d : duration) : M S () := query (λ _, ()).

(** The loop of [handle], with fuel; [score attempt] is the scorer's call. *)
Definition out_of_fuel : error := Sentinel "out of fuel".
Fixpoint attempts (fuel : nat) (config : ConsumerConfig) (score : Z → Trigger → bool → M S Outcome)
    (trigger : Trigger) (attempt : Z) : M S handling := λ fs s,
  match fuel with
  | O => (Err out_of_fuel, fs, s)
  | Datatypes.S fuel =>
      match score attempt trigger (MaxAttempts config <=? attempt) fs s with
      | (Ok outcome, fs, s) => (Ok (Scored trigger outcome attempt), fs, s)
      | (Err e, fs, s) =>
          if errors_is e ErrBehind then
            match sleep (Backoff config attempt) fs s with
            | (Ok _, fs, s) => attempts fuel config score trigger (attempt + 1) fs s
            | (Err e, fs, s) => (Err e, fs, s)
            end
          else if is_permanent e then (Ok (Invalid e), fs, s)
          else (Err e, fs, s)
      end
  end.

(** [handle], for the value of a message; [ctx_err] is [ctx.Err()] after a
    failure. *)
Definition handle (config : ConsumerConfig) (score : Z → Trigger → bool → M S Outcome) (ctx_err : option error)
    (value : RawMessage) : M S handling := λ fs s,
  match unmarshal_envelope value with
  | None => (Ok (Invalid (Wrap "envelope" (Plain "json"))), fs, s)
  | Some envelope =>
      match ParseTrigger envelope with
      | Err e => (Ok (Invalid e), fs, s)
      | Ok None => (Ok Skipped, fs, s)
      | Ok (Some trigger) =>
          match attempts (Z.to_nat (MaxAttempts config)) config score trigger 1 fs s with
          | (Err e, fs, s) => (Err (default e ctx_err), fs, s)
          | ok => ok
          end
      end
  end.

(** One iteration of [Run]: the fetched message or error, [ctx.Err()], what
    each attempt meets, and the faults. *)
Record turn := mkTurn {
  fetched : result RawMessage;
  ctx_err : option error;
  attempt_env : Z → surroundings;
  turn_faults : script;
}.

(** [Run]: the messages committed with how they were handled, and the error it
    returned; a commit that failed or whose acknowledgement was lost ends it. *)
Fixpoint Run (config : ConsumerConfig) (rec : option recommender) (turns : list turn) (s : S)
    : list (RawMessage * handling) * option error * S :=
  match turns with
  | [] => ([], None, s)
  | t :: turns =>
      match fetched t with
      | Err e => ([], Some (default (Wrap "scoring: fetch event" e) (ctx_err t)), s)
      | Ok value =>
          match handle config (λ n, ScoreTrigger rec (attempt_env t n)) (ctx_err t) value (turn_faults t) s with
          | (Err e, _, s) => ([], Some e, s)
          | (Ok h, fs, s) =>
              match wrapM "scoring: commit offset" (query (λ _, ())) fs s with
              | (Err e, _, s) =>
                  (match fs with AckLost _ :: _ => [(value, h)] | _ => [] end, Some e, s)
              | (Ok _, _, s) => let '(committed, e, s) := Run config rec turns s in ((value, h) :: committed, e, s)
              end
          end
      end
  end.
(** ** The log *)
Lemma progress_present company interview upTo rows :
  CaughtUp (progress_query company interview upTo rows) upTo = true →
  ∀ n, 1 ≤ n ≤ upTo → is_Some (final_rows rows !! (uuid_String company, uuid_String interview, n)).
Proof.
  intros H n Hn. unfold CaughtUp in H. apply andb_true_iff in H as [_ H]. cbn [Present progress_query] in H. bool_prop.
  set (sequences := map _ _) in H. set (l := remove_dups _) in H.
  assert (Hl : ∀ x, x ∈ l → x ∈ sequences ∧ 1 ≤ x ≤ upTo).
  { intros x [Hx Hr]%elem_of_remove_dups%elem_of_filter_bool. apply andb_true_iff in Hr as [? ?]. bool_prop. done. }
  assert (l ≡ₚ seqZ 1 upTo) as Hp.
  { apply submseteq_length_Permutation.
    - apply NoDup_submseteq; [apply NoDup_remove_dups|]. intros x Hx%Hl. apply elem_of_seqZ. lia.
    - rewrite length_seqZ. lia. }
  assert (n ∈ l) as [Hin _]%Hl by (rewrite Hp; apply elem_of_seqZ; lia).
  apply list_elem_of_fmap in Hin as (r & -> & [Hr Hk]%elem_of_filter_bool). unfold of_interview in Hk. bool_prop.
  apply final_dom. exists r. split; [done|]. unfold row_key. congruence.
Qed.

(** The timeline of a session: its rows of [FINAL] up to the trigger, one per
    sequence number, in order. *)
Definition session_timeline (trigger : Trigger) (rows : list Row) (timeline : list Metrics.Event) : Prop :=
  StronglySorted seq_lt timeline ∧
  ∀ e, e ∈ timeline ↔ ∃ r, e = event_of r ∧ Row_SessionID r = Some (uuid_String (Trigger_SessionID trigger)) ∧
    Row_SequenceNumber r ≤ Trigger_SequenceNumber trigger ∧
    final_rows rows !! (uuid_String (Trigger_CompanyID trigger), uuid_String (Trigger_InterviewID trigger),
                        Row_SequenceNumber r) = Some r.

Lemma timeline_row company interview session upTo rows r :
  r ∈ timeline_rows company interview session upTo rows ↔
  Row_SessionID r = Some (uuid_String session) ∧ Row_SequenceNumber r ≤ upTo ∧
  final_rows rows !! (uuid_String company, uuid_String interview, Row_SequenceNumber r) = Some r.
Proof.
  unfold timeline_rows. rewrite elem_of_filter_bool. unfold of_interview. split.
  - intros [Hin Hb]. bool_prop. apply list_elem_of_fmap in Hin as ([k x] & -> & Hin%elem_of_map_to_list). cbn in *.
    pose proof Hin as Hk. rewrite final_lookup in Hk. apply newest_of_some in Hk as [_ <-]. unfold row_key in Hin.
    split_and!; [done|done|]. match goal with H1 : Row_CompanyID x = _, H2 : Row_InterviewID x = _ |- _ => rewrite <-H1, <-H2 end. exact Hin.
  - intros (Hs & Hle & Hf). split.
    + apply list_elem_of_fmap. eexists (_, r). split; [done|]. by apply elem_of_map_to_list.
    + pose proof Hf as Hk. rewrite final_lookup in Hk. apply newest_of_some in Hk as [_ [= H1 H2]].
      rewrite !bool_decide_eq_true_2 by done. cbn. by apply Z.leb_le.
Qed.

Lemma sorted_strict l : StronglySorted (not_less seq_less) l → NoDup (map Event_SequenceNumber l) → StronglySorted seq_lt l.
Proof.
  induction 1 as [|e l Hl IH He]; cbn; intros Hn; [constructor|]. apply NoDup_cons in Hn as [Hn Hd].
  constructor; [by apply IH|]. apply Forall_forall. intros x Hx.
  rewrite Forall_forall in He. specialize (He x Hx). unfold not_less, seq_less in He. bool_prop. unfold seq_lt.
  assert (Event_SequenceNumber x ≠ Event_SequenceNumber e); [|lia].
  intros E. apply Hn. rewrite <-E. by apply list_elem_of_fmap_2.
Qed.

Lemma NoDup_sequences company interview session upTo rows :
  NoDup (map Event_SequenceNumber (map event_of (timeline_rows company interview session upTo rows))).
Proof.
  rewrite map_map. apply NoDup_fmap_2_strong.
  - intros x y [_ [_ Hx]]%timeline_row [_ [_ Hy]]%timeline_row E. cbn in E. rewrite E in Hx. congruence.
  - unfold timeline_rows. apply NoDup_ListNoDup, List.NoDup_filter, NoDup_ListNoDup.
    apply NoDup_fmap_2_strong; [|apply NoDup_map_to_list].
    intros [k1 r1] [k2 r2] H1%elem_of_map_to_list H2%elem_of_map_to_list E. cbn in E. subst r2.
    rewrite final_lookup in H1, H2. apply newest_of_some in H1 as [_ <-]. apply newest_of_some in H2 as [_ <-]. done.
Qed.

Lemma timeline_session trigger rows :
  session_timeline trigger rows (timeline_query (Trigger_CompanyID trigger) (Trigger_InterviewID trigger)
    (Trigger_SessionID trigger) (Trigger_SequenceNumber trigger) rows).
Proof.
  unfold timeline_query. split.
  - apply sorted_strict; [apply sorted_by_seq|]. rewrite sort_stable_perm. apply NoDup_sequences.
  - intros e. rewrite sort_stable_perm, list_elem_of_fmap. setoid_rewrite timeline_row. naive_solver.
Qed.

(** ** One scoring *)

(** The provider and the other processes only add to the operational store. *)
Definition provider_quiet (rec : option recommender) : Prop := ∀ r request fs s, rec = Some r →
  grows_w (world s) (world (Gateway.Provider_Stream (rec_Provider r) request (λ _, mret ()) fs s).2).
Definition others_quiet (env : surroundings) : Prop := ∀ s, grows_w (world s) (world (meanwhile env s)).
Definition grows_s (s s' : S) : Prop := grows_w (world s) (world s').
#[local] Instance grows_s_preorder : PreOrder grows_s.
Proof. split; [intros s; unfold grows_s; reflexivity|intros s1 s2 s3; unfold grows_s; apply transitivity]. Qed.

Lemma stays_in_world {A} (m : M World A) : stays grows_w m → stays grows_s (in_world m).
Proof.
  intros Hm fs s. unfold state_after, in_world, grows_s. specialize (Hm fs (world s)). unfold state_after in Hm.
  destruct (m fs (world s)) as [[r fs1] w]. cbn in *. by rewrite world_with.
Qed.
Lemma stays_save_errors {A} (m : M S A) : stays grows_s m → stays grows_s (save_errors m).
Proof. intros Hm fs s. specialize (Hm fs s). unfold state_after, save_errors in *. by destruct (m fs s) as [[[]?]?]. Qed.

Lemma Recommend_state r env m fs s :
  provider_quiet (Some r) → grows_s s (Recommend r env m fs s).2.
Proof.
  intros Hq. unfold Recommend. destruct (recommendation_input m) as [input|e]; [|cbn; reflexivity].
  match goal with |- context [Gateway.Provider_Stream _ ?q _ _ _] => specialize (Hq r q fs s eq_refl) end.
  destruct (Gateway.Provider_Stream _ _ _ _ _) as [[[[deltas res] [e|]] fs1] s1]; [exact Hq|].
  destruct (ParseRecommendation _); exact Hq.
Qed.

Lemma stays_recommend rec env score : provider_quiet rec → stays grows_s (recommend rec env score).
Proof.
  intros Hq fs s. unfold state_after, recommend. destruct rec as [r|]; [|cbn; reflexivity].
  pose proof (Recommend_state r env (Score_Metrics score) fs s Hq) as H.
  destruct (Recommend _ _ _ _ _) as [[[answer model] fs1] s1]. exact H.
Qed.

Lemma stays_ScoreTrigger rec env trigger final :
  provider_quiet rec → others_quiet env → stays grows_s (ScoreTrigger rec env trigger final).
Proof.
  intros Hr Ho. unfold ScoreTrigger, score_session.
  apply stays_bind; [apply _| |intros []; [apply stays_ret; apply _|]].
  { apply stays_wrapM, stays_in_world. unfold ScoreExists. apply stays_wrapM, grows_sql. by intros ? ? ? [= _ <-]. }
  apply stays_bind; [apply _|do 2 apply stays_wrapM; apply stays_query; apply _|intros p].
  destruct (_ && _); [apply stays_throw; apply _|].
  apply stays_bind; [apply _|intros fs s; apply Ho|intros _].
  apply stays_bind; [apply _|do 2 apply stays_wrapM; apply stays_query; apply _|intros timeline].
  apply stays_bind; [apply _|apply stays_lift; apply _|intros computed].
  apply stays_bind; [apply _|by apply stays_recommend|intros score].
  apply stays_bind; [apply _|apply stays_save_errors, stays_in_world, stays_SaveScore|intros saved].
  apply stays_ret; apply _.
Qed.

Lemma recommend_ok rec env score fs s r fs' s' :
  recommend rec env score fs s = (r, fs', s') → ∃ score', r = Ok score' ∧
    ∃ answer model err, score' = with_recommendation score answer model err.
Proof.
  unfold recommend. destruct rec as [r0|].
  - destruct (Recommend _ _ _ _ _) as [[[[] model] fs1] s1]; intros [= <- <- <-]; eauto 8.
  - intros [= <- <- <-]; eauto 8.
Qed.

Lemma save_errors_ok {A} (m : M S A) fs s a fs' s' : save_errors m fs s = (Ok a, fs', s') → m fs s = (Ok a, fs', s').
Proof. unfold save_errors. destruct (m fs s) as [[[]?]?]; by intros [= -> -> ->]. Qed.

(** What a scoring that succeeds did. *)
Lemma ScoreTrigger_ok rec env trigger final fs s o fs' s' :
  ScoreTrigger rec env trigger final fs s = (Ok o, fs', s') →
  provider_quiet rec → others_quiet env → (∀ w s, log (with_world w s) = log s) →
  sequences_ok (tables (world s)) →
  let key := (Trigger_CompanyID trigger, Trigger_SessionID trigger) in
  match o with
  | OutcomeAlreadyScored => is_Some (t_scores (tables (world s')) !! key)
  | OutcomeScored => ∃ s1 timeline score,
      log s1 = log s ∧
      let complete := CaughtUp (progress_query (Trigger_CompanyID trigger) (Trigger_InterviewID trigger)
        (Trigger_SequenceNumber trigger) (log s1)) (Trigger_SequenceNumber trigger) in
      complete || final = true ∧
      timeline = timeline_query (Trigger_CompanyID trigger) (Trigger_InterviewID trigger)
        (Trigger_SessionID trigger) (Trigger_SequenceNumber trigger) (log (meanwhile env s1)) ∧
      Compute timeline = Ok (Score_Metrics score) ∧
      (∃ answer model err, score = with_recommendation
         (score_of trigger (Score_Metrics score) complete (scored_at env)) answer model err) ∧
      t_scores (tables (world s)) !! key = None ∧ t_scores (tables (world s')) !! key = Some score
  end.
Proof.
  intros H Hr Ho Hlog Hseq key. unfold ScoreTrigger, score_session in H.
  apply bind_M_ok in H as (ex & fs1 & s1 & H1 & H). apply wrapM_ok in H1.
  assert (Hs1 : log s1 = log s ∧ tables (world s1) = tables (world s) ∧
    ex = bool_decide (is_Some (t_scores (tables (world s)) !! key))).
  { unfold in_world in H1. destruct (ScoreExists _ _ fs (world s)) as [[r0 fs0] w] eqn:E. simplify_eq.
    unfold ScoreExists in E. apply wrapM_ok, sql_ok in E as (t & [= <- <-] & Hw).
    rewrite Hlog, world_with. split_and!; [done| |done]. by rewrite Hw. }
  destruct Hs1 as (Hl1 & Ht1 & ->).
  case_bool_decide as Ex; [injection H as <- <- <-; rewrite Ht1; exact Ex|].
  apply bind_M_ok in H as (p & fs2 & s2 & H2 & H). do 2 apply wrapM_ok in H2. apply query_ok in H2 as [-> ->].
  set (complete := CaughtUp _ _) in H.
  destruct (negb _ && negb _) eqn:Eb; [done|].
  apply bind_M_ok in H as ([] & fs3 & s3 & H3 & H). injection H3 as <- <-.
  apply bind_M_ok in H as (timeline & fs4 & s4 & H4 & H). do 2 apply wrapM_ok in H4. apply query_ok in H4 as [-> ->].
  apply bind_M_ok in H as (computed & fs5 & s5 & H5 & H). injection H5 as H5 <- <-.
  apply bind_M_ok in H as (score & fs6 & s6 & H6 & H).
  assert (grows_s (meanwhile env s1) s6) as Hg6.
  { pose proof (stays_recommend rec env (score_of trigger computed complete (scored_at env)) Hr fs4 (meanwhile env s1)) as Hg.
    unfold state_after in Hg. by rewrite H6 in Hg. }
  assert (sequences_ok (tables (world s6))) as Hseq6.
  { apply Hg6, (Ho s1). by rewrite Ht1. }
  apply recommend_ok in H6 as (score' & [= <-] & answer & model & err & ->).
  apply bind_M_ok in H as (saved & fs7 & s7 & H7 & H). apply save_errors_ok, in_world_ok in H7 as (w7 & H7 & Hw7).
  apply SaveScore_ok in H7; [|done]. injection H as <- <- <-. rewrite Hw7.
  destruct saved; [|exact H7]. destruct H7 as [_ H7].
  exists s1, (timeline_query (Trigger_CompanyID trigger) (Trigger_InterviewID trigger) (Trigger_SessionID trigger)
    (Trigger_SequenceNumber trigger) (log (meanwhile env s1))), (with_recommendation (score_of trigger computed complete (scored_at env)) answer model err).
  assert (Hc : Compute (timeline_query (Trigger_CompanyID trigger) (Trigger_InterviewID trigger) (Trigger_SessionID trigger)
    (Trigger_SequenceNumber trigger) (log (meanwhile env s1))) = Ok computed).
  { unfold permanent in H5. destruct (Compute _); congruence. }
  split; [done|]. cbv zeta. fold complete. split; [by destruct complete, final|]. split; [done|]. split; [exact Hc|].
  split; [by eexists _, _, _|]. split; [by apply eq_None_not_Some|exact H7].
Qed.

(** *** Failures that are not [ErrBehind] *)
Definition not_behind (e : error) : Prop := errors_is e ErrBehind = false.
Lemma not_behind_wrap msg e : not_behind e → not_behind (Wrap msg e).
Proof. unfold not_behind. intros H. cbn. by rewrite H. Qed.
Lemma not_behind_permanent e : not_behind e → not_behind (PermanentError e).
Proof. unfold not_behind. intros H. cbn. by rewrite H. Qed.

Ltac fails_chain :=
  repeat first
    [ apply fails_ret | apply fails_throw | apply fails_query | apply fails_batch | apply fails_transaction
    | apply fails_bind; [|intros ?] | apply fails_wrapM | apply fails_on_error | apply fails_replace_error
    | apply fails_lift | progress case_match | apply not_behind_wrap | done ].

Lemma fails_sql {A} (f : Tables → result (A * Tables)) :
  (∀ t e, f t = Err e → not_behind e) → fails not_behind (sql f).
Proof.
  intros Hf. apply fails_stmt. intros s e. unfold sql. destruct (f (tables s)) as [[a t]|e1] eqn:E; cbn; [done|].
  intros [= <-]. by eapply Hf.
Qed.

Lemma fails_in_world {A} (m : M World A) : fails not_behind m → fails not_behind (in_world m).
Proof.
  intros Hm fs s r fs' s' H Hf. unfold in_world in H. destruct (m fs (world s)) as [[r1 fs1] w] eqn:E. simplify_eq.
  by eapply Hm.
Qed.
Lemma fails_save_errors {A} (m : M S A) : fails not_behind m → fails not_behind (save_errors m).
Proof.
  intros Hm fs s r fs' s' H Hf. unfold save_errors in H. destruct (m fs s) as [[r1 fs1] s1] eqn:E.
  destruct (Hm _ _ _ _ _ E Hf) as [? He]. destruct r1; simplify_eq; split; try done.
  intros e1 [= <-]. specialize (He _ eq_refl). destruct (errors_is _ _); [by apply not_behind_permanent|by apply not_behind_wrap].
Qed.

(** Pure results whose error is not [ErrBehind]. *)
Definition errs {A} (r : result A) : Prop := ∀ e, r = Err e → not_behind e.
Lemma errs_bind {A B} (m : result A) (f : A → result B) : errs m → (∀ a, errs (f a)) → errs (m ≫= f).
Proof. intros Hm Hf e. destruct m as [a|e']; cbn; [apply Hf|]. intros [= <-]. by apply Hm. Qed.
Lemma errs_wrap {A} msg (m : result A) : errs m → errs (wrap_err msg m).
Proof. intros Hm e. destruct m as [a|e']; cbn; [done|]. intros [= <-]. by apply not_behind_wrap, Hm. Qed.
Lemma errs_marshal sps vs : errs (marshal sps vs).
Proof. intros e. unfold marshal. case_match; [done|]. by intros [= <-]. Qed.

Lemma errs_message env score n : errs (event_random env) → errs (scoreComputedMessage env score n).
Proof.
  intros Hr. unfold scoreComputedMessage, Events.New, NewMessage. apply errs_bind; [apply errs_marshal|intros m].
  apply errs_bind; [apply errs_bind; [apply errs_wrap, errs_marshal|intros body]|intros env0].
  - apply errs_bind; [by apply errs_wrap|intros bytes e; done].
  - destruct (_ || _); [by intros e [= <-]|]. destruct (uuid_Parse _); [|by intros e [= <-]].
    apply errs_bind; [apply errs_wrap, errs_marshal|intros body e; done].
Qed.

Lemma errs_decode_payload (P : Type) `{Payload P} e : errs (decode_payload P e).
Proof. intros e'. unfold decode_payload. case_match; [done|]. by intros [= <-]. Qed.

Lemma errs_Compute timeline : errs (Compute timeline).
Proof.
  unfold Compute. apply errs_bind; [|intros acc e; done]. generalize (mkAcc zero_metrics zero_time zero_time zero_time (-1)).
  induction (Dedupe timeline) as [|x l IH]; intros acc; cbn [compute_loop]; [intros e; done|].
  apply errs_bind; [|apply IH]. unfold compute_step, compute_payload.
  repeat first [apply errs_bind; [apply errs_decode_payload|intros ?] | case_match]; intros e; done.
Qed.

Lemma fails_SaveScore score now build :
  (∀ n, errs (build n)) → fails not_behind (SaveScore score now build).
Proof.
  intros Hb. unfold SaveScore, save_score_body, ScoreExists, allocateSequence, insertOutbox.
  fails_chain; try apply fails_sql; try apply Hb; intros t e; unfold insert_score, advance_sequence, insert_outbox_row;
    intros; split_match; done.
Qed.

(** The provider hands back the rest of the script. *)
Definition provider_script (rec : option recommender) : Prop := ∀ r request fs s, rec = Some r → faults_in not_behind fs →
  faults_in not_behind (Gateway.Provider_Stream (rec_Provider r) request (λ _, mret ()) fs s).1.2.

Lemma fails_recommend rec env score : provider_script rec → fails not_behind (recommend rec env score).
Proof.
  intros Hp fs s r fs' s' H Hf. unfold recommend in H. destruct rec as [r0|]; [|by simplify_eq].
  destruct (Recommend _ _ _ _ _) as [[[answer model] fs1] s1] eqn:E. simplify_eq. split; [|done].
  unfold Recommend in E. destruct (recommendation_input _); [|by simplify_eq].
  match type of E with context [Gateway.Provider_Stream _ ?q _ _ _] => specialize (Hp r0 q fs s eq_refl Hf) end.
  destruct (Gateway.Provider_Stream _ _ _ _ _) as [[[[deltas res] [e|]] fs2] s2]; [by simplify_eq|].
  destruct (ParseRecommendation _); by simplify_eq.
Qed.

Lemma fails_session rec env trigger complete :
  provider_script rec → errs (event_random env) → fails not_behind (score_session rec env trigger complete).
Proof.
  intros Hp Hr. apply fails_bind; [by intros fs s r fs' s' [= <- <- <-]|intros _].
  apply fails_bind; [by repeat (apply fails_wrapM; [apply not_behind_wrap|]); apply fails_query|intros timeline].
  apply fails_bind; [|intros computed].
  { apply fails_lift. unfold permanent. pose proof (errs_Compute timeline) as Hc.
    destruct (Compute timeline) as [|e0] eqn:E; [done|]. intros e [= <-]. by apply not_behind_permanent, not_behind_wrap, Hc. }
  apply fails_bind; [by apply fails_recommend|intros score].
  apply fails_bind; [|intros saved; apply fails_ret].
  apply fails_save_errors, fails_in_world, fails_SaveScore. intros n. by apply errs_message.
Qed.

(** A scoring hands back the rest of the script; only one that is not final
    can be told that the log is behind. *)
Lemma ScoreTrigger_fails rec env trigger final fs s r fs' s' :
  provider_script rec → errs (event_random env) → ScoreTrigger rec env trigger final fs s = (r, fs', s') →
  faults_in not_behind fs → faults_in not_behind fs' ∧ (final = true → ∀ e, r = Err e → not_behind e).
Proof.
  intros Hp Hr H Hf. unfold ScoreTrigger in H.
  assert (Hall : ∀ {A} (m : M S A) (k : A → M S Outcome), fails not_behind m → (m ≫= k) fs s = (r, fs', s') →
    (∀ a fs1 s1, faults_in not_behind fs1 → k a fs1 s1 = (r, fs', s') →
      faults_in not_behind fs' ∧ (final = true → ∀ e, r = Err e → not_behind e)) →
    faults_in not_behind fs' ∧ (final = true → ∀ e, r = Err e → not_behind e)).
  { intros A m k Hm [(a & fs1 & s1 & H1 & H2)|(e & H1 & ->)]%bind_M_cases Hk; destruct (Hm _ _ _ _ _ H1 Hf).
    - by eapply Hk.
    - split; [done|]. intros _ ? [= <-]. auto. }
  refine (Hall _ _ _ _ H _); clear Hall H.
  { apply fails_wrapM; [apply not_behind_wrap|]. apply fails_in_world. unfold ScoreExists.
    apply fails_wrapM; [apply not_behind_wrap|]. by apply fails_sql. }
  intros [] fs1 s1 Hf1 H; [by injection H as <- <- <-|].
  apply bind_M_cases in H as [(p & fs2 & s2 & H1 & H)|(e & H1 & ->)].
  all: assert (fails not_behind (wrapM "scoring: read event log progress" (wrapM "query event log progress"
    (query (λ s, progress_query (Trigger_CompanyID trigger) (Trigger_InterviewID trigger)
       (Trigger_SequenceNumber trigger) (log s)))))) as Hm
    by (repeat (apply fails_wrapM; [apply not_behind_wrap|]); apply fails_query);
    destruct (Hm _ _ _ _ _ H1 Hf1) as [Hf2 He].
  - destruct (negb _ && negb final) eqn:E.
    + injection H as <- <- <-. split; [done|]. intros ->. by rewrite andb_false_r in E.
    + destruct (fails_session rec env trigger _ Hp Hr _ _ _ _ _ H Hf2). auto.
  - split; [done|]. intros _ ? [= <-]. auto.
Qed.

(** ** The consumer *)

(** Every attempt's event id, if it fails, fails with another error. *)
Definition ids_ok (env : Z → surroundings) : Prop := ∀ n, errs (event_random (env n)).

(** More fuel than there are attempts left makes no difference. *)
Lemma attempts_fuel config rec env trigger :
  provider_script rec → ids_ok env →
  ∀ k attempt fs s, faults_in not_behind fs → MaxAttempts config ≤ attempt + Z.of_nat k → ∀ fuel, (Datatypes.S k ≤ fuel)%nat →
    attempts fuel config (λ n, ScoreTrigger rec (env n)) trigger attempt fs s =
    attempts (Datatypes.S k) config (λ n, ScoreTrigger rec (env n)) trigger attempt fs s.
Proof.
  intros Hp Hr k. induction k as [|k IH]; intros attempt fs s Hf Hk fuel Hfuel;
    (destruct fuel as [|fuel]; [lia|]); cbn [attempts];
    destruct (ScoreTrigger _ _ _ _ fs s) as [[[o|e] fs1] s1] eqn:E; try done;
    destruct (ScoreTrigger_fails _ _ _ _ _ _ _ _ _ Hp (Hr attempt) E Hf) as [Hf1 He].
  - assert (errors_is e ErrBehind = false) as ->; [|done]. apply He; [by apply Z.leb_le; lia|done].
  - destruct (errors_is e ErrBehind) eqn:Eb; [|done].
    destruct (sleep _ fs1 s1) as [[[u|e1] fs2] s2] eqn:Es; [|done]. apply IH; [|lia|lia].
    destruct fs1 as [|[] fs1]; cbn in Es; simplify_eq; [done|]. by apply Forall_cons in Hf1 as [_ ?].
Qed.

Lemma attempts_cases fuel config score trigger attempt fs s h fs' s' :
  (∀ n b, stays grows_s (score n trigger b)) →
  attempts fuel config score trigger attempt fs s = (Ok h, fs', s') →
  grows_s s s' ∧
  ((∃ o n fs1 s1 b, h = Scored trigger o n ∧ attempt ≤ n < attempt + Z.of_nat fuel ∧ grows_s s s1 ∧
     score n trigger b fs1 s1 = (Ok o, fs', s')) ∨
   ∃ e, h = Invalid e ∧ is_permanent e = true).
Proof.
  intros Hs. revert attempt fs s. induction fuel as [|fuel IH]; intros attempt fs s; [done|]. cbn [attempts].
  pose proof (Hs attempt (MaxAttempts config <=? attempt) fs s) as Hg. unfold state_after in Hg.
  destruct (score _ _ _ fs s) as [[[o|e] fs1] s1] eqn:E; cbn in Hg.
  - intros [= <- <- <-]. split; [done|]. left. exists o, attempt, fs, s. eexists. split; [done|].
    split; [lia|]. split; [reflexivity|exact E].
  - destruct (errors_is e ErrBehind).
    + destruct (sleep _ fs1 s1) as [[[u|e1] fs2] s2] eqn:Es; [|done].
      apply query_ok in Es as [_ ->]. intros [Hg1 Hh]%IH. split; [by etransitivity|].
      destruct Hh as [(o & n & fs3 & s3 & b & ? & ? & ? & ?)|?]; [left|by right].
      exists o, n, fs3, s3, b. split_and!; [done|lia|lia|by etransitivity|done].
    + destruct (is_permanent e) eqn:Ep; [|done]. intros [= <- <- <-]. split; [done|]. right. eauto.
Qed.

(** How a committed message was handled. *)
Definition handled_ok (config : ConsumerConfig) (s : S) (value : RawMessage) (h : handling) : Prop :=
  match unmarshal_envelope value with
  | None => ∃ e, h = Invalid e
  | Some envelope =>
      match ParseTrigger envelope with
      | Err _ => ∃ e, h = Invalid e
      | Ok None => h = Skipped
      | Ok (Some t) =>
          (∃ o n, h = Scored t o n ∧ 1 ≤ n ≤ MaxAttempts config ∧
            is_Some (t_scores (tables (world s)) !! (Trigger_CompanyID t, Trigger_SessionID t))) ∨
          (∃ e, h = Invalid e ∧ is_permanent e = true)
      end
  end.

Lemma handled_grows config s s' value h : grows_s s s' → handled_ok config s value h → handled_ok config s' value h.
Proof.
  intros Hg. unfold handled_ok. destruct (unmarshal_envelope value); [|done]. destruct (ParseTrigger _) as [[t|]|]; try done.
  intros [(o & n & ? & ? & [x Hx])|?]; [left|by right]. exists o, n. split_and!; try done; try lia. exists x. by apply Hg.
Qed.

Lemma handle_spec config rec env ctx value fs s h fs' s' :
  handle config (λ n, ScoreTrigger rec (env n)) ctx value fs s = (Ok h, fs', s') →
  provider_quiet rec → (∀ n, others_quiet (env n)) → (∀ w s, log (with_world w s) = log s) →
  sequences_ok (tables (world s)) → grows_s s s' ∧ handled_ok config s' value h.
Proof.
  intros H Hr Ho Hlog Hseq. unfold handle in H. unfold handled_ok.
  destruct (unmarshal_envelope value) as [envelope|]; [|injection H as <- <- <-; split; [reflexivity|eauto]].
  destruct (ParseTrigger envelope) as [[t|]|e]; [|injection H as <- <- <-; split; [reflexivity|eauto]..].
  destruct (attempts _ _ _ _ _ fs s) as [[[h1|e] fs1] s1] eqn:E; [|done]. injection H as <- <- <-.
  apply attempts_cases in E as [Hg Hh]; [|intros n b; by apply stays_ScoreTrigger].
  split; [done|]. destruct Hh as [(o & n & fs2 & s2 & b & -> & Hn & Hg2 & Hs)|?]; [left|by right].
  exists o, n. split; [done|]. split; [lia|].
  apply ScoreTrigger_ok in Hs; [|done|done|done|by apply Hg2].
  destruct o; [|exact Hs]. destruct Hs as (s3 & tl & sc & _ & _ & _ & _ & _ & _ & Hx). by eexists.
Qed.
Lemma stays_handle config score ctx value :
  (∀ n t b, stays grows_s (score n t b)) → stays grows_s (handle config score ctx value).
Proof.
  intros Hs fs s. unfold state_after, handle. destruct (unmarshal_envelope value) as [envelope|]; [|cbn; reflexivity].
  destruct (ParseTrigger envelope) as [[t|]|e]; [|cbn; reflexivity..].
  assert (Ha : ∀ fuel n fs s, grows_s s (attempts fuel config score t n fs s).2).
  { intros fuel. induction fuel as [|fuel IH]; intros n fs1 s1; cbn [attempts]; [cbn; reflexivity|].
    specialize (Hs n t (MaxAttempts config <=? n) fs1 s1). unfold state_after in Hs.
    destruct (score _ _ _ fs1 s1) as [[[o|e] fs2] s2]; [exact Hs|]. cbn in Hs.
    destruct (errors_is e ErrBehind); [|destruct (is_permanent e); exact Hs].
    destruct (sleep _ fs2 s2) as [[[u|e1] fs3] s3] eqn:Es; apply query_cases in Es as [-> _]; [|exact Hs].
    etransitivity; [exact Hs|apply IH]. }
  specialize (Ha (Z.to_nat (MaxAttempts config)) 1 fs s). by destruct (attempts _ _ _ _ _ fs s) as [[[] ?] ?].
Qed.
End Service.

(** C6: a score is faithful to the event log.  A scoring that reports it
    scored stored, for a session that had none, a score of the trigger whose
    metrics are those of the session's timeline as [FINAL] has it, each
    sequence number once and in order; if it is marked complete the log held
    every event of the interview up to the trigger, and only the last attempt
    may store an incomplete one. *)
Theorem score_faithful `{UuidLib} {S} `{HasWorld S} (log : S → list Row) FormatFloat rec env trigger final fs s fs' s' :
  ScoreTrigger log FormatFloat rec env trigger final fs s = (Ok OutcomeScored, fs', s') →
  provider_quiet rec → others_quiet env → (∀ w s, log (with_world w s) = log s) →
  (∀ s, dom (final_rows (log s)) ⊆ dom (final_rows (log (meanwhile env s)))) →
  sequences_ok (tables (world s)) →
  let key := (Trigger_CompanyID trigger, Trigger_SessionID trigger) in
  ∃ s1 timeline score, log s1 = log s ∧
    t_scores (tables (world s)) !! key = None ∧ t_scores (tables (world s')) !! key = Some score ∧
    session_timeline trigger (log (meanwhile env s1)) timeline ∧ Compute timeline = Ok (Score_Metrics score) ∧
    Score_InterviewID score = Trigger_InterviewID trigger ∧ Score_Trigger score = Trigger_EventType trigger ∧
    (MetricsComplete score = false → final = true) ∧
    (MetricsComplete score = true → ∀ n, 1 ≤ n ≤ Trigger_SequenceNumber trigger →
       is_Some (final_rows (log (meanwhile env s1)) !!
         (uuid_String (Trigger_CompanyID trigger), uuid_String (Trigger_InterviewID trigger), n))).
Proof.
  intros Hs Hp Ho Hlog Hkeep Hseq key.
  destruct (ScoreTrigger_ok log FormatFloat _ _ _ _ _ _ _ _ _ Hs Hp Ho Hlog Hseq)
    as (s1 & timeline & score & Hl & Hf & -> & Hc & (answer & model & err & ->) & Hn & Hx).
  exists s1. eexists. eexists. split; [exact Hl|]. split; [exact Hn|]. split; [exact Hx|].
  split; [apply timeline_session|]. split; [exact Hc|]. split; [done|]. split; [done|]. cbn [MetricsComplete with_recommendation score_of].
  split.
  - intros E. by rewrite E in Hf.
  - intros E n Hr. apply elem_of_dom, Hkeep, elem_of_dom. by eapply progress_present.
Qed.

(** C32: a committed session end is scored.  Whatever the consumer commits was
    handled: a session end has been tried at most [MaxAttempts] times and its
    session has a score when the run is over, or it failed permanently and was
    reported; other events are skipped, undecodable ones reported. *)
Theorem committed_sessions_scored `{UuidLib} {S} `{HasWorld S} (log : S → list Row) FormatFloat config rec turns s committed e s' :
  Run log FormatFloat config rec turns s = (committed, e, s') →
  provider_quiet rec → Forall (λ t, ∀ n, others_quiet (attempt_env t n)) turns →
  (∀ w s, log (with_world w s) = log s) → sequences_ok (tables (world s)) →
  Forall (λ c, handled_ok config s' c.1 c.2) committed.
Proof.
  intros HR Hp Ho Hlog. enough (sequences_ok (tables (world s)) →
    grows_s s s' ∧ Forall (λ c, handled_ok config s' c.1 c.2) committed) as Hx by (intros Hseq; by apply Hx).
  revert s committed HR. induction Ho as [|t turns Ho _ IH]; intros s committed HR Hseq; cbn [Run] in HR.
  { simplify_eq. split; [unfold grows_s; reflexivity|done]. }
  destruct (fetched t) as [value|e1]; [|simplify_eq; split; [unfold grows_s; reflexivity|done]].
  pose proof (stays_handle config (λ n, ScoreTrigger log FormatFloat rec (attempt_env t n)) (ctx_err t) value
    (λ n t' b, stays_ScoreTrigger log FormatFloat rec _ t' b Hp (Ho n)) (turn_faults t) s) as Hg.
  unfold state_after in Hg.
  destruct (handle _ _ _ _ _ s) as [[[h|e1] fs1] s1] eqn:E; [|by simplify_eq].
  apply (handle_spec log FormatFloat) in E as [_ Hh]; [|done..].
  destruct (wrapM _ _ fs1 s1) as [[[u|e1] fs2] s2] eqn:Ec; apply wrapM_cases in Ec as (r0 & [-> _]%query_cases & _).
  - destruct (Run _ _ _ _ turns s1) as [[committed1 e1] s3] eqn:E1. simplify_eq.
    destruct (IH _ _ E1) as [Hg1 Hc1]; [by apply Hg|].
    split; [unfold grows_s in *; by etransitivity|].
    constructor; [by eapply handled_grows|done].
  - simplify_eq. split; [done|]. destruct fs1 as [|[] fs1]; constructor; done.
Qed.

(** The wait doubles up to its bound; within a bound of 2^62 ns (146 years)
    doubling does not wrap. *)
Lemma backoff_loop_spec n wait max_ :
  0 < wait ≤ max_ → max_ ≤ 2 ^ 62 → Z.min (backoff_loop n wait max_) max_ = Z.min (wait * 2 ^ Z.of_nat n) max_.
Proof.
  intros Hw Hm. assert (Hgen : ∀ w, 0 < w → w < 2 * max_ → Z.min (backoff_loop n w max_) max_ = Z.min (w * 2 ^ Z.of_nat n) max_);
    [|apply Hgen; lia].
  clear Hw wait. induction n as [|n IH]; intros w H0 Hlt; cbn [backoff_loop]; [f_equal; lia|].
  assert (0 < 2 ^ Z.of_nat n) by (apply Z.pow_pos_nonneg; lia).
  rewrite Nat2Z.inj_succ, Z.pow_succ_r by lia. destruct (w <? max_) eqn:E; bool_prop; [|nia].
  assert (mul64 w 2 = w * 2) as -> by (apply wrap64_id; unfold_int64; lia).
  rewrite IH by lia. f_equal. lia.
Qed.

Lemma Backoff_spec config n :
  NewConsumer config = Ok () → MaxBackoff config ≤ 2 ^ 62 → 1 ≤ n →
  Backoff config n = Z.min (BaseBackoff config * 2 ^ (n - 1)) (MaxBackoff config).
Proof.
  unfold NewConsumer. destruct (_ || _) eqn:E; [done|]. intros _ Hm Hn. bool_prop. unfold Backoff.
  rewrite backoff_loop_spec by lia. by rewrite Z2Nat.id by lia.
Qed.

(** C33: a trigger is tried a bounded number of times.  If no fault is the
    service's own "behind", the retries of a trigger end by the attempt
    [MaxAttempts]: more attempts would change nothing.  Between two attempts
    the wait doubles from the base up to the maximum. *)
Theorem retries_end `{UuidLib} {S} `{HasWorld S} (log : S → list Row) FormatFloat config rec env trigger fs s fuel :
  NewConsumer config = Ok () → provider_script rec → ids_ok env → faults_in not_behind fs →
  (Z.to_nat (MaxAttempts config) ≤ fuel)%nat → MaxBackoff config ≤ 2 ^ 62 →
  let score := λ n, ScoreTrigger log FormatFloat rec (env n) in
  attempts fuel config score trigger 1 fs s = attempts (Z.to_nat (MaxAttempts config)) config score trigger 1 fs s ∧
  ∀ n, 1 ≤ n → Backoff config n = Z.min (BaseBackoff config * 2 ^ (n - 1)) (MaxBackoff config).
Proof.
  intros Hc Hp Hr Hf Hfuel Hm score. split; [|intros n Hn; by apply Backoff_spec].
  clear Hm. unfold NewConsumer in Hc. destruct (_ || _) eqn:E; [done|]. bool_prop.
  subst score. replace (Z.to_nat (MaxAttempts config)) with (Datatypes.S (Z.to_nat (MaxAttempts config - 1))) in * by lia.
  refine (attempts_fuel log FormatFloat config rec env trigger Hp Hr _ 1 fs s Hf _ fuel Hfuel). lia.
Qed.

(** ** Recommendations *)
Definition error_codes : list string :=
  [RecommendationErrInvalidJSON; RecommendationErrProvider; RecommendationErrTimeout; RecommendationErrDisabled].

Lemma by_context_code (b : bool) : (if b then RecommendationErrTimeout else RecommendationErrProvider) ∈ error_codes.
Proof. unfold error_codes. destruct b; set_solver. Qed.

Lemma marshal_error sps vs e : marshal sps vs = Err e → ∃ msg, e = Plain msg.
Proof. unfold marshal. destruct (marshal_fields _ _); [done|]. intros [= <-]. eauto. Qed.
Lemma float_error FormatFloat f e : marshal_float FormatFloat f = Err e → ∃ msg, e = Plain msg.
Proof. unfold marshal_float. destruct f; try done; intros [= <-]; eauto. Qed.
Lemma input_error FormatFloat m e : recommendation_input FormatFloat m = Err e → ∃ msg, e = Plain msg.
Proof.
  unfold recommendation_input. intros [E|(body & _ & [E|(rate & _ & [E|(share & _ & E)]%bind_err)]%bind_err)]%bind_err;
    [by eapply marshal_error|by eapply float_error..|done].
Qed.

(** C34: the recommendation is advisory.  Asking for it never fails the score
    and changes nothing else of it: the score gets a recommendation a reply
    parsed to, and no error, or none, and one of the four stable codes. *)
Theorem recommendation_advisory {S} (FormatFloat : float64 → string) (rec : option (recommender (S:=S))) env score fs s :
  Score_Recommendation score = None → RecommendationError score = ""%string →
  ∃ score' fs' s', recommend FormatFloat rec env score fs s = (Ok score', fs', s') ∧
    score' = with_recommendation score (Score_Recommendation score') (RecommendationModel score') (RecommendationError score') ∧
    match Score_Recommendation score' with
    | Some r => RecommendationError score' = ""%string ∧ ∃ text, ParseRecommendation text = Ok r
    | None => RecommendationError score' ∈ error_codes
    end.
Proof.
  intros Hn He. unfold recommend. destruct rec as [r|].
  2:{ eexists _, _, _. split; [done|]. split; [done|]. cbn. rewrite Hn. unfold error_codes. set_solver. }
  destruct (Recommend _ _ _ _ _ _) as [[[answer model] fs1] s1] eqn:E. eexists _, _, _. split; [done|]. split; [by destruct answer|].
  destruct answer as [a|e]; cbn [Score_Recommendation RecommendationError with_recommendation].
  - split; [done|]. unfold Recommend in E. destruct (recommendation_input _ _); [|done].
    destruct (Gateway.Provider_Stream _ _ _ _ _) as [[[[deltas res] [e|]] fs2] s2]; [done|].
    destruct (ParseRecommendation _) eqn:Ep; [|done]. simplify_eq. eauto.
  - rewrite Hn. unfold recommendationErrorCode. unfold Recommend in E.
    destruct (recommendation_input FormatFloat (Score_Metrics score)) as [input|e1] eqn:Ei.
    + destruct (Gateway.Provider_Stream _ _ _ _ _) as [[[[deltas res] [e1|]] fs2] s2].
      * simplify_eq. cbn. destruct (stream_ctx env); cbn; unfold error_codes; set_solver.
      * destruct (ParseRecommendation _); simplify_eq. cbn. unfold error_codes; set_solver.
    + simplify_eq. assert (errors_as "scoring.RecommendationError" e = None) as ->; [|apply by_context_code].
      by apply input_error in Ei as [msg ->].
Qed.

Definition in_unit (c : float64) : Prop := SpecFloat.SFltb c f64_zero = false ∧ SpecFloat.SFltb f64_one c = false.

Lemma strict_fields {T} (fs : list (field T)) kvs t t' :
  decode_fields true fs kvs t = Some t' → Forall (λ kv, ∃ f, f ∈ fs ∧ fold_name f.1 = fold_name kv.1) kvs.
Proof.
  revert t. induction kvs as [|[k v] kvs IH]; intros t; cbn [decode_fields]; [constructor|].
  destruct (find_field fs k) as [f|] eqn:E; [|done]. intros (t1 & _ & H)%bind_Some. constructor; [|by eapply IH].
  exists f. split; [by eapply find_field_elem|]. unfold find_field in E. case_match eqn:E1; [simplify_eq; apply find_some in E1 as [_ E2]|apply find_some in E as [_ E2]];
    apply bool_decide_eq_true in E2; cbn [fst]; [by rewrite <-E2|done].
Qed.

(** A recommendation is exactly one well-formed object.  A text is
    accepted only if all of it is one JSON object whose keys are the three
    fields, with a known decision, a confidence in the unit interval and a
    rationale that is not blank; and every such recommendation, printed and
    followed by any white space, is read back. *)
Theorem ParseRecommendation_exact :
  (∀ text rec, ParseRecommendation text = Ok rec →
    is_decision (Decision rec) = true ∧ in_unit (Confidence rec) ∧ blank (Rationale rec) = false ∧
    ∃ fields, parse_json text = Some (JObject fields) ∧
      Forall (λ kv, fold_name kv.1 ∈ ["decision"; "confidence"; "rationale"]%string) fields) ∧
  (∀ rec literal space, is_decision (Decision rec) = true → in_unit (Confidence rec) → blank (Rationale rec) = false →
    valid_utf8 (Rationale rec) = true → lex_number literal = Some (literal, ""%string) →
    parse_float64 literal = Some (Confidence rec) → skip_space space = ""%string →
    ParseRecommendation (render (JObject [("decision"%string, JString (Decision rec)); ("confidence"%string, JNumber literal);
      ("rationale"%string, JString (Rationale rec))]) +:+ space) = Ok rec).
Proof.
  split.
  - intros text rec. unfold ParseRecommendation, unmarshal_strict. destruct (parse_json text) as [v|]; cbn; [|done].
    destruct (decode_struct true _ v _) as [[[d|] [c|] [r|]]|] eqn:E; try done.
    destruct (negb (is_decision d)) eqn:Ed; [done|]. destruct (_ || _) eqn:Ec; [done|].
    destruct (blank r) eqn:Eb; [done|]. intros [= <-]. bool_prop. split_and!; [done|done|done|].
    destruct v as [| | | | |kvs]; try done. exists kvs. split; [done|]. apply strict_fields in E.
    eapply Forall_impl; [exact E|]. intros [k x] (f & Hf & Hk). cbn [fst] in *. rewrite <-Hk.
    repeat (apply elem_of_cons in Hf as [->|Hf]; [cbn; set_solver|]). by apply elem_of_nil in Hf.
  - intros [d c r] literal space Hd [Hc1 Hc2] Hb Hr Hl Hf Hs. cbn [Decision Confidence Rationale] in *.
    unfold ParseRecommendation. match goal with |- context [parse_json (render ?j +:+ space)] =>
      destruct (parse_json_render j space) as [-> _]; [|done|] end.
    + cbn [wf forallb fst snd]. rewrite Hr, (bool_decide_eq_true_2 _ Hl). unfold is_decision in Hd. bool_prop.
      repeat (apply elem_of_cons in Hd as [->|Hd]; [by vm_compute|]). by apply elem_of_nil in Hd.
    + unfold unmarshal_strict. cbn [mbind option_bind decode_struct decode_fields].
      change (find_field recommendation_struct "decision") with (head recommendation_struct).
      change (find_field recommendation_struct "confidence") with (nth_error recommendation_struct 1).
      change (find_field recommendation_struct "rationale") with (nth_error recommendation_struct 2).
      cbn -[parse_float64 is_decision SpecFloat.SFltb f64_zero f64_one]. rewrite Hf.
      cbn -[is_decision SpecFloat.SFltb f64_zero f64_one]. by rewrite Hd, Hc1, Hc2, Hb.
Qed.

(** ** Witnesses: a submitted session whose log has arrived, and one whose log
    never does *)
Record Bench := mkBench { bench_world : World; bench_log : list Row }.
#[export] Instance Bench_world : HasWorld Bench.
Proof. refine {| world := bench_world; with_world w s := mkBench w (bench_log s) |}. done. Defined.

Definition example_recommender (reply : string) : recommender (S:=Bench) :=
  mkRecommender (Gateway.mkProvider "stub" (λ _ _ fs s,
    (([reply], Gateway.mkProviderResult "model-1" "" "end_turn" (Gateway.mkUsage 1 1), None), fs, s))) "" 0.
Definition example_reply : string :=
  quoted "{'decision': 'advance', 'confidence': 0.75, 'rationale': 'good'}".
Definition example_env : surroundings (S:=Bench) := mkSurroundings 100 200 id None None (Ok [1; 2; 3]) 100.
Definition example_uuid (u : UUID) : string := uuid_String (UuidLib:=BinUuid.lib) u.
Definition example_row (n : Z) (ty : EventType) : Row :=
  mkRow "e" (example_uuid 7%N) (example_uuid 3%N) n ty 1 (n * second) (Some (JObject [])) None None None
    (Some (example_uuid 5%N)) None None 0.
Definition example_trigger : Trigger := mkTrigger EventTypeSessionSubmitted 7%N 3%N 5%N 2.
Definition example_bench : Bench :=
  mkBench example_world [example_row 2 EventTypeSessionSubmitted; example_row 1 EventTypePromptSubmitted].
Definition example_lagging : Bench := mkBench example_world [example_row 2 EventTypeSessionSubmitted].
Definition example_format (f : float64) : string := "0".

Lemma example_provider_quiet reply : provider_quiet (Some (example_recommender reply)).
Proof. intros r request fs s [= <-]. cbn. unfold grows_w. reflexivity. Qed.
Lemma example_others_quiet : others_quiet example_env.
Proof. intros s. unfold grows_w. reflexivity. Qed.

Lemma score_faithful_witness :
  let run := ScoreTrigger (uuids:=BinUuid.lib) bench_log example_format (Some (example_recommender example_reply))
    example_env example_trigger false [] example_bench in
  let score := t_scores (tables (bench_world run.2)) !! (7%N, 5%N) in
  run.1.1 = Ok OutcomeScored ∧
  (Decision <$> (score ≫= Score_Recommendation)) = Some DecisionAdvance ∧
  PromptCount ∘ Score_Metrics <$> score = Some 1 ∧ MetricsComplete <$> score = Some true ∧
  t_scores (tables (bench_world example_bench)) !! (7%N, 5%N) = None.
Proof.
  cbv zeta. split; [vm_compute; reflexivity|]. split; [vm_compute; reflexivity|].
  split; [vm_compute; reflexivity|]. split; [vm_compute; reflexivity|].
  edestruct (score_faithful (H:=BinUuid.lib) bench_log example_format (Some (example_recommender example_reply)) example_env
    example_trigger false [] example_bench) as (s1 & tl & sc & _ & Hn & _);
    [|apply example_provider_quiet|apply example_others_quiet|done|done|exact example_sequences|exact Hn].
  vm_compute. reflexivity.
Defined.

Definition example_consumer : ConsumerConfig := mkConsumerConfig 3 second (2 * second).
Definition example_value : RawMessage :=
  match marshal_envelope (mkEnvelope "e" EventTypeSessionSubmitted 1 (example_uuid 7%N) 2 5000
    (Some (JObject [("session_id"%string, JString (example_uuid 5%N)); ("interview_id"%string, JString (example_uuid 3%N))]))) with
  | Ok j => Some j
  | Err _ => None
  end.

(** Two attempts find the log behind, the last one scores what it holds. *)
Lemma committed_sessions_scored_witness :
  let run := Run (uuids:=BinUuid.lib) bench_log example_format example_consumer (Some (example_recommender "no"))
    [mkTurn (Ok example_value) None (λ _, example_env) []; mkTurn (Ok None) None (λ _, example_env) []] example_lagging in
  map snd run.1.1 = [Scored example_trigger OutcomeScored 3; Invalid (Wrap "envelope" (Plain "json"))] ∧
  RecommendationError <$> t_scores (tables (bench_world run.2)) !! (7%N, 5%N) = Some RecommendationErrInvalidJSON ∧
  Forall (λ c, handled_ok (uuids:=BinUuid.lib) example_consumer run.2 c.1 c.2) run.1.1.
Proof.
  cbv zeta. split; [vm_compute; reflexivity|]. split; [vm_compute; reflexivity|].
  destruct (Run _ _ _ _ _ example_lagging) as [[committed e] s'] eqn:E.
  eapply (committed_sessions_scored (H:=BinUuid.lib) bench_log example_format);
    [exact E|apply example_provider_quiet|repeat constructor; apply example_others_quiet|done|exact example_sequences].
Defined.

Lemma retries_end_witness :
  attempts 100 example_consumer (λ n, ScoreTrigger (uuids:=BinUuid.lib) bench_log example_format None example_env)
    example_trigger 1 [] example_lagging =
  attempts 3 example_consumer (λ n, ScoreTrigger (uuids:=BinUuid.lib) bench_log example_format None example_env)
    example_trigger 1 [] example_lagging ∧ map (Backoff example_consumer) [1; 2; 3] = [second; 2 * second; 2 * second].
Proof.
  split; [|vm_compute; reflexivity].
  apply (retries_end (H:=BinUuid.lib) bench_log example_format example_consumer None (λ _, example_env) example_trigger []
    example_lagging 100); [vm_compute; reflexivity|done|done|constructor|vm_compute; lia|vm_compute; done].
Defined.

Lemma recommendation_advisory_witness :
  let score := score_of example_trigger zero_metrics true 0 in
  ∃ score' fs' s', recommend example_format (Some (example_recommender "no")) example_env score [] example_bench =
    (Ok score', fs', s') ∧ Score_Recommendation score' = None ∧ RecommendationError score' ∈ error_codes.
Proof.
  intros score.
  destruct (recommendation_advisory example_format (Some (example_recommender "no")) example_env score [] example_bench)
    as (score' & fs' & s' & H & _ & Hm); [done|done|].
  assert (Hn : Score_Recommendation score' = None).
  { vm_compute in H. injection H as <- _ _. reflexivity. }
  rewrite Hn in Hm. exists score', fs', s'. split; [exact H|]. split; [exact Hn|exact Hm].
Defined.

Lemma ParseRecommendation_exact_witness :
  ParseRecommendation (render (JObject [("decision"%string, JString DecisionHold); ("confidence"%string, JNumber "1.0");
    ("rationale"%string, JString "ok")]) +:+ String LF "") = Ok (mkRecommendation DecisionHold f64_one "ok") ∧
  is_ok (ParseRecommendation ("Sure! " +:+ example_reply)) = false ∧ is_ok (ParseRecommendation "null") = false.
Proof.
  split; [|vm_compute; done].
  apply (proj2 ParseRecommendation_exact (mkRecommendation DecisionHold f64_one "ok") "1.0" (String LF ""));
    try (vm_compute; reflexivity). split; vm_compute; reflexivity.
Defined.
