(* ===== verification/Byok.v ===== *)
(** * A company's own provider key (internal/aigateway/byok, internal/aigateway/key.go)

    The envelope a key is stored in (envelope.go) and the resolver that
    fetches, caches and hands out decrypted keys (resolver.go), with the
    process memory that holds key material explicit: which cells exist, who
    refers to them and whether they have been wiped.

    The resolver is concurrent.  Every critical section of its mutex is one
    step of a call, calls interleave freely with each other and with
    invalidation, sweeps and shutdown, and the clock, Secrets Manager and KMS
    answer each step as they like.  What an envelope may hold for a company is
    told from what Secrets Manager serves under the name of that company's secret
    ([opened]). *)
From S2P Require Import Prelude Str GoTime Json Codec Outbox Tx Gateway.

(** ** envelope.go *)
Definition envelopeVersion : Z := 1.

(** A [[]byte] is its bytes, or [None] for nil. *)
Record Envelope := mkEnvelope {
  Version : Z;
  KMSKeyID : string;
  EncryptedDataKey : option string;
  Nonce : option string;
  Ciphertext : option string;
}.
Definition Envelope_specs : list spec := [
  mkSpec "v" KInt false; mkSpec "kms_key_id" KString false; mkSpec "encrypted_data_key" KBytes false;
  mkSpec "nonce" KBytes false; mkSpec "ciphertext" KBytes false].
Definition envelope_values (e : Envelope) : list value :=
  [VInt (Version e); VString (KMSKeyID e); VBytes (EncryptedDataKey e); VBytes (Nonce e); VBytes (Ciphertext e)].
Definition envelope_of (vs : list value) : option Envelope :=
  match vs with
  | [VInt v; VString k; VBytes d; VBytes n; VBytes c] => Some (mkEnvelope v k d n c)
  | _ => None
  end.

Definition encryptionContext (companyID : string) : gmap string string :=
  <["company_id"%string := companyID]> {["purpose"%string := "ai-provider-key"%string]}.

(** KMS, and AES-256-GCM (crypto/aes, crypto/cipher) as authenticated
    encryption: what was sealed under a key, a nonce and additional data opens
    under exactly those; KMS decrypts a data key only for the encryption
    context it was generated with. *)
Class Crypto := {
  kms_encrypt : string → gmap string string → string → option string;  (* key id, context, data key *)
  kms_decrypt : option string → gmap string string → result string;
  aead_seal : string → string → string → string → string;       (* key, nonce, plaintext, additional data *)
  aead_open : string → string → string → string → option string;
  nonce_size : Z;
  kms_decrypt_encrypt : ∀ id ctx k, kms_decrypt (kms_encrypt id ctx k) ctx = Ok k;
  kms_decrypt_other : ∀ id ctx ctx' k, ctx' ≠ ctx → is_ok (kms_decrypt (kms_encrypt id ctx k) ctx') = false;
  kms_encrypt_blob : ∀ id ctx k, ∃ blob, kms_encrypt id ctx k = Some blob ∧ blob ≠ ""%string;
  aead_open_seal : ∀ k n p a, aead_open k n (aead_seal k n p a) a = Some p;
  aead_open_other : ∀ k n p a a', a' ≠ a → aead_open k n (aead_seal k n p a) a' = None;
  aead_seal_tag : ∀ k n p a, aead_seal k n p a ≠ ""%string;
  nonce_size_pos : 0 < nonce_size;
}.

Section Envelopes.
Context `{crypto : Crypto}.

Definition newAEAD (dataKey : string) : result () :=
  if negb (len dataKey =? 32) then Err (Plain "byok: data key is the wrong size") else Ok ().

(** [Seal]; [generated] is what [GenerateDataKey] answered and [nonce] what the
    random source filled the nonce with. *)
Definition Seal (generated : result (string * option string)) (nonce : result string)
    (keyID companyID apiKey : string) : result json :=
  match generated with
  | Err e => Err (Wrap "byok: generate data key" e)
  | Ok (dataKey, encryptedDataKey) =>
      _ ← newAEAD dataKey;
      match nonce with
      | Err e => Err (Wrap "byok: nonce" e)
      | Ok nonce =>
          marshal Envelope_specs (envelope_values
            (mkEnvelope envelopeVersion keyID encryptedDataKey (Some nonce)
               (Some (aead_seal dataKey nonce apiKey companyID))))
      end
  end.

(** The parts of [open] before and after KMS answers. *)
Definition decode_envelope (stored : RawMessage) : result Envelope :=
  match vs ← decode Envelope_specs stored (zero_struct Envelope_specs); envelope_of vs with
  | Some e =>
      if negb (Version e =? envelopeVersion) then Err (Plain "byok: unsupported envelope version") else Ok e
  | None => Err (Wrap "byok: decode envelope" (Plain "json"))
  end.
Definition open_with (dataKey companyID : string) (e : Envelope) : result string :=
  _ ← newAEAD dataKey;
  if negb (len (default ""%string (Nonce e)) =? nonce_size) then Err (Plain "byok: bad nonce")
  else match aead_open dataKey (default ""%string (Nonce e)) (default ""%string (Ciphertext e)) companyID with
       | Some plaintext => Ok plaintext
       | None => Err (Plain "byok: envelope does not open for this company")
       end.

(** [open], as a function of the stored value. *)
Definition open (companyID : string) (stored : RawMessage) : result string :=
  e ← decode_envelope stored;
  dataKey ← wrap_err "byok: decrypt data key" (kms_decrypt (EncryptedDataKey e) (encryptionContext companyID));
  open_with dataKey companyID e.

Lemma decode_envelope_marshal e :
  in_int64 (Version e) → coerce_utf8 (KMSKeyID e) = KMSKeyID e →
  EncryptedDataKey e ≠ Some ""%string → Nonce e ≠ Some ""%string → Ciphertext e ≠ Some ""%string →
  ∃ j, marshal Envelope_specs (envelope_values e) = Ok j ∧
    (vs ← decode Envelope_specs (Some j) (zero_struct Envelope_specs); envelope_of vs) = Some e.
Proof.
  intros Hv Hk Hd Hn Hc. destruct (decode_marshal Envelope_specs (envelope_values e)) as (j & Hj & Hdec).
  - apply (bool_decide_unpack _). by vm_compute.
  - unfold Envelope_specs, envelope_values. repeat (apply Forall2_cons; split; [done|]). constructor.
  - exists j. split; [done|]. rewrite Hdec. by destruct e.
Qed.

Lemma encryptionContext_inj c c' : encryptionContext c = encryptionContext c' → c = c'.
Proof.
  intros H. apply (f_equal (lookup "company_id"%string)) in H. unfold encryptionContext in H.
  rewrite !lookup_insert_eq in H. congruence.
Qed.

(** Envelopes.  What [Seal] stores for a company opens to the same key for
    that company, byte for byte, and for no other company. *)
Theorem envelope_opens_for_its_company dataKey nonce keyID companyID apiKey :
  len dataKey = 32 → len nonce = nonce_size → valid_utf8 keyID = true →
  ∃ stored,
    Seal (Ok (dataKey, kms_encrypt keyID (encryptionContext companyID) dataKey)) (Ok nonce) keyID companyID apiKey = Ok stored ∧
    open companyID (Some stored) = Ok apiKey ∧
    ∀ other, other ≠ companyID → is_ok (open other (Some stored)) = false.
Proof.
  intros Hd Hn Hk. unfold Seal, newAEAD. rewrite Hd. cbn.
  set (enc := kms_encrypt keyID (encryptionContext companyID) dataKey).
  set (e := mkEnvelope envelopeVersion keyID enc (Some nonce) (Some (aead_seal dataKey nonce apiKey companyID))).
  destruct (decode_envelope_marshal e) as (j & Hj & Hdec); cbn.
  - split; vm_compute; congruence.
  - unfold valid_utf8 in Hk. by bool_prop.
  - unfold enc. by destruct (kms_encrypt_blob keyID (encryptionContext companyID) dataKey) as (b & -> & Hb); intros [= ->].
  - intros [= ->]. change (len "") with 0 in Hn. pose proof nonce_size_pos. lia.
  - intros [= H]. by apply aead_seal_tag in H.
  - exists j. split; [exact Hj|]. unfold open, decode_envelope. rewrite Hdec. cbn. unfold enc. split.
    + rewrite kms_decrypt_encrypt. cbn. unfold open_with, newAEAD. rewrite Hd. cbn. by rewrite Hn, Z.eqb_refl, aead_open_seal.
    + intros other Ho. pose proof (kms_decrypt_other keyID (encryptionContext companyID) (encryptionContext other) dataKey) as Hk'.
      destruct (kms_decrypt _ _); [|done]. exfalso.
      assert (encryptionContext other ≠ encryptionContext companyID) as H by (intros H; by apply Ho, encryptionContext_inj).
      by specialize (Hk' H).
Qed.
End Envelopes.

(** ** key.go: key material in memory

    Every [Key] and every byte slice of key material is a cell; [next] is the
    first address never used. *)
Record Heap := mkHeap { cells : gmap key_ref string; next : key_ref }.

Definition alloc (v : string) (h : Heap) : key_ref * Heap :=
  (next h, mkHeap (<[next h := v]> (cells h)) (next h + 1)%N).
Definition content (k : key_ref) (h : Heap) : string := default ""%string (cells h !! k).
(** [Key.Zero] releases the bytes it overwrote; [zero] overwrites a slice. *)
Definition Zero (k : key_ref) (h : Heap) : Heap := mkHeap (alter (λ _, ""%string) k (cells h)) (next h).
Fixpoint zeros (n : nat) : string := match n with O => EmptyString | S n => String NUL (zeros n) end.
Definition zero (k : key_ref) (h : Heap) : Heap := mkHeap (alter (zeros ∘ String.length) k (cells h)) (next h).
Definition Clone (k : key_ref) (h : Heap) : key_ref * Heap := alloc (content k h) h.
Definition Zeroed (k : key_ref) (h : Heap) : bool := bool_decide (content k h = ""%string).

Fixpoint wiped (s : string) : bool :=
  match s with EmptyString => true | String a s => Ascii.eqb a NUL && wiped s end.

(** ** resolver.go *)
Definition ErrNoKey : error := Sentinel "byok.ErrNoKey".
Record Secret := mkSecret { Value : RawMessage; VersionID : string }.

Record Config := mkConfig { SecretPrefix : string; TTL : duration; VersionCheck : duration }.
(** [NewResolver]'s defaults. *)
Definition NewConfig (c : Config) : Config :=
  mkConfig (if bool_decide (SecretPrefix c = ""%string) then "ta-platform/companies/" else SecretPrefix c)
    (if TTL c <=? 0 then 5 * minute else TTL c) (VersionCheck c).

(** An [*entry]; no two entries have the same key, so the key tells pointers
    to entries apart. *)
Record entry := mkEntry { key : key_ref; version : string; expires : time; checkedAt : time }.

Definition load_id := N.
Record Resolver := mkResolver {
  heap : Heap;
  entries : gmap string entry;
  loads : gmap string load_id;
  (* a [*load]: [None] until it is done *)
  pendings : gmap load_id (option (result key_ref));
  next_load : load_id;
}.
Definition with_heap (f : Heap → Heap) (r : Resolver) : Resolver :=
  mkResolver (f (heap r)) (entries r) (loads r) (pendings r) (next_load r).
Definition set_entries (f : gmap string entry → gmap string entry) (r : Resolver) : Resolver :=
  mkResolver (heap r) (f (entries r)) (loads r) (pendings r) (next_load r).

Definition NewResolver : Resolver := mkResolver (mkHeap ∅ 0%N) ∅ ∅ ∅ 0%N.

Definition evictLocked (company : string) (r : Resolver) : Resolver :=
  match entries r !! company with
  | None => r
  | Some cached => set_entries (delete company) (with_heap (Zero (key cached)) r)
  end.
Definition Invalidate := evictLocked.

Definition expired (now : time) (e : entry) : bool := negb (before now (expires e)).
Definition Sweep (now : time) (r : Resolver) : Z * Resolver :=
  let old := (List.filter (λ kv, expired now kv.2) (map_to_list (entries r))).*1 in
  (Z.of_nat (length old), fold_right evictLocked r old).
Definition Close (r : Resolver) : Resolver := fold_right evictLocked r (map_to_list (entries r)).*1.

(** [r.entries[companyID] == cached]. *)
Definition is_current (company : string) (cached : entry) (r : Resolver) : bool :=
  match entries r !! company with Some e => bool_decide (key e = key cached) | None => false end.

(** What a step of a call reads from outside: the clock, Secrets Manager's two
    answers by secret name, a failing KMS, and [ctx.Done()] where a select took it. *)
Record answers := mkAnswers {
  at_ : time;
  got : string → result Secret;
  current : string → result string;
  kms_fault : option error;
  ctx_done : option error;
}.

(** Where a call is. *)
Inductive pc :=
  | Begin
  | Check (cached : entry) (now : time)
  | Confirm (cached : entry) (now : time)
  | Copy (cached : entry)
  | Rotated (cached : entry)
  | Drop (e : error)
  | Load
  | Wait (l : load_id)
  | Read (k : key_ref)
  | Fetch (l : load_id)
  | Finish (l : load_id) (r : result (key_ref * string))
  | Returned (r : result key_ref).

Section Calls.
Context `{crypto : Crypto} (config : Config).

Definition SecretName (company : string) : string := SecretPrefix config +:+ company +:+ "/ai-provider-key".

(** [open] with its slices: the data key and the plaintext are cells, and the
    data key is zeroed on every path. *)
Definition open_in (fault : option error) (company : string) (stored : RawMessage) (h : Heap) : result key_ref * Heap :=
  match decode_envelope stored with
  | Err e => (Err e, h)
  | Ok envelope =>
      match match fault with
            | Some e => Err e
            | None => kms_decrypt (EncryptedDataKey envelope) (encryptionContext company)
            end with
      | Err e => (Err (Wrap "byok: decrypt data key" e), h)
      | Ok dataKey =>
          let '(d, h) := alloc dataKey h in
          match open_with dataKey company envelope with
          | Err e => (Err e, zero d h)
          | Ok plaintext => let '(p, h) := alloc plaintext h in (Ok p, zero d h)
          end
      end
  end.

(** [fetch]: the key is a copy of the plaintext, which is zeroed. *)
Definition fetch (company : string) (a : answers) (h : Heap) : result (key_ref * string) * Heap :=
  match got a (SecretName company) with
  | Err e => (Err (if errors_is e ErrNoKey then e else Wrap "byok: read secret" e), h)
  | Ok secret =>
      match open_in (kms_fault a) company (Value secret) h with
      | (Err e, h) => (Err e, h)
      | (Ok plaintext, h) =>
          let '(k, h) := Clone plaintext h in (Ok (k, VersionID secret), zero plaintext h)
      end
  end.

Definition clone_to (k : key_ref) (r : Resolver) : pc * Resolver :=
  let '(k', h) := Clone k (heap r) in (Returned (Ok k'), with_heap (λ _, h) r).

(** [load] past the cache: wait for the load in flight, or start one. *)
Definition join_load (company : string) (r : Resolver) : pc * Resolver :=
  match loads r !! company with
  | Some l => (Wait l, r)
  | None => (Fetch (next_load r),
             mkResolver (heap r) (entries r) (<[company := next_load r]> (loads r))
               (<[next_load r := None]> (pendings r)) (next_load r + 1)%N)
  end.

(** One step of [ResolveKey] for [company]; [None] while it is blocked or when
    it has returned. *)
Definition advance (company : string) (a : answers) (p : pc) (r : Resolver) : option (pc * Resolver) :=
  match p with
  | Begin =>
      match entries r !! company with
      | Some cached =>
          if expired (at_ a) cached then Some (Load, evictLocked company r)
          else if time_sub (at_ a) (checkedAt cached) <? VersionCheck config then Some (Copy cached, r)
          else Some (Check cached (at_ a), r)
      | None => Some (Load, r)
      end
  | Check cached now =>
      match current a (SecretName company) with
      | Err e => if errors_is e ErrNoKey then Some (Drop e, r)
                 else Some (Returned (Err (Wrap "byok: check key version" e)), r)
      | Ok v => if bool_decide (v = version cached) then Some (Confirm cached now, r) else Some (Rotated cached, r)
      end
  | Confirm cached now =>
      let checked := mkEntry (key cached) (version cached) (expires cached) now in
      Some (Copy checked,
            if is_current company cached r then set_entries <[company := checked]> r else r)
  | Copy cached => if is_current company cached r then Some (clone_to (key cached) r) else Some (Load, r)
  | Rotated cached => Some (Load, if is_current company cached r then evictLocked company r else r)
  | Drop e => Some (Returned (Err e), Invalidate company r)
  | Load =>
      match entries r !! company with
      | Some cached => if before (at_ a) (expires cached) then Some (clone_to (key cached) r) else Some (join_load company r)
      | None => Some (join_load company r)
      end
  | Wait l =>
      match ctx_done a with
      | Some e => Some (Returned (Err e), r)
      | None => match pendings r !! l with
                | Some (Some (Ok k)) => Some (Read k, r)
                | Some (Some (Err e)) => Some (Returned (Err e), r)
                | _ => None
                end
      end
  | Read k =>
      let '(k', h) := Clone k (heap r) in
      Some (if Zeroed k' h then Load else Returned (Ok k'), with_heap (λ _, h) r)
  | Fetch l => let '(res, h) := fetch company a (heap r) in Some (Finish l res, with_heap (λ _, h) r)
  | Finish l res =>
      let done_ := mkResolver (heap r) (entries r) (delete company (loads r))
                     (<[l := Some (fst <$> res)]> (pendings r)) (next_load r) in
      match res with
      | Err e => Some (Returned (Err e), done_)
      | Ok (k, v) =>
          let wiped_old := match entries done_ !! company with
                           | Some old => with_heap (Zero (key old)) done_
                           | None => done_ end in
          Some (clone_to k (set_entries <[company := mkEntry k v (time_add (at_ a) (TTL config)) (at_ a)]> wiped_old))
      end
  | Returned _ => None
  end.
End Calls.

(** ** Calls, interleaved *)
Section Concurrency.
Context `{crypto : Crypto} (config : Config).
(** What Secrets Manager answers: the values it gives for each secret name. *)
Context (served : string → RawMessage → Prop).
Definition answered_from (a : answers) : Prop := ∀ name secret, got a name = Ok secret → served name (Value secret).

(** The resolver and the calls of its users: company and place. *)
Record System := mkSystem { resolver_state : Resolver; calls : gmap N (string * pc) }.

Inductive step : System → System → Prop :=
  | step_call t company r cs : cs !! t = None →
      step (mkSystem r cs) (mkSystem r (<[t := (company, Begin)]> cs))
  | step_advance t company a p p' r r' cs : cs !! t = Some (company, p) → answered_from a →
      advance config company a p r = Some (p', r') →
      step (mkSystem r cs) (mkSystem r' (<[t := (company, p')]> cs))
  | step_invalidate company r cs : step (mkSystem r cs) (mkSystem (Invalidate company r) cs)
  | step_sweep now r cs : step (mkSystem r cs) (mkSystem (Sweep now r).2 cs)
  | step_close r cs : step (mkSystem r cs) (mkSystem (Close r) cs)
  (* a caller wipes the key it was given *)
  | step_zero t company k r cs : cs !! t = Some (company, Returned (Ok k)) →
      step (mkSystem r cs) (mkSystem (with_heap (Zero k) r) cs).

(** [v] is what an envelope served under the company's own secret name holds
    for it. *)
Definition opened (company v : string) : Prop := ∃ stored, served (SecretName config company) stored ∧ open company stored = Ok v.

Definition cell_ok (company : string) (k : key_ref) (h : Heap) : Prop :=
  ∃ v, cells h !! k = Some v ∧ (v = ""%string ∨ opened company v).

(** The key a call holds on to, and the load it is running. *)
Definition held (p : pc) : option key_ref :=
  match p with Finish _ (Ok (k, _)) => Some k | Returned (Ok k) => Some k | _ => None end.
Definition loading (p : pc) : option load_id :=
  match p with Fetch l => Some l | Finish l _ => Some l | _ => None end.

Definition wait_ok (company : string) (l : load_id) (r : Resolver) : Prop :=
  (pendings r !! l = Some None ∧ loads r !! company = Some l) ∨
  ∃ res, pendings r !! l = Some (Some res) ∧ ∀ k, res = Ok k → cell_ok company k (heap r).

Definition pc_ok (company : string) (r : Resolver) (p : pc) : Prop :=
  match p with
  | Fetch l => loads r !! company = Some l
  | Finish l res => loads r !! company = Some l ∧
      ∀ k v, res = Ok (k, v) → ∃ x, cells (heap r) !! k = Some x ∧ opened company x
  | Returned (Ok k) | Read k => cell_ok company k (heap r)
  | Wait l => wait_ok company l r
  | _ => True
  end.

(** Who refers to a key exclusively: a cached entry or a call. *)
Inductive root := Cached (company : string) | Call (t : N).
Definition root_key (r : Resolver) (cs : gmap N (string * pc)) (x : root) : option key_ref :=
  match x with
  | Cached company => key <$> entries r !! company
  | Call t => c ← cs !! t; held c.2
  end.

Record inv (r : Resolver) (cs : gmap N (string * pc)) : Prop := {
  inv_bound : ∀ k v, cells (heap r) !! k = Some v → (k < next (heap r))%N;
  inv_loads : ∀ company l, loads r !! company = Some l → pendings r !! l = Some None;
  inv_load_bound : ∀ l x, pendings r !! l = Some x → (l < next_load r)%N;
  inv_load_inj : ∀ c c' l, loads r !! c = Some l → loads r !! c' = Some l → c = c';
  inv_single : ∀ t t' c c' p p' l, cs !! t = Some (c, p) → cs !! t' = Some (c', p') →
    loading p = Some l → loading p' = Some l → t = t';
  inv_cached : ∀ c e, entries r !! c = Some e → ∃ v, cells (heap r) !! key e = Some v ∧ opened c v;
  inv_calls : ∀ t c p, cs !! t = Some (c, p) → pc_ok c r p;
  inv_roots : ∀ x y k, root_key r cs x = Some k → root_key r cs y = Some k → x = y;
  inv_residue : ∀ k v, cells (heap r) !! k = Some v → wiped v = false → ∃ x, root_key r cs x = Some k;
}.

Lemma cell_ok_alloc company k v h :
  (∀ k v, cells h !! k = Some v → (k < next h)%N) → cell_ok company k h → cell_ok company k (alloc v h).2.
Proof.
  intros Hb (x & Hx & H). exists x. split; [|done]. cbn. apply Hb in Hx as Hk.
  rewrite lookup_insert_ne; [done|]. intros <-. lia.
Qed.

Lemma cell_ok_Zero company k k' h : cell_ok company k h → cell_ok company k (Zero k' h).
Proof.
  intros (x & Hx & H). unfold cell_ok. cbn. destruct (decide (k = k')) as [->|Hne].
  - exists ""%string. rewrite lookup_alter_eq, Hx. auto.
  - exists x. by rewrite lookup_alter_ne.
Qed.

Lemma wait_ok_heap company l r f :
  (∀ k, cell_ok company k (heap r) → cell_ok company k (f (heap r))) →
  wait_ok company l r → wait_ok company l (with_heap f r).
Proof. intros Hf [H|(res & H & Hk)]; [by left|right]. exists res. split; [done|]. intros k E. cbn. by apply Hf, Hk. Qed.

Lemma pc_ok_heap company p r f :
  (∀ k, cell_ok company k (heap r) → cell_ok company k (f (heap r))) →
  (∀ k l v, p = Finish l (Ok (k, v)) → cells (f (heap r)) !! k = cells (heap r) !! k) →
  pc_ok company r p → pc_ok company (with_heap f r) p.
Proof.
  intros Hf Hh. destruct p as [| | | | | | |l|k|l|l res|[k|e]]; cbn; try done; [by apply wait_ok_heap|by apply Hf| |by apply Hf].
  intros [Hl Hk]. split; [done|]. intros k v ->. rewrite (Hh k l v eq_refl). by eapply Hk.
Qed.

(** *** The moves *)

(** Wiping a key no entry and no running load refers to. *)
Lemma inv_wipe r cs k :
  inv r cs → (∀ c, key <$> entries r !! c ≠ Some k) → (∀ t c l v, cs !! t = Some (c, Finish l (Ok (k, v))) → False) →
  inv (with_heap (Zero k) r) cs.
Proof.
  intros I He Hc. split; cbn; try apply I.
  - intros k' v. rewrite lookup_alter_Some. intros [(-> & v' & Hv & _)|[_ Hv]]; by apply (inv_bound _ _ I) in Hv.
  - intros c e Hce. destruct (inv_cached _ _ I c e Hce) as (v & Hv & Ho). exists v. split; [|done].
    rewrite lookup_alter_ne; [done|]. intros ->. apply (He c). by rewrite Hce.
  - intros t c p Ht. apply pc_ok_heap; [intros; by apply cell_ok_Zero| |by apply (inv_calls _ _ I) in Ht].
    intros k' l v ->. cbn. rewrite lookup_alter_ne; [done|]. intros ->. by eapply Hc.
  - intros k' v. rewrite lookup_alter_Some. intros [(-> & v' & Hv & ->)|[_ Hv]] Hw; [done|].
    destruct (inv_residue _ _ I k' v Hv Hw) as [x Hx]. exists x. by destruct x.
Qed.

Lemma inv_evict c r cs : inv r cs → inv (evictLocked c r) cs.
Proof.
  intros I. unfold evictLocked. destruct (entries r !! c) as [e|] eqn:E; [|done].
  assert (∀ x k, root_key (set_entries (delete c) r) cs x = Some k → root_key r cs x = Some k ∧ k ≠ key e) as Hroot.
  { intros [c'|t] k Hk; cbn in Hk.
    - apply fmap_Some in Hk as (e' & He' & ->). apply lookup_delete_Some in He' as [Hne He'].
      split; [cbn; by rewrite He'|]. intros Heq.
      assert (Cached c' = Cached c) as [= ->]; [|done].
      apply (inv_roots _ _ I _ _ (key e)); cbn; [rewrite He'; cbn; by rewrite Heq|by rewrite E].
    - split; [done|]. intros ->.
      assert (Call t = Cached c) as [=]. apply (inv_roots _ _ I _ _ (key e)); cbn; [done|by rewrite E]. }
  split; cbn; try apply I.
  - intros k' v. rewrite lookup_alter_Some. intros [(<- & v' & Hv & _)|[_ Hv]]; by apply (inv_bound _ _ I) in Hv.
  - intros c' e' Hce. destruct (Hroot (Cached c') (key e')) as [_ Hne]; [cbn; by rewrite Hce|].
    apply lookup_delete_Some in Hce as [_ Hce].
    destruct (inv_cached _ _ I c' e' Hce) as (v & Hv & Ho). exists v. by rewrite lookup_alter_ne.
  - intros t c' p Ht. apply (pc_ok_heap c' p r (Zero (key e)));
      [intros; by apply cell_ok_Zero| |by apply (inv_calls _ _ I) in Ht].
    intros k' l v ->. cbn. rewrite lookup_alter_ne; [done|]. intros <-.
    destruct (Hroot (Call t) (key e)) as [_ ?]; [cbn; by rewrite Ht|done].
  - intros x y k Hx Hy. apply (inv_roots _ _ I x y k); by apply Hroot.
  - intros k' v. rewrite lookup_alter_Some. intros [(<- & v' & Hv & ->)|[Hne Hv]] Hw; [done|].
    destruct (inv_residue _ _ I k' v Hv Hw) as [x Hx]. exists x. destruct x as [c'|t]; [|done]. cbn in *.
    apply fmap_Some in Hx as (e' & He' & ->). rewrite lookup_delete_ne; [by rewrite He'|].
    intros <-. apply Hne. congruence.
Qed.

Lemma inv_evict_all l r cs : inv r cs → inv (fold_right evictLocked r l) cs.
Proof. intros I. induction l as [|c l IH]; cbn; [done|by apply inv_evict]. Qed.

(** A call moves on without touching keys or loads. *)
Lemma inv_pc t c p p' r cs :
  inv r cs → cs !! t = Some (c, p) → held p = None → loading p = None → held p' = None → loading p' = None →
  pc_ok c r p' → inv r (<[t := (c, p')]> cs).
Proof.
  intros I Ht Hh Hl Hh' Hl' Hok.
  assert (∀ x, root_key r (<[t := (c, p')]> cs) x = root_key r cs x) as Hr.
  { intros [c'|t']; [done|]. cbn. destruct (decide (t = t')) as [<-|Hne]; [|by rewrite lookup_insert_ne].
    rewrite lookup_insert_eq, Ht. cbn. congruence. }
  split; try apply I.
  - intros t1 t2 c1 c2 p1 p2 l [[<- [= <- <-]]|[? H1]]%lookup_insert_Some [[<- [= <- <-]]|[? H2]]%lookup_insert_Some;
      [congruence..|]. by apply (inv_single _ _ I t1 t2 c1 c2).
  - intros t' c' p1 [[<- [= <- <-]]|[? H1]]%lookup_insert_Some; [done|]. by apply (inv_calls _ _ I t').
  - intros x y k. rewrite !Hr. apply (inv_roots _ _ I).
  - intros k v Hv Hw. destruct (inv_residue _ _ I k v Hv Hw) as [x Hx]. exists x. by rewrite Hr.
Qed.

(** A heap that only got new cells. *)
Record extends (h h' : Heap) : Prop := {
  ext_next : (next h ≤ next h')%N;
  ext_old : ∀ k, (k < next h)%N → cells h' !! k = cells h !! k;
  ext_bound : ∀ k v, cells h' !! k = Some v → (k < next h')%N;
}.

Lemma extends_alloc h v : (∀ k v, cells h !! k = Some v → (k < next h)%N) → extends h (alloc v h).2.
Proof.
  intros Hb. split; cbn; [lia| |].
  - intros k Hk. rewrite lookup_insert_ne; [done|lia].
  - intros k x [[<- _]|[_ H]]%lookup_insert_Some; [lia|]. apply Hb in H. lia.
Qed.

Lemma extends_cell r cs h' k v : inv r cs → extends (heap r) h' → cells (heap r) !! k = Some v → cells h' !! k = Some v.
Proof. intros I E H. rewrite (ext_old _ _ E); [done|by apply (inv_bound _ _ I) in H]. Qed.

Lemma extends_cell_ok r cs h' c k : inv r cs → extends (heap r) h' → cell_ok c k (heap r) → cell_ok c k h'.
Proof. intros I E (v & Hv & H). exists v. split; [by eapply extends_cell|done]. Qed.

(** A call moves on over a heap with new cells, all of them wiped but the one
    it holds. *)
Lemma inv_extend t c p p' h' r cs :
  inv r cs → cs !! t = Some (c, p) → extends (heap r) h' → held p = None →
  (∀ k, held p' = Some k → (next (heap r) ≤ k)%N) →
  (∀ k v, cells h' !! k = Some v → (next (heap r) ≤ k)%N → wiped v = false → held p' = Some k) →
  (∀ l, loading p' = Some l → loading p = Some l) →
  pc_ok c (with_heap (λ _, h') r) p' →
  inv (with_heap (λ _, h') r) (<[t := (c, p')]> cs).
Proof.
  intros I Ht E Hh Hnew Hw Hl Hok.
  assert (∀ c e, entries r !! c = Some e → (key e < next (heap r))%N) as Hek.
  { intros c' e He. destruct (inv_cached _ _ I _ _ He) as (v & Hv & _). by apply (inv_bound _ _ I) in Hv. }
  assert (∀ t' c' p1 k, cs !! t' = Some (c', p1) → held p1 = Some k → (k < next (heap r))%N) as Hhk.
  { intros t' c' p1 k H1 H2. apply (inv_calls _ _ I) in H1.
    destruct p1 as [| | | | | | | | | |l [[k1 v1]|]|[k1|]]; try done; cbn in H2; injection H2 as <-; cbn in H1.
    - destruct H1 as [_ H1]. destruct (H1 _ _ eq_refl) as (x & Hx & _). by apply (inv_bound _ _ I) in Hx.
    - destruct H1 as (x & Hx & _). by apply (inv_bound _ _ I) in Hx. }
  assert (∀ x k, root_key r (<[t := (c, p')]> cs) x = Some k →
    root_key r cs x = Some k ∧ (k < next (heap r))%N ∧ x ≠ Call t ∨
    x = Call t ∧ held p' = Some k ∧ (next (heap r) ≤ k)%N) as Hroot.
  { intros [c'|t'] k Hk; cbn in Hk.
    - left. split; [done|]. split; [|done]. apply fmap_Some in Hk as (e & He & ->). by eapply Hek.
    - destruct (decide (t = t')) as [<-|Hne].
      + right. rewrite lookup_insert_eq in Hk. cbn in Hk. auto.
      + left. rewrite lookup_insert_ne in Hk by done. split; [done|]. split; [|congruence].
        apply bind_Some in Hk as ([c1 p1] & H1 & H2). by eapply Hhk. }
  split; cbn; try apply I.
  - apply E.
  - intros t1 t2 c1 c2 p1 p2 l [[<- [= <- <-]]|[? H1]]%lookup_insert_Some [[<- [= <- <-]]|[? H2]]%lookup_insert_Some L1 L2;
      [done|by apply (inv_single _ _ I t t2 c c2 p p2 l Ht H2 (Hl _ L1) L2)|
       by apply (inv_single _ _ I t1 t c1 c p1 p l H1 Ht L1 (Hl _ L2))|by apply (inv_single _ _ I t1 t2 c1 c2 p1 p2 l)].
  - intros c' e He. destruct (inv_cached _ _ I _ _ He) as (v & Hv & Ho). exists v. split; [by eapply extends_cell|done].
  - intros t' c' p1 [[<- [= <- <-]]|[? H1]]%lookup_insert_Some; [done|].
    apply (pc_ok_heap c' p1 r (λ _, h')); [intros; by eapply extends_cell_ok| |by apply (inv_calls _ _ I) in H1].
    intros k l v ->. rewrite (ext_old _ _ E); [done|]. by eapply (Hhk t').
  - intros x y k [(Hx & Hx2 & _)|(-> & Hx & Hx2)]%Hroot [(Hy & Hy2 & _)|(-> & Hy & Hy2)]%Hroot;
      [by apply (inv_roots _ _ I x y k)|lia..|done].
  - intros k v Hv Hwv. destruct (decide (k < next (heap r))%N) as [Hk|Hk].
    + rewrite (ext_old _ _ E) in Hv by done. destruct (inv_residue _ _ I k v Hv Hwv) as [x Hx]. exists x.
      destruct x as [c'|t']; [done|]. cbn in *. rewrite lookup_insert_ne; [done|]. intros <-. rewrite Ht in Hx. cbn in Hx. congruence.
    + exists (Call t). cbn. rewrite lookup_insert_eq. cbn. apply (Hw k v); [done|lia|done].
Qed.

(** A call is given a fresh copy. *)
Lemma inv_clone t c p k v r cs :
  inv r cs → cs !! t = Some (c, p) → held p = None → loading p = None →
  cells (heap r) !! k = Some v → opened c v →
  inv (clone_to k r).2 (<[t := (c, (clone_to k r).1)]> cs).
Proof.
  intros I Ht Hh Hl Hk Ho. unfold clone_to, Clone. cbn.
  replace (content k (heap r)) with v by (unfold content; by rewrite Hk).
  apply (inv_extend t c p); try done.
  - apply (extends_alloc (heap r) v), (inv_bound _ _ I).
  - cbn. intros k' [= <-]. lia.
  - cbn. intros k' v' [[<- _]|[_ H]]%lookup_insert_Some Hge _; [done|]. apply (inv_bound _ _ I) in H. lia.
  - exists v. cbn. rewrite lookup_insert_eq. auto.
Qed.

Lemma inv_start t c p r cs :
  inv r cs → cs !! t = Some (c, p) → held p = None → loading p = None →
  inv (join_load c r).2 (<[t := (c, (join_load c r).1)]> cs).
Proof.
  intros I Ht Hh Hl. unfold join_load. destruct (loads r !! c) as [l|] eqn:El; cbn.
  { apply (inv_pc t c p); try done. left. split; [|done]. by apply (inv_loads _ _ I c). }
  assert (∀ c l, loads r !! c = Some l → (l < next_load r)%N) as Hlb.
  { intros c' l H. apply (inv_loads _ _ I) in H. by apply (inv_load_bound _ _ I) in H. }
  set (r' := mkResolver _ _ _ _ _).
  assert (∀ x, root_key r' (<[t := (c, Fetch (next_load r))]> cs) x = root_key r cs x) as Hr.
  { intros [c'|t']; [done|]. cbn. destruct (decide (t = t')) as [<-|Hne]; [|by rewrite lookup_insert_ne].
    rewrite lookup_insert_eq, Ht. cbn. congruence. }
  assert (∀ t' c' p' l, cs !! t' = Some (c', p') → loading p' = Some l → (l < next_load r)%N) as Hlp.
  { intros t' c' p' l H1 H2. apply (inv_calls _ _ I) in H1.
    destruct p'; try done; cbn in H2, H1; injection H2 as ->; [by eapply Hlb|destruct H1; by eapply Hlb]. }
  split; cbn; try apply I.
  - intros c' l [[<- <-]|[Hne H]]%lookup_insert_Some; [by rewrite lookup_insert_eq|].
    rewrite lookup_insert_ne; [by apply (inv_loads _ _ I c')|]. intros <-. apply Hlb in H. lia.
  - intros l x [[<- _]|[_ H]]%lookup_insert_Some; [lia|]. apply (inv_load_bound _ _ I) in H. lia.
  - intros c1 c2 l [[<- <-]|[Hne H]]%lookup_insert_Some [[<- E]|[Hne' H']]%lookup_insert_Some; [done|..].
    + apply Hlb in H'. lia.
    + apply Hlb in H. lia.
    + by apply (inv_load_inj _ _ I c1 c2 l).
  - intros t1 t2 c1 c2 p1 p2 l [[<- [= <- <-]]|[? H1]]%lookup_insert_Some [[<- [= <- <-]]|[? H2]]%lookup_insert_Some L1 L2;
      [done|cbn in L1; injection L1 as <-; specialize (Hlp _ _ _ _ H2 L2); lia|
       cbn in L2; injection L2 as <-; specialize (Hlp _ _ _ _ H1 L1); lia|by apply (inv_single _ _ I t1 t2 c1 c2 p1 p2 l)].
  - intros t' c' p1 [[<- [= <- <-]]|[? H1]]%lookup_insert_Some; [cbn; by rewrite lookup_insert_eq|].
    apply (inv_calls _ _ I) in H1 as Hp.
    destruct p1 as [| | | | | | |l|k|l|l res|[k|e]]; cbn in Hp |- *; try done.
    + destruct Hp as [[H2 H3]|(res & H2 & H3)]; [left|right; exists res]; cbn.
      * rewrite !lookup_insert_ne; [done|intros <-; congruence|]. intros <-. apply (inv_load_bound _ _ I) in H2. lia.
      * split; [|done]. rewrite lookup_insert_ne; [done|]. intros <-. apply (inv_load_bound _ _ I) in H2. lia.
    + rewrite lookup_insert_ne; [done|]. intros <-. congruence.
    + rewrite lookup_insert_ne; [done|]. intros <-. destruct Hp. congruence.
  - intros x y k. rewrite !Hr. apply (inv_roots _ _ I).
  - intros k v Hv Hw. destruct (inv_residue _ _ I k v Hv Hw) as [x Hx]. exists x. by rewrite Hr.
Qed.

Lemma wiped_zeros n : wiped (zeros n) = true.
Proof. induction n as [|n IH]; [done|]. cbn [wiped zeros]. by rewrite IH. Qed.

(** Loading a secret leaves one cell of key material: the key. *)
Lemma fetch_spec company a h res h' :
  (∀ k v, cells h !! k = Some v → (k < next h)%N) → answered_from a → fetch config company a h = (res, h') →
  extends h h' ∧
  match res with
  | Ok (k, _) => (next h ≤ k)%N ∧ (∃ v, cells h' !! k = Some v ∧ opened company v) ∧
      ∀ k' v, cells h' !! k' = Some v → (next h ≤ k')%N → wiped v = false → k' = k
  | Err _ => ∀ k' v, cells h' !! k' = Some v → (next h ≤ k')%N → wiped v = true
  end.
Proof.
  intros Hb Hserved H. assert (extends h h) as Hrefl by (split; [lia|done|done]).
  assert (∀ k' v, cells h !! k' = Some v → (next h ≤ k')%N → False) as Hno.
  { intros k' v Hk Hle. apply Hb in Hk. lia. }
  unfold fetch in H. destruct (got a _) as [secret|e] eqn:Eg; [apply Hserved in Eg|injection H as <- <-; split; [done|]; intros; by edestruct Hno].
  unfold open_in in H. destruct (decode_envelope (Value secret)) as [envelope|e] eqn:Ee;
    [|injection H as <- <-; split; [done|]; intros; by edestruct Hno].
  destruct (kms_fault a); cbn in H; [injection H as <- <-; split; [done|]; intros; by edestruct Hno|].
  destruct (kms_decrypt _ _) as [dataKey|e] eqn:Ek; [|injection H as <- <-; split; [done|]; intros; by edestruct Hno].
  destruct (open_with dataKey company envelope) as [plaintext|e] eqn:Eo; cbn in H.
  - injection H as <- <-. cbn. split; [split; cbn; [lia| |]|split_and!].
    + intros k Hk. rewrite lookup_alter_ne by lia. rewrite !lookup_insert_ne by lia.
      rewrite lookup_alter_ne by lia. by rewrite !lookup_insert_ne by lia.
    + intros k v Hk. destruct (decide (k < next h + 1 + 1 + 1)%N) as [|Hge]; [done|].
      rewrite lookup_alter_ne in Hk by lia. rewrite !lookup_insert_ne in Hk by lia.
      rewrite lookup_alter_ne in Hk by lia. rewrite !lookup_insert_ne in Hk by lia. apply Hb in Hk. lia.
    + lia.
    + exists plaintext. rewrite lookup_alter_ne by lia. rewrite lookup_insert_eq. unfold content. cbn.
      rewrite lookup_alter_ne by lia. rewrite lookup_insert_eq. split; [done|]. exists (Value secret).
      split; [done|]. unfold open. rewrite Ee. cbn. by rewrite Ek.
    + intros k' v Hk Hle Hw. destruct (decide (k' = (next h + 1 + 1)%N)) as [->|Hne]; [done|exfalso].
      destruct (decide (k' = (next h + 1)%N)) as [->|Hne1].
      { rewrite lookup_alter_eq in Hk. rewrite lookup_insert_ne in Hk by lia.
        rewrite lookup_alter_ne in Hk by lia. rewrite lookup_insert_eq in Hk. cbn in Hk. injection Hk as <-.
        by rewrite wiped_zeros in Hw. }
      rewrite lookup_alter_ne in Hk by lia. rewrite lookup_insert_ne in Hk by lia.
      destruct (decide (k' = next h)) as [->|Hne2].
      { rewrite lookup_alter_eq in Hk. rewrite lookup_insert_ne in Hk by lia. rewrite lookup_insert_eq in Hk.
        cbn in Hk. injection Hk as <-. by rewrite wiped_zeros in Hw. }
      rewrite lookup_alter_ne in Hk by lia. rewrite !lookup_insert_ne in Hk by lia. by edestruct Hno.
  - injection H as <- <-. cbn. split; [split; cbn; [lia| |]|].
    + intros k Hk. rewrite lookup_alter_ne by lia. by rewrite lookup_insert_ne by lia.
    + intros k v Hk. destruct (decide (k < next h + 1)%N) as [|Hge]; [done|].
      rewrite lookup_alter_ne in Hk by lia. rewrite lookup_insert_ne in Hk by lia. apply Hb in Hk. lia.
    + intros k' v Hk Hle. destruct (decide (k' = next h)) as [->|Hne].
      * rewrite lookup_alter_eq, lookup_insert_eq in Hk. cbn in Hk. injection Hk as <-. apply wiped_zeros.
      * rewrite lookup_alter_ne in Hk by lia. rewrite lookup_insert_ne in Hk by lia. by edestruct Hno.
Qed.

Lemma inv_fetch t c a l r cs res h' :
  inv r cs → cs !! t = Some (c, Fetch l) → answered_from a → fetch config c a (heap r) = (res, h') →
  inv (with_heap (λ _, h') r) (<[t := (c, Finish l res)]> cs).
Proof.
  intros I Ht Ha H. apply fetch_spec in H as [E Hr]; [|apply (inv_bound _ _ I)|done].
  apply (inv_calls _ _ I) in Ht as Hl. cbn in Hl.
  apply (inv_extend t c (Fetch l)); try done.
  - intros k Hk. destruct res as [[k1 v1]|e]; [|done]. injection Hk as <-. by destruct Hr.
  - intros k v Hk Hge Hw. destruct res as [[k1 v1]|e]; cbn.
    + destruct Hr as (_ & _ & Hr). f_equal. symmetry. by eapply Hr.
    + specialize (Hr _ _ Hk Hge). congruence.
  - cbn. split; [done|]. intros k v ->. destruct Hr as (_ & (x & Hx & Ho) & _). by exists x.
Qed.

(** What the other calls see when a load is done. *)
Lemma settle_calls t c l res0 res r cs r2 :
  inv r cs → cs !! t = Some (c, Finish l res0) →
  heap r2 = heap r → loads r2 = delete c (loads r) → pendings r2 = <[l := Some res]> (pendings r) →
  (∀ k, res = Ok k → cell_ok c k (heap r)) →
  ∀ t' c' p', t' ≠ t → cs !! t' = Some (c', p') → pc_ok c' r2 p'.
Proof.
  intros I Ht Eh El Ep Hres t' c' p' Hne Ht'.
  pose proof (inv_calls _ _ I _ _ _ Ht) as [Hl _]. pose proof (inv_calls _ _ I _ _ _ Ht') as Hp.
  pose proof (inv_loads _ _ I _ _ Hl) as Hpend.
  assert (∀ l', loading p' = Some l' → loads r !! c' = Some l' → c ≠ c') as Hcc.
  { intros l' L1 L2 <-. assert (l' = l) as -> by congruence. apply Hne.
    by apply (inv_single _ _ I t' t c c p' (Finish l res0) l). }
  destruct p' as [| | | | | | |l'|k|l'|l' res'|[k|e]]; cbn in Hp |- *; rewrite ?Eh, ?El; try done.
  - unfold wait_ok. rewrite Ep, El, Eh. destruct (decide (l' = l)) as [->|Hnl].
    + right. exists res. rewrite lookup_insert_eq. split; [done|]. intros k Hk.
      destruct Hp as [[_ H]|(res' & H & _)]; [|congruence].
      rewrite (inv_load_inj _ _ I c' c l H Hl). by apply Hres.
    + rewrite lookup_insert_ne by done. destruct Hp as [[H1 H2]|H]; [left|by right].
      split; [done|]. rewrite lookup_delete_ne; [done|]. intros <-. congruence.
  - rewrite lookup_delete_ne; [done|by apply (Hcc l')].
  - destruct Hp as [H1 H2]. split; [|done]. rewrite lookup_delete_ne; [done|by apply (Hcc l')].
Qed.

Lemma settle_loads t c l res0 r cs :
  inv r cs → cs !! t = Some (c, Finish l res0) →
  ∀ c' l', delete c (loads r) !! c' = Some l' → l' ≠ l ∧ loads r !! c' = Some l'.
Proof.
  intros I Ht c' l' [Hne H]%lookup_delete_Some. split; [|done]. intros ->.
  pose proof (inv_calls _ _ I _ _ _ Ht) as [Hl _]. by apply Hne, (inv_load_inj _ _ I c c' l).
Qed.

Lemma inv_fail t c l e r cs :
  inv r cs → cs !! t = Some (c, Finish l (Err e)) →
  inv (mkResolver (heap r) (entries r) (delete c (loads r)) (<[l := Some (Err e)]> (pendings r)) (next_load r))
    (<[t := (c, Returned (Err e))]> cs).
Proof.
  intros I Ht. set (r2 := mkResolver _ _ _ _ _).
  pose proof (inv_calls _ _ I _ _ _ Ht) as [Hl _]. pose proof (inv_loads _ _ I _ _ Hl) as Hpend.
  assert (∀ x, root_key r2 (<[t := (c, Returned (Err e))]> cs) x = root_key r cs x) as Hr.
  { intros [c'|t']; [done|]. cbn. destruct (decide (t = t')) as [<-|Hne]; [|by rewrite lookup_insert_ne].
    by rewrite lookup_insert_eq, Ht. }
  split; cbn; try apply I.
  - intros c' l' [Hne H]%(settle_loads t c l (Err e) r cs); [|done..]. rewrite lookup_insert_ne by done.
    by apply (inv_loads _ _ I c').
  - intros l' x [[<- _]|[_ H]]%lookup_insert_Some; by eapply (inv_load_bound _ _ I).
  - intros c1 c2 l' [_ H1]%lookup_delete_Some [_ H2]%lookup_delete_Some. by apply (inv_load_inj _ _ I c1 c2 l').
  - intros t1 t2 c1 c2 p1 p2 l' [[<- [= <- <-]]|[? H1]]%lookup_insert_Some [[<- [= <- <-]]|[? H2]]%lookup_insert_Some;
      [done..|]. by apply (inv_single _ _ I t1 t2 c1 c2).
  - intros t' c' p1 [[<- [= <- <-]]|[? H1]]%lookup_insert_Some; [done|].
    by apply (settle_calls t c l (Err e) (Err e) r cs r2 I Ht eq_refl eq_refl eq_refl ltac:(done) t').
  - intros x y k. rewrite !Hr. apply (inv_roots _ _ I).
  - intros k v Hv Hw. destruct (inv_residue _ _ I k v Hv Hw) as [x Hx]. exists x. by rewrite Hr.
Qed.

(** A loaded key goes into the cache, where nothing is cached. *)
Lemma inv_install t c l k v e r cs :
  inv r cs → cs !! t = Some (c, Finish l (Ok (k, v))) → entries r !! c = None → key e = k →
  inv (mkResolver (heap r) (<[c := e]> (entries r)) (delete c (loads r)) (<[l := Some (Ok k)]> (pendings r)) (next_load r))
    (<[t := (c, Load)]> cs).
Proof.
  intros I Ht Hnone Hk. set (r2 := mkResolver _ _ _ _ _).
  pose proof (inv_calls _ _ I _ _ _ Ht) as [Hl Hx]. destruct (Hx k v eq_refl) as (x0 & Hx0 & Ho).
  pose proof (inv_loads _ _ I _ _ Hl) as Hpend.
  set (swap x := match x with
                 | Cached c' => if decide (c = c') then Call t else Cached c'
                 | Call t' => if decide (t = t') then Cached c else Call t' end).
  assert (∀ x, swap (swap x) = x) as Hinv.
  { intros [c'|t']; unfold swap; repeat case_decide; congruence. }
  assert (∀ x, root_key r2 (<[t := (c, Load)]> cs) x = root_key r cs (swap x)) as Hr.
  { intros [c'|t']; unfold swap; cbn; case_decide as E; subst; cbn.
    - rewrite lookup_insert_eq, Ht. done.
    - by rewrite lookup_insert_ne.
    - by rewrite lookup_insert_eq, Hnone.
    - by rewrite lookup_insert_ne. }
  split; cbn; try apply I.
  - intros c' l' [Hne H]%(settle_loads t c l (Ok (k, v)) r cs); [|done..]. rewrite lookup_insert_ne by done.
    by apply (inv_loads _ _ I c').
  - intros l' x [[<- _]|[_ H]]%lookup_insert_Some; by eapply (inv_load_bound _ _ I).
  - intros c1 c2 l' [_ H1]%lookup_delete_Some [_ H2]%lookup_delete_Some. by apply (inv_load_inj _ _ I c1 c2 l').
  - intros t1 t2 c1 c2 p1 p2 l' [[<- [= <- <-]]|[? H1]]%lookup_insert_Some [[<- [= <- <-]]|[? H2]]%lookup_insert_Some;
      [done..|]. by apply (inv_single _ _ I t1 t2 c1 c2).
  - intros c' e' [[<- <-]|[_ H]]%lookup_insert_Some; [|by apply (inv_cached _ _ I)].
    rewrite Hk. by exists x0.
  - intros t' c' p1 [[<- [= <- <-]]|[? H1]]%lookup_insert_Some; [done|].
    assert (∀ k', Ok k = Ok k' → cell_ok c k' (heap r)) as Hres by (intros k' [= <-]; exists x0; auto).
    by apply (settle_calls t c l (Ok (k, v)) (Ok k) r cs r2 I Ht eq_refl eq_refl eq_refl Hres t').
  - intros x y k'. rewrite !Hr. intros Hx1 Hy1. rewrite <-(Hinv x), <-(Hinv y). f_equal.
    by apply (inv_roots _ _ I _ _ k').
  - intros k' v' Hv Hw. destruct (inv_residue _ _ I k' v' Hv Hw) as [x Hx']. exists (swap x). by rewrite Hr, Hinv.
Qed.

Lemma inv_touch c e e' r cs :
  inv r cs → entries r !! c = Some e → key e' = key e → inv (set_entries <[c := e']> r) cs.
Proof.
  intros I He Hk.
  assert (∀ x, root_key (set_entries <[c := e']> r) cs x = root_key r cs x) as Hr.
  { intros [c'|t']; [|done]. cbn. destruct (decide (c = c')) as [<-|Hne]; [|by rewrite lookup_insert_ne].
    rewrite lookup_insert_eq, He. cbn. by rewrite Hk. }
  split; cbn; try apply I.
  - intros c' e1 [[<- <-]|[_ H]]%lookup_insert_Some; [rewrite Hk|]; by eapply (inv_cached _ _ I).
  - intros x y k. rewrite !Hr. apply (inv_roots _ _ I).
  - intros k v Hv Hw. destruct (inv_residue _ _ I k v Hv Hw) as [x Hx]. exists x. by rewrite Hr.
Qed.

Lemma is_current_spec c cached r : is_current c cached r = true → ∃ e, entries r !! c = Some e ∧ key e = key cached.
Proof. unfold is_current. destruct (entries r !! c) as [e|]; [|done]. intros. bool_prop. by exists e. Qed.

Lemma inv_advance t c a p p' r r' cs :
  inv r cs → cs !! t = Some (c, p) → answered_from a → advance config c a p r = Some (p', r') → inv r' (<[t := (c, p')]> cs).
Proof.
  intros I Ht Hserved H. destruct p as [|cached now|cached now|cached|cached|e| |l|k|l|l res|res]; cbn [advance] in H; try done.
  - destruct (entries r !! c) as [cached|]; [|injection H as <- <-; by apply (inv_pc t c Begin)].
    destruct (expired _ _); [|by destruct (_ <? _); injection H as <- <-; apply (inv_pc t c Begin)].
    injection H as <- <-. apply (inv_pc t c Begin); try done. by apply inv_evict.
  - destruct (current a _) as [v|e]; [destruct (bool_decide _)|destruct (errors_is _ _)]; injection H as <- <-;
      by apply (inv_pc t c (Check cached now)).
  - injection H as <- <-. apply (inv_pc t c (Confirm cached now)); try done.
    destruct (is_current c cached r) eqn:Ec; [|done]. apply is_current_spec in Ec as (e & He & Hk).
    by apply (inv_touch c e).
  - destruct (is_current c cached r) eqn:Ec; [|injection H as <- <-; by apply (inv_pc t c (Copy cached))].
    apply is_current_spec in Ec as (e & He & Hk). destruct (inv_cached _ _ I _ _ He) as (v & Hv & Ho).
    rewrite Hk in Hv. injection H as <- <-. by apply (inv_clone t c (Copy cached) _ v).
  - injection H as <- <-. apply (inv_pc t c (Rotated cached)); try done. destruct (is_current _ _ _); [by apply inv_evict|done].
  - injection H as <- <-. apply (inv_pc t c (Drop e)); try done. by apply inv_evict.
  - assert (Some (join_load c r) = Some (p', r') → inv r' (<[t := (c, p')]> cs)) as Hs.
    { intros [= Hj]. pose proof (inv_start t c Load r cs I Ht eq_refl eq_refl) as Hs. by rewrite Hj in Hs. }
    destruct (entries r !! c) as [cached|] eqn:He; [|by apply Hs].
    destruct (before _ _); [|by apply Hs].
    destruct (inv_cached _ _ I _ _ He) as (v & Hv & Ho). injection H as <- <-. by apply (inv_clone t c Load _ v).
  - destruct (ctx_done a); [injection H as <- <-; by apply (inv_pc t c (Wait l))|].
    destruct (pendings r !! l) as [[[k|e]|]|] eqn:Ep; [|injection H as <- <-; by apply (inv_pc t c (Wait l))|done..].
    injection H as <- <-. apply (inv_pc t c (Wait l)); try done. cbn.
    pose proof (inv_calls _ _ I _ _ _ Ht) as [[? _]|(res & Hres & Hk)]; [congruence|]. apply Hk. congruence.
  - pose proof (inv_calls _ _ I _ _ _ Ht) as (v & Hv & Ho). unfold Zeroed, Clone in H. cbn in H.
    replace (content k (heap r)) with v in H by (unfold content; by rewrite Hv).
    unfold content in H. cbn in H. rewrite lookup_insert_eq in H. cbn in H.
    destruct (decide (v = ""%string)) as [Hz|Hne];
      [rewrite bool_decide_eq_true_2 in H by done|rewrite bool_decide_eq_false_2 in H by done]; injection H as <- <-.
    + apply (inv_extend t c (Read k)); try done.
      * apply (extends_alloc (heap r) v), (inv_bound _ _ I).
      * cbn. intros k' v' [[_ <-]|[_ H]]%lookup_insert_Some Hge Hw; [by rewrite Hz in Hw|]. apply (inv_bound _ _ I) in H. lia.
    + destruct Ho as [|Ho]; [done|]. pose proof (inv_clone t c (Read k) k v r cs I Ht eq_refl eq_refl Hv Ho) as Hc.
      unfold clone_to, Clone in Hc. cbn in Hc. by replace (content k (heap r)) with v in Hc by (unfold content; by rewrite Hv).
  - destruct (fetch config c a (heap r)) as [res h'] eqn:Ef. injection H as <- <-. by apply (inv_fetch t c a l).
  - destruct res as [[k v]|e]; [|injection H as <- <-; by apply inv_fail]. apply (inj Some) in H.
    set (e := mkEntry k v (time_add (at_ a) (TTL config)) (at_ a)) in H.
    assert (inv (mkResolver (heap (evictLocked c r)) (<[c := e]> (entries (evictLocked c r)))
      (delete c (loads (evictLocked c r))) (<[l := Some (Ok k)]> (pendings (evictLocked c r))) (next_load (evictLocked c r)))
      (<[t := (c, Load)]> cs)) as Hi.
    { apply (inv_install t c l k v e); [by apply inv_evict|done| |done]. unfold evictLocked.
      destruct (entries r !! c) eqn:E; [apply lookup_delete_eq|done]. }
    match type of H with clone_to k ?r2 = _ => assert (inv r2 (<[t := (c, Load)]> cs)) as Hi2 end.
    { unfold evictLocked in Hi. cbn. destruct (entries r !! c) eqn:E; [|exact Hi]. cbn in Hi.
      by rewrite insert_delete_eq in Hi. }
    destruct (inv_cached _ _ Hi2 c e) as (x & Hx & Ho); [apply lookup_insert_eq|].
    match type of H with clone_to k ?r2 = _ =>
      pose proof (inv_clone t c Load k x r2 _ Hi2 (lookup_insert_eq _ _ _) eq_refl eq_refl Hx Ho) as Hc end.
    by rewrite insert_insert_eq, H in Hc.
Qed.

Lemma clone_to_opened c k v r p' r' k' :
  cells (heap r) !! k = Some v → opened c v → clone_to k r = (p', r') → p' = Returned (Ok k') →
  ∃ v, cells (heap r') !! k' = Some v ∧ opened c v.
Proof.
  intros Hk Ho [= <- <-] [= <-]. exists v. cbn. rewrite lookup_insert_eq. unfold content. by rewrite Hk.
Qed.

(** A key is never handed out wiped. *)
Lemma advance_returns t c a p r k r' cs :
  inv r cs → cs !! t = Some (c, p) → advance config c a p r = Some (Returned (Ok k), r') →
  ∃ v, cells (heap r') !! k = Some v ∧ opened c v.
Proof.
  intros I Ht H. destruct p as [|cached now|cached now|cached|cached|e| |l|k1|l|l res|res]; cbn [advance] in H; try done.
  - destruct (entries r !! c); [|done]. destruct (expired _ _); [done|]. by destruct (_ <? _).
  - destruct (current a _) as [v|e]; [by destruct (bool_decide _)|by destruct (errors_is _ _)].
  - destruct (is_current c cached r) eqn:Ec; [|done]. apply is_current_spec in Ec as (e & He & Hk).
    destruct (inv_cached _ _ I _ _ He) as (v & Hv & Ho). rewrite Hk in Hv. apply (inj Some) in H.
    by eapply clone_to_opened.
  - assert (Some (join_load c r) ≠ Some (Returned (Ok k), r')) as Hj by (unfold join_load; by destruct (loads r !! c)).
    destruct (entries r !! c) as [cached|] eqn:He; [|done]. destruct (before _ _); [|done].
    destruct (inv_cached _ _ I _ _ He) as (v & Hv & Ho). apply (inj Some) in H. by eapply clone_to_opened.
  - destruct (ctx_done a); [done|]. by destruct (pendings r !! l) as [[[?|?]|]|].
  - pose proof (inv_calls _ _ I _ _ _ Ht) as (v & Hv & Ho). unfold Zeroed, Clone in H. cbn in H.
    replace (content k1 (heap r)) with v in H by (unfold content; by rewrite Hv).
    unfold content in H. cbn in H. rewrite lookup_insert_eq in H. cbn in H.
    destruct (decide (v = ""%string)) as [Hz|Hne];
      [by rewrite bool_decide_eq_true_2 in H|rewrite bool_decide_eq_false_2 in H by done]; injection H as <- <-.
    exists v. cbn. rewrite lookup_insert_eq. destruct Ho; [done|auto].
  - by destruct (fetch config c a (heap r)).
  - destruct res as [[k1 v1]|e]; [|done]. apply (inj Some) in H.
    pose proof (inv_calls _ _ I _ _ _ Ht) as [_ Hx]. destruct (Hx k1 v1 eq_refl) as (x & Hx1 & Ho).
    eapply clone_to_opened; [|exact Ho|exact H|done]. cbn. destruct (entries r !! c) as [old|] eqn:E; [|exact Hx1].
    cbn. rewrite lookup_alter_ne; [done|]. intros Heq.
    assert (Cached c = Call t) as [=]. apply (inv_roots _ _ I _ _ k1); cbn; [by rewrite E, <-Heq|by rewrite Ht].
Qed.

Lemma inv_new : inv NewResolver ∅.
Proof. split; try done. by intros [c|t] y k. Qed.

Lemma inv_step σ σ' : step σ σ' → inv (resolver_state σ) (calls σ) → inv (resolver_state σ') (calls σ').
Proof.
  intros Hs I. destruct Hs as [t c r cs Hn|t c a p p' r r' cs Ht Hserved Ha|c r cs|now r cs|r cs|t c k r cs Ht]; cbn in *.
  - assert (∀ x, root_key r (<[t := (c, Begin)]> cs) x = root_key r cs x) as Hr.
    { intros [c'|t']; [done|]. cbn. destruct (decide (t = t')) as [<-|Hne]; [|by rewrite lookup_insert_ne].
      by rewrite lookup_insert_eq, Hn. }
    split; try apply I.
    + intros t1 t2 c1 c2 p1 p2 l [[<- [= <- <-]]|[? H1]]%lookup_insert_Some [[<- [= <- <-]]|[? H2]]%lookup_insert_Some;
        [done..|]. by apply (inv_single _ _ I t1 t2 c1 c2).
    + intros t' c' p1 [[<- [= <- <-]]|[? H1]]%lookup_insert_Some; [done|]. by apply (inv_calls _ _ I t').
    + intros x y k. rewrite !Hr. apply (inv_roots _ _ I).
    + intros k v Hv Hw. destruct (inv_residue _ _ I k v Hv Hw) as [x Hx]. exists x. by rewrite Hr.
  - by apply (inv_advance t c a p p' r r').
  - by apply inv_evict.
  - by apply inv_evict_all.
  - by apply inv_evict_all.
  - apply inv_wipe; [done| |].
    + intros c' Hk. assert (Cached c' = Call t) as [=]. apply (inv_roots _ _ I _ _ k); [done|cbn; by rewrite Ht].
    + intros t' c' l v Ht'. assert (Call t' = Call t) as [= ->]; [|congruence].
      apply (inv_roots _ _ I _ _ k); cbn; [by rewrite Ht'|by rewrite Ht].
Qed.

Lemma inv_reachable σ : rtc step (mkSystem NewResolver ∅) σ → inv (resolver_state σ) (calls σ).
Proof.
  intros H. remember (mkSystem NewResolver ∅) as σ0 eqn:E.
  assert (inv (resolver_state σ0) (calls σ0)) as I by (subst; apply inv_new). clear E.
  induction H as [|σ1 σ2 σ3 H12 _ IH]; [done|]. by apply IH, (inv_step σ1).
Qed.

(** C24: Keys in memory, whatever calls, invalidations, sweeps and shutdowns
    interleave and however Secrets Manager, KMS and the clock answer - [served]
    are the values Secrets Manager may give for each secret name.  A key a
    call returns is a copy no other call and no cache entry has; when it is
    returned it is the content, for the caller's company, of an envelope served
    under the name of that company's own secret, and so is every cached key for
    the company it is cached for; at most one load per company is in flight; and key
    material that has not been wiped is a cached key, the key a load has just
    fetched, or a copy that was returned - so nothing is left once the cache is
    closed, no load is in flight and the callers have wiped their copies. *)
Theorem keys_stay_private σ :
  rtc step (mkSystem NewResolver ∅) σ →
  let h := heap (resolver_state σ) in
  (∀ t c k, calls σ !! t = Some (c, Returned (Ok k)) →
     (∃ v, cells h !! k = Some v ∧ (v = ""%string ∨ opened c v)) ∧
     (∀ t' c', calls σ !! t' = Some (c', Returned (Ok k)) → t' = t) ∧
     (∀ c' e, entries (resolver_state σ) !! c' = Some e → key e ≠ k)) ∧
  (∀ t c p a k r', calls σ !! t = Some (c, p) → answered_from a →
     advance config c a p (resolver_state σ) = Some (Returned (Ok k), r') →
     ∃ v, cells (heap r') !! k = Some v ∧ opened c v) ∧
  (∀ c e, entries (resolver_state σ) !! c = Some e → ∃ v, cells h !! key e = Some v ∧ opened c v) ∧
  (∀ t t' c p p', calls σ !! t = Some (c, p) → calls σ !! t' = Some (c, p') →
     is_Some (loading p) → is_Some (loading p') → t = t') ∧
  (∀ k v, cells h !! k = Some v → wiped v = false →
     (∃ c e, entries (resolver_state σ) !! c = Some e ∧ key e = k) ∨
     ∃ t c p, calls σ !! t = Some (c, p) ∧ ((∃ l v, p = Finish l (Ok (k, v))) ∨ p = Returned (Ok k))).
Proof.
  intros I%inv_reachable. destruct σ as [r cs]. cbn in *. split_and!.
  - intros t c k Ht. split_and!.
    + apply (inv_calls _ _ I _ _ _ Ht).
    + intros t' c' Ht'. assert (Call t' = Call t) as [= ->]; [|done].
      apply (inv_roots _ _ I _ _ k); cbn; [by rewrite Ht'|by rewrite Ht].
    + intros c' e He Hk. assert (Cached c' = Call t) as [=].
      apply (inv_roots _ _ I _ _ k); cbn; [by rewrite He, <-Hk|by rewrite Ht].
  - intros t c p a k r' Ht _. by apply (advance_returns t c a p r k r' cs).
  - apply I.
  - intros t t' c p p' Ht Ht' [l Hl] [l' Hl'].
    assert (∀ t p l, cs !! t = Some (c, p) → loading p = Some l → loads r !! c = Some l) as Hload.
    { intros t1 p1 l1 H1 H2. apply (inv_calls _ _ I) in H1. destruct p1; try done; cbn in H2; injection H2 as ->; apply H1. }
    assert (l' = l) as -> by (pose proof (Hload _ _ _ Ht Hl); pose proof (Hload _ _ _ Ht' Hl'); congruence).
    by apply (inv_single _ _ I t t' c c p p' l).
  - intros k v Hv Hw. destruct (inv_residue _ _ I k v Hv Hw) as [[c|t] Hx]; cbn in Hx.
    + left. apply fmap_Some in Hx as (e & He & ->). eauto.
    + right. apply bind_Some in Hx as ([c p] & Ht & Hp). exists t, c, p. split; [done|].
      destruct p as [| | | | | | | | | |l [[k1 v1]|]|[k1|]]; try done; cbn in Hp; injection Hp as ->; [left; eauto|by right].
Qed.
End Concurrency.

(** Nothing is said of what Secrets Manager answers. *)
Definition any_answer (name : string) (stored : RawMessage) : Prop := True.
Lemma answered_any a : answered_from any_answer a.
Proof. done. Qed.

(** ** One call at a time *)
Section Sequential.
Context `{crypto : Crypto} (config : Config).

(** A call that runs by itself; eight steps are enough, see [resolve_load]. *)
Fixpoint run (fuel : nat) (company : string) (a : answers) (p : pc) (r : Resolver) : pc * Resolver :=
  match fuel with
  | O => (p, r)
  | S fuel => match advance config company a p r with
              | Some (p, r) => run fuel company a p r
              | None => (p, r)
              end
  end.

Definition ResolveKey (company : string) (a : answers) (r : Resolver) : option (result key_ref) * Resolver :=
  match run 8 company a Begin r with
  | (Returned res, r) => (Some res, r)
  | (_, r) => (None, r)
  end.

(** The value of a secret's version never changes; the store says which
    version of each secret is current. *)
Context (history : string → string → RawMessage).
Notation store := (gmap string string).

Definition honest (now : time) (s : store) : answers :=
  mkAnswers now
    (λ name, match s !! name with Some v => Ok (mkSecret (history name v) v) | None => Err ErrNoKey end)
    (λ name, match s !! name with Some v => Ok v | None => Err ErrNoKey end) None None.

(** What a resolver without a cache would answer. *)
Definition uncached (company : string) (s : store) : result string :=
  match s !! SecretName config company with
  | Some v => open company (history (SecretName config company) v)
  | None => Err ErrNoKey
  end.

Record coherent (now : time) (r : Resolver) : Prop := {
  co_bound : ∀ k v, cells (heap r) !! k = Some v → (k < next (heap r))%N;
  co_idle : loads r = ∅;
  co_cached : ∀ c e, entries r !! c = Some e → checkedAt e ≤ now ∧
    ∃ x, cells (heap r) !! key e = Some x ∧ open c (history (SecretName config c) (version e)) = Ok x;
  co_keys : ∀ c c' e e', entries r !! c = Some e → entries r !! c' = Some e' → key e = key e' → c = c';
}.

Definition reveal_result (res : option (result key_ref)) (r : Resolver) : option (result string) :=
  res ← res; Some (k ← res; Ok (content k (heap r))).

Lemma coherent_later now now' r : now ≤ now' → coherent now r → coherent now' r.
Proof.
  intros H C. split; try apply C. intros c e He. destruct (co_cached _ _ C _ _ He) as [? ?]. split; [lia|done].
Qed.

Lemma coherent_evict now c r : coherent now r → coherent now (evictLocked c r).
Proof.
  intros C. unfold evictLocked. destruct (entries r !! c) as [e|] eqn:E; [|done]. split; cbn; try apply C.
  - intros k v. rewrite lookup_alter_Some. intros [(<- & v' & Hv & _)|[_ Hv]]; by apply (co_bound _ _ C) in Hv.
  - intros c' e' [Hne He]%lookup_delete_Some. destruct (co_cached _ _ C _ _ He) as [Ht (x & Hx & Ho)].
    split; [done|]. exists x. split; [|done]. rewrite lookup_alter_ne; [done|]. intros Hk.
    by apply Hne, (co_keys _ _ C c c' e e').
  - intros c1 c2 e1 e2 [_ H1]%lookup_delete_Some [_ H2]%lookup_delete_Some. by apply (co_keys _ _ C c1 c2 e1 e2).
Qed.

Lemma coherent_evict_all now l r : coherent now r → coherent now (fold_right evictLocked r l).
Proof. intros C. induction l as [|c l IH]; cbn; [done|by apply coherent_evict]. Qed.

Lemma coherent_extend now h' r : coherent now r → extends (heap r) h' → coherent now (with_heap (λ _, h') r).
Proof.
  intros C E. split; cbn; try apply C; [apply E|].
  intros c e He. destruct (co_cached _ _ C _ _ He) as [Ht (x & Hx & Ho)]. split; [done|]. exists x. split; [|done].
  rewrite (ext_old _ _ E); [done|]. by eapply (co_bound _ _ C).
Qed.

Lemma clone_to_coherent now k x r :
  coherent now r → cells (heap r) !! k = Some x →
  coherent now (clone_to k r).2 ∧ ∃ k', (clone_to k r).1 = Returned (Ok k') ∧ content k' (heap (clone_to k r).2) = x.
Proof.
  intros C Hk. unfold clone_to, Clone. cbn. replace (content k (heap r)) with x by (unfold content; by rewrite Hk).
  split; [apply coherent_extend, (extends_alloc (heap r) x), C; done|]. eexists. split; [done|].
  unfold content. cbn. by rewrite lookup_insert_eq.
Qed.

Lemma fetch_open company a h res h' :
  kms_fault a = None → fetch config company a h = (res, h') →
  match got a (SecretName config company) with
  | Err e => res = Err (if errors_is e ErrNoKey then e else Wrap "byok: read secret" e)
  | Ok secret =>
      match open company (Value secret) with
      | Err e => res = Err e
      | Ok x => ∃ k, res = Ok (k, VersionID secret) ∧ cells h' !! k = Some x
      end
  end.
Proof.
  intros Hf H. unfold fetch in H. destruct (got a _) as [secret|e]; [|by injection H as <- <-].
  unfold open_in in H. unfold open. destruct (decode_envelope (Value secret)) as [envelope|e]; cbn; [|by injection H as <- <-].
  rewrite Hf in H. destruct (kms_decrypt _ _) as [dataKey|e]; cbn in *; [|by injection H as <- <-].
  destruct (open_with dataKey company envelope) as [plaintext|e]; cbn in H; injection H as <- <-; [|done].
  eexists. split; [done|]. cbn. rewrite lookup_alter_ne by lia. rewrite lookup_insert_eq. unfold content. cbn.
  rewrite lookup_alter_ne by lia. by rewrite lookup_insert_eq.
Qed.

(** A miss asks the store. *)
Lemma resolve_load now s company r n :
  coherent now r → entries r !! company = None →
  ∃ res r', run (3 + n) company (honest now s) Load r = (Returned res, r') ∧ coherent now r' ∧
    reveal_result (Some res) r' = Some (uncached company s).
Proof.
  intros C Hnone. cbn [run Nat.add]. unfold advance at 1. rewrite Hnone. unfold join_load. rewrite (co_idle _ _ C), lookup_empty.
  cbn [fst snd]. set (l := next_load r). set (a := honest now s).
  set (r1 := mkResolver (heap r) _ _ _ _). cbn [run]. unfold advance at 1.
  destruct (fetch config company a (heap r1)) as [res h'] eqn:Ef.
  pose proof (fetch_open company a (heap r1) res h' eq_refl Ef) as Hres.
  apply (fetch_spec config any_answer) in Ef as [E Hnew]; [|apply C|apply answered_any]. unfold uncached.
  assert (∀ e p, coherent now (mkResolver h' (entries r) (delete company (<[company := l]> ∅)) p (l + 1)%N) ∧
    (∀ k x v, cells h' !! k = Some x → (next (heap r) ≤ k)%N → open company (history (SecretName config company) v) = Ok x →
      e = mkEntry k v (time_add now (TTL config)) now →
      coherent now (mkResolver h' (<[company := e]> (entries r)) (delete company (<[company := l]> ∅)) p (l + 1)%N))) as Hco.
  { intros e p. pose proof (coherent_extend now h' r C E) as C'. split.
    - split; cbn; try apply C'. by rewrite delete_insert_eq, delete_empty.
    - intros k x v Hk Hge Ho ->. split; cbn; try apply C'.
      + by rewrite delete_insert_eq, delete_empty.
      + intros c e [[<- <-]|[_ He]]%lookup_insert_Some; [|by apply (co_cached _ _ C')]. cbn. split; [lia|eauto].
      + assert (∀ c e, entries r !! c = Some e → key e ≠ k) as Hold.
        { intros c e He <-. destruct (co_cached _ _ C _ _ He) as [_ (y & Hy & _)]. apply (co_bound _ _ C) in Hy. lia. }
        intros c c' e e' [[<- <-]|[? He]]%lookup_insert_Some [[<- <-]|[? He']]%lookup_insert_Some Hkk; cbn in Hkk;
          [done|by destruct (Hold _ _ He')|by destruct (Hold _ _ He)|by apply (co_keys _ _ C c c' e e')]. }
  cbn [got honest a] in Hres. destruct (s !! SecretName config company) as [v|].
  - cbn [Value VersionID] in Hres. destruct (open company (history _ v)) as [x|e] eqn:Eo.
    + destruct Hres as (k & -> & Hk). destruct Hnew as (Hge & _ & _). cbn [run]. unfold advance at 1. cbn [entries with_heap heap].
      cbn [r1 entries]. rewrite Hnone.
      match goal with |- context [clone_to k ?r2] => assert (coherent now r2) as C2 end.
      { by apply (Hco (mkEntry k v (time_add now (TTL config)) now)
          (<[l:=Some (Ok k)]> (<[l:=None]> (pendings r)))) with (k := k) (x := x) (v := v). }
      destruct (clone_to_coherent now k x _ C2 Hk) as (C3 & k' & Hk' & Hc).
      destruct (clone_to k _) as [p3 r3]. cbn in *. subst p3. exists (Ok k'), r3.
      split; [by destruct n|]. split; [done|]. cbn. by rewrite Hc.
    + subst res. cbn [run]. unfold advance at 1. eexists _, _. split; [by destruct n|]. split; [|done].
      apply (Hco (mkEntry 0%N "" 0 0)).
  - cbn in Hres. subst res. cbn [run]. unfold advance at 1. eexists _, _. split; [by destruct n|]. split; [|done].
    apply (Hco (mkEntry 0%N "" 0 0)).
Qed.

Lemma run_S n company a p r :
  run (S n) company a p r =
    match advance config company a p r with Some (p, r) => run n company a p r | None => (p, r) end.
Proof. done. Qed.

Lemma resolve_miss now s company r n res r' :
  coherent now r → entries r !! company = None → (3 ≤ n)%nat →
  match run n company (honest now s) Load r with
  | (Returned res, r') => (Some res, r')
  | (_, r') => (None, r')
  end = (res, r') →
  coherent now r' ∧ reveal_result res r' = Some (uncached company s).
Proof.
  intros C Hn1 Hn H. destruct (resolve_load now s company r (n - 3) C Hn1) as (res0 & r0 & Hrun & C' & Hr).
  replace (3 + (n - 3))%nat with n in Hrun by lia. rewrite Hrun in H. by injection H as <- <-.
Qed.

(** The cached version is the current one: the answer is a copy. *)
Lemma resolve_hit now s company cached r :
  coherent now r → entries r !! company = Some cached → s !! SecretName config company = Some (version cached) →
  ∃ res r', run 6 company (honest now s) (Confirm cached now) r = (Returned res, r') ∧ coherent now r' ∧
    reveal_result (Some res) r' = Some (uncached company s).
Proof.
  intros C He Es. destruct (co_cached _ _ C _ _ He) as [Hck (x & Hx & Ho)]. cbn [run]. unfold advance at 1.
  assert (is_current company cached r = true) as -> by (unfold is_current; rewrite He; by apply bool_decide_eq_true).
  set (checked := mkEntry _ _ _ _). set (r1 := set_entries _ r).
  assert (coherent now r1) as C1.
  { split; cbn; try apply C.
    - intros c e [[<- <-]|[_ H]]%lookup_insert_Some; [|by apply (co_cached _ _ C)]. cbn. split; [lia|eauto].
    - intros c c' e e' [[<- <-]|[? H]]%lookup_insert_Some [[<- <-]|[? H']]%lookup_insert_Some; cbn; intros Hk; [done|..];
        eapply (co_keys _ _ C); eauto. }
  cbn [run]. unfold advance at 1.
  assert (is_current company checked r1 = true) as ->.
  { unfold is_current. cbn. rewrite lookup_insert_eq. by apply bool_decide_eq_true. }
  destruct (clone_to_coherent now (key checked) x r1 C1 Hx) as (C2 & k' & Hk & Hc).
  destruct (clone_to _ _) as [p2 r2]. cbn in *. subst p2. eexists _, _. split; [done|]. split; [done|].
  unfold uncached. rewrite Es, Ho. cbn. by rewrite Hc.
Qed.

Lemma ResolveKey_spec now s company r res r' :
  VersionCheck config ≤ 0 → coherent now r → ResolveKey company (honest now s) r = (res, r') →
  coherent now r' ∧ reveal_result res r' = Some (uncached company s).
Proof.
  intros Hv C H. unfold ResolveKey in H. rewrite (run_S 7) in H. unfold advance in H.
  destruct (entries r !! company) as [cached|] eqn:He; [|by apply resolve_miss in H; [|done|done|lia]].
  assert (entries (evictLocked company r) !! company = None) as Hev.
  { unfold evictLocked. rewrite He. apply lookup_delete_eq. }
  assert (is_current company cached r = true) as Hcur by (unfold is_current; rewrite He; by apply bool_decide_eq_true).
  destruct (expired _ _); [apply resolve_miss in H; [done|by apply coherent_evict|done|lia]|].
  destruct (co_cached _ _ C _ _ He) as [Hck _].
  assert (time_sub (at_ (honest now s)) (checkedAt cached) <? VersionCheck config = false) as Hd.
  { apply Z.ltb_ge. unfold time_sub. cbn. unfold min_int64, max_int64. lia. }
  rewrite Hd in H. rewrite (run_S 6) in H. unfold advance in H. cbn [current honest] in H.
  destruct (s !! SecretName config company) as [v|] eqn:Es.
  - destruct (bool_decide_reflect (v = version cached)) as [->|Hne].
    + destruct (resolve_hit now s company cached r C He Es) as (res0 & r0 & Hrun & ? & ?).
      cbn [at_ honest] in H. rewrite Hrun in H. by injection H as <- <-.
    + rewrite (run_S 5) in H. unfold advance in H. rewrite Hcur in H.
      apply resolve_miss in H; [done|by apply coherent_evict|done|lia].
  - cbn in H. injection H as <- <-. split; [by apply coherent_evict|]. unfold uncached. by rewrite Es.
Qed.

(** What happens to a resolver and to the secrets, each at its time. *)
Inductive event :=
  | Rotate (name version : string)
  | Remove (name : string)
  | Resolve (company : string)
  | Forget (company : string)
  | SweepNow
  | Shutdown.

Definition store_after (e : event) (s : store) : store :=
  match e with Rotate name v => <[name := v]> s | Remove name => delete name s | _ => s end.

(** What the calls of a history return, with the cache and without. *)
Fixpoint cached_answers (es : list (time * event)) (s : store) (r : Resolver) : list (option (result string)) :=
  match es with
  | [] => []
  | (now, e) :: es =>
      let s' := store_after e s in
      match e with
      | Resolve company =>
          let '(res, r') := ResolveKey company (honest now s) r in
          reveal_result res r' :: cached_answers es s' r'
      | Forget company => cached_answers es s' (Invalidate company r)
      | SweepNow => cached_answers es s' (Sweep now r).2
      | Shutdown => cached_answers es s' (Close r)
      | _ => cached_answers es s' r
      end
  end.
Fixpoint uncached_answers (es : list (time * event)) (s : store) : list (option (result string)) :=
  match es with
  | [] => []
  | (_, e) :: es =>
      match e with
      | Resolve company => Some (uncached company s) :: uncached_answers es s
      | _ => uncached_answers es (store_after e s)
      end
  end.

(** C10: Used by one call at a time, the cache is transparent.  With a version
    check on every call, and a store that answers from its current contents and
    does not fail, over any history of complete calls, rotations, removals,
    invalidations, sweeps and shutdowns in which time does not run backwards,
    every call returns, and returns exactly the key - or the error - that reading
    and opening the company's current secret would give.  Calls that overlap are
    not covered: one that joins a load in flight can be given the key from before
    a rotation, [joined_load_is_stale]. *)
Theorem cache_refines_store es s :
  VersionCheck config ≤ 0 → Sorted Z.le es.*1 →
  cached_answers es s NewResolver = uncached_answers es s.
Proof.
  intros Hv Hs. apply Sorted_StronglySorted in Hs; [|intros a b c; lia].
  assert (∀ t0, Forall (λ t, t0 ≤ t) es.*1 → ∀ r, coherent t0 r → cached_answers es s r = uncached_answers es s) as H.
  2: { destruct es as [|[t e] es]; [done|]. apply (H t).
       - apply StronglySorted_inv in Hs as [_ Hs]. cbn. constructor; [lia|done].
       - by split. }
  revert s. induction es as [|[t e] es IH]; intros s t0 Ht r C; [done|]. cbn in Ht.
  apply Forall_cons in Ht as [Ht _]. apply (coherent_later t0 t) in C; [|done].
  apply StronglySorted_inv in Hs as [Hs Hle]. cbn.
  destruct e; try (by apply (IH Hs _ t)); cbn.
  - destruct (ResolveKey _ _ _) as [res r'] eqn:E. apply ResolveKey_spec in E as [C' ->]; [|done..].
    f_equal. by apply (IH Hs _ t).
  - apply (IH Hs _ t Hle). by apply coherent_evict.
  - apply (IH Hs _ t Hle). by apply coherent_evict_all.
  - apply (IH Hs _ t Hle). by apply coherent_evict_all.
Qed.
End Sequential.

(** ** The resolver behind the gateway

    A gateway process: the resolver's memory and what was written to Kafka.
    The gateway reaches keys only through [KeyMemory], which the resolver's
    heap implements. *)
Record Process := mkProcess { keys : Resolver; produced : list KafkaMessage }.

#[export] Instance Process_log : KafkaLog Process.
Proof.
  refine {| kafka := produced; kafka_append l s := mkProcess (keys s) (produced s ++ l) |}. done.
Defined.

Lemma content_Zero k h : content k (Zero k h) = ""%string.
Proof. unfold content. cbn. rewrite lookup_alter_eq. by destruct (cells h !! k). Qed.

#[export] Instance Process_memory : KeyMemory Process.
Proof.
  refine {| reveal k s := content k (heap (keys s));
            zero_key k s := mkProcess (with_heap (Zero k) (keys s)) (produced s) |}; cbn.
  - intros. apply content_Zero.
  - intros k k' s Hne. unfold content. cbn. by rewrite lookup_alter_ne.
  - done.
  - done.
Defined.

Section Completions.
Context `{crypto : Crypto} (config : Config).

Definition resolve_with (a : answers) (company : string) : M Process key_ref := λ fs s,
  match ResolveKey config company a (keys s) with
  | (Some res, r) => (res, fs, mkProcess r (produced s))
  | (None, r) => (Err (Plain "blocked"), fs, mkProcess r (produced s))
  end.

(** No call is under way and nothing but the cache holds a key. *)
Definition clean (r : Resolver) : Prop := inv config any_answer r ∅ ∧ loads r = ∅.

Lemma clean_new : clean NewResolver.
Proof. split; [apply inv_new|done]. Qed.

Lemma clean_cached r k v : clean r → cells (heap r) !! k = Some v → wiped v = false →
  ∃ c e, entries r !! c = Some e ∧ key e = k.
Proof.
  intros [I _] Hk Hw. destruct (inv_residue _ _ _ _ I k v Hk Hw) as [[c|t] Hx]; [|done].
  cbn in Hx. apply fmap_Some in Hx as (e & He & ->). eauto.
Qed.

Lemma inv_run n t c a p r cs :
  inv config any_answer r cs → cs !! t = Some (c, p) →
  inv config any_answer (run config n c a p r).2 (<[t := (c, (run config n c a p r).1)]> cs).
Proof.
  revert p r cs. induction n as [|n IH]; intros p r cs I Ht; [cbn; by rewrite insert_id|].
  rewrite run_S. destruct (advance config c a p r) as [[p' r']|] eqn:E; [|cbn; by rewrite insert_id].
  apply (inv_advance config any_answer t c a p p' r r' cs) in E; [|done..].
  specialize (IH p' r' _ E (lookup_insert_eq _ _ _)). by rewrite insert_insert_eq in IH.
Qed.

(** A call that runs alone returns, and leaves no load behind. *)
Lemma load_returns n c a r : (3 ≤ n)%nat → loads r = ∅ →
  ∃ res r', run config n c a Load r = (Returned res, r') ∧ loads r' = ∅.
Proof.
  intros Hn Hl. destruct n as [|[|[|n]]]; try lia. clear Hn.
  assert (∀ res r', run config n c a (Returned res) r' = (Returned res, r')) as Hret by (by destruct n).
  assert (∃ res r', match join_load c r with (p, r) => run config (2 + n) c a p r end = (Returned res, r') ∧ loads r' = ∅) as Hj.
  { unfold join_load. rewrite Hl, lookup_empty. cbn [Nat.add]. rewrite run_S. unfold advance.
    destruct (fetch config c a _) as [res h']. rewrite run_S. unfold advance. cbn [loads with_heap].
    destruct res as [[k v]|e].
    - unfold clone_to. destruct (Clone _ _) as [k' h2]. rewrite Hret. eexists _, _. split; [done|]. cbn.
      destruct (entries r !! c); cbn; by rewrite delete_insert_eq, delete_empty.
    - rewrite Hret. eexists _, _. split; [done|]. cbn. by rewrite delete_insert_eq, delete_empty. }
  rewrite run_S. unfold advance. destruct (entries r !! c) as [cached|]; [|by destruct (join_load c r)].
  destruct (before _ _); [|by destruct (join_load c r)].
  unfold clone_to. destruct (Clone _ _) as [k' h']. rewrite run_S. cbn. by eauto.
Qed.

Lemma ResolveKey_returns c a r : loads r = ∅ →
  ∃ res r', ResolveKey config c a r = (Some res, r') ∧ loads r' = ∅.
Proof.
  intros Hl. unfold ResolveKey.
  assert (∃ res r', run config 8 c a Begin r = (Returned res, r') ∧ loads r' = ∅) as (res & r' & -> & H); [|eauto].
  assert (∀ r1, loads (evictLocked c r1) = loads r1) as Hev by (intros r1; unfold evictLocked; by destruct (entries r1 !! c)).
  assert (∀ res n r1, run config n c a (Returned res) r1 = (Returned res, r1)) as Hret by (by intros res [|n] r1).
  assert (∀ cached r1, loads r1 = ∅ → ∃ res r', run config 5 c a (Copy cached) r1 = (Returned res, r') ∧ loads r' = ∅) as Hcopy.
  { intros cached r1 Hl1. rewrite (run_S _ 4). unfold advance. destruct (is_current _ _ _); [|apply load_returns; [lia|done]].
    unfold clone_to. destruct (Clone _ _) as [k' h']. rewrite Hret. eauto. }
  assert (∀ cached r1, loads r1 = ∅ → ∃ res r', run config 7 c a (Copy cached) r1 = (Returned res, r') ∧ loads r' = ∅) as Hcopy7.
  { intros cached r1 Hl1. rewrite (run_S _ 6). unfold advance. destruct (is_current _ _ _); [|apply load_returns; [lia|done]].
    unfold clone_to. destruct (Clone _ _) as [k' h']. rewrite Hret. eauto. }
  rewrite (run_S _ 7). unfold advance. destruct (entries r !! c) as [cached|]; [|apply load_returns; [lia|done]].
  destruct (expired _ _); [apply load_returns; [lia|by rewrite Hev]|].
  destruct (_ <? _); [by apply Hcopy7|]. rewrite (run_S _ 6). unfold advance.
  destruct (current a _) as [v|e]; [destruct (bool_decide _)|destruct (errors_is _ _)].
  - rewrite (run_S _ 5). unfold advance. apply Hcopy. by destruct (is_current _ _ _).
  - rewrite (run_S _ 5). unfold advance. apply load_returns; [lia|]. destruct (is_current _ _ _); [by rewrite Hev|done].
  - rewrite (run_S _ 5). unfold advance. rewrite Hret. eexists _, _. split; [done|]. by rewrite Hev.
  - rewrite Hret. eauto.
Qed.

(** A call that is over, its key wiped, is forgotten. *)
Lemma inv_over t c res r :
  inv config any_answer r {[t := (c, Returned res)]} → (∀ k, res = Ok k → content k (heap r) = ""%string) →
  inv config any_answer r ∅.
Proof.
  intros I Hk. split; try apply I; try done.
  - intros [c1|t1] [c2|t2] k; try done. intros H1 H2. by apply (inv_roots _ _ _ _ I _ _ k).
  - intros k v Hv Hw. destruct (inv_residue _ _ _ _ I k v Hv Hw) as [[c'|t'] Hx]; [by exists (Cached c')|exfalso].
    cbn in Hx. apply bind_Some in Hx as ([c1 p1] & [<- [= <- <-]]%lookup_singleton_Some & Hx). cbn in Hx.
    destruct res as [k1|]; [|done]. injection Hx as ->. specialize (Hk k eq_refl). unfold content in Hk.
    rewrite Hv in Hk. cbn in Hk. by subst.
Qed.

Lemma resolve_with_cases a c fs s r fs' s' :
  clean (keys s) → resolve_with a c fs s = (r, fs', s') →
  produced s' = produced s ∧ fs' = fs ∧ loads (keys s') = ∅ ∧ inv config any_answer (keys s') {[0%N := (c, Returned r)]}.
Proof.
  intros [I Hl] H. unfold resolve_with in H.
  destruct (ResolveKey_returns c a (keys s) Hl) as (res & r' & E & Hl'). rewrite E in H. injection H as <- <- <-.
  split_and!; try done. cbn. unfold ResolveKey in E.
  assert (inv config any_answer (keys s) (<[0%N := (c, Begin)]> ∅)) as I0.
  { apply (inv_step config any_answer (mkSystem (keys s) ∅) _ (step_call config any_answer 0%N c (keys s) ∅ (lookup_empty _)) I). }
  pose proof (inv_run 8 0%N c a Begin (keys s) _ I0 (lookup_insert_eq _ _ _)) as I1.
  rewrite insert_insert_eq in I1. destruct (run config 8 c a Begin (keys s)) as [p r1]. cbn in I1.
  destruct p; try done. by injection E as -> ->.
Qed.

Lemma Emit_keys topic key envelope fs (s : Process) : keys (Emit topic key envelope fs s).2 = keys s.
Proof.
  destruct (Emit _ _ _ _ _) as [[r fs'] s'] eqn:E. by apply Emit_cases in E as [(body & _ & _ & [->|[_ [->| ->]]])|[_ ->]].
Qed.

(** A completion leaves no key behind.  With the resolver behind it, from
    memory in which only the cache holds keys, a BYOK completion - whatever the
    secrets, KMS, the provider, the stream and Kafka do - ends in such memory
    again, and no call is left waiting: however many completions ran, the only
    key material in the process is what is cached. *)
Theorem completion_leaves_cache_only provider topic a env request onDelta fs s :
  Mode request = ModeBYOK → clean (keys s) →
  (∀ q fs s, keys (Provider_Stream provider q onDelta fs s).2 = keys s) →
  let s' := (Complete provider topic (Some (resolve_with a)) env request onDelta fs s).2 in
  clean (keys s') ∧
  ∀ k v, cells (heap (keys s')) !! k = Some v → wiped v = false → ∃ c e, entries (keys s') !! c = Some e ∧ key e = k.
Proof.
  intros Hm Hc Hp s'. assert (clean (keys s')) as H; [|split; [done|]; intros k v; by apply clean_cached].
  subst s'. unfold Complete, stream_request. rewrite bool_decide_eq_true_2 by done. unfold resolveKey.
  destruct (resolve_with a (CompanyID request) fs s) as [[res fs1] s1] eqn:Er.
  apply resolve_with_cases in Er as (_ & _ & Hl & I); [|done].
  destruct res as [k|e]; cbn [fst snd fmap result_fmap].
  - destruct (Provider_Stream _ _ _ fs1 s1) as [[[[delivered result] e] fs2] s2] eqn:Es.
    assert (keys s2 = keys s1) as Hk by (change s2 with ((delivered, result, e, fs2, s2)).2; rewrite <-Es; apply Hp).
    assert (clean (keys (wipe (Some k) s2))) as Hw.
    { cbn. rewrite Hk. split; [|done]. apply (inv_over 0%N (CompanyID request) (Ok k)); [|intros k' [= <-]; apply content_Zero].
      exact (inv_step config any_answer (mkSystem (keys s1) {[0%N := (CompanyID request, Returned (Ok k))]}) _
        (step_zero config any_answer 0%N (CompanyID request) k (keys s1) _ (lookup_singleton_eq _ _)) I). }
    destruct (outcome_status _ _ _) as [status code]. destruct (Events.New _ _ _ _ _) as [envelope|e']; [|done].
    pose proof (Emit_keys topic (SessionID request) envelope fs2 (wipe (Some k) s2)) as He.
    destruct (Emit _ _ _ _ _) as [[[u|e'] fs3] s3]; cbn in *; by rewrite He.
  - assert (clean (keys s1)) as Hw by (split; [by apply (inv_over 0%N (CompanyID request) (Err e))|done]).
    destruct (outcome_status _ _ _) as [status code]. destruct (Events.New _ _ _ _ _) as [envelope|e']; [|done].
    pose proof (Emit_keys topic (SessionID request) envelope fs1 s1) as He.
    destruct (Emit _ _ _ _ _) as [[[u|e'] fs3] s3]; cbn in *; by rewrite He.
Qed.
End Completions.

(** ** A worked example

    A stand-in for KMS and AES-GCM that satisfies their laws by writing down
    what it was given. *)
Fixpoint bits (p : positive) : string :=
  match p with xH => "."%string | xO p => String "0"%char (bits p) | xI p => String "1"%char (bits p) end.
Fixpoint unbits (s : string) : option positive :=
  match s with
  | String "."%char EmptyString => Some 1%positive
  | String "0"%char s => xO <$> unbits s
  | String "1"%char s => xI <$> unbits s
  | _ => None
  end.
Lemma unbits_bits p : unbits (bits p) = Some p.
Proof. induction p as [p IH|p IH|]; cbn; [by rewrite IH..|done]. Qed.
Lemma bits_not_empty p : bits p ≠ ""%string.
Proof. by destruct p. Qed.

Definition plain_decrypt (blob : option string) (ctx : gmap string string) : result string :=
  match b ← blob; p ← unbits b; (countable.decode p : option (gmap string string * string)) with
  | Some (ctx', k) => if bool_decide (ctx' = ctx) then Ok k else Err (Plain "InvalidCiphertextException")
  | None => Err (Plain "InvalidCiphertextException")
  end.
Definition plain_open (k n c a : string) : option string :=
  match p ← unbits c; (countable.decode p : option (string * string * string * string)) with
  | Some (k', n', a', p) => if bool_decide ((k', n', a') = (k, n, a)) then Some p else None
  | None => None
  end.

Definition plain_crypto : Crypto.
Proof.
  refine {| kms_encrypt _ ctx k := Some (bits (countable.encode (ctx, k))); kms_decrypt := plain_decrypt;
            aead_seal k n p a := bits (countable.encode (k, n, a, p)); aead_open := plain_open; nonce_size := 12 |}.
  - intros _ ctx k. unfold plain_decrypt. cbn. rewrite unbits_bits. cbn. rewrite decode_encode. by rewrite bool_decide_eq_true_2.
  - intros _ ctx ctx' k Hne. unfold plain_decrypt. cbn. rewrite unbits_bits. cbn. rewrite decode_encode.
    by rewrite bool_decide_eq_false_2.
  - intros _ ctx k. eexists. split; [done|]. apply bits_not_empty.
  - intros k n p a. unfold plain_open. rewrite unbits_bits. cbn. rewrite decode_encode. by rewrite bool_decide_eq_true_2.
  - intros k n p a a' Hne. unfold plain_open. rewrite unbits_bits. cbn. rewrite decode_encode.
    rewrite bool_decide_eq_false_2; [done|]. intros [=]. congruence.
  - intros. apply bits_not_empty.
  - done.
Defined.

Definition example_data_key : string := "0123456789abcdef0123456789abcdef".
Definition example_nonce : string := "nonce-nonce-".
Definition example_seal (company apiKey : string) : RawMessage :=
  match Seal (crypto := plain_crypto)
          (Ok (example_data_key, kms_encrypt (Crypto := plain_crypto) "cmk" (encryptionContext company) example_data_key))
          (Ok example_nonce) "cmk" company apiKey with
  | Ok j => Some j
  | Err _ => None
  end.

Lemma envelope_opens_for_its_company_witness :
  open (crypto := plain_crypto) "acme" (example_seal "acme" "sk-1") = Ok "sk-1"%string ∧
  is_ok (open (crypto := plain_crypto) "globex" (example_seal "acme" "sk-1")) = false.
Proof.
  destruct (envelope_opens_for_its_company (crypto := plain_crypto) example_data_key example_nonce "cmk" "acme" "sk-1")
    as (stored & Hs & Ho & Hno); [vm_compute; reflexivity|vm_compute; reflexivity|vm_compute; reflexivity|].
  unfold example_seal. rewrite Hs. split; [exact Ho|]. apply Hno. vm_compute. discriminate.
Defined.

Definition example_config : Config := mkConfig "" 0 0.
Definition example_history (name version : string) : RawMessage :=
  if bool_decide (name = "ta-platform/companies/acme/ai-provider-key"%string)
  then example_seal "acme" ("sk-" +:+ version) else example_seal "globex" ("gk-" +:+ version).
Definition example_store : gmap string string :=
  {["ta-platform/companies/acme/ai-provider-key" := "1"; "ta-platform/companies/globex/ai-provider-key" := "7"]}%string.
Definition example_answers (now : time) : answers := honest example_history now example_store.

Lemma cache_refines_store_witness :
  let es := [(1, Resolve "acme"); (2, Resolve "acme"); (3, Rotate "ta-platform/companies/acme/ai-provider-key" "2");
             (4, Resolve "acme"); (5, Remove "ta-platform/companies/acme/ai-provider-key"); (6, Resolve "acme")]%string in
  cached_answers (crypto := plain_crypto) (NewConfig example_config) example_history es example_store NewResolver =
    [Some (Ok "sk-1"); Some (Ok "sk-1"); Some (Ok "sk-2"); Some (Err ErrNoKey)]%string.
Proof.
  cbv zeta. rewrite (cache_refines_store (crypto := plain_crypto) (NewConfig example_config) example_history).
  - vm_compute. reflexivity.
  - vm_compute. discriminate.
  - repeat constructor; vm_compute; discriminate.
Defined.

(** A schedule: calls start, and advance one step at a time. *)
Inductive move := Start (t : N) (company : string) | Go (t : N) (a : answers).
Definition play (config : Config) (m : move) (σ : System) : System :=
  match m with
  | Start t c => match calls σ !! t with
                 | None => mkSystem (resolver_state σ) (<[t := (c, Begin)]> (calls σ))
                 | Some _ => σ end
  | Go t a => match calls σ !! t with
              | Some (c, p) => match advance (crypto := plain_crypto) config c a p (resolver_state σ) with
                               | Some (p', r') => mkSystem r' (<[t := (c, p')]> (calls σ))
                               | None => σ end
              | None => σ end
  end.
Definition move_from (served : string → RawMessage → Prop) (m : move) : Prop :=
  match m with Start _ _ => True | Go _ a => answered_from served a end.
Lemma play_reachable config served ms σ : Forall (move_from served) ms →
  rtc (step (crypto := plain_crypto) config served) σ (fold_left (λ σ m, play config m σ) ms σ).
Proof.
  intros Hms. revert σ. induction Hms as [|m ms Hm _ IH]; intros [r cs]; [reflexivity|]. cbn [fold_left]. etrans; [|apply IH].
  destruct m as [t c|t a]; cbn in Hm |- *.
  - destruct (cs !! t) eqn:E; [reflexivity|]. by apply rtc_once, step_call.
  - destruct (cs !! t) as [[c p]|] eqn:E; [|reflexivity]. destruct (advance _ _ _ _ _) as [[p' r']|] eqn:Ea; [|reflexivity].
    by apply rtc_once, (step_advance (crypto := plain_crypto) config served t c a p p').
Qed.

(** Two calls of one company share a load; a third company has its own. *)
Definition example_schedule : list move :=
  let a := example_answers 1 in
  [Start 1 "acme"; Start 2 "acme"; Start 3 "globex"; Go 1 a; Go 2 a; Go 1 a; Go 2 a; Go 1 a; Go 3 a; Go 3 a; Go 3 a;
   Go 1 a; Go 2 a; Go 2 a; Go 3 a]%string.
Definition example_system : System :=
  fold_left (λ σ m, play (NewConfig example_config) m σ) example_schedule (mkSystem NewResolver ∅).

Definition returned_value (t : N) (σ : System) : option string :=
  match calls σ !! t with Some (_, Returned (Ok k)) => Some (content k (heap (resolver_state σ))) | _ => None end.

(** Secrets Manager answers each name with a version of that secret. *)
Definition example_served (name : string) (stored : RawMessage) : Prop := ∃ version, stored = example_history name version.
Lemma example_answers_served now : answered_from example_served (example_answers now).
Proof. intros name secret. cbn. destruct (example_store !! name) as [v|]; [|done]. intros [= <-]. by exists v. Qed.

Lemma keys_stay_private_witness :
  (returned_value 1 example_system, returned_value 2 example_system, returned_value 3 example_system)
    = (Some "sk-1", Some "sk-1", Some "gk-7")%string ∧
  (∀ t c k, calls example_system !! t = Some (c, Returned (Ok k)) →
    ∀ t' c', calls example_system !! t' = Some (c', Returned (Ok k)) → t' = t) ∧
  ∀ c e, entries (resolver_state example_system) !! c = Some e →
    ∃ v, cells (heap (resolver_state example_system)) !! key e = Some v ∧
      opened (crypto := plain_crypto) (NewConfig example_config) example_served c v.
Proof.
  assert (Hms : Forall (move_from example_served) example_schedule).
  { unfold example_schedule. repeat (apply Forall_cons; split; [first [exact I|apply example_answers_served]|]). apply Forall_nil. exact I. }
  destruct (keys_stay_private (crypto := plain_crypto) (NewConfig example_config) example_served example_system
    (play_reachable (NewConfig example_config) example_served example_schedule (mkSystem NewResolver ∅) Hms)) as (H1 & _ & H3 & _).
  split; [vm_compute; reflexivity|]. split; [|exact H3]. intros t c k Ht. apply (H1 t c k Ht).
Defined.

Definition example_provider : Provider := mkProvider (S := Process) "anthropic"
  (λ q onDelta fs s, (["hi"%string], mkProviderResult "" FinishStop "end_turn" (mkUsage 1 1), None, fs, s)).
Definition example_byok_request : CompleteRequest :=
  mkCompleteRequest "acme" "i" "s" "p" 5 ModeBYOK "m" "" [mkMessage RoleUser "x"] 10.
Definition example_completion : (Outcome * option error) * script * Process :=
  Complete example_provider "events" (Some (resolve_with (crypto := plain_crypto) (NewConfig example_config) (example_answers 1)))
    (mkSurroundings None 0 0 (Ok [1; 2])) example_byok_request (λ _, mret ()) [] (mkProcess NewResolver []).

Lemma completion_leaves_cache_only_witness :
  example_completion.1.1.2 = None ∧ length (produced example_completion.2) = 1%nat ∧
  ∀ k v, cells (heap (keys example_completion.2)) !! k = Some v → wiped v = false →
    ∃ c e, entries (keys example_completion.2) !! c = Some e ∧ key e = k.
Proof.
  split; [vm_compute; reflexivity|]. split; [vm_compute; reflexivity|].
  apply (completion_leaves_cache_only (crypto := plain_crypto) (NewConfig example_config) example_provider "events" (example_answers 1)
    (mkSurroundings None 0 0 (Ok [1; 2])) example_byok_request (λ _, mret ()) [] (mkProcess NewResolver [])).
  - reflexivity.
  - apply clean_new.
  - intros q fs s. reflexivity.
Defined.

(** *** What concurrency changes

    A load in flight at shutdown caches its key after [Close]. *)
Example close_misses_load_in_flight :
  let a := example_answers 1 in
  let σ := fold_left (λ σ m, play (NewConfig example_config) m σ) [Start 1 "acme"%string; Go 1 a; Go 1 a; Go 1 a]
             (mkSystem NewResolver ∅) in
  let σ' := play (NewConfig example_config) (Go 1 a) (mkSystem (Close (resolver_state σ)) (calls σ)) in
  entries (resolver_state (mkSystem (Close (resolver_state σ)) (calls σ))) = ∅ ∧
  (λ e, content (key e) (heap (resolver_state σ'))) <$> entries (resolver_state σ') !! "acme"%string = Some "sk-1"%string.
Proof. vm_compute. split; reflexivity. Qed.

(** A call that starts after a rotation but joins a load that read the secret
    before it is given the old key, even with a version check on every call. *)
Example joined_load_is_stale :
  let a := example_answers 1 in
  let rotated := <["ta-platform/companies/acme/ai-provider-key" := "2"]>%string example_store in
  let b := honest example_history 2 rotated in
  let σ := fold_left (λ σ m, play (NewConfig example_config) m σ)
    [Start 1 "acme"; Go 1 a; Go 1 a; Go 1 a; Start 2 "acme"; Go 2 b; Go 2 b; Go 1 b; Go 2 b; Go 2 b]%string (mkSystem NewResolver ∅) in
  returned_value 2 σ = Some "sk-1"%string ∧
  uncached (crypto := plain_crypto) (NewConfig example_config) example_history "acme" rotated = Ok "sk-2"%string.
Proof. vm_compute. split; reflexivity. Qed.
