(* ===== verification/Cloud.v ===== *)
(** * The AWS adapters (internal/aigateway/byok/aws.go, internal/store/s3/s3.go)

    What the adapters make of the answers of the AWS SDK.  Secrets Manager is a
    vault of versions with their stages and S3 one bucket of objects; both answer
    as their API documents, in any order and with any failure.  KMS is handed its
    arguments; what it and the envelope do is in [Byok]. *)
From S2P Require Import Prelude Str Json JsonText Tx Sandbox.
From S2P Require Import Byok.

(** ** Secrets Manager *)
Definition currentStage : string := "AWSCURRENT".
Definition ResourceNotFoundException : string := "ResourceNotFoundException".

(** [GetSecretValueOutput], the part that is read. *)
Record SecretOutput := mkSecretOutput { SecretBinary : option string; SecretString : option string; VersionId : option string }.
Definition mapSecretsError (e : error) : error :=
  match errors_as ResourceNotFoundException e with Some _ => ErrNoKey | None => e end.

Section Secrets.
(** The two calls of the SDK; the stages of the versions are a Go map, in the
    order its iteration happens to have. *)
Context (GetSecretValue : string → string → result SecretOutput).
Context (DescribeSecret : string → result (list (string * list string))).

Definition secret_bytes (out : SecretOutput) : string :=
  default ""%string (match SecretBinary out with Some v => Some v | None => SecretString out end).
Definition Get (name : string) : result Secret :=
  match GetSecretValue name currentStage with
  | Err e => Err (mapSecretsError e)
  | Ok out =>
      if len (secret_bytes out) =? 0 then Err ErrNoKey
      else Ok (mkSecret (parse_json (secret_bytes out)) (default ""%string (VersionId out)))
  end.
Fixpoint current_of (versions : list (string * list string)) : result string :=
  match versions with
  | [] => Err ErrNoKey
  | (version, stages) :: versions =>
      if existsb (λ stage, bool_decide (stage = currentStage)) stages then Ok version else current_of versions
  end.
Definition CurrentVersion (name : string) : result string :=
  match DescribeSecret name with
  | Err e => Err (mapSecretsError e)
  | Ok versions => current_of versions
  end.
End Secrets.

(** ** KMS *)
Definition DataKeySpecAes256 : string := "AES_256".
Definition KMS_GenerateDataKey (GenerateDataKey : string → string → gmap string string → result (string * option string))
    (keyID : string) (encryptionContext : gmap string string) : result (string * option string) :=
  GenerateDataKey keyID DataKeySpecAes256 encryptionContext.
Definition KMS_Decrypt (Decrypt : option string → gmap string string → result string)
    (encrypted : option string) (encryptionContext : gmap string string) : result string :=
  wrap_err "kms decrypt" (Decrypt encrypted encryptionContext).

(** ** S3 *)
Definition ErrNotFound : error := Sentinel "s3.ErrNotFound".
Definition NoSuchKey : string := "NoSuchKey".
Definition NoSuchBucket : error := Typed "NoSuchBucket" "" (Plain "The specified bucket does not exist").
Definition BucketAlreadyOwnedByYou : string := "BucketAlreadyOwnedByYou".

(** The bucket of a client. *)
Record Bucket := mkBucket { made : bool; contents : gmap string string }.
Definition head_bucket (b : Bucket) : result (() * Bucket) := if made b then Ok ((), b) else Err NoSuchBucket.
Definition create_bucket (b : Bucket) : result (() * Bucket) :=
  if made b then Err (Typed BucketAlreadyOwnedByYou "" (Plain "owned")) else Ok ((), mkBucket true (contents b)).
Definition put_object (key body : string) (b : Bucket) : result (() * Bucket) :=
  if made b then Ok ((), mkBucket true (<[key := body]> (contents b))) else Err NoSuchBucket.
Definition get_object (key : string) (b : Bucket) : result (string * Bucket) :=
  if made b then match contents b !! key with
                 | Some body => Ok (body, b)
                 | None => Err (Typed NoSuchKey "" (Plain "The specified key does not exist."))
                 end
  else Err NoSuchBucket.

(** Messages name the key and the bucket as they are, where the code quotes
    them. *)
Definition Ping (bucket : string) : M Bucket () := wrapM ("s3: head bucket " +:+ bucket) (stmt head_bucket).
Definition EnsureBucket (bucket : string) : M Bucket () := λ fs b,
  match Ping bucket fs b with
  | (Ok _, fs, b) => (Ok (), fs, b)
  | (Err _, fs, b) =>
      match stmt create_bucket fs b with
      | (Err e, fs, b) =>
          match errors_as BucketAlreadyOwnedByYou e with
          | Some _ => (Ok (), fs, b)
          | None => (Err (Wrap ("s3: create bucket " +:+ bucket) e), fs, b)
          end
      | (Ok _, fs, b) => (Ok (), fs, b)
      end
  end.
Definition Put (key body : string) : M Bucket () := wrapM ("s3: put " +:+ key) (stmt (put_object key body)).

(** [io.ReadAll] of a body of which [arriving] bytes come before the connection
    breaks, if it does, through [io.LimitReader] with limit [n]. *)
Definition read_limited (n : Z) (arriving : option nat) (body : string) : result string :=
  let arrived := match arriving with Some k => take_bytes k body | None => body end in
  let broken := match arriving with Some k => (k <? String.length body)%nat | None => false end in
  if n <=? len arrived then Ok (take_bytes (Z.to_nat n) arrived)
  else if broken then Err (Plain "unexpected EOF") else Ok arrived.
Definition Object_Get (key : string) (maxBytes : Z) (arriving : option nat) : M Bucket string := λ fs b,
  match stmt (get_object key) fs b with
  | (Err e, fs, b) =>
      (Err match errors_as NoSuchKey e with Some _ => ErrNotFound | None => Wrap ("s3: get " +:+ key) e end, fs, b)
  | (Ok object, fs, b) =>
      (body ← wrap_err ("s3: read " +:+ key) (read_limited (add64 maxBytes 1) arriving object);
       if maxBytes <? len body then Err (Plain ("s3: object " +:+ key +:+ " exceeds " +:+ render_int maxBytes +:+ " bytes"))
       else Ok body, fs, b)
  end.

(** ** The vault behind the calls *)
Record VaultVersion := mkVaultVersion { vv_id : string; vv_stages : list string; vv_binary : option string; vv_string : option string }.
Definition vv_current (v : VaultVersion) : bool := existsb (λ stage, bool_decide (stage = currentStage)) (vv_stages v).
Definition vv_bytes (v : VaultVersion) : string := default ""%string (match vv_binary v with Some b => Some b | None => vv_string v end).
Notation vault := (gmap string (list VaultVersion)).
Definition not_found : error := Typed ResourceNotFoundException "" (Plain "Secrets Manager can't find the specified secret.").
Definition vault_get (vs : vault) (name stage : string) : result SecretOutput :=
  match vs !! name ≫= List.find (λ v, existsb (λ s, bool_decide (s = stage)) (vv_stages v)) with
  | Some v => Ok (mkSecretOutput (vv_binary v) (vv_string v) (Some (vv_id v)))
  | None => Err not_found
  end.
Definition vault_describe (order : list (string * list string) → list (string * list string)) (vs : vault) (name : string) :
    result (list (string * list string)) :=
  match vs !! name with
  | Some versions => Ok (order (map (λ v, (vv_id v, vv_stages v)) versions))
  | None => Err not_found
  end.
(** What Secrets Manager keeps: at most one version of a secret is current, its
    value is not empty, and version ids name versions. *)
Record vault_ok (vs : vault) : Prop := {
  vault_one : ∀ name versions v v', vs !! name = Some versions → v ∈ versions → v' ∈ versions → vv_current v = true → vv_current v' = true → v = v';
  vault_value : ∀ name versions v, vs !! name = Some versions → v ∈ versions → vv_current v = true → vv_bytes v ≠ ""%string;
  vault_ids : ∀ name versions v v', vs !! name = Some versions → v ∈ versions → v' ∈ versions → vv_id v = vv_id v' → v = v';
}.
(** The current version of every secret that has one, and the value of each
    version: the store and the history of the BYOK resolver. *)
Definition current_version (vs : vault) (name : string) : option string := vv_id <$> (vs !! name ≫= List.find vv_current).
Definition version_value (vs : vault) (name version : string) : RawMessage :=
  match vs !! name ≫= List.find (λ v, bool_decide (vv_id v = version)) with Some v => parse_json (vv_bytes v) | None => None end.

(** ** What the resolver is told *)
Definition current_versions (vs : vault) : gmap string string := omap (λ versions, vv_id <$> List.find vv_current versions) vs.

Lemma mapSecretsError_not_found : mapSecretsError not_found = ErrNoKey.
Proof. vm_compute. reflexivity. Qed.
Lemma find_unique {A} (p : A → bool) l x : x ∈ l → p x = true → (∀ y, y ∈ l → p y = true → y = x) → List.find p l = Some x.
Proof.
  intros Hx Hp Hu. destruct (List.find p l) as [y|] eqn:E.
  - apply find_some in E as [Hy Hpy]. f_equal. apply Hu; [by apply list_elem_of_In|done].
  - apply find_none with (x := x) in E; [congruence|by apply list_elem_of_In].
Qed.
Lemma current_of_spec versions : current_of versions =
  match List.find (λ v, existsb (λ stage, bool_decide (stage = currentStage)) v.2) versions with Some v => Ok v.1 | None => Err ErrNoKey end.
Proof. induction versions as [|[version stages] versions IH]; [done|]. cbn. destruct (existsb _ stages); [done|exact IH]. Qed.
Lemma existsb_stage_map {B} (f : VaultVersion → B) (p : B → bool) l : List.find p (map f l) = f <$> List.find (λ v, p (f v)) l.
Proof. induction l as [|v l IH]; [done|]. cbn. by destruct (p (f v)). Qed.

(** The adapter gives the resolver what it relies on: over a vault as Secrets
    Manager keeps it, and whatever order the stages are iterated in, the value
    and the version that [Get] returns are those [CurrentVersion] names, a
    secret without a current version has no key for both, and together they
    are the answers under which the key cache is transparent. *)
Theorem vault_answers_honest order vs now name :
  vault_ok vs → (∀ l, order l ≡ₚ l) →
  let answers := honest (version_value vs) now (current_versions vs) in
  Get (vault_get vs) name = got answers name ∧ CurrentVersion (vault_describe order vs) name = current answers name.
Proof.
  intros [Hone Hval Hids] Hp answers. subst answers. cbn. unfold current_versions. rewrite lookup_omap. unfold Get, CurrentVersion, vault_get, vault_describe.
  destruct (vs !! name) as [versions|] eqn:E.
  2: { cbn. rewrite mapSecretsError_not_found. by split. }
  cbn [mbind option_bind].
  change (λ v, existsb (λ s, bool_decide (s = currentStage)) (vv_stages v)) with vv_current. rewrite current_of_spec.
  destruct (List.find vv_current versions) as [v|] eqn:Ev; cbn [fmap option_fmap option_map].
  - apply find_some in Ev as [Hv Hc]. apply list_elem_of_In in Hv. split.
    + unfold secret_bytes. cbn [SecretBinary SecretString VersionId]. fold (vv_bytes v). pose proof (Hval name versions v E Hv Hc) as Hne.
      destruct (len (vv_bytes v) =? 0) eqn:El; [bool_prop; destruct (vv_bytes v); [done|unfold len in El; cbn in El; lia]|].
      do 2 f_equal. unfold version_value. rewrite E. cbn. rewrite (find_unique _ versions v Hv); [done|by apply bool_decide_eq_true|].
      intros y Hy Hye. apply bool_decide_eq_true in Hye. by apply (Hids name versions).
    + rewrite (find_unique _ (order _) (vv_id v, vv_stages v)); [done| |exact Hc|].
      * rewrite Hp. apply list_elem_of_In, in_map_iff. exists v. split; [done|by apply list_elem_of_In].
      * intros y Hy Hyc. rewrite Hp in Hy. apply list_elem_of_In, in_map_iff in Hy as (v' & <- & Hv'). apply list_elem_of_In in Hv'.
        by rewrite (Hone name versions v v' E Hv Hv' Hc Hyc).
  - cbn. rewrite mapSecretsError_not_found. split; [done|]. destruct (List.find _ (order _)) as [y|] eqn:Ey; [|done]. apply find_some in Ey as [Hy Hyc].
    apply list_elem_of_In in Hy. rewrite Hp in Hy. apply list_elem_of_In, in_map_iff in Hy as (v' & <- & Hv').
    apply (find_none _ _ Ev) in Hv'. unfold vv_current in Hv'. cbn in Hyc. congruence.
Qed.

(** ** Objects are read whole or not at all *)
Lemma arrived_whole arriving body :
  (match arriving with Some k => (k <? String.length body)%nat | None => false end) = false →
  (match arriving with Some k => take_bytes k body | None => body end) = body.
Proof. destruct arriving as [k|]; [|done]. intros H%Nat.ltb_ge. by apply take_bytes_all. Qed.
Lemma read_limited_ok max_ arriving object body : 0 ≤ max_ → read_limited (max_ + 1) arriving object = Ok body → len body ≤ max_ → body = object.
Proof.
  unfold read_limited. intros Hm. cbv zeta. destruct (max_ + 1 <=? _) eqn:El.
  - intros [= <-] Hb. bool_prop. unfold len in *. rewrite length_take_bytes in Hb. lia.
  - destruct (match arriving with Some k => _ | None => false end) eqn:Ea; [done|]. apply arrived_whole in Ea. rewrite Ea. by intros [= <-].
Qed.

(** What [Get] returns is the whole object, never larger than the limit, however
    the connection breaks; an object that was put is read back while the limit
    allows it, and refused, not cut, when it does not. *)
Theorem objects_whole key max_ arriving b :
  0 ≤ max_ < max_int64 →
  (∀ fs body fs' b', Object_Get key max_ arriving fs b = (Ok body, fs', b') → contents b !! key = Some body ∧ len body ≤ max_ ∧ b' = b) ∧
  (∀ body fs fs' b', Put key body fs b = (Ok (), fs', b') →
     result_of (Object_Get key max_ None) [] b' =
       if max_ <? len body then Err (Plain ("s3: object " +:+ key +:+ " exceeds " +:+ render_int max_ +:+ " bytes")) else Ok body) ∧
  (made b = true → contents b !! key = None → result_of (Object_Get key max_ arriving) [] b = Err ErrNotFound).
Proof.
  intros Hm. assert (Ea : add64 max_ 1 = max_ + 1) by (unfold add64; rewrite wrap64_id; [done|unfold_int64; unfold max_int64 in *; lia]).
  split_and!.
  - intros fs body fs' b' H. unfold Object_Get in H. destruct (stmt _ fs b) as [[[object|e] fs1] b1] eqn:Es; [|done].
    apply stmt_ok in Es. unfold get_object in Es. destruct (made b); [|done]. destruct (contents b !! key) as [o|] eqn:Eo; [|done].
    injection Es as -> ->. injection H as H _ <-. apply bind_ok in H as (body' & Hr%wrap_err_ok & H). rewrite Ea in Hr.
    destruct (max_ <? len body') eqn:El; [done|]. injection H as ->. bool_prop. split_and!; [|done|done].
    f_equal. symmetry. by eapply read_limited_ok; [| |exact El]; [lia|].
  - intros body fs fs' b' H. apply wrapM_ok, stmt_ok in H. unfold put_object in H. destruct (made b); [|done]. injection H as <-.
    unfold result_of, Object_Get, stmt, get_object. cbn [made contents]. rewrite lookup_insert_eq. cbn [fst]. rewrite Ea. unfold read_limited. cbv zeta.
    destruct (max_ + 1 <=? len body) eqn:El; bool_prop; cbn [wrap_err mbind result_bind].
    + rewrite (proj2 (Z.ltb_lt _ _)); [|unfold len in *; rewrite length_take_bytes; lia]. by rewrite (proj2 (Z.ltb_lt _ _)) by lia.
    + rewrite !(proj2 (Z.ltb_ge _ _)) by lia. done.
  - intros Hb Hk. unfold result_of, Object_Get, stmt, get_object. rewrite Hb, Hk. vm_compute. reflexivity.
Qed.

(** ** Examples *)
Module AwsExample.
Definition secrets : vault := {["ta-platform/companies/h"%string := [
  mkVaultVersion "v1" ["AWSPREVIOUS"%string] None (Some "1"%string); mkVaultVersion "v2" ["AWSPENDING"; "AWSCURRENT"]%string None (Some "2"%string)]]}.
Definition bucket : Bucket := mkBucket true ∅.
End AwsExample.
Lemma secrets_ok : vault_ok AwsExample.secrets.
Proof.
  unfold AwsExample.secrets. split; intros name versions v; [intros v'| |intros v']; rewrite lookup_singleton_Some; intros [_ <-]; intros;
    repeat match goal with
    | H : _ ∈ [] |- _ => by apply elem_of_nil in H
    | H : _ ∈ _ :: _ |- _ => apply elem_of_cons in H as [->|H]
    end; done.
Qed.
Lemma vault_answers_honest_witness :
  CurrentVersion (vault_describe reverse AwsExample.secrets) "ta-platform/companies/h" = Ok "v2"%string ∧
  got (honest (version_value AwsExample.secrets) 0 (current_versions AwsExample.secrets)) "ta-platform/companies/h" =
    Ok (mkSecret (parse_json "2") "v2").
Proof.
  destruct (vault_answers_honest reverse AwsExample.secrets 0 "ta-platform/companies/h" secrets_ok reverse_Permutation) as [H1 H2].
  rewrite H2, <-H1. split; vm_compute; reflexivity.
Defined.
Lemma objects_whole_witness :
  result_of (Object_Get "k" 3 None) [] (state_after (Put "k" "abc") [] AwsExample.bucket) = Ok "abc"%string ∧
  is_ok (result_of (Object_Get "k" 2 None) [] (state_after (Put "k" "abc") [] AwsExample.bucket)) = false.
Proof.
  destruct (objects_whole "k" 3 None AwsExample.bucket) as (_ & H3 & _); [vm_compute; split; [discriminate|reflexivity]|].
  destruct (objects_whole "k" 2 None AwsExample.bucket) as (_ & H2 & _); [vm_compute; split; [discriminate|reflexivity]|].
  rewrite (H3 "abc"%string [] [] (state_after (Put "k" "abc") [] AwsExample.bucket) eq_refl).
  rewrite (H2 "abc"%string [] [] (state_after (Put "k" "abc") [] AwsExample.bucket) eq_refl). split; reflexivity.
Defined.
