(* ===== verification/Lock.v ===== *)
(** * The Redis lock (internal/store/redis/lock.go)

    Expiring single-holder locks: [SET NX] with a time to live, and a release
    that deletes the key only if it still holds the releaser's token. *)
From S2P Require Import Prelude GoTime Tx.

Record Entry := mkEntry { token : string; expires : time }.
Notation locks := (gmap string Entry).

Definition ErrLocked : error := Sentinel "redis.ErrLocked".

(** The value of a key at [now]: an expired key is gone. *)
Definition live (now : time) (key : string) (l : locks) : option string :=
  e ← l !! key; if now <? expires e then Some (token e) else None.

Definition set_nx (now : time) (key tok : string) (ttl : duration) (l : locks) : bool * locks :=
  match live now key l with
  | Some _ => (false, l)
  | None => (true, <[key := mkEntry tok (time_add now ttl)]> l)
  end.

(** [unlockScript]. *)
Definition unlock (now : time) (key tok : string) (l : locks) : locks :=
  if bool_decide (live now key l = Some tok) then delete key l else l.

(** [Locker.Acquire] and the release function it returns, over any state that
    contains the locks; [prefix] namespaces the keys. *)
Class HasLocks (S : Type) := {
  locks_of : S → locks;
  with_locks : locks → S → S;
  locks_with : ∀ l s, locks_of (with_locks l s) = l;
}.

Section Locker.
Context {S : Type} `{HasLocks S}.

Definition Acquire (prefix : string) (now : time) (key tok : string) (ttl : duration) : M S () :=
  ok ← wrapM "redis: acquire" (stmt (λ s,
         let '(ok, l) := set_nx now (prefix +:+ key) tok ttl (locks_of s) in Ok (ok, with_locks l s)));
  if (ok : bool) then mret () else throw ErrLocked.

Definition release (prefix : string) (now : time) (key tok : string) : M S () :=
  wrapM "redis: release" (exec (λ s, with_locks (unlock now (prefix +:+ key) tok (locks_of s)) s)).
End Locker.

(** ** One holder at a time *)

(** What clients do to the locks, each at its time. *)
Inductive op := Take (key tok : string) (ttl : duration) | Release (key tok : string).

Definition step (now : time) (o : op) (l : locks) : option bool * locks :=
  match o with
  | Take key tok ttl => let '(ok, l) := set_nx now key tok ttl l in (Some ok, l)
  | Release key tok => (None, unlock now key tok l)
  end.

(** A history: operations with their times, and what each [Take] answered. *)
Fixpoint history (ops : list (time * op)) (l : locks) : list (option bool) * locks :=
  match ops with
  | [] => ([], l)
  | (now, o) :: ops =>
      let '(r, l) := step now o l in
      let '(rs, l) := history ops l in (r :: rs, l)
  end.

Lemma step_keeps now o l key tok e :
  l !! key = Some e → token e = tok → now < expires e → o ≠ Release key tok →
  (step now o l).2 !! key = Some e ∧ (∀ tok' ttl, o = Take key tok' ttl → (step now o l).1 = Some false).
Proof.
  intros Hl Htok Hnow Ho.
  assert (live now key l = Some (token e)) as Hlive.
  { unfold live. rewrite Hl. cbn. by rewrite (proj2 (Z.ltb_lt _ _)). }
  destruct o as [key' tok' ttl|key' tok']; cbn.
  - unfold set_nx. destruct (decide (key' = key)) as [->|Hne].
    + rewrite Hlive. cbn. split; [done|]. by intros ? ? [= <- <-].
    + destruct (live now key' l); cbn; [|rewrite lookup_insert_ne by done]; (split; [done|]; intros ? ? [= E _ _]; done).
  - split; [|done]. unfold unlock. case_bool_decide as E; [|done].
    destruct (decide (key' = key)) as [->|Hne]; [|by rewrite lookup_delete_ne].
    rewrite Hlive in E. injection E as E. exfalso. apply Ho. congruence.
Qed.

(** C30: Locks exclude.  From the moment a client takes a lock until its time to
    live is over or it releases it with its own token, whatever other clients
    do - taking, releasing with tokens of their own, on this key or others -
    every attempt to take the lock is refused; and a release after the lock
    expired and went to another holder does not free it. *)
Theorem lock_exclusive now key tok ttl l ops :
  live now key l = None → 0 < ttl →
  (∀ t o, (t, o) ∈ ops → now ≤ t < time_add now ttl ∧ o ≠ Release key tok) →
  (set_nx now key tok ttl l).1 = true ∧
  let '(answers, l') := history ops (set_nx now key tok ttl l).2 in
  (∀ i t tok' ttl', ops !! i = Some (t, Take key tok' ttl') → answers !! i = Some (Some false)) ∧
  (∀ t, t < time_add now ttl → live t key l' = Some tok) ∧
  (∀ t tok', tok' ≠ tok → live t key (unlock t key tok' l') = live t key l').
Proof.
  intros Hfree Httl Hops. unfold set_nx. rewrite Hfree. cbn. split; [done|].
  set (e := mkEntry tok (time_add now ttl)). set (l0 := <[key := e]> l).
  assert (∀ ops l0, l0 !! key = Some e → (∀ t o, (t, o) ∈ ops → t < expires e ∧ o ≠ Release key tok) →
    (∀ i t tok' ttl', ops !! i = Some (t, Take key tok' ttl') → (history ops l0).1 !! i = Some (Some false)) ∧
    (history ops l0).2 !! key = Some e) as Hh.
  { clear. intros ops. induction ops as [|[t o] ops IH]; intros l0 Hl Hops; cbn; [done|].
    destruct (Hops t o) as [Ht Ho]; [by left|].
    destruct (step_keeps t o l0 key tok e Hl eq_refl Ht Ho) as [Hk Ha].
    destruct (step t o l0) as [r l1] eqn:Es. cbn in Hk, Ha. destruct (IH l1 Hk) as [IH1 IH2].
    { intros t' o' Hin. apply Hops. by right. }
    destruct (history ops l1) as [rs l2]. cbn in *. split; [|done].
    intros [|i] t' tok' ttl' Hi; cbn in *; [injection Hi as -> ->; by rewrite (Ha _ _ eq_refl)|by eapply IH1]. }
  destruct (Hh ops l0) as [H1 H2].
  { apply lookup_insert_eq. }
  { intros t o Hin. apply Hops in Hin as [? ?]. cbn. split; [lia|done]. }
  destruct (history ops l0) as [answers l']. cbn in H1, H2. split_and!; [done| |].
  - intros t Ht. unfold live. rewrite H2. cbn. by rewrite (proj2 (Z.ltb_lt _ _)).
  - intros t tok' Hne. unfold unlock. case_bool_decide as E; [|done]. exfalso. unfold live in E. rewrite H2 in E.
    cbn in E. destruct (t <? _); [|done]. injection E as E. done.
Qed.

Lemma lock_exclusive_witness :
  let ops := [(5, Take "run:1" "b" 60); (6, Release "run:1" "b"); (7, Take "run:2" "c" 60)]%string in
  (set_nx 0 "run:1" "a" 10 ∅).1 = true ∧ (history ops (set_nx 0 "run:1" "a" 10 ∅).2).1 !! 0%nat = Some (Some false).
Proof.
  cbv zeta. destruct (lock_exclusive 0 "run:1" "a" 10 ∅
    [(5, Take "run:1" "b" 60); (6, Release "run:1" "b"); (7, Take "run:2" "c" 60)]%string) as [H1 H2].
  - reflexivity.
  - lia.
  - intros t o Hin. repeat (apply elem_of_cons in Hin as [[= -> ->]|Hin]; [split; [vm_compute; split; congruence|discriminate]|]).
    by apply not_elem_of_nil in Hin.
  - split; [exact H1|]. destruct (history _ _) as [answers l']. destruct H2 as [H2 _]. by eapply (H2 0%nat 5 "b" 60)%string.
Defined.
