(* ===== verification/Workspace.v ===== *)
(** * The Candidate Workspace (internal/candidateworkspace)

    The invite exchange and the bearer guard (service.go, http.go), diffs
    (diff.go), prompts (prompt.go) and runs (run.go) over the operational
    store, with the AI gateway and the sandbox behind the interfaces the code
    gives them. *)
From S2P Require Import Prelude Str GoTime Json Domain Rbac Events Tx Outbox Store Sandbox Unidiff Lock.
From S2P Require Import Gateway.

Definition ScopeCandidateWorkspace : string := "candidate:workspace".

(** What an envelope takes from its surroundings: its random id and its time. *)
Record mint := mkMint { random_id : result (list Z); minted_at : time }.

(** [base64.RawURLEncoding]. *)
Definition base64_char (z : Z) : ascii :=
  ascii_of_nat (Z.to_nat (if z <? 26 then 65 + z else if z <? 52 then 71 + z else if z <? 62 then z - 4
                          else if z =? 62 then 45 else 95)).
Fixpoint base64_raw_url (bytes : list Z) : string :=
  match bytes with
  | a :: b :: c :: rest =>
      String (base64_char (a / 4)) (String (base64_char (a mod 4 * 16 + b / 16))
        (String (base64_char (b mod 16 * 4 + c / 64)) (String (base64_char (c mod 64)) (base64_raw_url rest))))
  | [a; b] => String (base64_char (a / 4)) (String (base64_char (a mod 4 * 16 + b / 16))
                (String (base64_char (b mod 16 * 4)) ""))
  | [a] => String (base64_char (a / 4)) (String (base64_char (a mod 4 * 16)) "")
  | [] => ""
  end.

Section Workspace.
Context `{uuids : UuidLib}.

(** ** events.go *)
Definition sessionMessage {P} `{Payload P} (session : Session) (sequence : Z) (m : mint) (payload : P)
    : result Outbox.Message :=
  envelope ← New (uuid_String (Session_CompanyID session)) sequence (random_id m) (minted_at m) payload;
  NewMessage SessionEventsTopic (uuid_String (Session_ID session)) envelope.

Definition interviewOf (session : Session) : result UUID :=
  match Session_InterviewID session with
  | Some i => Ok i
  | None => Err (Plain "candidate session has no interview")
  end.

(** ** service.go *)
Record StartResponse := mkStartResponse {
  Response_SessionID : string;
  AccessToken : string;
  TokenType : string;
  Scope : string;
  Response_ExpiresAt : time;
}.

(** [NewService]'s time to live. *)
Definition session_ttl (ttl : duration) : duration := if ttl <=? 0 then 24 * hour else ttl.

Definition sessionStartedMessage (m : mint) (started : Started) : result Outbox.Message :=
  match Session_InterviewID (Started_Session started) with
  | None => Err (Plain "session.started: candidate session has no interview")
  | Some interview =>
      envelope ← wrap_err "build session.started"
        (New (uuid_String (Session_CompanyID (Started_Session started))) (Started_SequenceNumber started)
           (random_id m) (minted_at m)
           (mkSessionStarted (uuid_String (Session_ID (Started_Session started))) (uuid_String interview)
              (uuid_String (Started_InviteID started)) ScopeCandidateWorkspace
              (Session_ExpiresAt (Started_Session started))));
      NewMessage SessionEventsTopic (uuid_String (Session_ID (Started_Session started))) envelope
  end.

(** [Start]: [raw] is what the random source returned, [session_id] the new
    UUID, [now] the service's clock and [db_now] the database's. *)
Definition Start (ttl : duration) (raw : result (list Z)) (session_id : UUID) (now db_now : time) (m : mint)
    (inviteToken : string) : M World StartResponse :=
  if bool_decide (inviteToken = ""%string) then throw ErrInvalidInvite
  else
    bytes ← lift (wrap_err "generate session token" raw);
    let token := base64_raw_url bytes in
    started ← StartSession (HashToken inviteToken)
      (mkStartParams session_id (HashToken token) (time_add now (session_ttl ttl))) db_now (sessionStartedMessage m);
    mret (mkStartResponse (uuid_String (Session_ID (Started_Session started))) token "Bearer"
            ScopeCandidateWorkspace (Session_ExpiresAt (Started_Session started))).

(** ** http.go: the guard *)
Inductive guarded := Refused (status : Z) (code : string) | Granted (session : Session).

Definition RequireActiveSession (now : time) (r : Request) : M World guarded := λ fs s,
  match BearerToken r with
  | None => (Ok (Refused 401 "invalid_session_token"), fs, s)
  | Some token =>
      let '(found, fs, s) := FindSessionByTokenHash (HashToken token) fs s in
      (Ok match found with
       | Err e => if errors_is e ErrSessionNotFound then Refused 401 "invalid_session_token"
                  else Refused 500 "internal_error"
       | Ok session =>
           if negb (IsCandidate session) then Refused 401 "invalid_session_token"
           else if negb (IsActive session now) then Refused 409 "session_not_active"
           else Granted session
       end, fs, s)
  end.

(** ** diff.go *)
Definition maxPatchBytes : Z := Z.shiftl 256 10.
Definition ErrInvalidDiff : error := Sentinel "candidateworkspace.ErrInvalidDiff".

Record DiffRequest := mkDiffRequest {
  ClientSequence : Z;
  Origin : string;
  Diff_PromptID : string;
  Diff_Path : string;
  Patch : string;
}.
Record DiffResult := mkDiffResult {
  Accepted : bool;
  Diff_SequenceNumber : Z;
  Reason : string;
  LinesAdded : Z;
  LinesRemoved : Z;
}.

Definition invalid_diff {A} (msg : string) : result A := Err (Wrap msg ErrInvalidDiff).

Definition check_origin (request : DiffRequest) : result () :=
  if bool_decide (Origin request = DiffOriginManual) then
    if bool_decide (Diff_PromptID request ≠ ""%string) then invalid_diff "a manual diff has no promptId" else Ok ()
  else if bool_decide (Origin request = DiffOriginAIApplied) then
    if bool_decide (Diff_PromptID request ≠ ""%string) && bool_decide (uuid_Parse (Diff_PromptID request) = None)
    then invalid_diff "promptId must be a UUID" else Ok ()
  else invalid_diff "origin must be manual or ai_applied".

Definition validateDiff (request : DiffRequest) : result (Z * Z) :=
  if ClientSequence request <? 1 then invalid_diff "clientSeq must be positive"
  else
    _ ← check_origin request;
    match ValidatePath (Diff_Path request) with
    | Err _ => invalid_diff "path"
    | Ok _ =>
        if bool_decide (Patch request = ""%string) || (maxPatchBytes <? len (Patch request)) ||
           negb (valid_utf8 (Patch request))
        then invalid_diff "patch must be non-empty UTF-8"
        else if contains_char NUL (Patch request) then invalid_diff "patch contains NUL"
        else match countUnifiedDiff (Patch request) with
             | Ok counts => Ok counts
             | Err _ => invalid_diff "patch"
             end
    end.

(** The payload [Submit] builds. *)
Definition diff_payload (session : Session) (interview : UUID) (request : DiffRequest) (added removed : Z) : CodeDiff :=
  mkCodeDiff (uuid_String (Session_ID session)) (uuid_String interview) (ClientSequence request) (Origin request)
    (Diff_PromptID request) (Diff_Path request) (Patch request) added removed.

Definition Submit_diff (session : Session) (request : DiffRequest) (db_now : time) (m : mint)
    : M World DiffResult := λ fs s,
  match interviewOf session with
  | Err e => (Err e, fs, s)
  | Ok interview =>
      match validateDiff request with
      | Err e => (Err e, fs, s)
      | Ok (added, removed) =>
          let '(r, fs, s) := RecordDiff (Session_CompanyID session) (Session_ID session) interview
            (ClientSequence request) db_now
            (λ sequence, sessionMessage session sequence m (diff_payload session interview request added removed)) fs s in
          (match r with
           | Ok sequence => Ok (mkDiffResult true sequence "" added removed)
           | Err e =>
               if errors_is e ErrDiffOutOfOrder then Ok (mkDiffResult false 0 "out_of_order" added removed)
               else Err (Wrap "record code.diff" e)
           end, fs, s)
      end
  end.

(** [submitDiff]'s status for a request that decoded. *)
Definition submitDiff_status (r : result DiffResult) : Z * string :=
  match r with
  | Ok result => if Accepted result then (202, ""%string) else (200, ""%string)
  | Err e => if errors_is e ErrInvalidDiff then (400, "invalid_diff"%string) else (503, "diff_failed"%string)
  end.

(** [startSession]'s. *)
Definition startSession_status (inviteToken : string) (r : result StartResponse) : Z * string :=
  if bool_decide (inviteToken = ""%string) then (400, "invalid_request"%string)
  else match r with
  | Ok _ => (200, ""%string)
  | Err e => if errors_is e ErrInvalidInvite then (401, "invalid_invite"%string)
             else (503, "session_start_failed"%string)
  end.
End Workspace.

Section Prompts.
Context `{uuids : UuidLib} {S : Type} `{HW : HasWorld S}.

(** ** prompt.go *)
Definition maxPromptBytes : Z := Z.shiftl 32 10.
Definition maxHistoryTurns : Z := 50.
Definition maxHistoryBytes : Z := Z.shiftl 512 10.
Definition promptEventCount : Z := 2.
Definition ErrInvalidPrompt : error := Sentinel "candidateworkspace.ErrInvalidPrompt".

Record PromptRequest := mkPromptRequest { Prompt : string; History : list Gateway.Message }.

Definition invalid_prompt {A} (msg : string) : result A := Err (Wrap msg ErrInvalidPrompt).

Fixpoint check_history (turns : list Gateway.Message) (size : Z) : result Z :=
  match turns with
  | [] => Ok size
  | turn :: turns =>
      if negb (is_role (Gateway.Role turn)) then invalid_prompt "history role must be user or assistant"
      else if blank (Content turn) then invalid_prompt "history content must not be empty"
      else check_history turns (size + len (Content turn))
  end.

Definition validate_prompt (r : PromptRequest) : result () :=
  if blank (Prompt r) || (maxPromptBytes <? len (Prompt r)) || negb (valid_utf8 (Prompt r))
  then invalid_prompt "prompt must be non-empty UTF-8"
  else if maxHistoryTurns <? Z.of_nat (length (History r)) then invalid_prompt "too many history turns"
  else
    size ← check_history (History r) 0;
    if maxHistoryBytes <? size then invalid_prompt "history exceeds the limit" else Ok ().

Record PromptAccepted := mkPromptAccepted { Accepted_PromptID : string; Accepted_SequenceNumber : Z }.

(** [PromptConfig]; [ModeOf] is none when every company is managed. *)
Record PromptConfig := mkPromptConfig {
  Config_Model : string;
  Config_System : string;
  Config_MaxTokens : Z;
  ModeOf : option (UUID → M S string);
}.

Definition prompt_payload (session : Session) (interview prompt_id : UUID) (request : PromptRequest) (first : Z)
    : PromptSubmitted :=
  mkPromptSubmitted (uuid_String (Session_ID session)) (uuid_String interview) (uuid_String prompt_id)
    (Prompt request) (Z.of_nat (length (History request))) (add64 first 1).

Definition prompt_messages (session : Session) (interview prompt_id : UUID) (request : PromptRequest) (m : mint)
    (first : Z) : result (list Outbox.Message) :=
  message ← sessionMessage session first m (prompt_payload session interview prompt_id request first);
  Ok [message].

(** [Submit] up to the gateway call: the request it sends. *)
Definition prepare (config : PromptConfig) (session : Session) (request : PromptRequest) (prompt_id : UUID)
    (db_now : time) (m : mint) (accepted : PromptAccepted → M S ()) : M S CompleteRequest :=
  lift (validate_prompt request);;
  interview ← lift (interviewOf session);
  mode ← match ModeOf config with
         | Some f => wrapM "resolve AI mode" (f (Session_CompanyID session))
         | None => mret ModeManaged
         end;
  first ← wrapM "record prompt.submitted"
    (in_world (RecordEvents (Session_CompanyID session) interview promptEventCount db_now
       (prompt_messages session interview prompt_id request m)));
  accepted (mkPromptAccepted (uuid_String prompt_id) first);;
  mret (mkCompleteRequest (uuid_String (Session_CompanyID session)) (uuid_String interview)
          (uuid_String (Session_ID session)) (uuid_String prompt_id) (add64 first 1) mode
          (Config_Model config) (Config_System config)
          (History request ++ [mkMessage RoleUser (Prompt request)]) (Config_MaxTokens config)).

Definition Submit (config : PromptConfig) (gateway : CompleteRequest → (string → M S ()) → M S Outcome)
    (session : Session) (request : PromptRequest) (prompt_id : UUID) (db_now : time) (m : mint)
    (accepted : PromptAccepted → M S ()) (onDelta : string → M S ()) : M S Outcome :=
  completion ← prepare config session request prompt_id db_now m accepted;
  gateway completion onDelta.

(** [submitPrompt]: before the stream is open an error is a status; afterwards
    the stream ends with one done event. *)
Definition prompt_done (r : result Outcome) : string * string * string :=
  match r with
  | Ok outcome => (Status outcome, Outcome_StopReason outcome, ErrorCode outcome)
  | Err _ => ("error", "", "gateway_unavailable")%string
  end.
Definition submitPrompt_end (streaming : bool) (r : result Outcome) : Z * string + string * string * string :=
  if streaming then inr (prompt_done r)
  else inl (match r with
            | Err e => if errors_is e ErrInvalidPrompt then (400, "invalid_prompt"%string) else (503, "prompt_failed"%string)
            | Ok _ => (503, "prompt_failed"%string)
            end).

(** Callbacks and lookups that leave the operational store alone. *)
Definition store_quiet {A} (m : M S A) : Prop := stays (λ s s', world s' = world s) m.

Lemma check_history_ok turns size n : check_history turns size = Ok n →
  Forall (λ t, Gateway.Role t ∈ [RoleUser; RoleAssistant] ∧ blank (Content t) = false) turns.
Proof.
  revert size. induction turns as [|t turns IH]; intros size; cbn; [done|].
  destruct (is_role (Gateway.Role t)) eqn:Er; [|done]. cbn. destruct (blank (Content t)) eqn:Eb; [done|].
  intros H. constructor; [|by eapply IH]. split; [|done].
  unfold is_role in Er. apply orb_true_iff in Er as [Er|Er]; bool_prop; rewrite Er; set_solver.
Qed.

Lemma store_quiet_ok {A} (m : M S A) fs s r fs' s' :
  store_quiet m → m fs s = (r, fs', s') → world s' = world s.
Proof. intros Hm H. specialize (Hm fs s). unfold state_after in Hm. by rewrite H in Hm. Qed.

(** The request [prepare] sends, and what is stored by then. *)
Lemma prepare_ok config session request prompt_id db_now m accepted fs s completion fs' s' :
  sequences_ok (tables (world s)) →
  (∀ f, ModeOf config = Some f → store_quiet (f (Session_CompanyID session))) →
  (∀ a, store_quiet (accepted a)) →
  prepare config session request prompt_id db_now m accepted fs s = (Ok completion, fs', s') →
  ∃ interview first, Session_InterviewID session = Some interview ∧
    recorded (Session_CompanyID session) interview 2 db_now
      (prompt_messages session interview prompt_id request m) first (world s) (world s') ∧
    Request_SequenceNumber completion = first + 1 ∧ 1 ≤ first ∧
    Messages completion = History request ++ [mkMessage RoleUser (Prompt request)] ∧
    validate_prompt request = Ok () ∧
    (CompanyID completion, InterviewID completion, Gateway.SessionID completion, PromptID completion)
      = (uuid_String (Session_CompanyID session), uuid_String interview, uuid_String (Session_ID session), uuid_String prompt_id) ∧
    (Model completion, MaxTokens completion) = (Config_Model config, Config_MaxTokens config) ∧
    (ModeOf config = None → Mode completion = ModeManaged).
Proof.
  intros Hok Hmode Hacc H. unfold prepare in H. inv_M.
  match goal with H : _ = validate_prompt _ |- _ => rename H into Hv | H : validate_prompt _ = _ |- _ => rename H into Hv end.
  match goal with H : in_world _ _ _ = _ |- _ => apply in_world_ok in H as (w & Hrec & Hw) end.
  match goal with H : accepted _ _ _ = _ |- _ => apply (store_quiet_ok _ _ _ _ _ _ (Hacc _)) in H; rename H into Ha end.
  unfold interviewOf in *. destruct (Session_InterviewID session) as [interview|]; [|done]. simplify_eq.
  match goal with H : ?c = (Ok ?mode, _, ?t) |- context [recorded _ _ _ _ _ _ (world ?t0) _] =>
    match c with context [ModeOf config] => rename H into Hm;
    assert (world t = world t0 ∧ (ModeOf config = None → mode = ModeManaged)) as [Hw0 Hman] end end.
  { destruct (ModeOf config) as [f|]; [|by injection Hm as -> -> ->].
    apply wrapM_ok in Hm. by apply (store_quiet_ok _ _ _ _ _ _ (Hmode f eq_refl)) in Hm. }
  rewrite Hw0 in Hrec. pose proof (RecordEvents_bound _ _ _ _ _ _ _ _ _ _ Hrec Hok) as [Hb1 Hb2].
  apply RecordEvents_effect in Hrec as [[_ Hf]|(first & Hrec & Hn)]; [done| |done].
  rewrite (Hn _ eq_refl) in *. unfold promptEventCount in *. eexists _, first. rewrite Ha. cbn.
  assert (add64 first 1 = first + 1) as -> by (unfold add64; int64_id; done).
  split_and!; try done. by destruct x.
Qed.

(** A prompt is on record before the model sees it.  Either [Submit] fails
    without calling the gateway, or it calls it exactly once, after the
    [prompt.submitted] event is in the outbox with number [first] and the number
    after it - the one the gateway is told to use for the completion - is
    reserved in the same transaction; and the request it sends, the history
    followed by the prompt, always passes the gateway's own validation. *)
Theorem Submit_records_first config session request prompt_id db_now m accepted onDelta fs s :
  sequences_ok (tables (world s)) →
  (∀ f, ModeOf config = Some f → store_quiet (f (Session_CompanyID session))) →
  (∀ a, store_quiet (accepted a)) →
  (∃ e fs' s', ∀ gateway, Submit config gateway session request prompt_id db_now m accepted onDelta fs s = (Err e, fs', s')) ∨
  ∃ completion fs1 s1 interview first,
    (∀ gateway, Submit config gateway session request prompt_id db_now m accepted onDelta fs s
       = gateway completion onDelta fs1 s1) ∧
    recorded (Session_CompanyID session) interview 2 db_now
      (prompt_messages session interview prompt_id request m) first (world s) (world s1) ∧
    Request_SequenceNumber completion = first + 1 ∧
    Messages completion = History request ++ [mkMessage RoleUser (Prompt request)] ∧
    (Mode completion ∈ [ModeManaged; ModeBYOK] → 0 ≤ Config_MaxTokens config ≤ 64000 →
       is_ok (Validate completion) = true).
Proof.
  intros Hok Hmode Hacc. unfold Submit.
  destruct (prepare config session request prompt_id db_now m accepted fs s) as [[[completion|e] fs1] s1] eqn:E.
  2: { left. exists e, fs1, s1. intros gateway. unfold mbind, M_bind. by rewrite E. }
  right. pose proof (prepare_ok _ _ _ _ _ _ _ _ _ _ _ _ Hok Hmode Hacc E)
    as (interview & first & Hi & Hrec & Hseq & Hfirst & Hms & Hv & Hids & Hmod & _).
  exists completion, fs1, s1, interview, first. split_and!; [|done..|].
  { intros gateway. unfold mbind, M_bind. by rewrite E. }
  intros Hmm Hmax. unfold validate_prompt in Hv.
  destruct (_ || _ || _) eqn:Ep; [done|]. apply orb_false_iff in Ep as [[Hb _]%orb_false_iff _].
  case_match; [done|]. apply bind_ok in Hv as (n & Hh & _). apply check_history_ok in Hh.
  injection Hids as E1 E2 E3 E4. injection Hmod as E5 E6.
  unfold Validate, is_uuid. rewrite E1, E2, E3, E4, !uuid_Parse_String, !bool_decide_eq_true_2 by done. cbn [andb negb].
  rewrite Hseq, (proj2 (Z.ltb_ge _ _)) by lia.
  assert ((if bool_decide (Mode completion = ""%string) then ModeManaged else Mode completion) = Mode completion) as ->.
  { case_bool_decide as Em; [|done]. rewrite Em in Hmm. set_solver. }
  assert (negb (bool_decide (Mode completion = ModeManaged)) && negb (bool_decide (Mode completion = ModeBYOK)) = false) as ->.
  { apply elem_of_cons in Hmm as [->|Hmm]; [done|]. by apply list_elem_of_singleton in Hmm as ->. }
  rewrite Hms, bool_decide_eq_false_2 by (by intros [_ ?]%app_nil).
  rewrite check_messages_complete; [|apply Forall_app; split; [done|]; by repeat constructor].
  cbn. rewrite last_snoc. cbn. rewrite bool_decide_eq_true_2 by done. cbn. rewrite E6.
  destruct (Config_MaxTokens config =? 0) eqn:Ez; bool_prop; [done|].
  unfold maxMaxTokens. by rewrite !(proj2 (Z.ltb_ge _ _)) by lia.
Qed.
End Prompts.

(** ** run.go *)

(** The state of the run flow: the store, the Redis locks and the bucket. *)
Record Desk := mkDesk { desk_world : World; desk_locks : gmap string Entry; objects : gmap string json }.
#[export] Instance Desk_world : HasWorld Desk.
Proof. by refine {| world := desk_world; with_world w d := mkDesk w (desk_locks d) (objects d) |}. Defined.
#[export] Instance Desk_locks : HasLocks Desk.
Proof. by refine {| locks_of := desk_locks; with_locks l d := mkDesk (desk_world d) l (objects d) |}. Defined.

Definition ErrInvalidRun : error := Sentinel "candidateworkspace.ErrInvalidRun".
Definition ErrRunInProgress : error := Sentinel "candidateworkspace.ErrRunInProgress".
Definition ErrLockHeld : error := Sentinel "candidateworkspace.ErrLockHeld".
Definition eventOutputBytes : Z := Z.shiftl 64 10.

Record RunRequest := mkRunRequest {
  Run_Language : string;
  Run_Entrypoint : string;
  Run_Files : gmap string string;
  Run_Stdin : string;
}.
Record RunResult := mkRunResult {
  Run_ExecutionID : string;
  Run_Status : string;
  Run_ExitCode : Z;
  Run_Stdout : string;
  Run_Stderr : string;
  Run_StdoutTruncated : bool;
  Run_StderrTruncated : bool;
  Run_DurationMS : Z;
}.
Definition no_run : RunResult := mkRunResult "" "" 0 "" "" false false 0.

Record RunConfig := mkRunConfig { Timeout : duration; LockTTL : duration }.
(** [NewRunService]'s default. *)
Definition run_ttl (config : RunConfig) : duration :=
  if LockTTL config <=? 0 then add64 (WallClock MaxLimits) minute else LockTTL config.

(** [utf8.RuneStart] and the byte at an index. *)
Definition rune_start (a : ascii) : bool := negb (tail_byte a).

(** The loop of [capOutput]: back from [n] to the start of a rune. *)
Fixpoint cut_point (n : nat) (s : string) : nat :=
  match n with
  | O => O
  | S n' => match String.get n s with
            | Some a => if rune_start a then n else cut_point n' s
            | None => n
            end
  end.

Definition capOutput (output : string) (truncated : bool) : string * bool :=
  if len output <=? eventOutputBytes then (output, truncated)
  else (take_bytes (cut_point (Z.to_nat eventOutputBytes) output) output, true).

Section Runs.
Context `{uuids : UuidLib}.
(** The size of a marshalled snapshot. *)
Context (json_size : json → Z).

Definition SnapshotKey (company interview : UUID) (execution : string) : string :=
  "companies/" +:+ uuid_String company +:+ "/interviews/" +:+ uuid_String interview +:+ "/snapshots/" +:+
  execution +:+ ".json".

Definition invalid_run {A} (msg : string) : result A := Err (Wrap msg ErrInvalidRun).

Definition validateRun (execution : string) (request : RunRequest) : result () :=
  if negb (valid_utf8 (Run_Stdin request)) || (Z.shiftl 64 10 <? len (Run_Stdin request))
  then invalid_run "stdin must be UTF-8 of at most 64 KiB"
  else match Sandbox.Validate (mkSpec execution (Run_Language request) (Run_Entrypoint request) (Run_Files request) ""
                                 (mkLimits 0 f64_0 0 0 0 0)) with
       | Ok _ => Ok ()
       | Err _ => invalid_run "spec"
       end.

Definition run_message {P} `{Payload P} (session : Session) (m : mint) (payload : P) (first : Z)
    : result (list Outbox.Message) :=
  message ← sessionMessage session first m payload; Ok [message].

Definition record {P} `{Payload P} (session : Session) (interview : UUID) (db_now : time) (m : mint) (payload : P)
    : M Desk Z :=
  in_world (RecordEvents (Session_CompanyID session) interview 1 db_now (run_message session m payload)).

Definition Put (key : string) (body : json) : M Desk () :=
  exec (λ d, mkDesk (desk_world d) (desk_locks d) (<[key := body]> (objects d))).

(** What a run reads from its surroundings: the execution id, the lock token
    and the clocks and event ids of its steps. *)
Record run_env := mkRunEnv {
  execution_id : string;
  lock_token : string;
  locked_at : time;
  released_at : time;
  requested_at : time;
  completed_at : time;
  requested_mint : mint;
  completed_mint : mint;
}.

Definition requested_payload (session : Session) (interview : UUID) (request : RunRequest) (env : run_env)
    (key : string) (body : json) : ExecutionRequested :=
  mkExecutionRequested (uuid_String (Session_ID session)) (uuid_String interview) (execution_id env)
    (Run_Language request) (Run_Entrypoint request) key (Z.of_nat (size (Run_Files request))) (json_size body).

(** The result for the candidate and the event for the log. *)
Definition run_outcome (session : Session) (interview : UUID) (execution : string)
    (r : result ExecuteResponse) : RunResult * ExecutionCompleted :=
  let s := uuid_String (Session_ID session) in
  let i := uuid_String interview in
  match r with
  | Ok response =>
      let '(out, out_cut) := capOutput (Resp_Stdout response) (Resp_StdoutTruncated response) in
      let '(err, err_cut) := capOutput (Resp_Stderr response) (Resp_StderrTruncated response) in
      (mkRunResult execution (Resp_Status response) (Resp_ExitCode response) (Resp_Stdout response)
         (Resp_Stderr response) (Resp_StdoutTruncated response) (Resp_StderrTruncated response) (DurationMS response),
       mkExecutionCompleted s i execution (Resp_Status response) (Resp_ExitCode response) (DurationMS response)
         out err out_cut err_cut "")
  | Err _ =>
      (mkRunResult execution ExecutionStatusError (-1) "" "" false false 0,
       mkExecutionCompleted s i execution ExecutionStatusError (-1) 0 "" "" false false "sandbox_unavailable")
  end.

(** The snapshot and the event that names it. *)
Definition request_run (session : Session) (interview : UUID) (request : RunRequest) (env : run_env) (body : json)
    : M Desk Z :=
  let key := SnapshotKey (Session_CompanyID session) interview (execution_id env) in
  wrapM "store snapshot" (Put key body);;
  wrapM "record execution.requested"
    (record session interview (requested_at env) (requested_mint env)
       (requested_payload session interview request env key body)).

(** Between taking and releasing the lock. *)
Definition run_locked (execute : ExecuteRequest → M Desk ExecuteResponse) (config : RunConfig) (session : Session)
    (interview : UUID) (request : RunRequest) (env : run_env) (body : json) (fs : script) (d : Desk)
    : (RunResult * option error) * script * Desk :=
  let key := SnapshotKey (Session_CompanyID session) interview (execution_id env) in
  match request_run session interview request env body fs d with
  | (Err e, fs, d) => ((no_run, Some e), fs, d)
  | (Ok _, fs, d) =>
      let '(response, fs, d) := execute (mkExecuteRequest (execution_id env) key (Run_Language request)
        (Run_Entrypoint request) (Run_Stdin request) (milliseconds (Timeout config))) fs d in
      let '(result, completed) := run_outcome session interview (execution_id env) response in
      match wrapM "record execution.completed"
              (record session interview (completed_at env) (completed_mint env) completed) fs d with
      | (Err e, fs, d) => ((result, Some e), fs, d)
      | (Ok _, fs, d) => ((result, None), fs, d)
      end
  end.

Definition lock_prefix : string := "candidate-workspace:".

(** [runLock] adapts the locker's error. *)
Definition acquire_run (env : run_env) (config : RunConfig) (session : Session) : M Desk () :=
  replace_error ErrLocked ErrLockHeld
    (Acquire lock_prefix (locked_at env) ("run:" +:+ uuid_String (Session_ID session)) (lock_token env) (run_ttl config)).
Definition release_run (env : run_env) (session : Session) : M Desk () :=
  release lock_prefix (released_at env) ("run:" +:+ uuid_String (Session_ID session)) (lock_token env).

Definition Run (execute : ExecuteRequest → M Desk ExecuteResponse) (config : RunConfig) (session : Session)
    (request : RunRequest) (env : run_env) (fs : script) (d : Desk) : (RunResult * option error) * script * Desk :=
  match interviewOf session with
  | Err e => ((no_run, Some e), fs, d)
  | Ok interview =>
      match validateRun (execution_id env) request with
      | Err e => ((no_run, Some e), fs, d)
      | Ok _ =>
          match EncodeSnapshot (Run_Files request) with
          | Err _ => ((no_run, Some (Wrap "snapshot" ErrInvalidRun)), fs, d)
          | Ok body =>
              match acquire_run env config session fs d with
              | (Err e, fs, d) =>
                  ((no_run, Some (if errors_is e ErrLockHeld then ErrRunInProgress
                                  else Wrap "acquire run lock" e)), fs, d)
              | (Ok _, fs, d) =>
                  let '(res, fs, d) := run_locked execute config session interview request env body fs d in
                  let '(_, fs, d) := release_run env session fs d in
                  (res, fs, d)
              end
          end
      end
  end.

(** [runCode]'s status for a request that decoded. *)
Definition runCode_status (err : option error) : Z * string :=
  match err with
  | None => (200, ""%string)
  | Some e =>
      if errors_is e ErrRunInProgress then (429, "run_in_progress"%string)
      else if errors_is e ErrInvalidRun then (400, "invalid_run"%string)
      else (503, "run_failed"%string)
  end.

(** ** What a run leaves behind *)
Definition logged {P} `{Payload P} (session : Session) (interview : UUID) (db_now : time) (m : mint) (payload : P)
    (w w' : World) : Prop :=
  ∃ n, recorded (Session_CompanyID session) interview 1 db_now (run_message session m payload) n w w'.

Lemma record_cases {P} `{Payload P} session interview db_now m (payload : P) fs d r fs' d' :
  sequences_ok (tables (desk_world d)) →
  record session interview db_now m payload fs d = (r, fs', d') →
  objects d' = objects d ∧ sequences_ok (tables (desk_world d')) ∧
  ((unchanged (desk_world d) (desk_world d') ∧ is_ok r = false) ∨
   logged session interview db_now m payload (desk_world d) (desk_world d')).
Proof.
  intros Hok Hr. unfold record, in_world in Hr. cbn in Hr.
  destruct (RecordEvents _ _ _ _ _ fs (desk_world d)) as [[r1 fs1] w] eqn:E. injection Hr as <- <- <-. cbn.
  split; [done|]. split.
  - match type of E with RecordEvents ?c ?i ?n ?t ?b _ _ = _ => pose proof (stays_RecordEvents c i n t b fs (desk_world d)) as Hg end.
    unfold state_after in Hg. rewrite E in Hg. by apply Hg.
  - apply RecordEvents_effect in E as [[Hu He]|(n & Hrec & _)]; [by left| |done]. right. by exists n.
Qed.

Lemma unchanged_refl w : unchanged w w.
Proof. split; [done|]. by destruct w as [[] ?]. Qed.

(** How far a run that held the lock got. *)
Inductive run_trace (session : Session) (interview : UUID) (request : RunRequest) (env : run_env) (body : json)
    (d d1 : Desk) (err : option error) (result : RunResult) : Prop :=
  | trace_nothing : is_Some err → unchanged (desk_world d) (desk_world d1) →
      run_trace session interview request env body d d1 err result
  | trace_requested w : is_Some err →
      let key := SnapshotKey (Session_CompanyID session) interview (execution_id env) in
      objects d1 !! key = Some body →
      logged session interview (requested_at env) (requested_mint env)
        (requested_payload session interview request env key body) (desk_world d) w →
      unchanged w (desk_world d1) →
      run_trace session interview request env body d d1 err result
  | trace_completed w response :
      let key := SnapshotKey (Session_CompanyID session) interview (execution_id env) in
      objects d1 !! key = Some body →
      logged session interview (requested_at env) (requested_mint env)
        (requested_payload session interview request env key body) (desk_world d) w →
      logged session interview (completed_at env) (completed_mint env)
        (run_outcome session interview (execution_id env) response).2 w (desk_world d1) →
      result = (run_outcome session interview (execution_id env) response).1 →
      run_trace session interview request env body d d1 err result.

(** A sandbox call leaves the store and the bucket alone. *)
Definition sandbox_quiet (execute : ExecuteRequest → M Desk ExecuteResponse) : Prop :=
  ∀ r, stays (λ d d', desk_world d' = desk_world d ∧ objects d' = objects d) (execute r).

Lemma Put_cases key body fs d r fs' d' : wrapM "store snapshot" (Put key body) fs d = (r, fs', d') →
  desk_world d' = desk_world d ∧ (is_ok r = true → objects d' = <[key := body]> (objects d)).
Proof.
  intros (r0 & H & ->)%wrapM_cases. unfold Put, exec in H.
  apply exec_cases in H as [(a & -> & H)|(Hr & [->|(a & H)])]; [by injection H as _ <-| |injection H as _ <-];
    (split; [done|]); by destruct r0.
Qed.

Lemma run_locked_trace execute config session interview request env body fs d result err fs' d' :
  sequences_ok (tables (desk_world d)) → sandbox_quiet execute →
  run_locked execute config session interview request env body fs d = ((result, err), fs', d') →
  run_trace session interview request env body d d' err result.
Proof.
  intros Hok Hq H. unfold run_locked in H. set (key := SnapshotKey _ _ _) in *.
  destruct (request_run _ _ _ _ _ fs d) as [[[n|e] fs1] d1] eqn:E; unfold request_run in E.
  - apply bind_M_ok in E as (u & fs2 & d2 & Hp & Hrec). apply wrapM_ok in Hrec. apply Put_cases in Hp as [Hw Ho].
    specialize (Ho eq_refl). rewrite <-Hw in Hok. apply record_cases in Hrec as (Ho1 & Hok1 & Hl); [|done].
    destruct Hl as [[_ Hl]|Hl]; [done|]. rewrite Hw in Hl.
    pose proof (Hq (mkExecuteRequest (execution_id env) key (Run_Language request)
        (Run_Entrypoint request) (Run_Stdin request) (milliseconds (Timeout config))) fs1 d1) as Hex.
    unfold state_after in Hex. destruct (execute _ fs1 d1) as [[response fs3] d3]. cbn in Hex. destruct Hex as [Hw3 Ho3].
    destruct (run_outcome session interview (execution_id env) response) as [res completed] eqn:Eo.
    assert (objects d3 !! key = Some body) as Hobj by (rewrite Ho3, Ho1, Ho; apply lookup_insert_eq).
    destruct (wrapM _ _ fs3 d3) as [[[n'|e] fs4] d4] eqn:Ec; injection H as <- <- <- <-;
      apply wrapM_cases in Ec as (r0 & Ec & Er); apply record_cases in Ec as (Ho4 & _ & Hl4);
      try (by rewrite Hw3); rewrite Hw3 in Hl4.
    + destruct Hl4 as [[_ Hf]|Hl4]; [by destruct r0|].
      eapply (trace_completed _ _ _ _ _ _ _ _ _ (desk_world d1) response); rewrite ?Eo; try done. by rewrite Ho4.
    + destruct Hl4 as [[Hu _]|Hl4].
      * eapply (trace_requested _ _ _ _ _ _ _ _ _ (desk_world d1)); try done. by rewrite Ho4.
      * eapply (trace_completed _ _ _ _ _ _ _ _ _ (desk_world d1) response); rewrite ?Eo; try done. by rewrite Ho4.
  - injection H as <- <- <- <-. apply bind_M_cases in E as [(u & fs2 & d2 & Hp & Hrec)|(e' & Hp & _)].
    + apply wrapM_cases in Hrec as (r0 & Hrec & _). apply Put_cases in Hp as [Hw Ho]. specialize (Ho eq_refl).
      rewrite <-Hw in Hok. apply record_cases in Hrec as (Ho1 & Hok1 & Hl); [|done]. rewrite Hw in Hl.
      destruct Hl as [[Hu _]|Hl]; [by apply trace_nothing|].
      eapply (trace_requested _ _ _ _ _ _ _ _ _ (desk_world d1)); try done; [|apply unchanged_refl].
      by rewrite Ho1, Ho, lookup_insert_eq.
    + apply Put_cases in Hp as [Hw _]. apply trace_nothing; [by eexists|]. rewrite Hw. apply unchanged_refl.
Qed.

(** So does taking the lock. *)
Lemma acquire_quiet env config session :
  stays (λ d d', desk_world d' = desk_world d ∧ objects d' = objects d) (acquire_run env config session).
Proof.
  assert (PreOrder (λ d d' : Desk, desk_world d' = desk_world d ∧ objects d' = objects d)) as Hpre.
  { split; [done|]. intros a b c [??] [??]. split; congruence. }
  apply stays_replace_error. unfold Acquire.
  apply stays_bind; [done| |intros [|]; [by apply stays_ret|by apply stays_throw]].
  apply stays_wrapM, stays_stmt; [done|]. intros s a s'. destruct (set_nx _ _ _ _ _). by intros [= _ <-].
Qed.

(** Taking the lock and giving it back. *)
Lemma acquire_took env config session fs d u fs' d' : acquire_run env config session fs d = (Ok u, fs', d') →
  let key := lock_prefix +:+ "run:" +:+ uuid_String (Session_ID session) in
  live (locked_at env) key (desk_locks d) = None ∧
  desk_locks d' = <[key := mkEntry (lock_token env) (time_add (locked_at env) (run_ttl config))]> (desk_locks d).
Proof.
  intros H key. unfold acquire_run, Acquire in H. inv_M. unfold set_nx in *. fold key in H. cbn [locks_of Desk_locks] in H.
  destruct (live (locked_at env) key (desk_locks d)); injection H as <- <-; [discriminate H0|].
  by injection H0 as _ _ <-.
Qed.
Lemma unlock_spec now key tok l :
  live now key (unlock now key tok l) ≠ Some tok ∧ (live now key l ≠ Some tok → unlock now key tok l = l).
Proof.
  unfold unlock. case_bool_decide as E; [|done]. split; [|done]. unfold live. by rewrite lookup_delete_eq.
Qed.
Lemma release_gives_back env session fs d r fs' d' : release_run env session fs d = (r, fs', d') →
  let key := lock_prefix +:+ "run:" +:+ uuid_String (Session_ID session) in
  (match fs with
   | Fault _ :: _ | Partial _ _ :: _ => desk_locks d' = desk_locks d
   | _ => live (released_at env) key (desk_locks d') ≠ Some (lock_token env) ∧
          (live (released_at env) key (desk_locks d) ≠ Some (lock_token env) → desk_locks d' = desk_locks d)
   end) ∧ desk_world d' = desk_world d.
Proof.
  unfold release_run, release, wrapM, exec, stmt. cbv zeta.
  destruct fs as [|[] fs]; cbn; intros H; injection H as _ _ <-; cbn; (split; [|done]); try done; apply unlock_spec.
Qed.

(** C21: A run of a candidate's code, whatever the lock, the bucket, the store
    and the sandbox do.  One that is refused - no interview, an invalid request,
    a lock that is held - records nothing and stores nothing.  Any other run
    took the session's lock while it was free and ends by releasing it: unless
    the release itself failed, the run's token no longer holds the lock, and
    another holder's lock is left alone.  What it recorded is nothing, or
    [execution.requested] alone, or that followed by [execution.completed]: the
    request names a snapshot that is stored, a completion never comes without
    or before its request and says what the candidate is told, and a run
    reported as successful has both. *)
Theorem Run_recorded execute config session request env fs d result err fs' d' :
  sequences_ok (tables (desk_world d)) → sandbox_quiet execute →
  Run execute config session request env fs d = ((result, err), fs', d') →
  (is_Some err ∧ desk_world d' = desk_world d ∧ objects d' = objects d) ∨
  ∃ interview body fs0 fs1 d0 d1,
    let key := lock_prefix +:+ "run:" +:+ uuid_String (Session_ID session) in
    Session_InterviewID session = Some interview ∧ EncodeSnapshot (Run_Files request) = Ok body ∧
    acquire_run env config session fs d = (Ok (), fs0, d0) ∧
    run_locked execute config session interview request env body fs0 d0 = ((result, err), fs1, d1) ∧
    live (locked_at env) key (desk_locks d) = None ∧
    desk_locks d0 = <[key := mkEntry (lock_token env) (time_add (locked_at env) (run_ttl config))]> (desk_locks d) ∧
    (match fs1 with
     | Fault _ :: _ | Partial _ _ :: _ => desk_locks d' = desk_locks d1
     | _ => live (released_at env) key (desk_locks d') ≠ Some (lock_token env) ∧
            (live (released_at env) key (desk_locks d1) ≠ Some (lock_token env) → desk_locks d' = desk_locks d1)
     end) ∧
    desk_world d0 = desk_world d ∧ desk_world d' = desk_world d1 ∧
    run_trace session interview request env body d0 d1 err result.
Proof.
  intros Hok Hq H. unfold Run, interviewOf in H.
  destruct (Session_InterviewID session) as [interview|]; [|injection H as <- <- <- <-; left; eauto].
  destruct (validateRun _ _); [|injection H as <- <- <- <-; left; eauto].
  destruct (EncodeSnapshot (Run_Files request)) as [body|]; [|injection H as <- <- <- <-; left; eauto].
  pose proof (acquire_quiet env config session fs d) as Hacq. unfold state_after in Hacq.
  destruct (acquire_run env config session fs d) as [[[u|e] fs1] d0] eqn:Ea;
    cbn in Hacq; destruct Hacq as [Hw0 Ho0]; [|injection H as <- <- <- <-; left; eauto].
  destruct (run_locked _ _ _ _ _ _ _ fs1 d0) as [[[result1 err1] fs2] d1] eqn:El.
  destruct (release_run env session fs2 d1) as [[r fs3] d2] eqn:Er. injection H as <- <- <- <-. right. destruct u.
  pose proof El as Ht. apply run_locked_trace in Ht; [|by rewrite Hw0|done].
  exists interview, body, fs1, fs2, d0, d1. apply acquire_took in Ea as Hl. apply release_gives_back in Er as [Hr Hw].
  destruct Hl. by split_and!.
Qed.
End Runs.

(** ** Capped output *)
Definition starts (s : string) : bool := match s with String a _ => rune_start a | EmptyString => true end.

Lemma get_app r s n : String.get (String.length r + n) (r +:+ s) = String.get n s.
Proof. induction r; cbn; [done|by destruct (String.length r + n)%nat eqn:E; rewrite <-IHr, ?E]. Qed.

Lemma cut_point_le n s : (cut_point n s ≤ n)%nat.
Proof. induction n; cbn; [done|]. repeat case_match; lia. Qed.

Lemma cut_point_app r s n : r ≠ "" → starts s = true →
  cut_point (String.length r + n) (r +:+ s) = (String.length r + cut_point n s)%nat.
Proof.
  intros Hr Hs. induction n as [|n IH].
  - rewrite Nat.add_0_r. destruct (String.length r) as [|k] eqn:E; [by destruct r|]. cbn [cut_point].
    rewrite <-E, <-(Nat.add_0_r (String.length r)), get_app, Nat.add_0_r. cbn.
    destruct s as [|a s]; cbn in *; by rewrite ?Hs.
  - rewrite Nat.add_succ_r. cbn [cut_point]. rewrite <-Nat.add_succ_r, get_app.
    destruct (String.get (S n) s) as [a|]; [|done]. destruct (rune_start a); [done|apply IH].
Qed.

Lemma rune_starts r s : is_rune r = true → starts (r +:+ s) = true.
Proof.
  destruct r as [|a [|b [|c [|d [|e r]]]]]; try done; cbn [is_rune starts String.append]; unfold rune_start, four_bytes, three_bytes, two_bytes, tail_byte, in_range;
    intros H; apply negb_true_iff, not_true_iff_false; intros H'; bool_prop; lia.
Qed.

Lemma rune_tail r s n : is_rune r = true → (n < String.length r)%nat → n ≠ O →
  ∃ a, String.get n (r +:+ s) = Some a ∧ rune_start a = false.
Proof.
  destruct r as [|a [|b [|c [|d [|e r]]]]]; try done; cbn [is_rune String.length]; intros Hr Hn Hz;
    destruct n as [|[|[|[|n]]]]; try lia; (eexists; split; [reflexivity|]);
    unfold rune_start; apply negb_false_iff; unfold four_bytes, three_bytes, two_bytes, tail_byte, in_range in *;
    bool_prop; lia.
Qed.

Lemma cut_point_rune r s n : is_rune r = true → (n < String.length r)%nat → cut_point n (r +:+ s) = O.
Proof.
  intros Hr. induction n as [|n IH]; intros Hn; [done|]. cbn [cut_point].
  destruct (rune_tail r s (S n)) as (a & -> & ->); [done..|]. apply IH. lia.
Qed.

(** Cutting well-formed text at most three bytes early keeps it well formed. *)
Lemma cut_point_utf8 s n : utf8 s → (n ≤ String.length s)%nat →
  utf8 (take_bytes (cut_point n s) s) ∧ (n ≤ cut_point n s + 3)%nat.
Proof.
  intros Hs. revert n. induction Hs as [|r s Hr Hs IH]; intros n Hn.
  { destruct n; [|cbn in Hn; lia]. split; [constructor|cbn; lia]. }
  assert (starts s = true) as Hst by (destruct Hs; [done|by apply rune_starts]).
  pose proof (is_rune_length r Hr) as Hl. rewrite length_append in Hn.
  destruct (decide (n < String.length r)%nat) as [Hlt|Hge].
  - rewrite cut_point_rune by done. split; [destruct (r +:+ s); constructor|lia].
  - replace n with (String.length r + (n - String.length r))%nat by lia.
    rewrite cut_point_app; [|by destruct r|done]. destruct (IH (n - String.length r)%nat) as [IH1 IH2]; [lia|].
    rewrite take_bytes_app. rewrite take_bytes_all by lia.
    replace (_ + _ - _)%nat with (cut_point (n - String.length r) s) by lia.
    split; [by constructor|lia].
Qed.


(** C31: Output copied into the event log.  Output of at most 64 KiB is copied as
    it is; longer output becomes a prefix of at most 64 KiB and is marked
    truncated; and if the output is valid UTF-8 the prefix is too, and at most
    three bytes short of 64 KiB - no character is ever split. *)
Theorem capOutput_keeps_utf8 output truncated :
  let '(out, cut) := capOutput output truncated in
  (len output ≤ 65536 → out = output ∧ cut = truncated) ∧
  (65536 < len output → cut = true ∧ len out ≤ 65536 ∧ (∃ rest, output = out +:+ rest) ∧
     (valid_utf8 output = true → 65533 ≤ len out)) ∧
  (valid_utf8 output = true → valid_utf8 out = true).
Proof.
  unfold capOutput. change eventOutputBytes with 65536. destruct (len output <=? 65536) eqn:E; bool_prop.
  { split_and!; [done|lia|done]. }
  pose proof (cut_point_le (Z.to_nat 65536) output) as Hle.
  assert (String.length (take_bytes (cut_point (Z.to_nat 65536) output) output) = cut_point (Z.to_nat 65536) output) as Hlen.
  { rewrite length_take_bytes. unfold len in E. lia. }
  assert (valid_utf8 output = true → utf8 (take_bytes (cut_point (Z.to_nat 65536) output) output) ∧
    (Z.to_nat 65536 ≤ cut_point (Z.to_nat 65536) output + 3)%nat) as Hu.
  { intros Hv%valid_utf8_runes. apply cut_point_utf8; [done|]. unfold len in E. lia. }
  split_and!; [lia| |by intros [H _]%Hu; apply utf8_valid].
  intros _. split_and!; [done| |apply take_bytes_prefix|intros [_ H]%Hu]; unfold len; rewrite Hlen; lia.
Qed.

(** ** The guard *)
Section Guard.
Context `{uuids : UuidLib}.

Lemma byte_of_ascii n : (n < 256)%nat → byte_of (ascii_of_nat n) = Z.of_nat n.
Proof. intros H. unfold byte_of. rewrite nat_ascii_embedding; done. Qed.

Lemma base64_char_no_space z : 0 ≤ z < 64 → base64_char z ≠ " "%char.
Proof.
  intros Hz H%(f_equal byte_of). unfold base64_char in H.
  rewrite byte_of_ascii in H; change (byte_of " ") with 32 in H;
    repeat match type of H with context [if ?c then _ else _] => destruct c eqn:?; bool_prop end;
    repeat match goal with |- context [if ?c then _ else _] => destruct c eqn:?; bool_prop end; lia.
Qed.

Lemma base64_no_space bytes : Forall (λ b, 0 ≤ b < 256) bytes → contains_char " " (base64_raw_url bytes) = false.
Proof.
  assert (∀ z s, 0 ≤ z < 64 → contains_char " " s = false → contains_char " " (String (base64_char z) s) = false) as Hc.
  { intros z s Hz Hs. cbn [contains_char]. apply base64_char_no_space in Hz. by rewrite Hs, (proj2 (Ascii.eqb_neq _ _)). }
  assert (∀ n bytes, (length bytes ≤ n)%nat → Forall (λ b, 0 ≤ b < 256) bytes →
    contains_char " " (base64_raw_url bytes) = false) as H; [|by apply (H (length bytes))].
  clear bytes. induction n as [|n IH]; intros [|a [|b [|c bytes]]] Hn Hb; cbn in Hn; try lia; try done;
    repeat match goal with H : Forall _ (_ :: _) |- _ => apply Forall_cons in H as [? ?] end; cbn [base64_raw_url]; repeat apply Hc; try done; try (apply IH; [lia|done]);
    (Z.div_mod_to_equations; lia).
Qed.
Lemma BearerToken_bearer token : token ≠ "" → contains_char " " token = false →
  BearerToken (mkRequest ("Bearer " +:+ token)) = Some token.
Proof. intros Hne Hs. unfold BearerToken. change (cut _ _) with ("Bearer", token, true)%string. cbv beta iota. rewrite Hs. by rewrite bool_decide_eq_false_2. Qed.

Lemma find_session_spec hash t :
  match find_session hash t with
  | Ok (session, t') => t' = t ∧ ∃ k r, t_sessions t !! k = Some r ∧ row_session r = session ∧ Session_TokenHash session = hash
  | Err e => e = ErrNoRows ∧ ∀ k r, t_sessions t !! k = Some r → Session_TokenHash (row_session r) ≠ hash
  end.
Proof.
  unfold find_session. destruct (find _ _) as [[k r]|] eqn:E.
  - apply find_some in E as [Hin Hh]. apply list_elem_of_In, elem_of_map_to_list in Hin. bool_prop. split; [done|]. by exists k, r.
  - split; [done|]. intros k r Hr Hh.
    assert (bool_decide (Session_TokenHash (row_session (k, r).2) = hash) = false) as Hf; [|by bool_prop].
    apply (find_none _ _ E). by apply list_elem_of_In, elem_of_map_to_list.
Qed.

Lemma FindSessionByTokenHash_cases hash fs s found fs' s' :
  FindSessionByTokenHash hash fs s = (found, fs', s') →
  s' = s ∧ ∀ session, found = Ok session → find_session hash (tables s) = Ok (session, tables s).
Proof.
  assert (∀ (a : Session) s', ('(a, t) ← find_session hash (tables s); Ok (a, mkWorld t (log s))) = Ok (a, s') →
    find_session hash (tables s) = Ok (a, tables s) ∧ s' = s) as Hq.
  { intros a s1. pose proof (find_session_spec hash (tables s)) as Hs.
    destruct (find_session hash (tables s)) as [[a' t]|]; [|done]. destruct Hs as [-> _]. cbn. intros [= -> <-].
    by destruct s. }
  unfold FindSessionByTokenHash, on_error, sql. destruct (stmt _ fs s) as [[r fs1] s1] eqn:E.
  intros [= <- <- <-]. apply exec_cases in E as [(a & -> & [Hf ->]%Hq)|(Hr & [->|(a & [_ ->]%Hq)])];
    (split; [done|]); intros session; [by intros [= <-]|..]; by (destruct r as [|e]; [done|destruct (errors_is e _)]).
Qed.

(** The guard of the candidate routes.  It admits a request only for a
    stored candidate session that is active at the time of the request and
    whose token hashes to the stored hash; it changes nothing. *)
Theorem RequireActiveSession_guards now r fs s :
  let '(res, fs', s') := RequireActiveSession now r fs s in
  s' = s ∧
  match res with
  | Ok (Granted session) =>
      ∃ token k row, BearerToken r = Some token ∧ t_sessions (tables s) !! k = Some row ∧ row_session row = session ∧
        Session_TokenHash session = HashToken token ∧ IsCandidate session = true ∧ IsActive session now = true
  | Ok (Refused status code) => (status, code) ∈ [(401, "invalid_session_token"); (409, "session_not_active"); (500, "internal_error")]%string
  | Err _ => False
  end.
Proof.
  unfold RequireActiveSession. destruct (BearerToken r) as [token|] eqn:Et; [|split; [done|set_solver]].
  destruct (FindSessionByTokenHash _ fs s) as [[found fs'] s'] eqn:E.
  apply FindSessionByTokenHash_cases in E as [-> Hf].
  split; [done|]. destruct found as [session|e]; [|destruct (errors_is _ _); set_solver].
  pose proof (find_session_spec (HashToken token) (tables s)) as Hs. rewrite (Hf _ eq_refl) in Hs.
  destruct Hs as (_ & k & row & Hk & Hrow & Hh).
  destruct (IsCandidate session) eqn:Ec; cbn; [|set_solver]. destruct (IsActive session now) eqn:Ea; cbn; [|set_solver].
  by exists token, k, row.
Qed.

(** A started session works.  The token [Start] hands out opens exactly the
    session it created - whatever the store has done since - until the time it
    was told, and from then on is refused with 409. *)
Theorem token_opens_session ttl bytes session_id now db_now m invite fs s resp fs' s1 s2 t :
  unique_tokens (tables s) → length bytes = 32%nat → Forall (λ b, 0 ≤ b < 256) bytes →
  Start ttl (Ok bytes) session_id now db_now m invite fs s = (Ok resp, fs', s1) →
  rtc store_op s1 s2 →
  Response_ExpiresAt resp = time_add now (session_ttl ttl) ∧
  ∃ session, Session_ID session = session_id ∧ Response_SessionID resp = uuid_String session_id ∧
    IsCandidate session = true ∧
    result_of (RequireActiveSession t (mkRequest ("Bearer " +:+ AccessToken resp))) [] s2 =
      Ok (if t <? Response_ExpiresAt resp then Granted session else Refused 409 "session_not_active").
Proof.
  intros Hu Hlen Hb H Hhist. unfold Start in H. case_bool_decide; [done|]. inv_M.
  match goal with H : StartSession ?a ?b ?c ?d ?f ?w = _ |- _ =>
    pose proof (stays_StartSession a b c d f w) as Hg; unfold state_after in Hg; rewrite H in Hg; cbn in Hg;
    apply StartSession_ok in H as (k & i & interview & _ & _ & _ & _ & _ & _ & _ & _ & _ & _ & Hrow & Hst) end.
  apply store_history_grows in Hhist. pose proof (grow_tokens _ _ Hhist (grow_tokens _ _ Hg Hu)) as Hu2.
  destruct (grow_session _ _ Hhist _ _ Hrow) as (row & Hrow2 & Er & _). cbn [row_session] in Er.
  cbn [Response_ExpiresAt Response_SessionID AccessToken]. rewrite Hst in *. split; [done|].
  exists (row_session row). rewrite Er. cbn [Session_ID]. split_and!; [done..|].
  unfold RequireActiveSession. rewrite BearerToken_bearer; [|destruct x as [|? [|? [|]]]; done|by apply base64_no_space].
  pose proof (find_session_spec (HashToken (base64_raw_url x)) (tables s2)) as Hf.
  unfold result_of, FindSessionByTokenHash, on_error, sql, stmt.
  destruct (find_session _ _) as [[session t2]|]; [|by destruct (proj2 Hf _ _ Hrow2); rewrite Er].
  destruct Hf as (-> & k2 & r2 & Hk2 & <- & Hh). cbn [result_bind mbind fst snd].
  assert (k2 = (Invite_CompanyID i, session_id)) as -> by (eapply Hu2; [done..|]; by rewrite Hh, Er).
  cbn in Hrow2. rewrite Hrow2 in Hk2. injection Hk2 as <-. rewrite Er. cbn.
  unfold IsActive, after. cbn. by destruct (t <? _).
Qed.
End Guard.

(** ** Worked examples *)
Definition example_bytes : list Z := map (λ n, Z.of_nat n * 7 mod 256) (seq 1 32).
Definition example_mint : mint := mkMint (Ok example_bytes) 1000.
Definition example_inviting : World :=
  mkWorld (set_invites (λ _, {[(7%N, 9%N) := mkInvite 9%N 7%N (Some 3%N) None "ada@example.org" "candidate"
    (HashToken "invite-token") (10 * hour) None 0]}) (tables example_world)) [].
Definition example_started : M World StartResponse :=
  Start (uuids := BinUuid.lib) (2 * hour) (Ok example_bytes) 20%N (3 * hour) hour example_mint "invite-token".

Lemma token_opens_session_witness :
  ∃ resp, result_of example_started [] example_inviting = Ok resp ∧ Response_ExpiresAt resp = 5 * hour ∧
  ∃ session, Session_ID session = 20%N ∧
    result_of (RequireActiveSession (4 * hour) (mkRequest ("Bearer " +:+ AccessToken resp))) []
      (state_after example_started [] example_inviting) = Ok (Granted session).
Proof.
  destruct (example_started [] example_inviting) as [[[resp|e] fs'] s1] eqn:E; [|vm_compute in E; discriminate E].
  assert (Response_ExpiresAt resp = 5 * hour) as Ht by (vm_compute in E; by injection E as <- _ _).
  exists resp. unfold result_of, state_after. rewrite E. split; [done|]. split; [done|].
  destruct (token_opens_session (uuids := BinUuid.lib) (2 * hour) example_bytes 20%N (3 * hour) hour example_mint
    "invite-token" [] example_inviting resp fs' s1 s1 (4 * hour)) as (_ & session & Hid & _ & _ & Hg).
  - intros k1 k2 r1 r2. cbn. intros [<- _]%lookup_singleton_Some [<- _]%lookup_singleton_Some. done.
  - reflexivity.
  - apply (bool_decide_unpack _). vm_compute. exact I.
  - exact E.
  - reflexivity.
  - exists session. split; [exact Hid|]. rewrite Ht in Hg. exact Hg.
Defined.

Definition example_env : run_env :=
  mkRunEnv "0b5f7c3e-1d2a-4c88-9e11-6a2f0c9d4e77" "tok" 0 9 1 8 example_mint example_mint.
Definition example_request : RunRequest :=
  mkRunRequest "python" "main.py" {["main.py" := "print(1)"]} "".
Definition example_desk : Desk := mkDesk example_world ∅ ∅.
Definition example_execute (r : ExecuteRequest) : M Desk ExecuteResponse :=
  mret (mkExecuteResponse (Req_ExecutionID r) "succeeded" 0 "1" "" false false 12).
Definition example_run (fs : script) : (RunResult * option error) * script * Desk :=
  Run (uuids := BinUuid.lib) (λ _, 40) example_execute (mkRunConfig 0 0) example_member example_request example_env fs example_desk.

Lemma example_quiet : sandbox_quiet example_execute.
Proof. intros r fs s. done. Qed.

Lemma Run_recorded_witness :
  (example_run []).1.1.2 = None ∧ length (t_outbox (tables (desk_world (example_run []).2))) = 3%nat ∧
  desk_locks (example_run []).2 = ∅ ∧
  ∃ interview body d0 d1, desk_world d0 = example_world ∧ desk_world (example_run []).2 = desk_world d1 ∧
    run_trace (uuids := BinUuid.lib) (λ _, 40) example_member interview example_request example_env body d0 d1 None
      (example_run []).1.1.1.
Proof.
  split; [vm_compute; reflexivity|]. split; [vm_compute; reflexivity|]. split; [vm_compute; reflexivity|].
  assert ((example_run []).1.1.2 = None) as En by (vm_compute; reflexivity).
  destruct (example_run []) as [[[result err] fs'] d'] eqn:E. cbn in En. subst err.
  destruct (Run_recorded (uuids := BinUuid.lib) (λ _, 40) example_execute (mkRunConfig 0 0) example_member
    example_request example_env [] example_desk result None fs' d') as [[[? [=]] _]|H].
  - exact example_sequences.
  - exact example_quiet.
  - exact E.
  - destruct H as (interview & body & fs0 & fs1 & d0 & d1 & _ & _ & _ & _ & _ & _ & _ & Hw & Hd & Ht).
    exists interview, body, d0, d1. split; [exact Hw|]. split; [exact Hd|exact Ht].
Defined.

Definition example_config : PromptConfig := mkPromptConfig (S := World) "model" "system" 1000 None.
Definition example_gateway (c : CompleteRequest) (onDelta : string → M World ()) : M World Outcome :=
  onDelta "hi";; mret (mkOutcome "completed" "end_turn" "" "model" (Gateway.mkUsage 3 1)).
Definition example_submit : M World Outcome :=
  Submit (uuids := BinUuid.lib) example_config example_gateway example_member
    (mkPromptRequest "why?" []) 44%N 100 example_mint (λ _, mret ()) (λ _, mret ()).

Lemma Submit_records_first_witness :
  is_ok (result_of example_submit [] example_world) = true ∧
  ∃ completion fs1 s1 first,
    example_submit [] example_world = example_gateway completion (λ _, mret ()) fs1 s1 ∧
    recorded 7%N 3%N 2 100 (prompt_messages (uuids := BinUuid.lib) example_member 3%N 44%N (mkPromptRequest "why?" []) example_mint)
      first example_world s1.
Proof.
  assert (is_ok (result_of example_submit [] example_world) = true) as Hok by (vm_compute; reflexivity).
  split; [exact Hok|].
  destruct (Submit_records_first (uuids := BinUuid.lib) example_config example_member (mkPromptRequest "why?" []) 44%N
    100 example_mint (λ _, mret ()) (λ _, mret ()) [] example_world)
    as [(e & fs' & s' & H)|(completion & fs1 & s1 & interview & first & H & Hr & _)].
  - exact example_sequences.
  - intros f H. discriminate H.
  - intros a fs s. reflexivity.
  - exfalso. unfold result_of, example_submit in Hok. rewrite H in Hok. discriminate Hok.
  - exists completion, fs1, s1, first. split; [apply H|].
    destruct (decide (interview = 3%N)) as [->|Hne]; [exact Hr|].
    destruct Hr as (i & ms & _ & Hi & _). cbn in Hi. 
    rewrite lookup_singleton_ne in Hi; [discriminate Hi|]. intros [=]. by apply Hne.
Defined.
