(* ===== verification/Clients.v ===== *)
(** * The workspace's HTTP clients (internal/candidateworkspace:
      gatewayclient.go, sandboxclient.go)

    What crosses the network between the Candidate Workspace and the AI
    Gateway and Execution Sandbox: a request and a response value are [Wire]
    types - a JSON text and how it is decoded - and the clients are composed
    with the handlers of [Gateway] and [Sandbox] over the bytes of a connection
    that may break anywhere, with the event the gateway logs beside them. *)
From S2P Require Import Prelude Str GoTime Json JsonText Codec Events Tx Outbox Sandbox Sse Gateway.

(** ** Values on the wire *)
Class Wire (A : Type) := {
  to_json : A → json;
  (* decoding into the zero value, [strict] for [DisallowUnknownFields] *)
  from_json : bool → json → option A;
  (* what arrives: strings are coerced to UTF-8 *)
  over_wire : A → A;
  (* integers fit their Go type *)
  sendable_value : A → Prop;
  to_json_wf : ∀ x d, 3 ≤ d → wf d (to_json x) = true;
  from_to_json : ∀ strict x, sendable_value x → from_json strict (to_json x) = Some (over_wire x);
}.

Lemma wf_string s : valid_utf8 (coerce_utf8 s) = true.
Proof. apply utf8_valid, coerce_is_utf8. Qed.
Lemma wf_int z : bool_decide (lex_number (render_int z) = Some (render_int z, ""%string)) = true.
Proof. apply bool_decide_eq_true_2, lex_render_int. Qed.

(** [Decoder.Decode] of a reader cut off at [limit] bytes: its first value. *)
Definition first_value (limit : Z) (text : string) : RawMessage :=
  let text := take_bytes (Z.to_nat limit) text in
  fst <$> parse_value (2 * String.length text + 1)%nat maxNestingDepth text.

Section Texts.
Context `{Wire A}.
Definition marshal_text (x : A) : string := render (to_json x).
(** [json.Unmarshal]. *)
Definition unmarshal_text (text : string) : option A := parse_json text ≫= from_json false.
Definition decode_first (strict : bool) (limit : Z) (text : string) : option A :=
  first_value limit text ≫= from_json strict.

Lemma unmarshal_marshal x : sendable_value x → unmarshal_text (marshal_text x) = Some (over_wire x).
Proof.
  intros Hx. unfold unmarshal_text, marshal_text.
  destruct (parse_json_render (to_json x) "") as [Hp _]; [by apply to_json_wf|done|].
  rewrite append_nil_r in Hp. rewrite Hp. by apply from_to_json.
Qed.
Lemma first_marshal limit x : len (marshal_text x) ≤ limit → first_value limit (marshal_text x) = Some (to_json x).
Proof.
  intros Hl. unfold first_value, marshal_text in *. rewrite take_bytes_all by (unfold len in Hl; lia).
  pose proof (parse_render_nested (to_json x) maxNestingDepth (2 * String.length (render (to_json x)) + 1)%nat "") as Hp.
  rewrite append_nil_r in Hp. rewrite Hp; [done|by apply to_json_wf|done|lia].
Qed.
Lemma decode_marshal_first strict limit x : sendable_value x → len (marshal_text x) ≤ limit →
  decode_first strict limit (marshal_text x) = Some (over_wire x).
Proof. intros Hx Hl. unfold decode_first. rewrite first_marshal by done. by apply from_to_json. Qed.
Lemma marshal_one_line x : one_line (marshal_text x).
Proof. split; apply (render_no_newline _ maxNestingDepth); first [by left|by right|by apply to_json_wf]. Qed.
End Texts.

(** ** The values *)
Record DeltaEvent := mkDeltaEvent { Text : string }.
Definition DeltaEvent_fields : list (field DeltaEvent) := [string_field "text" (λ s _, mkDeltaEvent s)].

#[export, refine] Instance DeltaEvent_wire : Wire DeltaEvent := {|
  to_json x := delta_json (Text x);
  from_json strict j := decode_struct strict DeltaEvent_fields j (mkDeltaEvent "");
  over_wire x := mkDeltaEvent (coerce_utf8 (Text x));
  sendable_value _ := True;
|}.
Proof.
  - intros x d Hd. cbn. rewrite wf_string, (proj2 (Z.ltb_lt _ _)) by lia. done.
  - done.
Defined.

Definition Usage_fields : list (field Usage) := [
  int64_field "input_tokens" (λ z u, mkUsage z (OutputTokens u));
  int64_field "output_tokens" (λ z u, mkUsage (InputTokens u) z)].
Definition Outcome_fields (strict : bool) : list (field Outcome) := [
  string_field "status" (λ x o, mkOutcome x (Outcome_StopReason o) (ErrorCode o) (Outcome_Model o) (Outcome_Usage o));
  string_field "stop_reason" (λ x o, mkOutcome (Gateway.Status o) x (ErrorCode o) (Outcome_Model o) (Outcome_Usage o));
  string_field "error_code" (λ x o, mkOutcome (Gateway.Status o) (Outcome_StopReason o) x (Outcome_Model o) (Outcome_Usage o));
  string_field "model" (λ x o, mkOutcome (Gateway.Status o) (Outcome_StopReason o) (ErrorCode o) x (Outcome_Usage o));
  ("usage"%string, λ j o, u ← decode_struct strict Usage_fields j (Outcome_Usage o);
     Some (mkOutcome (Gateway.Status o) (Outcome_StopReason o) (ErrorCode o) (Outcome_Model o) u))].

Definition usage_ok (u : Usage) : Prop := in_int64 (InputTokens u) ∧ in_int64 (OutputTokens u).

Lemma decode_known {T} strict (fs : list (field T)) k v kvs t f : find_field fs k = Some f →
  decode_fields strict fs ((k, v) :: kvs) t = t ← f.2 v t; decode_fields strict fs kvs t.
Proof. intros E. cbn [decode_fields]. by rewrite E. Qed.
(** Decoding an object of known fields, integers read back as they were printed. *)
Ltac decode_step :=
  erewrite decode_known by reflexivity; cbn -[coerce_utf8 render_int parse_int64 find_field decode_fields];
  rewrite ?parse_render_int by done; cbn -[coerce_utf8 render_int parse_int64 find_field decode_fields].

#[export, refine] Instance Outcome_wire : Wire Outcome := {|
  to_json := outcome_json;
  from_json strict j := decode_struct strict (Outcome_fields strict) j (mkOutcome "" "" "" "" (mkUsage 0 0));
  over_wire o := mkOutcome (coerce_utf8 (Gateway.Status o)) (coerce_utf8 (Outcome_StopReason o))
    (coerce_utf8 (ErrorCode o)) (coerce_utf8 (Outcome_Model o)) (Outcome_Usage o);
  sendable_value o := usage_ok (Outcome_Usage o);
|}.
Proof.
  - intros o d Hd. unfold outcome_json. cbn [wf]. rewrite (proj2 (Z.ltb_lt _ _)) by lia.
    repeat case_bool_decide; cbn; rewrite ?wf_string, ?wf_int, (proj2 (Z.ltb_lt _ _)) by lia; done.
  - intros strict [st sr ec mo [i o]] [Hi Ho]. cbn in Hi, Ho. unfold outcome_json, usage_json, decode_struct. cbn [Gateway.Status Outcome_StopReason ErrorCode Outcome_Model Outcome_Usage].
    repeat case_bool_decide; subst; cbn [app]; repeat decode_step; done.
Defined.

(** [messages] is decoded element by element over the elements its backing
    array already holds: those of an earlier [messages] of the same body, with
    the ones a shorter list left behind; [null] and [[]] drop the array. *)
Definition Message_fields : list (field Message) := [
  string_field "role" (λ x m, mkMessage x (Content m));
  string_field "content" (λ x m, mkMessage (Role m) x)].
Fixpoint decode_slots (strict : bool) (l : list json) (slots : list Message) : option (list Message * list Message) :=
  match l with
  | [] => Some ([], slots)
  | j :: l =>
      m ← decode_struct strict Message_fields j (default (mkMessage "" "") (head slots));
      '(ms, spare) ← decode_slots strict l (tail slots);
      Some (m :: ms, spare)
  end.
Definition decode_messages (strict : bool) (j : json) (messages spare : list Message)
    : option (list Message * list Message) :=
  match j with
  | JNull | JArray [] => Some ([], [])
  | JArray l => decode_slots strict l (messages ++ spare)
  | _ => None
  end.

(** The request and the spare elements of [Messages]'s array. *)
Definition CompleteRequest_fields (strict : bool) : list (field (CompleteRequest * list Message)) :=
  let on (set : CompleteRequest → CompleteRequest) (st : CompleteRequest * list Message) := (set st.1, st.2) in [
  string_field "company_id" (λ x, on (λ r, mkCompleteRequest x (InterviewID r) (SessionID r) (PromptID r) (Request_SequenceNumber r) (Mode r) (Model r) (System r) (Messages r) (MaxTokens r)));
  string_field "interview_id" (λ x, on (λ r, mkCompleteRequest (CompanyID r) x (SessionID r) (PromptID r) (Request_SequenceNumber r) (Mode r) (Model r) (System r) (Messages r) (MaxTokens r)));
  string_field "session_id" (λ x, on (λ r, mkCompleteRequest (CompanyID r) (InterviewID r) x (PromptID r) (Request_SequenceNumber r) (Mode r) (Model r) (System r) (Messages r) (MaxTokens r)));
  string_field "prompt_id" (λ x, on (λ r, mkCompleteRequest (CompanyID r) (InterviewID r) (SessionID r) x (Request_SequenceNumber r) (Mode r) (Model r) (System r) (Messages r) (MaxTokens r)));
  int64_field "sequence_number" (λ x, on (λ r, mkCompleteRequest (CompanyID r) (InterviewID r) (SessionID r) (PromptID r) x (Mode r) (Model r) (System r) (Messages r) (MaxTokens r)));
  string_field "mode" (λ x, on (λ r, mkCompleteRequest (CompanyID r) (InterviewID r) (SessionID r) (PromptID r) (Request_SequenceNumber r) x (Model r) (System r) (Messages r) (MaxTokens r)));
  string_field "model" (λ x, on (λ r, mkCompleteRequest (CompanyID r) (InterviewID r) (SessionID r) (PromptID r) (Request_SequenceNumber r) (Mode r) x (System r) (Messages r) (MaxTokens r)));
  string_field "system" (λ x, on (λ r, mkCompleteRequest (CompanyID r) (InterviewID r) (SessionID r) (PromptID r) (Request_SequenceNumber r) (Mode r) (Model r) x (Messages r) (MaxTokens r)));
  ("messages"%string, λ j st, '(ms, spare) ← decode_messages strict j (Messages st.1) st.2;
     Some ((λ r, mkCompleteRequest (CompanyID r) (InterviewID r) (SessionID r) (PromptID r) (Request_SequenceNumber r) (Mode r) (Model r) (System r) ms (MaxTokens r)) st.1, spare));
  int64_field "max_tokens" (λ x, on (λ r, mkCompleteRequest (CompanyID r) (InterviewID r) (SessionID r) (PromptID r) (Request_SequenceNumber r) (Mode r) (Model r) (System r) (Messages r) x))].
Definition no_completion : CompleteRequest := mkCompleteRequest "" "" "" "" 0 "" "" "" [] 0.

Definition message_json (m : Message) : json :=
  JObject [("role"%string, encode_string (Role m)); ("content"%string, encode_string (Content m))].
(** A request without messages has a nil slice. *)
Definition messages_json (ms : list Message) : json :=
  match ms with [] => JNull | _ => JArray (map message_json ms) end.
Definition request_json (r : CompleteRequest) : json :=
  let optional (k v : string) := if bool_decide (v = ""%string) then [] else [(k, encode_string v)] in
  JObject ([("company_id", encode_string (CompanyID r)); ("interview_id", encode_string (InterviewID r));
            ("session_id", encode_string (SessionID r)); ("prompt_id", encode_string (PromptID r));
            ("sequence_number", JNumber (render_int (Request_SequenceNumber r)))]%string ++
    optional "mode" (Mode r) ++ optional "model" (Model r) ++ optional "system" (System r) ++
    [("messages"%string, messages_json (Messages r))] ++
    (if bool_decide (MaxTokens r = 0) then [] else [("max_tokens"%string, JNumber (render_int (MaxTokens r)))])).

Definition message_over_wire (m : Message) : Message := mkMessage (coerce_utf8 (Role m)) (coerce_utf8 (Content m)).
Definition request_over_wire (r : CompleteRequest) : CompleteRequest :=
  mkCompleteRequest (coerce_utf8 (CompanyID r)) (coerce_utf8 (InterviewID r)) (coerce_utf8 (SessionID r))
    (coerce_utf8 (PromptID r)) (Request_SequenceNumber r) (coerce_utf8 (Mode r)) (coerce_utf8 (Model r))
    (coerce_utf8 (System r)) (map message_over_wire (Messages r)) (MaxTokens r).

Lemma decode_message strict m : decode_struct strict Message_fields (message_json m) (mkMessage "" "") = Some (message_over_wire m).
Proof. unfold message_json, decode_struct. repeat decode_step. done. Qed.
Lemma decode_slots_messages strict ms : decode_slots strict (map message_json ms) [] = Some (map message_over_wire ms, []).
Proof.
  induction ms as [|m ms IH]; [done|]. cbn [map decode_slots tail head default].
  change (default _ None) with (mkMessage "" ""). by rewrite decode_message; cbn; rewrite IH.
Qed.
Lemma decode_messages_json strict ms : decode_messages strict (messages_json ms) [] [] = Some (map message_over_wire ms, []).
Proof. destruct ms as [|m ms]; [done|]. apply (decode_slots_messages strict (m :: ms)). Qed.

#[local] Arguments decode_messages : simpl never.
#[local] Arguments messages_json : simpl never.

#[export, refine] Instance CompleteRequest_wire : Wire CompleteRequest := {|
  to_json := request_json;
  from_json strict j := fst <$> decode_struct strict (CompleteRequest_fields strict) j (no_completion, []);
  over_wire := request_over_wire;
  sendable_value r := in_int64 (Request_SequenceNumber r) ∧ in_int64 (MaxTokens r);
|}.
Proof.
  - intros r d Hd.
    assert (Hm : wf (d - 1) (messages_json (Messages r)) = true).
    { destruct (Messages r) as [|m ms]; [done|]. unfold messages_json. cbn [wf]. rewrite (proj2 (Z.ltb_lt _ _)) by lia.
      apply forallb_forall. intros j Hj. apply in_map_iff in Hj as (m' & <- & _). cbn.
      rewrite !wf_string, (proj2 (Z.ltb_lt _ _)) by lia. done. }
    unfold request_json. cbn [wf]. rewrite (proj2 (Z.ltb_lt _ _)) by lia.
    repeat case_bool_decide; cbn -[wf]; rewrite Hm; cbn; rewrite ?wf_string, ?wf_int; done.
  - intros strict [c i s p n mo md sy ms mt] [Hi Ho]. cbn in Hi, Ho. unfold request_json, decode_struct.
    cbn [CompanyID InterviewID SessionID PromptID Request_SequenceNumber Mode Model System Messages MaxTokens].
    assert (Hm := decode_messages_json strict ms).
    repeat case_bool_decide; subst; cbn [app]; repeat (decode_step; rewrite ?Hm; cbn [mbind option_bind]); done.
Defined.

#[export, refine] Instance ExecuteRequest_wire : Wire ExecuteRequest := {|
  to_json r :=
    let optional (k v : string) := if bool_decide (v = ""%string) then [] else [(k, encode_string v)] in
    JObject ([("execution_id", encode_string (Req_ExecutionID r)); ("snapshot_key", encode_string (SnapshotKey r));
              ("language", encode_string (Req_Language r)); ("entrypoint", encode_string (Req_Entrypoint r))]%string ++
      optional "stdin"%string (Req_Stdin r) ++
      (if bool_decide (TimeoutMS r = 0) then [] else [("timeout_ms"%string, JNumber (render_int (TimeoutMS r)))]));
  from_json strict j := decode_struct strict ExecuteRequest_fields j no_request;
  over_wire r := mkExecuteRequest (coerce_utf8 (Req_ExecutionID r)) (coerce_utf8 (SnapshotKey r))
    (coerce_utf8 (Req_Language r)) (coerce_utf8 (Req_Entrypoint r)) (coerce_utf8 (Req_Stdin r)) (TimeoutMS r);
  sendable_value r := in_int64 (TimeoutMS r);
|}.
Proof.
  - intros r d Hd. cbn [wf]. rewrite (proj2 (Z.ltb_lt _ _)) by lia.
    repeat case_bool_decide; cbn; rewrite ?wf_string, ?wf_int; done.
  - intros strict [e k l p i t] Ht. cbn in Ht. unfold decode_struct.
    cbn [Req_ExecutionID SnapshotKey Req_Language Req_Entrypoint Req_Stdin TimeoutMS].
    repeat case_bool_decide; subst; cbn [app]; repeat decode_step; done.
Defined.

(** The exit code is a Go [int]: 64 bits. *)
Definition ExecuteResponse_fields : list (field ExecuteResponse) := [
  string_field "execution_id" (λ x r, mkExecuteResponse x (Resp_Status r) (Resp_ExitCode r) (Resp_Stdout r) (Resp_Stderr r) (Resp_StdoutTruncated r) (Resp_StderrTruncated r) (DurationMS r));
  string_field "status" (λ x r, mkExecuteResponse (Resp_ExecutionID r) x (Resp_ExitCode r) (Resp_Stdout r) (Resp_Stderr r) (Resp_StdoutTruncated r) (Resp_StderrTruncated r) (DurationMS r));
  int64_field "exit_code" (λ x r, mkExecuteResponse (Resp_ExecutionID r) (Resp_Status r) x (Resp_Stdout r) (Resp_Stderr r) (Resp_StdoutTruncated r) (Resp_StderrTruncated r) (DurationMS r));
  string_field "stdout" (λ x r, mkExecuteResponse (Resp_ExecutionID r) (Resp_Status r) (Resp_ExitCode r) x (Resp_Stderr r) (Resp_StdoutTruncated r) (Resp_StderrTruncated r) (DurationMS r));
  string_field "stderr" (λ x r, mkExecuteResponse (Resp_ExecutionID r) (Resp_Status r) (Resp_ExitCode r) (Resp_Stdout r) x (Resp_StdoutTruncated r) (Resp_StderrTruncated r) (DurationMS r));
  bool_field "stdout_truncated" (λ x r, mkExecuteResponse (Resp_ExecutionID r) (Resp_Status r) (Resp_ExitCode r) (Resp_Stdout r) (Resp_Stderr r) x (Resp_StderrTruncated r) (DurationMS r));
  bool_field "stderr_truncated" (λ x r, mkExecuteResponse (Resp_ExecutionID r) (Resp_Status r) (Resp_ExitCode r) (Resp_Stdout r) (Resp_Stderr r) (Resp_StdoutTruncated r) x (DurationMS r));
  int64_field "duration_ms" (λ x r, mkExecuteResponse (Resp_ExecutionID r) (Resp_Status r) (Resp_ExitCode r) (Resp_Stdout r) (Resp_Stderr r) (Resp_StdoutTruncated r) (Resp_StderrTruncated r) x)].
Definition no_response : ExecuteResponse := mkExecuteResponse "" "" 0 "" "" false false 0.

#[export, refine] Instance ExecuteResponse_wire : Wire ExecuteResponse := {|
  to_json r := JObject [("execution_id", encode_string (Resp_ExecutionID r)); ("status", encode_string (Resp_Status r));
    ("exit_code", JNumber (render_int (Resp_ExitCode r))); ("stdout", encode_string (Resp_Stdout r));
    ("stderr", encode_string (Resp_Stderr r)); ("stdout_truncated", JBool (Resp_StdoutTruncated r));
    ("stderr_truncated", JBool (Resp_StderrTruncated r)); ("duration_ms", JNumber (render_int (DurationMS r)))]%string;
  from_json strict j := decode_struct strict ExecuteResponse_fields j no_response;
  over_wire r := mkExecuteResponse (coerce_utf8 (Resp_ExecutionID r)) (coerce_utf8 (Resp_Status r)) (Resp_ExitCode r)
    (coerce_utf8 (Resp_Stdout r)) (coerce_utf8 (Resp_Stderr r)) (Resp_StdoutTruncated r) (Resp_StderrTruncated r) (DurationMS r);
  sendable_value r := in_int64 (Resp_ExitCode r) ∧ in_int64 (DurationMS r);
|}.
Proof.
  - intros r d Hd. cbn. rewrite !wf_string, !wf_int, (proj2 (Z.ltb_lt _ _)) by lia. done.
  - intros strict [e st x o er ot et d] [Hx Hd]. cbn in Hx, Hd. unfold decode_struct. repeat decode_step. done.
Defined.

(** [strings.TrimRight(s, "/")]. *)
Fixpoint trim_slashes (s : string) : string :=
  match s with
  | EmptyString => EmptyString
  | String a s =>
      match trim_slashes s with
      | EmptyString => if Ascii.eqb a "/" then EmptyString else String a EmptyString
      | s => String a s
      end
  end.

(** The transport: [http.NewRequestWithContext] accepts a URL or fails, and
    [Client.Do] answers a POST of a body to a URL with a status and the bytes
    of the response that arrive before the connection ends or breaks. *)
Record http_response := mkResponse { StatusCode : Z; Body : string }.
Record Transport := mkTransport {
  NewRequest : string → result ();
  Do : string → string → result http_response;
}.

(** ** gatewayclient.go *)
Definition ErrGatewayUnavailable : error := Sentinel "candidateworkspace.ErrGatewayUnavailable".

Module HTTPGateway.
Section Client.
Context {S : Type}.

(** [ctx.Err()] if the caller is gone, else the gateway is unavailable. *)
Definition unavailable (ctx_error : option error) (what : string) : error :=
  default (Wrap what ErrGatewayUnavailable) ctx_error.

(** The loop over the events of the stream; [Next] fails after the last. *)
Fixpoint receive (ctx_error : option error) (events : list Event) (onDelta : string → M S ()) : M S Outcome :=
  match events with
  | [] => throw (unavailable ctx_error "stream ended before done")
  | event :: events =>
      if bool_decide (Sse.Name event = EventDelta) then
        match unmarshal_text (Data event) with
        | None => throw (Wrap "bad delta" ErrGatewayUnavailable)
        | Some delta => onDelta (Text delta);; receive ctx_error events onDelta
        end
      else if bool_decide (Sse.Name event = EventDone) then
        match unmarshal_text (Data event) with
        | None => throw (Wrap "bad done" ErrGatewayUnavailable)
        | Some outcome => mret outcome
        end
      else receive ctx_error events onDelta
  end.

Definition Complete (transport : Transport) (baseURL : string) (ctx_error : option error)
    (request : CompleteRequest) (onDelta : string → M S ()) : M S Outcome :=
  let url := trim_slashes baseURL +:+ "/v1/complete" in
  match NewRequest transport url with
  | Err e => throw e
  | Ok _ =>
      match Do transport url (marshal_text request) with
      | Err _ => throw (unavailable ctx_error "call")
      | Ok response =>
          if negb (StatusCode response =? 200) then throw (Wrap "status" ErrGatewayUnavailable)
          else receive ctx_error (read_all (Body response)).1 onDelta
      end
  end.

(** [onDelta] on each text in turn. *)
Fixpoint each (onDelta : string → M S ()) (texts : list string) : M S () :=
  match texts with [] => mret () | text :: texts => onDelta text;; each onDelta texts end.
End Client.
End HTTPGateway.

(** ** The gateway's side of a connection *)
Definition delta_frame (text : string) : sent := Raw EventDelta (marshal_text (mkDeltaEvent text)).
Definition done_frame (o : Outcome) : sent := Raw EventDone (marshal_text o).

Section Connection.
Context {S : Type} `{KL : !KafkaLog S} {KM : KeyMemory S}.

(** The process behind the connection, the frames it has tried to write and
    whether the connection is broken: a failed write may have put any part of
    its frame on the wire, and nothing is written after it. *)
Record Conn := mkConn { process : S; frames : list sent; gone : bool }.
Definition on_process (f : S → S) (c : Conn) : Conn := mkConn (f (process c)) (frames c) (gone c).

#[export, refine] Instance Conn_kafka : KafkaLog Conn := {|
  kafka c := kafka (process c);
  kafka_append l := on_process (kafka_append l);
|}.
Proof. intros l c. apply (kafka_append_log l (process c)). Defined.
#[export, refine] Instance Conn_keys : KeyMemory Conn := {|
  reveal k c := reveal k (process c);
  zero_key k := on_process (zero_key k);
|}.
Proof.
  - intros k c. apply (reveal_zero k (process c)).
  - intros k k' c. apply (reveal_zero_other k k' (process c)).
  - intros k c. apply (kafka_zero k (process c)).
  - intros k l c. apply (reveal_append k l (process c)).
Defined.

(** [stream.Send]. *)
Definition Send (name : string) (value : json) : M Conn () := λ fs c,
  if gone c then (Err (Plain "write: broken pipe"), fs, c)
  else
    let wrote := mkConn (process c) (frames c ++ [Raw name (render value)]) in
    match fs with
    | [] => (Ok (), [], wrote false)
    | Done :: fs => (Ok (), fs, wrote false)
    | (Fault e | AckLost e | Partial _ e) :: fs => (Err e, fs, wrote true)
    end.

Definition off_wire {A} (m : M S A) : M Conn A := λ fs c,
  let '(r, fs, s) := m fs (process c) in (r, fs, mkConn s (frames c) (gone c)).

Definition off_wire_keys (keys : resolver (S := S)) : resolver (S := Conn) :=
  (λ resolve company, off_wire (resolve company)) <$> keys.

Context `{uuids : UuidLib}.

(** POST /v1/complete on a gateway with the Claude provider, whose SDK stream
    delivers [events] and ends with [final]. *)
Definition max_request : Z := Z.shiftl 4 20.
Definition serve_complete (events : list sdk_event) (final : option sdk_error) (topic : string)
    (keys : resolver (S := S)) (env : surroundings) (body : string) (fs : script) (s : S)
    : (Z * option Outcome) * script * Conn :=
  complete Send (mkProvider "anthropic" (Stream events final (ctx_error env))) topic
    (off_wire_keys keys) env
    (decode_first true max_request body) fs (mkConn s [] false).

(** The gateway reached over a network that delivers the first [arriving]
    bytes of its response. *)
Definition network (events : list sdk_event) (final : option sdk_error) (topic : string)
    (keys : resolver (S := S)) (env : surroundings) (fs : script) (s : S) (arriving : nat) : Transport := {|
  NewRequest _ := Ok ();
  Do _ body :=
    let '((status, _), _, c) := serve_complete events final topic keys env body fs s in
    Ok (mkResponse status (take_bytes arriving (wire (frames c))));
|}.
End Connection.
Arguments Conn : clear implicits.

(** ** What the client makes of the frames *)
Definition delta_event (text : string) : Event := mkEvent "" EventDelta (marshal_text (mkDeltaEvent text)).
Definition done_event (o : Outcome) : Event := mkEvent "" EventDone (marshal_text o).

Lemma receive_deltas {S} ctx_error texts rest (onDelta : string → M S ()) fs s :
  HTTPGateway.receive ctx_error (map delta_event texts ++ rest) onDelta fs s =
  (HTTPGateway.each onDelta (map coerce_utf8 texts);; HTTPGateway.receive ctx_error rest onDelta) fs s.
Proof.
  revert fs s. induction texts as [|t texts IH]; intros fs s; [done|]. cbn [map app HTTPGateway.receive HTTPGateway.each].
  rewrite bool_decide_eq_true_2 by done.
  unfold delta_event at 1. cbn [Data]. rewrite unmarshal_marshal by done. cbn [over_wire DeltaEvent_wire Text].
  unfold mbind, M_bind in *. destruct (onDelta (coerce_utf8 t) fs s) as [[[u|e] fs1] s1]; [|done]. apply IH.
Qed.

Lemma receive_done {S} ctx_error o rest (onDelta : string → M S ()) fs s : usage_ok (Outcome_Usage o) →
  HTTPGateway.receive ctx_error (done_event o :: rest) onDelta fs s = (Ok (over_wire o), fs, s).
Proof.
  intros Ho. cbn [HTTPGateway.receive]. rewrite bool_decide_eq_false_2, bool_decide_eq_true_2 by done.
  cbn [done_event Data]. by rewrite unmarshal_marshal.
Qed.

Lemma prefix_take_length {A} (l k : list A) : l `prefix_of` k → l = take (length l) k.
Proof. intros [r ->]. by rewrite take_app_length. Qed.

(** A prefix of the deltas, or everything up to and with the last event. *)
Lemma prefix_snoc_cases {A} (l k : list A) x : l `prefix_of` k ++ [x] → l `prefix_of` k ∨ l = k ++ [x].
Proof.
  intros [r Hr]. destruct r as [|y r _] using rev_ind; [right; by rewrite app_nil_r in Hr|].
  left. rewrite app_assoc in Hr. apply app_inj_tail in Hr as [-> _]. by exists r.
Qed.
Lemma prefix_map_inv {A B} (f : A → B) l k : l `prefix_of` map f k → ∃ k', l = map f k' ∧ k' `prefix_of` k.
Proof.
  intros H%prefix_take_length. exists (take (length l) k). split; [|apply prefix_take].
  rewrite H at 1. apply firstn_map.
Qed.

(** ** What the gateway writes *)
Section Writes.
Context {S : Type} `{KL : !KafkaLog S} {KM : KeyMemory S} `{uuids : UuidLib}.

Lemma send_delta_cases text fs (c : Conn S) r fs' c' : gone c = false → send_delta Send text fs c = (r, fs', c') →
  frames c' = frames c ++ [delta_frame text] ∧
  (r = Ok () ∧ gone c' = false ∨ gone c' = true ∧ ∃ e, r = Err e ∧ errors_is e errClientGone = true).
Proof.
  intros Hg. unfold send_delta, Send. rewrite Hg. destruct fs as [|[] fs]; intros [= <- <- <-]; split; try done; eauto.
Qed.

(** Sending writes nothing to Kafka. *)
Lemma Send_kafka name value fs (c : Conn S) : kafka (Send name value fs c).2 = kafka c.
Proof. unfold Send. destruct (gone c); [done|]. by destruct fs as [|[] fs]. Qed.
Lemma relay_kafka events delivered result fs (c : Conn S) :
  kafka (relay_events events (send_delta Send) delivered result fs c).2 = kafka c.
Proof.
  revert delivered result fs c. induction events as [|e events IH]; intros delivered result fs c; cbn; [done|].
  destruct e as [model input|text|stop input output|]; try apply IH. case_bool_decide; [apply IH|].
  pose proof (Send_kafka EventDelta (delta_json text) fs c) as Hs. unfold send_delta.
  destruct (Send EventDelta _ fs c) as [[[u|e] fs1] c1]; cbn in *; [|done]. by rewrite IH.
Qed.
(** A key lookup writes nothing to Kafka. *)
Definition keys_quiet (keys : resolver (S := S)) : Prop :=
  ∀ f, keys = Some f → ∀ company fs s, kafka (f company fs s).2 = kafka s.
Lemma served_quiet events final ce keys request : keys_quiet keys →
  quiet (mkProvider "anthropic" (Stream events final ce)) (off_wire_keys keys) request (send_delta Send).
Proof.
  intros Hk. split.
  - intros r fs c. cbn [Provider_Stream]. unfold Stream. match goal with |- context [relay_events ?e ?o ?d ?r fs c] => pose proof (relay_kafka e d r fs c) as H end.
    destruct (relay_events _ _ _ _ _ _) as [[[[delivered result] [e|]] fs1] c1]; [done|]. destruct final; [done|]. by case_bool_decide.
  - intros f Hf fs c. destruct keys as [g|]; [|done]. cbn in Hf. injection Hf as <-. unfold state_after, off_wire.
    pose proof (Hk g eq_refl (CompanyID request) fs (process c)) as H. by destruct (g _ fs (process c)) as [[r fs1] s1].
Qed.

Lemma relay_sends events delivered result fs (c : Conn S) delivered' result' err fs' c' :
  relay_events events (send_delta Send) delivered result fs c = ((delivered', result', err), fs', c') → gone c = false →
  ∃ ds, delivered' = delivered ++ ds ∧ frames c' = frames c ++ map delta_frame ds ∧
    (err = None ∧ gone c' = false ∨ gone c' = true ∧ ∃ e, err = Some e ∧ errors_is e errClientGone = true).
Proof.
  revert delivered result fs c. induction events as [|e events IH]; intros delivered result fs c H Hg; cbn in H.
  { injection H as <- <- <- <- <-. exists []. rewrite !app_nil_r. auto. }
  destruct e as [model input|text|stop input output|]; try (by eapply IH).
  case_bool_decide; [by eapply IH|]. destruct (send_delta Send text fs c) as [[r fs1] c1] eqn:Es.
  destruct (send_delta_cases _ _ _ _ _ _ Hg Es) as (Hf & [[-> Hg1]|(Hg1 & e & -> & He)]).
  - apply IH in H as (ds & -> & Hf' & Hc); [|done]. exists (text :: ds). rewrite <-app_assoc, Hf', Hf, <-app_assoc. auto.
  - injection H as <- <- <- <- <-. exists [text]. split_and!; [done|done|]. right. eauto.
Qed.

(** Without a lost connection every failure of the stream is the provider's. *)
Lemma Stream_sends events final ctx_error request fs (c : Conn S) delivered result err fs' c' : gone c = false →
  Stream events final ctx_error request (send_delta Send) fs c = ((delivered, result, err), fs', c') →
  frames c' = frames c ++ map delta_frame delivered ∧ delivered `prefix_of` text_deltas events ∧
  (err = None → delivered = text_deltas events).
Proof.
  intros Hg H. unfold Stream in H.
  destruct (relay_events _ _ _ _ _ _) as [[[[delivered1 result1] err1] fs1] c1] eqn:Er.
  pose proof (relay_events_spec _ _ _ _ _ _ _ _ _ _ _ Er) as [(ds & Hd & Hp & Hn) _].
  destruct (relay_sends _ _ _ _ _ _ _ _ _ _ Er Hg) as (ds' & Hd' & Hf & _). cbn in Hd, Hd'. subst delivered1 ds'.
  destruct err1 as [e|]; [by injection H as <- <- <- <- <-|]. specialize (Hn eq_refl).
  destruct final as [e|]; [by injection H as <- <- <- <- <-|]. case_bool_decide; by injection H as <- <- <- <- <-.
Qed.

(** The other calls leave the connection alone. *)
Definition same_wire (c c' : Conn S) : Prop := frames c' = frames c ∧ gone c' = gone c.
Lemma resolveKey_wire (keys : resolver (S := S)) ce company fs (c : Conn S) r fs' c' :
  resolveKey (off_wire_keys keys) ce company fs c = (r, fs', c') → same_wire c c'.
Proof.
  unfold resolveKey, off_wire_keys, off_wire. destruct keys as [resolve|]; cbn; [|by intros [= <- <- <-]].
  destruct (resolve company fs (process c)) as [[[k|e] fs1] s1]; by intros [= <- <- <-].
Qed.
Lemma wipe_wire k (c : Conn S) : same_wire c (wipe k c).
Proof. by destruct k. Qed.
Lemma Emit_wire topic key envelope fs (c : Conn S) r fs' c' : Emit topic key envelope fs c = (r, fs', c') → same_wire c c'.
Proof. intros [(body & _ & _ & [->|[_ [->| ->]]])|[_ ->]]%Emit_cases; done. Qed.

Lemma stream_request_sends events final (keys : resolver (S := S)) env request fs (c : Conn S) delivered result err fs' c' : gone c = false →
  stream_request (mkProvider "anthropic" (Stream events final (ctx_error env)))
    (off_wire_keys keys) env request (send_delta Send) fs c
    = ((delivered, result, err), fs', c') →
  frames c' = frames c ++ map delta_frame delivered ∧ delivered `prefix_of` text_deltas events ∧
  (err = None → delivered = text_deltas events).
Proof.
  intros Hg H. unfold stream_request in H.
  destruct (if bool_decide _ then _ else _) as [[[k|e] fs1] c1] eqn:Ek.
  - assert (same_wire c c1) as [Hf1 Hg1].
    { case_bool_decide; [|by injection Ek as <- <- <-]. destruct (resolveKey _ _ _ fs c) as [[r fs2] c2] eqn:Er.
      apply resolveKey_wire in Er. by injection Ek as _ <- <-. }
    cbn [Provider_Stream] in H. destruct (Stream _ _ _ _ _ _ _) as [[[[delivered1 result1] err1] fs2] c2] eqn:Es.
    injection H as <- <- <- <- <-. rewrite (proj1 (wipe_wire k c2)). rewrite <-Hf1. eapply Stream_sends; [|exact Es]. by rewrite Hg1.
  - injection H as <- <- <- <- <-. cbn [map]. rewrite app_nil_r. split; [|split; [apply prefix_nil|done]].
    case_bool_decide; [|done]. destruct (resolveKey _ _ _ fs c) as [[r fs2] c2] eqn:Er.
    apply resolveKey_wire in Er as [Hf _]. by injection Ek as _ <- <-.
Qed.
End Writes.

Definition event_ok (e : sdk_event) : Prop :=
  match e with
  | MessageStart _ input => in_int64 input
  | MessageDelta _ input output => in_int64 input ∧ in_int64 output
  | _ => True
  end.
Definition finished (status : string) : Prop :=
  status ∈ [AIResponseStatusCompleted; AIResponseStatusTruncated; AIResponseStatusRefused].

Section Served.
Context {S : Type} `{KL : !KafkaLog S} {KM : KeyMemory S} `{uuids : UuidLib}.

Lemma relay_usage {T} events (onDelta : string → M T ()) delivered result fs s delivered' result' err fs' s' :
  Forall event_ok events → usage_ok (Result_Usage result) →
  relay_events events onDelta delivered result fs s = ((delivered', result', err), fs', s') → usage_ok (Result_Usage result').
Proof.
  intros He. revert delivered result fs s. induction He as [|e events He _ IH]; intros delivered result fs s Hu H; cbn in H.
  { by injection H as <- <- <- <- <-. }
  destruct e as [model input|text|stop input output|]; [| | |by eapply IH].
  - eapply IH; [|exact H]. by destruct Hu.
  - case_bool_decide; [by eapply IH|]. destruct (onDelta text fs s) as [[[u|e] fs1] s1]; [by eapply IH|].
    by injection H as <- <- <- <- <-.
  - eapply IH; [|exact H]. destruct Hu, He. split; [|done]. cbn. by case_match.
Qed.

Lemma stream_request_usage {T} `{KLT : !KafkaLog T} {KMT : KeyMemory T} events final (keys : resolver (S := T)) env request
    onDelta fs s delivered result err fs' s' : Forall event_ok events →
  stream_request (mkProvider "anthropic" (Stream events final (ctx_error env))) keys env request onDelta fs s
    = ((delivered, result, err), fs', s') → usage_ok (Result_Usage result).
Proof.
  intros He H. unfold stream_request in H. destruct (if bool_decide _ then _ else _) as [[[k|e] fs1] s1].
  2: { by injection H as <- <- <- <- <-. }
  cbn [Provider_Stream] in H. unfold Stream in H. destruct (relay_events _ _ _ _ _ _) as [[[[delivered1 result1] err1] fs2] s2] eqn:Er.
  assert (Hu : usage_ok (Result_Usage result1)) by (by eapply relay_usage; [exact He| |exact Er]).
  destruct err1 as [e|]; [by injection H as <- <- <- <- <-|]. destruct final as [e|]; [by injection H as <- <- <- <- <-|].
  case_bool_decide; by injection H as <- <- <- <- <-.
Qed.

Lemma outcome_finished ce err finish : finished (outcome_status ce err finish).1 → err = None.
Proof. unfold finished, outcome_status. destruct err as [e|]; [|done]. case_match; cbn; set_solver. Qed.

(** The gateway acts on the request the workspace meant. *)
Lemma serve_decoded events final topic keys env (request : CompleteRequest) fs (s : S) :
  sendable_value request → len (marshal_text request) ≤ max_request →
  serve_complete events final topic keys env (marshal_text request) fs s =
  complete Send (mkProvider "anthropic" (Stream events final (ctx_error env))) topic (off_wire_keys keys) env
    (Some (over_wire request)) fs (mkConn s [] false).
Proof. intros Hr Hl. unfold serve_complete. by rewrite (decode_marshal_first true max_request request Hr Hl). Qed.

(** The Claude provider of the gateway, the call of [Complete] its handler makes
    for a validated request, and the text it delivers. *)
Definition claude events final (env : Gateway.surroundings) : Provider (S := Conn S) :=
  mkProvider "anthropic" (Stream events final (ctx_error env)).
Definition served_completion events final topic (keys : resolver (S := S)) env fs s (r : CompleteRequest) : Outcome * option error :=
  (Complete (claude events final env) topic (off_wire_keys keys) env r (send_delta Send) fs (mkConn s [] false)).1.1.
Definition served_text events final (keys : resolver (S := S)) env fs s (r : CompleteRequest) : list string :=
  (stream_request (claude events final env) (off_wire_keys keys) env r (send_delta Send) fs (mkConn s [] false)).1.1.1.1.
(** The event of a completion in the log: exactly one, with this outcome and
    text, or none and [Complete] returned an error. *)
Definition logged events final topic (env : Gateway.surroundings) (r : CompleteRequest) (o : Outcome) (failed : option error)
    (texts : list string) (log log' : list KafkaMessage) : Prop :=
  is_Some failed ∧ log' = log ∨
  ∃ envelope body,
    Events.New (CompanyID r) (Request_SequenceNumber r) (event_id env) (now env)
      (completion (claude events final env) r o (concat_bytes texts) (latency env)) = Ok envelope ∧
    marshal_envelope envelope = Ok body ∧
    log' = log ++ [mkKafkaMessage topic (SessionID r) (Some body) [("event_type"%string, EventTypeAIResponseCompleted)]].

(** Every frame of a completion: the deltas, and the outcome unless the
    connection is lost before it. *)
Lemma serve_frames events final topic keys env (request : CompleteRequest) fs s status outcome fs' (c' : Conn S) :
  Forall event_ok events → sendable_value request → len (marshal_text request) ≤ max_request → keys_quiet keys →
  serve_complete events final topic keys env (marshal_text request) fs s = ((status, outcome), fs', c') →
  status = 400 ∧ frames c' = [] ∨
  status = 200 ∧ ∃ r o failed texts, Validate (over_wire request) = Ok r ∧
    served_completion events final topic keys env fs s r = (o, failed) ∧ served_text events final keys env fs s r = texts ∧
    logged events final topic env r o failed texts (kafka s) (kafka (process c')) ∧
    outcome = Some o ∧ usage_ok (Outcome_Usage o) ∧ texts `prefix_of` text_deltas events ∧
    (finished (Gateway.Status o) → texts = text_deltas events) ∧
    (frames c' = map delta_frame texts ∧ gone c' = true ∨ frames c' = map delta_frame texts ++ [done_frame o]).
Proof.
  intros He Hr Hl Hk H. rewrite serve_decoded in H by done. unfold complete in H.
  destruct (Validate (over_wire request)) as [r|e]; [|left; by injection H as <- <- <- <-]. right.
  fold (claude events final env) in H. destruct (Complete _ _ _ _ _ _ _ _) as [[[o failed] fs2] c2] eqn:Ec.
  destruct (Send EventDone (outcome_json o) fs2 c2) as [[r3 fs3] c3] eqn:Ed. injection H as <- <- <- <-.
  assert (Hlog : kafka (process c3) = kafka c2) by (pose proof (Send_kafka EventDone (outcome_json o) fs2 c2) as Hs; by rewrite Ed in Hs).
  pose proof (Complete_cases _ _ _ _ _ _ _ _ _ _ _ _ Ec) as Hcase.
  pose proof (stream_request_quiet _ _ env r _ fs (mkConn s [] false) (served_quiet events final (ctx_error env) keys r Hk)) as Hquiet.
  split; [done|]. exists r, o, failed. unfold served_completion, served_text, logged. rewrite Ec. unfold Complete in Ec.
  fold (claude events final env) in Hquiet.
  destruct (stream_request _ _ _ _ _ _ _) as [[[[delivered result] err] fs1] c1] eqn:Es. exists delivered.
  cbn [fst snd] in Hquiet. destruct Hcase as [_ Hcase]. rewrite Hquiet in Hcase.
  pose proof (stream_request_usage _ _ _ _ _ _ _ _ _ _ _ _ _ He Es) as Hu.
  apply stream_request_sends in Es as (Hf & Hp & Hn); [|done]. cbn [frames app] in Hf.
  destruct (outcome_status _ _ _) as [st code] eqn:Eo. cbv zeta in Ec. set (o1 := mkOutcome _ _ _ _ _) in Ec.
  assert (o = o1 ∧ frames c2 = frames c1) as [-> Hf2].
  { destruct (Events.New _ _ _ _ _) as [envelope|e]; [|by injection Ec as <- <- <- <-].
    destruct (Emit _ _ _ _ _) as [[r2 fs4] c4] eqn:Ee. apply Emit_wire in Ee as [Hf3 _]. by destruct r2; injection Ec as <- <- <- <-. }
  split_and!; [done|done|done| |done|done|done| |].
  - by rewrite Hlog.
  - intros Hfin. apply Hn, (outcome_finished (ctx_error env) err (Result_FinishReason result)). by rewrite Eo.
  - rewrite <-Hf, <-Hf2. unfold Send in Ed. destruct (gone c2) eqn:Eg; [left; by injection Ed as <- <- <-|].
    right. by destruct fs2 as [|[] fs2]; injection Ed as <- <- <-.
Qed.
End Served.

(** ** The composition *)
Definition fits (x : sent) : Prop := match x with Raw _ data => len data + 6 < max_line | _ => True end.

Lemma raw_sendable `{Wire A} name (x : A) : name ≠ ""%string → one_line name → len name + 7 < max_line →
  fits (Raw name (marshal_text x)) → sendable (Raw name (marshal_text x)).
Proof. intros Hn Ho Hl Hf. split; [done|]. split; [done|]. split; [apply marshal_one_line|]. by split. Qed.
Lemma frames_sendable (texts : list string) o : Forall fits (map delta_frame texts ++ o) →
  (o = [] ∨ ∃ o', o = [done_frame o']) → Forall sendable (map delta_frame texts ++ o).
Proof.
  intros Hf Ho. apply Forall_app in Hf as [Hf Hfo]. apply Forall_app. split.
  - apply (Forall_map delta_frame). apply (Forall_map delta_frame) in Hf. eapply Forall_impl; [exact Hf|].
    intros t Ht. by apply raw_sendable.
  - destruct Ho as [->|[o' ->]]; [done|]. apply Forall_cons in Hfo as [Ht _]. constructor; [|done]. by apply raw_sendable.
Qed.
Lemma events_of_deltas texts : concat (map event_of (map delta_frame texts)) = map delta_event texts.
Proof. induction texts as [|t texts IH]; [done|]. cbn. by rewrite <-IH. Qed.

Lemma prefix_map {A B} (f : A → B) l k : l `prefix_of` k → map f l `prefix_of` map f k.
Proof. intros [r ->]. rewrite map_app. by eexists. Qed.

(** What [receive] returns after a prefix of the events. *)
Lemma receive_prefix es texts o : es `prefix_of` map delta_event texts ++ [done_event o] → usage_ok (Outcome_Usage o) →
  (es = map delta_event texts ++ [done_event o] ∧
     ∀ ctx_error T (onDelta : string → M T ()) fs t, HTTPGateway.receive ctx_error es onDelta fs t =
       (HTTPGateway.each onDelta (map coerce_utf8 texts);; lift (Ok (over_wire o))) fs t) ∨
  (∃ heard, heard `prefix_of` texts ∧ es = map delta_event heard ∧
     ∀ ctx_error T (onDelta : string → M T ()) fs t, HTTPGateway.receive ctx_error es onDelta fs t =
       (HTTPGateway.each onDelta (map coerce_utf8 heard);;
        lift (Err (HTTPGateway.unavailable ctx_error "stream ended before done"))) fs t).
Proof.
  intros H Ho. apply prefix_snoc_cases in H as [(heard & -> & Hp)%prefix_map_inv| ->]; [right|left].
  - exists heard. split_and!; [done|done|]. intros ctx_error T onDelta fs t.
    pose proof (receive_deltas ctx_error heard [] onDelta fs t) as E. rewrite app_nil_r in E. exact E.
  - split; [done|]. intros ctx_error T onDelta fs t. rewrite receive_deltas. unfold mbind, M_bind.
    destruct (HTTPGateway.each _ _ _ _) as [[[u|e] fs1] t1]; [|done]. by apply receive_done.
Qed.

(** C23: The workspace and the gateway agree over any connection.  The gateway
    acts on exactly the request the workspace built.  Whatever the Claude
    stream, the key lookup, the writes and the network do - the connection may
    break at any byte - the workspace hands its own client a prefix of the
    stream's text deltas, in order and unmangled, and then either returns the
    very outcome the gateway's [Complete] ended with, after all the text when
    that outcome says the answer is finished, or fails with
    [ErrGatewayUnavailable] (or its own context's error).  The outcome returned
    is the one in the log: Kafka has exactly one new event, with this outcome and
    exactly the text the client was given, unless [Complete] returned an error -
    which the handler ignores, so that then the outcome reaches the client
    unrecorded.  The workspace never takes a cut-off answer for a whole one, and
    a response that arrives in full is never reported as a failure. *)
Theorem gateway_call_faithful {S} `{KL : !KafkaLog S} {KM : KeyMemory S} `{uuids : UuidLib}
    events final topic keys env (request : CompleteRequest) fs (s : S) arriving base ctx_error status outcome fs' (c' : Conn S) :
  Forall event_ok events → sendable_value request → len (marshal_text request) ≤ max_request → keys_quiet keys →
  serve_complete events final topic keys env (marshal_text request) fs s = ((status, outcome), fs', c') →
  Forall fits (frames c') →
  decode_first true max_request (marshal_text request) = Some (over_wire request) ∧
  ∃ taken answer,
    (∀ T (onDelta : string → M T ()) fs1 t,
       HTTPGateway.Complete (network events final topic keys env fs s arriving) base ctx_error request onDelta fs1 t =
       (HTTPGateway.each onDelta taken;; lift answer) fs1 t) ∧
    taken `prefix_of` map coerce_utf8 (text_deltas events) ∧
    match answer with
    | Ok o => ∃ r o' failed texts, outcome = Some o' ∧ o = over_wire o' ∧ taken = map coerce_utf8 texts ∧
        (finished (Gateway.Status o') → taken = map coerce_utf8 (text_deltas events)) ∧
        Validate (over_wire request) = Ok r ∧ served_completion events final topic keys env fs s r = (o', failed) ∧
        served_text events final keys env fs s r = texts ∧
        logged (S := S) events final topic env r o' failed texts (kafka s) (kafka (process c'))
    | Err e => ctx_error = Some e ∨ errors_is e ErrGatewayUnavailable = true
    end ∧
    (status = 200 → gone c' = false → (String.length (wire (frames c')) ≤ arriving)%nat → is_ok answer = true).
Proof.
  intros He Hr Hl Hk Hs Hfit. split; [by apply decode_marshal_first|].
  assert (Hu : ∀ what, ctx_error = Some (HTTPGateway.unavailable ctx_error what) ∨
    errors_is (HTTPGateway.unavailable ctx_error what) ErrGatewayUnavailable = true).
  { intros what. destruct ctx_error; [by left|]. right. cbn. by rewrite orb_true_r. }
  unfold HTTPGateway.Complete. cbn [NewRequest network Do]. rewrite Hs. cbn [StatusCode Body].
  destruct (serve_frames _ _ _ _ _ _ _ _ _ _ _ _ He Hr Hl Hk Hs)
    as [[-> Hf]|(-> & r & o & failed & texts & Hv & Hc & Ht & Hlog & -> & Ho & Hp & Hfin & Hf)].
  { exists [], (Err (Wrap "status" ErrGatewayUnavailable)). split_and!; [done|apply prefix_nil|by right|done]. }
  cbn [Z.eqb negb]. destruct (take_bytes_prefix arriving (wire (frames c'))) as [cut Hcut].
  assert (Hsend : Forall sendable (frames c')).
  { destruct Hf as [[Hf _]|Hf]; rewrite Hf in Hfit |- *; [|by eapply frames_sendable; eauto].
    rewrite <-(app_nil_r (map _ _)) in Hfit |- *. eapply frames_sendable; eauto. }
  destruct (read_cut _ _ _ Hsend Hcut) as (es & e & Hread & Hes & _). rewrite Hread. cbn [fst].
  assert (Hevents : concat (map event_of (frames c')) `prefix_of` map delta_event texts ++ [done_event o] ∧
    (gone c' = false → concat (map event_of (frames c')) = map delta_event texts ++ [done_event o])).
  { destruct Hf as [[-> Hg]| ->]; rewrite ?map_app, ?concat_app, events_of_deltas; [|done].
    split; [by apply prefix_app_r|by rewrite Hg]. }
  destruct Hevents as [Hev1 Hev2].
  destruct (receive_prefix es texts o) as [[-> Hrec]|(heard & Hh & -> & Hrec)]; [by etrans|done|..].
  - exists (map coerce_utf8 texts), (Ok (over_wire o)). split_and!; [intros; apply Hrec|by apply prefix_map| |done].
    exists r, o, failed, texts. split_and!; try done. intros H. by rewrite (Hfin H).
  - exists (map coerce_utf8 heard), (Err (HTTPGateway.unavailable ctx_error "stream ended before done")).
    split_and!; [intros; apply Hrec|apply prefix_map; by etrans|apply Hu|].
    intros _ Hg Hn. rewrite take_bytes_all in Hread by done. rewrite (read_sent _ Hsend), (Hev2 Hg) in Hread.
    injection Hread as Heq _. apply (f_equal length) in Heq. rewrite length_app, !length_map in Heq. cbn in Heq.
    apply prefix_length in Hh. lia.
Qed.

Notation example_call :=
  (serve_complete (uuids := BinUuid.lib) example_events None "session-events" example_keys example_env
    (marshal_text example_request) [] (mkProcess ∅ [])) (only parsing).
Definition example_network (arriving : nat) : Transport :=
  network (uuids := BinUuid.lib) example_events None "session-events" example_keys example_env [] (mkProcess ∅ []) arriving.

Definition fitting (x : sent) : bool := match x with Raw _ data => len data + 6 <? max_line | _ => true end.
Lemma fitting_fits xs : forallb fitting xs = true → Forall fits xs.
Proof.
  intros H. apply Forall_forall. intros x Hx. rewrite forallb_forall in H. apply list_elem_of_In in Hx. specialize (H x Hx).
  destruct x; [by apply Z.ltb_lt in H|done|done].
Qed.
Example example_call_facts :
  let '((status, outcome), _, c) := example_call in
  status = 200 ∧ gone c = false ∧ forallb fitting (frames c) = true ∧
  length (frames c) = 3%nat ∧ (String.length (wire (frames c)) <=? 1000)%nat = true ∧ length (process_log (process c)) = 1%nat.
Proof. vm_compute. auto 10. Qed.
Lemma example_keys_quiet : keys_quiet example_keys.
Proof.
  intros f [= <-] company fs s. unfold exec, stmt, mbind, M_bind.
  destruct fs as [|[] fs]; reflexivity.
Qed.

Lemma gateway_call_faithful_witness :
  length (frames example_call.2) = 3%nat ∧
  ∃ taken answer,
    (∀ T (onDelta : string → M T ()) fs1 t,
       HTTPGateway.Complete (example_network 1000) "http://gateway/" None example_request onDelta fs1 t =
       (HTTPGateway.each onDelta taken;; lift answer) fs1 t) ∧
    taken `prefix_of` ["Use "; "a map."]%string ∧ is_ok answer = true ∧ length (process_log (process example_call.2)) = 1%nat.
Proof.
  pose proof example_call_facts as Hf.
  destruct example_call as [[[status outcome] fs'] c'] eqn:E. destruct Hf as (Hs & Hg & Hf & Hl & Hn & Hk).
  split; [exact Hl|].
  destruct (gateway_call_faithful (uuids := BinUuid.lib) example_events None "session-events" example_keys example_env
    example_request [] (mkProcess ∅ []) 1000 "http://gateway/" None status outcome fs' c') as (_ & taken & answer & H1 & H2 & _ & H4).
  - repeat constructor; vm_compute; congruence.
  - split; vm_compute; split; congruence.
  - vm_compute. congruence.
  - exact example_keys_quiet.
  - exact E.
  - exact (fitting_fits _ Hf).
  - exists taken, answer. split; [exact H1|]. split; [exact H2|]. split; [|exact Hk].
    apply H4; [exact Hs|exact Hg|exact (proj1 (Nat.leb_le _ _) Hn)].
Defined.

(** ** sandboxclient.go *)
Module HTTPExecutor.
Definition Execute (transport : Transport) (baseURL : string) (request : ExecuteRequest) : result ExecuteResponse :=
  let url := trim_slashes baseURL +:+ "/v1/executions" in
  _ ← NewRequest transport url;
  response ← wrap_err "call sandbox" (Do transport url (marshal_text request));
  if negb (StatusCode response =? 200) then Err (Plain "sandbox returned a status")
  else
    match decode_first false (Z.shiftl 16 20) (Body response) with
    | None => Err (Plain "decode sandbox response")
    | Some r => Ok r
    end.
End HTTPExecutor.

Section SandboxCall.
Context {S : Type} (get : string → Z → S → result RawMessage) (run : Spec → S → (Result * option error) * S).

(** The sandbox behind a connection that delivers its whole response. *)
Definition sandbox_network (capacity running : Z) (s : S) : Transport := {|
  NewRequest _ := Ok ();
  Do _ body :=
    let '((status, _), response, _) := handleExecute get run capacity running (first_value (Z.shiftl 1 20) body) s in
    Ok (mkResponse status (from_option marshal_text ""%string response));
|}.

Lemma sandbox_answers capacity running s url request :
  sendable_value request → len (marshal_text request) ≤ Z.shiftl 1 20 →
  Do (sandbox_network capacity running s) url (marshal_text request) =
  let response := (Execute get run capacity running (over_wire request) s).1 in
  Ok (mkResponse (http_code response).1 (match response with Ok r => marshal_text r | Err _ => ""%string end)).
Proof.
  intros Hr Hl. cbn [Do sandbox_network]. rewrite first_marshal by done.
  unfold handleExecute, unmarshal_strict. cbn [mbind option_bind].
  pose proof (from_to_json true request Hr) as Hd. cbn [from_json ExecuteRequest_wire] in Hd. rewrite Hd.
  destruct (Execute get run capacity running (over_wire request) s) as [[r|e] s']; [done|].
  cbn [http_code fst]. destruct (errors_is e ErrInvalidSpec); [done|]. by destruct (errors_is e ErrBusy).
Qed.
Lemma refused_status e : (http_code (Err e)).1 =? 200 = false.
Proof. cbn. destruct (errors_is e ErrInvalidSpec); [done|]. by destruct (errors_is e ErrBusy). Qed.

(** A run over the network is the run the sandbox makes of the request as it
    arrives: the same response, or an error whenever the sandbox has one. *)
Theorem sandbox_call_faithful capacity running s base request :
  sendable_value request → len (marshal_text request) ≤ Z.shiftl 1 20 →
  (∀ r, (Execute get run capacity running (over_wire request) s).1 = Ok r →
     sendable_value r ∧ len (marshal_text r) ≤ Z.shiftl 16 20) →
  match (Execute get run capacity running (over_wire request) s).1 with
  | Ok r => HTTPExecutor.Execute (sandbox_network capacity running s) base request = Ok (over_wire r)
  | Err _ => is_ok (HTTPExecutor.Execute (sandbox_network capacity running s) base request) = false
  end.
Proof.
  intros Hr Hl Hout. unfold HTTPExecutor.Execute. rewrite sandbox_answers by done. cbv zeta.
  destruct (Execute get run capacity running (over_wire request) s).1 as [r|e].
  - destruct (Hout r eq_refl) as [Hv Hlr]. cbn [http_code fst wrap_err mbind result_bind StatusCode Body NewRequest sandbox_network Z.eqb Pos.eqb negb].
    by rewrite (decode_marshal_first false (Z.shiftl 16 20) r Hv Hlr).
  - cbn [fst wrap_err mbind result_bind StatusCode NewRequest sandbox_network]. by rewrite refused_status.
Qed.
End SandboxCall.
