(* ===== verification/AdminStore.v ===== *)
(** * The Admin API's store (internal/store/postgres/admin.go)

    The tables of the Admin API beside those of the session flow, every
    statement of [adminQueries] as a function of the database, with the
    constraints the migrations declare, and the methods of [AdminStore] with
    the mapping of Postgres errors.  A statement takes the company of the
    authenticated principal; what it can see of the others is the subject of
    [restrict]. *)
From S2P Require Import Prelude Str GoTime Json Rfc3339 Codec Domain Rbac Events Metrics Outbox Tx Store.

(** ** The sentinel errors (internal/adminapi/store.go, model.go) *)
Definition ErrNotFound : error := Sentinel "adminapi.ErrNotFound".
Definition ErrConflict : error := Sentinel "adminapi.ErrConflict".
Definition ErrInvalidReference : error := Sentinel "adminapi.ErrInvalidReference".
Definition ErrInvalid : error := Sentinel "adminapi.ErrInvalid".

(** A constraint violation as pgx reports it. *)
Definition pg_error (code constraint : string) : error := Typed "pgconn.PgError" code (Plain constraint).
Definition unique_violation := pg_error "23505".
Definition foreign_key_violation := pg_error "23503".
Definition check_violation := pg_error "23514".

(** ** Patches and filters *)
Record CompanyPatch := mkCompanyPatch { CompanyPatch_Name : option string }.
Record UserPatch := mkUserPatch { UserPatch_DisplayName : option string; UserPatch_Role : option Role }.
Record InterviewFilter := mkInterviewFilter { InterviewFilter_Status : string; InterviewFilter_Limit : Z }.
Record InterviewPatch := mkInterviewPatch {
  InterviewPatch_CandidateName : option string;
  InterviewPatch_CandidateEmail : option string;
  InterviewPatch_Status : option string;
  InterviewPatch_ScheduledAt : option time;
  InterviewPatch_TerminalAt : option time;
}.
Record TaskFilter := mkTaskFilter {
  TaskFilter_InterviewID : option UUID;
  TaskFilter_AssigneeID : option UUID;
  TaskFilter_Status : string;
  TaskFilter_Limit : Z;
}.
(** [TaskPatch_AssigneeID]: [Some uuid_Nil] clears the assignee. *)
Record TaskPatch := mkTaskPatch {
  TaskPatch_Title : option string;
  TaskPatch_Description : option string;
  TaskPatch_Status : option string;
  TaskPatch_AssigneeID : option UUID;
  TaskPatch_DueAt : option time;
  TaskPatch_CompletedAt : option time;
}.
Record ScoreDecision := mkScoreDecision {
  Decision_Status : string;
  Decision_FinalValue : option float64;
  Decision_Note : string;
  DecidedBy : UUID;
  DecidedAt : time;
}.

(** ** The database *)
Record DB := mkDB {
  base : Tables;
  companies : gmap UUID Company;
  users : gmap pk User;
  tasks : gmap pk Task;
  policies : gmap (UUID * string) Policy;
}.
Definition set_base f (d : DB) : DB := mkDB (f (base d)) (companies d) (users d) (tasks d) (policies d).
Definition set_companies f (d : DB) : DB := mkDB (base d) (f (companies d)) (users d) (tasks d) (policies d).
Definition set_users f (d : DB) : DB := mkDB (base d) (companies d) (f (users d)) (tasks d) (policies d).
Definition set_tasks f (d : DB) : DB := mkDB (base d) (companies d) (users d) (f (tasks d)) (policies d).
Definition set_policies f (d : DB) : DB := mkDB (base d) (companies d) (users d) (tasks d) (f (policies d)).

(** The rows of a company in a table keyed by company and id. *)
Section Rows.
Context {K A : Type} `{Countable K}.
Definition own (c : UUID) (m : gmap (UUID * K) A) : gmap (UUID * K) A := filter (λ kv, kv.1.1 = c) m.
Definition rows_of (c : UUID) (m : gmap (UUID * K) A) : list A := (map_to_list (own c m)).*2.
(** [UPDATE … WHERE company_id = c], on every row. *)
Definition update_own (c : UUID) (f : A → A) (m : gmap (UUID * K) A) : gmap (UUID * K) A :=
  map_imap (λ k x, Some (if decide (k.1 = c) then f x else x)) m.
End Rows.

Definition check (b : bool) (e : error) : result () := guard_err b e.
Definition exists_row {K A} `{Countable K} (m : gmap K A) (k : K) : bool := bool_decide (is_Some (m !! k)).
(** A nullable foreign key. *)
Definition reference {K A} `{Countable K} (m : gmap (UUID * K) A) (c : UUID) (k : option K) : bool :=
  match k with Some k => exists_row m (c, k) | None => true end.

(** ** Statements *)
Section Statements.
(** The collation of [ORDER BY] on text, and [now()]. *)
Context (text_less : string → string → bool) (now : time).

Definition get_company (c : UUID) (d : DB) : result (Company * DB) :=
  match companies d !! c with Some x => Ok (x, d) | None => Err ErrNoRows end.

Definition update_company (c : UUID) (p : CompanyPatch) (d : DB) : result (Company * DB) :=
  match companies d !! c with
  | Some x =>
      let x := mkCompany (Company_ID x) (default (Company_Name x) (CompanyPatch_Name p)) (Company_Slug x)
                 (Company_CreatedAt x) now in
      _ ← check (negb (bool_decide (Company_Name x = ""%string))) (check_violation "companies_name_check");
      Ok (x, set_companies <[c := x]> d)
  | None => Err ErrNoRows
  end.

Definition user_role (c user : UUID) (d : DB) : result (Role * DB) :=
  match users d !! (c, user) with Some u => Ok (User_Role u, d) | None => Err ErrNoRows end.

Definition list_users (c : UUID) (d : DB) : result (list User * DB) :=
  Ok (sort_stable (λ a b, text_less (User_Email a) (User_Email b)) (rows_of c (users d)), d).

Definition get_user (c user : UUID) (d : DB) : result (User * DB) :=
  match users d !! (c, user) with Some u => Ok (u, d) | None => Err ErrNoRows end.

Definition known_role (role : string) : bool := bool_decide (role ∈ Roles).

Definition create_user (u : User) (d : DB) : result (User * DB) :=
  let c := User_CompanyID u in
  let u := mkUser (User_ID u) c (User_Email u) (User_DisplayName u) (User_Role u) now now in
  _ ← check (negb (bool_decide (User_Email u = ""%string))) (check_violation "users_email_check");
  _ ← check (known_role (User_Role u)) (check_violation "users_role_known_check");
  _ ← check (negb (exists_row (users d) (c, User_ID u)) &&
             negb (existsb (λ u', bool_decide (User_Email u' = User_Email u)) (rows_of c (users d))))
       (unique_violation "users");
  _ ← check (exists_row (companies d) c) (foreign_key_violation "users_company_id_fkey");
  Ok (u, set_users <[(c, User_ID u) := u]> d).

Definition update_user (c user : UUID) (p : UserPatch) (d : DB) : result (User * DB) :=
  match users d !! (c, user) with
  | Some u =>
      let u := mkUser (User_ID u) (User_CompanyID u) (User_Email u)
        (default (User_DisplayName u) (UserPatch_DisplayName p)) (default (User_Role u) (UserPatch_Role p))
        (User_CreatedAt u) now in
      _ ← check (known_role (User_Role u)) (check_violation "users_role_known_check");
      Ok (u, set_users <[(c, user) := u]> d)
  | None => Err ErrNoRows
  end.

(** [ON DELETE SET NULL] of the references to a user. *)
Definition forget (user : UUID) (x : option UUID) : option UUID :=
  if decide (x = Some user) then None else x.
Definition forget_creator (user : UUID) (i : Interview) : Interview :=
  mkInterview (Interview_ID i) (Interview_CompanyID i) (forget user (Interview_CreatedBy i))
    (Interview_CandidateName i) (Interview_CandidateEmail i) (Interview_Status i) (Interview_ScheduledAt i)
    (Interview_TerminalAt i) (Interview_EraseRequestedAt i) (Interview_LegalHold i) (Interview_PurgedAt i)
    (Interview_LastSequenceNumber i) (Interview_CreatedAt i) (Interview_UpdatedAt i).
Definition forget_inviter (user : UUID) (i : Invite) : Invite :=
  mkInvite (Invite_ID i) (Invite_CompanyID i) (Invite_InterviewID i) (forget user (Invite_InvitedBy i))
    (Invite_Email i) (Invite_Role i) (Invite_TokenHash i) (Invite_ExpiresAt i) (Invite_AcceptedAt i) (Invite_CreatedAt i).
Definition forget_decider (user : UUID) (s : Domain.Score) : Domain.Score :=
  Domain.mkScore (Score_ID s) (Domain.Score_CompanyID s) (Domain.Score_InterviewID s) (Score_Dimension s)
    (Score_ProposedValue s) (Score_Rationale s) (Score_Status s) (Score_FinalValue s) (Score_DecisionNote s)
    (forget user (Score_DecidedBy s)) (Score_DecidedAt s) (Score_CreatedAt s) (Score_UpdatedAt s).
Definition forget_assignee (user : UUID) (t : Task) : Task :=
  mkTask (Task_ID t) (Task_CompanyID t) (Task_InterviewID t) (forget user (Task_AssigneeID t)) (Task_Title t)
    (Task_Description t) (Task_Status t) (Task_DueAt t) (Task_CompletedAt t) (Task_CreatedAt t) (Task_UpdatedAt t).
Definition forget_updater (user : UUID) (p : Policy) : Policy :=
  mkPolicy (Policy_Key p) (Policy_Enabled p) (forget user (Policy_UpdatedBy p)) (Policy_UpdatedAt p).

(** [ON DELETE CASCADE] of a member's sessions, and of their scores. *)
Definition user_session (c user : UUID) (k : pk) (r : SessionRow) : Prop :=
  k.1 = c ∧ Session_UserID (row_session r) = Some user.
Definition delete_user_sessions (c user : UUID) (t : Tables) : Tables :=
  let gone (k : pk) := match t_sessions t !! k with
    | Some r => bool_decide (user_session c user k r) | None => false end in
  set_scores (filter (λ kv, gone kv.1 = false))
    (set_sessions (filter (λ kv, ¬ user_session c user kv.1 kv.2)) t).

(** The number of rows a [DELETE] affected is 0 or 1: whether there was one. *)
Definition delete_user (c user : UUID) (d : DB) : result (bool * DB) :=
  if exists_row (users d) (c, user) then
    Ok (true, mkDB
      (set_interviews (update_own c (forget_creator user)) (set_invites (update_own c (forget_inviter user))
        (set_interview_scores (update_own c (forget_decider user)) (delete_user_sessions c user (base d)))))
      (companies d) (delete (c, user) (users d)) (update_own c (forget_assignee user) (tasks d))
      (update_own c (forget_updater user) (policies d)))
  else Ok (false, d).

(** *** Interviews *)
Definition newest_first {A} (created : A → time) (id : A → UUID) (a b : A) : bool :=
  (created b <? created a) || ((created a =? created b) && N.ltb (id a) (id b)).

Definition list_interviews (c : UUID) (f : InterviewFilter) (d : DB) : result (list Interview * DB) :=
  Ok (take (Z.to_nat (InterviewFilter_Limit f))
        (sort_stable (newest_first Interview_CreatedAt Interview_ID)
          (List.filter (λ i, bool_decide (InterviewFilter_Status f = ""%string) ||
                             bool_decide (Interview_Status i = InterviewFilter_Status f))
            (rows_of c (t_interviews (base d))))), d).

Definition get_interview (c interview : UUID) (d : DB) : result (Interview * DB) :=
  match t_interviews (base d) !! (c, interview) with Some i => Ok (i, d) | None => Err ErrNoRows end.

Definition check_interview (i : Interview) : result () :=
  check (negb (bool_decide (Interview_CandidateName i = ""%string)) &&
         negb (bool_decide (Interview_CandidateEmail i = ""%string)) &&
         negb (bool_decide (Interview_Status i = ""%string)) &&
         (bool_decide (Interview_PurgedAt i = None) || bool_decide (is_Some (Interview_TerminalAt i))))
    (check_violation "interviews_check").

Definition put_interview (c interview : UUID) (i : Interview) : DB → DB := set_base (set_interviews <[(c, interview) := i]>).

Definition create_interview (i : Interview) (d : DB) : result (Interview * DB) :=
  let c := Interview_CompanyID i in
  let i := mkInterview (Interview_ID i) c (Interview_CreatedBy i) (Interview_CandidateName i)
    (Interview_CandidateEmail i) (Interview_Status i) (Interview_ScheduledAt i) None None false None 0 now now in
  _ ← check_interview i;
  _ ← check (negb (exists_row (t_interviews (base d)) (c, Interview_ID i))) (unique_violation "interviews_pkey");
  _ ← check (exists_row (companies d) c && reference (users d) c (Interview_CreatedBy i))
        (foreign_key_violation "interviews");
  Ok (i, put_interview c (Interview_ID i) i d).

Definition coalesce {A} (x y : option A) : option A := match x with Some _ => x | None => y end.

Definition update_interview (c interview : UUID) (p : InterviewPatch) (d : DB) : result (Interview * DB) :=
  match t_interviews (base d) !! (c, interview) with
  | Some i =>
      let i := mkInterview (Interview_ID i) (Interview_CompanyID i) (Interview_CreatedBy i)
        (default (Interview_CandidateName i) (InterviewPatch_CandidateName p))
        (default (Interview_CandidateEmail i) (InterviewPatch_CandidateEmail p))
        (default (Interview_Status i) (InterviewPatch_Status p))
        (coalesce (InterviewPatch_ScheduledAt p) (Interview_ScheduledAt i))
        (coalesce (Interview_TerminalAt i) (InterviewPatch_TerminalAt p))
        (Interview_EraseRequestedAt i) (Interview_LegalHold i) (Interview_PurgedAt i)
        (Interview_LastSequenceNumber i) (Interview_CreatedAt i) now in
      _ ← check_interview i;
      Ok (i, put_interview c interview i d)
  | None => Err ErrNoRows
  end.

Definition request_erasure (c interview : UUID) (at_ : time) (d : DB) : result (Interview * DB) :=
  match t_interviews (base d) !! (c, interview) with
  | Some i =>
      let i := mkInterview (Interview_ID i) (Interview_CompanyID i) (Interview_CreatedBy i)
        (Interview_CandidateName i) (Interview_CandidateEmail i) (Interview_Status i) (Interview_ScheduledAt i)
        (Interview_TerminalAt i) (coalesce (Interview_EraseRequestedAt i) (Some at_)) (Interview_LegalHold i)
        (Interview_PurgedAt i) (Interview_LastSequenceNumber i) (Interview_CreatedAt i) now in
      Ok (i, put_interview c interview i d)
  | None => Err ErrNoRows
  end.

(** *** Tasks *)
Definition list_tasks (c : UUID) (f : TaskFilter) (d : DB) : result (list Task * DB) :=
  let matches {A} `{EqDecision A} (want : option A) (has : option A) :=
    match want with Some _ => bool_decide (has = want) | None => true end in
  Ok (take (Z.to_nat (TaskFilter_Limit f))
        (sort_stable (newest_first Task_CreatedAt Task_ID)
          (List.filter (λ t, matches (TaskFilter_InterviewID f) (Task_InterviewID t) &&
                             matches (TaskFilter_AssigneeID f) (Task_AssigneeID t) &&
                             (bool_decide (TaskFilter_Status f = ""%string) ||
                              bool_decide (Task_Status t = TaskFilter_Status f)))
            (rows_of c (tasks d)))), d).

Definition get_task (c task : UUID) (d : DB) : result (Task * DB) :=
  match tasks d !! (c, task) with Some t => Ok (t, d) | None => Err ErrNoRows end.

Definition check_task (t : Task) : result () :=
  check (negb (bool_decide (Task_Title t = ""%string)) && negb (bool_decide (Task_Status t = ""%string)))
    (check_violation "tasks_check").
Definition task_references (c : UUID) (t : Task) (d : DB) : result () :=
  check (reference (t_interviews (base d)) c (Task_InterviewID t) && reference (users d) c (Task_AssigneeID t))
    (foreign_key_violation "tasks").

Definition create_task (t : Task) (d : DB) : result (Task * DB) :=
  let c := Task_CompanyID t in
  let t := mkTask (Task_ID t) c (Task_InterviewID t) (Task_AssigneeID t) (Task_Title t) (Task_Description t)
    (Task_Status t) (Task_DueAt t) None now now in
  _ ← check_task t;
  _ ← check (negb (exists_row (tasks d) (c, Task_ID t))) (unique_violation "tasks_pkey");
  _ ← check (exists_row (companies d) c) (foreign_key_violation "tasks_company_id_fkey");
  _ ← task_references c t d;
  Ok (t, set_tasks <[(c, Task_ID t) := t]> d).

(** [assignee]: whether to set it, and to what. *)
Definition update_task (c task : UUID) (p : TaskPatch) (set_assignee : bool) (assignee : option UUID) (d : DB)
    : result (Task * DB) :=
  match tasks d !! (c, task) with
  | Some t =>
      let t := mkTask (Task_ID t) (Task_CompanyID t) (Task_InterviewID t)
        (if set_assignee then assignee else Task_AssigneeID t)
        (default (Task_Title t) (TaskPatch_Title p)) (default (Task_Description t) (TaskPatch_Description p))
        (default (Task_Status t) (TaskPatch_Status p)) (coalesce (TaskPatch_DueAt p) (Task_DueAt t))
        (coalesce (TaskPatch_CompletedAt p) (Task_CompletedAt t)) (Task_CreatedAt t) now in
      _ ← check_task t;
      _ ← task_references c t d;
      Ok (t, set_tasks <[(c, task) := t]> d)
  | None => Err ErrNoRows
  end.

Definition delete_task (c task : UUID) (d : DB) : result (bool * DB) :=
  if exists_row (tasks d) (c, task) then Ok (true, set_tasks (delete (c, task)) d) else Ok (false, d).

(** *** Invites: token hashes are unique across companies *)
Definition hash_taken (hash : string) (d : DB) : bool :=
  existsb (λ kv, bool_decide (Invite_TokenHash kv.2 = hash)) (map_to_list (t_invites (base d))).

Definition create_invite (i : Invite) (d : DB) : result (time * DB) :=
  let c := Invite_CompanyID i in
  let i := mkInvite (Invite_ID i) c (Invite_InterviewID i) (Invite_InvitedBy i) (Invite_Email i) (Invite_Role i)
    (Invite_TokenHash i) (Invite_ExpiresAt i) None now in
  _ ← check (negb (bool_decide (Invite_Email i = ""%string)) && negb (bool_decide (Invite_Role i = ""%string)) &&
             negb (bool_decide (Invite_TokenHash i = ""%string))) (check_violation "invites_check");
  _ ← check (negb (exists_row (t_invites (base d)) (c, Invite_ID i)) && negb (hash_taken (Invite_TokenHash i) d))
        (unique_violation "invites_token_hash_idx");
  _ ← check (exists_row (companies d) c && reference (users d) c (Invite_InvitedBy i) &&
             reference (t_interviews (base d)) c (Invite_InterviewID i)) (foreign_key_violation "invites");
  Ok (now, set_base (set_invites <[(c, Invite_ID i) := i]>) d).

(** *** Scores *)
Definition list_scores (c interview : UUID) (d : DB) : result (list Domain.Score * DB) :=
  Ok (sort_stable (λ a b, text_less (Score_Dimension a) (Score_Dimension b))
        (List.filter (λ s, bool_decide (Domain.Score_InterviewID s = interview))
          (rows_of c (t_interview_scores (base d)))), d).

Definition final_value (s : Domain.Score) (p : ScoreDecision) : option float64 :=
  if bool_decide (Decision_Status p = ScoreStatusHumanApproved) then Some (Score_ProposedValue s)
  else if bool_decide (Decision_Status p = ScoreStatusHumanAdjusted) then Decision_FinalValue p
  else None.

Definition decide_score (c interview score : UUID) (p : ScoreDecision) (d : DB) : result (Domain.Score * DB) :=
  match t_interview_scores (base d) !! (c, score) with
  | Some s =>
      if bool_decide (Domain.Score_InterviewID s = interview) && has_prefix "human_" (Decision_Status p) then
        let s := Domain.mkScore (Score_ID s) (Domain.Score_CompanyID s) (Domain.Score_InterviewID s) (Score_Dimension s)
          (Score_ProposedValue s) (Score_Rationale s) (Decision_Status p) (final_value s p) (Decision_Note p)
          (Some (DecidedBy p)) (Some (DecidedAt p)) (Score_CreatedAt s) now in
        _ ← check (bool_decide (Score_Status s ∈ [ScoreStatusProposed; ScoreStatusHumanApproved;
                     ScoreStatusHumanRejected; ScoreStatusHumanAdjusted])) (check_violation "interview_scores_status_check");
        _ ← check (exists_row (users d) (c, DecidedBy p)) (foreign_key_violation "interview_scores_decided_by_fkey");
        Ok (s, set_base (set_interview_scores <[(c, score) := s]>) d)
      else Err ErrNoRows
  | None => Err ErrNoRows
  end.

(** *** Policies *)
Definition list_policies (c : UUID) (d : DB) : result (list Policy * DB) :=
  Ok (sort_stable (λ a b, text_less (Policy_Key a) (Policy_Key b)) (rows_of c (policies d)), d).

Definition set_policy (c : UUID) (key : string) (enabled : bool) (by_ : UUID) (d : DB) : result (Policy * DB) :=
  let p := mkPolicy key enabled (Some by_) (Some now) in
  _ ← check (negb (bool_decide (key = ""%string))) (check_violation "company_policies_key_check");
  _ ← check (exists_row (companies d) c && exists_row (users d) (c, by_)) (foreign_key_violation "company_policies");
  Ok (p, set_policies <[(c, key) := p]> d).

Definition interview_policy (c interview : UUID) (key : string) (d : DB) : result (bool * DB) :=
  match t_interviews (base d) !! (c, interview) with
  | Some i =>
      if bool_decide (Interview_PurgedAt i = None)
      then Ok (default true (Policy_Enabled <$> policies d !! (c, key)), d)
      else Err ErrNoRows
  | None => Err ErrNoRows
  end.
End Statements.

(** ** The methods of [AdminStore] *)

(** [adminError]: what a Postgres error means to the Admin API. *)
Definition adminError (kind : string) (e : error) : error :=
  if errors_is e ErrNoRows then Wrap kind ErrNotFound
  else
    match errors_as "pgconn.PgError" e with
    | Some "23505"%string => Wrap kind ErrConflict
    | Some "23503"%string => Wrap kind ErrInvalidReference
    | Some "23514"%string => Wrap kind ErrInvalid
    | _ => Wrap kind e
    end.

(** Mapping the error of an operation. *)
Definition map_error {S A} (f : error → error) (m : M S A) : M S A := λ fs s,
  let '(r, fs, s) := m fs s in (match r with Ok a => Ok a | Err e => Err (f e) end, fs, s).

Definition one {A} (kind : string) (f : DB → result (A * DB)) : M DB A := map_error (adminError kind) (stmt f).
Definition collectRows {A} (f : DB → result (list A * DB)) : M DB (list A) := map_error (adminError "query") (stmt f).
(** [exec]: a delete that affected no row found nothing. *)
Definition exec_delete (f : DB → result (bool * DB)) : M DB () :=
  affected ← map_error (adminError "delete") (stmt f);
  if (affected : bool) then mret () else throw ErrNotFound.

Definition ValidateScoreDecision (status : string) (final : option float64) : result () :=
  if bool_decide (status = ScoreStatusHumanApproved) || bool_decide (status = ScoreStatusHumanRejected) then
    match final with
    | Some _ => Err (Wrap "final_value is only accepted with human_adjusted" ErrInvalid)
    | None => Ok ()
    end
  else if bool_decide (status = ScoreStatusHumanAdjusted) then
    match final with
    | None => Err (Wrap "human_adjusted requires final_value" ErrInvalid)
    | Some _ => Ok ()
    end
  else Err (Wrap "status must be one of human_approved, human_rejected, human_adjusted" ErrInvalid).

Definition ErrMonitoringNotFound : error := Sentinel "livemonitor.ErrInterviewNotFound".
Definition ErrMonitoringDisabled : error := Sentinel "livemonitor.ErrMonitoringDisabled".
Definition ErrReplayDisabled : error := Sentinel "dashboard.ErrReplayDisabled".

Module AdminStore.
Section Methods.
Context (text_less : string → string → bool) (now : time).

Definition UserRole (c user : UUID) : M DB Role :=
  on_error ErrNoRows ErrUserNotFound "read user role" (stmt (user_role c user)).
Definition GetCompany (c : UUID) : M DB Company := one "company" (get_company c).
Definition UpdateCompany (c : UUID) (patch : CompanyPatch) : M DB Company := one "company" (update_company now c patch).
Definition ListUsers (c : UUID) : M DB (list User) := collectRows (list_users text_less c).
Definition GetUser (c user : UUID) : M DB User := one "user" (get_user c user).
Definition CreateUser (u : User) : M DB User := one "user" (create_user now u).
Definition UpdateUser (c user : UUID) (patch : UserPatch) : M DB User := one "user" (update_user now c user patch).
Definition DeleteUser (c user : UUID) : M DB () := exec_delete (delete_user c user).
Definition ListInterviews (c : UUID) (filter : InterviewFilter) : M DB (list Interview) := collectRows (list_interviews c filter).
Definition GetInterview (c interview : UUID) : M DB Interview := one "interview" (get_interview c interview).
Definition CreateInterview (i : Interview) : M DB Interview := one "interview" (create_interview now i).
Definition UpdateInterview (c interview : UUID) (p : InterviewPatch) : M DB Interview :=
  one "interview" (update_interview now c interview p).
Definition RequestErasure (c interview : UUID) (at_ : time) : M DB Interview :=
  one "interview" (request_erasure now c interview at_).
Definition ListTasks (c : UUID) (f : TaskFilter) : M DB (list Task) := collectRows (list_tasks c f).
Definition GetTask (c task : UUID) : M DB Task := one "task" (get_task c task).
Definition CreateTask (t : Task) : M DB Task := one "task" (create_task now t).
Definition UpdateTask (c task : UUID) (p : TaskPatch) : M DB Task :=
  let assignee := match TaskPatch_AssigneeID p with
    | Some id => if bool_decide (id = uuid_Nil) then None else Some id | None => None end in
  one "task" (update_task now c task p (bool_decide (is_Some (TaskPatch_AssigneeID p))) assignee).
Definition DeleteTask (c task : UUID) : M DB () := exec_delete (delete_task c task).

Definition CreateInvite (i : Invite) : M DB Invite :=
  created ← one "invite" (create_invite now i);
  mret (mkInvite (Invite_ID i) (Invite_CompanyID i) (Invite_InterviewID i) (Invite_InvitedBy i) (Invite_Email i)
    (Invite_Role i) (Invite_TokenHash i) (Invite_ExpiresAt i) (Invite_AcceptedAt i) created).

Definition ListScores (c interview : UUID) : M DB (list Domain.Score) := collectRows (list_scores text_less c interview).
Definition DecideScore (c interview score : UUID) (d : ScoreDecision) : M DB Domain.Score :=
  lift (ValidateScoreDecision (Decision_Status d) (Decision_FinalValue d));;
  one "score" (decide_score now c interview score d).
Definition ListPolicies (c : UUID) : M DB (list Policy) := collectRows (list_policies text_less c).
Definition SetPolicy (c : UUID) (key : string) (enabled : bool) (by_ : UUID) : M DB Policy :=
  one "policy" (set_policy now c key enabled by_).

Definition interviewPolicy (c interview : UUID) (key : string) : M DB bool :=
  on_error ErrNoRows ErrNotFound ("check " +:+ key +:+ " policy") (stmt (interview_policy c interview key)).

Definition LiveMonitoring (c interview : UUID) : M DB () :=
  enabled ← replace_error ErrNotFound ErrMonitoringNotFound (interviewPolicy c interview "live_monitoring");
  if (enabled : bool) then mret () else throw ErrMonitoringDisabled.
Definition ReplayAccess (c interview : UUID) : M DB () :=
  enabled ← interviewPolicy c interview "replay";
  if (enabled : bool) then mret () else throw ErrReplayDisabled.
End Methods.
End AdminStore.
Create HintDb admin.
#[export] Hint Unfold AdminStore.GetCompany AdminStore.UpdateCompany AdminStore.ListUsers AdminStore.GetUser
  AdminStore.CreateUser AdminStore.UpdateUser AdminStore.DeleteUser AdminStore.ListInterviews AdminStore.GetInterview
  AdminStore.CreateInterview AdminStore.UpdateInterview AdminStore.RequestErasure AdminStore.ListTasks AdminStore.GetTask
  AdminStore.CreateTask AdminStore.UpdateTask AdminStore.DeleteTask AdminStore.ListScores
  AdminStore.DecideScore AdminStore.ListPolicies AdminStore.SetPolicy : admin.

(** ** One company's part of the database *)

Definition restrict_tables (c : UUID) (t : Tables) : Tables :=
  mkTables (filter (λ kv, kv.1 = c) (t_companies t)) (own c (t_interviews t)) (own c (t_sessions t))
    (own c (t_invites t)) (own c (t_scores t)) (own c (t_interview_scores t)) (own c (t_purge_log t))
    (List.filter (λ m, bool_decide (Message_CompanyID m = c)) (t_outbox t)) 0.
Definition restrict (c : UUID) (d : DB) : DB :=
  mkDB (restrict_tables c (base d)) (filter (λ kv, kv.1 = c) (companies d)) (own c (users d)) (own c (tasks d))
    (own c (policies d)).

Section OwnRows.
Context {K A : Type} `{Countable K}.
Implicit Types (m : gmap (UUID * K) A) (c : UUID).

Lemma own_own c m : own c (own c m) = own c m.
Proof. apply map_eq. intros k. unfold own. rewrite !map_lookup_filter. destruct (m !! k); cbn; [|done]. repeat case_guard; naive_solver. Qed.
Lemma own_lookup c k m : own c m !! (c, k) = m !! (c, k).
Proof. unfold own. rewrite map_lookup_filter. destruct (m !! _); cbn; [|done]. case_guard; naive_solver. Qed.
Lemma rows_of_own c m : rows_of c (own c m) = rows_of c m.
Proof. unfold rows_of. by rewrite own_own. Qed.
Lemma own_insert c k x m : own c (<[(c, k) := x]> m) = <[(c, k) := x]> (own c m).
Proof. apply map_filter_insert_True. done. Qed.
Lemma own_insert_other c c' k x m : c' ≠ c → own c' (<[(c, k) := x]> m) = own c' m.
Proof.
  intros Hc. apply map_eq. intros j. unfold own. rewrite !map_lookup_filter.
  destruct (decide (j = (c, k))) as [->|]; [|by rewrite lookup_insert_ne].
  rewrite lookup_insert_eq. destruct (m !! _); cbn; repeat case_guard; naive_solver.
Qed.
Lemma own_delete c k m : own c (delete (c, k) m) = delete (c, k) (own c m).
Proof. apply map_filter_delete. Qed.
Lemma own_delete_other c c' k m : c' ≠ c → own c' (delete (c, k) m) = own c' m.
Proof.
  intros Hc. apply map_eq. intros j. unfold own. rewrite !map_lookup_filter.
  destruct (decide (j = (c, k))) as [->|]; [|by rewrite lookup_delete_ne].
  rewrite lookup_delete_eq. destruct (m !! _); cbn; repeat case_guard; naive_solver.
Qed.
Lemma own_update c f m : own c (update_own c f m) = update_own c f (own c m).
Proof.
  apply map_eq. intros k. unfold own, update_own. rewrite map_lookup_filter, !map_lookup_imap, map_lookup_filter.
  destruct (m !! k); cbn; [|done]. repeat (case_guard; cbn); naive_solver.
Qed.
Lemma own_update_other c c' f m : c' ≠ c → own c' (update_own c f m) = own c' m.
Proof.
  intros Hc. apply map_eq. intros k. unfold own, update_own. rewrite !map_lookup_filter, map_lookup_imap.
  destruct (m !! k); cbn; [|done]. repeat (case_guard; cbn); repeat case_decide; naive_solver.
Qed.
Lemma exists_row_own c k m : exists_row (own c m) (c, k) = exists_row m (c, k).
Proof. unfold exists_row. by rewrite own_lookup. Qed.
Lemma reference_own c k m : reference (own c m) c k = reference m c k.
Proof. destruct k; [apply exists_row_own|done]. Qed.
End OwnRows.
#[export] Hint Rewrite @own_lookup @rows_of_own @exists_row_own @reference_own @own_insert @own_delete @own_update : own.
#[export] Hint Rewrite @own_insert_other @own_delete_other @own_update_other using done : own_other.

Lemma company_lookup {A} (c : UUID) (m : gmap UUID A) : filter (λ kv, kv.1 = c) m !! c = m !! c.
Proof. rewrite map_lookup_filter. destruct (m !! c); cbn; [|done]. case_guard; naive_solver. Qed.
Lemma company_exists {A} (c : UUID) (m : gmap UUID A) : exists_row (filter (λ kv, kv.1 = c) m) c = exists_row m c.
Proof. unfold exists_row. by rewrite company_lookup. Qed.
Lemma company_insert {A} (c : UUID) x (m : gmap UUID A) :
  filter (λ kv, kv.1 = c) (<[c := x]> m) = <[c := x]> (filter (λ kv, kv.1 = c) m).
Proof. apply map_filter_insert_True. done. Qed.
Lemma company_insert_other {A} (c c' : UUID) x (m : gmap UUID A) : c' ≠ c →
  filter (λ kv, kv.1 = c') (<[c := x]> m) = filter (λ kv, kv.1 = c') m.
Proof.
  intros Hc. apply map_eq. intros j. rewrite !map_lookup_filter.
  destruct (decide (j = c)) as [->|]; [|by rewrite lookup_insert_ne].
  rewrite lookup_insert_eq. destruct (m !! _); cbn; repeat case_guard; naive_solver.
Qed.
#[export] Hint Rewrite @company_lookup @company_exists @company_insert : own.
#[export] Hint Rewrite @company_insert_other using done : own_other.

(** A statement of company [c] reads and writes [c]'s part only: on the
    restricted database it gives the same answer and the restriction of the
    same change, and it leaves the rest as it was. *)
Definition sees_own {A} (c : UUID) (f : DB → result (A * DB)) (d : DB) : Prop :=
  f (restrict c d) = ('(a, d') ← f d; Ok (a, restrict c d')).
Definition keeps_others {A} (c : UUID) (f : DB → result (A * DB)) : Prop := ∀ d a d' c',
  f d = Ok (a, d') → c' ≠ c → restrict c' d' = restrict c' d.
Definition scoped {A} (c : UUID) (f : DB → result (A * DB)) : Prop := (∀ d, sees_own c f d) ∧ keeps_others c f.

Ltac unfold_setters := unfold restrict, restrict_tables, set_base, set_companies, set_users, set_tasks, set_policies,
  put_interview, set_interviews, set_invites, set_interview_scores, check_interview, check_task, task_references, check, guard_err.
Ltac scoped_tac :=
  split;
  [ intros d; unfold sees_own; unfold_setters; cbn -[own rows_of filter]; autorewrite with own;
    repeat (case_match; cbn -[own rows_of filter]; autorewrite with own); try done
  | intros d a d' c' E Hc; repeat (case_match; try discriminate E); inv_bind; simplify_eq/=;
    unfold_setters; cbn -[own filter]; autorewrite with own_other; try done ].

Section Scoped.
Context (text_less : string → string → bool) (now : time) (c : UUID).

Lemma get_company_scoped : scoped c (get_company c).
Proof. unfold get_company. scoped_tac. Qed.
Lemma update_company_scoped p : scoped c (update_company now c p).
Proof. unfold update_company. scoped_tac. Qed.
Lemma list_users_scoped : scoped c (list_users text_less c).
Proof. unfold list_users. scoped_tac. Qed.
Lemma get_user_scoped user : scoped c (get_user c user).
Proof. unfold get_user. scoped_tac. Qed.
Lemma create_user_scoped u : User_CompanyID u = c → scoped c (create_user now u).
Proof. intros <-. unfold create_user. scoped_tac. Qed.
Lemma update_user_scoped user p : scoped c (update_user now c user p).
Proof. unfold update_user. scoped_tac. Qed.
Lemma list_interviews_scoped f : scoped c (list_interviews c f).
Proof. unfold list_interviews. scoped_tac. Qed.
Lemma get_interview_scoped i : scoped c (get_interview c i).
Proof. unfold get_interview. scoped_tac. Qed.
Lemma create_interview_scoped i : Interview_CompanyID i = c → scoped c (create_interview now i).
Proof. intros <-. unfold create_interview, put_interview. scoped_tac. Qed.
Lemma update_interview_scoped i p : scoped c (update_interview now c i p).
Proof. unfold update_interview. scoped_tac. Qed.
Lemma request_erasure_scoped i at_ : scoped c (request_erasure now c i at_).
Proof. unfold request_erasure. scoped_tac. Qed.
Lemma list_tasks_scoped f : scoped c (list_tasks c f).
Proof. unfold list_tasks. scoped_tac. Qed.
Lemma get_task_scoped i : scoped c (get_task c i).
Proof. unfold get_task. scoped_tac. Qed.
Lemma create_task_scoped t : Task_CompanyID t = c → scoped c (create_task now t).
Proof. intros <-. unfold create_task, task_references. scoped_tac. Qed.
Lemma update_task_scoped t p b who : scoped c (update_task now c t p b who).
Proof. unfold update_task, task_references. scoped_tac. Qed.
Lemma delete_task_scoped t : scoped c (delete_task c t).
Proof. unfold delete_task. scoped_tac. Qed.
Lemma list_scores_scoped i : scoped c (list_scores text_less c i).
Proof. unfold list_scores. scoped_tac. Qed.
Lemma decide_score_scoped i s p : scoped c (decide_score now c i s p).
Proof. unfold decide_score. scoped_tac. Qed.
Lemma list_policies_scoped : scoped c (list_policies text_less c).
Proof. unfold list_policies. scoped_tac. Qed.
Lemma set_policy_scoped k b u : scoped c (set_policy now c k b u).
Proof. unfold set_policy. scoped_tac. Qed.
End Scoped.

(** A member's sessions and their scores are of the member's company. *)
Lemma own_sessions_gone c user t :
  own c (t_sessions (delete_user_sessions c user t)) =
    filter (λ kv, ¬ user_session c user kv.1 kv.2) (own c (t_sessions t)).
Proof. apply map_filter_comm. Qed.
Lemma delete_user_sessions_other c c' user t : c' ≠ c →
  own c' (t_sessions (delete_user_sessions c user t)) = own c' (t_sessions t) ∧
  own c' (t_scores (delete_user_sessions c user t)) = own c' (t_scores t).
Proof.
  intros Hc. unfold own, delete_user_sessions, user_session. cbn.
  split; apply map_eq; intros k; rewrite !map_lookup_filter.
  - destruct (t_sessions t !! k); cbn; repeat (case_guard; cbn); naive_solver.
  - destruct (t_scores t !! k); cbn; [|done]. destruct (t_sessions t !! k); cbn;
      repeat (case_guard; cbn); try done; repeat (case_bool_decide; cbn in * ); naive_solver.
Qed.
Lemma delete_user_sessions_own c user t :
  delete_user_sessions c user (restrict_tables c t) = restrict_tables c (delete_user_sessions c user t).
Proof.
  unfold delete_user_sessions, restrict_tables, set_scores, set_sessions. cbn -[own]. f_equal.
  - apply map_filter_comm.
  - unfold own. rewrite !map_filter_filter. apply map_filter_ext. intros [c1 k] x _. cbn.
    change (filter _ (t_sessions t)) with (own c (t_sessions t)).
    destruct (decide (c1 = c)) as [->|Hc]; [|naive_solver]. rewrite own_lookup. naive_solver.
Qed.

Lemma delete_user_scoped c user : scoped c (delete_user c user).
Proof.
  split.
  - intros d. unfold sees_own, delete_user. cbn -[own]. rewrite exists_row_own. case_match; [|done].
    cbn -[own delete_user_sessions]. do 2 f_equal. unfold restrict. cbn -[own delete_user_sessions restrict_tables].
    rewrite delete_user_sessions_own. unfold restrict_tables, set_interviews, set_invites, set_interview_scores.
    cbn -[own delete_user_sessions]. by autorewrite with own.
  - intros d a d' c' E Hc. unfold delete_user in E. case_match; simplify_eq; [|done].
    destruct (delete_user_sessions_other c c' user (base d) Hc) as [Hs Hp].
    unfold restrict, restrict_tables, set_interviews, set_invites, set_interview_scores. cbn -[own delete_user_sessions].
    rewrite Hs, Hp. by autorewrite with own_other.
Qed.

(** Token hashes are unique across companies: an invite sees its own company
    only while no other company holds the hash. *)
Definition foreign_hash (c : UUID) (hash : string) (d : DB) : bool :=
  existsb (λ kv, bool_decide (Invite_TokenHash kv.2 = hash) && negb (bool_decide (kv.1.1 = c)))
    (map_to_list (t_invites (base d))).

Lemma existsb_rows {K A} `{Countable K} (p : K * A → bool) (m : gmap K A) :
  existsb p (map_to_list m) = true ↔ ∃ k x, m !! k = Some x ∧ p (k, x) = true.
Proof.
  rewrite existsb_exists. setoid_rewrite <-list_elem_of_In. split.
  - intros ([k x] & E%elem_of_map_to_list & Hp). eauto.
  - intros (k & x & E & Hp). exists (k, x). by rewrite elem_of_map_to_list.
Qed.
Lemma hash_taken_own c hash d : foreign_hash c hash d = false → hash_taken hash (restrict c d) = hash_taken hash d.
Proof.
  intros Hf. apply eq_bool_prop_intro. rewrite !Is_true_true. unfold hash_taken. rewrite !existsb_rows.
  split; intros (k & i & E & Hi); exists k, i; (split; [|done]).
  - cbn -[own] in E. unfold own in E. by apply map_lookup_filter_Some in E as [E _].
  - cbn -[own]. unfold own. apply map_lookup_filter_Some. split; [done|]. destruct (decide (k.1 = c)) as [|Hk]; [done|].
    apply not_true_iff_false in Hf. destruct Hf. apply existsb_rows. exists k, i. split; [done|]. cbn in *.
    rewrite Hi. by rewrite bool_decide_false.
Qed.
Lemma create_invite_scoped now c i : Invite_CompanyID i = c →
  (∀ d, foreign_hash c (Invite_TokenHash i) d = false → sees_own c (create_invite now i) d) ∧
  keeps_others c (create_invite now i).
Proof.
  intros <-. split.
  - intros d Hf. unfold sees_own, create_invite. cbn -[own restrict]. rewrite (hash_taken_own _ _ _ Hf). revert Hf.
    unfold_setters. cbn -[own filter]. autorewrite with own. intros _.
    repeat (case_match; cbn -[own filter]; autorewrite with own); done.
  - intros d a d' c' E Hc. unfold create_invite in E. inv_bind. simplify_eq/=.
    unfold_setters; cbn -[own filter]; by autorewrite with own_other.
Qed.

(** ** Isolation of whole operations

    An operation of company [c] whose run depends on [c]'s part only and which
    changes nothing else, from the states of [P]: a condition on the other
    companies' parts. *)
Definition others_same (c : UUID) (d d' : DB) : Prop := ∀ c', c' ≠ c → restrict c' d' = restrict c' d.
Definition isolated {R} (P : DB → Prop) (c : UUID) (m : script → DB → R * script * DB) : Prop := ∀ fs d r fs' d',
  P d → m fs d = (r, fs', d') →
  m fs (restrict c d) = (r, fs', restrict c d') ∧ others_same c d d'.
Definition about_others (c : UUID) (P : DB → Prop) : Prop := ∀ d d', others_same c d d' → P d → P d'.

Lemma others_same_refl c d : others_same c d d.
Proof. done. Qed.
Lemma others_same_trans c d1 d2 d3 : others_same c d1 d2 → others_same c d2 d3 → others_same c d1 d3.
Proof. intros H1 H2 c' Hc. by rewrite H2, H1. Qed.
Lemma about_true c : about_others c (λ _, True).
Proof. done. Qed.
Lemma about_hash c hash : about_others c (λ d, foreign_hash c hash d = false).
Proof.
  intros d d' Hs Hd. apply not_true_iff_false. intros Ht. apply not_true_iff_false in Hd. destruct Hd.
  unfold foreign_hash in *. apply existsb_rows in Ht as ([c' k] & i & E & Hi). apply existsb_rows.
  pose proof Hi as [_ Hc%negb_true_iff%bool_decide_eq_false]%andb_true_iff.
  exists (c', k), i. split; [|done]. specialize (Hs c' Hc). apply (f_equal (λ d, t_invites (base d) !! (c', k))) in Hs.
  cbn -[own] in Hs. by rewrite !own_lookup, E in Hs.
Qed.

Section Isolated.
Context (P : DB → Prop) (c : UUID) (P_about : about_others c P).

Lemma isolated_ret {A} (a : A) : isolated P c (mret a : M DB A).
Proof. intros fs d r fs' d' _ [= <- <- <-]. split; [done|apply others_same_refl]. Qed.
Lemma isolated_throw {A} e : isolated P c (throw e : M DB A).
Proof. intros fs d r fs' d' _ [= <- <- <-]. split; [done|apply others_same_refl]. Qed.
Lemma isolated_lift {A} (x : result A) : isolated P c (lift x : M DB A).
Proof. intros fs d r fs' d' _ [= <- <- <-]. split; [done|apply others_same_refl]. Qed.
Lemma isolated_bind {A B} (m : M DB A) (f : A → M DB B) :
  isolated P c m → (∀ a, isolated P c (f a)) → isolated P c (m ≫= f).
Proof.
  intros Hm Hf fs d r fs' d' Hd H. unfold mbind, M_bind in *. destruct (m fs d) as [[[a|e] fs1] d1] eqn:E.
  - destruct (Hm _ _ _ _ _ Hd E) as [-> Hs1]. destruct (Hf a _ _ _ _ _ (P_about _ _ Hs1 Hd) H) as [-> Hs2].
    split; [done|by eapply others_same_trans].
  - simplify_eq. by destruct (Hm _ _ _ _ _ Hd E) as [-> Hs1].
Qed.
Lemma isolated_map_error {A} f (m : M DB A) : isolated P c m → isolated P c (map_error f m).
Proof.
  intros Hm fs d r fs' d' Hd H. unfold map_error in *. destruct (m fs d) as [[r1 fs1] d1] eqn:E.
  destruct (Hm _ _ _ _ _ Hd E) as [-> Hs1]. by simplify_eq.
Qed.
Lemma isolated_replace_error {A} e e' (m : M DB A) : isolated P c m → isolated P c (replace_error e e' m).
Proof.
  intros Hm fs d r fs' d' Hd H. unfold replace_error in *. destruct (m fs d) as [[r1 fs1] d1] eqn:E.
  destruct (Hm _ _ _ _ _ Hd E) as [-> Hs1]. by simplify_eq.
Qed.
Lemma isolated_on_error {A} e e' msg (m : M DB A) : isolated P c m → isolated P c (on_error e e' msg m).
Proof.
  intros Hm fs d r fs' d' Hd H. unfold on_error in *. destruct (m fs d) as [[r1 fs1] d1] eqn:E.
  destruct (Hm _ _ _ _ _ Hd E) as [-> Hs1]. by simplify_eq.
Qed.
Lemma isolated_stmt {A} (f : DB → result (A * DB)) :
  (∀ d, P d → sees_own c f d) → keeps_others c f → isolated P c (stmt f).
Proof.
  intros Hf Hk fs d r fs' d' Hd H. pose proof (Hf d Hd) as Hr. unfold sees_own in Hr. unfold stmt in *.
  assert (∀ a d', f d = Ok (a, d') → others_same c d d') as Hs by (intros ?? E ? ?; by eapply Hk).
  destruct fs as [|[] fs]; destruct (f d) as [[a1 d1]|] eqn:E; cbn in Hr; rewrite ?Hr; simplify_eq;
    split; try done; by eapply Hs.
Qed.
Lemma isolated_one {A} kind (f : DB → result (A * DB)) : scoped c f → isolated P c (one kind f).
Proof. intros [? ?]. by apply isolated_map_error, isolated_stmt. Qed.
Lemma isolated_collect {A} (f : DB → result (list A * DB)) : scoped c f → isolated P c (collectRows f).
Proof. intros [? ?]. by apply isolated_map_error, isolated_stmt. Qed.
Lemma isolated_exec (f : DB → result (bool * DB)) : scoped c f → isolated P c (exec_delete f).
Proof.
  intros [? ?]. apply isolated_bind; [by apply isolated_map_error, isolated_stmt|].
  intros []; [apply isolated_ret|apply isolated_throw].
Qed.
End Isolated.
#[export] Hint Resolve isolated_ret isolated_throw isolated_lift isolated_bind isolated_one isolated_collect isolated_exec
  about_true about_hash : isolated.
#[export] Hint Resolve get_company_scoped update_company_scoped list_users_scoped get_user_scoped create_user_scoped
  update_user_scoped delete_user_scoped list_interviews_scoped get_interview_scoped create_interview_scoped
  update_interview_scoped request_erasure_scoped list_tasks_scoped get_task_scoped create_task_scoped
  update_task_scoped delete_task_scoped list_scores_scoped decide_score_scoped list_policies_scoped set_policy_scoped : isolated.

Lemma CreateInvite_isolated now c i : Invite_CompanyID i = c →
  isolated (λ d, foreign_hash c (Invite_TokenHash i) d = false) c (AdminStore.CreateInvite now i).
Proof.
  intros Hc. destruct (create_invite_scoped now c i Hc) as [H1 H2]. apply isolated_bind; [apply about_hash| |].
  - by apply isolated_map_error, isolated_stmt.
  - intros a. apply isolated_ret.
Qed.
Lemma isolated_weaken {R} (P Q : DB → Prop) c (m : script → DB → R * script * DB) :
  (∀ d, P d → Q d) → isolated Q c m → isolated P c m.
Proof. intros HPQ Hm fs d r fs' d' Hd. by apply Hm, HPQ. Qed.
