(* ===== verification/AdminApi.v ===== *)
(** * The Admin API (internal/adminapi: model.go, http.go)

    Request validation, the 22 handlers over [AdminStore], the route table
    with its permissions, and what one request can do to the database.

    A handler is a sequence of steps each of which may answer the request and
    return ([H]); its store calls take the fault script.  The [net/http] mux is
    the standard library's: a request arrives with the route its pattern
    matched and the path values.  Response bodies are the view structs, before
    encoding/json renders them. *)
From S2P Require Import Workspace.
From S2P Require Import Prelude Str GoTime Sha256 Json JsonText Rfc3339 Codec Tx Domain Rbac Store Sandbox AdminStore.

(** ** Validation (model.go) *)
Definition maxNameLength : Z := 200.
Definition maxTextLength : Z := 10000.
Definition defaultLimit : Z := 50.
Definition maxLimit : Z := 200.
Definition candidateRole : string := "candidate".
Definition maxInviteTTL : duration := 30 * 24 * hour.
Definition defaultInvite : duration := 7 * 24 * hour.
Definition inviteTokenLen : Z := 32.

Definition invalid {A} (msg : string) : result A := Err (Wrap msg ErrInvalid).

Definition policyDefaults : gmap string bool :=
  list_to_map [("ai_assistance", true); ("code_execution", true); ("live_monitoring", true); ("replay", true);
               ("ai_scoring", true)]%string.
Definition PolicyKeys : list string := ["ai_assistance"; "ai_scoring"; "code_execution"; "live_monitoring"; "replay"]%string.
(** The default and whether the key is known. *)
Definition PolicyDefault (key : string) : bool * bool :=
  match policyDefaults !! key with Some enabled => (enabled, true) | None => (false, false) end.

(** Of several stored policies with a key the last wins. *)
Definition by_key (stored : list Policy) : gmap string Policy :=
  foldl (λ m p, <[Policy_Key p := p]> m) ∅ stored.
Definition MergePolicies (stored : list Policy) : list Policy :=
  map (λ key, match by_key stored !! key with
              | Some p => p
              | None => mkPolicy key (default false (policyDefaults !! key)) None None
              end) PolicyKeys.

Definition validName (field value : string) : result string :=
  let value := TrimSpace value in
  if bool_decide (value = ""%string) then invalid (field +:+ " is required")
  else if maxNameLength <? len value then invalid (field +:+ " must be at most 200 bytes")
  else Ok value.
Definition validText (field value : string) : result string :=
  if maxTextLength <? len value then invalid (field +:+ " must be at most 10000 bytes") else Ok value.

(** [mail.ParseAddress(v)] with [Address == v]: [v] is an unquoted dot-atom, an
    [@], and a dot-atom or an IP address in brackets - every other form it
    accepts (display name, angle brackets, comment, group, quoted local part,
    blanks) has an [Address] that is not the text itself. *)
Definition is_atext (a : ascii) : bool :=
  let b := byte_of a in
  (128 <=? b) ||
  ((33 <=? b) && (b <=? 126) &&
   negb (bool_decide (a ∈ ["("; ")"; "<"; ">"; "["; "]"; ":"; ";"; "@"; "\"; ","; "034"; "."]%char))).
Fixpoint all_chars (p : ascii → bool) (s : string) : bool :=
  match s with EmptyString => true | String a s => p a && all_chars p s end.
Definition dot_atom (s : string) : bool :=
  forallb (λ part, negb (bool_decide (part = ""%string)) && all_chars is_atext part) (split "."%char s).
Definition is_dtext (a : ascii) : bool :=
  let b := byte_of a in
  (128 <=? b) || ((33 <=? b) && (b <=? 126) && negb (bool_decide (a ∈ ["["; "]"; "\"]%char))).

Section Validation.
(** [net.ParseIP] accepts, and [strings.ToLower] (Unicode). *)
Context (ParseIP : string → bool) (ToLower : string → string).

Definition domain_literal (s : string) : bool :=
  match s with
  | String "["%char s =>
      match cut "]"%char s with
      | (ip, rest, true) => bool_decide (rest = ""%string) && all_chars is_dtext ip && ParseIP ip
      | _ => false
      end
  | _ => false
  end.
Definition plain_address (v : string) : bool :=
  match cut "@"%char v with
  | (local, domain, true) => valid_utf8 v && dot_atom local && (dot_atom domain || domain_literal domain)
  | _ => false
  end.

Definition ValidEmail (value : string) : result string :=
  let value := TrimSpace value in
  if negb (plain_address value) || (maxNameLength <? len value)
  then invalid "email must be a plain email address"
  else Ok (ToLower value).
End Validation.

Definition ValidInterviewStatus (status : string) : bool :=
  bool_decide (status ∈ [InterviewStatusScheduled; InterviewStatusInProgress; InterviewStatusCompleted; InterviewStatusCancelled]).
Definition TerminalInterviewStatus (status : string) : bool :=
  bool_decide (status = InterviewStatusCompleted) || bool_decide (status = InterviewStatusCancelled).
Definition TaskStatusOpen : string := "open".
Definition TaskStatusInProgress : string := "in_progress".
Definition TaskStatusDone : string := "done".
Definition ValidTaskStatus (status : string) : bool :=
  bool_decide (status = TaskStatusOpen) || bool_decide (status = TaskStatusInProgress) || bool_decide (status = TaskStatusDone).

Definition CanManageRole (actor target : Role) : bool :=
  if negb (Can actor PermUsersWrite) then false
  else negb (bool_decide (target = RoleOwner)) || bool_decide (actor = RoleOwner).

(** ** Views *)
Record companyView := mkCompanyView { cv_id : UUID; cv_name : string; cv_slug : string; cv_created_at : time; cv_updated_at : time }.
Definition viewCompany (c : Company) : companyView :=
  mkCompanyView (Company_ID c) (Company_Name c) (Company_Slug c) (Company_CreatedAt c) (Company_UpdatedAt c).
Record userView := mkUserView {
  uv_id : UUID; uv_email : string; uv_display_name : string; uv_role : string; uv_created_at : time; uv_updated_at : time }.
Definition viewUser (u : User) : userView :=
  mkUserView (User_ID u) (User_Email u) (User_DisplayName u) (User_Role u) (User_CreatedAt u) (User_UpdatedAt u).
Record interviewView := mkInterviewView {
  iv_id : UUID; iv_candidate_name : string; iv_candidate_email : string; iv_status : string; iv_created_by : option UUID;
  iv_scheduled_at : option time; iv_terminal_at : option time; iv_erase_requested_at : option time; iv_legal_hold : bool;
  iv_purged_at : option time; iv_created_at : time; iv_updated_at : time }.
Definition viewInterview (i : Interview) : interviewView :=
  mkInterviewView (Interview_ID i) (Interview_CandidateName i) (Interview_CandidateEmail i) (Interview_Status i)
    (Interview_CreatedBy i) (Interview_ScheduledAt i) (Interview_TerminalAt i) (Interview_EraseRequestedAt i)
    (Interview_LegalHold i) (Interview_PurgedAt i) (Interview_CreatedAt i) (Interview_UpdatedAt i).
Record taskView := mkTaskView {
  tv_id : UUID; tv_interview_id : option UUID; tv_assignee_id : option UUID; tv_title : string; tv_description : string;
  tv_status : string; tv_due_at : option time; tv_completed_at : option time; tv_created_at : time; tv_updated_at : time }.
Definition viewTask (t : Task) : taskView :=
  mkTaskView (Task_ID t) (Task_InterviewID t) (Task_AssigneeID t) (Task_Title t) (Task_Description t) (Task_Status t)
    (Task_DueAt t) (Task_CompletedAt t) (Task_CreatedAt t) (Task_UpdatedAt t).
Record scoreView := mkScoreView {
  sv_id : UUID; sv_interview_id : UUID; sv_dimension : string; sv_proposed_value : float64; sv_rationale : string;
  sv_status : string; sv_final_value : option float64; sv_decision_note : string; sv_decided_by : option UUID;
  sv_decided_at : option time }.
Definition viewScore (s : Domain.Score) : scoreView :=
  mkScoreView (Score_ID s) (Domain.Score_InterviewID s) (Score_Dimension s) (Score_ProposedValue s) (Score_Rationale s)
    (Score_Status s) (Score_FinalValue s) (Score_DecisionNote s) (Score_DecidedBy s) (Score_DecidedAt s).
Record policyView := mkPolicyView { pv_key : string; pv_enabled : bool; pv_updated_by : option UUID; pv_updated_at : option time }.
Definition viewPolicy (p : Policy) : policyView :=
  mkPolicyView (Policy_Key p) (Policy_Enabled p) (Policy_UpdatedBy p) (Policy_UpdatedAt p).
Record inviteView := mkInviteView {
  nv_id : UUID; nv_email : string; nv_role : string; nv_interview_id : option UUID; nv_expires_at : time; nv_token : string }.

(** What [writeJSON] is given. *)
Inductive ResponseBody :=
  | CompanyBody (v : companyView)
  | UserBody (v : userView)
  | UsersBody (vs : list userView)
  | InterviewBody (v : interviewView)
  | InterviewsBody (vs : list interviewView)
  | ErasureBody (id : UUID) (erase_requested_at : option time) (legal_hold : bool)
  | ScoreBody (v : scoreView)
  | ScoresBody (vs : list scoreView)
  | TaskBody (v : taskView)
  | TasksBody (vs : list taskView)
  | InviteBody (v : inviteView)
  | PoliciesBody (vs : list policyView)
  | PolicyBody (v : policyView).
Inductive Response :=
  | JSON (status : Z) (body : ResponseBody)
  | NoContent
  | Failed (e : ErrorBody).

(** ** Handlers (http.go) *)
Definition H (A : Type) : Type := script → DB → (Response + A) * script * DB.
#[export] Instance H_ret : MRet H := λ A a fs d, (inr a, fs, d).
#[export] Instance H_bind : MBind H := λ A B f m fs d,
  match m fs d with
  | (inr a, fs, d) => f a fs d
  | (inl r, fs, d) => (inl r, fs, d)
  end.
Definition answer {A} (r : Response) : H A := λ fs d, (inl r, fs, d).
Definition WriteError {A} (status : Z) (code : string) : H A := answer (Failed (mkErrorBody status code)).
Definition writeInvalid {A} : H A := WriteError 400 "invalid_request".
Definition writeStoreError {A} (e : error) : H A :=
  if errors_is e ErrNotFound then WriteError 404 "not_found"
  else if errors_is e ErrConflict then WriteError 409 "conflict"
  else if errors_is e ErrInvalid then writeInvalid
  else if errors_is e ErrInvalidReference then WriteError 422 "invalid_reference"
  else WriteError 503 "store_unavailable".
(** [x, err := store.F(…); if err != nil { writeStoreError(w, err); return }]. *)
Definition store {A} (m : M DB A) : H A := λ fs d,
  match m fs d with
  | (Ok a, fs, d) => (inr a, fs, d)
  | (Err e, fs, d) => writeStoreError e fs d
  end.
(** [x, err := f(…); if err != nil { writeInvalid(w, err); return }]. *)
Definition valid {A} (r : result A) : H A := match r with Ok a => mret a | Err _ => writeInvalid end.
(** [if !b { write(w, …); return }]. *)
Definition require (b : bool) (otherwise : H ()) : H () := if b then mret () else otherwise.
Definition valid_opt {A B} (f : A → result B) (o : option A) : H (option B) :=
  match o with None => mret None | Some a => b ← valid (f a); mret (Some b) end.

(** *** Requests *)
Record HttpRequest := mkHttpRequest {
  r_auth : Request;
  PathValue : string → string;
  Query : string → string;
  Body : string;
}.

(** Pointer fields: [null] stores nil. *)
Section Pointers.
Context {T : Type}.
Definition ptr_field {A} (name : string) (get : json → option A) (set : option A → T → T) : field T :=
  (name, λ v t, match v with JNull => Some (set None t) | v => a ← get v; Some (set (Some a) t) end).
Definition get_bool (v : json) : option bool := match v with JBool b => Some b | _ => None end.
Definition get_time (v : json) : option time := match v with JString s => parse_time s | _ => None end.
Definition get_float (v : json) : option float64 := match v with JNumber lit => parse_float64 lit | _ => None end.
Definition get_uuid `{UuidLib} (v : json) : option UUID := match v with JString s => uuid_Parse s | _ => None end.
(** [optional[uuid.UUID]]: [Set], with [null] a nil value. *)
Definition optional_field {A} (name : string) (get : json → option A) (set : option (option A) → T → T) : field T :=
  (name, λ v t, match v with JNull => Some (set (Some None) t) | v => a ← get v; Some (set (Some (Some a)) t) end).
End Pointers.

Record companyBody := mkCompanyBody { cb_name : option string }.
Definition companyBody_fields : list (field companyBody) := [string_ptr_field "name" (λ v _, mkCompanyBody v)].
Record createUserBody := mkCreateUserBody { ub_email : string; ub_display_name : string; ub_role : string }.
Definition createUserBody_fields : list (field createUserBody) := [
  string_field "email" (λ v b, mkCreateUserBody v (ub_display_name b) (ub_role b));
  string_field "display_name" (λ v b, mkCreateUserBody (ub_email b) v (ub_role b));
  string_field "role" (λ v b, mkCreateUserBody (ub_email b) (ub_display_name b) v)].
Record updateUserBody := mkUpdateUserBody { pb_display_name : option string; pb_role : option string }.
Definition updateUserBody_fields : list (field updateUserBody) := [
  string_ptr_field "display_name" (λ v b, mkUpdateUserBody v (pb_role b));
  string_ptr_field "role" (λ v b, mkUpdateUserBody (pb_display_name b) v)].
Record createInterviewBody := mkCreateInterviewBody {
  ib_candidate_name : string; ib_candidate_email : string; ib_scheduled_at : option time }.
Definition createInterviewBody_fields : list (field createInterviewBody) := [
  string_field "candidate_name" (λ v b, mkCreateInterviewBody v (ib_candidate_email b) (ib_scheduled_at b));
  string_field "candidate_email" (λ v b, mkCreateInterviewBody (ib_candidate_name b) v (ib_scheduled_at b));
  ptr_field "scheduled_at" get_time (λ v b, mkCreateInterviewBody (ib_candidate_name b) (ib_candidate_email b) v)].
Record updateInterviewBody := mkUpdateInterviewBody {
  jb_candidate_name : option string; jb_candidate_email : option string; jb_status : option string; jb_scheduled_at : option time }.
Definition updateInterviewBody_fields : list (field updateInterviewBody) := [
  string_ptr_field "candidate_name" (λ v b, mkUpdateInterviewBody v (jb_candidate_email b) (jb_status b) (jb_scheduled_at b));
  string_ptr_field "candidate_email" (λ v b, mkUpdateInterviewBody (jb_candidate_name b) v (jb_status b) (jb_scheduled_at b));
  string_ptr_field "status" (λ v b, mkUpdateInterviewBody (jb_candidate_name b) (jb_candidate_email b) v (jb_scheduled_at b));
  ptr_field "scheduled_at" get_time (λ v b, mkUpdateInterviewBody (jb_candidate_name b) (jb_candidate_email b) (jb_status b) v)].
Record decisionBody := mkDecisionBody { db_status : string; db_final_value : option float64; db_note : string }.
Definition decisionBody_fields : list (field decisionBody) := [
  string_field "status" (λ v b, mkDecisionBody v (db_final_value b) (db_note b));
  ptr_field "final_value" get_float (λ v b, mkDecisionBody (db_status b) v (db_note b));
  string_field "note" (λ v b, mkDecisionBody (db_status b) (db_final_value b) v)].
Record policyBody := mkPolicyBody { ob_enabled : option bool }.
Definition policyBody_fields : list (field policyBody) := [ptr_field "enabled" get_bool (λ v _, mkPolicyBody v)].

Section Bodies.
Context `{uuids : UuidLib}.
Record createTaskBody := mkCreateTaskBody {
  kb_interview_id : option UUID; kb_assignee_id : option UUID; kb_title : string; kb_description : string; kb_due_at : option time }.
Definition createTaskBody_fields : list (field createTaskBody) := [
  ptr_field "interview_id" get_uuid (λ v b, mkCreateTaskBody v (kb_assignee_id b) (kb_title b) (kb_description b) (kb_due_at b));
  ptr_field "assignee_id" get_uuid (λ v b, mkCreateTaskBody (kb_interview_id b) v (kb_title b) (kb_description b) (kb_due_at b));
  string_field "title" (λ v b, mkCreateTaskBody (kb_interview_id b) (kb_assignee_id b) v (kb_description b) (kb_due_at b));
  string_field "description" (λ v b, mkCreateTaskBody (kb_interview_id b) (kb_assignee_id b) (kb_title b) v (kb_due_at b));
  ptr_field "due_at" get_time (λ v b, mkCreateTaskBody (kb_interview_id b) (kb_assignee_id b) (kb_title b) (kb_description b) v)].
Record updateTaskBody := mkUpdateTaskBody {
  tb_title : option string; tb_description : option string; tb_status : option string;
  tb_assignee_id : option (option UUID); tb_due_at : option time }.
Definition updateTaskBody_fields : list (field updateTaskBody) := [
  string_ptr_field "title" (λ v b, mkUpdateTaskBody v (tb_description b) (tb_status b) (tb_assignee_id b) (tb_due_at b));
  string_ptr_field "description" (λ v b, mkUpdateTaskBody (tb_title b) v (tb_status b) (tb_assignee_id b) (tb_due_at b));
  string_ptr_field "status" (λ v b, mkUpdateTaskBody (tb_title b) (tb_description b) v (tb_assignee_id b) (tb_due_at b));
  optional_field "assignee_id" get_uuid (λ v b, mkUpdateTaskBody (tb_title b) (tb_description b) (tb_status b) v (tb_due_at b));
  ptr_field "due_at" get_time (λ v b, mkUpdateTaskBody (tb_title b) (tb_description b) (tb_status b) (tb_assignee_id b) v)].
Record inviteBody := mkInviteBody { nb_email : string; nb_role : string; nb_interview_id : option UUID; ExpiresIn : Z }.
Definition inviteBody_fields : list (field inviteBody) := [
  string_field "email" (λ v b, mkInviteBody v (nb_role b) (nb_interview_id b) (ExpiresIn b));
  string_field "role" (λ v b, mkInviteBody (nb_email b) v (nb_interview_id b) (ExpiresIn b));
  ptr_field "interview_id" get_uuid (λ v b, mkInviteBody (nb_email b) (nb_role b) v (ExpiresIn b));
  int64_field "expires_in_seconds" (λ v b, mkInviteBody (nb_email b) (nb_role b) (nb_interview_id b) v)].
End Bodies.

Definition maxBodyBytes : Z := Z.shiftl 64 10.

Record Config := mkConfig {
  cfg_Now : time;
  NewID : UUID;
  NewToken : result string;
  InviteTTL : duration;
}.
(** [NewHandler]: an invite TTL that is not set or too long is the default. *)
Definition NewHandler (cfg : Config) : Config :=
  if (InviteTTL cfg <=? 0) || (maxInviteTTL <? InviteTTL cfg)
  then mkConfig (cfg_Now cfg) (NewID cfg) (NewToken cfg) defaultInvite
  else cfg.

(** [NewInviteToken]: [inviteTokenLen] random bytes. *)
Definition NewInviteToken (raw : result (list Z)) : result string :=
  bytes ← wrap_err "generate invite token" raw; Ok (Workspace.base64_raw_url bytes).

Section Handlers.
Context `{uuids : UuidLib}.
Context (ParseIP : string → bool) (ToLower : string → string).
(** Whether encoding/json's scanner reaches the end of a cut-off body without
    an error, wanting more; and the collation and clock of the database. *)
Context (runs_out : string → bool) (text_less : string → string → bool) (db_now : time).

Definition decode {T} (fields : list (field T)) (zero : T) (r : HttpRequest) : H T :=
  if len (Body r) <=? maxBodyBytes then
    match unmarshal_strict fields (parse_json (Body r)) zero with
    | Some t => mret t
    | None => WriteError 400 "invalid_json"
    end
  else if runs_out (take_bytes (Z.to_nat maxBodyBytes) (Body r)) then WriteError 413 "body_too_large"
  else WriteError 400 "invalid_json".

Definition pathID (r : HttpRequest) (name : string) : H UUID :=
  match uuid_Parse (PathValue r name) with
  | Some id => mret id
  | None => WriteError 400 ("invalid_" +:+ name)
  end.

Definition queryLimit (r : HttpRequest) : H Z :=
  let raw := Query r "limit" in
  if bool_decide (raw = ""%string) then mret defaultLimit
  else match ParseInt raw with
       | Some limit => if (limit <? 1) || (maxLimit <? limit) then writeInvalid else mret limit
       | None => writeInvalid
       end.

Context (cfg : Config).
Notation Email := (ValidEmail ParseIP ToLower).

Definition getCompany (p : Principal) (r : HttpRequest) : H Response :=
  company ← store (AdminStore.GetCompany (Principal_CompanyID p));
  mret (JSON 200 (CompanyBody (viewCompany company))).

Definition updateCompany (p : Principal) (r : HttpRequest) : H Response :=
  body ← decode companyBody_fields (mkCompanyBody None) r;
  name ← valid_opt (validName "name") (cb_name body);
  company ← store (AdminStore.UpdateCompany db_now (Principal_CompanyID p) (mkCompanyPatch name));
  mret (JSON 200 (CompanyBody (viewCompany company))).

Definition listUsers (p : Principal) (r : HttpRequest) : H Response :=
  users ← store (AdminStore.ListUsers text_less (Principal_CompanyID p));
  mret (JSON 200 (UsersBody (map viewUser users))).

Definition getUser (p : Principal) (r : HttpRequest) : H Response :=
  id ← pathID r "id";
  user ← store (AdminStore.GetUser (Principal_CompanyID p) id);
  mret (JSON 200 (UserBody (viewUser user))).

(** The two checks of a role a request wants to give. *)
Definition grantable (p : Principal) (role : Role) : H () :=
  require (Valid role) writeInvalid;;
  require (CanManageRole (Principal_Role p) role) (WriteError 403 "forbidden").

Definition createUser (p : Principal) (r : HttpRequest) : H Response :=
  body ← decode createUserBody_fields (mkCreateUserBody "" "" "") r;
  email ← valid (Email (ub_email body));
  grantable p (ub_role body);;
  displayName ← valid (validText "display_name" (ub_display_name body));
  user ← store (AdminStore.CreateUser db_now
    (mkUser (NewID cfg) (Principal_CompanyID p) email displayName (ub_role body) zero_time zero_time));
  mret (JSON 201 (UserBody (viewUser user))).

Definition patch_role (p : Principal) (id : UUID) (role : option string) : H (option Role) :=
  match role with
  | None => mret None
  | Some role =>
      grantable p role;;
      require (negb (bool_decide (id = Principal_UserID p) && negb (bool_decide (role = Principal_Role p))))
        (WriteError 409 "self_role_change");;
      mret (Some role)
  end.

(** [updateUser] and [deleteUser] read the member and check the request, and
    then write, with no transaction around the two: other requests may be
    served in between. *)
Definition updateUser_check (p : Principal) (r : HttpRequest) : H (UUID * UserPatch) :=
  id ← pathID r "id";
  body ← decode updateUserBody_fields (mkUpdateUserBody None None) r;
  target ← store (AdminStore.GetUser (Principal_CompanyID p) id);
  require (CanManageRole (Principal_Role p) (User_Role target)) (WriteError 403 "forbidden");;
  name ← valid_opt (validText "display_name") (pb_display_name body);
  role ← patch_role p id (pb_role body);
  mret (id, mkUserPatch name role).
Definition updateUser_write (p : Principal) (checked : UUID * UserPatch) : H Response :=
  user ← store (AdminStore.UpdateUser db_now (Principal_CompanyID p) checked.1 checked.2);
  mret (JSON 200 (UserBody (viewUser user))).
Definition updateUser (p : Principal) (r : HttpRequest) : H Response :=
  checked ← updateUser_check p r; updateUser_write p checked.

Definition deleteUser_check (p : Principal) (r : HttpRequest) : H UUID :=
  id ← pathID r "id";
  require (negb (bool_decide (id = Principal_UserID p))) (WriteError 409 "self_delete");;
  target ← store (AdminStore.GetUser (Principal_CompanyID p) id);
  require (CanManageRole (Principal_Role p) (User_Role target)) (WriteError 403 "forbidden");;
  mret id.
Definition deleteUser_write (p : Principal) (id : UUID) : H Response :=
  store (AdminStore.DeleteUser (Principal_CompanyID p) id);;
  mret NoContent.
Definition deleteUser (p : Principal) (r : HttpRequest) : H Response :=
  id ← deleteUser_check p r; deleteUser_write p id.

Definition listInterviews (p : Principal) (r : HttpRequest) : H Response :=
  let status := Query r "status" in
  require (bool_decide (status = ""%string) || ValidInterviewStatus status) writeInvalid;;
  limit ← queryLimit r;
  interviews ← store (AdminStore.ListInterviews (Principal_CompanyID p) (mkInterviewFilter status limit));
  mret (JSON 200 (InterviewsBody (map viewInterview interviews))).

Definition getInterview (p : Principal) (r : HttpRequest) : H Response :=
  id ← pathID r "id";
  interview ← store (AdminStore.GetInterview (Principal_CompanyID p) id);
  mret (JSON 200 (InterviewBody (viewInterview interview))).

Definition createInterview (p : Principal) (r : HttpRequest) : H Response :=
  body ← decode createInterviewBody_fields (mkCreateInterviewBody "" "" None) r;
  name ← valid (validName "candidate_name" (ib_candidate_name body));
  email ← valid (Email (ib_candidate_email body));
  interview ← store (AdminStore.CreateInterview db_now
    (mkInterview (NewID cfg) (Principal_CompanyID p) (Some (Principal_UserID p)) name email InterviewStatusScheduled
       (ib_scheduled_at body) None None false None 0 zero_time zero_time));
  mret (JSON 201 (InterviewBody (viewInterview interview))).

Definition updateInterview (p : Principal) (r : HttpRequest) : H Response :=
  id ← pathID r "id";
  body ← decode updateInterviewBody_fields (mkUpdateInterviewBody None None None None) r;
  name ← valid_opt (validName "candidate_name") (jb_candidate_name body);
  email ← valid_opt Email (jb_candidate_email body);
  require (match jb_status body with Some status => ValidInterviewStatus status | None => true end) writeInvalid;;
  let terminal := match jb_status body with
    | Some status => if TerminalInterviewStatus status then Some (cfg_Now cfg) else None | None => None end in
  interview ← store (AdminStore.UpdateInterview db_now (Principal_CompanyID p) id
    (mkInterviewPatch name email (jb_status body) (jb_scheduled_at body) terminal));
  mret (JSON 200 (InterviewBody (viewInterview interview))).

Definition eraseInterview (p : Principal) (r : HttpRequest) : H Response :=
  id ← pathID r "id";
  interview ← store (AdminStore.RequestErasure db_now (Principal_CompanyID p) id (cfg_Now cfg));
  mret (JSON 202 (ErasureBody (Interview_ID interview) (Interview_EraseRequestedAt interview) (Interview_LegalHold interview))).

Definition listScores (p : Principal) (r : HttpRequest) : H Response :=
  id ← pathID r "id";
  store (AdminStore.GetInterview (Principal_CompanyID p) id);;
  scores ← store (AdminStore.ListScores text_less (Principal_CompanyID p) id);
  mret (JSON 200 (ScoresBody (map viewScore scores))).

Definition decideScore (p : Principal) (r : HttpRequest) : H Response :=
  interviewID ← pathID r "id";
  scoreID ← pathID r "scoreId";
  body ← decode decisionBody_fields (mkDecisionBody "" None "") r;
  valid (ValidateScoreDecision (db_status body) (db_final_value body));;
  note ← valid (validText "note" (db_note body));
  score ← store (AdminStore.DecideScore db_now (Principal_CompanyID p) interviewID scoreID
    (mkScoreDecision (db_status body) (db_final_value body) note (Principal_UserID p) (cfg_Now cfg)));
  mret (JSON 200 (ScoreBody (viewScore score))).

(** [uuid.Parse] of a query parameter that is there. *)
Definition query_id (raw : string) : H (option UUID) :=
  if bool_decide (raw = ""%string) then mret None
  else match uuid_Parse raw with Some id => mret (Some id) | None => writeInvalid end.

Definition listTasks (p : Principal) (r : HttpRequest) : H Response :=
  interview ← query_id (Query r "interview_id");
  assignee ← query_id (Query r "assignee_id");
  let status := Query r "status" in
  require (bool_decide (status = ""%string) || ValidTaskStatus status) writeInvalid;;
  limit ← queryLimit r;
  tasks ← store (AdminStore.ListTasks (Principal_CompanyID p) (mkTaskFilter interview assignee status limit));
  mret (JSON 200 (TasksBody (map viewTask tasks))).

Definition getTask (p : Principal) (r : HttpRequest) : H Response :=
  id ← pathID r "id";
  task ← store (AdminStore.GetTask (Principal_CompanyID p) id);
  mret (JSON 200 (TaskBody (viewTask task))).

Definition createTask (p : Principal) (r : HttpRequest) : H Response :=
  body ← decode createTaskBody_fields (mkCreateTaskBody None None "" "" None) r;
  title ← valid (validName "title" (kb_title body));
  description ← valid (validText "description" (kb_description body));
  task ← store (AdminStore.CreateTask db_now
    (mkTask (NewID cfg) (Principal_CompanyID p) (kb_interview_id body) (kb_assignee_id body) title description
       TaskStatusOpen (kb_due_at body) None zero_time zero_time));
  mret (JSON 201 (TaskBody (viewTask task))).

Definition updateTask (p : Principal) (r : HttpRequest) : H Response :=
  id ← pathID r "id";
  body ← decode updateTaskBody_fields (mkUpdateTaskBody None None None None None) r;
  title ← valid_opt (validName "title") (tb_title body);
  description ← valid_opt (validText "description") (tb_description body);
  require (match tb_status body with Some status => ValidTaskStatus status | None => true end) writeInvalid;;
  let completed := match tb_status body with
    | Some status => if bool_decide (status = TaskStatusDone) then Some (cfg_Now cfg) else None | None => None end in
  let assignee := match tb_assignee_id body with
    | Some value => Some (default uuid_Nil value) | None => None end in
  task ← store (AdminStore.UpdateTask db_now (Principal_CompanyID p) id
    (mkTaskPatch title description (tb_status body) assignee (tb_due_at body) completed));
  mret (JSON 200 (TaskBody (viewTask task))).

Definition deleteTask (p : Principal) (r : HttpRequest) : H Response :=
  id ← pathID r "id";
  store (AdminStore.DeleteTask (Principal_CompanyID p) id);;
  mret NoContent.

(** The role of an invite: a candidate's with an interview, else the member
    role asked for. *)
Definition invite_role (p : Principal) (body : inviteBody) : H string :=
  match nb_interview_id body with
  | None =>
      require (Principal_Can p PermInvitesMember) (WriteError 403 "forbidden");;
      grantable p (nb_role body);;
      mret (nb_role body)
  | Some _ =>
      require (bool_decide (nb_role body = ""%string) || bool_decide (nb_role body = candidateRole)) writeInvalid;;
      mret candidateRole
  end.

(** The time to live: the product is an [int64] and wraps. *)
Definition invite_ttl (body : inviteBody) : H duration :=
  if ExpiresIn body =? 0 then mret (InviteTTL cfg)
  else
    let ttl := mul64 (ExpiresIn body) second in
    require (negb ((ExpiresIn body <? 0) || (maxInviteTTL <? ttl))) writeInvalid;;
    mret ttl.

Definition createInvite (p : Principal) (r : HttpRequest) : H Response :=
  body ← decode inviteBody_fields (mkInviteBody "" "" None 0) r;
  email ← valid (Email (nb_email body));
  role ← invite_role p body;
  ttl ← invite_ttl body;
  match NewToken cfg with
  | Err _ => WriteError 503 "token_unavailable"
  | Ok token =>
      invite ← store (AdminStore.CreateInvite db_now
        (mkInvite (NewID cfg) (Principal_CompanyID p) (nb_interview_id body) (Some (Principal_UserID p)) email role
           (HashToken token) (time_add (cfg_Now cfg) ttl) None zero_time));
      mret (JSON 201 (InviteBody (mkInviteView (Invite_ID invite) (Invite_Email invite) (Invite_Role invite)
        (Invite_InterviewID invite) (Invite_ExpiresAt invite) token)))
  end.

Definition listPolicies (p : Principal) (r : HttpRequest) : H Response :=
  stored ← store (AdminStore.ListPolicies text_less (Principal_CompanyID p));
  mret (JSON 200 (PoliciesBody (map viewPolicy (MergePolicies stored)))).

Definition setPolicy (p : Principal) (r : HttpRequest) : H Response :=
  let key := PathValue r "key" in
  require (PolicyDefault key).2 (WriteError 404 "unknown_policy");;
  body ← decode policyBody_fields (mkPolicyBody None) r;
  match ob_enabled body with
  | None => writeInvalid
  | Some enabled =>
      policy ← store (AdminStore.SetPolicy db_now (Principal_CompanyID p) key enabled (Principal_UserID p));
      mret (JSON 200 (PolicyBody (viewPolicy policy)))
  end.

(** ** Routes *)
Inductive Route :=
  | GetCompany | PatchCompany
  | ListUsers | PostUsers | GetUser | PatchUser | DeleteUser
  | ListInterviews | PostInterviews | GetInterview | PatchInterview | EraseInterview | InterviewScores | ScoreDecisions
  | ListTasks | PostTasks | GetTask | PatchTask | DeleteTask
  | PostInvites | ListPolicies | PutPolicy.

Definition routes (route : Route) : Permission * (Principal → HttpRequest → H Response) :=
  match route with
  | GetCompany => (PermCompanyRead, getCompany)
  | PatchCompany => (PermCompanyWrite, updateCompany)
  | ListUsers => (PermUsersRead, listUsers)
  | PostUsers => (PermUsersWrite, createUser)
  | GetUser => (PermUsersRead, getUser)
  | PatchUser => (PermUsersWrite, updateUser)
  | DeleteUser => (PermUsersWrite, deleteUser)
  | ListInterviews => (PermInterviewsRead, listInterviews)
  | PostInterviews => (PermInterviewsWrite, createInterview)
  | GetInterview => (PermInterviewsRead, getInterview)
  | PatchInterview => (PermInterviewsWrite, updateInterview)
  | EraseInterview => (PermInterviewsErase, eraseInterview)
  | InterviewScores => (PermScoresRead, listScores)
  | ScoreDecisions => (PermScoresApprove, decideScore)
  | ListTasks => (PermTasksRead, listTasks)
  | PostTasks => (PermTasksWrite, createTask)
  | GetTask => (PermTasksRead, getTask)
  | PatchTask => (PermTasksWrite, updateTask)
  | DeleteTask => (PermTasksWrite, deleteTask)
  | PostInvites => (PermInvitesCandidate, createInvite)
  | ListPolicies => (PermPoliciesRead, listPolicies)
  | PutPolicy => (PermPoliciesWrite, setPolicy)
  end.

(** A served request: the answer a handler gave, early or at its end. *)
Definition Server := script → DB → Response * script * DB.
Definition run (m : H Response) : Server := λ fs d,
  match m fs d with (inl r, fs, d) | (inr r, fs, d) => (r, fs, d) end.
Definition write_error (e : ErrorBody) : Server := λ fs d, (Failed e, fs, d).

(** [Routes]: a matched route behind [rbac.Middleware] and [rbac.Require].
    The handlers read the principal the middleware stored. *)
Definition serve (resolve : Request → result Principal) (route : Route) (r : HttpRequest) : Server :=
  let '(permission, handler) := routes route in
  Middleware write_error resolve
    (Require write_error permission
       (λ ctx _, match ctx with
                 | Some p => run (handler p r)
                 | None => run (handler (mkPrincipal uuid_Nil uuid_Nil "") r)
                 end))
    (r_auth r).
End Handlers.

(** The resolver of cmd/admin-api: sessions and roles from the store, each
    lookup with its own faults, on the database [d]. *)
Definition store_resolver (fs1 fs2 : script) (d : DB) (now : time) : Resolver :=
  mkResolver (λ hash, result_of (Store.FindSessionByTokenHash hash) fs1 (mkWorld (base d) []))
    (λ c user, result_of (AdminStore.UserRole c user) fs2 d) now.

(** ** A small deployment *)
Module Example.
#[export] Existing Instance BinUuid.lib.
Definition any_ip (_ : string) : bool := false.
Definition never (_ : string) : bool := false.
Definition bytes_less (a b : string) : bool := match String.compare a b with Lt => true | _ => false end.
Definition now : time := 1000 * day.
Definition cfg : Config := mkConfig now 9%N (Ok "raw-token"%string) 0.

Definition user (c id : UUID) (email : string) (role : Role) : User := mkUser id c email "" role 0 0.
Definition interview (c id : UUID) : Interview :=
  mkInterview id c None "Ada" "ada@x.org" InterviewStatusScheduled None None None false None 0 0 0.
Definition score (c id i : UUID) : Domain.Score :=
  Domain.mkScore id c i "coding" (SpecFloat.S754_zero false) "" ScoreStatusProposed None "" None None 0 0.
Definition session (id user : UUID) (token : string) : SessionRow :=
  mkSessionRow (mkSession id 1%N (Some user) None SessionStateActive (HashToken token) (now + day) None 0 None) 0.
Definition db : DB := mkDB
  (mkTables ∅ (list_to_map [((1%N, 5%N), interview 1%N 5%N); ((2%N, 6%N), interview 2%N 6%N)])
     (list_to_map [((1%N, 3%N), session 3%N 1%N "alice")]) ∅ ∅
     (list_to_map [((1%N, 7%N), score 1%N 7%N 5%N)]) ∅ [] 0)
  (list_to_map [(1%N, mkCompany 1%N "One" "one" 0 0); (2%N, mkCompany 2%N "Two" "two" 0 0)])
  (list_to_map [((1%N, 1%N), user 1%N 1%N "a@one.org" RoleOwner); ((1%N, 2%N), user 1%N 2%N "b@one.org" RoleOwner);
                ((1%N, 4%N), user 1%N 4%N "v@one.org" RoleViewer); ((2%N, 1%N), user 2%N 1%N "a@two.org" RoleOwner)])
  ∅ (list_to_map [((1%N, "replay"%string), mkPolicy "replay" false None (Some 0))]).

Definition alice : Principal := mkPrincipal 1%N 1%N RoleOwner.
Definition viewer : Principal := mkPrincipal 1%N 4%N RoleViewer.
Definition as_ (p : Principal) (_ : Request) : result Principal := Ok p.
(** A request on the resource [id]. *)
Definition request (id score_id body : string) : HttpRequest :=
  mkHttpRequest (mkRequest "Bearer alice")
    (λ name, if bool_decide (name = "id"%string) then id else if bool_decide (name = "scoreId"%string) then score_id else "replay"%string)
    (λ _, ""%string) (quoted body).
Definition id_of (u : UUID) : string := BinUuid.render_uuid u.
Notation Serve := (serve any_ip to_lower never bytes_less now cfg).
Notation ServeNew := (serve any_ip to_lower never bytes_less now (NewHandler cfg)).
(** Another database with the same company 1. *)
Definition db2 : DB := set_users (delete (2%N, 1%N)) db.
End Example.
