(* ===== verification/AdminSafety.v ===== *)
(** * What the Admin API can do to the database

    The invariants of one served request over [AdminApi.serve], by way of two
    analyses of handlers: [keeps R] (every step relates the database it leaves
    to the one it found) and [carries] (a condition carried along the steps, for
    the handlers that read before they write), and [AdminStore.isolated] for
    what a request can see.  Tenants are isolated, a company keeps its owners as
    long as requests do not overlap (two that do are [crossing_demotions]),
    reading routes and viewers change nothing, interviews keep their marks, and
    score decisions are a human's. *)
From S2P Require Import Prelude Str GoTime Sha256 Json JsonText Rfc3339 Codec Tx Domain Rbac Store AdminStore AdminApi.

(** ** What a handler does to the database *)

(** Every way a step can end leaves the database related to where it began. *)
Definition keeps {A} (R : DB → DB → Prop) (m : H A) : Prop := ∀ fs d, R d (m fs d).2.

Section Keeps.
Context (R : DB → DB → Prop) `{!PreOrder R}.
Lemma keeps_ret {A} (a : A) : keeps R (mret a).
Proof. intros fs d. reflexivity. Qed.
Lemma keeps_answer {A} r : keeps R (answer r : H A).
Proof. intros fs d. reflexivity. Qed.
Lemma keeps_bind {A B} (m : H A) (f : A → H B) : keeps R m → (∀ a, keeps R (f a)) → keeps R (m ≫= f).
Proof.
  intros Hm Hf fs d. specialize (Hm fs d). unfold mbind, H_bind. destruct (m fs d) as [[[r|a] fs1] d1]; [done|].
  etrans; [done|]. apply Hf.
Qed.
Lemma keeps_ret_bind {A B} (a : A) (f : A → H B) : keeps R (f a) → keeps R (mret a ≫= f).
Proof. intros Hf fs d. exact (Hf fs d). Qed.
Lemma keeps_answer_bind {A B} r (f : A → H B) : keeps R (answer r ≫= f).
Proof. intros fs d. reflexivity. Qed.
Lemma keeps_store_error {A} e : keeps R (writeStoreError e : H A).
Proof. unfold writeStoreError. repeat case_match; apply keeps_answer. Qed.
Lemma keeps_store {A} (m : M DB A) : stays R m → keeps R (store m).
Proof.
  intros Hm fs d. specialize (Hm fs d). unfold store, state_after in *. destruct (m fs d) as [[[a|e] fs1] d1]; [done|].
  etrans; [done|]. apply keeps_store_error.
Qed.
Lemma keeps_valid {A} (r : result A) : keeps R (valid r).
Proof. destruct r; [apply keeps_ret|apply keeps_answer]. Qed.
Lemma keeps_require b m : keeps R m → keeps R (require b m).
Proof. destruct b; [intros _; apply keeps_ret|done]. Qed.
Lemma keeps_valid_opt {A B} (f : A → result B) o : keeps R (valid_opt f o).
Proof. destruct o; [apply keeps_bind; [apply keeps_valid|intros; apply keeps_ret]|apply keeps_ret]. Qed.
Lemma keeps_grantable p role : keeps R (grantable p role).
Proof. apply keeps_bind; [|intros _]; apply keeps_require, keeps_answer. Qed.
Lemma keeps_run (m : H Response) fs d : keeps R m → R d (run m fs d).2.
Proof. intros Hm. specialize (Hm fs d). unfold run. by destruct (m fs d) as [[[]?]?]. Qed.
Lemma stays_map_error {A} f (m : M DB A) : stays R m → stays R (map_error f m).
Proof. intros Hm fs d. specialize (Hm fs d). unfold state_after, map_error in *. by destruct (m fs d) as [[??]?]. Qed.
Lemma stays_one {A} kind (f : DB → result (A * DB)) : (∀ d a d', f d = Ok (a, d') → R d d') → stays R (one kind f).
Proof. intros. by apply stays_map_error, stays_stmt. Qed.
Lemma stays_collect {A} (f : DB → result (list A * DB)) : (∀ d a d', f d = Ok (a, d') → R d d') → stays R (collectRows f).
Proof. intros. by apply stays_map_error, stays_stmt. Qed.
Lemma stays_exec_delete (f : DB → result (bool * DB)) : (∀ d a d', f d = Ok (a, d') → R d d') → stays R (exec_delete f).
Proof.
  intros. apply stays_bind; [done| |]; [by apply stays_map_error, stays_stmt|].
  intros []; [by apply stays_ret|by apply stays_throw].
Qed.
End Keeps.

(** *** Isolation *)
Section HIsolated.
Context (P : DB → Prop) (c : UUID) (P_about : about_others c P).
Lemma isolatedH_ret {A} (a : A) : isolated P c (mret a : H A).
Proof. intros fs d r fs' d' _ [= <- <- <-]. done. Qed.
Lemma isolatedH_answer {A} r : isolated P c (answer r : H A).
Proof. intros fs d r' fs' d' _ [= <- <- <-]. done. Qed.
Lemma isolatedH_bind {A B} (m : H A) (f : A → H B) : isolated P c m → (∀ a, isolated P c (f a)) → isolated P c (m ≫= f).
Proof.
  intros Hm Hf fs d r fs' d' Hd E. unfold mbind, H_bind in *. destruct (m fs d) as [[[x|a] fs1] d1] eqn:Em;
    destruct (Hm _ _ _ _ _ Hd Em) as [-> Hs1]; [by simplify_eq|].
  destruct (Hf a _ _ _ _ _ (P_about _ _ Hs1 Hd) E) as [-> Hs2]. split; [done|by eapply others_same_trans].
Qed.
Lemma isolatedH_store_error {A} e : isolated P c (writeStoreError e : H A).
Proof. unfold writeStoreError. repeat case_match; apply isolatedH_answer. Qed.
Lemma isolatedH_store {A} (m : M DB A) : isolated P c m → isolated P c (store m).
Proof.
  intros Hm fs d r fs' d' Hd E. unfold store in *. destruct (m fs d) as [[[a|e] fs1] d1] eqn:Em;
    destruct (Hm _ _ _ _ _ Hd Em) as [-> Hs1]; [by simplify_eq|].
  destruct (isolatedH_store_error e _ _ _ _ _ (P_about _ _ Hs1 Hd) E) as [-> Hs2].
  split; [done|by eapply others_same_trans].
Qed.
Lemma isolatedH_valid {A} (r : result A) : isolated P c (valid r).
Proof. destruct r; [apply isolatedH_ret|apply isolatedH_answer]. Qed.
Lemma isolatedH_error b s e : isolated P c (require b (WriteError s e)).
Proof. destruct b; [apply isolatedH_ret|apply isolatedH_answer]. Qed.
Lemma isolatedH_valid_opt {A B} (f : A → result B) o : isolated P c (valid_opt f o).
Proof. destruct o; [apply isolatedH_bind; [apply isolatedH_valid|intros; apply isolatedH_ret]|apply isolatedH_ret]. Qed.
Lemma isolatedH_grantable p role : isolated P c (grantable p role).
Proof. apply isolatedH_bind; [|intros _]; apply isolatedH_error. Qed.
Lemma isolated_run (m : H Response) : isolated P c m → isolated P c (run m).
Proof.
  intros Hm fs d r fs' d' Hd E. unfold run in *. destruct (m fs d) as [[[x|x] fs1] d1] eqn:Em;
    destruct (Hm _ _ _ _ _ Hd Em) as [-> Hs1]; by simplify_eq.
Qed.
End HIsolated.

Section Served.
Context `{uuids : UuidLib} (ParseIP : string → bool) (ToLower : string → string).
Context (runs_out : string → bool) (text_less : string → string → bool) (db_now : time) (cfg : Config).
Notation Serve := (serve ParseIP ToLower runs_out text_less db_now cfg).
Notation Routes := (routes ParseIP ToLower runs_out text_less db_now cfg).

(** No other company holds the hash of the token an invite would get. *)
Definition fresh_token (c : UUID) (d : DB) : Prop :=
  ∀ token, NewToken cfg = Ok token → foreign_hash c (HashToken token) d = false.
Lemma about_fresh c : about_others c (fresh_token c).
Proof. intros d d' Hs Hd token Ht. eapply about_hash; [done|]. by apply Hd. Qed.

Ltac isolated_tac :=
  repeat (first
    [ apply isolatedH_bind; [by apply about_fresh|..|intros ?] | apply isolatedH_ret | apply isolatedH_answer
    | apply isolatedH_valid | apply isolatedH_error | apply isolatedH_valid_opt, about_fresh | apply isolatedH_grantable, about_fresh
    | apply isolatedH_store; [by apply about_fresh|]; autounfold with admin; eauto using about_fresh with isolated
    | progress case_match ]).

Lemma handler_isolated route p r : isolated (fresh_token (Principal_CompanyID p)) (Principal_CompanyID p) ((Routes route).2 p r).
Proof.
  destruct route; cbn -[PolicyDefault];
    unfold getCompany, updateCompany, listUsers, createUser, getUser, updateUser, updateUser_check, updateUser_write,
    deleteUser, deleteUser_check, deleteUser_write, listInterviews,
      createInterview, getInterview, updateInterview, eraseInterview, listScores, decideScore, listTasks, createTask,
      getTask, updateTask, deleteTask, createInvite, listPolicies, setPolicy, decode, pathID, queryLimit, query_id,
      patch_role, invite_role, invite_ttl; isolated_tac.
  apply isolated_weaken with (Q := λ d, foreign_hash (Principal_CompanyID p) (HashToken a3) d = false);
    [intros d Hd; by apply Hd|].
  match goal with |- isolated _ _ (AdminStore.CreateInvite _ ?i) => exact (CreateInvite_isolated db_now _ i eq_refl) end.
Qed.

Lemma serve_cases resolve route r :
  (∃ p, resolve (r_auth r) = Ok p ∧ Principal_Can p (Routes route).1 = true ∧
    ∀ fs d, Serve resolve route r fs d = run ((Routes route).2 p r) fs d) ∨
  (∃ e, (∀ fs d, Serve resolve route r fs d = (Failed e, fs, d)) ∧ eb_status e ∈ [401; 403; 503]).
Proof.
  unfold serve, Middleware, Require. destruct (Routes route) as [permission handler]. cbn.
  destruct (resolve (r_auth r)) as [p|e].
  - destruct (Principal_Can p permission) eqn:Hp; cbn; [left; by exists p|right].
    eexists. split; [done|]. cbn. set_solver.
  - right. destruct (errors_is e ErrUnauthenticated); eexists; (split; [done|]); cbn; set_solver.
Qed.

(** C4: tenants are isolated.  Whatever a request asks, by whichever route and
    with whatever faults, the rows of every company but the principal's are
    left as they are, and the answer and the change of the principal's company
    depend on that company's rows alone: on another database with the same
    rows of that company the answer is the same and that company's rows end
    the same.  (The hash of a fresh invite token is to be held by no other
    company: token hashes are unique across all of them.) *)
Theorem tenants_isolated resolve route r fs d resp fs' d' c :
  Serve resolve route r fs d = (resp, fs', d') →
  (∀ p, resolve (r_auth r) = Ok p → Principal_CompanyID p = c) → fresh_token c d →
  others_same c d d' ∧
  (∀ d2, restrict c d2 = restrict c d → fresh_token c d2 →
    ∃ d2', Serve resolve route r fs d2 = (resp, fs', d2') ∧ restrict c d2' = restrict c d' ∧ others_same c d2 d2').
Proof.
  intros E Hc Hf. destruct (serve_cases resolve route r) as [(p & Hp & _ & Hs)|(e & Hs & _)]; rewrite Hs in E.
  - specialize (Hc p Hp) as <-. pose proof (isolated_run _ _ _ (handler_isolated route p r)) as Hi.
    destruct (Hi _ _ _ _ _ Hf E) as [E1 Ho]. split; [done|]. intros d2 Hd2 Hf2. rewrite Hs.
    destruct (run _ fs d2) as [[resp2 fs2] d2'] eqn:E2. destruct (Hi _ _ _ _ _ Hf2 E2) as [E3 Ho2].
    rewrite Hd2, E1 in E3. apply pair_eq in E3 as [[= <- <-] E3]. eauto.
  - simplify_eq. split; [done|]. intros d2 Hd2 Hf2. rewrite Hs. eauto using others_same_refl.
Qed.
End Served.

(** *** Conditions along a handler

    From a database of [P], [m] goes on with an [a] and a database of [Q a], or
    answers and leaves a database of [E]. *)
Definition carries {A} (P : DB → Prop) (m : H A) (Q : A → DB → Prop) (E : DB → Prop) : Prop := ∀ fs d x fs' d',
  P d → m fs d = (x, fs', d') → match x with inr a => Q a d' | inl _ => E d' end.

Section Carries.
Implicit Types (P E : DB → Prop).
Lemma carries_ret {A} P (a : A) Q E : (∀ d, P d → Q a d) → carries P (mret a) Q E.
Proof. intros HQ fs d x fs' d' Hd [= <- <- <-]. auto. Qed.
Lemma carries_answer {A} P r (Q : A → DB → Prop) E : (∀ d, P d → E d) → carries P (answer r) Q E.
Proof. intros HE fs d x fs' d' Hd [= <- <- <-]. auto. Qed.
Lemma carries_bind {A B} P (m : H A) (f : A → H B) Q Q' E :
  carries P m Q E → (∀ a, carries (Q a) (f a) Q' E) → carries P (m ≫= f) Q' E.
Proof.
  intros Hm Hf fs d x fs' d' Hd Ex. unfold mbind, H_bind in Ex. destruct (m fs d) as [[y fs1] d1] eqn:Em.
  specialize (Hm _ _ _ _ _ Hd Em). destruct y as [r|a]; [by simplify_eq|]. by eapply (Hf a).
Qed.
Lemma carries_weaken {A} P (m : H A) Q Q' E : carries P m Q E → (∀ a d, Q a d → Q' a d) → carries P m Q' E.
Proof. intros Hm HQ fs d x fs' d' Hd Ex. specialize (Hm _ _ _ _ _ Hd Ex). destruct x; auto. Qed.
Lemma carries_quiet {A} P (m : H A) E : keeps eq m → (∀ d, P d → E d) → carries P m (λ _, P) E.
Proof. intros Hm HE fs d x fs' d' Hd Ex. specialize (Hm fs d). rewrite Ex in Hm. cbn in Hm. subst. destruct x; auto. Qed.
Lemma carries_require P b s e E : (∀ d, P d → E d) → carries P (require b (WriteError s e)) (λ _ d, P d ∧ b = true) E.
Proof. intros HE. destruct b; [apply carries_ret|apply carries_answer]; auto. Qed.
Lemma carries_valid {A} P (r : result A) E : (∀ d, P d → E d) → carries P (valid r) (λ a d, P d ∧ r = Ok a) E.
Proof. intros HE. destruct r; [apply carries_ret|apply carries_answer]; auto. Qed.
Lemma carries_one {A} P kind (f : DB → result (A * DB)) Q E :
  (∀ d, P d → E d) → (∀ d a d', P d → f d = Ok (a, d') → Q a d' ∧ E d') → carries P (store (one kind f)) Q E.
Proof.
  intros HE HQ fs d x fs' d' Hd Ex. unfold store, one, map_error in Ex.
  destruct (stmt f fs d) as [[r1 fs1] d1] eqn:Es. apply exec_cases in Es as [(a & -> & Ef)|[Hr Hd1]].
  - simplify_eq. by eapply HQ.
  - destruct r1 as [|e]; [done|].
    assert (E d1) as HE1 by (destruct Hd1 as [->|[a Ef]]; [by auto|by eapply HQ]).
    pose proof (keeps_store_error eq (A := A) (adminError kind e) fs1 d1) as Hk. rewrite Ex in Hk. cbn in Hk. subst d'.
    destruct x as [|a]; [done|]. exfalso. unfold writeStoreError in Ex. repeat case_match; discriminate Ex.
Qed.
Lemma carries_exec P (f : DB → result (bool * DB)) E :
  (∀ d, P d → E d) → (∀ d a d', P d → f d = Ok (a, d') → E d') → carries P (store (exec_delete f)) (λ _, E) E.
Proof.
  intros HE HQ fs d x fs' d' Hd Ex. unfold store, exec_delete, map_error in Ex. unfold mbind, M_bind in Ex.
  destruct (stmt f fs d) as [[r1 fs1] d1] eqn:Es.
  assert (E d1) as HE1.
  { apply exec_cases in Es as [(a & _ & Ef)|[_ [->|[a Ef]]]]; [by eapply HQ|by auto|by eapply HQ]. }
  assert (∃ x, (x, fs', d') = (x, fs1, d1) ∨ ∃ e, writeStoreError (A := ()) e fs1 d1 = (x, fs', d')) as (y & [[= -> ->]|(e & Ey)]).
  { destruct r1 as [[]|e]; [exists x; left; by injection Ex as <- <- <-|exists x; right; exists ErrNotFound; exact Ex|exists x; right; eexists; exact Ex]. }
  - by destruct x.
  - pose proof (keeps_store_error eq (A := ()) e fs1 d1) as Hk. rewrite Ey in Hk. cbn in Hk. subst d'. by destruct x.
Qed.
Lemma carries_run P (m : H Response) E fs d : P d → carries P m (λ _, E) E → E (run m fs d).2.
Proof. intros Hd Hm. unfold run. destruct (m fs d) as [[x fs'] d'] eqn:Ex. specialize (Hm _ _ _ _ _ Hd Ex). by destruct x. Qed.
End Carries.

(** *** Members *)

(** What principal [p] may do to the members' table in one request. *)
Definition managed (p : Principal) (u u' : gmap pk User) : Prop := ∀ k, u !! k ≠ u' !! k →
  k.1 = Principal_CompanyID p ∧
  match u !! k, u' !! k with
  | Some a, Some b =>
      CanManageRole (Principal_Role p) (User_Role a) = true ∧
      (User_Role b = User_Role a ∨
       CanManageRole (Principal_Role p) (User_Role b) = true ∧ Valid (User_Role b) = true ∧
       (k.2 = Principal_UserID p → User_Role b = Principal_Role p))
  | Some a, None => CanManageRole (Principal_Role p) (User_Role a) = true ∧ k.2 ≠ Principal_UserID p
  | None, Some b => CanManageRole (Principal_Role p) (User_Role b) = true ∧ Valid (User_Role b) = true
  | None, None => True
  end.
Lemma managed_refl p u : managed p u u.
Proof. done. Qed.
Lemma managed_insert p u id x :
  (match u !! (Principal_CompanyID p, id) with
   | Some a => CanManageRole (Principal_Role p) (User_Role a) = true ∧
       (User_Role x = User_Role a ∨ CanManageRole (Principal_Role p) (User_Role x) = true ∧ Valid (User_Role x) = true ∧
         (id = Principal_UserID p → User_Role x = Principal_Role p))
   | None => CanManageRole (Principal_Role p) (User_Role x) = true ∧ Valid (User_Role x) = true
   end) → managed p u (<[(Principal_CompanyID p, id) := x]> u).
Proof.
  intros Hx k Hk. destruct (decide (k = (Principal_CompanyID p, id))) as [->|Hn].
  - rewrite lookup_insert_eq. split; [done|]. by destruct (u !! _).
  - by rewrite lookup_insert_ne in Hk.
Qed.
Lemma managed_delete p u id a : u !! (Principal_CompanyID p, id) = Some a →
  CanManageRole (Principal_Role p) (User_Role a) = true → id ≠ Principal_UserID p →
  managed p u (delete (Principal_CompanyID p, id) u).
Proof.
  intros Ea Hm Hid k Hk. destruct (decide (k = (Principal_CompanyID p, id))) as [->|Hn].
  - rewrite lookup_delete_eq, Ea. done.
  - by rewrite lookup_delete_ne in Hk.
Qed.

Definition same_users (d d' : DB) : Prop := users d' = users d.
#[export] Instance same_users_preorder : PreOrder same_users.
Proof. split; [done|]. intros d1 d2 d3 H1 H2. unfold same_users in *. congruence. Qed.

(** A statement that changes some tables only. *)
Ltac effect_tac := intros ? ? ? ?; 
  unfold get_company, update_company, list_users, get_user, create_user, update_user, delete_user, list_interviews,
    get_interview, create_interview, update_interview, request_erasure, list_tasks, get_task, create_task, update_task,
    delete_task, create_invite, list_scores, decide_score, list_policies, set_policy, check_interview, check_task,
    task_references, check in *;
  repeat case_match; try discriminate; inv_bind; simplify_eq/=.
Ltac by_class tac := tac; try (typeclasses eauto).
Ltac keeps_tac :=
  repeat (first
    [ by_class ltac:(apply keeps_bind); [|intros ?] | apply keeps_ret; typeclasses eauto | apply keeps_answer; typeclasses eauto
    | apply keeps_valid; typeclasses eauto | by_class ltac:(apply keeps_require); apply keeps_answer; typeclasses eauto
    | apply keeps_valid_opt; typeclasses eauto | apply keeps_grantable; typeclasses eauto
    | by_class ltac:(apply keeps_store); unfold AdminStore.CreateInvite, AdminStore.DecideScore; autounfold with admin
    | progress case_match ]);
  repeat (first
    [ by_class ltac:(apply stays_one) | by_class ltac:(apply stays_collect) | by_class ltac:(apply stays_exec_delete)
    | by_class ltac:(apply stays_bind); [|intros ?] | apply stays_ret; typeclasses eauto
    | apply stays_lift; typeclasses eauto ]);
  try done; try effect_tac.
Ltac unfold_handlers :=
  unfold getCompany, updateCompany, listUsers, createUser, getUser, updateUser, updateUser_check, updateUser_write,
    deleteUser, deleteUser_check, deleteUser_write, listInterviews,
    createInterview, getInterview, updateInterview, eraseInterview, listScores, decideScore, listTasks, createTask,
    getTask, updateTask, deleteTask, createInvite, listPolicies, setPolicy, decode, pathID, queryLimit, query_id,
    patch_role, invite_role, invite_ttl.

Definition changes_users (route : Route) : bool :=
  match route with PostUsers | PatchUser | DeleteUser => true | _ => false end.

Section Members.
#[local] Arguments Valid : simpl never.
#[local] Arguments CanManageRole : simpl never.
Context `{uuids : UuidLib} (ParseIP : string → bool) (ToLower : string → string).
Context (runs_out : string → bool) (text_less : string → string → bool) (db_now : time) (cfg : Config).
Notation Serve := (serve ParseIP ToLower runs_out text_less db_now cfg).
Notation Routes := (routes ParseIP ToLower runs_out text_less db_now cfg).

Lemma users_untouched route p r : changes_users route = false → keeps same_users ((Routes route).2 p r).
Proof.
  intros Hr. destruct route; try discriminate Hr; cbn -[PolicyDefault]; unfold_handlers; keeps_tac; done.
Qed.

Lemma grantable_carries p role P (E : DB → Prop) : (∀ d, P d → E d) →
  carries P (grantable p role) (λ _ d, P d ∧ Valid role = true ∧ CanManageRole (Principal_Role p) role = true) E.
Proof.
  intros HE. eapply carries_bind; [by apply carries_require|]. intros ?. cbn.
  eapply carries_weaken; [apply carries_require; intros d [? _]; by auto|]. cbn. tauto.
Qed.
Lemma patch_role_carries p id role P (E : DB → Prop) : (∀ d, P d → E d) →
  carries P (patch_role p id role) (λ role d, P d ∧ match role with
    | None => True
    | Some role => Valid role = true ∧ CanManageRole (Principal_Role p) role = true ∧
        (id = Principal_UserID p → role = Principal_Role p) end) E.
Proof.
  intros HE. destruct role as [role|]; cbn; [|by apply carries_ret].
  eapply carries_bind; [by apply grantable_carries|]. intros ?. cbn.
  eapply carries_bind; [apply carries_require; intros d [? _]; by auto|]. intros ?. cbn. apply carries_ret.
  intros d ((? & ? & ?) & Hs). split_and!; try done. intros ->. rewrite bool_decide_true in Hs by done. cbn in Hs.
  apply negb_true_iff, negb_false_iff in Hs. by apply bool_decide_eq_true in Hs.
Qed.
Lemma target_carries p id P (E : DB → Prop) : (∀ d, P d → E d) →
  carries P (store (AdminStore.GetUser (Principal_CompanyID p) id))
    (λ a d, P d ∧ users d !! (Principal_CompanyID p, id) = Some a) E.
Proof.
  intros HE. apply carries_one; [done|]. intros d a d' Hd Ef. unfold get_user in Ef. case_match; simplify_eq. auto.
Qed.

Lemma createUser_managed p r d0 :
  carries (λ d, d = d0) (createUser ParseIP ToLower runs_out db_now cfg p r) (λ _ d, managed p (users d0) (users d))
    (λ d, managed p (users d0) (users d)).
Proof.
  eapply carries_bind; [apply carries_quiet; [unfold decode; keeps_tac|by intros ? ->]|]. intros body. cbn.
  eapply carries_bind; [apply carries_valid; by intros ? ->|]. intros email. cbn.
  eapply carries_bind; [apply grantable_carries; by intros d [-> _]|]. intros ?. cbn.
  eapply carries_bind; [apply carries_valid; by intros d ([-> _] & _)|]. intros name. cbn.
  eapply carries_bind with (Q := λ _ d, managed p (users d0) (users d)); [|intros user; apply carries_ret; auto].
  apply carries_one; [by intros d (([-> _] & _) & _)|]. intros d u d' (([-> _] & Hv & Hm) & _) Ef.
  unfold create_user, check in Ef. inv_bind. simplify_eq/=. bool_prop.
  assert (users d0 !! (Principal_CompanyID p, NewID cfg) = None) as Hn.
  { apply eq_None_not_Some. by eapply bool_decide_eq_false_1. }
  split; apply managed_insert; by rewrite Hn.
Qed.

(** What the checks establish of the member they read. *)
Definition may_write (p : Principal) (id : UUID) (role : option Role) (d0 d : DB) : Prop :=
  d = d0 ∧ ∃ target, users d !! (Principal_CompanyID p, id) = Some target ∧
    CanManageRole (Principal_Role p) (User_Role target) = true ∧
    match role with
    | Some role => CanManageRole (Principal_Role p) role = true ∧ Valid role = true ∧ (id = Principal_UserID p → role = Principal_Role p)
    | None => True
    end.
Lemma updateUser_check_carries p r d0 :
  carries (λ d, d = d0) (updateUser_check runs_out p r) (λ x d, may_write p x.1 (UserPatch_Role x.2) d0 d)
    (λ d, managed p (users d0) (users d)).
Proof.
  eapply carries_bind; [apply carries_quiet; [unfold pathID; keeps_tac|by intros ? ->]|]. intros id. cbn.
  eapply carries_bind; [apply carries_quiet; [unfold decode; keeps_tac|by intros ? ->]|]. intros body. cbn.
  eapply carries_bind; [apply target_carries; by intros ? ->|]. intros target. cbn.
  eapply carries_bind; [apply carries_require; by intros d [-> _]|]. intros ?. cbn.
  eapply carries_bind; [apply carries_quiet; [keeps_tac|by intros d [[-> _] _]]|]. intros name. cbn.
  eapply carries_bind; [apply patch_role_carries; by intros d [[-> _] _]|]. intros role. cbn.
  apply carries_ret. intros d ([[-> Ht] Hm] & Hr). split; [done|]. exists target. cbn. destruct role; naive_solver.
Qed.
Lemma updateUser_managed p r d0 :
  carries (λ d, d = d0) (updateUser runs_out db_now p r) (λ _ d, managed p (users d0) (users d))
    (λ d, managed p (users d0) (users d)).
Proof.
  eapply carries_bind; [apply updateUser_check_carries|]. intros [id [name role]]. cbn [fst snd UserPatch_Role].
  eapply carries_bind with (Q := λ _ d, managed p (users d0) (users d)); [|intros user; apply carries_ret; auto].
  apply carries_one; [by intros d [-> _]|]. intros d u d' [-> (target & Ht & Hm & Hr)] Ef.
  cbn [fst snd] in Ef. unfold update_user, check in Ef. rewrite Ht in Ef. inv_bind. simplify_eq/=.
  split; apply managed_insert; rewrite Ht; (split; [done|]); cbn; destruct role; cbn; [right|by left|right|by left]; by destruct Hr as (? & ? & ?).
Qed.

Lemma deleteUser_check_carries p r d0 :
  carries (λ d, d = d0) (deleteUser_check p r) (λ id d, id ≠ Principal_UserID p ∧ may_write p id None d0 d)
    (λ d, managed p (users d0) (users d)).
Proof.
  eapply carries_bind; [apply carries_quiet; [unfold pathID; keeps_tac|by intros ? ->]|]. intros id. cbn.
  eapply carries_bind; [apply carries_require; by intros ? ->|]. intros ?. cbn.
  eapply carries_bind; [apply target_carries; by intros ? [-> _]|]. intros target. cbn.
  eapply carries_bind; [apply carries_require; by intros d [[-> _] _]|]. intros ?. cbn.
  apply carries_ret. intros d [[[-> Hid] Ht] Hm]. apply negb_true_iff, bool_decide_eq_false in Hid.
  split; [done|]. split; [done|]. by exists target.
Qed.
Lemma deleteUser_managed p r d0 :
  carries (λ d, d = d0) (deleteUser p r) (λ _ d, managed p (users d0) (users d)) (λ d, managed p (users d0) (users d)).
Proof.
  eapply carries_bind; [apply deleteUser_check_carries|]. intros id. cbn.
  eapply carries_bind with (Q := λ _ d, managed p (users d0) (users d)); [|intros user; apply carries_ret; auto].
  apply carries_exec; [by intros d (_ & -> & _)|]. intros d u d' (Hid & -> & target & Ht & Hm & _) Ef.
  unfold delete_user in Ef. case_match; simplify_eq/=; [|done]. by eapply managed_delete.
Qed.

Lemma members_managed route p r d0 fs : managed p (users d0) (users (run ((Routes route).2 p r) fs d0).2).
Proof.
  destruct (changes_users route) eqn:Hr.
  - destruct route; try discriminate Hr; eapply (carries_run (λ d, d = d0)); try done;
      [apply createUser_managed|apply updateUser_managed|apply deleteUser_managed].
  - pose proof (keeps_run same_users _ fs d0 (users_untouched route p r Hr)) as ->. apply managed_refl.
Qed.
End Members.

(** Who owns a company. *)
Definition is_owner (d : DB) (k : pk) : bool :=
  match users d !! k with Some u => bool_decide (User_Role u = RoleOwner) | None => false end.
Definition has_owner (c : UUID) (d : DB) : Prop := ∃ id, is_owner d (c, id) = true.

Lemma CanManageRole_owner actor : CanManageRole actor RoleOwner = true → actor = RoleOwner.
Proof. unfold CanManageRole. case_match; [done|]. rewrite orb_true_iff. intros [|]; by bool_prop. Qed.

(** The principal's role is the one stored. *)
Lemma resolved_role fs1 fs2 d now req p : Resolve (store_resolver fs1 fs2 d now) req = Ok p →
  ∃ u, users d !! (Principal_CompanyID p, Principal_UserID p) = Some u ∧ User_Role u = Principal_Role p.
Proof.
  intros (token & s & _ & _ & _ & _ & _ & Hc & Hr & _)%Resolve_ok. rewrite <-Hc in Hr. cbn in Hr.
  unfold result_of in Hr. destruct (AdminStore.UserRole _ _ fs2 d) as [[r1 fs'] d'] eqn:E. cbn in Hr. subst r1.
  apply on_error_ok, stmt_ok in E. unfold user_role in E. case_match; simplify_eq. eauto.
Qed.

(** A request that changes whether someone is an owner is an owner's, about
    someone else of the company. *)
Lemma managed_owner p u k (d d' : DB) : managed p (users d) (users d') →
  users d !! (Principal_CompanyID p, Principal_UserID p) = Some u → User_Role u = Principal_Role p →
  is_owner d k ≠ is_owner d' k →
  Principal_Role p = RoleOwner ∧ k.1 = Principal_CompanyID p ∧ k.2 ≠ Principal_UserID p.
Proof.
  intros Hm Hu Hr Hk. unfold is_owner in Hk. destruct (Hm k) as [Hc Hstep]; [by intros E; rewrite E in Hk|].
  destruct k as [c id]. cbn in *. subst c.
  destruct (users d !! (_, id)) as [a|] eqn:Ea, (users d' !! (_, id)) as [b|] eqn:Eb; [destruct Hstep as [Hma Hb]|destruct Hstep as [Hma Hid]|destruct Hstep as [Hmb _]|done].
  - destruct Hb as [Hb|(Hmb & _ & Hself)]; [by rewrite Hb in Hk|].
    assert (Principal_Role p = RoleOwner) as Ho by (repeat case_bool_decide; try done; apply CanManageRole_owner; congruence).
    split_and!; try done. intros ->. specialize (Hself eq_refl). rewrite Ea in Hu. simplify_eq. rewrite Hself, Hr in Hk. done.
  - split_and!; try done. apply CanManageRole_owner. case_bool_decide; [congruence|done].
  - assert (Principal_Role p = RoleOwner) as Ho by (apply CanManageRole_owner; case_bool_decide; [congruence|done]).
    split_and!; try done. intros ->. by rewrite Ea in Hu.
Qed.

Section Owners.
Context `{uuids : UuidLib} (ParseIP : string → bool) (ToLower : string → string).
Context (runs_out : string → bool) (text_less : string → string → bool) (db_now : time) (cfg : Config).
Notation Serve := (serve ParseIP ToLower runs_out text_less db_now cfg).

(** C25: a company keeps its owners, as long as requests are served one at a
    time.  A request (authenticated against the database it is served on,
    whatever fails on the way, and with nobody else writing while it is served)
    that changes whether a member is an owner - a promotion, a demotion, a
    removal, a new member - is made by an owner of that company, about someone
    else.  So a company that has an owner has one after every such request.
    Requests served at the same time can leave a company without one, see
    [crossing_demotions]. *)
Theorem company_keeps_owner fs1 fs2 now route r fs d :
  let resolve := Resolve (store_resolver fs1 fs2 d now) in
  let d' := (Serve resolve route r fs d).2 in
  (∀ k, is_owner d k ≠ is_owner d' k → ∃ p, resolve (r_auth r) = Ok p ∧ Principal_Role p = RoleOwner ∧
     is_owner d (Principal_CompanyID p, Principal_UserID p) = true ∧
     k.1 = Principal_CompanyID p ∧ k.2 ≠ Principal_UserID p) ∧
  (∀ c, has_owner c d → has_owner c d').
Proof.
  intros resolve d'. assert (∀ k, is_owner d k ≠ is_owner d' k → ∃ p, resolve (r_auth r) = Ok p ∧ Principal_Role p = RoleOwner ∧
     is_owner d (Principal_CompanyID p, Principal_UserID p) = true ∧
     k.1 = Principal_CompanyID p ∧ k.2 ≠ Principal_UserID p) as H.
  { intros k Hk. destruct (serve_cases ParseIP ToLower runs_out text_less db_now cfg resolve route r)
      as [(p & Hp & _ & Hs)|(e & Hs & _)]; [|subst d'; by rewrite Hs in Hk].
    destruct (resolved_role _ _ _ _ _ _ Hp) as (u & Hu & Hr).
    destruct (managed_owner p u k d d') as (Ho & ? & ?); try done.
    - subst d'. rewrite Hs. apply members_managed.
    - exists p. unfold is_owner at 1. rewrite Hu, Hr, Ho. by split_and!. }
  split; [done|]. intros c [id Hid]. destruct (is_owner d' (c, id)) eqn:E; [by exists id|].
  destruct (H (c, id)) as (p & Hp & _ & Ho & Hc & Hn); [by rewrite Hid, E|]. cbn in Hc. subst c.
  exists (Principal_UserID p). destruct (is_owner d' (_, Principal_UserID p)) eqn:E'; [done|].
  destruct (H (Principal_CompanyID p, Principal_UserID p)) as (p' & Hp' & _ & _ & _ & Hn'); [by rewrite Ho, E'|].
  cbn in Hn'. congruence.
Qed.
End Owners.

(** *** Steps of a table

    No row goes; each kept row takes a [step], each new one is a [new] one. *)
Section RowsStep.
Context {A : Type} (step : pk → A → A → Prop) (new : A → Prop).
Definition rows_step (m m' : gmap pk A) : Prop := ∀ k,
  match m !! k, m' !! k with
  | Some a, Some b => step k a b
  | Some _, None => False
  | None, Some b => new b
  | None, None => True
  end.
Context (step_refl : ∀ k a, step k a a) (step_trans : ∀ k a b x, step k a b → step k b x → step k a x).
Context (step_new : ∀ k a b, new a → step k a b → new b).
Lemma rows_step_refl m : rows_step m m.
Proof. intros k. by destruct (m !! k). Qed.
Lemma rows_step_trans m1 m2 m3 : rows_step m1 m2 → rows_step m2 m3 → rows_step m1 m3.
Proof. intros H1 H2 k. specialize (H1 k). specialize (H2 k). repeat case_match; try done; eauto. Qed.
Lemma rows_step_insert m k a b : m !! k = Some a → step k a b → rows_step m (<[k := b]> m).
Proof.
  intros Ha Hs j. destruct (decide (j = k)) as [->|]; [by rewrite lookup_insert_eq, Ha|].
  rewrite lookup_insert_ne by done. apply rows_step_refl.
Qed.
Lemma rows_step_new m k b : m !! k = None → new b → rows_step m (<[k := b]> m).
Proof.
  intros Ha Hs j. destruct (decide (j = k)) as [->|]; [by rewrite lookup_insert_eq, Ha|].
  rewrite lookup_insert_ne by done. apply rows_step_refl.
Qed.
Lemma rows_step_update m c f : (∀ k a, step k a (f a)) → rows_step m (update_own c f m).
Proof.
  intros Hf k. unfold update_own. rewrite map_lookup_imap. destruct (m !! k); cbn; [|done]. by case_decide.
Qed.
End RowsStep.
Lemma exists_row_false {K A} `{Countable K} (m : gmap K A) k : exists_row m k = false → m !! k = None.
Proof. intros Hn%bool_decide_eq_false. by apply eq_None_not_Some. Qed.

(** What the Admin API may do to an interview: the marks of its end and of the
    erasure request are set once, and the columns of the sequence, the legal
    hold and the purge are not its to change. *)
Definition once {A} (a b : option A) : Prop := match a with Some _ => b = a | None => True end.
Definition interview_step (k : pk) (a b : Interview) : Prop :=
  Interview_ID b = Interview_ID a ∧ Interview_CompanyID b = Interview_CompanyID a ∧
  Interview_LegalHold b = Interview_LegalHold a ∧ Interview_PurgedAt b = Interview_PurgedAt a ∧
  Interview_LastSequenceNumber b = Interview_LastSequenceNumber a ∧ Interview_CreatedAt b = Interview_CreatedAt a ∧
  once (Interview_TerminalAt a) (Interview_TerminalAt b) ∧
  once (Interview_EraseRequestedAt a) (Interview_EraseRequestedAt b).
Definition new_interview (i : Interview) : Prop :=
  Interview_LegalHold i = false ∧ Interview_PurgedAt i = None ∧ Interview_LastSequenceNumber i = 0.
Definition interviews_step (d d' : DB) : Prop :=
  rows_step interview_step new_interview (t_interviews (base d)) (t_interviews (base d')).
Lemma once_refl {A} (a : option A) : once a a.
Proof. by destruct a. Qed.
Lemma once_trans {A} (a b x : option A) : once a b → once b x → once a x.
Proof. destruct a; cbn; [|done]. by intros ->. Qed.
Lemma once_coalesce {A} (a b : option A) : once a (coalesce a b).
Proof. by destruct a. Qed.
Lemma interview_step_refl k a : interview_step k a a.
Proof. by repeat split; try apply once_refl. Qed.
#[export] Instance interviews_step_preorder : PreOrder interviews_step.
Proof.
  split.
  - intros d. apply rows_step_refl, interview_step_refl.
  - intros d1 d2 d3. apply rows_step_trans.
    + intros k a b x (?&?&?&?&?&?&Ht&He) (?&?&?&?&?&?&Ht'&He'). split_and!; try congruence; by eapply once_trans.
    + intros k a b (?&?&?) (?&?&?&?&?&?&?&?). split_and!; congruence.
Qed.

Section Interviews.
Context `{uuids : UuidLib} (ParseIP : string → bool) (ToLower : string → string).
Context (runs_out : string → bool) (text_less : string → string → bool) (db_now : time) (cfg : Config).
Notation Routes := (routes ParseIP ToLower runs_out text_less db_now cfg).

Lemma handler_interviews route p r : keeps interviews_step ((Routes route).2 p r).
Proof.
  destruct route; cbn -[PolicyDefault]; unfold_handlers; keeps_tac; unfold interviews_step in *; cbn;
    try (apply rows_step_refl, interview_step_refl);
    first [ eapply rows_step_update | eapply rows_step_insert; [apply interview_step_refl|done|]
          | bool_prop; eapply rows_step_new; [apply interview_step_refl|by apply exists_row_false|done] ];
    intros; repeat split; cbn; first [apply once_coalesce|apply once_refl].
Qed.
End Interviews.

(** What the Admin API may do to a score: what was proposed stays; the decision
    stays too (a decider who is removed is forgotten), or becomes [p]'s. *)
Definition same_proposal (a b : Domain.Score) : Prop :=
  Score_ID b = Score_ID a ∧ Domain.Score_CompanyID b = Domain.Score_CompanyID a ∧
  Domain.Score_InterviewID b = Domain.Score_InterviewID a ∧ Score_Dimension b = Score_Dimension a ∧
  Score_ProposedValue b = Score_ProposedValue a ∧ Score_Rationale b = Score_Rationale a ∧
  Score_CreatedAt b = Score_CreatedAt a.
Definition same_decision (a b : Domain.Score) : Prop :=
  Score_Status b = Score_Status a ∧ Score_FinalValue b = Score_FinalValue a ∧
  Score_DecisionNote b = Score_DecisionNote a ∧ Score_DecidedAt b = Score_DecidedAt a ∧
  (Score_DecidedBy b = Score_DecidedBy a ∨ Score_DecidedBy b = None).
(** The score a request decides on, the status and the value it gives. *)
Definition asked : Type := UUID * string * option float64.
Definition human_decision (a : asked) (p : Principal) (k : pk) (b : Domain.Score) : Prop :=
  let '(score, status, value) := a in
  k = (Principal_CompanyID p, score) ∧ Score_Status b = status ∧ (Score_DecidedBy b = Some (Principal_UserID p) ∨ Score_DecidedBy b = None) ∧
  (status = ScoreStatusHumanApproved ∧ Score_FinalValue b = Some (Score_ProposedValue b) ∨
   status = ScoreStatusHumanRejected ∧ Score_FinalValue b = None ∨
   status = ScoreStatusHumanAdjusted ∧ is_Some value ∧ Score_FinalValue b = value).
Definition score_step (allowed : option asked) (p : Principal) (k : pk) (a b : Domain.Score) : Prop :=
  same_proposal a b ∧ (same_decision a b ∨ ∃ x, allowed = Some x ∧ human_decision x p k b).
Definition scores_step (allowed : option asked) (p : Principal) (d d' : DB) : Prop :=
  rows_step (score_step allowed p) (λ _, False) (t_interview_scores (base d)) (t_interview_scores (base d')).
Lemma score_step_refl allowed p k a : score_step allowed p k a a.
Proof. split; [done|]. left. split_and!; auto. Qed.
#[export] Instance scores_step_preorder allowed p : PreOrder (scores_step allowed p).
Proof.
  split.
  - intros d. apply rows_step_refl, score_step_refl.
  - intros d1 d2 d3. apply rows_step_trans; [|done]. intros k a b x [Hp Hd] [Hp' Hd'].
    unfold same_proposal in *. destruct_and!. split; [split_and!; congruence|].
    destruct Hd' as [(Es & Ef & En & Ea & Eb)|Hd']; [|by right].
    destruct Hd as [(Es' & Ef' & En' & Ea' & Eb')|([[score status] value] & Hx & Hk & Est & Hb & Hs)].
    + left. split_and!; try congruence. destruct Eb as [->|]; auto.
    + right. eexists. split; [exact Hx|]. split; [exact Hk|]. rewrite Es, Ef. replace (Score_ProposedValue x) with (Score_ProposedValue b) by done.
      split; [exact Est|]. split; [|exact Hs]. destruct Eb as [->|]; auto.
Qed.

Lemma decision_final s d u : ValidateScoreDecision (Decision_Status d) (Decision_FinalValue d) = Ok u →
  Decision_Status d = ScoreStatusHumanApproved ∧ final_value s d = Some (Score_ProposedValue s) ∨
  Decision_Status d = ScoreStatusHumanRejected ∧ final_value s d = None ∨
  Decision_Status d = ScoreStatusHumanAdjusted ∧ is_Some (Decision_FinalValue d) ∧ final_value s d = Decision_FinalValue d.
Proof.
  unfold ValidateScoreDecision, final_value. destruct d as [status final note by_ at_]. cbn.
  case_bool_decide; cbn; [by auto|]. case_bool_decide; cbn.
  - subst. destruct final; [done|]. auto.
  - case_bool_decide; [|done]. subst. destruct final; [|done]. eauto.
Qed.
Lemma DecideScore_stays now p i s d : DecidedBy d = Principal_UserID p →
  stays (scores_step (Some (s, Decision_Status d, Decision_FinalValue d)) p) (AdminStore.DecideScore now (Principal_CompanyID p) i s d).
Proof.
  intros Hu fs db. unfold state_after, AdminStore.DecideScore, lift. unfold mbind, M_bind.
  destruct (ValidateScoreDecision _ _) as [u|] eqn:Hv; [|reflexivity].
  pose proof (stays_one (scores_step (Some (s, Decision_Status d, Decision_FinalValue d)) p) "score" (decide_score now (Principal_CompanyID p) i s d)) as H1.
  unfold stays, state_after in H1. apply H1. clear fs db H1. intros db b db' E.
  unfold decide_score, check in E. case_match eqn:Ea; [|done]. case_match; [|done]. inv_bind. simplify_eq/=.
  eapply rows_step_insert; [apply score_step_refl|done|]. split; [done|]. right. eexists. split; [done|].
  split; [done|]. cbn. rewrite Hu. split; [done|]. split; [by left|]. by eapply decision_final.
Qed.

Definition decides (route : Route) : bool := match route with ScoreDecisions => true | _ => false end.
Definition reads (route : Route) : bool :=
  match route with
  | GetCompany | ListUsers | GetUser | ListInterviews | GetInterview | InterviewScores | ListTasks | GetTask | ListPolicies => true
  | _ => false
  end.

Section Scores.
Context `{uuids : UuidLib} (ParseIP : string → bool) (ToLower : string → string).
Context (runs_out : string → bool) (text_less : string → string → bool) (db_now : time) (cfg : Config).
Notation Serve := (serve ParseIP ToLower runs_out text_less db_now cfg).
Notation Routes := (routes ParseIP ToLower runs_out text_less db_now cfg).

(** What the decision route is asked. *)
Definition asks (route : Route) (r : HttpRequest) : option asked :=
  match route with
  | ScoreDecisions =>
      score ← uuid_Parse (PathValue r "scoreId");
      body ← unmarshal_strict decisionBody_fields (parse_json (Body r)) (mkDecisionBody "" None "");
      Some (score, db_status body, db_final_value body)
  | _ => None
  end.
Lemma decideScore_scores p r : keeps (scores_step (asks ScoreDecisions r) p) (decideScore runs_out db_now cfg p r).
Proof.
  unfold decideScore, pathID, decode. by_class ltac:(apply keeps_bind); [destruct (uuid_Parse _); keeps_tac|intros interview].
  unfold asks. destruct (uuid_Parse (PathValue r "scoreId")) as [score|]; [apply keeps_ret_bind|by_class ltac:(apply keeps_answer_bind)].
  destruct (_ <=? _); [|destruct (runs_out _); by_class ltac:(apply keeps_answer_bind)].
  destruct (unmarshal_strict _ _ _) as [body|]; [apply keeps_ret_bind|by_class ltac:(apply keeps_answer_bind)].
  do 2 (by_class ltac:(apply keeps_bind); [keeps_tac|intros ?]).
  by_class ltac:(apply keeps_bind); [|intros ?; keeps_tac].
  apply keeps_store; [typeclasses eauto|]. by apply DecideScore_stays.
Qed.
Lemma handler_scores route p r : keeps (scores_step (asks route r) p) ((Routes route).2 p r).
Proof.
  destruct (decides route) eqn:Hr; [destruct route; try discriminate Hr; apply decideScore_scores|].
  destruct route; try discriminate Hr; cbn -[PolicyDefault]; unfold_handlers;
    keeps_tac; unfold scores_step in *; cbn; try (apply rows_step_refl, score_step_refl).
  apply rows_step_update; [apply score_step_refl|]. intros k s. split; [done|]. left. split_and!; try done. cbn. unfold forget. case_decide; auto.
Qed.

End Scores.

Section Reads.
Context `{uuids : UuidLib} (ParseIP : string → bool) (ToLower : string → string).
Context (runs_out : string → bool) (text_less : string → string → bool) (db_now : time) (cfg : Config).
Notation Serve := (serve ParseIP ToLower runs_out text_less db_now cfg).
Notation Routes := (routes ParseIP ToLower runs_out text_less db_now cfg).
Lemma handler_reads route p r : reads route = true → keeps eq ((Routes route).2 p r).
Proof. intros Hr. destruct route; try discriminate Hr; cbn; unfold_handlers; keeps_tac; done. Qed.
End Reads.

Section Served.
Context `{uuids : UuidLib} (ParseIP : string → bool) (ToLower : string → string).
Context (runs_out : string → bool) (text_less : string → string → bool) (db_now : time) (cfg : Config).
Notation Serve := (serve ParseIP ToLower runs_out text_less db_now cfg).
Notation Routes := (routes ParseIP ToLower runs_out text_less db_now cfg).

(** What is kept by the handler of every allowed principal is kept by the
    server. *)
Lemma serve_keeps (R : DB → DB → Prop) `{!PreOrder R} resolve route r fs d :
  (∀ p, resolve (r_auth r) = Ok p → Principal_Can p (Routes route).1 = true → keeps R ((Routes route).2 p r)) →
  R d (Serve resolve route r fs d).2.
Proof.
  intros H. destruct (serve_cases ParseIP ToLower runs_out text_less db_now cfg resolve route r)
    as [(p & Hp & Hcan & ->)|(e & -> & _)]; [|reflexivity]. apply keeps_run; auto.
Qed.

(** Reading changes nothing, and neither do viewers.  A request by a
    reading route, or of a principal whose role is viewer, or one that is not
    authenticated or not allowed, leaves the database as it is. *)
Theorem readers_change_nothing resolve route r fs d :
  (reads route = true ∨ ∀ p, resolve (r_auth r) = Ok p →
     Principal_Role p = RoleViewer ∨ Principal_Can p (Routes route).1 = false) →
  (Serve resolve route r fs d).2 = d.
Proof.
  intros Hr. symmetry. apply (serve_keeps eq). intros p Hp Hcan.
  destruct (reads route) eqn:E; [by apply handler_reads|]. exfalso. destruct Hr as [|Hr]; [done|].
  destruct (Hr p Hp) as [Hv|Hn]; [|congruence]. unfold Principal_Can in Hcan. rewrite Hv in Hcan.
  destruct route; try discriminate E; vm_compute in Hcan; discriminate.
Qed.

(** Interviews keep their marks.  Whatever is asked, no interview is
    deleted; the time it ended and the time its erasure was first requested,
    once set, never change; and its legal hold, purge mark and event sequence
    are never touched. *)
Theorem interview_marks_kept resolve route r fs d k a :
  t_interviews (base d) !! k = Some a →
  ∃ b, t_interviews (base (Serve resolve route r fs d).2) !! k = Some b ∧ interview_step k a b.
Proof.
  intros Ha. pose proof (serve_keeps interviews_step resolve route r fs d (λ p _ _, handler_interviews _ _ _ _ _ _ _ p r) k) as H.
  rewrite Ha in H. case_match; [eauto|done].
Qed.

(** C35: score decisions are a human's.  No request creates or deletes a score
    or changes what was proposed.  A decision changes only by the decision
    route, for the score the request names, on behalf of a member of the
    company whose role may approve scores, to the status the request gives:
    approved with the proposed value, rejected with none, or adjusted with
    exactly the value the member gave - or a removed member is forgotten as its
    author. *)
Theorem decisions_are_human resolve route r fs d k :
  match t_interview_scores (base d) !! k, t_interview_scores (base (Serve resolve route r fs d).2) !! k with
  | None, None => True
  | Some a, Some b => same_proposal a b ∧
      (same_decision a b ∨
       route = ScoreDecisions ∧ ∃ p, resolve (r_auth r) = Ok p ∧ Principal_Can p PermScoresApprove = true ∧
         ∃ a, asks route r = Some a ∧ human_decision a p k b)
  | _, _ => False
  end.
Proof.
  destruct (serve_cases ParseIP ToLower runs_out text_less db_now cfg resolve route r) as [(p & Hp & Hcan & ->)|(e & -> & _)].
  - pose proof (keeps_run (scores_step (asks route r) p) _ fs d (handler_scores ParseIP ToLower runs_out text_less db_now cfg route p r) k) as H.
    repeat case_match; try done. destruct H as [Hs [|(a & Ha & Hh)]]; (split; [done|]); [by left|right].
    destruct route; try discriminate Ha. eauto 7.
  - cbn. destruct (t_interview_scores (base d) !! k) as [s|]; [|done]. split; [done|]. left. split_and!; auto.
Qed.
End Served.

(** ** Examples *)
#[local] Existing Instance BinUuid.lib.
Import AdminApi.Example.

Lemma tenants_isolated_witness :
  let patch := request (id_of 4%N) "" "{'role': 'admin'}" in
  users (Example.Serve (as_ alice) PatchUser patch [] Example.db).2 !! (1%N, 4%N)
    = Some (mkUser 4%N 1%N "v@one.org" "" RoleAdmin 0 Example.now) ∧
  ∃ resp fs' d' d2', Example.Serve (as_ alice) PatchUser patch [] Example.db = (resp, fs', d') ∧
    others_same 1%N Example.db d' ∧ Example.Serve (as_ alice) PatchUser patch [] db2 = (resp, fs', d2').
Proof.
  intros patch. split; [vm_compute; reflexivity|].
  destruct (Example.Serve (as_ alice) PatchUser patch [] Example.db) as [[resp fs'] d'] eqn:E.
  destruct (tenants_isolated _ _ _ _ _ _ _ _ _ _ _ _ _ _ 1%N E) as [H1 H2].
  - intros p [= <-]. reflexivity.
  - intros token [= <-]. vm_compute. reflexivity.
  - destruct (H2 db2) as (d2' & H3 & _).
    + vm_compute. reflexivity.
    + intros token [= <-]. vm_compute. reflexivity.
    + exists resp, fs', d', d2'. split; [reflexivity|]. split; [exact H1|exact H3].
Defined.

Lemma company_keeps_owner_witness :
  let demote := request (id_of 2%N) "" "{'role': 'viewer'}" in
  let d' := (Example.Serve (Resolve (store_resolver [] [] Example.db Example.now)) PatchUser demote [] Example.db).2 in
  is_owner Example.db (1%N, 2%N) = true ∧ is_owner d' (1%N, 2%N) = false ∧ has_owner 1%N d' ∧
  ∃ p, Resolve (store_resolver [] [] Example.db Example.now) (mkRequest "Bearer alice") = Ok p ∧ Principal_Role p = RoleOwner.
Proof.
  intros demote d'. split; [vm_compute; reflexivity|]. split; [vm_compute; reflexivity|].
  pose proof (company_keeps_owner any_ip to_lower never bytes_less Example.now Example.cfg [] [] Example.now PatchUser demote [] Example.db)
    as [H1 H2]. split.
  - apply H2. exists 1%N. vm_compute. reflexivity.
  - destruct (H1 (1%N, 2%N)) as (p & Hp & Ho & _); [vm_compute; discriminate|]. exists p. split; [exact Hp|exact Ho].
Defined.

(** Two owners demote each other, each request checked before the other writes:
    both checks pass, both writes succeed, and the company has no owner left.
    The two removals do the same. *)
Definition bob : Principal := mkPrincipal 1%N 2%N RoleOwner.
Definition crossing {A} (check1 check2 : H A) (write1 write2 : A → H Response) (d : DB) : option (Response * Response * DB) :=
  match check1 [] d with
  | (inr x1, _, d) =>
      match check2 [] d with
      | (inr x2, _, d) =>
          let '(r1, _, d) := run (write1 x1) [] d in
          let '(r2, _, d) := run (write2 x2) [] d in Some (r1, r2, d)
      | _ => None
      end
  | _ => None
  end.
Definition no_owner (c : UUID) (d : DB) : bool :=
  forallb (λ kv, negb (bool_decide (kv.1.1 = c)) || negb (bool_decide (User_Role kv.2 = RoleOwner))) (map_to_list (users d)).
Lemma no_owner_spec c d : no_owner c d = true → ¬ has_owner c d.
Proof.
  intros H [id Ho]. unfold is_owner in Ho. destruct (users d !! (c, id)) as [u|] eqn:E; [|done].
  apply elem_of_map_to_list, list_elem_of_In in E.
  pose proof (proj1 (forallb_forall _ _) H _ E) as Hn. cbn in Hn. by rewrite bool_decide_eq_true_2, Ho in Hn by done.
Qed.
Theorem crossing_demotions :
  let demote id := request (id_of id) "" "{'role': 'viewer'}" in
  let remove id := request (id_of id) "" "" in
  has_owner 1%N Example.db ∧
  (∃ r1 r2 d', crossing (updateUser_check never alice (demote 2%N)) (updateUser_check never bob (demote 1%N))
     (updateUser_write Example.now alice) (updateUser_write Example.now bob) Example.db = Some (r1, r2, d') ∧ ¬ has_owner 1%N d') ∧
  (∃ r1 r2 d', crossing (deleteUser_check alice (remove 2%N)) (deleteUser_check bob (remove 1%N))
     (deleteUser_write alice) (deleteUser_write bob) Example.db = Some (r1, r2, d') ∧ ¬ has_owner 1%N d').
Proof.
  cbv zeta. split; [exists 1%N; vm_compute; reflexivity|].
  split; (eexists _, _, _; split; [vm_compute; reflexivity|]); apply no_owner_spec; vm_compute; reflexivity.
Qed.

Lemma readers_change_nothing_witness :
  let erase := request (id_of 5%N) "" "" in
  (Example.Serve (as_ viewer) EraseInterview erase [] Example.db).1.1 = Failed (mkErrorBody 403 "forbidden") ∧
  (Example.Serve (as_ viewer) EraseInterview erase [] Example.db).2 = Example.db.
Proof.
  intros erase. split; [vm_compute; reflexivity|]. apply readers_change_nothing. right. intros p [= <-]. left. reflexivity.
Defined.

Lemma interview_marks_kept_witness :
  let complete := request (id_of 5%N) "" "{'status': 'completed'}" in
  ∃ b, t_interviews (base (Example.Serve (as_ alice) PatchInterview complete [] Example.db).2) !! (1%N, 5%N) = Some b ∧
    Interview_TerminalAt b = Some Example.now ∧ interview_step (1%N, 5%N) (Example.interview 1%N 5%N) b.
Proof.
  intros complete.
  destruct (interview_marks_kept any_ip to_lower never bytes_less Example.now Example.cfg (as_ alice) PatchInterview complete []
    Example.db (1%N, 5%N) (Example.interview 1%N 5%N)) as (b & Hb & Hs); [vm_compute; reflexivity|].
  exists b. split; [exact Hb|]. split; [|exact Hs]. vm_compute in Hb. injection Hb as <-. reflexivity.
Defined.

Lemma decisions_are_human_witness :
  let decide_ := request (id_of 5%N) (id_of 7%N) "{'status': 'human_adjusted', 'final_value': 3.5}" in
  ∃ a b, t_interview_scores (base Example.db) !! (1%N, 7%N) = Some a ∧
    t_interview_scores (base (Example.Serve (as_ alice) ScoreDecisions decide_ [] Example.db).2) !! (1%N, 7%N) = Some b ∧
    Score_Status b = ScoreStatusHumanAdjusted ∧ same_proposal a b.
Proof.
  intros decide_.
  pose proof (decisions_are_human any_ip to_lower never bytes_less Example.now Example.cfg (as_ alice) ScoreDecisions decide_ []
    Example.db (1%N, 7%N)) as H.
  eexists (Example.score 1%N 7%N 5%N), _. split; [vm_compute; reflexivity|]. split; [vm_compute; reflexivity|].
  split; [reflexivity|]. vm_compute in H. exact (proj1 H).
Defined.
