(* ===== verification/AdminFlows.v ===== *)
(** * Admin API flows: invites and policies

    What a member gets from [POST /invites] - bounds, roles, and that the raw
    token opens exactly the invited interview's workspace
    ([Store.consume_invite]) - and that the policies the API lists are the ones
    the store enforces. *)
From S2P Require Import Prelude Str GoTime Sha256 Json JsonText Rfc3339 Codec Tx Domain Rbac Store AdminStore AdminApi AdminSafety.

(** Early answers are errors. *)
Definition early_failed {A} (m : H A) : Prop := ∀ fs d r fs' d', m fs d = (inl r, fs', d') → ∃ e, r = Failed e.
Lemma early_ret {A} (a : A) : early_failed (mret a).
Proof. done. Qed.
Lemma early_error {A} s e : early_failed (WriteError s e : H A).
Proof. intros fs d r fs' d' [= <- <- <-]. eauto. Qed.
Lemma early_bind {A B} (m : H A) (f : A → H B) : early_failed m → (∀ a, early_failed (f a)) → early_failed (m ≫= f).
Proof.
  intros Hm Hf fs d r fs' d' E. unfold mbind, H_bind in E. destruct (m fs d) as [[[x|a] fs1] d1] eqn:Em.
  - simplify_eq. by eapply Hm.
  - by eapply Hf.
Qed.
Lemma early_store {A} (m : M DB A) : early_failed (store m).
Proof.
  intros fs d r fs' d' E. unfold store in E. destruct (m fs d) as [[[a|e] fs1] d1]; [done|].
  unfold writeStoreError in E. repeat case_match; injection E as <- _ _; eauto.
Qed.
Lemma early_valid {A} (r : result A) : early_failed (valid r).
Proof. destruct r; [apply early_ret|apply early_error]. Qed.
Lemma early_require b s e : early_failed (require b (WriteError s e)).
Proof. destruct b; [apply early_ret|apply early_error]. Qed.
#[export] Hint Resolve early_ret early_error early_bind early_store early_valid early_require : early.

(** The store's binds are the handler's. *)
Lemma store_bind {A B} (m : M DB A) (f : A → M DB B) fs d : store (m ≫= f) fs d = (store m ≫= λ a, store (f a)) fs d.
Proof.
  unfold store, mbind, H_bind, M_bind. destruct (m fs d) as [[[a|e] fs1] d1]; [done|].
  unfold writeStoreError. repeat (destruct (errors_is e _); [done|]). done.
Qed.
Lemma carries_store_bind {A B} P (m : M DB A) (f : A → M DB B) Q Q' E :
  carries P (store m) Q E → (∀ a, carries (Q a) (store (f a)) Q' E) → carries P (store (m ≫= f)) Q' E.
Proof. intros Hm Hf fs d x fs' d' Hd Ex. rewrite store_bind in Ex. exact (carries_bind _ _ _ _ _ _ Hm Hf _ _ _ _ _ Hd Ex). Qed.

Section Invites.
Context `{uuids : UuidLib} (ParseIP : string → bool) (ToLower : string → string).
Context (runs_out : string → bool) (text_less : string → string → bool) (db_now : time).

(** What a request asks for. *)
Definition invite_body (r : HttpRequest) : option inviteBody :=
  unmarshal_strict inviteBody_fields (parse_json (Body r)) (mkInviteBody "" "" None 0).

(** An invite of principal [p] for request [r], and the row it leaves. *)
Definition invite_spec (cfg : Config) (p : Principal) (r : HttpRequest) (d : DB) (v : inviteView) (d' : DB) : Prop :=
  ∃ body email ttl,
    invite_body r = Some body ∧
    ValidEmail ParseIP ToLower (nb_email body) = Ok email ∧ NewToken cfg = Ok (nv_token v) ∧
    (if ExpiresIn body =? 0 then ttl = InviteTTL cfg
     else 0 < ExpiresIn body ∧ ttl = mul64 (ExpiresIn body) second ∧ ttl ≤ maxInviteTTL) ∧
    nv_id v = NewID cfg ∧ nv_email v = email ∧ nv_interview_id v = nb_interview_id body ∧
    nv_expires_at v = cfg_Now cfg + ttl ∧
    (nv_interview_id v = None ∧ Valid (nv_role v) = true ∧ CanManageRole (Principal_Role p) (nv_role v) = true ∧
       Principal_Can p PermInvitesMember = true ∨
     nv_role v = candidateRole ∧ ∃ interview, nv_interview_id v = Some interview ∧
       is_Some (t_interviews (base d) !! (Principal_CompanyID p, interview))) ∧
    hash_taken (HashToken (nv_token v)) d = false ∧
    d' = set_base (set_invites <[(Principal_CompanyID p, nv_id v) :=
      mkInvite (nv_id v) (Principal_CompanyID p) (nv_interview_id v) (Some (Principal_UserID p)) email (nv_role v)
        (HashToken (nv_token v)) (nv_expires_at v) None db_now]>) d.

Lemma decode_carries {T} (fields : list (field T)) zero r P (E : DB → Prop) : (∀ d, P d → E d) →
  carries P (decode runs_out fields zero r) (λ body d, P d ∧ unmarshal_strict fields (parse_json (Body r)) zero = Some body) E.
Proof.
  intros HE. unfold decode. repeat case_match; try by apply carries_answer. by apply carries_ret.
Qed.
Lemma invite_role_carries p body P : 
  carries P (invite_role p body) (λ role d, P d ∧
    (nb_interview_id body = None ∧ Valid role = true ∧ CanManageRole (Principal_Role p) role = true ∧
       Principal_Can p PermInvitesMember = true ∨
     role = candidateRole ∧ is_Some (nb_interview_id body))) (λ _, True).
Proof.
  unfold invite_role. destruct (nb_interview_id body) as [i|].
  - eapply carries_bind; [by apply carries_require|]. intros ?. apply carries_ret. intros d [? _]. eauto 10.
  - eapply carries_bind; [by apply carries_require|]. intros ?. cbn.
    eapply carries_bind; [by apply grantable_carries|]. intros ?. apply carries_ret. cbn. intros d ((? & ?) & ? & ?). auto 10.
Qed.
Lemma invite_ttl_carries cfg body P :
  carries P (invite_ttl cfg body) (λ ttl d, P d ∧
    if ExpiresIn body =? 0 then ttl = InviteTTL cfg
    else 0 < ExpiresIn body ∧ ttl = mul64 (ExpiresIn body) second ∧ ttl ≤ maxInviteTTL) (λ _, True).
Proof.
  unfold invite_ttl. destruct (ExpiresIn body =? 0) eqn:E0; [by apply carries_ret|].
  eapply carries_bind; [by apply carries_require|]. intros ?. apply carries_ret. cbn. intros d [? Hb]. bool_prop. split_and!; try done; lia.
Qed.

Lemma createInvite_carries cfg p r d0 :
  carries (λ d, d = d0) (createInvite ParseIP ToLower runs_out db_now cfg p r)
    (λ resp d, ∃ v, resp = JSON 201 (InviteBody v) ∧ invite_spec cfg p r d0 v d) (λ _, True).
Proof.
  eapply carries_bind; [by apply decode_carries|]. intros body. cbn.
  eapply carries_bind; [by apply carries_valid|]. intros email. cbn.
  eapply carries_bind; [apply invite_role_carries|]. intros role. cbn.
  eapply carries_bind; [apply invite_ttl_carries|]. intros ttl. cbn.
  destruct (NewToken cfg) as [token|] eqn:Et; [|by apply carries_answer].
  eapply carries_bind with (Q := λ i d, invite_spec cfg p r d0
    (mkInviteView (Invite_ID i) (Invite_Email i) (Invite_Role i) (Invite_InterviewID i) (Invite_ExpiresAt i) token) d);
    [|intros i; apply carries_ret; eauto].
  eapply carries_store_bind with (Q := λ _ d, _); [apply carries_one; [done|]|intros created; apply carries_ret; intros d Hd; exact Hd].
  cbn. intros d created d' [[[[-> Hb] He] Hr] Ht] Ef. split; [|done].
  unfold create_invite, check in Ef. inv_bind. simplify_eq/=. bool_prop.
  exists body, email, ttl. cbn. split_and!; try done.
  destruct Hr as [(-> & ?)|(-> & [i Hi])]; [by left|right]. split; [done|]. exists i. split; [done|].
  rewrite Hi in *. cbn in *. by eapply bool_decide_eq_true_1.
Qed.
End Invites.

Lemma find_map_unique {K A} `{Countable K} (p : K * A → bool) (m : gmap K A) k x :
  m !! k = Some x → p (k, x) = true → (∀ k' x', m !! k' = Some x' → p (k', x') = true → k' = k) →
  find p (map_to_list m) = Some (k, x).
Proof.
  intros Hk Hp Hu. destruct (find p (map_to_list m)) as [[k' x']|] eqn:E.
  - apply find_some in E as [Hin Hp']. apply list_elem_of_In, elem_of_map_to_list in Hin.
    pose proof (Hu _ _ Hin Hp') as ->. rewrite Hk in Hin. by simplify_eq.
  - apply find_none with (x := (k, x)) in E; [|by apply list_elem_of_In, elem_of_map_to_list]. congruence.
Qed.
Lemma find_map_none {K A} `{Countable K} (p : K * A → bool) (m : gmap K A) :
  (∀ k x, m !! k = Some x → p (k, x) = false) → find p (map_to_list m) = None.
Proof.
  intros Hn. destruct (find p (map_to_list m)) as [[k x]|] eqn:E; [|done].
  apply find_some in E as [Hin Hp]. apply list_elem_of_In, elem_of_map_to_list in Hin. by rewrite (Hn _ _ Hin) in Hp.
Qed.

(** The invite a hash names, alone, can be consumed until it expires, once. *)
Lemma consume_once t k i hash interview :
  t_invites t !! k = Some i → Invite_TokenHash i = hash → Invite_AcceptedAt i = None → Invite_InterviewID i = Some interview →
  (∀ k' i', t_invites t !! k' = Some i' → Invite_TokenHash i' = hash → k' = k) →
  (∀ now, now < Invite_ExpiresAt i → ∃ t', consume_invite hash now t = Ok ((Invite_ID i, Invite_CompanyID i, interview), t') ∧
     ∀ now', consume_invite hash now' t' = Err ErrNoRows) ∧
  (∀ now, Invite_ExpiresAt i ≤ now → consume_invite hash now t = Err ErrNoRows).
Proof.
  intros Hi Hh Ha Hv Hu. assert (∀ now k' i', t_invites t !! k' = Some i' → consumable hash now i' = true → k' = k) as Hc.
  { intros now k' i' Hi' Hc. unfold consumable in Hc. bool_prop. eauto. }
  split.
  - intros now Hn. unfold consume_invite. rewrite (find_map_unique _ _ k i); [|done| |by intros; eapply Hc].
    2: { unfold consumable, after. cbn. rewrite !bool_decide_true by (rewrite ?Hv; eauto). cbn. rewrite andb_true_r. by apply Z.ltb_lt. }
    rewrite Hv. eexists. split; [done|]. intros now'. cbn. rewrite find_map_none; [done|]. intros k' i'. cbn.
    destruct (decide (k' = k)) as [->|Hk]; [rewrite lookup_insert_eq; intros [= <-]|rewrite lookup_insert_ne by done; intros Hi'].
    + unfold consumable. cbn. by rewrite andb_false_r.
    + apply not_true_iff_false. intros Hc'. destruct Hk. by eapply Hc.
  - intros now Hn. unfold consume_invite. rewrite find_map_none; [done|]. intros k' i' Hi'. cbn.
    apply not_true_iff_false. intros Hc'. pose proof (Hc _ _ _ Hi' Hc') as ->. simplify_eq.
    unfold consumable, after in Hc'. bool_prop. lia.
Qed.

(** What a token opens: until it expires its hash consumes the invite, and
    nothing after that; from then on it consumes nothing. *)
Definition redeemable_once (token : string) (expires : time) (ids : UUID * UUID * UUID) (t : Tables) : Prop :=
  (∀ now, now < expires → ∃ t', consume_invite (HashToken token) now t = Ok (ids, t') ∧
     ∀ now', consume_invite (HashToken token) now' t' = Err ErrNoRows) ∧
  (∀ now, expires ≤ now → consume_invite (HashToken token) now t = Err ErrNoRows).

Section Issued.
Context `{uuids : UuidLib} (ParseIP : string → bool) (ToLower : string → string).
Context (runs_out : string → bool) (text_less : string → string → bool) (db_now : time).
Notation Serve := (serve ParseIP ToLower runs_out text_less db_now).

Lemma createInvite_early cfg p r : early_failed (createInvite ParseIP ToLower runs_out db_now cfg p r).
Proof.
  unfold createInvite, decode, invite_role, invite_ttl, grantable, writeInvalid.
  repeat (first [apply early_bind; [|intros ?] | apply early_ret | apply early_error | apply early_store | apply early_valid
    | apply early_require | case_match]).
Qed.

Lemma invite_served cfg resolve r fs d v fs' d' :
  Serve cfg resolve PostInvites r fs d = (JSON 201 (InviteBody v), fs', d') →
  ∃ p, resolve (r_auth r) = Ok p ∧ invite_spec ParseIP ToLower db_now cfg p r d v d'.
Proof.
  destruct (serve_cases ParseIP ToLower runs_out text_less db_now cfg resolve PostInvites r)
    as [(p & Hp & Hcan & Hs)|(e & Hs & _)]; rewrite Hs; [|done].
  intros E. exists p. split; [done|]. unfold run in E. cbn in E.
  destruct (createInvite _ _ _ _ _ _ _ fs d) as [[[x|x] fs1] d1] eqn:Ex; simplify_eq.
  - by destruct (createInvite_early _ _ _ _ _ _ _ _ Ex).
  - pose proof (createInvite_carries ParseIP ToLower runs_out text_less db_now cfg p r d _ _ _ _ _ eq_refl Ex) as (v' & Hv & Hi).
    by simplify_eq.
Qed.

(** An issued invite.  When [POST /invites] answers 201, the invite is for
    a plain email address and expires at most 30 days from now - after now,
    unless the seconds asked for do not fit a [time.Duration].  Without an
    interview its role is one the inviting member may grant; with one, the
    interview is the company's own and the raw token - held by no other invite -
    is what [StartSession] needs: until it expires, its hash consumes this
    invite and no other, once. *)
Theorem invite_opens_interview cfg resolve r fs d v fs' d' :
  Serve (NewHandler cfg) resolve PostInvites r fs d = (JSON 201 (InviteBody v), fs', d') →
  ∃ p body, resolve (r_auth r) = Ok p ∧ invite_body r = Some body ∧
    ValidEmail ParseIP ToLower (nb_email body) = Ok (nv_email v) ∧ nv_interview_id v = nb_interview_id body ∧
    nv_expires_at v ≤ cfg_Now cfg + maxInviteTTL ∧
    (ExpiresIn body = 0 ∨ 0 < ExpiresIn body ∧ (ExpiresIn body * second ≤ max_int64 → cfg_Now cfg < nv_expires_at v)) ∧
    (nv_interview_id v = None → Valid (nv_role v) = true ∧ CanManageRole (Principal_Role p) (nv_role v) = true) ∧
    ∀ interview, nv_interview_id v = Some interview →
      nv_role v = candidateRole ∧ is_Some (t_interviews (base d) !! (Principal_CompanyID p, interview)) ∧
      redeemable_once (nv_token v) (nv_expires_at v) (nv_id v, Principal_CompanyID p, interview) (base d').
Proof.
  intros E. destruct (invite_served _ _ _ _ _ _ _ _ E) as (p & Hp & body & email & ttl & Hbody & He & Ht & Httl & _ & <- & Hib & Hx & Hrole & Hfresh & ->).
  exists p, body. split; [done|]. split; [done|]. split; [done|]. split; [done|].
  assert (0 < InviteTTL (NewHandler cfg) ≤ maxInviteTTL) as Hcfg.
  { unfold NewHandler. destruct (_ || _) eqn:Eb; cbn; [done|]. bool_prop. lia. }
  assert (cfg_Now (NewHandler cfg) = cfg_Now cfg) as Hnow by (unfold NewHandler; by destruct (_ || _)).
  rewrite Hnow in Hx. split; [destruct (ExpiresIn body =? 0); lia|]. split.
  { destruct (ExpiresIn body =? 0) eqn:E0; [left; lia|right]. destruct Httl as (Hpos & Httl & _). split; [done|]. intros Hmax.
    unfold mul64 in Httl. rewrite wrap64_id in Httl; [unfold second in *; lia|]. unfold in_int64, min_int64, second in *. lia. }
  split; [intros Hn; destruct Hrole as [(_ & ? & ? & _)|(_ & i & Hi & _)]; [done|congruence]|].
  intros interview Hi. destruct Hrole as [(? & _)|(Hr & i & Hi' & Hrow)]; [congruence|]. assert (i = interview) as -> by congruence.
  split; [done|]. split; [done|].
  match goal with |- context [<[_ := ?i]>] => set (row := i) end.
  apply (consume_once _ (Principal_CompanyID p, nv_id v) row _ interview); cbn; try done.
  - apply lookup_insert_eq.
  - intros k' i' Hrow' Hh. destruct (decide (k' = (Principal_CompanyID p, nv_id v))) as [|Hk]; [done|].
    rewrite lookup_insert_ne in Hrow' by done. exfalso. apply not_true_iff_false in Hfresh. destruct Hfresh.
    apply existsb_rows. exists k', i'. split; [done|]. by apply bool_decide_eq_true.
Qed.
End Issued.

(** ** Policies *)

(** The rows of [company_policies] are keyed by their own column. *)
Definition well_keyed (d : DB) : Prop := ∀ k p, policies d !! k = Some p → Policy_Key p = k.2.

Lemma by_key_app l p : by_key (l ++ [p]) = <[Policy_Key p := p]> (by_key l).
Proof. unfold by_key. by rewrite foldl_app. Qed.
Lemma by_key_elem l key p : by_key l !! key = Some p → p ∈ l ∧ Policy_Key p = key.
Proof.
  induction l as [|x l IH] using rev_ind; [done|]. rewrite by_key_app, elem_of_app, list_elem_of_singleton.
  destruct (decide (Policy_Key x = key)) as [<-|Hn]; [rewrite lookup_insert_eq; naive_solver|].
  rewrite lookup_insert_ne by done. naive_solver.
Qed.
Lemma by_key_some l p : p ∈ l → is_Some (by_key l !! Policy_Key p).
Proof.
  induction l as [|x l IH] using rev_ind; [by intros ?%elem_of_nil|].
  rewrite by_key_app, elem_of_app, list_elem_of_singleton.
  destruct (decide (Policy_Key x = Policy_Key p)) as [->|Hn]; [rewrite lookup_insert_eq; eauto|].
  rewrite lookup_insert_ne by done. intros [?| ->]; [by auto|done].
Qed.
Lemma elem_of_rows c (d : DB) p : p ∈ rows_of c (policies d) ↔ ∃ key, policies d !! (c, key) = Some p.
Proof.
  unfold rows_of, own. rewrite list_elem_of_fmap. split.
  - intros ([[c' key] x] & -> & Hx%elem_of_map_to_list%map_lookup_filter_Some). cbn in *. destruct Hx as [? ->]. eauto.
  - intros [key Hp]. exists ((c, key), p). split; [done|]. apply elem_of_map_to_list, map_lookup_filter_Some. done.
Qed.

(** The stored rows of a company give the policy of a key back. *)
Lemma stored_policy text_less c d key : well_keyed d →
  by_key (sort_stable text_less (rows_of c (policies d))) !! key = policies d !! (c, key).
Proof.
  intros Hk. assert (∀ p, p ∈ sort_stable text_less (rows_of c (policies d)) ↔ ∃ key, policies d !! (c, key) = Some p) as Hin.
  { intros p. rewrite sort_stable_perm. apply elem_of_rows. }
  destruct (by_key _ !! key) as [p|] eqn:E.
  - apply by_key_elem in E as [Hp <-]. apply Hin in Hp as [key Hp]. by rewrite (Hk _ _ Hp).
  - destruct (policies d !! (c, key)) as [p|] eqn:Ep; [|done]. exfalso.
    destruct (by_key_some (sort_stable text_less (rows_of c (policies d))) p) as [x Hx]; [apply Hin; eauto|].
    rewrite (Hk _ _ Ep) in Hx. cbn in Hx. congruence.
Qed.

(** Whether a policy lets company [c] use a feature. *)
Definition allowed (c : UUID) (key : string) (d : DB) : bool := default true (Policy_Enabled <$> policies d !! (c, key)).

Lemma MergePolicies_spec text_less c d : well_keyed d →
  map Policy_Key (MergePolicies (sort_stable text_less (rows_of c (policies d)))) = PolicyKeys ∧
  Forall (λ p, Policy_Enabled p = allowed c (Policy_Key p) d) (MergePolicies (sort_stable text_less (rows_of c (policies d)))).
Proof.
  intros Hk. unfold MergePolicies. split.
  - rewrite map_map. erewrite map_ext_in; [apply map_id|]. intros key _. rewrite (stored_policy text_less c d key Hk).
    destruct (policies d !! (c, key)) as [p|] eqn:E; [|done]. apply (Hk _ _ E).
  - apply Forall_map, Forall_forall. intros key Hkey. rewrite (stored_policy text_less c d key Hk). unfold allowed.
    destruct (policies d !! (c, key)) as [p|] eqn:E; cbn; [rewrite (Hk _ _ E); cbn; by rewrite E|]. rewrite E. cbn.
    unfold PolicyKeys in Hkey. repeat (apply elem_of_cons in Hkey as [->|Hkey]; [by vm_compute|]). by apply elem_of_nil in Hkey.
Qed.

(** The gates follow [allowed]. *)
Lemma gates_follow c i row d : t_interviews (base d) !! (c, i) = Some row → Interview_PurgedAt row = None →
  result_of (AdminStore.LiveMonitoring c i) [] d = (if allowed c "live_monitoring" d then Ok () else Err ErrMonitoringDisabled) ∧
  result_of (AdminStore.ReplayAccess c i) [] d = (if allowed c "replay" d then Ok () else Err ErrReplayDisabled).
Proof.
  intros Hi Hp. unfold result_of, AdminStore.LiveMonitoring, AdminStore.ReplayAccess, AdminStore.interviewPolicy, replace_error,
    on_error, stmt, interview_policy. unfold mbind, M_bind. rewrite Hi, bool_decide_true by done. unfold allowed.
  split; by case_match.
Qed.

Section Policies.
Context `{uuids : UuidLib} (ParseIP : string → bool) (ToLower : string → string).
Context (runs_out : string → bool) (text_less : string → string → bool) (db_now : time) (cfg : Config).
Notation Serve := (serve ParseIP ToLower runs_out text_less db_now cfg).

(** What the gates of an interview that is not purged answer, given a policy's
    view. *)
Definition enforced (c : UUID) (d : DB) (v : policyView) : Prop := ∀ i row,
  t_interviews (base d) !! (c, i) = Some row → Interview_PurgedAt row = None →
  (pv_key v = "live_monitoring"%string → result_of (AdminStore.LiveMonitoring c i) [] d =
     if pv_enabled v then Ok () else Err ErrMonitoringDisabled) ∧
  (pv_key v = "replay"%string → result_of (AdminStore.ReplayAccess c i) [] d =
     if pv_enabled v then Ok () else Err ErrReplayDisabled).
Lemma enforced_allowed c d v : pv_enabled v = allowed c (pv_key v) d → enforced c d v.
Proof. intros Hv i row Hi Hp. destruct (gates_follow c i row d Hi Hp) as [-> ->]. rewrite Hv. split; by intros ->. Qed.

Lemma listPolicies_carries p r d0 : well_keyed d0 →
  carries (λ d, d = d0) (listPolicies text_less p r) (λ resp d, d = d0 ∧ ∃ vs, resp = JSON 200 (PoliciesBody vs) ∧
    map pv_key vs = PolicyKeys ∧ Forall (enforced (Principal_CompanyID p) d0) vs) (λ _, True).
Proof.
  intros Hk. eapply carries_bind with (Q := λ l d, d = d0 ∧
    l = sort_stable (λ a b, text_less (Policy_Key a) (Policy_Key b)) (rows_of (Principal_CompanyID p) (policies d0))).
  - unfold AdminStore.ListPolicies. apply (carries_one _ "query"); [done|]. intros d l d' -> Ef. unfold list_policies in Ef.
    by simplify_eq.
  - intros l. apply carries_ret. intros d [-> ->]. split; [done|]. eexists. split; [done|].
    destruct (MergePolicies_spec (λ a b, text_less (Policy_Key a) (Policy_Key b)) (Principal_CompanyID p) d0 Hk) as [H1 H2].
    rewrite map_map. split; [done|]. apply Forall_map. eapply Forall_impl; [exact H2|]. intros q Hq. by apply enforced_allowed.
Qed.

Lemma setPolicy_carries p r d0 :
  carries (λ d, d = d0) (setPolicy runs_out db_now p r) (λ resp d, ∃ v, resp = JSON 200 (PolicyBody v) ∧
    pv_key v ∈ PolicyKeys ∧ pv_updated_by v = Some (Principal_UserID p) ∧ enforced (Principal_CompanyID p) d v) (λ _, True).
Proof.
  eapply carries_bind; [by apply carries_require|]. intros ?. cbn -[PolicyDefault].
  eapply carries_bind; [apply carries_quiet; [unfold decode; keeps_tac|done]|]. intros body. cbn -[PolicyDefault].
  destruct (ob_enabled body) as [enabled|]; [|by apply carries_answer].
  eapply carries_bind with (Q := λ q d, pv_key (viewPolicy q) ∈ PolicyKeys ∧
    Policy_UpdatedBy q = Some (Principal_UserID p) ∧ enforced (Principal_CompanyID p) d (viewPolicy q));
    [|intros q; apply carries_ret; intros d Hd; eauto].
  unfold AdminStore.SetPolicy. apply carries_one; [done|]. intros d q d' [-> Hkey] Ef. split; [|done].
  unfold set_policy, check in Ef. inv_bind. simplify_eq/=. split_and!; try done.
  - unfold PolicyDefault, policyDefaults in Hkey. case_match eqn:E; [|done]. apply elem_of_list_to_map_2 in E.
    revert E. repeat rewrite elem_of_cons. rewrite elem_of_nil. intros E. destruct_or! E; injection E as -> _; decide_elem.
  - apply enforced_allowed. unfold allowed. cbn. by rewrite lookup_insert_eq.
Qed.

(** C19: policies mean what the API says.  [GET /policies] answers the five
    known policies in a fixed order, and whatever it shows of live monitoring
    and of replay is what the company's gates then decide for any interview
    that is not purged.  [PUT /policies/{key}] answers 200 only for a known
    key, on behalf of a member who may write policies, and what it answers is
    what the gates decide from then on. *)
Theorem policies_are_enforced resolve r fs d body fs' d' :
  well_keyed d → 
  (Serve resolve ListPolicies r fs d = (JSON 200 body, fs', d') →
   ∃ p vs, resolve (r_auth r) = Ok p ∧ body = PoliciesBody vs ∧ d' = d ∧
     map pv_key vs = PolicyKeys ∧ Forall (enforced (Principal_CompanyID p) d') vs) ∧
  (Serve resolve PutPolicy r fs d = (JSON 200 body, fs', d') →
   ∃ p v, resolve (r_auth r) = Ok p ∧ Principal_Can p PermPoliciesWrite = true ∧ body = PolicyBody v ∧
     pv_key v ∈ PolicyKeys ∧ pv_updated_by v = Some (Principal_UserID p) ∧ enforced (Principal_CompanyID p) d' v).
Proof.
  intros Hk. split; intros E.
  - destruct (serve_cases ParseIP ToLower runs_out text_less db_now cfg resolve ListPolicies r) as [(p & Hp & Hcan & Hs)|(e & Hs & _)];
      rewrite Hs in E; [|done]. exists p. unfold run in E. cbn in E.
    destruct (listPolicies text_less p r fs d) as [[[x|x] fs1] d1] eqn:Ex; simplify_eq.
    + unfold listPolicies in Ex. by destruct (early_bind _ _ (early_store _) (λ _, early_ret _) _ _ _ _ _ Ex).
    + destruct (listPolicies_carries p r d Hk _ _ _ _ _ eq_refl Ex) as (-> & vs & [= ->] & ? & ?). eauto 10.
  - destruct (serve_cases ParseIP ToLower runs_out text_less db_now cfg resolve PutPolicy r) as [(p & Hp & Hcan & Hs)|(e & Hs & _)];
      rewrite Hs in E; [|done]. exists p. unfold run in E. cbn in E.
    destruct (setPolicy runs_out db_now p r fs d) as [[[x|x] fs1] d1] eqn:Ex; simplify_eq.
    + assert (early_failed (setPolicy runs_out db_now p r)) as He; [|by destruct (He _ _ _ _ _ Ex)].
      unfold setPolicy, decode, writeInvalid. repeat (first [apply early_bind; [|intros ?] | apply early_ret | apply early_error
        | apply early_store | apply early_valid | apply early_require | case_match]).
    + destruct (setPolicy_carries p r d _ _ _ _ _ eq_refl Ex) as (v & [= ->] & ? & ? & ?). eauto 10.
Qed.
End Policies.

(** ** Examples *)
#[local] Existing Instance BinUuid.lib.
Import AdminApi.Example.

Definition invite_for (seconds : string) : HttpRequest :=
  request "" "" ("{'email': 'ada@x.org', 'interview_id': '" +:+ id_of 5%N +:+ "', 'expires_in_seconds': " +:+ seconds +:+ "}").

(** A number of seconds that does not fit a [time.Duration] gets past the
    bounds: the product wraps to a negative one, and the invite is issued
    already expired. *)
Lemma expires_in_overflow :
  ∃ v fs' d', Example.ServeNew (as_ alice) PostInvites (invite_for "9223372037") [] Example.db = (JSON 201 (InviteBody v), fs', d') ∧
    nv_expires_at v < Example.now.
Proof. do 3 eexists. split; [vm_compute; reflexivity|]. vm_compute. reflexivity. Qed.

Lemma invite_opens_interview_witness :
  ∃ v fs' d' t, Example.ServeNew (as_ alice) PostInvites (invite_for "3600") [] Example.db = (JSON 201 (InviteBody v), fs', d') ∧
    nv_token v = "raw-token"%string ∧
    consume_invite (HashToken "raw-token") (Example.now + minute) (base d') = Ok ((9%N, 1%N, 5%N), t) ∧
    consume_invite (HashToken "raw-token") (Example.now + minute) t = Err ErrNoRows.
Proof.
  destruct (Example.ServeNew (as_ alice) PostInvites (invite_for "3600") [] Example.db) as [[resp fs'] d'] eqn:E.
  assert (resp = JSON 201 (InviteBody (mkInviteView 9%N "ada@x.org" candidateRole (Some 5%N) (Example.now + hour) "raw-token"))) as ->
    by (vm_compute in E; injection E as <- _ _; reflexivity).
  destruct (invite_opens_interview _ _ _ _ _ _ _ _ _ _ _ _ _ E) as (p & body & [= <-] & _ & _ & _ & _ & _ & _ & Hi).
  destruct (Hi 5%N eq_refl) as (_ & _ & Hc & _).
  destruct (Hc (Example.now + minute)) as (t & H1 & H2); [vm_compute; reflexivity|].
  exists (mkInviteView 9%N "ada@x.org" candidateRole (Some 5%N) (Example.now + hour) "raw-token"), fs', d', t.
  split; [reflexivity|]. split; [reflexivity|]. split; [exact H1|exact (H2 _)].
Defined.

Lemma policies_are_enforced_witness :
  let off := request "" "" "{'enabled': true}" in
  ∃ fs' d' v, Example.Serve (as_ alice) PutPolicy off [] Example.db = (JSON 200 (PolicyBody v), fs', d') ∧
    pv_enabled v = true ∧ result_of (AdminStore.ReplayAccess 1%N 5%N) [] d' = Ok () ∧
    result_of (AdminStore.ReplayAccess 1%N 5%N) [] Example.db = Err ErrReplayDisabled.
Proof.
  intros off. destruct (Example.Serve (as_ alice) PutPolicy off [] Example.db) as [[resp fs'] d'] eqn:E.
  assert (resp = JSON 200 (PolicyBody (mkPolicyView "replay" true (Some 1%N) (Some Example.now)))) as ->
    by (vm_compute in E; injection E as <- _ _; reflexivity).
  exists fs', d', (mkPolicyView "replay" true (Some 1%N) (Some Example.now)). split; [reflexivity|]. split; [reflexivity|].
  split; [|vm_compute; reflexivity].
  destruct (policies_are_enforced any_ip to_lower never bytes_less Example.now Example.cfg (as_ alice) off [] Example.db
    (PolicyBody (mkPolicyView "replay" true (Some 1%N) (Some Example.now))) fs' d') as [_ H].
  - intros k p Hk. apply (elem_of_list_to_map_2 (M := gmap _)) in Hk. apply list_elem_of_singleton in Hk. injection Hk as -> ->. reflexivity.
  - destruct (H E) as (p & v & [= <-] & _ & [= <-] & _ & _ & He).
    destruct (He 5%N (Example.interview 1%N 5%N)) as [_ Hr]; [|reflexivity|exact (Hr eq_refl)].
    vm_compute in E. injection E as _ <-. vm_compute. reflexivity.
Defined.
