(* ===== verification/Live.v ===== *)
(** * Live monitoring and replay (internal/livemonitor: bus.go, redisbus.go,
      http.go, ingest.go; internal/replay: replay.go, http.go)

    The event stream a company member watches: the interface of the bus
    ([LiveBus]) with its two implementations, the timeline query of the durable
    log, the stream handler - catch-up, live events, gap repair, heartbeats -
    and the decoding of the ingester.  Between two steps of a handler the bus
    is changed by others: publishers, other viewers, the expiry of a ring. *)
From S2P Require Import Prelude Str GoTime Json JsonText Rfc3339 Codec Events Sse Tx Domain Rbac Store EventLog AdminStore.

(** ** replay.Event *)
Record Event := mkReplayEvent {
  Event_ID : string;
  Event_CompanyID : string;
  Event_InterviewID : string;
  Event_Sequence : Z;
  Event_Type : string;
  Event_OccurredAt : time;
  Event_Payload : RawMessage;
}.

Definition event_schema : list spec := [
  mkSpec "event_id" KString false; mkSpec "company_id" KString false; mkSpec "interview_id" KString false;
  mkSpec "sequence_number" KInt false; mkSpec "event_type" KString false; mkSpec "occurred_at" KTime false;
  mkSpec "payload" KRaw false].
Definition event_values (e : Event) : list value :=
  [VString (Event_ID e); VString (Event_CompanyID e); VString (Event_InterviewID e); VInt (Event_Sequence e);
   VString (Event_Type e); VTime (Event_OccurredAt e); VRaw (Event_Payload e)].
(** [json.Marshal(event)] and [json.Unmarshal]. *)
Definition event_json (e : Event) : result json := marshal event_schema (event_values e).
Definition unmarshal_event (m : RawMessage) : option Event :=
  vs ← decode event_schema m (zero_struct event_schema);
  match vs with
  | [VString a; VString b; VString c; VInt n; VString d; VTime t; VRaw p] => Some (mkReplayEvent a b c n d t p)
  | _ => None
  end.

Record Stream := mkStream { Stream_CompanyID : UUID; Stream_InterviewID : UUID }.
#[export] Instance Stream_eq_dec : EqDecision Stream.
Proof. solve_decision. Defined.
#[export] Program Instance Stream_countable : Countable Stream :=
  inj_countable' (λ s, (Stream_CompanyID s, Stream_InterviewID s)) (λ k, mkStream k.1 k.2) _.
Next Obligation. by intros []. Qed.

Definition seq_less (a b : Event) : bool := Event_Sequence a <? Event_Sequence b.

(** The newest [capacity] of a list. *)
Definition newest_of {A} (capacity : Z) (l : list A) : list A := drop (length l - Z.to_nat capacity) l.
Definition oldest_of (ring : list Event) : Z := match ring with e :: _ => Event_Sequence e | [] => 0 end.
Definition above (after : Z) (ring : list Event) : list Event := List.filter (λ e, after <? Event_Sequence e) ring.

(** ** The bus *)
Class LiveBus (B : Type) := {
  Publish : Stream → Event → M B bool;
  Recent : Stream → Z → M B (list Event * Z);
  Subscribe : Stream → M B nat;
  (** [<-sub.Events()]: an event that waits, [Some None] when the channel is
      closed, [None] when the reader blocks. *)
  Receive : nat → B → option (option Event) * B;
  Close : nat → B → B;
}.
Definition subscriptionBuffer : nat := 256.

(** A subscription's channel. *)
Record Channel := mkChannel { ch_stream : Stream; ch_buffer : list Event; ch_closed : bool }.
(** [select { case ch <- event: default: }]: a full buffer drops the event. *)
Definition offer (e : Event) (c : Channel) : Channel :=
  if ch_closed c || negb (Nat.ltb (length (ch_buffer c)) subscriptionBuffer) then c
  else mkChannel (ch_stream c) (ch_buffer c ++ [e]) false.
Definition fan_out (stream : Stream) (e : Event) (subs : gmap nat Channel) : gmap nat Channel :=
  (λ c, if decide (ch_stream c = stream) then offer e c else c) <$> subs.
Definition take_event (i : nat) (subs : gmap nat Channel) : option (option Event) * gmap nat Channel :=
  match subs !! i with
  | Some c =>
      match ch_buffer c with
      | e :: rest => (Some (Some e), <[i := mkChannel (ch_stream c) rest (ch_closed c)]> subs)
      | [] => (if ch_closed c then Some None else None, subs)
      end
  | None => (Some None, subs)
  end.
Definition close_channel (i : nat) (subs : gmap nat Channel) : gmap nat Channel :=
  alter (λ c, mkChannel (ch_stream c) (ch_buffer c) true) i subs.

(** *** MemoryBus (bus.go) *)
Record MemoryBus := mkMemoryBus {
  mb_capacity : Z;
  mb_rings : gmap Stream (list Event);
  mb_subs : gmap nat Channel;
  mb_next : nat;
}.
Definition NewMemoryBus (capacity : Z) : MemoryBus := mkMemoryBus capacity ∅ ∅ 0.
Definition has_sequence (n : Z) (ring : list Event) : bool := existsb (λ e, Event_Sequence e =? n) ring.
Definition memory_publish (stream : Stream) (e : Event) (b : MemoryBus) : bool * MemoryBus :=
  let ring := default [] (mb_rings b !! stream) in
  if has_sequence (Event_Sequence e) ring then (false, b)
  else
    (true, mkMemoryBus (mb_capacity b)
       (<[stream := newest_of (mb_capacity b) (sort_stable seq_less (ring ++ [e]))]> (mb_rings b))
       (fan_out stream e (mb_subs b)) (mb_next b)).
Definition memory_recent (stream : Stream) (after : Z) (b : MemoryBus) : list Event * Z :=
  let ring := default [] (mb_rings b !! stream) in (above after ring, oldest_of ring).
Definition memory_subscribe (stream : Stream) (b : MemoryBus) : nat * MemoryBus :=
  (mb_next b, mkMemoryBus (mb_capacity b) (mb_rings b) (<[mb_next b := mkChannel stream [] false]> (mb_subs b)) (S (mb_next b))).
(** No call of a [MemoryBus] fails. *)
Definition sure {S A} (f : S → A * S) : M S A := λ fs s, let '(a, s) := f s in (Ok a, fs, s).
#[export] Instance MemoryBus_bus : LiveBus MemoryBus := {|
  Publish stream e := sure (memory_publish stream e);
  Recent stream after := sure (λ b, (memory_recent stream after b, b));
  Subscribe stream := sure (memory_subscribe stream);
  Receive i b := let '(r, subs) := take_event i (mb_subs b) in
    (r, mkMemoryBus (mb_capacity b) (mb_rings b) subs (mb_next b));
  Close i b := mkMemoryBus (mb_capacity b) (mb_rings b) (close_channel i (mb_subs b)) (mb_next b);
|}.

(** *** RedisBus (redisbus.go)

    The server's sorted sets (members with their scores, by score and then by
    member), each with the time it expires, and the subscriptions: the messages
    the server has sent on the connection of one and its forwarder has not taken
    yet, and the Go channel the forwarder fills.  Times are in milliseconds. *)
Record RedisSub := mkRedisSub { sub_channel : string; sub_pending : list json; sub_out : Channel }.
Record RedisBus := mkRedisBus {
  rb_capacity : Z;
  rb_prefix : string;
  rb_ttl : duration;
  zsets : gmap string (list (Z * json) * Z);
  rb_clock : Z;
  rb_subs : gmap nat RedisSub;
  rb_next : nat;
}.
Definition NewRedisBus (prefix : string) (capacity : Z) (ttl : duration) : RedisBus := mkRedisBus capacity prefix ttl ∅ 0 ∅ 0.
Definition set_subs (f : gmap nat RedisSub → gmap nat RedisSub) (b : RedisBus) : RedisBus :=
  mkRedisBus (rb_capacity b) (rb_prefix b) (rb_ttl b) (zsets b) (rb_clock b) (f (rb_subs b)) (rb_next b).
(** A sorted set as commands see it: an expired key is gone. *)
Definition live_zset (key : string) (b : RedisBus) : list (Z * json) :=
  match zsets b !! key with
  | Some (zset, expires) => if rb_clock b <? expires then zset else []
  | None => []
  end.
(** [ZREMRANGEBYRANK key 0 stop]: a negative rank counts from the end. *)
Definition remove_ranks {A} (stop : Z) (l : list A) : list A :=
  drop (Z.to_nat ((if stop <? 0 then Z.of_nat (length l) + stop else stop) + 1)) l.

Section Redis.
Context `{uuids : UuidLib}.

Definition hash_tag (prefix : string) (s : Stream) : string :=
  prefix +:+ String "{" (uuid_String (Stream_CompanyID s) +:+ String ":" (uuid_String (Stream_InterviewID s) +:+ "}")).
Definition ringKey (prefix : string) (s : Stream) : string := hash_tag prefix s +:+ ":ring".
Definition channel (prefix : string) (s : Stream) : string := hash_tag prefix s +:+ ":events".

(** A score is an IEEE double: an integer beyond 2^53 is rounded to 53 bits,
    ties to even. *)
Definition double_of (n : Z) : Z :=
  let a := Z.abs n in
  if a <=? 9007199254740992 then n
  else
    let e := Z.log2 a - 52 in
    let m := Z.shiftr a e in
    let r := a - Z.shiftl m e in
    let half := Z.shiftl 1 (e - 1) in
    let m := if (half <? r) || (half =? r) && Z.odd m then m + 1 else m in
    Z.sgn n * Z.shiftl m e.

Definition zscore_less (a b : Z * json) : bool := a.1 <? b.1.
(** PUBLISH: the message goes to every subscriber of the channel. *)
Definition deliver_to (ch : string) (member : json) (s : RedisSub) : RedisSub :=
  if bool_decide (sub_channel s = ch) && negb (ch_closed (sub_out s))
  then mkRedisSub (sub_channel s) (sub_pending s ++ [member]) (sub_out s) else s.
(** [publishScript]: ZCOUNT, ZADD, ZREMRANGEBYRANK, PEXPIRE, PUBLISH. *)
Definition publish_script (ring ch : string) (argv : Z) (member : json) (capacity ttl : Z) (b : RedisBus) : bool * RedisBus :=
  let zset := live_zset ring b in
  let score := double_of argv in
  if existsb (λ m, m.1 =? score) zset then (false, b)
  else
    (true, mkRedisBus (rb_capacity b) (rb_prefix b) (rb_ttl b)
       (<[ring := (remove_ranks (- (capacity + 1)) (sort_stable zscore_less (zset ++ [(score, member)])), rb_clock b + ttl)]> (zsets b))
       (rb_clock b) (deliver_to ch member <$> rb_subs b) (rb_next b)).

Definition redis_publish (stream : Stream) (e : Event) : M RedisBus bool :=
  member ← lift (wrap_err "live bus: encode event" (event_json e));
  wrapM "live bus: publish" (stmt (λ b, Ok (publish_script (ringKey (rb_prefix b) stream) (channel (rb_prefix b) stream)
    (Event_Sequence e) member (rb_capacity b) (milliseconds (rb_ttl b)) b))).

Fixpoint decode_members (zset : list (Z * json)) : option (list Event) :=
  match zset with
  | [] => Some []
  | (_, m) :: zset => e ← unmarshal_event (Some m); es ← decode_members zset; Some (e :: es)
  end.
Definition redis_recent (stream : Stream) (after : Z) : M RedisBus (list Event * Z) :=
  '(raw, oldest) ← wrapM "live bus: read ring" (query (λ b,
     let zset := live_zset (ringKey (rb_prefix b) stream) b in
     (List.filter (λ m, double_of after <? m.1) zset, match zset with m :: _ => wrap64 m.1 | [] => 0 end)));
  match decode_members raw with
  | Some events => mret (events, oldest)
  | None => throw (Wrap "live bus: decode ring entry" (Plain "json"))
  end.

(** [Subscribe] returns once Redis has confirmed; the forwarder is started. *)
Definition redis_subscribe (stream : Stream) : M RedisBus nat :=
  wrapM "live bus: subscribe" (stmt (λ b, Ok (rb_next b,
    mkRedisBus (rb_capacity b) (rb_prefix b) (rb_ttl b) (zsets b) (rb_clock b)
      (<[rb_next b := mkRedisSub (channel (rb_prefix b) stream) [] (mkChannel stream [] false)]> (rb_subs b)) (S (rb_next b))))).

(** One turn of the loop of [forward]: the next message is decoded and offered
    to the channel; one that does not decode, or finds the channel full, is
    gone. *)
Definition forward_one (s : RedisSub) : RedisSub :=
  match sub_pending s with
  | [] => s
  | member :: rest =>
      mkRedisSub (sub_channel s) rest
        (match unmarshal_event (Some member) with Some e => offer e (sub_out s) | None => sub_out s end)
  end.
Definition forward (i : nat) : RedisBus → RedisBus := set_subs (alter forward_one i).
(** A message that never reaches the forwarder: the connection broke, or the
    client's own buffer was full. *)
Definition lose_message (i k : nat) : RedisBus → RedisBus :=
  set_subs (alter (λ s, mkRedisSub (sub_channel s) (delete k (sub_pending s)) (sub_out s)) i).
(** Time passes on the server. *)
Definition pass (ms : Z) (b : RedisBus) : RedisBus :=
  mkRedisBus (rb_capacity b) (rb_prefix b) (rb_ttl b) (zsets b) (rb_clock b + ms) (rb_subs b) (rb_next b).

Definition redis_receive (i : nat) (b : RedisBus) : option (option Event) * RedisBus :=
  match rb_subs b !! i with
  | Some s =>
      match ch_buffer (sub_out s) with
      | e :: rest =>
          (Some (Some e), set_subs (<[i := mkRedisSub (sub_channel s) (sub_pending s)
             (mkChannel (ch_stream (sub_out s)) rest (ch_closed (sub_out s)))]>) b)
      | [] => (if ch_closed (sub_out s) then Some None else None, b)
      end
  | None => (Some None, b)
  end.
(** [Close] closes the connection and stops the forwarder, whose deferred
    [close] closes the channel. *)
Definition redis_close (i : nat) : RedisBus → RedisBus :=
  set_subs (alter (λ s, mkRedisSub (sub_channel s) []
    (mkChannel (ch_stream (sub_out s)) (ch_buffer (sub_out s)) true)) i).
#[export] Instance RedisBus_bus : LiveBus RedisBus := {|
  Publish := redis_publish;
  Recent := redis_recent;
  Subscribe := redis_subscribe;
  Receive := redis_receive;
  Close := redis_close;
|}.
End Redis.

(** ** The timeline (replay.go) *)
Section Timeline.
Context `{uuids : UuidLib}.

Definition event_of_row (r : Row) : Event :=
  mkReplayEvent (Row_EventID r) (Row_CompanyID r) (Row_InterviewID r) (Row_SequenceNumber r) (Row_EventType r)
    (Row_OccurredAt r) (Row_Payload r).
(** [timelineQuery]. *)
Definition timeline_query (company interview : UUID) (after : Z) (rows : list Row) : list Event :=
  sort_stable seq_less (map event_of_row (List.filter (λ r,
    bool_decide (Row_CompanyID r = uuid_String company) && bool_decide (Row_InterviewID r = uuid_String interview) &&
    (after <? Row_SequenceNumber r)) (map snd (map_to_list (final_rows rows))))).
(** Scanning stops at a payload that is not JSON. *)
Fixpoint scan_timeline (l : list Event) : result (list Event) :=
  match l with
  | [] => Ok []
  | e :: l =>
      if json_Valid (Event_Payload e) then es ← scan_timeline l; Ok (e :: es)
      else Err (Plain ("event contains invalid JSON payload: " +:+ Event_ID e))
  end.
Definition Timeline (company interview : UUID) (after : Z) : M (list Row) (list Event) :=
  rows ← wrapM "query interview timeline" (query (timeline_query company interview after));
  lift (scan_timeline rows).

(** *** The replay endpoint (replay/http.go) *)
Definition parseAfterSeq (raw : string) : result Z :=
  if bool_decide (raw = ""%string) then Ok 0
  else match ParseInt raw with
       | Some value => if value <? 0 then Err (Plain "after_seq must be non-negative") else Ok value
       | None => Err (Plain "after_seq must be non-negative")
       end.

(** [SessionTenantResolver.CompanyID]: member sessions only. *)
Definition tenant_CompanyID (find : string → result Session) (now : time) (r : Request) : result UUID :=
  match BearerToken r with
  | None => Err ErrUnauthenticated
  | Some token =>
      match find (HashToken token) with
      | Err e => if errors_is e ErrSessionNotFound then Err ErrUnauthenticated else Err (Wrap "resolve company session" e)
      | Ok session =>
          if negb (bool_decide (is_Some (Session_UserID session))) || IsCandidate session || negb (IsActive session now)
          then Err ErrUnauthenticated else Ok (Session_CompanyID session)
      end
  end.

Inductive timeline_response := Events (events : list Event) | TimelineFailed (e : ErrorBody).
Definition timeline (tenant : Request → result UUID) (r : Request) (id after_seq : string) : M (list Row) timeline_response := λ fs rows,
  let failed status code := (Ok (TimelineFailed (mkErrorBody status code)), fs, rows) in
  match tenant r with
  | Err e => if errors_is e ErrUnauthenticated then failed 401 "unauthorized"%string else failed 503 "identity_unavailable"%string
  | Ok company =>
      match uuid_Parse id with
      | None => failed 400 "invalid_interview_id"%string
      | Some interview =>
          match parseAfterSeq after_seq with
          | Err _ => failed 400 "invalid_after_seq"%string
          | Ok after =>
              match Timeline company interview after fs rows with
              | (Err _, fs, rows) => (Ok (TimelineFailed (mkErrorBody 503 "timeline_unavailable")), fs, rows)
              | (Ok events, fs, rows) => (Ok (Events events), fs, rows)
              end
          end
      end
  end.
End Timeline.

(** ** The live stream (livemonitor/http.go) *)

(** [LastEventID]: the header, or the query parameter. *)
Definition LastEventID (header param : string) : result Z :=
  parseAfterSeq (if bool_decide (header = ""%string) then param else header).

Section Live.
Context `{uuids : UuidLib} {B : Type} `{LB : LiveBus B}.

(** A viewer's stream: the bus and the durable log it reads, what was written
    to the response, and the session's [lastSent]. *)
Record Viewing := mkViewing { bus : B; event_rows : list Row; written : list Sse.sent; lastSent : Z }.

Definition on_bus {A} (m : M B A) : M Viewing A := λ fs v,
  let '(r, fs, b) := m fs (bus v) in (r, fs, mkViewing b (event_rows v) (written v) (lastSent v)).
Definition on_log {A} (m : M (list Row) A) : M Viewing A := λ fs v,
  let '(r, fs, rows) := m fs (event_rows v) in (r, fs, mkViewing (bus v) rows (written v) (lastSent v)).
(** A write that fails may have reached the client. *)
Definition write (x : Sse.sent) : M Viewing () :=
  lift (bytes_of x);;
  exec (λ v, mkViewing (bus v) (event_rows v) (written v ++ [x]) (lastSent v)).
Definition set_lastSent (n : Z) : M Viewing () := λ fs v,
  (Ok (), fs, mkViewing (bus v) (event_rows v) (written v) n).
Definition get_lastSent : M Viewing Z := λ fs v, (Ok (lastSent v), fs, v).

Definition of_stream (stream : Stream) (e : Event) : bool :=
  bool_decide (Event_CompanyID e = uuid_String (Stream_CompanyID stream)) &&
  bool_decide (Event_InterviewID e = uuid_String (Stream_InterviewID stream)).
Definition send (stream : Stream) (e : Event) : M Viewing () :=
  last ← get_lastSent;
  if (Event_Sequence e <=? last) || negb (of_stream stream e) then mret ()
  else
    data ← lift (event_json e);
    write (WithID (render_int (Event_Sequence e)) "event" (render data));;
    set_lastSent (Event_Sequence e).
Fixpoint send_all (stream : Stream) (es : list Event) : M Viewing () :=
  match es with [] => mret () | e :: es => send stream e;; send_all stream es end.
(** [break] at the first event the ring has. *)
Fixpoint send_past (stream : Stream) (oldest : Z) (es : list Event) : M Viewing () :=
  match es with
  | [] => mret ()
  | e :: es =>
      if negb (oldest =? 0) && (oldest <=? Event_Sequence e) then mret ()
      else send stream e;; send_past stream oldest es
  end.
(** A failing read of the history is logged, and what the ring has is sent. *)
Definition history_or_nothing (stream : Stream) : M Viewing (list Event) := λ fs v,
  match on_log (Timeline (Stream_CompanyID stream) (Stream_InterviewID stream) (lastSent v)) fs v with
  | (Ok past, fs, v) => (Ok past, fs, v)
  | (Err _, fs, v) => (Ok [], fs, v)
  end.
Definition catchUp (history : bool) (stream : Stream) (deep : bool) : M Viewing () :=
  last ← get_lastSent;
  '(recent, oldest) ← on_bus (Recent stream last);
  (if deep && history && ((oldest =? 0) || (add64 last 1 <? oldest))
   then past ← history_or_nothing stream; send_past stream oldest past
   else mret ());;
  send_all stream recent.

(** What happens at one iteration of the loop: the bus was changed by others,
    the request's context ended, the ticker fired, the subscription is read. *)
Inductive turn := Elsewhere (f : B → B) | CtxDone | Tick | Incoming.
Definition receive (sub : nat) : M Viewing (option (option Event)) := λ fs v,
  let '(r, b) := Receive sub (bus v) in (Ok r, fs, mkViewing b (event_rows v) (written v) (lastSent v)).
(** The stream of an event: repair a gap from the ring, then send it. *)
Definition deliver (history : bool) (stream : Stream) (e : Event) : M Viewing () :=
  last ← get_lastSent;
  (if add64 last 1 <? Event_Sequence e then catchUp history stream false else mret ());;
  send stream e.
(** One iteration: [false] is a return. *)
Definition one_turn (history : bool) (stream : Stream) (sub : nat) (t : turn) : M Viewing bool :=
  match t with
  | Elsewhere f => λ fs v, (Ok true, fs, mkViewing (f (bus v)) (event_rows v) (written v) (lastSent v))
  | CtxDone => mret false
  | Tick => write (Commented "ping");; mret true
  | Incoming =>
      r ← receive sub;
      match r with
      | None => mret true
      | Some None => mret false
      | Some (Some e) => deliver history stream e;; mret true
      end
  end.
Fixpoint stream_loop (history : bool) (stream : Stream) (sub : nat) (turns : list turn) : M Viewing () :=
  match turns with
  | [] => mret ()
  | t :: turns =>
      go_on ← one_turn history stream sub t;
      if go_on : bool then stream_loop history stream sub turns else mret ()
  end.

(** What [Live] does once it is subscribed; [between] is what others did to the
    bus between the subscription and the reading of the ring. *)
Definition open_stream (history : bool) (stream : Stream) (between : list (B → B)) : M Viewing () := λ fs v,
  (catchUp history stream true;;
   last ← get_lastSent;
   write (Raw "caught_up" (render (JObject [("last_event_id"%string, JNumber (render_int last))])))) fs
  (mkViewing (foldl (λ b f, f b) (bus v) between) (event_rows v) (written v) (lastSent v)).
Definition run_stream (history : bool) (stream : Stream) (sub : nat) (between : list (B → B)) (turns : list turn) : M Viewing () :=
  open_stream history stream between;; stream_loop history stream sub turns.

(** A request, its principal (put there by [rbac.Middleware]), and what it
    meets: whether the response can stream, the changes of the bus between the
    subscription and the catch-up, and the turns of the loop. *)
Record LiveRequest := mkLiveRequest {
  live_principal : option Principal;
  live_id : string;
  last_event_header : string;
  last_event_param : string;
  can_stream : bool;
  between : list (B → B);
  turns : list turn;
}.
Inductive live_end := LiveRefused (e : ErrorBody) | LiveStreamed.

(** [Live]; [access] and [history] are as the handler was built with. *)
Definition Live (access : option (UUID → UUID → result ())) (history : bool) (r : LiveRequest) : M Viewing live_end := λ fs v,
  let refused status code := (Ok (LiveRefused (mkErrorBody status code)), fs, v) in
  match live_principal r with
  | None => refused 401 "unauthorized"%string
  | Some principal =>
  match uuid_Parse (live_id r) with
  | None => refused 400 "invalid_id"%string
  | Some interview =>
  match LastEventID (last_event_header r) (last_event_param r) with
  | Err _ => refused 400 "invalid_last_event_id"%string
  | Ok after =>
  match match access with Some check => check (Principal_CompanyID principal) interview | None => Ok () end with
  | Err e =>
      if errors_is e ErrMonitoringNotFound then refused 404 "not_found"%string
      else if errors_is e ErrMonitoringDisabled then refused 403 "live_monitoring_disabled"%string
      else refused 503 "access_unavailable"%string
  | Ok _ =>
      let stream := mkStream (Principal_CompanyID principal) interview in
      match on_bus (Subscribe stream) fs v with
      | (Err _, fs, v) => (Ok (LiveRefused (mkErrorBody 503 "live_unavailable")), fs, v)
      | (Ok sub, fs, v) =>
          let finish (e : live_end) (fs : script) (v : Viewing) :=
            (Ok e, fs, mkViewing (Close sub (bus v)) (event_rows v) (written v) (lastSent v)) in
          if negb (can_stream r) then finish (LiveRefused (mkErrorBody 500 "streaming_unsupported")) fs v
          else
            let '(_, fs, v) := run_stream history stream sub (between r) (turns r) fs
              (mkViewing (bus v) (event_rows v) (written v) after) in
            finish LiveStreamed fs v
      end
  end end end end.

Definition set_principal (ctx : option Principal) (r : LiveRequest) : LiveRequest :=
  mkLiveRequest ctx (live_id r) (last_event_header r) (last_event_param r) (can_stream r) (between r) (turns r).
(** [Routes]: behind member authentication and the permission to watch. *)
Definition Live_route {R} (WriteError : ErrorBody → R) (run : M Viewing live_end → R) (resolver : Resolver)
    (access : option (UUID → UUID → result ())) (history : bool) (r : Request) (live : LiveRequest) : R :=
  Middleware WriteError (Resolve resolver)
    (Require WriteError PermInterviewsLive (λ ctx _, run (Live access history (set_principal ctx live)))) r.
End Live.

(** ** The ingester (livemonitor/ingest.go) *)
Section Ingest.
Context `{uuids : UuidLib} {B : Type} `{LB : LiveBus B}.

Definition DecodeMessage (value : RawMessage) (now : time) : result (Stream * Event) :=
  row ← Decode value now;
  match uuid_Parse (Row_CompanyID row) with
  | None => Err (Plain "company_id is not a UUID")
  | Some company =>
      match uuid_Parse (Row_InterviewID row) with
      | None => Err (Plain "interview_id is not a UUID")
      | Some interview =>
          Ok (mkStream company interview, mkReplayEvent (Row_EventID row) (Row_CompanyID row) (Row_InterviewID row)
                (Row_SequenceNumber row) (Row_EventType row) (Row_OccurredAt row) (Row_Payload row))
      end
  end.

(** The consumer group's view of the topic, and the bus. *)
Record Ingester := mkIngester { group : LogWorld; ingest_bus : B }.
Definition Handle (on_invalid : bool) (now : time) (m : Message) : M Ingester () := λ fs w,
  match DecodeMessage (Value m) now with
  | Err e => (Ok (), fs, if on_invalid then mkIngester (report_invalid m e (group w)) (ingest_bus w) else w)
  | Ok (stream, e) =>
      let '(r, fs, b) := Publish stream e fs (ingest_bus w) in
      (wrap_err "live ingest" ((λ _, ()) <$> r), fs, mkIngester (group w) b)
  end.

(** What one iteration of [Run] meets: [ctx.Err()] is asked after a failed
    fetch or commit. *)
Record ingest_turn := mkIngestTurn {
  ingest_deliveries : list delivery;
  ingest_ctx_err : option error;
  ingest_now : time;
  ingest_faults : script;
}.
Definition ctx_or (ctx_err : option error) (msg : string) (e : error) : error :=
  match ctx_err with Some c => c | None => Wrap msg e end.
Definition ingest_one (on_invalid : bool) (t : ingest_turn) (w : Ingester) : option error * Ingester :=
  match FetchMessage (ingest_deliveries t) (group w) with
  | (None, _, g) => (None, mkIngester g (ingest_bus w))
  | (Some (Err e), _, g) => (Some (ctx_or (ingest_ctx_err t) "live ingest: fetch" e), mkIngester g (ingest_bus w))
  | (Some (Ok m), _, g) =>
      match Handle on_invalid (ingest_now t) m (ingest_faults t) (mkIngester g (ingest_bus w)) with
      | (Err e, _, w) => (Some e, w)
      | (Ok _, fs, w) =>
          let '(r, _, g) := exec (commit_offsets [m]) fs (group w) in
          (match r with Err e => Some (ctx_or (ingest_ctx_err t) "live ingest: commit" e) | Ok _ => None end,
           mkIngester g (ingest_bus w))
      end
  end.
Fixpoint Ingest (on_invalid : bool) (turns : list ingest_turn) (w : Ingester) : option error * Ingester :=
  match turns with
  | [] => (None, w)
  | t :: turns =>
      match ingest_one on_invalid t w with
      | (Some e, w) => (Some e, w)
      | (None, w) => Ingest on_invalid turns w
      end
  end.
End Ingest.

(** ** What a viewer is shown

    [shows stream a xs es b]: the frames [xs], written to a viewer of [stream]
    who has everything up to [a], show the events [es] - each once, in the order
    of their sequence numbers, of this company and this interview - and take the
    viewer to [b]. *)
Section Shown.
Context `{uuids : UuidLib} {B : Type} `{LB : LiveBus B}.
Implicit Types (stream : Stream) (v : Viewing (B := B)) (e : Event).

Definition event_frame (e : Event) (j : json) : Sse.sent := WithID (render_int (Event_Sequence e)) "event" (render j).
Definition caught_up_frame (last : Z) : Sse.sent :=
  Raw "caught_up" (render (JObject [("last_event_id"%string, JNumber (render_int last))])).
Inductive shows (stream : Stream) : Z → list Sse.sent → list Event → Z → Prop :=
  | shows_nil a : shows stream a [] [] a
  | shows_ping a xs es b : shows stream a xs es b → shows stream a (Commented "ping" :: xs) es b
  | shows_caught_up a xs es b : shows stream a xs es b → shows stream a (caught_up_frame a :: xs) es b
  | shows_event a e j xs es b :
      a < Event_Sequence e → of_stream stream e = true → event_json e = Ok j →
      shows stream (Event_Sequence e) xs es b → shows stream a (event_frame e j :: xs) (e :: es) b.

Lemma shows_app stream a xs es b ys fs c :
  shows stream a xs es b → shows stream b ys fs c → shows stream a (xs ++ ys) (es ++ fs) c.
Proof. induction 1; intros Hys; cbn; [done|by constructor; auto..|]. econstructor; eauto. Qed.

Lemma shows_own stream a xs es b : shows stream a xs es b → Forall (λ e, of_stream stream e = true) es.
Proof. induction 1; [constructor|done..|by constructor]. Qed.

(** Where a viewer is after being shown [es]. *)
Definition after_of (a : Z) (es : list Event) : Z := List.last (map Event_Sequence es) a.
Lemma last_cons_default {A} (x d : A) l : List.last (x :: l) d = List.last l x.
Proof. revert x d. induction l as [|y l IH]; intros x d; [done|]. change (List.last (y :: l) d = List.last (y :: l) x). by rewrite !IH. Qed.
Lemma after_of_cons a e es : after_of a (e :: es) = after_of (Event_Sequence e) es.
Proof. apply last_cons_default. Qed.
Lemma after_of_nil a : after_of a [] = a.
Proof. done. Qed.
Lemma shows_last stream a xs es b : shows stream a xs es b → b = after_of a es.
Proof. induction 1; [done..|]. by rewrite after_of_cons. Qed.

Lemma shows_increasing stream a xs es b : shows stream a xs es b → StronglySorted Z.lt (a :: map Event_Sequence es).
Proof.
  induction 1 as [a| | |a e j xs es b Ha _ _ _ IH]; [repeat constructor|done..|].
  constructor; [done|]. constructor; [done|]. inversion IH as [|?? _ Hall]; subst.
  eapply Forall_impl; [exact Hall|]. intros n Hn. cbn in Hn. lia.
Qed.

(** *** The frames an operation writes *)
Definition gives {A} (stream : Stream) (m : M (Viewing (B := B)) A) (Q : Viewing → A → Viewing → list Event → Prop) : Prop :=
  ∀ fs v r fs' v', m fs v = (r, fs', v') →
  match r with
  | Ok a => ∃ xs es, written v' = written v ++ xs ∧ shows stream (lastSent v) xs es (lastSent v') ∧ Q v a v' es
  | Err _ => ∃ xs es b, written v' = written v ++ xs ∧ shows stream (lastSent v) xs es b
  end.

Lemma gives_weaken {A} stream (m : M Viewing A) (Q Q' : Viewing → A → Viewing → list Event → Prop) :
  gives stream m Q → (∀ v a v' es, Q v a v' es → Q' v a v' es) → gives stream m Q'.
Proof. intros Hm HQ fs v r fs' v' H. specialize (Hm _ _ _ _ _ H). destruct r; naive_solver. Qed.

Lemma gives_ret {A} stream (a : A) : gives stream (mret a) (λ v a' v' es, a' = a ∧ v' = v ∧ es = []).
Proof. intros fs v r fs' v' [= <- <- <-]. exists [], []. rewrite app_nil_r. split_and!; [done|constructor|done..]. Qed.

Lemma gives_bind {A C} stream (m : M Viewing A) (f : A → M Viewing C) Q Q' : gives stream m Q → (∀ a, gives stream (f a) (Q' a)) →
  gives stream (m ≫= f) (λ v c v' es, ∃ a v1 es1 es2, Q v a v1 es1 ∧ Q' a v1 c v' es2 ∧ es = es1 ++ es2 ∧ lastSent v1 = after_of (lastSent v) es1).
Proof.
  intros Hm Hf fs v r fs' v' H. unfold mbind, M_bind in H. destruct (m fs v) as [[r1 fs1] v1] eqn:E1.
  specialize (Hm _ _ _ _ _ E1). destruct r1 as [a|e]; [|by simplify_eq].
  destruct Hm as (xs1 & es1 & Hw1 & Hs1 & HQ1). specialize (Hf a _ _ _ _ _ H). destruct r as [c|e].
  - destruct Hf as (xs2 & es2 & Hw2 & Hs2 & HQ2). exists (xs1 ++ xs2), (es1 ++ es2).
    rewrite Hw2, Hw1, app_assoc. split_and!; [done|by eapply shows_app|].
    exists a, v1, es1, es2. eauto using shows_last.
  - destruct Hf as (xs2 & es2 & b & Hw2 & Hs2). exists (xs1 ++ xs2), (es1 ++ es2), b.
    rewrite Hw2, Hw1, app_assoc. split; [done|by eapply shows_app].
Qed.

(** A step that writes nothing. *)
Lemma gives_silent {A} stream (m : M Viewing A) :
  (∀ fs v r fs' v', m fs v = (r, fs', v') → written v' = written v ∧ lastSent v' = lastSent v) →
  gives stream m (λ v a v' es, es = [] ∧ ∃ fs fs', m fs v = (Ok a, fs', v')).
Proof.
  intros Hm fs v r fs' v' H. destruct (Hm _ _ _ _ _ H) as [Hw Hl]. destruct r.
  - exists [], []. rewrite app_nil_r, Hw, Hl. split_and!; [done|constructor|done|eauto].
  - exists [], [], (lastSent v). rewrite app_nil_r, Hw. split; [done|constructor].
Qed.

Lemma on_bus_silent {A} (m : M B A) fs v r fs' v' : on_bus m fs v = (r, fs', v') →
  m fs (bus v) = (r, fs', bus v') ∧ v' = mkViewing (bus v') (event_rows v) (written v) (lastSent v).
Proof. unfold on_bus. destruct (m fs (bus v)) as [[r1 fs1] b1] eqn:E. by intros [= <- <- <-]. Qed.
Lemma on_log_silent {A} (m : M (list Row) A) fs v r fs' v' : on_log m fs v = (r, fs', v') →
  m fs (event_rows v) = (r, fs', event_rows v') ∧ v' = mkViewing (bus v) (event_rows v') (written v) (lastSent v).
Proof. unfold on_log. destruct (m fs (event_rows v)) as [[r1 fs1] b1] eqn:E. by intros [= <- <- <-]. Qed.

Definition wrote (x : Sse.sent) v : Viewing := mkViewing (bus v) (event_rows v) (written v ++ [x]) (lastSent v).
Lemma write_cases x fs v r fs' v' : write (B := B) x fs v = (r, fs', v') →
  r = Ok () ∧ v' = wrote x v ∨ is_ok r = false ∧ (v' = v ∨ v' = wrote x v).
Proof.
  unfold write. intros [(u & fs1 & v1 & [= _ <- <-] & H)|(e & [= _ _ <-] & ->)]%bind_M_cases; [|auto].
  apply exec_cases in H as [([] & -> & [= <-])|[Hr [->|[[] [= <-]]]]]; auto.
Qed.

Definition same_source v v' : Prop := bus v' = bus v ∧ event_rows v' = event_rows v.
Lemma gives_frame stream x : (∀ a, shows stream a [x] [] a) →
  gives stream (write x) (λ v _ v' es, es = [] ∧ same_source v v').
Proof.
  intros Hx fs v r fs' v' [[-> ->]|[Hr Hv]]%write_cases.
  - by exists [x], [].
  - destruct r; [done|]. destruct Hv as [->| ->]; [|by exists [x], [], (lastSent v)].
    exists [], [], (lastSent v). rewrite app_nil_r. split; [done|constructor].
Qed.

(** What [send] makes of an event, and a list of events, for a viewer at [a]. *)
Definition pick (stream : Stream) (a : Z) (e : Event) : list Event :=
  if (Event_Sequence e <=? a) || negb (of_stream stream e) then [] else [e].
Fixpoint picks (stream : Stream) (a : Z) (l : list Event) : list Event :=
  match l with
  | [] => []
  | e :: l => let es := pick stream a e in es ++ picks stream (after_of a es) l
  end.

#[local] Arguments pick : simpl never.
#[local] Arguments after_of : simpl never.

Lemma send_gives stream e : gives stream (send (B := B) stream e) (λ v _ v' es, same_source v v' ∧ es = pick stream (lastSent v) e).
Proof.
  intros fs v r fs' v' H. unfold send in H.
  apply bind_M_cases in H as [(a & fs1 & v1 & [= <- <- <-] & H)|(e' & [=] & _)].
  unfold pick. destruct (_ || _) eqn:Ep.
  { injection H as <- <- <-. exists [], []. rewrite app_nil_r. split_and!; [done|constructor|done..]. }
  apply orb_false_iff in Ep as [Hs%Z.leb_gt Ho%negb_false_iff].
  apply bind_M_cases in H as [(j & fs2 & v2 & [= Ej <- <-] & H)|(e' & [= Ej _ <-] & ->)].
  2: { exists [], [], (lastSent v). rewrite app_nil_r. split; [done|constructor]. }
  assert (Hf : shows stream (lastSent v) [event_frame e j] [e] (Event_Sequence e)) by (econstructor; eauto using shows).
  apply bind_M_cases in H as [(u & fs3 & v3 & Hw & [= <- _ <-])|(e' & Hw & ->)].
  - apply write_cases in Hw as [[_ ->]|[[=] _]]. by exists [event_frame e j], [e].
  - apply write_cases in Hw as [[[=] _]|[_ [->| ->]]]; [|by exists [event_frame e j], [e], (Event_Sequence e)].
    exists [], [], (lastSent v). rewrite app_nil_r. split; [done|constructor].
Qed.

Lemma send_all_gives stream l : gives stream (send_all (B := B) stream l) (λ v _ v' es, same_source v v' ∧ es = picks stream (lastSent v) l).
Proof.
  induction l as [|e l IH]; cbn.
  { eapply gives_weaken; [apply gives_ret|]. intros v [] v' es (Hu & -> & ->). done. }
  eapply gives_weaken; [apply gives_bind; [apply send_gives|intros ?; apply IH]|].
  intros v u v' es H. cbn in H. destruct H as (u1 & v1 & es1 & es2 & [[Hb Hr] ->] & [[Hb' Hr'] ->] & -> & Hl). rewrite <-Hl.
  split; [split; congruence|done].
Qed.

(** The part of the history before the ring. *)
Fixpoint before_ring (oldest : Z) (l : list Event) : list Event :=
  match l with
  | [] => []
  | e :: l => if negb (oldest =? 0) && (oldest <=? Event_Sequence e) then [] else e :: before_ring oldest l
  end.
Lemma send_past_all stream oldest l : send_past (B := B) stream oldest l = send_all stream (before_ring oldest l).
Proof. induction l as [|e l IH]; cbn; [done|]. destruct (_ && _); [done|]. cbn. by rewrite IH. Qed.

(** What a catch-up reads of the bus and of the log, and what it sends. *)
Definition needs_history (history deep : bool) (last oldest : Z) : bool :=
  deep && history && ((oldest =? 0) || (add64 last 1 <? oldest)).
Definition past_of (r : result (list Event)) : list Event := match r with Ok past => past | Err _ => [] end.
Definition backfilled history stream deep oldest v (past : list Event) : Prop :=
  if needs_history history deep (lastSent v) oldest
  then ∃ fs r fs', Timeline (Stream_CompanyID stream) (Stream_InterviewID stream) (lastSent v) fs (event_rows v) = (r, fs', event_rows v) ∧
    past = before_ring oldest (past_of r)
  else past = [].
Definition caught_up history stream deep v v' es : Prop := ∃ recent oldest past fs fs',
  Recent stream (lastSent v) fs (bus v) = (Ok (recent, oldest), fs', bus v') ∧ event_rows v' = event_rows v ∧
  backfilled history stream deep oldest v past ∧ es = picks stream (lastSent v) (past ++ recent).

Lemma Timeline_rows company interview a fs rows r fs' rows' : Timeline company interview a fs rows = (r, fs', rows') → rows' = rows.
Proof.
  unfold Timeline. intros [(l & fs1 & rows1 & H1 & H2)|(e & H1 & _)]%bind_M_cases;
    apply wrapM_cases in H1 as (r1 & H1 & _); apply query_cases in H1 as [Hr _]; [|done]. injection H2. congruence.
Qed.

Lemma after_of_app a l1 l2 : after_of a (l1 ++ l2) = after_of (after_of a l1) l2.
Proof. revert a. induction l1 as [|e l1 IH]; intros a; [done|]. cbn [app]. by rewrite !after_of_cons. Qed.
Lemma picks_app stream a l1 l2 : picks stream a (l1 ++ l2) = picks stream a l1 ++ picks stream (after_of a (picks stream a l1)) l2.
Proof. revert a. induction l1 as [|e l1 IH]; intros a; cbn; [done|]. by rewrite IH, after_of_app, app_assoc. Qed.

Lemma history_gives stream : gives stream (history_or_nothing (B := B) stream) (λ v past v' es, es = [] ∧ same_source v v' ∧
  ∃ fs r fs', Timeline (Stream_CompanyID stream) (Stream_InterviewID stream) (lastSent v) fs (event_rows v) = (r, fs', event_rows v) ∧
    past = past_of r).
Proof.
  intros fs v r fs' v' H. unfold history_or_nothing in H.
  destruct (on_log _ fs v) as [[r1 fs1] v1] eqn:E. apply on_log_silent in E as [E Hv].
  pose proof (Timeline_rows _ _ _ _ _ _ _ _ E) as Hr. rewrite Hr in Hv. rewrite Hr in E. clear Hr. subst v1.
  destruct r1 as [past|e]; simplify_eq; exists [], []; rewrite app_nil_r; (split_and!; [done|constructor|done|done|]).
  - exists fs, (Ok past), fs'. done.
  - exists fs, (Err e), fs'. done.
Qed.

Lemma backfill_gives history stream deep oldest last : gives stream
  (if needs_history history deep last oldest then past ← history_or_nothing stream; send_past (B := B) stream oldest past else mret ())
  (λ v _ v' es, same_source v v' ∧ (lastSent v = last → ∃ past, backfilled history stream deep oldest v past ∧ es = picks stream last past)).
Proof.
  unfold backfilled. destruct (needs_history _ _ _ _) eqn:E.
  - eapply gives_weaken; [apply gives_bind; [apply history_gives|]|].
    { intros past. rewrite send_past_all. apply send_all_gives. }
    intros w u w' es (past & w1 & es1 & es2 & (-> & [Hb Hr] & fsa & ra & fsb & HT & ->) & [[Hb1 Hr1] ->] & -> & Hl).
    rewrite after_of_nil in Hl. split; [split; congruence|]. intros <-. rewrite E, Hl. eauto 10.
  - eapply gives_weaken; [apply gives_ret|]. intros w u w' es (_ & -> & ->). split; [done|]. intros <-. rewrite E.
    by exists [].
Qed.

Lemma catchUp_gives history stream deep : gives stream (catchUp (B := B) history stream deep) (λ v _ v' es, caught_up history stream deep v v' es).
Proof.
  intros fs v r fs' v' H. unfold catchUp in H.
  apply bind_M_cases in H as [(last & fs1 & v1 & [= <- <- <-] & H)|(e' & [=] & _)].
  apply bind_M_cases in H as [([recent oldest] & fs2 & v2 & HR & H)|(e' & HR & ->)]; apply on_bus_silent in HR as [HR Hv].
  2: { exists [], [], (lastSent v). rewrite Hv, app_nil_r. split; [done|constructor]. }
  rewrite Hv in H.
  apply (gives_bind _ _ _ _ _ (backfill_gives history stream deep oldest (lastSent v)) (λ _, send_all_gives stream recent)) in H.
  destruct r as [[]|e]; [|done]. cbn in H.
  destruct H as (xs & es & Hw & Hs & _ & v3 & es1 & es2 & [[Hb Hr] Hp] & [[Hb' Hr'] ->] & -> & Hl).
  destruct (Hp eq_refl) as (past & Hpast & ->). exists xs. eexists. split_and!; [exact Hw|exact Hs|].
  exists recent, oldest, past, fs, fs2. cbn in *. rewrite picks_app, <-Hl. split_and!; [congruence|congruence|done|done].
Qed.

Definition delivered history stream e v v' es : Prop := ∃ v1 es1,
  (if add64 (lastSent v) 1 <? Event_Sequence e then caught_up history stream false v v1 es1 else v1 = v ∧ es1 = []) ∧
  lastSent v1 = after_of (lastSent v) es1 ∧ same_source v1 v' ∧ es = es1 ++ pick stream (lastSent v1) e.
Lemma deliver_gives history stream e : gives stream (deliver (B := B) history stream e) (λ v _ v' es, delivered history stream e v v' es).
Proof.
  intros fs v r fs' v' H. unfold deliver in H.
  apply bind_M_cases in H as [(last & fs1 & v1 & [= <- <- <-] & H)|(e' & [=] & _)].
  assert (Hfix : gives stream (if add64 (lastSent v) 1 <? Event_Sequence e then catchUp (B := B) history stream false else mret ())
    (λ w _ w' es, if add64 (lastSent v) 1 <? Event_Sequence e then caught_up history stream false w w' es else w' = w ∧ es = [])).
  { destruct (_ <? _); [apply catchUp_gives|]. eapply gives_weaken; [apply gives_ret|]. by intros ???? (_ & -> & ->). }
  apply (gives_bind _ _ _ _ _ Hfix (λ _, send_gives stream e)) in H. destruct r as [[]|err]; [|done]. cbn in H.
  destruct H as (xs & es & Hw & Hs & _ & v1 & es1 & es2 & Hc & [Hsame ->] & -> & Hl).
  exists xs. eexists. split_and!; [exact Hw|exact Hs|]. by exists v1, es1.
Qed.

Definition turned history stream (sub : nat) t v (go_on : bool) v' es : Prop :=
  match t with
  | Elsewhere f => go_on = true ∧ es = [] ∧ bus v' = f (bus v) ∧ event_rows v' = event_rows v
  | CtxDone => go_on = false ∧ es = []
  | Tick => go_on = true ∧ es = [] ∧ same_source v v'
  | Incoming =>
      ∃ r b, Receive sub (bus v) = (r, b) ∧
      match r with
      | None => go_on = true ∧ es = [] ∧ bus v' = b ∧ event_rows v' = event_rows v
      | Some None => go_on = false ∧ es = []
      | Some (Some e) => go_on = true ∧ delivered history stream e (mkViewing b (event_rows v) (written v) (lastSent v)) v' es
      end
  end.

Lemma one_turn_gives history stream sub t : gives stream (one_turn (B := B) history stream sub t)
  (λ v go_on v' es, turned history stream sub t v go_on v' es).
Proof.
  destruct t; cbn [turned one_turn].
  - intros fs v r fs' v' [= <- <- <-]. exists [], []. rewrite app_nil_r. split_and!; [done|constructor|done..].
  - eapply gives_weaken; [apply gives_ret|]. by intros ???? (-> & _ & ->).
  - eapply gives_weaken; [apply gives_bind; [apply gives_frame|intros ?; apply gives_ret]|].
    { intros a. repeat constructor. }
    intros v a v' es (u & v1 & es1 & es2 & [-> Hv] & (-> & -> & ->) & -> & _). done.
  - intros fs v r fs' v' H. apply bind_M_cases in H as [(x & fs1 & v1 & Hr & H)|(e' & Hr & _)]; unfold receive in Hr;
      destruct (Receive sub (bus v)) as [y b] eqn:ER; [|done]. injection Hr as -> <- <-.
    destruct x as [[e|]|].
    + apply (gives_bind _ _ _ _ _ (deliver_gives history stream e) (λ _, gives_ret stream true)) in H.
      destruct r as [go|err]; [|exact H]. cbn in H.
      destruct H as (xs & es & Hw & Hs & _ & v2 & es1 & es2 & Hd & (-> & -> & ->) & -> & _).
      rewrite app_nil_r in *. exists xs, es1. split_and!; [done|done|]. by exists (Some (Some e)), b.
    + injection H as <- <- <-. exists [], []. rewrite app_nil_r. split_and!; [done|constructor|by exists (Some None), b].
    + injection H as <- <- <-. exists [], []. rewrite app_nil_r. split_and!; [done|constructor|by exists None, b].
Qed.

(** Everything a run writes is shown, whatever fails. *)
Definition faithful {A} stream (m : M Viewing A) : Prop := gives stream m (λ _ _ _ _, True).
Lemma faithful_bind {A C} stream (m : M Viewing A) (f : A → M Viewing C) :
  faithful stream m → (∀ a, faithful stream (f a)) → faithful stream (m ≫= f).
Proof. intros Hm Hf. eapply gives_weaken; [by apply (gives_bind _ _ _ _ _ Hm Hf)|done]. Qed.
Lemma faithful_gives {A} stream (m : M Viewing A) Q : gives stream m Q → faithful stream m.
Proof. intros H. by eapply gives_weaken. Qed.

Lemma stream_loop_faithful history stream sub turns : faithful stream (stream_loop (B := B) history stream sub turns).
Proof.
  induction turns as [|t turns IH]; cbn; [eapply faithful_gives, gives_ret|].
  apply faithful_bind; [eapply faithful_gives, one_turn_gives|]. intros []; [done|eapply faithful_gives, gives_ret].
Qed.

Lemma open_stream_faithful history stream between : faithful stream (open_stream (B := B) history stream between).
Proof.
  intros fs v r fs' v' H. unfold open_stream in H.
  apply bind_M_cases in H as [(u & fs1 & v1 & H1 & H)|(e & H1 & ->)].
  all: apply catchUp_gives in H1; cbn in H1.
  2: exact H1.
  destruct H1 as (xs & es & Hw & Hs & _).
  apply bind_M_cases in H as [(last & fs2 & v2 & [= <- <- <-] & H)|(e' & [=] & _)].
  assert (Hs' : shows stream (lastSent v) (xs ++ [caught_up_frame (lastSent v1)]) (es ++ []) (lastSent v1)).
  { eapply shows_app; [exact Hs|]. constructor. constructor. }
  apply write_cases in H as [[-> ->]|[Hr Hv]]; [exists (xs ++ [caught_up_frame (lastSent v1)]), (es ++ []); by rewrite app_assoc, <-Hw|].
  destruct r; [done|]. destruct Hv as [->| ->]; [by exists xs, es, (lastSent v1)|].
  exists (xs ++ [caught_up_frame (lastSent v1)]), (es ++ []), (lastSent v1). by rewrite app_assoc, <-Hw.
Qed.

Lemma run_stream_faithful history stream sub between turns : faithful stream (run_stream (B := B) history stream sub between turns).
Proof. apply faithful_bind; [apply open_stream_faithful|intros ?; apply stream_loop_faithful]. Qed.

(** What a request may be shown. *)
Definition watches (access : option (UUID → UUID → result ())) (r : LiveRequest (B := B)) principal stream after : Prop :=
  live_principal r = Some principal ∧ Stream_CompanyID stream = Principal_CompanyID principal ∧
  uuid_Parse (live_id r) = Some (Stream_InterviewID stream) ∧
  LastEventID (last_event_header r) (last_event_param r) = Ok after ∧ 0 ≤ after ∧
  match access with Some check => check (Stream_CompanyID stream) (Stream_InterviewID stream) = Ok () | None => True end.

Lemma parseAfterSeq_range raw n : parseAfterSeq raw = Ok n → 0 ≤ n ≤ max_int64.
Proof.
  unfold parseAfterSeq. case_bool_decide; [intros [= <-]; unfold max_int64; lia|]. destruct (ParseInt raw) as [z|] eqn:Ep; [|done]. apply ParseInt_le in Ep.
  destruct (z <? 0) eqn:E; [done|]. intros [= <-]. bool_prop. lia.
Qed.

Lemma Live_shows access history r fs v end_ fs' v' : Live access history r fs v = (end_, fs', v') →
  written v' = written v ∨ ∃ principal stream after xs es last,
    watches access r principal stream after ∧ written v' = written v ++ xs ∧ shows stream after xs es last.
Proof.
  unfold Live, watches. intros H.
  destruct (live_principal r) as [principal|]; [|left; by simplify_eq].
  destruct (uuid_Parse (live_id r)) as [interview|]; [|left; by simplify_eq].
  destruct (LastEventID _ _) as [after|] eqn:Ea; [|left; by simplify_eq].
  destruct (match access with Some _ => _ | None => _ end) as [u|e] eqn:Ec.
  2: { left. destruct (errors_is e ErrMonitoringNotFound); [by simplify_eq|].
       destruct (errors_is e ErrMonitoringDisabled); by simplify_eq. }
  set (stream := mkStream (Principal_CompanyID principal) interview) in *.
  destruct (on_bus _ fs v) as [[rs fs1] v1] eqn:Es. apply on_bus_silent in Es as [_ Ev]. rewrite Ev in H. clear Ev.
  destruct rs as [sub|e]; [|left; by simplify_eq/=].
  destruct (can_stream r); cbn in H; [|left; by simplify_eq/=].
  destruct (run_stream _ _ _ _ _ _ _) as [[r2 fs2] v2] eqn:Er. apply run_stream_faithful in Er. cbn in Er.
  right. exists principal, stream, after. injection H as _ _ <-. cbn.
  assert (∃ xs es b, written v2 = written v ++ xs ∧ shows stream after xs es b) as (xs & es & b & ? & ?)
    by (destruct r2; naive_solver).
  exists xs, es, b. split_and!; try done; [by apply parseAfterSeq_range in Ea as []|].
  destruct access; [by destruct u|done].
Qed.

Lemma resume_at n : 0 ≤ n ≤ max_int64 → LastEventID (render_int n) "" = Ok n.
Proof.
  intros Hn. assert (Hp : parse_int64 (render_int n) = Some n) by (apply parse_render_int; unfold in_int64, min_int64; lia).
  unfold LastEventID, parseAfterSeq. destruct (render_int n) as [|c s] eqn:E; [done|].
  rewrite !(bool_decide_eq_false_2 (String c s = _)) by done.
  assert (Hc : ParseInt (String c s) = Some n).
  { destruct (decide (c = "+"%char)) as [->|Hc]; [done|]. rewrite <-Hp. by destruct c as [[][][][][][][][]]. }
  rewrite Hc. by rewrite (proj2 (Z.ltb_ge _ _)) by lia.
Qed.

(** C36: whatever the bus, the log and the other users of both do, and whatever
    fails, a request to the live endpoint writes nothing to a viewer unless an
    active member session with the permission to watch, access to the interview
    and a valid [Last-Event-ID] are there; what it writes then are the events of
    the member's company and of that interview only, each at most once, in
    strictly increasing order of their sequence numbers from above the
    [Last-Event-ID], each with its number as the id - from which a reconnecting
    viewer resumes - between heartbeats and at most the [caught_up] marks. *)
Theorem live_stream_faithful resolver access history (req : Request) (live : LiveRequest (B := B)) fs v end_ fs' v' :
  Live_route (λ body, (Ok (LiveRefused body), fs, v)) (λ m, m fs v) resolver access history req live = (end_, fs', v') →
  written v' = written v ∨
  ∃ p stream after xs es last,
    Resolve resolver req = Ok p ∧ Principal_Can p PermInterviewsLive = true ∧ watches access (set_principal (Some p) live) p stream after ∧
    written v' = written v ++ xs ∧ shows stream after xs es last ∧
    StronglySorted Z.lt (after :: map Event_Sequence es) ∧
    (∀ e, e ∈ es → of_stream stream e = true ∧ (Event_Sequence e ≤ max_int64 → LastEventID (render_int (Event_Sequence e)) "" = Ok (Event_Sequence e))).
Proof.
  unfold Live_route, Middleware. intros H. destruct (Resolve resolver req) as [p|e] eqn:Hr.
  2: { left. by destruct (errors_is e ErrUnauthenticated); simplify_eq. }
  unfold Require in H. destruct (Principal_Can p PermInterviewsLive) eqn:Hp; cbn [negb] in H; [|left; by simplify_eq].
  apply Live_shows in H as [H|(p' & stream & after & xs & es & last & Hw & Hx & Hs)]; [by left|right].
  assert (p' = p) as -> by (destruct Hw as [Hw _]; cbn in Hw; congruence).
  exists p, stream, after, xs, es, last. pose proof (shows_increasing _ _ _ _ _ Hs) as Hinc.
  split_and!; [done..|]. intros e He. split; [by eapply Forall_forall in He; [|by eapply shows_own]|].
  intros Hmax. apply resume_at. destruct Hw as (_ & _ & _ & _ & Hpos & _).
  assert (after < Event_Sequence e); [|lia]. inversion Hinc as [|?? _ Hall]; subst.
  eapply Forall_forall in Hall; [exact Hall|]. by apply list_elem_of_fmap_2.
Qed.
End Shown.
(** ** Examples *)
Module Example.
#[local] Instance lib : UuidLib := BinUuid.lib.
Definition stream : Stream := mkStream 1%N 2%N.
Definition event (n : Z) : Event :=
  mkReplayEvent "e" (uuid_String 1%N) (uuid_String 2%N) n "code.diff" 0 (Some JNull).
Definition put (n : Z) (b : MemoryBus) : MemoryBus := (memory_publish stream (event n) b).2.
Definition viewer (b : MemoryBus) (after : Z) : Viewing (B := MemoryBus) := mkViewing b [] [] after.
Definition shown_ids (v : Viewing (B := MemoryBus)) : list string :=
  omap (λ x, match x with WithID id _ _ => Some id | _ => None end) (written v).
Definition request (last_event_id : string) (turns : list turn) : LiveRequest (B := MemoryBus) :=
  mkLiveRequest (Some (mkPrincipal 1%N 3%N RoleOwner)) (uuid_String 2%N) last_event_id "" true [] turns.
Definition watch (last_event_id : string) (turns : list turn) (b : MemoryBus) : list string * MemoryBus :=
  let '(_, _, v) := Live None false (request last_event_id turns) [] (viewer b 0) in (shown_ids v, bus v).
Definition session : Session := Domain.mkSession 9%N 1%N (Some 3%N) None SessionStateActive "" 1000 None 0 None.
Definition member : Resolver := mkResolver (λ _, Ok session) (λ _ _, Ok RoleOwner) 500.
Definition routed : result live_end * script * Viewing (B := MemoryBus) :=
  Live_route (λ body, (Ok (LiveRefused body), [], viewer (NewMemoryBus 100) 0)) (λ m, m [] (viewer (NewMemoryBus 100) 0)) member None false
    (mkRequest "Bearer token") (request "" [Elsewhere (put 1); Incoming; Tick; Elsewhere (put 4); Incoming]).
End Example.
#[local] Existing Instance Example.lib.

(** The completion of a prompt carries the number reserved when the prompt was
    recorded, so later diffs reach the bus before it.  A viewer who was shown
    them is never shown the completion, and neither is the same viewer
    reconnecting with the last id, although the ring has it. *)
Theorem late_completion_never_shown :
  let '(first, b) := Example.watch "" [Elsewhere (Example.put 1); Incoming; Elsewhere (Example.put 3); Incoming;
    Elsewhere (Example.put 2); Incoming; Tick] (NewMemoryBus 100) in
  let '(again, b) := Example.watch "3" [Incoming] b in
  first = ["1"; "3"]%string ∧ again = [] ∧ map Event_Sequence (memory_recent Example.stream 0 b).1 = [1; 2; 3].
Proof. vm_compute. auto. Qed.

Lemma live_stream_faithful_witness :
  Example.shown_ids Example.routed.2 = ["1"; "4"]%string ∧
  ∃ p stream after xs es last, Resolve Example.member (mkRequest "Bearer token") = Ok p ∧
    Stream_CompanyID stream = Principal_CompanyID p ∧ written Example.routed.2 = xs ∧ shows stream after xs es last.
Proof.
  assert (E : Example.shown_ids Example.routed.2 = ["1"; "4"]%string) by (vm_compute; reflexivity). split; [exact E|].
  assert (H0 : Example.routed = (Example.routed.1.1, Example.routed.1.2, Example.routed.2)) by (by destruct Example.routed as [[??]?]).
  destruct (live_stream_faithful Example.member None false (mkRequest "Bearer token")
    (Example.request "" [Elsewhere (Example.put 1); Incoming; Tick; Elsewhere (Example.put 4); Incoming]) []
    (Example.viewer (NewMemoryBus 100) 0) Example.routed.1.1 Example.routed.1.2 Example.routed.2 H0)
    as [H|(p & stream & after & xs & es & last & Hr & _ & (_ & Hc & _) & Hw & Hs & _)].
  - exfalso. unfold Example.shown_ids in E. rewrite H in E. discriminate E.
  - exists p, stream, after, xs, es, last. exact (conj Hr (conj Hc (conj Hw Hs))).
Defined.

(** ** What the ingester commits *)

(** A bus that remembers what it accepted. *)
Record Observed (B : Type) := mkObserved { observed : B; accepted : list (Stream * Event) }.
Arguments mkObserved {B} _ _.
Arguments observed {B} _.
Arguments accepted {B} _.
Section Observing.
Context {B : Type} `{LB : LiveBus B}.
Definition observe {A} (f : A → list (Stream * Event)) (m : M B A) : M (Observed B) A := λ fs o,
  let '(r, fs, b) := m fs (observed o) in
  (r, fs, mkObserved b (accepted o ++ match r with Ok a => f a | Err _ => [] end)).
#[export] Instance Observed_bus : LiveBus (Observed B) := {|
  Publish stream e := observe (λ _, [(stream, e)]) (Publish stream e);
  Recent stream after := observe (λ _, []) (Recent stream after);
  Subscribe stream := observe (λ _, []) (Subscribe stream);
  Receive i o := let '(r, b) := Receive i (observed o) in (r, mkObserved b (accepted o));
  Close i o := mkObserved (Close i (observed o)) (accepted o);
|}.
End Observing.

Section Ingesting.
Context `{uuids : UuidLib} {B : Type} `{LB : LiveBus B}.
Notation World := (Ingester (B := Observed B)).

Inductive ingest_op :=
  | Produced (p : Z) (value : RawMessage)
  (* others use the bus: viewers, other replicas, the expiry of rings *)
  | BusUsed (f : B → B)
  (* a process starts at the committed offsets and runs until it fails or is stopped *)
  | IngestProcess (on_invalid : bool) (turns : list ingest_turn).
Definition ingest_exec (o : ingest_op) (w : World) : World :=
  match o with
  | Produced p v =>
      let g := group w in
      mkIngester (mkLogWorld (<[p := partition g p ++ [v]]> (topic g)) (committed g) (position g) (events_table g) (reported g)) (ingest_bus w)
  | BusUsed f => mkIngester (group w) (mkObserved (f (observed (ingest_bus w))) (accepted (ingest_bus w)))
  | IngestProcess on_invalid turns =>
      (Ingest on_invalid turns (mkIngester (set_position (λ _, committed (group w)) (group w)) (ingest_bus w))).2
  end.
Definition ingest_history (ops : list ingest_op) (w : World) : World := foldl (λ w o, ingest_exec o w) w ops.

(** A message of the topic is on the bus, or cannot be decoded. *)
Definition on_bus_or_invalid (w : World) (v : RawMessage) : Prop :=
  (∃ now e, DecodeMessage v now = Err e) ∨
  ∃ now stream e, DecodeMessage v now = Ok (stream, e) ∧ (stream, e) ∈ accepted (ingest_bus w).

Definition below (w : World) (offsets : gmap Z nat) : Prop :=
  ∀ p i, (i < offset_of offsets p)%nat → ∃ v, partition (group w) p !! i = Some v ∧ on_bus_or_invalid w v.

(** Steps that keep the topic and what is accepted. *)
Definition onwards (w w' : World) : Prop :=
  (∀ p, ∃ l, partition (group w') p = partition (group w) p ++ l) ∧ (∀ x, x ∈ accepted (ingest_bus w) → x ∈ accepted (ingest_bus w')).
Lemma on_bus_onwards w w' v : onwards w w' → on_bus_or_invalid w v → on_bus_or_invalid w' v.
Proof. intros [_ H] [?|(now & s & e & ? & ?)]; [by left|right]. exists now, s, e. auto. Qed.

Lemma below_onwards w w' offsets : onwards w w' → below w offsets → below w' offsets.
Proof.
  intros Hon Hb p i Hi. destruct (Hb p i Hi) as (v & Hv & H). exists v. split; [|by eapply on_bus_onwards].
  destruct Hon as [Hp _]. destruct (Hp p) as [l ->]. by apply lookup_app_l_Some.
Qed.

Lemma Handle_cases on_invalid now m fs (w : World) r fs' w' : Handle on_invalid now m fs w = (r, fs', w') →
  onwards w w' ∧ topic (group w') = topic (group w) ∧ committed (group w') = committed (group w) ∧ position (group w') = position (group w) ∧
  (is_ok r = true → on_bus_or_invalid w' (Value m)).
Proof.
  unfold Handle. destruct (DecodeMessage (Value m) now) as [[stream e]|e] eqn:Ed.
  - cbn. unfold observe. destruct (Publish stream e fs (observed (ingest_bus w))) as [[r1 fs1] b1]. intros [= <- <- <-]. cbn.
    split_and!; try done.
    + split; cbn; [intros p; exists []; by rewrite app_nil_r|]. intros x Hx. apply elem_of_app. by left.
    + destruct r1; cbn; [|done]. intros _. right. exists now, stream, e. cbn. split; [done|]. apply elem_of_app. right. by apply list_elem_of_singleton.
  - intros [= <- <- <-]. destruct on_invalid; cbn; (split_and!; try done; [split; cbn; [intros p; exists []; by rewrite app_nil_r|done]|]);
      intros _; left; eauto.
Qed.

Lemma ingest_one_ok on_invalid t w e w' : below w (committed (group w)) → below w (position (group w)) →
  ingest_one on_invalid t w = (e, w') → below w' (committed (group w')) ∧ (e = None → below w' (position (group w'))).
Proof.
  intros Hc Hp H. unfold ingest_one in H. destruct (FetchMessage _ _) as [[r ds] g] eqn:Ef.
  destruct (fetched _ _ _ _ _ Ef) as (Ht & Hcg & Hr). set (w1 := mkIngester g (ingest_bus w)) in *.
  assert (Hon1 : onwards w w1) by (split; cbn; [intros p; exists []; unfold partition; by rewrite Ht, app_nil_r|done]).
  assert (Hc1 : below w1 (committed g)) by (rewrite Hcg; by eapply below_onwards).
  destruct r as [[m|err]|].
  2, 3: injection H as <- <-; split; [done|]; intros _ p i Hi; destruct (Hr p i Hi); [by eapply below_onwards in Hp; [apply Hp|]|by eapply below_onwards in Hc; [apply Hc|]].
  destruct Hr as (Hv & Hpos & Hr). destruct (Handle _ _ _ _ _) as [[rh fs] w2] eqn:Eh.
  destruct (Handle_cases _ _ _ _ _ _ _ _ Eh) as (Hon2 & Ht2 & Hc2 & Hp2 & Hok).
  assert (Hc3 : below w2 (committed (group w2))) by (rewrite Hc2; by eapply below_onwards).
  destruct rh as [u|err]; [|by injection H as <- <-].
  assert (Hp3 : below w2 (position (group w2))).
  { rewrite Hp2. intros p i Hi. destruct (Hr p i Hi) as [Hi'|[Hi'|[-> ->]]].
    - eapply below_onwards; [exact Hon2|eapply below_onwards; [exact Hon1|exact Hp]|done].
    - eapply below_onwards; [exact Hon2|eapply below_onwards; [exact Hon1|exact Hc]|done].
    - exists (Value m). split; [|by apply Hok]. unfold partition in *. by rewrite Ht2; cbn; rewrite Ht. }
  destruct (exec _ _ _) as [[rc fs2] g2] eqn:Ee. injection H as <- <-. cbn [group ingest_bus].
  apply exec_cases in Ee as Hg.
  assert (Hg2 : g2 = group w2 ∨ g2 = commit_offsets [m] (group w2)) by naive_solver. clear Ee Hg.
  destruct Hg2 as [-> | ->]; [by destruct w2|]. cbn [group ingest_bus].
  assert (Hon3 : onwards w2 (mkIngester (commit_offsets [m] (group w2)) (ingest_bus w2))).
  { split; cbn; [intros p; exists []; by rewrite app_nil_r|done]. }
  split; [|intros _; by eapply below_onwards].
  eapply below_onwards; [exact Hon3|]. intros p i Hi.
  destruct (commit_offset [m] (group w2) p) as [(m' & ->%list_elem_of_singleton & <- & E)|E]; rewrite E in Hi; [|by apply Hc3].
  apply Hp3. rewrite Hp2. cbn. rewrite Hpos. lia.
Qed.

Lemma Ingest_ok on_invalid turns w e w' : below w (committed (group w)) → below w (position (group w)) →
  Ingest on_invalid turns w = (e, w') → below w' (committed (group w')).
Proof.
  revert w. induction turns as [|t turns IH]; intros w Hc Hp H; cbn in H; [by injection H as _ <-|].
  destruct (ingest_one on_invalid t w) as [e1 w1] eqn:E. destruct (ingest_one_ok _ _ _ _ _ Hc Hp E) as [Hc1 Hp1].
  destruct e1; [by injection H as _ <-|]. by apply (IH w1); [|apply Hp1|].
Qed.

(** Through any history of produced messages, uses of the bus by others,
    ingester processes, failures of Kafka and of the bus, and restarts, every
    message below a committed offset was accepted by the bus under its stream, or
    is not a decodable interview event: a crash can repeat an event on the bus,
    never skip one. *)
Theorem ingest_publishes_before_commit ops (b : B) p i :
  let w := ingest_history ops (mkIngester empty_log (mkObserved b [])) in
  (i < offset_of (committed (group w)) p)%nat →
  ∃ v, partition (group w) p !! i = Some v ∧
    ((∃ now e, DecodeMessage v now = Err e) ∨
     ∃ now stream e, DecodeMessage v now = Ok (stream, e) ∧ (stream, e) ∈ accepted (ingest_bus w)).
Proof.
  intros w Hi. assert (H : below w (committed (group w))); [|by apply (H p i)]. unfold w, ingest_history. clear.
  assert (H0 : below (mkIngester empty_log (mkObserved b [])) (committed (group (mkIngester empty_log (mkObserved b []))))).
  { intros p i Hi. unfold offset_of in Hi. cbn in Hi. rewrite lookup_empty in Hi. cbn in Hi. lia. }
  revert H0. generalize (mkIngester empty_log (mkObserved b [])). induction ops as [|o ops IH]; intros w H; [done|].
  cbn. apply IH. destruct o as [p v|f|on_invalid turns]; cbn [ingest_exec].
  - eapply below_onwards; [|exact H]. split; [|done]. intros q. unfold partition. cbn.
    destruct (decide (p = q)) as [->|Hne]; [rewrite lookup_insert_eq; by exists [v]|rewrite lookup_insert_ne by done; exists []; by rewrite app_nil_r].
  - eapply below_onwards; [|exact H]. split; [|done]. intros q. exists []. by rewrite app_nil_r.
  - destruct (Ingest _ _ _) as [e w'] eqn:E. eapply Ingest_ok; [| |exact E]; cbn; intros q i Hi; by apply (H q i).
Qed.
End Ingesting.

Module Ingested.
Definition payload : json := JObject [("session_id"%string, JString "s"); ("interview_id"%string, JString "0h")].
Definition value : RawMessage :=
  Some (JObject [("event_id"%string, JString "e"); ("event_type"%string, JString "code.diff"); ("company_id"%string, JString "h");
    ("sequence_number"%string, JNumber "1"); ("occurred_at"%string, JString "2026-01-01T00:00:00Z"); ("schema_version"%string, JNumber "1");
    ("payload"%string, payload)]).
Definition lost : error := Plain "connection lost".
(** A fetch fails, then a commit; the third process commits. *)
Definition ops : list ingest_op :=
  [Produced 0 value;
   IngestProcess (B := MemoryBus) true [mkIngestTurn [FetchFails lost] None 0 []];
   IngestProcess true [mkIngestTurn [Next 0] None 0 [Fault lost]];
   BusUsed (λ b, (memory_subscribe Example.stream b).2);
   IngestProcess true [mkIngestTurn [Next 0] None 0 []]].
Definition after : Ingester := ingest_history ops (mkIngester empty_log (mkObserved (NewMemoryBus 10) [])).
End Ingested.
Lemma ingest_publishes_before_commit_witness :
  (0 < offset_of (committed (group Ingested.after)) 0)%nat ∧
  map (λ x, Event_Sequence x.2) (accepted (ingest_bus Ingested.after)) = [1; 1] ∧
  ∃ v, partition (group Ingested.after) 0 !! 0%nat = Some v ∧
    ((∃ now e, DecodeMessage v now = Err e) ∨
     ∃ now stream e, DecodeMessage v now = Ok (stream, e) ∧ (stream, e) ∈ accepted (ingest_bus Ingested.after)).
Proof.
  assert (H : (0 < offset_of (committed (group Ingested.after)) 0)%nat) by (vm_compute; lia).
  split; [exact H|]. split; [vm_compute; reflexivity|].
  exact (ingest_publishes_before_commit Ingested.ops (NewMemoryBus 10) 0 0 H).
Defined.
