(* ===== verification/LiveBuses.v ===== *)
(** * The buses agree, and a viewer misses nothing (internal/livemonitor)

    [BusLaws]: an implementation of [LiveBus] is a best-effort [MemoryBus] seen
    through [models]: one whose channels hold everything on its way to a reader,
    and may lose any of it.  The memory bus is one, losing what finds a channel
    full; the Redis bus is one while sequence numbers are exact doubles, with
    the messages its forwarder has not taken yet on their way, and rings that
    expire.  Where nothing is lost and nothing expires, it answers like the
    memory bus.  Over any bus with the laws, a viewer who reads the ring, repairs
    gaps from it and drains the subscription is shown every event above the
    [Last-Event-ID]. *)
From S2P Require Import Prelude Str GoTime Json JsonText Rfc3339 Codec Events Sse Tx Domain Rbac Store EventLog AdminStore Live.

#[local] Arguments unmarshal_event : simpl never.
#[local] Arguments after_of : simpl never.
#[local] Arguments pick : simpl never.

(** ** The abstract bus *)

(** Integers a double holds exactly. *)
Definition exact (n : Z) : Prop := Z.abs n ≤ 9007199254740992.

Lemma double_exact n : exact n → double_of n = n.
Proof. unfold exact, double_of. intros H. by rewrite (proj2 (Z.leb_le _ _)). Qed.

(** Publishing on the abstract bus: every open subscription of the stream has
    the event on its way. *)
Definition append_event (e : Event) (c : Channel) : Channel :=
  if ch_closed c then c else mkChannel (ch_stream c) (ch_buffer c ++ [e]) false.
Definition announce (stream : Stream) (e : Event) (m : MemoryBus) : bool * MemoryBus :=
  let '(fresh, m') := memory_publish stream e m in
  (fresh, if fresh : bool
          then mkMemoryBus (mb_capacity m') (mb_rings m')
                 ((λ c, if decide (ch_stream c = stream) then append_event e c else c) <$> mb_subs m) (mb_next m')
          else m').
(** Some events on their way to readers are lost. *)
Definition thinned (c c' : Channel) : Prop :=
  ch_stream c' = ch_stream c ∧ ch_closed c' = ch_closed c ∧ ch_buffer c' `sublist_of` ch_buffer c.
Record lossy (m m' : MemoryBus) : Prop := {
  lo_capacity : mb_capacity m' = mb_capacity m;
  lo_rings : mb_rings m' = mb_rings m;
  lo_next : mb_next m' = mb_next m;
  lo_subs : ∀ i, option_Forall2 thinned (mb_subs m !! i) (mb_subs m' !! i);
}.
Definition open_in (m : MemoryBus) (i : nat) : Prop := ∃ c, mb_subs m !! i = Some c ∧ ch_closed c = false.

Lemma thinned_refl c : thinned c c.
Proof. by split_and!. Qed.
Lemma lossy_refl m : lossy m m.
Proof. split; try done. intros i. destruct (mb_subs m !! i); constructor. apply thinned_refl. Qed.
Lemma lossy_trans m1 m2 m3 : lossy m1 m2 → lossy m2 m3 → lossy m1 m3.
Proof.
  intros [C1 R1 N1 S1] [C2 R2 N2 S2]. split; [congruence..|]. intros i. specialize (S1 i). specialize (S2 i).
  destruct (mb_subs m1 !! i), (mb_subs m2 !! i), (mb_subs m3 !! i); inversion S1; inversion S2; subst; constructor.
  unfold thinned in *. destruct_and!. split_and!; [congruence..|]. by etrans.
Qed.

Class BusLaws (B : Type) `{LiveBus B} := {
  models : B → MemoryBus → Prop;
  (** The events the bus can carry. *)
  carried : Event → Prop;
  Publish_models b m stream e fs r fs' b' : models b m → carried e →
    Publish stream e fs b = (r, fs', b') →
    let '(fresh, m1) := announce stream e m in
    match r with
    | Ok r => r = fresh ∧ ∃ m', lossy m1 m' ∧ models b' m'
    | Err _ => models b' m ∨ ∃ m', lossy m1 m' ∧ models b' m'
    end;
  Recent_models b m stream after fs r fs' b' : models b m → exact after →
    Recent stream after fs b = (r, fs', b') →
    models b' m ∧ ∀ found, r = Ok found → found = memory_recent stream after m;
  (** A call that meets no fault leaves none. *)
  Recent_quiet b stream after r fs' b' : Recent stream after [] b = (r, fs', b') → fs' = [];
  Subscribe_models b m stream fs r fs' b' : models b m →
    Subscribe stream fs b = (r, fs', b') →
    let '(sub, m') := memory_subscribe stream m in
    match r with
    | Ok r => r = sub ∧ models b' m'
    | Err _ => models b' m ∨ models b' m'
    end;
  (** A reader gets the next event, or waits although one is on its way. *)
  Receive_models b m sub : models b m → open_in m sub →
    (Receive sub b).1 = None ∧ models (Receive sub b).2 m ∨
    (Receive sub b).1 = (Receive sub m).1 ∧ models (Receive sub b).2 (Receive sub m).2;
  Close_models b m sub : models b m → models (Close sub b) (Close sub m);
}.

(** A channel that takes what it has room for loses the rest. *)
Lemma offer_thinned e c : thinned (append_event e c) (offer e c).
Proof.
  unfold append_event, offer. destruct (ch_closed c) eqn:Ec; [apply thinned_refl|]. cbn [orb].
  destruct (negb _); [|apply thinned_refl]. split_and!; [done|done|]. cbn. by apply sublist_inserts_r.
Qed.
Lemma memory_publish_lossy stream e m : lossy (announce stream e m).2 (memory_publish stream e m).2.
Proof.
  unfold announce, memory_publish. destruct (has_sequence _ _); cbn; [apply lossy_refl|].
  split; try done. intros i. cbn. unfold fan_out. rewrite !lookup_fmap. destruct (mb_subs m !! i) as [c|]; cbn; constructor.
  case_decide; [apply offer_thinned|apply thinned_refl].
Qed.
Lemma announce_fresh stream e m : (announce stream e m).1 = (memory_publish stream e m).1.
Proof. unfold announce. by destruct (memory_publish stream e m). Qed.
Lemma announce_rings stream e m : mb_capacity (announce stream e m).2 = mb_capacity (memory_publish stream e m).2 ∧
  mb_rings (announce stream e m).2 = mb_rings (memory_publish stream e m).2 ∧ mb_next (announce stream e m).2 = mb_next m.
Proof. unfold announce, memory_publish. by destruct (has_sequence _ _). Qed.

#[export] Program Instance MemoryBus_laws : BusLaws MemoryBus := {|
  models := eq;
  carried _ := True;
|}.
Next Obligation.
  intros b m stream e fs r fs' b' <- _ H. cbn in H. unfold sure in H.
  pose proof (memory_publish_lossy stream e b) as Hl. pose proof (announce_fresh stream e b) as Hf.
  destruct (memory_publish stream e b) as [fresh m'], (announce stream e b) as [fresh' m1]. cbn in *. simplify_eq. eauto.
Qed.
Next Obligation. intros b m stream after fs r fs' b' <- _ H. cbn in H. injection H as <- <- <-. split; [done|]. by intros ? [= <-]. Qed.
Next Obligation. by intros b stream after r fs' b' [= <- <- <-]. Qed.
Next Obligation.
  intros b m stream fs r fs' b' <- H. cbn in H. unfold sure in H. by simplify_eq/=.
Qed.
Next Obligation. intros b m sub <- _. by right. Qed.
Next Obligation. by intros b m sub <-. Qed.

(** ** The Redis bus *)

(** Rendered uuids are hexadecimal digits and dashes. *)
Class PlainUuids `{UuidLib} := plain_uuid (u : UUID) :
  contains_char ":" (uuid_String u) = false ∧ contains_char "}" (uuid_String u) = false.

Lemma cut_at (c : ascii) a b x y : contains_char c a = false → contains_char c b = false →
  a +:+ String c x = b +:+ String c y → a = b ∧ x = y.
Proof.
  revert b. induction a as [|a1 a IH]; intros [|b1 b] Ha Hb E; cbn in *.
  - by simplify_eq.
  - injection E as -> _. by rewrite Ascii.eqb_refl in Hb.
  - injection E as <- _. by rewrite Ascii.eqb_refl in Ha.
  - injection E as -> E. apply orb_false_iff in Ha as [_ Ha], Hb as [_ Hb].
    by destruct (IH b Ha Hb E) as [-> ->].
Qed.

Section RedisLaws.
Context `{uuids : UuidLib} `{plain : !PlainUuids}.

Lemma append_inj_l p x y : p +:+ x = p +:+ y → x = y.
Proof. induction p as [|c p IH]; cbn; [done|]. intros [= E]. auto. Qed.

Lemma append_assoc_s a b c : (a +:+ b) +:+ c = a +:+ (b +:+ c).
Proof. induction a as [|x a IH]; cbn; [done|]. by rewrite IH. Qed.

Lemma hash_tag_inj prefix s s' suf : hash_tag prefix s +:+ suf = hash_tag prefix s' +:+ suf → s = s'.
Proof.
  unfold hash_tag. rewrite !append_assoc_s. intros E%append_inj_l. cbn in E. injection E as E.
  rewrite !append_assoc_s in E. cbn in E.
  apply cut_at in E as [Ec E]; [|apply plain_uuid..]. rewrite !append_assoc_s in E. cbn in E.
  apply cut_at in E as [Ei _]; [|apply plain_uuid..].
  apply uuid_String_inj in Ec, Ei. destruct s, s'; cbn in *. by subst.
Qed.

Definition event_ok (e : Event) : Prop := Forall2 (λ sp v, value_ok (spec_kind sp) v) event_schema (event_values e).
Lemma event_json_roundtrip e : event_ok e → ∃ j, event_json e = Ok j ∧ unmarshal_event (Some j) = Some e.
Proof.
  intros Hok. destruct (decode_marshal event_schema (event_values e)) as (j & Hj & Hd).
  { apply (bool_decide_eq_true_1 _). vm_compute. reflexivity. }
  { exact Hok. }
  exists j. split; [exact Hj|]. unfold unmarshal_event. rewrite Hd. by destruct e.
Qed.


Definition storable (e : Event) : Prop := exact (Event_Sequence e) ∧ event_ok e.
(** A member of the sorted set and the event it is. *)
Definition stored (e : Event) (m : Z * json) : Prop :=
  storable e ∧ m.1 = Event_Sequence e ∧ event_json e = Ok m.2.

(** What is on its way to a reader: what the forwarder has put in the channel,
    then what it has yet to take. *)
Record sub_models (prefix : string) (s : RedisSub) (c : Channel) : Prop := {
  sm_channel : sub_channel s = channel prefix (ch_stream c);
  sm_stream : ch_stream (sub_out s) = ch_stream c;
  sm_closed : ch_closed (sub_out s) = ch_closed c;
  sm_waiting : ch_closed c = false → ∃ es, Forall2 (λ j e, unmarshal_event (Some j) = Some e) (sub_pending s) es ∧
    ch_buffer c = ch_buffer (sub_out s) ++ es;
}.
Record redis_models (b : RedisBus) (m : MemoryBus) : Prop := {
  rm_capacity : rb_capacity b = mb_capacity m;
  rm_keeps : 0 ≤ mb_capacity m;
  rm_ttl : 0 < milliseconds (rb_ttl b);
  rm_next : rb_next b = mb_next m;
  rm_subs : ∀ i, option_Forall2 (sub_models (rb_prefix b)) (rb_subs b !! i) (mb_subs m !! i);
  rm_rings : ∀ stream, Forall2 stored (default [] (mb_rings m !! stream)) (live_zset (ringKey (rb_prefix b) stream) b);
}.

(** Sorting, searching and cutting related lists. *)
Lemma sort_stable_Forall2 {A C} (R : A → C → Prop) (less : A → A → bool) (less' : C → C → bool) :
  (∀ x y x' y', R x x' → R y y' → less x y = less' x' y') →
  ∀ l l', Forall2 R l l' → Forall2 R (sort_stable less l) (sort_stable less' l').
Proof.
  intros Hl. assert (Hins : ∀ x x' l l', R x x' → Forall2 R l l' → Forall2 R (insert_stable less x l) (insert_stable less' x' l')).
  { intros x x' l l' Hx Hll. induction Hll as [|y y' l l' Hy Hll IH]; cbn; [by repeat constructor|].
    rewrite (Hl y x y' x') by done. destruct (less' y' x'); by repeat constructor. }
  induction 1; cbn; [constructor|]. by apply Hins.
Qed.
Lemma existsb_Forall2 {A C} (R : A → C → Prop) f g l l' : (∀ x y, R x y → f x = g y) → Forall2 R l l' → existsb f l = existsb g l'.
Proof. intros Hf. induction 1 as [|x y l l' Hx _ IH]; cbn; [done|]. by rewrite (Hf x y), IH. Qed.
Lemma filter_Forall2 {A C} (R : A → C → Prop) f g l l' : (∀ x y, R x y → f x = g y) → Forall2 R l l' →
  Forall2 R (List.filter f l) (List.filter g l').
Proof. intros Hf. induction 1 as [|x y l l' Hx _ IH]; cbn; [constructor|]. rewrite (Hf x y) by done. destruct (g y); by repeat constructor. Qed.
Lemma newest_of_Forall2 {A C} (R : A → C → Prop) n l l' : Forall2 R l l' → Forall2 R (newest_of n l) (newest_of n l').
Proof. intros H. unfold newest_of. rewrite (Forall2_length _ _ _ H). by apply Forall2_drop. Qed.

Lemma remove_ranks_newest {A} capacity (l : list A) : 0 ≤ capacity → remove_ranks (- (capacity + 1)) l = newest_of capacity l.
Proof. intros H. unfold remove_ranks, newest_of. rewrite (proj2 (Z.ltb_lt _ _)) by lia. f_equal. lia. Qed.
Lemma ringKey_inj prefix s s' : ringKey prefix s = ringKey prefix s' → s = s'.
Proof. apply hash_tag_inj. Qed.
Lemma channel_inj prefix s s' : channel prefix s = channel prefix s' → s = s'.
Proof. apply hash_tag_inj. Qed.

(** The subscribers and the ring of a publication. *)
Lemma deliver_models prefix stream e j s c : unmarshal_event (Some j) = Some e → sub_models prefix s c →
  sub_models prefix (deliver_to (channel prefix stream) j s) (if decide (ch_stream c = stream) then append_event e c else c).
Proof.
  intros Hun Hs. pose proof Hs as [Hch Hst Hcl Hw]. unfold deliver_to. rewrite Hch, Hcl. destruct (decide (ch_stream c = stream)) as [<-|Hne].
  - rewrite bool_decide_eq_true_2 by done. unfold append_event. destruct (ch_closed c) eqn:Ec; cbn; [exact Hs|].
    destruct (Hw eq_refl) as (es & Hes & Hb). split; cbn; [done|done|congruence|]. intros _. exists (es ++ [e]).
    split; [apply Forall2_app; [done|by repeat constructor]|]. by rewrite Hb, app_assoc.
  - rewrite bool_decide_eq_false_2 by (intros E; by apply channel_inj in E). exact Hs.
Qed.
Lemma publish_script_models b m stream e j : redis_models b m → exact (Event_Sequence e) → stored e (Event_Sequence e, j) →
  unmarshal_event (Some j) = Some e →
  let '(fresh, b1) := publish_script (ringKey (rb_prefix b) stream) (channel (rb_prefix b) stream) (Event_Sequence e) j
    (rb_capacity b) (milliseconds (rb_ttl b)) b in
  (announce stream e m).1 = fresh ∧ redis_models b1 (announce stream e m).2.
Proof.
  intros Hm Hx Hst Hun. unfold publish_script, announce, memory_publish, has_sequence. rewrite (double_exact _ Hx).
  pose proof Hm as [Hcap Hkeep Httl Hnext Hsubs Hrings].
  rewrite (existsb_Forall2 stored _ (λ m, m.1 =? Event_Sequence e) _ _) by (try apply Hrings; by intros x y (_ & -> & _)).
  destruct (existsb _ _); [done|]. split; [done|]. split; cbn; try done.
  - intros i. rewrite !lookup_fmap. specialize (Hsubs i). inversion Hsubs as [s c Hs E1 E2|E1 E2]; cbn; constructor.
    by apply deliver_models.
  - intros s. unfold live_zset. cbn [zsets rb_clock rb_prefix]. destruct (decide (s = stream)) as [->|Hne].
    + rewrite !lookup_insert_eq, (proj2 (Z.ltb_lt _ _)) by lia. cbn. rewrite remove_ranks_newest, Hcap by lia. apply newest_of_Forall2.
      apply sort_stable_Forall2; [|apply Forall2_app; [apply Hrings|constructor; [exact Hst|constructor]]].
      intros x y x' y' (_ & Hx' & _) (_ & Hy' & _). unfold seq_less, zscore_less. by rewrite Hx', Hy'.
    + rewrite !lookup_insert_ne; [apply Hrings| |congruence]. intros E%ringKey_inj. congruence.
Qed.

Lemma redis_publish_models b m stream e fs r fs' b' : redis_models b m → storable e →
  redis_publish stream e fs b = (r, fs', b') →
  let '(fresh, m') := announce stream e m in
  match r with Ok r => r = fresh ∧ redis_models b' m' | Err _ => redis_models b' m ∨ redis_models b' m' end.
Proof.
  intros Hm [Hx Hok] H. destruct (event_json_roundtrip e Hok) as (j & Hj & Hun).
  unfold redis_publish in H. rewrite Hj in H. cbn in H. apply wrapM_cases in H as (r0 & H & ->).
  pose proof (publish_script_models b m stream e j Hm Hx ltac:(by split) Hun) as Hs.
  destruct (publish_script _ _ _ _ _ _ b) as [fresh' b1] eqn:Ep. destruct (announce stream e m) as [fresh m']. destruct Hs as [<- Hs].
  apply exec_cases in H as [(a & -> & [= H])|[Hr Hb]]; [rewrite Ep in H; by injection H as <- <-|].
  destruct r0; [done|]. destruct Hb as [->|[a [= H]]]; [by left|right]. rewrite Ep in H. by injection H as <- <-.
Qed.

Lemma decode_stored es zs : Forall2 stored es zs → decode_members zs = Some es.
Proof.
  induction 1 as [|e [n j] es zs ([_ Hok] & _ & Hj) _ IH]; cbn; [done|]. rewrite IH.
  destruct (event_json_roundtrip e Hok) as (j' & Hj' & Hun). cbn in Hj. rewrite Hj in Hj'. injection Hj' as <-.
  by rewrite Hun.
Qed.

Lemma redis_recent_models b m stream after fs r fs' b' : redis_models b m → exact after →
  redis_recent stream after fs b = (r, fs', b') →
  redis_models b' m ∧ ∀ found, r = Ok found → found = memory_recent stream after m.
Proof.
  intros Hm Ha H. unfold redis_recent in H.
  apply bind_M_cases in H as [([raw oldest] & fs1 & b1 & H1 & H)|(e & H1 & ->)];
    apply wrapM_cases in H1 as (r0 & H1 & Hr0); apply query_cases in H1 as [-> Hr]; [|done].
  destruct r0 as [x|]; [|done]. destruct Hr as [[= ->]|[=]]. injection Hr0 as -> ->.
  rewrite (double_exact _ Ha) in H. pose proof (rm_rings _ _ Hm stream) as Hring.
  rewrite (decode_stored (above after (default [] (mb_rings m !! stream)))) in H.
  2: { apply filter_Forall2; [|exact Hring]. intros x y (_ & -> & _). done. }
  injection H as <- <- <-. split; [exact Hm|]. intros found [= <-]. unfold memory_recent. f_equal.
  destruct Hring as [|e [n j] es zs ([Hx _] & Hn & _) _]; [done|]. cbn in *. subst n. apply wrap64_id.
  unfold exact in Hx. unfold_int64. lia.
Qed.

Lemma redis_subscribe_models b m stream fs r fs' b' : redis_models b m →
  redis_subscribe stream fs b = (r, fs', b') →
  let '(sub, m') := memory_subscribe stream m in
  match r with Ok r => r = sub ∧ redis_models b' m' | Err _ => redis_models b' m ∨ redis_models b' m' end.
Proof.
  intros Hm H. unfold redis_subscribe in H. apply wrapM_cases in H as (r0 & H & ->).
  assert (Hs : redis_models (mkRedisBus (rb_capacity b) (rb_prefix b) (rb_ttl b) (zsets b) (rb_clock b)
      (<[rb_next b := mkRedisSub (channel (rb_prefix b) stream) [] (mkChannel stream [] false)]> (rb_subs b)) (S (rb_next b)))
    (memory_subscribe stream m).2).
  { destruct Hm as [Hcap Hkeep Httl Hnext Hsubs Hrings]. split; cbn; [done|done|done|by rewrite Hnext| |done].
    intros i. rewrite Hnext. destruct (decide (i = mb_next m)) as [->|]; [|by rewrite !lookup_insert_ne].
    rewrite !lookup_insert_eq. constructor. split; cbn; try done. intros _. exists []. by split. }
  unfold memory_subscribe in *. pose proof (rm_next _ _ Hm) as Hn.
  apply exec_cases in H as [(a & -> & [= <- <-])|[Hr Hb]]; cbn; [done|].
  destruct r0; [done|]. cbn. destruct Hb as [->|[a [= _ <-]]]; auto.
Qed.

(** Changing one subscription on both sides, or forwarding and losing on one. *)
Lemma models_alter b m i f g : redis_models b m →
  (∀ s c, sub_models (rb_prefix b) s c → sub_models (rb_prefix b) (f s) (g c)) →
  redis_models (set_subs (alter f i) b) (mkMemoryBus (mb_capacity m) (mb_rings m) (alter g i (mb_subs m)) (mb_next m)).
Proof.
  intros [Hcap Hkeep Httl Hnext Hsubs Hrings] Hf. split; cbn; try done. intros j. specialize (Hsubs j).
  destruct (decide (i = j)) as [->|]; [|by rewrite !lookup_alter_ne]. rewrite !lookup_alter_eq.
  inversion Hsubs as [s c Hs E1 E2|E1 E2]; cbn; constructor. by apply Hf.
Qed.
Lemma redis_thins b m i f : redis_models b m →
  (∀ s c, sub_models (rb_prefix b) s c → ∃ c', thinned c c' ∧ sub_models (rb_prefix b) (f s) c') →
  ∃ m', lossy m m' ∧ redis_models (set_subs (alter f i) b) m'.
Proof.
  intros Hm Hf. pose proof (rm_subs _ _ Hm i) as Hi. inversion Hi as [s c Hs E1 E2|E1 E2].
  - destruct (Hf s c Hs) as (c' & Hthin & Hs'). exists (mkMemoryBus (mb_capacity m) (mb_rings m) (<[i := c']> (mb_subs m)) (mb_next m)).
    destruct Hm as [Hcap Hkeep Httl Hnext Hsubs Hrings]. split; split; cbn; try done; intros j; (destruct (decide (i = j)) as [->|]).
    + rewrite lookup_insert_eq, <-E2. by constructor.
    + rewrite lookup_insert_ne by done. destruct (mb_subs m !! j); constructor. apply thinned_refl.
    + rewrite lookup_insert_eq, lookup_alter_eq, <-E1. by constructor.
    + rewrite lookup_insert_ne, lookup_alter_ne by done. apply Hsubs.
  - exists m. split; [apply lossy_refl|]. destruct Hm as [Hcap Hkeep Httl Hnext Hsubs Hrings]. split; cbn; try done.
    intros j. destruct (decide (i = j)) as [->|]; [|by rewrite lookup_alter_ne]. rewrite lookup_alter_eq, <-E1, <-E2. constructor.
Qed.

(** The forwarder loses what finds the channel full, and nothing else. *)
Lemma forward_thins prefix s c : sub_models prefix s c →
  ∃ c', thinned c c' ∧ sub_models prefix (forward_one s) c' ∧ ((length (ch_buffer c) ≤ subscriptionBuffer)%nat → c' = c).
Proof.
  intros Hs. pose proof Hs as [Hch Hst Hcl Hw]. unfold forward_one. destruct (sub_pending s) as [|j rest] eqn:Ep.
  { exists c. split; [apply thinned_refl|]. by split. }
  destruct (ch_closed c) eqn:Ec.
  { exists c. split; [apply thinned_refl|]. split; [|done]. split; cbn; try done; [| |by rewrite Ec].
    - destruct (unmarshal_event _); [|done]. unfold offer. by rewrite Hcl.
    - destruct (unmarshal_event _); [|by rewrite Ec]. unfold offer. by rewrite Hcl, Ec. }
  destruct (Hw eq_refl) as (es & Hes & Hb). inversion Hes as [|j' e rest' es' Hj Hrest E1 E2]; subst. rewrite Hj.
  unfold offer. rewrite Hcl. cbn [orb]. destruct (Nat.ltb_spec (length (ch_buffer (sub_out s))) subscriptionBuffer) as [Hlt|Hge]; cbn [negb].
  - exists c. split; [apply thinned_refl|]. split; [|done]. split; cbn; try done. intros _. exists es'. split; [done|]. by rewrite Hb, <-app_assoc.
  - exists (mkChannel (ch_stream c) (ch_buffer (sub_out s) ++ es') false). split; [|split].
    + split_and!; [done|done|]. cbn. rewrite Hb. apply sublist_app; [done|]. by apply sublist_cons.
    + split; cbn; try done. intros _. by exists es'.
    + intros Hl. rewrite Hb, length_app in Hl. cbn in Hl. lia.
Qed.
Lemma redis_forward_models b m i : redis_models b m → ∃ m', lossy m m' ∧ redis_models (forward i b) m'.
Proof. intros Hm. apply redis_thins; [done|]. intros s c (c' & ? & ? & _)%forward_thins. by exists c'. Qed.
Lemma forward_keeps b m i : redis_models b m → (∀ c, mb_subs m !! i = Some c → (length (ch_buffer c) ≤ subscriptionBuffer)%nat) →
  redis_models (forward i b) m.
Proof.
  intros Hm Hroom. destruct Hm as [Hcap Hkeep Httl Hnext Hsubs Hrings]. split; cbn; try done. intros j. specialize (Hsubs j).
  destruct (decide (i = j)) as [->|]; [|by rewrite lookup_alter_ne]. rewrite lookup_alter_eq.
  inversion Hsubs as [s c Hs E1 E2|E1 E2]; cbn; constructor. destruct (forward_thins _ _ _ Hs) as (c' & _ & Hs' & Hc). 
  by rewrite <-(Hc (Hroom c (eq_sym E2))).
Qed.
Lemma redis_lose_models b m i k : redis_models b m → ∃ m', lossy m m' ∧ redis_models (lose_message i k b) m'.
Proof.
  intros Hm. apply redis_thins; [done|]. intros s c [Hch Hst Hcl Hw]. destruct (ch_closed c) eqn:Ec.
  { exists c. split; [apply thinned_refl|]. split; cbn; try done; by rewrite Ec. }
  destruct (Hw eq_refl) as (es & Hes & Hb). exists (mkChannel (ch_stream c) (ch_buffer (sub_out s) ++ delete k es) false). split.
  - split_and!; [done|done|]. cbn. rewrite Hb. apply sublist_app; [done|]. apply sublist_delete.
  - split; cbn; try done. intros _. exists (delete k es). split; [|done]. by apply Forall2_delete.
Qed.

(** Time takes rings away and nothing else. *)
Lemma redis_pass_models b m ms : redis_models b m → 0 ≤ ms →
  ∃ rings, rings ⊆ mb_rings m ∧ redis_models (pass ms b) (mkMemoryBus (mb_capacity m) rings (mb_subs m) (mb_next m)).
Proof.
  intros Hm Hms. exists (filter (λ kv, live_zset (ringKey (rb_prefix b) kv.1) (pass ms b) ≠ []) (mb_rings m)).
  split; [apply map_filter_subseteq|]. pose proof Hm as [Hcap Hkeep Httl Hnext Hsubs Hrings]. split; try done. intros s. cbn [mb_rings rb_prefix pass].
  set (z := live_zset (ringKey (rb_prefix b) s) (pass ms b)).
  assert (Hz : z = [] ∨ z = live_zset (ringKey (rb_prefix b) s) b).
  { unfold z, live_zset. cbn. destruct (zsets b !! _) as [[zs dl]|]; [|by left].
    destruct (Z.ltb_spec (rb_clock b + ms) dl); [|by left]. right. by rewrite (proj2 (Z.ltb_lt _ _)) by lia. }
  fold z. destruct (decide (z = [])) as [E|E].
  - rewrite E. destruct (filter _ _ !! s) as [l|] eqn:El; cbn; [|constructor].
    apply map_lookup_filter_Some in El as [_ Hl]. by destruct Hl.
  - destruct Hz as [|Hz]; [done|]. specialize (Hrings s). rewrite <-Hz in Hrings.
    destruct (mb_rings m !! s) as [l|] eqn:El; [|inversion Hrings; congruence].
    rewrite (map_lookup_filter_Some_2 _ (mb_rings m) s l El) by done. exact Hrings.
Qed.

Lemma redis_receive_models b m i : redis_models b m → open_in m i →
  (redis_receive i b).1 = None ∧ redis_models (redis_receive i b).2 m ∨
  (redis_receive i b).1 = (Receive i m).1 ∧ redis_models (redis_receive i b).2 (Receive i m).2.
Proof.
  intros Hm (c & Hc & Ho). pose proof (rm_subs _ _ Hm i) as Hi. rewrite Hc in Hi. inversion Hi as [s c' Hs E1 E2|]; subst.
  pose proof Hs as [Hch Hst Hcl Hw]. destruct (Hw Ho) as (es & Hes & Hb). unfold redis_receive. rewrite <-E1.
  destruct (ch_buffer (sub_out s)) as [|e rest] eqn:Eb; [left; by rewrite Hcl, Ho|right].
  cbn. unfold take_event. rewrite Hc, Hb. cbn. split; [done|].
  destruct Hm as [Hcap Hkeep Httl Hnext Hsubs Hrings]. split; cbn; try done. intros j.
  destruct (decide (i = j)) as [<-|]; [|by rewrite !lookup_insert_ne]. rewrite !lookup_insert_eq. constructor. split; cbn; try done.
  intros _. by exists es.
Qed.
Lemma redis_close_models b m i : redis_models b m → redis_models (redis_close i b) (Close i m).
Proof. intros Hm. apply models_alter; [done|]. intros s c [Hch Hst Hcl Hw]. by split. Qed.

#[export] Program Instance RedisBus_laws : BusLaws RedisBus := {|
  models := redis_models;
  carried := storable;
|}.
Next Obligation.
  intros b m stream e fs r fs' b' Hm Hc H. pose proof (redis_publish_models _ _ _ _ _ _ _ _ Hm Hc H) as Hp.
  destruct (announce stream e m) as [fresh m1]. destruct r; [destruct Hp as [-> ?]|destruct Hp as [?|?]];
    eauto using lossy_refl.
Qed.
Next Obligation. exact redis_recent_models. Qed.
Next Obligation.
  intros b stream after r fs' b' H. cbn in H. unfold redis_recent, mbind, M_bind, wrapM, query, stmt in H. cbn -[decode_members double_of] in H.
  destruct (decode_members _); [unfold mret, M_ret in H|unfold throw in H]; by simplify_eq.
Qed.
Next Obligation. exact redis_subscribe_models. Qed.
Next Obligation. exact redis_receive_models. Qed.
Next Obligation. exact redis_close_models. Qed.

(** *** Histories of calls *)
Inductive bus_call :=
  | CPublish (stream : Stream) (e : Event) | CRecent (stream : Stream) (after : Z)
  | CSubscribe (stream : Stream) | CReceive (sub : nat) | CClose (sub : nat).
Inductive bus_answer :=
  | AFresh (fresh : bool) | AFound (events : list Event) (oldest : Z)
  | ASub (sub : nat) | AEvent (r : option (option Event)) | ADone.
Definition bus_answers {B} `{LiveBus B} (c : bus_call) (b : B) : result bus_answer * B :=
  match c with
  | CPublish stream e => let '(r, _, b) := Publish stream e [] b in (AFresh <$> r, b)
  | CRecent stream after => let '(r, _, b) := Recent stream after [] b in ((λ f, AFound f.1 f.2) <$> r, b)
  | CSubscribe stream => let '(r, _, b) := Subscribe stream [] b in (ASub <$> r, b)
  | CReceive sub => let '(r, b) := Receive sub b in (Ok (AEvent r), b)
  | CClose sub => (Ok ADone, Close sub b)
  end.

(** What happens at a Redis bus: calls of its users, turns of its forwarders,
    and time.  Seen from outside are the answers and the time; a receive that
    waits is no answer yet. *)
Inductive redis_op := Call (c : bus_call) | Forward (i : nat) | Pass (ms : Z).
Inductive happening := Answered (c : bus_call) (r : result bus_answer) | Elapsed (ms : Z).
Definition waits (r : result bus_answer) : bool := match r with Ok (AEvent None) => true | _ => false end.
Definition redis_exec (o : redis_op) (b : RedisBus) : list happening * RedisBus :=
  match o with
  | Call c => let '(r, b) := bus_answers c b in (if waits r then [] else [Answered c r], b)
  | Forward i => ([], forward i b)
  | Pass ms => ([Elapsed ms], pass ms b)
  end.
Fixpoint redis_history (ops : list redis_op) (b : RedisBus) : list happening * RedisBus :=
  match ops with
  | [] => ([], b)
  | o :: ops =>
      let '(now, b) := redis_exec o b in
      let '(later, b) := redis_history ops b in (now ++ later, b)
  end.

(** Nothing is lost on the way: the events survive JSON, sequence numbers are
    exact doubles, a publication finds room for every open subscription of its
    stream, and nobody reads a subscription he closed. *)
Definition smooth_op (o : redis_op) (b : RedisBus) : Prop :=
  match o with
  | Call (CPublish stream e) => storable e ∧ ∀ i s, rb_subs b !! i = Some s → ch_stream (sub_out s) = stream →
      ch_closed (sub_out s) = false → (length (ch_buffer (sub_out s)) + length (sub_pending s) < subscriptionBuffer)%nat
  | Call (CRecent _ after) => exact after
  | Call (CReceive i) => ∀ s, rb_subs b !! i = Some s → ch_closed (sub_out s) = false
  | Call _ | Forward _ => True
  | Pass ms => 0 ≤ ms
  end.
Fixpoint smooth (ops : list redis_op) (b : RedisBus) : Prop :=
  match ops with [] => True | o :: ops => smooth_op o b ∧ smooth ops (redis_exec o b).2 end.

(** The reference: a memory bus that forgets the ring of a stream when nothing
    fresh was published on it for [ttl] milliseconds. *)
Record Aging := mkAging { ag_bus : MemoryBus; ag_deadlines : gmap Stream Z; ag_clock : Z }.
Definition NewAging (capacity : Z) : Aging := mkAging (NewMemoryBus capacity) ∅ 0.
Definition renews (c : bus_call) (r : result bus_answer) : option Stream :=
  match c, r with CPublish stream _, Ok (AFresh true) => Some stream | _, _ => None end.
Definition aging_call (ttl : Z) (c : bus_call) (a : Aging) : result bus_answer * Aging :=
  let '(r, m) := bus_answers c (ag_bus a) in
  (r, mkAging m (match renews c r with Some s => <[s := ag_clock a + ttl]> (ag_deadlines a) | None => ag_deadlines a end) (ag_clock a)).
Definition aging_pass (ms : Z) (a : Aging) : Aging :=
  let clock := ag_clock a + ms in
  let m := ag_bus a in
  mkAging (mkMemoryBus (mb_capacity m) (filter (λ kv, clock < default 0 (ag_deadlines a !! kv.1)) (mb_rings m)) (mb_subs m) (mb_next m))
    (ag_deadlines a) clock.
(** The same calls and the same passing of time at the reference. *)
Fixpoint replay (ttl : Z) (hs : list happening) (a : Aging) : list happening * Aging :=
  match hs with
  | [] => ([], a)
  | Answered c _ :: hs => let '(r, a) := aging_call ttl c a in let '(hs, a) := replay ttl hs a in (Answered c r :: hs, a)
  | Elapsed ms :: hs => let '(hs, a) := replay ttl hs (aging_pass ms a) in (Elapsed ms :: hs, a)
  end.

(** The channels of a memory bus hold at most [subscriptionBuffer] events. *)
Definition bounded (m : MemoryBus) : Prop := ∀ i c, mb_subs m !! i = Some c → (length (ch_buffer c) ≤ subscriptionBuffer)%nat.
Lemma call_bounded c m : bounded m → bounded (bus_answers c m).2.
Proof.
  intros Hb. destruct c as [stream e|stream after|stream|sub|sub]; cbn [bus_answers].
  - assert (H : bounded (memory_publish stream e m).2).
    { unfold memory_publish. destruct (has_sequence _ _); [done|]. intros i c. cbn. unfold fan_out. rewrite lookup_fmap.
      destruct (mb_subs m !! i) as [c0|] eqn:Ei; [|done]. cbn. intros [= <-]. specialize (Hb _ _ Ei). case_decide; [|done].
      unfold offer. destruct (_ || _) eqn:Eo; [done|]. apply orb_false_iff in Eo as [_ Eo%negb_false_iff%Nat.ltb_lt].
      cbn. rewrite length_app. cbn. lia. }
    cbn. unfold sure. by destruct (memory_publish stream e m).
  - done.
  - intros i c Hi. change (<[mb_next m := mkChannel stream [] false]> (mb_subs m) !! i = Some c) in Hi.
    apply lookup_insert_Some in Hi as [[_ <-]|[_ Hi]]; [cbn; lia|by apply (Hb i)].
  - cbn. unfold take_event. destruct (mb_subs m !! sub) as [c|] eqn:Ei; [|done]. specialize (Hb) as Hb'. 
    destruct (ch_buffer c) as [|e rest] eqn:Ec; [done|]. cbn [mb_subs]. intros i c1. cbn [mb_subs snd].
    intros [[_ <-]|[_ Hi]]%lookup_insert_Some; [|by apply (Hb i)]. specialize (Hb _ _ Ei). rewrite Ec in Hb. cbn in *. lia.
  - intros i c Hi. change (close_channel sub (mb_subs m) !! i = Some c) in Hi.
    unfold close_channel in Hi. apply lookup_alter_Some in Hi as [(_ & c0 & Hi & ->)|[_ Hi]]; [|by apply (Hb i)]. exact (Hb _ _ Hi).
Qed.

(** A reader who waits changes nothing. *)
Lemma waits_still c m r m' : bus_answers c m = (r, m') → waits r = true → m' = m.
Proof.
  destruct c as [stream e|stream after|stream|sub|sub]; cbn.
  - unfold sure. destruct (memory_publish stream e m). by intros [= <- <-].
  - by intros [= <- <-].
  - by intros [= <- <-].
  - unfold take_event. destruct (mb_subs m !! sub) as [c|]; [destruct (ch_buffer c); [destruct (ch_closed c)|]|];
      intros [= <- <-]; try done. by destruct m.
  - by intros [= <- <-].
Qed.
(** A publication that finds room loses nothing. *)
Lemma announce_room stream e b m : redis_models b m →
  (∀ i s, rb_subs b !! i = Some s → ch_stream (sub_out s) = stream → ch_closed (sub_out s) = false →
     (length (ch_buffer (sub_out s)) + length (sub_pending s) < subscriptionBuffer)%nat) →
  announce stream e m = memory_publish stream e m.
Proof.
  intros Hm Hroom. unfold announce, memory_publish. destruct (has_sequence _ _); [done|]. cbn. do 2 f_equal.
  unfold fan_out. apply map_eq. intros i. rewrite !lookup_fmap. pose proof (rm_subs _ _ Hm i) as Hi.
  inversion Hi as [s c Hs E1 E2|]; [|done]. cbn. f_equal. case_decide as Hst; [|done].
  destruct Hs as [_ Hs Hcl Hw]. unfold append_event, offer. destruct (ch_closed c) eqn:Ec; [done|].
  destruct (Hw eq_refl) as (es & Hes & Hb). specialize (Hroom i s (eq_sym E1) (eq_trans Hs Hst) Hcl).
  rewrite (proj2 (Nat.ltb_lt _ _)); [done|]. rewrite Hb, length_app, <-(Forall2_length _ _ _ Hes). lia.
Qed.

Lemma redis_call b m c : redis_models b m → bounded m → smooth_op (Call c) b →
  let '(r, b') := bus_answers c b in
  waits r = true ∧ redis_models b' m ∨ r = (bus_answers c m).1 ∧ redis_models b' (bus_answers c m).2.
Proof.
  intros Hm Hbd Hc. destruct c as [stream e|stream after|stream|sub|sub]; cbn [bus_answers smooth_op] in *.
  - destruct Hc as [Hc Hroom]. destruct (Publish stream e [] b) as [[r fs1] b1] eqn:E.
    pose proof (redis_publish_models _ _ _ _ _ _ _ _ Hm Hc E) as H. change (Publish stream e [] m) with (sure (memory_publish stream e) [] m).
    rewrite (announce_room _ e _ _ Hm Hroom) in H. unfold sure. destruct (memory_publish stream e m) as [fresh m1]. right.
    destruct r as [r|err]; [by destruct H as [-> H]|]. exfalso. destruct Hc as [_ Hok]. destruct (event_json_roundtrip e Hok) as (j & Hj & _).
    cbn in E. unfold redis_publish in E. rewrite Hj in E. cbn in E. unfold mbind, M_bind, lift, wrapM, stmt in E.
    by destruct (publish_script _ _ _ _ _ _ b).
  - destruct (Recent stream after [] b) as [[r fs1] b1] eqn:E. right.
    pose proof (redis_recent_models _ _ _ _ _ _ _ _ Hm Hc E) as [H1 H2]. destruct r as [found|err]; [by rewrite (H2 found)|]. exfalso.
    cbn in E. unfold redis_recent, mbind, M_bind, wrapM, query, stmt in E. cbn -[decode_members double_of] in E.
    rewrite (double_exact _ Hc) in E.
    rewrite (decode_stored (above after (default [] (mb_rings m !! stream)))) in E; [done|].
    apply filter_Forall2; [|exact (rm_rings _ _ Hm stream)]. by intros x y (_ & -> & _).
  - destruct (Subscribe stream [] b) as [[r fs1] b1] eqn:E. right.
    pose proof (redis_subscribe_models _ _ _ _ _ _ _ Hm E) as H. cbn in H, E |- *.
    destruct r as [r|err]; [by destruct H as [-> H]|]. by unfold redis_subscribe, wrapM, stmt in E.
  - pose proof (rm_subs _ _ Hm sub) as Hi. destruct (rb_subs b !! sub) as [s|] eqn:Es.
    + inversion Hi as [s' c Hs E1 E2|]; subst. destruct (redis_receive_models b m sub Hm) as [[H1 H2]|[H1 H2]].
      { exists c. split; [done|]. rewrite <-(sm_closed _ _ _ Hs). by apply Hc. }
      * change (Receive sub b) with (redis_receive sub b). destruct (redis_receive sub b) as [r1 b1]. left. cbn [fst] in H1. by subst r1.
      * change (Receive sub b) with (redis_receive sub b). destruct (redis_receive sub b) as [r1 b1], (Receive sub m) as [r2 m1].
        right. cbn [fst] in H1. by subst r1.
    + inversion Hi as [|E1 E2]. cbn. unfold redis_receive, take_event. rewrite Es, <-E2. right. by destruct m.
  - cbn. right. split; [done|]. by apply redis_close_models.
Qed.

(** Once its forwarder has caught up, a reader gets what the model gives him. *)
Lemma caught_up_receive b m i s : redis_models b m → rb_subs b !! i = Some s → ch_closed (sub_out s) = false → sub_pending s = [] →
  (Receive i b).1 = (Receive i m).1.
Proof.
  intros Hm Hi Ho Hp. pose proof (rm_subs _ _ Hm i) as H. rewrite Hi in H. inversion H as [s' c Hsc E1 E2|]; subst.
  destruct Hsc as [_ _ Hcl Hw]. rewrite Hcl in Ho. destruct (Hw Ho) as (es & Hes & Hbuf). rewrite Hp in Hes. inversion Hes; subst.
  cbn. unfold redis_receive, take_event. rewrite Hi, <-E2, Hbuf, app_nil_r. by destruct (ch_buffer (sub_out s)); cbn; rewrite ?Hcl, ?Ho.
Qed.
Lemma aging_still ttl c a : waits (aging_call ttl c a).1 = true → (aging_call ttl c a).2 = a.
Proof.
  unfold aging_call. destruct (bus_answers c (ag_bus a)) as [r m] eqn:E. cbn. intros Hw. rewrite (waits_still _ _ _ _ E Hw).
  destruct c, r as [[]|]; try done; by destruct a.
Qed.
(** Deadlines: a fresh publication renews the one of its ring, and no other
    call changes any. *)
Definition deadline (b : RedisBus) (s : Stream) : option Z := snd <$> zsets b !! ringKey (rb_prefix b) s.
Lemma call_deadlines c b : let '(r, b') := bus_answers c b in
  rb_prefix b' = rb_prefix b ∧ rb_ttl b' = rb_ttl b ∧ rb_clock b' = rb_clock b ∧
  ∀ s, deadline b' s = if decide (renews c r = Some s) then Some (rb_clock b + milliseconds (rb_ttl b)) else deadline b s.
Proof.
  destruct c as [stream e|stream after|stream|sub|sub]; cbn.
  - unfold redis_publish, mbind, M_bind, lift. destruct (wrap_err _ (event_json e)) as [j|]; cbn; [|done].
    unfold wrapM, stmt, publish_script. destruct (existsb _ _); cbn; [done|]. split_and!; try done.
    intros s. unfold deadline. cbn. case_decide as E; [injection E as <-; by rewrite lookup_insert_eq|].
    rewrite lookup_insert_ne; [done|]. intros Hk%ringKey_inj. by subst.
  - unfold redis_recent, mbind, M_bind, wrapM, query, stmt. cbn -[decode_members]. by destruct (decode_members _).
  - done.
  - unfold redis_receive. destruct (rb_subs b !! sub) as [s|]; [|done]. by destruct (ch_buffer (sub_out s)).
  - done.
Qed.

(** A Redis bus and the reference. *)
Record aged (ttl : Z) (b : RedisBus) (a : Aging) : Prop := {
  ad_models : redis_models b (ag_bus a);
  ad_bounded : bounded (ag_bus a);
  ad_ttl : milliseconds (rb_ttl b) = ttl;
  ad_clock : rb_clock b = ag_clock a;
  ad_deadlines : ∀ s, deadline b s = ag_deadlines a !! s;
}.
Lemma aged_call ttl b a c : aged ttl b a → smooth_op (Call c) b →
  let '(r, b') := bus_answers c b in
  waits r = true ∧ aged ttl b' a ∨ r = (aging_call ttl c a).1 ∧ aged ttl b' (aging_call ttl c a).2.
Proof.
  intros [Hm Hb Ht Hc Hd] Ho. pose proof (redis_call b _ c Hm Hb Ho) as H. pose proof (call_deadlines c b) as Hdl.
  unfold aging_call. pose proof (call_bounded c _ Hb) as Hb'. destruct (bus_answers c b) as [r b']. destruct Hdl as (Hp' & Ht' & Hc' & Hd').
  destruct (bus_answers c (ag_bus a)) as [r0 m0] eqn:E. destruct H as [[Hw H]|[-> H]]; [left|right; cbn in *].
  - split; [done|]. split; try done; [congruence..|]. intros s. rewrite Hd', decide_False, Hd; [done|].
    by destruct c, r as [[]|]; cbn in *.
  - split; [done|]. split; try done; [cbn; congruence..|]. intros s. cbn. rewrite Hd'. cbn in *. 
    case_decide as Er; [rewrite Er, lookup_insert_eq; congruence|]. rewrite Hd.
    destruct (renews c r0) as [s'|]; [|done]. rewrite lookup_insert_ne; [done|congruence].
Qed.
Lemma aged_pass ttl b a ms : aged ttl b a → 0 ≤ ms → aged ttl (pass ms b) (aging_pass ms a).
Proof.
  intros [[H1 H2 H3 H4 H5 Hrings] Hb Ht Hc Hd] Hms. split; [|done|done|cbn; congruence|done].
  split; try done. intros s. cbn [mb_rings ag_bus aging_pass rb_prefix pass]. specialize (Hrings s). specialize (Hd s).
  unfold live_zset, deadline in *. cbn [zsets pass rb_clock]. rewrite <-Hc. set (kept := filter _ _).
  assert (Hk : kept !! s = if decide (rb_clock b + ms < default 0 (ag_deadlines a !! s)) then mb_rings (ag_bus a) !! s else None).
  { apply option_eq. intros l. unfold kept. rewrite map_lookup_filter_Some. cbn. case_decide; naive_solver. }
  rewrite Hk, <-Hd. clear Hk. destruct (zsets b !! _) as [[zset expires]|]; cbn in *.
  - destruct (Z.ltb_spec (rb_clock b + ms) expires) as [E|E]; [|rewrite decide_False by lia; constructor].
    rewrite decide_True by done. by rewrite (proj2 (Z.ltb_lt _ _)) in Hrings by lia.
  - case_decide; [exact Hrings|constructor].
Qed.

(** C20: the Redis bus answers like the in-memory bus whose rings are forgotten.  Take any history of
    publishing, reading rings, subscribing, receiving and closing at a Redis
    bus - its script with exact scores, trimming and expiry, its JSON, its
    channels and the forwarders between a connection and a reader, which run at
    any moment - and of time passing, in which no command fails and nothing is
    lost on the way ([smooth]: events survive JSON, sequence numbers are exact
    doubles, no open subscription lags by the whole buffer, no closed one is
    read).  Then every call that got an answer gets the same answer, in the same
    order, from a memory bus of the same capacity which forgets the ring of a
    stream when nothing fresh was published on it for the time to live; a
    receive may wait at Redis for an event that is still being forwarded, but
    not once its forwarder has caught up. *)
Theorem redis_refines_memory prefix capacity ttl ops : 0 ≤ capacity → 0 < milliseconds ttl →
  smooth ops (NewRedisBus prefix capacity ttl) →
  let '(happened, b) := redis_history ops (NewRedisBus prefix capacity ttl) in
  let '(happened', a) := replay (milliseconds ttl) happened (NewAging capacity) in
  happened' = happened ∧
  ∀ i s, rb_subs b !! i = Some s → ch_closed (sub_out s) = false → sub_pending s = [] →
    (Receive i b).1 = (Receive i (ag_bus a)).1.
Proof.
  intros Hcap Httl Hs. assert (Ha : aged (milliseconds ttl) (NewRedisBus prefix capacity ttl) (NewAging capacity)).
  { split; [|intros i c; cbn; by rewrite lookup_empty|done|done|intros s; unfold deadline; cbn; by rewrite !lookup_empty].
    split; [done|done|done|done|intros i; cbn; rewrite !lookup_empty; constructor|]. intros stream. unfold live_zset. cbn. rewrite !lookup_empty. constructor. }
  revert Hs Ha. generalize (NewRedisBus prefix capacity ttl) (NewAging capacity). induction ops as [|o ops IH]; intros b a Hs Ha.
  { cbn -[Receive]. split; [done|]. intros i s. apply caught_up_receive, Ha. }
  destruct Hs as [Ho Hs]. destruct o as [c|i|ms]; cbn [redis_exec redis_history] in *.
  - pose proof (aged_call _ b a c Ha Ho) as Hc. destruct (bus_answers c b) as [r b1]. cbn [snd] in Hs. destruct (waits r) eqn:Ew.
    + specialize (IH b1 a Hs). destruct (redis_history ops b1). cbn [app]. apply IH. destruct Hc as [[_ H]|[Hr H]]; [done|].
      assert ((aging_call (milliseconds ttl) c a).2 = a) as <-; [|done]. apply aging_still. by rewrite <-Hr.
    + destruct Hc as [[? _]|[-> H]]; [done|]. specialize (IH b1 _ Hs H). destruct (redis_history ops b1) as [later b2]. cbn [app replay].
      destruct (aging_call _ c a) as [r1 a1]. cbn [fst snd] in *. destruct (replay _ later a1) as [later' a2]. destruct IH as [-> IH]. by split.
  - specialize (IH (forward i b) a Hs). destruct (redis_history ops (forward i b)). apply IH.
    destruct Ha as [Hm Hb Ht Hc Hd]. split; try done. apply forward_keeps; [done|]. intros c. apply Hb.
  - specialize (IH _ _ Hs (aged_pass _ _ _ _ Ha Ho)). destruct (redis_history ops (pass ms b)) as [later b2] eqn:Eh. cbn [app replay].
    cbn [snd] in IH. rewrite Eh in IH. destruct (replay _ later _) as [later' a2]. destruct IH as [-> IH]. by split.
Qed.
End RedisLaws.

(** ** A viewer misses nothing *)

(** *** Increasing lists of events *)
Definition earlier (a b : Event) : Prop := Event_Sequence a < Event_Sequence b.
Notation increasing := (StronglySorted earlier).
(** The events above [a] and up to [b]. *)
Definition window (a b : Z) (l : list Event) : list Event :=
  List.filter (λ e, (a <? Event_Sequence e) && (Event_Sequence e <=? b)) l.

Lemma elem_of_above a e l : e ∈ above a l ↔ e ∈ l ∧ a < Event_Sequence e.
Proof. unfold above. rewrite elem_of_filter_bool. by rewrite Z.ltb_lt. Qed.
Lemma elem_of_window a b e l : e ∈ window a b l ↔ e ∈ l ∧ a < Event_Sequence e ≤ b.
Proof. unfold window. rewrite elem_of_filter_bool, andb_true_iff, Z.ltb_lt, Z.leb_le. naive_solver. Qed.

Lemma increasing_app l1 l2 : increasing (l1 ++ l2) →
  increasing l1 ∧ increasing l2 ∧ ∀ x y, x ∈ l1 → y ∈ l2 → earlier x y.
Proof.
  induction l1 as [|x l1 IH]; cbn; intros H; [split_and!; [constructor|done|]; by intros ?? ?%elem_of_nil|].
  apply StronglySorted_inv in H as [H Hx]. destruct (IH H) as (H1 & H2 & H12). rewrite Forall_app in Hx. destruct Hx as [Hx1 Hx2].
  split_and!; [by constructor|done|]. intros y z [->|Hy]%elem_of_cons Hz; [|by apply H12]. by eapply Forall_forall in Hx2.
Qed.
Lemma increasing_app_2 l1 l2 : increasing l1 → increasing l2 → (∀ x y, x ∈ l1 → y ∈ l2 → earlier x y) → increasing (l1 ++ l2).
Proof.
  intros H1 H2 H. induction H1 as [|x l1 H1 IH Hx]; [done|]. cbn. constructor.
  - apply IH. intros y z Hy. apply H, elem_of_cons. by right.
  - apply Forall_app. split; [done|]. apply Forall_forall. intros y Hy. apply H; [|done]. apply elem_of_cons. by left.
Qed.
Lemma increasing_filter f l : increasing l → increasing (List.filter f l).
Proof.
  induction 1 as [|x l _ IH Hx]; cbn; [constructor|]. destruct (f x); [|done]. constructor; [done|].
  apply Forall_forall. intros y [Hy _]%elem_of_filter_bool. by eapply Forall_forall in Hx.
Qed.
Lemma increasing_ext l1 l2 : increasing l1 → increasing l2 → (∀ e, e ∈ l1 ↔ e ∈ l2) → l1 = l2.
Proof.
  intros H1. revert l2. induction H1 as [|x l1 H1 IH Hx]; intros l2 H2 Heq.
  { destruct l2 as [|y l2]; [done|]. exfalso. eapply elem_of_nil, Heq, elem_of_cons. by left. }
  destruct H2 as [|y l2 H2 Hy]; [exfalso; eapply elem_of_nil, Heq, elem_of_cons; by left|].
  rewrite Forall_forall in Hx, Hy. unfold earlier in *.
  assert (x = y) as ->.
  { assert (Hxy : x ∈ y :: l2) by (apply Heq, elem_of_cons; by left). assert (Hyx : y ∈ x :: l1) by (apply Heq, elem_of_cons; by left).
    apply elem_of_cons in Hxy as [->|Hxy]; [done|]. apply elem_of_cons in Hyx as [->|Hyx]; [done|].
    specialize (Hx _ Hyx). specialize (Hy _ Hxy). lia. }
  f_equal. apply IH; [done|]. intros e. specialize (Heq e). rewrite !elem_of_cons in Heq. split; intros He.
  - destruct (proj1 Heq (or_intror He)) as [->|?]; [|done]. specialize (Hx _ He). lia.
  - destruct (proj2 Heq (or_intror He)) as [->|?]; [|done]. specialize (Hy _ He). lia.
Qed.
Lemma increasing_same_seq l x y : increasing l → x ∈ l → y ∈ l → Event_Sequence x = Event_Sequence y → x = y.
Proof.
  induction 1 as [|z l _ IH Hz]; intros Hx Hy E; [by apply elem_of_nil in Hx|]. rewrite Forall_forall in Hz. unfold earlier in Hz.
  apply elem_of_cons in Hx as [->|Hx], Hy as [->|Hy]; [done| | |by apply IH].
  - specialize (Hz _ Hy). lia.
  - specialize (Hz _ Hx). lia.
Qed.

Lemma above_cons a x l : above a (x :: l) = if a <? Event_Sequence x then x :: above a l else above a l.
Proof. done. Qed.
Lemma after_of_above a l : increasing l → a ≤ after_of a (above a l) ∧ ∀ e, e ∈ l → Event_Sequence e ≤ after_of a (above a l).
Proof.
  intros Hl. revert a. induction Hl as [|x l Hl IH Hx]; intros a; [split; [done|]; by intros ? ?%elem_of_nil|].
  rewrite above_cons. destruct (IH a) as [Ha He]. destruct (a <? Event_Sequence x) eqn:E; bool_prop.
  - assert (Hab : above a l = above (Event_Sequence x) l).
    { apply increasing_ext; [by apply increasing_filter..|]. intros e. rewrite !elem_of_above. split; intros [Hel ?]; split; try done; [|lia].
      eapply Forall_forall in Hx; [|done]. done. }
    rewrite after_of_cons, Hab. destruct (IH (Event_Sequence x)) as [Hb Hc]. split; [lia|].
    intros e [->|He']%elem_of_cons; [done|by apply Hc].
  - split; [done|]. intros e [->|He']%elem_of_cons; [lia|by apply He].
Qed.
Lemma after_of_elem a l : after_of a l = a ∨ ∃ e, e ∈ l ∧ Event_Sequence e = after_of a l.
Proof.
  revert a. induction l as [|x l IH]; intros a; [by left|]. rewrite after_of_cons. right.
  destruct (IH (Event_Sequence x)) as [->|(e & He & <-)]; [exists x|exists e]; (split; [|done]); apply elem_of_cons; auto.
Qed.

(** *** The events of an interview and the bus *)
Section Complete.
Context `{uuids : UuidLib} {B : Type} `{LB : LiveBus B} `{laws : !BusLaws B}.
(** All events of the interview in their order; the bus is fed with them from
    Kafka. *)
Context (stream : Stream) (K : list Event) (sub : nat).

Record recorded : Prop := {
  rec_increasing : increasing K;
  rec_own : Forall (λ e, of_stream stream e = true) K;
  rec_exact : Forall (λ e, 0 < Event_Sequence e ∧ exact (Event_Sequence e)) K;
}.

Definition ring_of (m : MemoryBus) : list Event := default [] (mb_rings m !! stream).
(** [p] events are published: the ring is the newest of them, and the viewer's
    channel holds some of them. *)
Record bus_ok (m : MemoryBus) (p : nat) : Prop := {
  ok_ring : ∃ old, take p K = old ++ ring_of m;
  ok_channel : ∃ buf, mb_subs m !! sub = Some (mkChannel stream buf false) ∧ ∀ e, e ∈ buf → e ∈ take p K;
  ok_next : (sub < mb_next m)%nat;
}.
(** What is on its way to the viewer. *)
Definition waiting (m : MemoryBus) : list Event := match mb_subs m !! sub with Some c => ch_buffer c | None => [] end.

(** What others do to the bus, with the number of published events and whether
    one on its way to the viewer was lost: the next event is published; an event
    is redelivered by Kafka while the ring has it or is full; events on their way
    to readers are lost, finding a channel full or dropped with a connection;
    rings expire; other streams and subscriptions are used. *)
Inductive elsewhere : MemoryBus * nat * bool → MemoryBus * nat * bool → Prop :=
  | el_publish m p o e : K !! p = Some e → elsewhere (m, p, o) ((announce stream e m).2, S p, o)
  | el_redeliver m p o i e : (i < p)%nat → K !! i = Some e → e ∈ ring_of m ∨ mb_capacity m ≤ Z.of_nat (length (ring_of m)) →
      elsewhere (m, p, o) ((announce stream e m).2, p, o)
  | el_lose m p o m' : lossy m m' → elsewhere (m, p, o) (m', p, o || Nat.ltb (length (waiting m')) (length (waiting m)))
  | el_expire m p o rings : rings ⊆ mb_rings m →
      elsewhere (m, p, o) (mkMemoryBus (mb_capacity m) rings (mb_subs m) (mb_next m), p, o)
  | el_other_publish m p o s e : s ≠ stream → elsewhere (m, p, o) ((announce s e m).2, p, o)
  | el_subscribe m p o s : elsewhere (m, p, o) ((memory_subscribe s m).2, p, o)
  | el_receive m p o i : i ≠ sub → elsewhere (m, p, o) ((Receive i m).2, p, o)
  | el_close m p o i : i ≠ sub → elsewhere (m, p, o) (Close i m, p, o).

Hypothesis Hrec : recorded.

Lemma take_increasing p : increasing (take p K).
Proof. pose proof (rec_increasing Hrec) as H. rewrite <-(take_drop p K) in H. by apply increasing_app in H as [? _]. Qed.
Lemma elem_take p e : e ∈ take p K → e ∈ K.
Proof. rewrite <-(take_drop p K) at 2. rewrite elem_of_app. by left. Qed.
Lemma take_closed p e x : e ∈ take p K → x ∈ K → Event_Sequence x ≤ Event_Sequence e → x ∈ take p K.
Proof.
  intros He Hx Hle. rewrite <-(take_drop p K) in Hx. apply elem_of_app in Hx as [?|Hx]; [done|].
  pose proof (rec_increasing Hrec) as H. rewrite <-(take_drop p K) in H. apply increasing_app in H as (_ & _ & H).
  specialize (H _ _ He Hx). unfold earlier in H. lia.
Qed.
Lemma next_later p e x : K !! p = Some e → x ∈ take p K → Event_Sequence x < Event_Sequence e.
Proof.
  intros He Hx. pose proof (rec_increasing Hrec) as H. rewrite <-(take_drop p K) in H. apply increasing_app in H as (_ & _ & H).
  apply (H _ _ Hx). rewrite (drop_S _ _ _ He). apply elem_of_cons. by left.
Qed.

Lemma ring_facts m p : bus_ok m p → increasing (ring_of m) ∧ ∀ e, e ∈ ring_of m → e ∈ take p K.
Proof.
  intros [[old Hold] _ _]. pose proof (take_increasing p) as H. rewrite Hold in *.
  apply increasing_app in H as (_ & H & _). split; [done|]. intros e He. apply elem_of_app. by right.
Qed.

Lemma sort_increasing l e : increasing l → (∀ x, x ∈ l → earlier x e) → sort_stable seq_less (l ++ [e]) = l ++ [e].
Proof.
  intros Hl He. apply sort_stable_id. induction Hl as [|x l Hl IH Hx]; cbn; [repeat constructor|].
  constructor; [apply IH; intros y Hy; apply He, elem_of_cons; by right|].
  apply Forall_forall. intros y Hy. unfold not_less, seq_less. apply Z.ltb_ge.
  assert (earlier x y) as Hxy; [|unfold earlier in Hxy; lia].
  apply elem_of_app in Hy as [Hy|Hy%list_elem_of_singleton]; [by eapply Forall_forall in Hx|]. subst. apply He, elem_of_cons. by left.
Qed.
Lemma sort_first l e : increasing l → (∀ x, x ∈ l → earlier e x) → sort_stable seq_less (l ++ [e]) = e :: l.
Proof.
  induction 1 as [|x l Hl IH Hx]; intros He; cbn; [done|]. rewrite IH by (intros y Hy; apply He, elem_of_cons; by right). cbn.
  unfold seq_less at 1. assert (earlier e x) as Hex by (apply He, elem_of_cons; by left). unfold earlier in Hex.
  rewrite (proj2 (Z.ltb_lt _ _)) by done. f_equal.
  destruct l as [|y l]; cbn; [done|]. unfold seq_less. inversion Hx as [|?? Hxy _]; subst. unfold earlier in Hxy.
  by rewrite (proj2 (Z.ltb_ge _ _)) by lia.
Qed.

Lemma has_sequence_false n l : (∀ x, x ∈ l → Event_Sequence x ≠ n) → has_sequence n l = false.
Proof.
  intros H. unfold has_sequence. destruct (existsb _ l) eqn:E; [|done]. apply existsb_witness in E as (x & Hx & Hn%Z.eqb_eq).
  by destruct (H x Hx).
Qed.
Lemma newest_suffix {A} n (l : list A) : ∃ l', l = l' ++ newest_of n l.
Proof. exists (take (length l - Z.to_nat n) l). unfold newest_of. by rewrite take_drop. Qed.

Lemma ring_of_announce e m : ring_of (announce stream e m).2 =
  if has_sequence (Event_Sequence e) (ring_of m) then ring_of m
  else newest_of (mb_capacity m) (sort_stable seq_less (ring_of m ++ [e])).
Proof.
  unfold announce, memory_publish, ring_of. destruct (has_sequence _ _); cbn; [done|]. by rewrite lookup_insert_eq.
Qed.
(** The viewer's channel after a publication. *)
Lemma channel_announce s e m buf : mb_subs m !! sub = Some (mkChannel stream buf false) →
  mb_subs (announce s e m).2 !! sub = Some (mkChannel stream
    (if decide (stream = s) then if has_sequence (Event_Sequence e) (default [] (mb_rings m !! s)) then buf else buf ++ [e] else buf) false).
Proof.
  intros Hb. unfold announce, memory_publish. destruct (has_sequence _ _) eqn:Eh; cbn; [rewrite Hb; by destruct (decide _)|].
  rewrite lookup_fmap, Hb. cbn. by destruct (decide _).
Qed.
Lemma announce_next s e m : mb_next (announce s e m).2 = mb_next m.
Proof. apply announce_rings. Qed.
Lemma sublist_whole (l1 l2 : list Event) : l1 `sublist_of` l2 → (length l2 ≤ length l1)%nat → l1 = l2.
Proof.
  induction 1 as [|x l1 l2 H IH|x l1 l2 H IH]; cbn; intros Hl; [done|f_equal; apply IH; lia|].
  apply sublist_length in H. lia.
Qed.
Lemma channel_lossy m m' buf : mb_subs m !! sub = Some (mkChannel stream buf false) → lossy m m' →
  ∃ buf', mb_subs m' !! sub = Some (mkChannel stream buf' false) ∧ buf' `sublist_of` buf.
Proof.
  intros Hb [_ _ _ Hs]. specialize (Hs sub). rewrite Hb in Hs. inversion Hs as [? [s buf' cl] (Es & Ec & Hsub) E1 E2|]; subst.
  cbn in *. subst. by exists buf'.
Qed.

Lemma elem_take_S p e x : K !! p = Some e → x ∈ take (S p) K ↔ x ∈ take p K ∨ x = e.
Proof. intros He. rewrite (take_S_r _ _ _ He), elem_of_app, list_elem_of_singleton. done. Qed.

Lemma publish_ok m p e : bus_ok m p → K !! p = Some e → bus_ok (announce stream e m).2 (S p).
Proof.
  intros Hok He. destruct (ring_facts _ _ Hok) as [Hinc Hsub]. destruct Hok as [[old Hold] (buf & Hb & Hbuf) Hn].
  assert (Hlater : ∀ x, x ∈ ring_of m → earlier x e) by (intros x Hx; by apply (next_later p), Hsub).
  split.
  - rewrite ring_of_announce, has_sequence_false by (intros x Hx; specialize (Hlater _ Hx); unfold earlier in Hlater; lia).
    rewrite sort_increasing by done. destruct (newest_suffix (mb_capacity m) (ring_of m ++ [e])) as [l' Hl'].
    exists (old ++ l'). by rewrite <-app_assoc, <-Hl', (take_S_r _ _ _ He), Hold, app_assoc.
  - eexists. split; [by apply channel_announce|]. intros x Hx. rewrite (elem_take_S _ _ _ He). rewrite decide_True in Hx by done.
    destruct (has_sequence _ _); [left; by apply Hbuf|].
    apply elem_of_app in Hx as [Hx|Hx%list_elem_of_singleton]; [left; by apply Hbuf|by right].
  - by rewrite announce_next.
Qed.

Lemma redeliver_ok m p i e : bus_ok m p → (i < p)%nat → K !! i = Some e →
  e ∈ ring_of m ∨ mb_capacity m ≤ Z.of_nat (length (ring_of m)) → bus_ok (announce stream e m).2 p.
Proof.
  intros Hok Hi He Hor. destruct (ring_facts _ _ Hok) as [Hinc Hsub]. destruct Hok as [[old Hold] (buf & Hb & Hbuf) Hn].
  assert (Hp : e ∈ take p K) by (apply list_elem_of_lookup; exists i; by rewrite lookup_take_lt).
  split.
  - rewrite ring_of_announce. destruct (has_sequence _ _) eqn:Eh; [by exists old|].
    assert (Hnot : e ∉ ring_of m).
    { intros H. unfold has_sequence in Eh. rewrite <-not_true_iff_false in Eh. apply Eh. apply existsb_exists. exists e.
      rewrite <-list_elem_of_In, Z.eqb_refl. done. }
    destruct Hor as [?|Hcap]; [done|].
    rewrite sort_first; [|done|].
    + exists (old ++ take (length (ring_of m) - Z.to_nat (mb_capacity m)) (ring_of m)).
      rewrite Hold, <-app_assoc. f_equal. unfold newest_of. cbn [length].
      replace (S (length (ring_of m)) - Z.to_nat (mb_capacity m))%nat with (S (length (ring_of m) - Z.to_nat (mb_capacity m))) by lia.
      cbn [drop]. by rewrite take_drop.
    + intros x Hx. rewrite Hold in Hp. apply elem_of_app in Hp as [Hp|]; [|done].
      pose proof (take_increasing p) as H. rewrite Hold in H. apply increasing_app in H as (_ & _ & H). by apply H.
  - eexists. split; [by apply channel_announce|]. intros x Hx. rewrite decide_True in Hx by done.
    destruct (has_sequence _ _); [by apply Hbuf|].
    apply elem_of_app in Hx as [Hx|Hx%list_elem_of_singleton]; [by apply Hbuf|by subst].
  - by rewrite announce_next.
Qed.

Lemma elsewhere_ok m p o m' p' o' : bus_ok m p → elsewhere (m, p, o) (m', p', o') → bus_ok m' p'.
Proof.
  intros Hok H. inversion H as [???? He|????? Hi He Hor|???? Hl|???? Hexp|????? Hs|????|???? Hne|???? Hne]; subst.
  - by apply publish_ok.
  - by eapply redeliver_ok.
  - destruct Hok as [Hr (buf & Hb & Hbuf) Hn]. destruct (channel_lossy _ _ _ Hb Hl) as (buf' & Hb' & Hsub).
    pose proof Hl as [_ Er En _]. split; [unfold ring_of in *; by rewrite Er| |by rewrite En]. exists buf'. split; [done|].
    intros e He. apply Hbuf. by eapply elem_of_sublist.
  - destruct Hok as [[old Hold] Hch Hn]. split; [|done|done]. unfold ring_of in *. cbn. destruct (rings !! stream) as [l|] eqn:El.
    + exists old. by rewrite (lookup_weaken _ _ _ _ El Hexp) in Hold.
    + exists (take p' K). cbn. by rewrite app_nil_r.
  - destruct Hok as [[old Hold] (buf & Hb & Hbuf) Hn]. split.
    + exists old. rewrite Hold. f_equal. unfold ring_of, announce, memory_publish. destruct (has_sequence _ _); cbn; [done|].
      by rewrite lookup_insert_ne.
    + exists buf. rewrite (channel_announce _ _ _ _ Hb), decide_False by done. done.
    + by rewrite announce_next.
  - destruct Hok as [Hr (buf & Hb & Hbuf) Hn]. split; [done| |cbn; lia]. exists buf. cbn.
    rewrite lookup_insert_ne by lia. done.
  - destruct Hok as [Hr (buf & Hb & Hbuf) Hn]. cbn. destruct (take_event i (mb_subs m)) as [r subs] eqn:E. split; [done| |done].
    exists buf. split; [|done]. cbn. unfold take_event in E. destruct (mb_subs m !! i) as [c|]; [|by simplify_eq].
    destruct (ch_buffer c); simplify_eq; [done|]. by rewrite lookup_insert_ne.
  - destruct Hok as [Hr (buf & Hb & Hbuf) Hn]. split; [done| |done]. exists buf. split; [|done]. cbn. unfold close_channel.
    by rewrite lookup_alter_ne.
Qed.

(** *** Windows of the events *)
Lemma picks_increasing a l : increasing l → (∀ e, e ∈ l → e ∈ K) → picks stream a l = above a l.
Proof.
  intros Hl. revert a. induction Hl as [|x l Hl IH Hx]; intros a HK; [done|]. rewrite above_cons. cbn [picks].
  assert (Hown : of_stream stream x = true) by (pose proof (rec_own Hrec) as H; rewrite Forall_forall in H; apply H, HK, elem_of_cons; by left).
  assert (HK' : ∀ e, e ∈ l → e ∈ K) by (intros e He; apply HK, elem_of_cons; by right).
  unfold pick. rewrite Hown, orb_false_r. destruct (a <? Event_Sequence x) eqn:E; bool_prop.
  - rewrite (proj2 (Z.leb_gt _ _)) by done. cbn. f_equal. rewrite after_of_cons, after_of_nil, IH by done.
    apply increasing_ext; [by apply increasing_filter..|]. intros e. rewrite !elem_of_above.
    split; intros [Hel ?]; split; try done; [lia|]. eapply Forall_forall in Hx; [|done]. done.
  - rewrite (proj2 (Z.leb_le _ _)) by done. cbn. by rewrite after_of_nil, IH.
Qed.

Lemma window_increasing a b : increasing (window a b K).
Proof. apply increasing_filter, Hrec. Qed.
Lemma window_join a b c : a ≤ b → b ≤ c → window a b K ++ window b c K = window a c K.
Proof.
  intros Hab Hbc. apply increasing_ext; [|apply window_increasing|].
  - apply increasing_app_2; [apply window_increasing..|]. intros x y [_ Hx]%elem_of_window [_ Hy]%elem_of_window. unfold earlier. lia.
  - intros e. rewrite elem_of_app, !elem_of_window. split; [intros [[? ?]|[? ?]]; (split; [done|lia])|].
    intros [? ?]. destruct (decide (Event_Sequence e ≤ b)); [left|right]; (split; [done|lia]).
Qed.

(** What is above [a] among the first [p] events is a window. *)
Lemma window_above a p : window a (after_of a (above a (take p K))) K = above a (take p K).
Proof.
  destruct (after_of_above a (take p K) (take_increasing p)) as [Ha Hmax].
  apply increasing_ext; [apply window_increasing|by apply increasing_filter, take_increasing|].
  intros e. rewrite elem_of_window, elem_of_above. split.
  - intros (He & Hlt & Hle). split; [|done].
    destruct (after_of_elem a (above a (take p K))) as [E|(x & Hx & E)]; [lia|].
    apply elem_of_above in Hx as [Hx _]. rewrite <-E in Hle. by eapply take_closed.
  - intros [He Hlt]. split_and!; [by eapply elem_take|done|by apply Hmax].
Qed.

(** *** One event delivered *)
Definition holds_above (m : MemoryBus) (p : nat) (last : Z) : Prop := ∀ e, e ∈ take p K → last < Event_Sequence e → e ∈ ring_of m.

Lemma above_ring m p a : bus_ok m p → holds_above m p a → above a (ring_of m) = above a (take p K).
Proof.
  intros Hok Hh. destruct (ring_facts _ _ Hok) as [Hinc Hsub].
  apply increasing_ext; [by apply increasing_filter|by apply increasing_filter, take_increasing|].
  intros e. rewrite !elem_of_above. split; intros [? ?]; split; auto.
Qed.

Lemma elem_exact e : e ∈ K → 0 < Event_Sequence e ∧ exact (Event_Sequence e).
Proof. pose proof (rec_exact Hrec) as H. rewrite Forall_forall in H. apply H. Qed.
Lemma exact_succ n : exact n → add64 n 1 = n + 1.
Proof. unfold exact, add64. intros. apply wrap64_id. unfold_int64. lia. Qed.
Lemma after_exact a l : exact a → (∀ e, e ∈ l → e ∈ K) → exact (after_of a l).
Proof. intros Ha Hl. destruct (after_of_elem a l) as [->|(e & He & <-)]; [done|]. by apply elem_exact, Hl. Qed.

Lemma delivered_window history e v v' es m p : models (bus v) m → bus_ok m p → exact (lastSent v) → e ∈ take p K →
  (lastSent v + 1 < Event_Sequence e → holds_above m p (lastSent v)) → delivered history stream e v v' es →
  models (bus v') m ∧ lastSent v ≤ after_of (lastSent v) es ∧ exact (after_of (lastSent v) es) ∧
  es = window (lastSent v) (after_of (lastSent v) es) K ∧ Event_Sequence e ≤ after_of (lastSent v) es.
Proof.
  intros Hm Hok Hx He Hh (v1 & es1 & H1 & Hl1 & [Hb Hr] & ->). rewrite exact_succ in H1 by done.
  assert (HK : e ∈ K) by by eapply elem_take. rewrite Hb.
  destruct (lastSent v + 1 <? Event_Sequence e) eqn:Eg; bool_prop.
  - specialize (Hh Eg). destruct H1 as (recent & oldest & past & fs & fs' & HR & _ & Hp & ->).
    cbn in Hp. subst past. destruct (Recent_models _ _ _ _ _ _ _ _ Hm Hx HR) as [Hm' Hf]. injection (Hf _ eq_refl) as -> ->.
    cbn [app] in *. fold (ring_of m) in *. destruct (ring_facts _ _ Hok) as [Hinc Hsub].
    assert (Habove : picks stream (lastSent v) (above (lastSent v) (ring_of m)) = above (lastSent v) (take p K)).
    { rewrite picks_increasing; [|by apply increasing_filter|].
      - rewrite <-(above_ring _ _ _ Hok Hh). apply increasing_ext; [by repeat apply increasing_filter..|].
        intros x. rewrite !elem_of_above. naive_solver.
      - intros x [Hx' _]%elem_of_above. by eapply elem_take, Hsub. }
    rewrite Habove in *. destruct (after_of_above (lastSent v) (take p K) (take_increasing p)) as [Ha Hmax].
    assert (Hpick : pick stream (lastSent v1) e = []).
    { unfold pick. rewrite Hl1. by rewrite (proj2 (Z.leb_le _ _)) by by apply Hmax. }
    rewrite Hpick, app_nil_r. split_and!; [done|done| |by rewrite window_above|by apply Hmax].
    apply after_exact; [done|]. intros x [Hx' _]%elem_of_above. by eapply elem_take.
  - destruct H1 as [-> ->]. cbn [app]. rewrite <-(app_nil_l (pick _ _ _)). cbn [app].
    assert (Hown : of_stream stream e = true) by (pose proof (rec_own Hrec) as H; rewrite Forall_forall in H; by apply H).
    unfold pick. rewrite Hown, orb_false_r. destruct (Event_Sequence e <=? lastSent v) eqn:El; bool_prop.
    + rewrite after_of_nil. split_and!; [done|lia|done| |done]. symmetry. unfold window. apply filter_all_false, Forall_forall.
      intros x _. apply andb_false_iff. rewrite Z.ltb_ge, Z.leb_gt. lia.
    + rewrite after_of_cons, after_of_nil. destruct (elem_exact _ HK). split_and!; [done|lia|done| |done].
      apply increasing_ext; [repeat constructor|apply window_increasing|]. intros x. rewrite list_elem_of_singleton, elem_of_window.
      split; [intros ->; split; [done|lia]|]. intros [Hx' ?]. eapply increasing_same_seq; [apply Hrec|done|done|lia].
Qed.

(** *** Opening the stream *)
Lemma scan_timeline_valid l : Forall (λ e, json_Valid (Event_Payload e) = true) l → scan_timeline l = Ok l.
Proof. induction 1 as [|e l He _ IH]; cbn; [done|]. by rewrite He, IH. Qed.

Lemma before_ring_elem oldest l e : increasing l → e ∈ before_ring oldest l ↔ e ∈ l ∧ (oldest = 0 ∨ Event_Sequence e < oldest).
Proof.
  induction 1 as [|x l Hl IH Hx]; cbn; [rewrite elem_of_nil; naive_solver|]. rewrite elem_of_cons. rewrite Forall_forall in Hx. unfold earlier in Hx.
  destruct (oldest =? 0) eqn:E0; cbn; bool_prop.
  - rewrite elem_of_cons, IH. naive_solver.
  - destruct (oldest <=? Event_Sequence x) eqn:E; bool_prop.
    + rewrite elem_of_nil. split; [done|]. intros [[->|He] [?|?]]; try lia. specialize (Hx _ He). lia.
    + rewrite elem_of_cons, IH. split; [intros [->|[? ?]]; auto with lia|]. naive_solver.
Qed.
Lemma before_ring_increasing oldest l : increasing l → increasing (before_ring oldest l).
Proof.
  induction 1 as [|x l Hl IH Hx]; cbn; [constructor|]. destruct (_ && _); [constructor|]. constructor; [done|].
  apply Forall_forall. intros e [He _]%before_ring_elem; [|done]. by eapply Forall_forall in Hx.
Qed.

(** What the durable log has when the stream is opened: a prefix of the events,
    with every published one that is above [after] and no longer in the ring. *)
Definition log_reaches (history : bool) (m : MemoryBus) (p : nat) (after : Z) (rows : list Row) : Prop :=
  if history then
    ∃ n, timeline_query (Stream_CompanyID stream) (Stream_InterviewID stream) after rows = above after (take n K) ∧
      Forall (λ e, json_Valid (Event_Payload e) = true) (take n K) ∧
      ∀ e, e ∈ take p K → after < Event_Sequence e → e ∈ ring_of m ∨ e ∈ take n K
  else holds_above m p after.

Lemma ring_oldest m p : bus_ok m p → ring_of m = [] ∧ oldest_of (ring_of m) = 0 ∨
  0 < oldest_of (ring_of m) ∧ exact (oldest_of (ring_of m)) ∧ (∃ x, x ∈ ring_of m ∧ Event_Sequence x = oldest_of (ring_of m)) ∧
  ∀ e, e ∈ take p K → (e ∈ ring_of m ↔ oldest_of (ring_of m) ≤ Event_Sequence e).
Proof.
  intros Hok. destruct (ring_facts _ _ Hok) as [Hinc Hsub]. destruct Hok as [[old Hold] _ _].
  pose proof (take_increasing p) as Ht. rewrite Hold in Ht. apply increasing_app in Ht as (_ & _ & Hcross).
  destruct (ring_of m) as [|x ring] eqn:Er; [by left|right]. cbn [oldest_of].
  assert (Hx : x ∈ x :: ring) by (apply elem_of_cons; by left). destruct (elem_exact x) as [? ?]; [by eapply elem_take, Hsub|].
  split_and!; [done|done|by exists x|]. intros e He. apply StronglySorted_inv in Hinc as [_ Hall]. rewrite Forall_forall in Hall.
  split.
  - intros [->|Hin]%elem_of_cons; [done|]. specialize (Hall _ Hin). unfold earlier in Hall. lia.
  - intros Hle. rewrite Hold in He. apply elem_of_app in He as [He|He]; [|done].
    specialize (Hcross _ _ He Hx). unfold earlier in Hcross. lia.
Qed.

Lemma elem_take_max p n e : e ∈ take (Nat.max p n) K ↔ e ∈ take p K ∨ e ∈ take n K.
Proof.
  rewrite !elem_of_take. split; [|intros [(i & Hi & ?)|(i & Hi & ?)]; exists i; (split; [done|lia])].
  intros (i & Hi & Hlt). destruct (decide (i < p)%nat); [left|right]; exists i; (split; [done|lia]).
Qed.

(** The events a deep catch-up sends: those above [after] among the first [q],
    all published ones included. *)
Lemma opened_events history m p after rows past : bus_ok m p → exact after → log_reaches history m p after rows →
  (if needs_history history true after (oldest_of (ring_of m))
   then past = before_ring (oldest_of (ring_of m)) (timeline_query (Stream_CompanyID stream) (Stream_InterviewID stream) after rows)
   else past = []) →
  ∃ q, (∀ e, e ∈ take p K → e ∈ take q K) ∧ picks stream after (past ++ above after (ring_of m)) = above after (take q K).
Proof.
  intros Hok Hx Hlog Hpast. destruct (ring_facts _ _ Hok) as [Hinc Hsub].
  assert (Hgo : ∀ l q, increasing l → (∀ e, e ∈ take p K → e ∈ take q K) → (∀ e, e ∈ l ↔ e ∈ take q K ∧ after < Event_Sequence e) →
    ∃ q, (∀ e, e ∈ take p K → e ∈ take q K) ∧ picks stream after l = above after (take q K)).
  { intros l q Hl Hpq Heq. exists q. split; [done|]. rewrite picks_increasing; [|done|intros e He; apply Heq in He as [He _]; by eapply elem_take].
    apply increasing_ext; [by apply increasing_filter|by apply increasing_filter, take_increasing|].
    intros e. rewrite !elem_of_above, Heq. naive_solver. }
  destruct (needs_history _ _ _ _) eqn:En; unfold needs_history in En.
  - cbn in En. apply andb_true_iff in En as [-> En]. cbn in Hlog.
    destruct Hlog as (n & Hq & _ & Hall). rewrite Hq in Hpast. subst past.
    assert (Hbi : increasing (above after (take n K))) by apply increasing_filter, take_increasing.
    destruct (ring_oldest m p Hok) as [[Hr Ho]|(Hpos & _ & (x & Hxr & Exo) & Hiff)].
    + rewrite Hr, Ho in *. cbn [above List.filter]. rewrite app_nil_r.
      apply (Hgo _ (Nat.max p n)); [by apply before_ring_increasing|intros e He; apply elem_take_max; by left|].
      intros e. rewrite before_ring_elem, elem_of_above, elem_take_max by done. split; [naive_solver|].
      intros [[He|He] Ha]; [|by auto]. destruct (Hall e He Ha) as [Hn%elem_of_nil|]; [done|by auto].
    + apply (Hgo _ p); [|done|].
      * apply increasing_app_2; [by apply before_ring_increasing|by apply increasing_filter|].
        intros y z [_ [?|?]]%before_ring_elem [Hz _]%elem_of_above; [lia| |done]. apply Hiff in Hz; [|by apply Hsub]. unfold earlier. lia.
      * intros e. rewrite elem_of_app, before_ring_elem, !elem_of_above by done. split.
        { intros [[[He ?] Hlt]|[He ?]]; [|by auto]. split; [|done]. apply (take_closed p x); [by apply Hsub|by eapply elem_take|lia]. }
        intros [He ?]. destruct (decide (oldest_of (ring_of m) ≤ Event_Sequence e)) as [Hle|Hle]; [right; split; [by apply Hiff|done]|left].
        destruct (Hall e He) as [Hin|Hin]; [done| |split; [done|lia]]. apply Hiff in Hin; [lia|done].
  - subst past. cbn [app]. apply (Hgo _ p); [by apply increasing_filter|done|]. intros e. rewrite elem_of_above.
    split; [intros [? ?]; auto|]. intros [He Ha]. split; [|done]. destruct history; cbn in Hlog, En; [|by apply Hlog].
    apply orb_false_iff in En as [E0%Z.eqb_neq Ele]. rewrite exact_succ in Ele by done. apply Z.ltb_ge in Ele.
    destruct (ring_oldest m p Hok) as [[_ ?]|(_ & _ & _ & Hiff)]; [done|]. apply Hiff; [done|lia].
Qed.

Lemma history_quiet (v : Viewing (B := B)) :
  Forall (λ e, json_Valid (Event_Payload e) = true) (timeline_query (Stream_CompanyID stream) (Stream_InterviewID stream) (lastSent v) (event_rows v)) →
  history_or_nothing stream [] v = (Ok (timeline_query (Stream_CompanyID stream) (Stream_InterviewID stream) (lastSent v) (event_rows v)), [], v).
Proof.
  intros Hv. unfold history_or_nothing, on_log, Timeline, mbind, M_bind, wrapM, query, stmt. cbn -[timeline_query].
  unfold lift. rewrite scan_timeline_valid by done. by destruct v.
Qed.

Lemma send_all_app l1 l2 fs (v : Viewing (B := B)) :
  (send_all stream l1;; send_all stream l2) fs v = send_all stream (l1 ++ l2) fs v.
Proof.
  revert fs v. induction l1 as [|e l1 IH]; intros fs v; [done|]. cbn [send_all app].
  unfold mbind, M_bind in *. destruct (send stream e fs v) as [[[[]|err] fs1] v1]; [|done]. apply IH.
Qed.

Lemma open_stream_window history between v0 fs' v1 m p : exact (lastSent v0) →
  models (foldl (λ b f, f b) (bus v0) between) m → bus_ok m p → log_reaches history m p (lastSent v0) (event_rows v0) →
  open_stream history stream between [] v0 = (Ok (), fs', v1) →
  models (bus v1) m ∧ lastSent v0 ≤ lastSent v1 ∧ exact (lastSent v1) ∧ (∀ e, e ∈ take p K → Event_Sequence e ≤ lastSent v1) ∧
  ∃ xs, written v1 = written v0 ++ xs ∧ shows stream (lastSent v0) xs (window (lastSent v0) (lastSent v1) K) (lastSent v1).
Proof.
  intros Hx Hm Hok Hlog H. unfold open_stream in H.
  apply bind_M_cases in H as [([] & fs1 & v2 & H1 & H)|(e & _ & [=])].
  apply bind_M_cases in H as [(last & fs2 & v3 & [= <- <- <-] & H)|(e & [=] & _)].
  apply write_cases in H as [[_ ->]|[[=] _]].
  unfold catchUp in H1. apply bind_M_cases in H1 as [(last & fs3 & v3 & [= <- <- <-] & H1)|(e & [=] & _)].
  apply bind_M_cases in H1 as [([recent oldest] & fs4 & v4 & HR & H1)|(e & _ & [=])]; apply on_bus_silent in HR as [HR Hv4].
  cbn [bus lastSent event_rows written] in *.
  pose proof (Recent_quiet _ _ _ _ _ _ HR) as ->. destruct (Recent_models _ _ _ _ _ _ _ _ Hm Hx HR) as [Hm' Hf].
  injection (Hf _ eq_refl) as -> ->. fold (ring_of m) in *.
  set (past := if needs_history history true (lastSent v0) (oldest_of (ring_of m))
    then before_ring (oldest_of (ring_of m)) (timeline_query (Stream_CompanyID stream) (Stream_InterviewID stream) (lastSent v0) (event_rows v0))
    else []).
  assert (Hsend : ∃ xs es, written v2 = written v0 ++ xs ∧ shows stream (lastSent v0) xs es (lastSent v2) ∧
    bus v2 = bus v4 ∧ es = picks stream (lastSent v0) (past ++ above (lastSent v0) (ring_of m))).
  { assert (H2 : send_all stream (past ++ above (lastSent v0) (ring_of m)) [] v4 = (Ok (), fs1, v2)).
    { rewrite <-send_all_app, <-H1. change (true && history && _) with (needs_history history true (lastSent v0) (oldest_of (ring_of m))).
      unfold past. destruct (needs_history _ _ _ _) eqn:En; [|done].
      unfold needs_history in En. apply andb_true_iff in En as [En _]. cbn in En. subst history. destruct Hlog as (n & Hq & Hv & _).
      unfold mbind, M_bind. rewrite history_quiet; rewrite Hv4; cbn; [by rewrite send_past_all|].
      rewrite Hq. apply Forall_forall. intros e [He _]%elem_of_above. by eapply Forall_forall in Hv. }
    apply send_all_gives in H2. cbn in H2. destruct H2 as (xs & es & Hw & Hs & [Hb _] & ->).
    rewrite Hv4 in Hw, Hs. cbn in Hw, Hs. exists xs. eexists. by split_and!. }
  destruct Hsend as (xs & es & Hw & Hs & Hb & Hes).
  destruct (opened_events history m p (lastSent v0) (event_rows v0) past Hok Hx Hlog) as (q & Hq & Hpick).
  { unfold past. by destruct (needs_history _ _ _ _). }
  rewrite Hpick in Hes. subst es. pose proof (shows_last _ _ _ _ _ Hs) as Hl.
  destruct (after_of_above (lastSent v0) (take q K) (take_increasing q)) as [Ha Hmax]. rewrite <-Hl in Ha, Hmax.
  unfold wrote. cbn. split_and!; [congruence|done| |by intros e He; apply Hmax, Hq|].
  - rewrite Hl. apply after_exact; [done|]. intros x [Hx' _]%elem_of_above. by eapply elem_take.
  - exists (xs ++ [caught_up_frame (lastSent v2)]). rewrite app_assoc, <-Hw. split; [done|].
    rewrite Hl at 2. rewrite window_above, <-(app_nil_r (above _ _)). eapply shows_app; [exact Hs|]. repeat constructor.
Qed.

(** *** Watching *)
(** A viewer's stream, the bus behind it as a memory bus, how many events are
    published, and whether one was lost on its way to the viewer. *)
Record Watch := mkWatch { view : Viewing (B := B); model : MemoryBus; published : nat; missed : bool }.
Inductive watch_step (history : bool) : Watch → Watch → Prop :=
  | ws_elsewhere v m p o m' p' o' b' rows : elsewhere (m, p, o) (m', p', o') → models b' m' →
      watch_step history (mkWatch v m p o) (mkWatch (mkViewing b' rows (written v) (lastSent v)) m' p' o')
  | ws_tick v m p o fs fs' v' : one_turn history stream sub Tick fs v = (Ok true, fs', v') →
      watch_step history (mkWatch v m p o) (mkWatch v' m p o)
  (* an event is read; if it leaves a gap, the ring has what was published since *)
  | ws_incoming v m p o fs fs' v' : one_turn history stream sub Incoming fs v = (Ok true, fs', v') →
      (∀ e, (Receive sub (bus v)).1 = Some (Some e) → lastSent v + 1 < Event_Sequence e → holds_above m p (lastSent v)) →
      watch_step history (mkWatch v m p o)
        (mkWatch v' (if (Receive sub (bus v)).1 is Some _ then (Receive sub m).2 else m) p o).

Record watch_ok (w0 : list Sse.sent) (after : Z) (w : Watch) : Prop := {
  wo_models : models (bus (view w)) (model w);
  wo_bus : bus_ok (model w) (published w);
  wo_exact : exact (lastSent (view w));
  wo_after : after ≤ lastSent (view w);
  wo_shown : ∃ xs, written (view w) = w0 ++ xs ∧ shows stream after xs (window after (lastSent (view w)) K) (lastSent (view w));
  wo_pending : missed w = false → ∀ e, e ∈ take (published w) K → Event_Sequence e ≤ lastSent (view w) ∨ e ∈ waiting (model w);
}.

(** What waits for the viewer after others used the bus. *)
Lemma elsewhere_waiting m p o m' p' o' : bus_ok m p → elsewhere (m, p, o) (m', p', o') →
  o' = false → o = false ∧ ∀ e, e ∈ take p' K → e ∈ take p K ∧ (e ∈ waiting m → e ∈ waiting m') ∨ e ∈ waiting m'.
Proof.
  intros Hok H. pose proof Hok as [_ (buf & Hb & Hbuf) Hn].
  assert (Hw : waiting m = buf) by (unfold waiting; by rewrite Hb).
  assert (Hkeep : ∀ m1, (∀ e, e ∈ waiting m → e ∈ waiting m1) →
    ∀ e, e ∈ take p K → e ∈ take p K ∧ (e ∈ waiting m → e ∈ waiting m1) ∨ e ∈ waiting m1) by (intros m1 Hk e He; left; auto).
  assert (Hsame : ∀ m1, mb_subs m1 !! sub = mb_subs m !! sub → ∀ e, e ∈ waiting m → e ∈ waiting m1) by (unfold waiting; by intros m1 ->).
  assert (Hann : ∀ s e x, x ∈ waiting m → x ∈ waiting (announce s e m).2).
  { intros s e x. rewrite Hw. unfold waiting. rewrite (channel_announce _ _ _ _ Hb). cbn.
    destruct (decide _); [|done]. destruct (has_sequence _ _); [done|]. rewrite elem_of_app. auto. }
  inversion H as [???? He|????? Hi He Hor|???? Hl|???? Hexp|????? Hs|????|???? Hne|???? Hne]; subst; intros Ho; try (split; [done|]).
  - intros x Hx. apply (elem_take_S _ _ _ He) in Hx as [Hx| ->]; [left; auto|right].
    unfold waiting. rewrite (channel_announce _ _ _ _ Hb), decide_True by done. cbn. rewrite has_sequence_false.
    2: { intros x Hx. destruct (ring_facts _ _ Hok) as [_ Hsub]. pose proof (next_later p e x He (Hsub _ Hx)). lia. }
    apply elem_of_app. right. by apply list_elem_of_singleton.
  - apply Hkeep, Hann.
  - apply orb_false_iff in Ho as [-> Hlen%Nat.ltb_ge]. split; [done|]. destruct (channel_lossy _ _ _ Hb Hl) as (buf' & Hb' & Hsub).
    assert (Hw' : waiting m' = buf') by (unfold waiting; by rewrite Hb'). rewrite Hw' in Hlen.
    apply Hkeep. rewrite Hw'. by rewrite (sublist_whole _ _ Hsub).
  - apply Hkeep. by apply Hsame.
  - apply Hkeep, Hann.
  - apply Hkeep, Hsame. cbn. by rewrite lookup_insert_ne by lia.
  - apply Hkeep, Hsame. cbn. unfold take_event.
    destruct (mb_subs m !! i) as [c|] eqn:Ei; [|done]. destruct (ch_buffer c); cbn; [done|]. by rewrite lookup_insert_ne.
  - apply Hkeep, Hsame. cbn. unfold close_channel. by rewrite lookup_alter_ne.
Qed.

(** Reading the viewer's channel. *)
Lemma receive_waiting m p : bus_ok m p → bus_ok (Receive sub m).2 p ∧ ring_of (Receive sub m).2 = ring_of m ∧
  match (Receive sub m).1 with
  | Some (Some e) => waiting m = e :: waiting (Receive sub m).2
  | Some None => False
  | None => (Receive sub m).2 = m
  end.
Proof.
  intros [Hr (buf & Hb & Hbuf) Hn]. unfold waiting. cbn. unfold take_event. rewrite Hb. cbn. destruct buf as [|e buf]; cbn.
  - split_and!; [|done|by destruct m]. split; cbn; eauto.
  - rewrite lookup_insert_eq. split_and!; [|done|done]. split; cbn; [done| |done]. exists buf. rewrite lookup_insert_eq. split; [done|].
    intros x Hx. apply Hbuf, elem_of_cons. by right.
Qed.
Lemma viewer_open m p : bus_ok m p → open_in m sub.
Proof. intros [_ (buf & Hb & _) _]. by eexists. Qed.

(** One turn of the viewer at his own channel. *)
Lemma incoming_ok history w0 after v m p o fs fs' v' : watch_ok w0 after (mkWatch v m p o) →
  one_turn history stream sub Incoming fs v = (Ok true, fs', v') →
  (∀ e, (Receive sub (bus v)).1 = Some (Some e) → lastSent v + 1 < Event_Sequence e → holds_above m p (lastSent v)) →
  watch_ok w0 after (mkWatch v' (if (Receive sub (bus v)).1 is Some _ then (Receive sub m).2 else m) p o).
Proof.
  intros [Hm Hok Hx Ha (xs & Hw & Hs) Hp] Hturn Hring; cbn [view model published missed] in *.
  apply one_turn_gives in Hturn. cbn [turned] in Hturn. destruct Hturn as (ys & es & Hw' & Hs' & r & b & HR & Hcase).
  pose proof (Receive_models _ _ sub Hm (viewer_open _ _ Hok)) as HRm. rewrite HR in HRm, Hring. rewrite HR. cbn [fst snd] in *.
  destruct (receive_waiting _ _ Hok) as (Hok' & Hring' & Hwait).
  destruct r as [[e|]|].
  - destruct HRm as [[? _]|[HR1 HR2]]; [done|]. rewrite <-HR1 in Hwait. destruct Hcase as [_ Hd]. assert (He : e ∈ take p K).
    { pose proof Hok as [_ (buf & Hb & Hbuf) _]. apply Hbuf. unfold waiting in Hwait at 1. rewrite Hb in Hwait. cbn in Hwait. rewrite Hwait.
      apply elem_of_cons. by left. }
    apply (delivered_window _ _ (mkViewing b (event_rows v) (written v) (lastSent v)) _ _ (Receive sub m).2 p HR2) in Hd; cbn -[Receive] in Hd |- *; [|done|done|done|].
    2: { intros Hgap. unfold holds_above. rewrite Hring'. by apply (Hring e). }
    destruct Hd as (Hm' & Hle & Hx' & Hes & Hcov). pose proof (shows_last _ _ _ _ _ Hs') as Hl. cbn in Hl. rewrite <-Hl in *.
    split; cbn -[Receive]; [done|done|done|lia| |].
    + exists (xs ++ ys). rewrite Hw', Hw, app_assoc. split; [done|]. rewrite <-(window_join after (lastSent v)) by lia.
      rewrite <-Hes. by eapply shows_app.
    + intros Ho x Hin. destruct (Hp Ho x Hin) as [?|Hin']; [left; lia|]. rewrite Hwait in Hin'.
      apply elem_of_cons in Hin' as [->|]; [by left|by right].
  - destruct HRm as [[? _]|[HR1 _]]; [done|]. by rewrite <-HR1 in Hwait.
  - assert (models b m) as Hm' by (destruct HRm as [[_ ?]|[HR1 HR2]]; [done|]; rewrite <-HR1 in Hwait; by rewrite Hwait in HR2).
    destruct Hcase as (_ & -> & Hb & _). pose proof (shows_last _ _ _ _ _ Hs') as Hl. rewrite after_of_nil in Hl.
    split; cbn; rewrite ?Hb, ?Hl; try done.
    exists (xs ++ ys). rewrite Hw', Hw, app_assoc. split; [done|].
    rewrite <-(app_nil_r (window _ _ _)). rewrite Hl in Hs'. by eapply shows_app.
Qed.

Lemma watch_step_ok history w0 after w w' : watch_ok w0 after w → watch_step history w w' → watch_ok w0 after w'.
Proof.
  intros Hwk H. inversion H as [v m p o m' p' o' b' rows He Hm' |v m p o fs fs' v' Hturn|v m p o fs fs' v' Hturn Hring]; subst;
    [..|by eapply incoming_ok]; destruct Hwk as [Hm Hok Hx Ha (xs & Hw & Hs) Hp]; cbn [view model published missed] in *.
  - split; cbn; [done|by eapply elsewhere_ok|done|done|by exists xs|].
    intros Ho. destruct (elsewhere_waiting _ _ _ _ _ _ Hok He Ho) as [-> Hwait]. intros e Hin.
    destruct (Hwait e Hin) as [[Hin' Hkeep]|]; [|by right]. destruct (Hp eq_refl e Hin'); auto.
  - apply one_turn_gives in Hturn. cbn in Hturn. destruct Hturn as (ys & es & Hw' & Hs' & _ & -> & Hb & _).
    pose proof (shows_last _ _ _ _ _ Hs') as Hl. rewrite after_of_nil in Hl.
    split; cbn; rewrite ?Hb, ?Hl; try done. exists (xs ++ ys). rewrite Hw', Hw, app_assoc. split; [done|].
    rewrite <-(app_nil_r (window _ _ _)). rewrite Hl in Hs'. by eapply shows_app.
Qed.

(** C5: a viewer of a stream that is fed in order misses nothing.  [K] are the
    events of the interview by sequence number.  Over any bus with the laws,
    Redis and memory alike, and under these conditions - the bus is given them
    in that order, each again any number of times while the ring has it or is
    full (an event that comes late, after one with a higher number, is outside
    the theorem and is lost); at the opening every published event above the
    [Last-Event-ID] is in the ring or, with a history, in the log, whose read
    succeeds; whenever an event read from the subscription leaves a gap, the
    ring still has what was published since the last one sent - while others
    publish, subscribe, receive and close, rings expire and messages to the
    viewer are lost, the viewer has at any time been shown exactly the events of
    [K] above the [Last-Event-ID] up to the last one sent, in order; and when
    no message to him was lost and none is on its way, every published one. *)
Theorem live_viewer_complete history between v0 fs' v1 m p w : exact (lastSent v0) →
  models (foldl (λ b f, f b) (bus v0) between) m → bus_ok m p → log_reaches history m p (lastSent v0) (event_rows v0) →
  open_stream history stream between [] v0 = (Ok (), fs', v1) →
  rtc (watch_step history) (mkWatch v1 m p false) w →
  (∃ xs, written (view w) = written v0 ++ xs ∧
    shows stream (lastSent v0) xs (window (lastSent v0) (lastSent (view w)) K) (lastSent (view w))) ∧
  (missed w = false → waiting (model w) = [] → ∀ e, e ∈ take (published w) K → lastSent v0 < Event_Sequence e →
    e ∈ window (lastSent v0) (lastSent (view w)) K).
Proof.
  intros Hx Hm Hok Hlog Hopen Hsteps.
  destruct (open_stream_window _ _ _ _ _ _ _ Hx Hm Hok Hlog Hopen) as (Hm1 & Ha1 & Hx1 & Hall & Hxs).
  assert (Hw : watch_ok (written v0) (lastSent v0) w).
  { assert (H0 : watch_ok (written v0) (lastSent v0) (mkWatch v1 m p false)) by (split; cbn; auto).
    revert H0. induction Hsteps as [|w1 w2 w3 Hs _ IH]; [done|]. intros H0. by eapply IH, watch_step_ok. }
  split; [exact (wo_shown _ _ _ Hw)|]. intros Ho Hempty e He Hlt. apply elem_of_window. split; [by eapply elem_take|].
  destruct (wo_pending _ _ _ Hw Ho e He) as [?|Hin]; [done|]. rewrite Hempty in Hin. by apply elem_of_nil in Hin.
Qed.
End Complete.


(** *** A viewer with a gap *)
Module Viewer.
#[local] Existing Instance Example.lib.
Definition events : list Event := map Example.event [1; 2; 4].
(** The first event is published between the subscription and the opening; the
    other two later. *)
Definition m1 : MemoryBus := Example.put 1 (memory_subscribe Example.stream (NewMemoryBus 10)).2.
Definition m2 : MemoryBus := Example.put 2 m1.
Definition m3 : MemoryBus := Example.put 4 m2.
Definition m4 : MemoryBus := (Receive 0%nat m3).2.
Definition m5 : MemoryBus := (Receive 0%nat m4).2.
Definition m6 : MemoryBus := (Receive 0%nat m5).2.
Definition opening : result () * script * Viewing (B := MemoryBus) := open_stream false Example.stream [] [] (Example.viewer m1 0).
Definition with_bus (m : MemoryBus) (v : Viewing (B := MemoryBus)) : Viewing := mkViewing m (event_rows v) (written v) (lastSent v).
Definition next (v : Viewing (B := MemoryBus)) : Viewing := (one_turn false Example.stream 0 Incoming [] v).2.
Definition v1 := opening.2.
Definition v4 := next (with_bus m3 v1).
Definition v5 := next v4.
Definition v6 := next v5.
Definition final : Watch := mkWatch v6 m6 3 false.

Lemma events_recorded : recorded Example.stream events.
Proof. split; repeat constructor; cbn; unfold exact; lia. Qed.
Lemma m1_ok : bus_ok Example.stream events 0 m1 1.
Proof.
  split; [by exists []| |vm_compute; lia]. exists [Example.event 1]. split; [vm_compute; reflexivity|].
  intros e [->|H]%elem_of_cons; [by apply elem_of_cons; left|by apply elem_of_nil in H].
Qed.
(** A viewer on a memory bus reads from his channel. *)
Lemma read v m v' m' : bus v = m → (∃ e, (Receive 0%nat m).1 = Some (Some e) ∧
    (Event_Sequence e ≤ lastSent v + 1 ∨ ring_of Example.stream m = events)) →
  one_turn false Example.stream 0 Incoming [] v = (Ok true, [], v') → (Receive 0%nat m).2 = m' →
  watch_step Example.stream events 0 false (mkWatch v m 3 false) (mkWatch v' m' 3 false).
Proof.
  intros Hb (e & He & Hgap) Ht <-. assert (Hm : (Receive 0%nat m).2 = if (Receive 0%nat (bus v)).1 is Some _ then (Receive 0%nat m).2 else m).
  { by rewrite Hb, He. }
  rewrite Hm. apply (ws_incoming _ _ _ _ _ _ _ _ _ _ _ Ht). rewrite Hb, He. intros e' [= <-] Hlt x Hx _.
  destruct Hgap as [?|Hr]; [lia|]. rewrite Hr. by eapply elem_take.
Qed.
Lemma ring_m5 : ring_of Example.stream m5 = events.
Proof. vm_compute. reflexivity. Qed.
Lemma published_2 : elsewhere Example.stream events 0 (m1, 1%nat, false) (m2, 2%nat, false).
Proof.
  assert ((announce Example.stream (Example.event 2) m1).2 = m2) as <- by (vm_compute; reflexivity).
  by apply el_publish.
Qed.
Lemma published_3 : elsewhere Example.stream events 0 (m2, 2%nat, false) (m3, 3%nat, false).
Proof.
  assert ((announce Example.stream (Example.event 4) m2).2 = m3) as <- by (vm_compute; reflexivity).
  by apply el_publish.
Qed.
Lemma read_1 : watch_step Example.stream events 0 false (mkWatch (with_bus m3 v1) m3 3 false) (mkWatch v4 m4 3 false).
Proof. apply read; [reflexivity|exists (Example.event 1)|..]; [split; [vm_compute; reflexivity|left; vm_compute; discriminate]|vm_compute; reflexivity..]. Qed.
Lemma read_2 : watch_step Example.stream events 0 false (mkWatch v4 m4 3 false) (mkWatch v5 m5 3 false).
Proof. apply read; [vm_compute; reflexivity|exists (Example.event 2)|..]; [split; [vm_compute; reflexivity|left; vm_compute; discriminate]|vm_compute; reflexivity..]. Qed.
Lemma read_3 : watch_step Example.stream events 0 false (mkWatch v5 m5 3 false) (mkWatch v6 m6 3 false).
Proof. apply read; [vm_compute; reflexivity|exists (Example.event 4)|..]; [split; [vm_compute; reflexivity|right; exact ring_m5]|vm_compute; reflexivity..]. Qed.
Lemma steps : rtc (watch_step Example.stream events 0 false) (mkWatch v1 m1 1 false) final.
Proof.
  eapply rtc_l; [exact (ws_elsewhere _ _ _ _ v1 m1 1 false m2 2 false m2 [] published_2 eq_refl)|].
  eapply rtc_l; [exact (ws_elsewhere _ _ _ _ _ m2 2 _ m3 3 false m3 [] published_3 eq_refl)|].
  eapply rtc_l; [exact read_1|]. eapply rtc_l; [exact read_2|]. eapply rtc_l; [exact read_3|].
  apply rtc_refl.
Qed.
End Viewer.
#[local] Existing Instance Example.lib.

Lemma live_viewer_complete_witness :
  map Event_Sequence Viewer.events = [1; 2; 4] ∧ Example.shown_ids Viewer.v6 = ["1"; "2"; "4"]%string ∧
  (∃ xs, written Viewer.v6 = [] ++ xs ∧ shows Example.stream 0 xs (window 0 (lastSent Viewer.v6) Viewer.events) (lastSent Viewer.v6)) ∧
  ∀ e, e ∈ take 3 Viewer.events → 0 < Event_Sequence e → e ∈ window 0 (lastSent Viewer.v6) Viewer.events.
Proof.
  split; [reflexivity|]. split; [vm_compute; reflexivity|].
  destruct (live_viewer_complete Example.stream Viewer.events 0 Viewer.events_recorded false [] (Example.viewer Viewer.m1 0)
    Viewer.opening.1.2 Viewer.v1 Viewer.m1 1 Viewer.final) as [Hs Hc].
  - vm_compute. discriminate.
  - reflexivity.
  - exact Viewer.m1_ok.
  - intros e He _. exact He.
  - assert (Viewer.opening.1.1 = Ok ()) as E by (vm_compute; reflexivity). rewrite <-E. unfold Viewer.v1, Viewer.opening.
    by destruct (open_stream _ _ _ _ _) as [[? ?] ?].
  - exact Viewer.steps.
  - split; [exact Hs|]. apply Hc; vm_compute; reflexivity.
Defined.

#[local] Instance plain_bin : @PlainUuids BinUuid.lib.
Proof.
  intros [|p]; [done|]. cbn [uuid_String BinUuid.lib BinUuid.render_uuid].
  induction p as [p [IH1 IH2]|p [IH1 IH2]|]; [split; cbn [BinUuid.render contains_char]; by rewrite ?IH1, ?IH2..|done].
Qed.
(** A forwarder that lags, a duplicate, an event that comes late, and a ring
    that expires. *)
Definition example_ops : list redis_op :=
  [Call (CSubscribe Example.stream); Call (CPublish Example.stream (Example.event 1)); Call (CReceive 0); Pass 500; Forward 0;
   Call (CPublish Example.stream (Example.event 3)); Call (CPublish Example.stream (Example.event 3)); Call (CReceive 0);
   Call (CPublish Example.stream (Example.event 2)); Forward 0; Call (CRecent Example.stream 0); Pass 1000;
   Call (CRecent Example.stream 0); Forward 0; Call (CReceive 0)].
Definition example_bus : RedisBus := NewRedisBus "live:" 2 second.
Definition example_answers : list happening :=
  [Answered (CSubscribe Example.stream) (Ok (ASub 0)); Answered (CPublish Example.stream (Example.event 1)) (Ok (AFresh true));
   Elapsed 500; Answered (CPublish Example.stream (Example.event 3)) (Ok (AFresh true));
   Answered (CPublish Example.stream (Example.event 3)) (Ok (AFresh false));
   Answered (CReceive 0) (Ok (AEvent (Some (Some (Example.event 1)))));
   Answered (CPublish Example.stream (Example.event 2)) (Ok (AFresh true));
   Answered (CRecent Example.stream 0) (Ok (AFound [Example.event 2; Example.event 3] 2)); Elapsed 1000;
   Answered (CRecent Example.stream 0) (Ok (AFound [] 0)); Answered (CReceive 0) (Ok (AEvent (Some (Some (Example.event 3)))))].
Lemma example_happens : (redis_history example_ops example_bus).1 = example_answers.
Proof. vm_compute. reflexivity. Qed.
Lemma redis_refines_memory_witness : smooth example_ops example_bus ∧
  (replay 1000 example_answers (NewAging 2)).1 = example_answers.
Proof.
  assert (Hsm : smooth example_ops example_bus).
  2: { split; [exact Hsm|]. pose proof (redis_refines_memory "live:" 2 second example_ops) as H. revert H. fold example_bus.
    pose proof example_happens as E. destruct (redis_history example_ops example_bus) as [happened b]. cbn [fst] in E. subst happened.
    change (milliseconds second) with 1000. destruct (replay _ _ _) as [happened' a]. intros H. cbn [fst].
    apply H; [lia|lia|exact Hsm]. }
  assert (Hst : ∀ n, 0 ≤ n ≤ 3 → storable (Example.event n)).
  { intros n Hn. split; [unfold exact; cbn; lia|]. unfold event_ok. cbn [event_schema event_values Example.event].
    repeat apply Forall2_cons_2; [vm_compute; reflexivity..| |vm_compute; reflexivity| | |apply Forall2_nil_2].
    - unfold value_ok, spec_kind. cbn [Event_Sequence Example.event]. unfold_int64. lia.
    - assert (E : (0 <=? year 0) && (year 0 <=? 9999) = true) by (vm_compute; reflexivity).
      apply andb_true_iff in E as [E1%Z.leb_le E2%Z.leb_le]. exact (conj E1 E2).
    - by exists JNull. }
  assert (Hroom : ∀ stream b, bool_decide (map_Forall (λ _ s, (length (ch_buffer (sub_out s)) + length (sub_pending s) < subscriptionBuffer)%nat)
      (rb_subs b)) = true → ∀ i s, rb_subs b !! i = Some s → ch_stream (sub_out s) = stream → ch_closed (sub_out s) = false →
      (length (ch_buffer (sub_out s)) + length (sub_pending s) < subscriptionBuffer)%nat).
  { intros stream b Hb%bool_decide_eq_true_1 i s Hi _ _. exact (Hb i s Hi). }
  unfold example_ops. assert (Hcons : ∀ o ops b, smooth_op o b → smooth ops (redis_exec o b).2 → smooth (o :: ops) b) by done.
  repeat lazymatch goal with |- smooth (_ :: _) _ => apply Hcons; [cbn [smooth_op]|] end.
  all: first [exact I|split; [apply Hst; lia|apply Hroom; vm_compute; reflexivity]|unfold exact; cbn; lia|lia|idtac].
  all: intros s Hs; vm_compute in Hs; by injection Hs as <-.
Defined.
