(* ===== verification/Search.v ===== *)
(** * Scoped search keys (internal/search: scopedkey.go, http.go)

    The keys the company app searches with, derived from a search-only parent
    key: HMAC-SHA-256 over the embedded parameters, the base64 text, and the
    endpoint of the Admin API that issues them.  Everything is executable; the
    example of Typesense's documentation is evaluated. *)
From S2P Require Import Prelude Str GoTime Sha256 Json JsonText Base64 Codec Rbac.

(** ** HMAC-SHA-256 (crypto/hmac) *)
Definition block_size : nat := 64.
Definition hmac_key (key : list Z) : list Z :=
  let key := if (block_size <? length key)%nat then sum256_bytes key else key in
  key ++ replicate (block_size - length key) 0.
Definition hmac_sha256 (key msg : list Z) : list Z :=
  let key := hmac_key key in
  sum256_bytes (map (Z.lxor 92) key ++ sum256_bytes (map (Z.lxor 54) key ++ msg)).

(** ** Slices of byte strings *)
Fixpoint slice_to (n : nat) (s : string) : string :=
  match n, s with S n, String a s => String a (slice_to n s) | _, _ => EmptyString end.
Definition slice_from (n : nat) (s : string) : string := drop_bytes n s.

(** ** Keys *)
Record EmbeddedParams := mkParams { FilterBy : string; Params_ExpiresAt : Z }.
Definition params_schema : list spec := [mkSpec "filter_by" KString false; mkSpec "expires_at" KInt true].
Definition params_values (p : EmbeddedParams) : list value := [VString (FilterBy p); VInt (Params_ExpiresAt p)].
Definition unmarshal_params (body : string) : option EmbeddedParams :=
  vs ← decode params_schema (parse_json body) (zero_struct params_schema);
  match vs with [VString f; VInt e] => Some (mkParams f e) | _ => None end.

Definition prefixLen : nat := 4.
Definition digestLen : nat := 44.
Definition digest (parentKey body : string) : string :=
  encode_std (string_of_bytes (hmac_sha256 (bytes_of parentKey) (bytes_of body))).

Definition GenerateScopedKey (parentKey : string) (params : EmbeddedParams) : result string :=
  if (String.length parentKey <? prefixLen)%nat then Err (Plain "search: parent key is too short")
  else if bool_decide (FilterBy params = ""%string) then Err (Plain "search: a scoped key must embed a filter")
  else
    j ← wrap_err "search: encode embedded params" (marshal params_schema (params_values params));
    let body := render j in
    Ok (encode_std (digest parentKey body +:+ (slice_to prefixLen parentKey +:+ body))).

Definition VerifyScopedKey (parentKey key : string) : result EmbeddedParams :=
  match decode_std key with
  | None => Err (Plain "search: key is not base64")
  | Some raw =>
      if (String.length raw <? digestLen + prefixLen)%nat || (String.length parentKey <? prefixLen)%nat
      then Err (Plain "search: key is too short")
      else
        let sum := slice_to digestLen raw in
        let prefix := slice_to prefixLen (slice_from digestLen raw) in
        let body := slice_from (digestLen + prefixLen) raw in
        if negb (bool_decide (prefix = slice_to prefixLen parentKey)) || negb (bool_decide (sum = digest parentKey body))
        then Err (Plain "search: key was not derived from this parent key")
        else match unmarshal_params body with
             | Some params => Ok params
             | None => Err (Wrap "search: embedded params" (Plain "json"))
             end
  end.

(** ** Issuing (http.go) *)
Record Config := mkConfig { ParentKey : string; Host : string; Collections : list string; TTL : duration }.
Definition maxTTL : duration := hour.
Definition NewIssuer (cfg : Config) : Config :=
  if (TTL cfg <=? 0) || (maxTTL <? TTL cfg) then mkConfig (ParentKey cfg) (Host cfg) (Collections cfg) maxTTL else cfg.

Record IssuedKey := mkIssuedKey {
  Key : string;
  Key_FilterBy : string;
  Key_ExpiresAt : time;
  Key_Host : string;
  Key_Collections : list string;
}.
Inductive issue_response := Issued (key : IssuedKey) | IssueFailed (e : ErrorBody).

(** [t.Truncate(time.Second)] and [t.Unix()]. *)
Definition truncate_second (t : time) : time := t / second * second.
Definition unix (t : time) : Z := t / second.

Section Issuing.
Context `{uuids : UuidLib}.
Definition CompanyFilter (companyID : UUID) : string := "company_id:=" +:+ uuid_String companyID.

(** [issue]; [cfg] is the issuer's, from [NewIssuer]. *)
Definition issue (cfg : Config) (now : time) (p : Principal) : issue_response :=
  if bool_decide (ParentKey cfg = ""%string) then IssueFailed (mkErrorBody 503 "search_unconfigured")
  else
    let expires := truncate_second (now + TTL cfg) in
    let filter := CompanyFilter (Principal_CompanyID p) in
    match GenerateScopedKey (ParentKey cfg) (mkParams filter (unix expires)) with
    | Err _ => IssueFailed (mkErrorBody 503 "search_unavailable")
    | Ok key => Issued (mkIssuedKey key filter expires (Host cfg) (Collections cfg))
    end.

(** [Mount]: behind the Admin API's authentication; the company is the
    principal's. *)
Definition search_route (resolver : Resolver) (cfg : Config) (now : time) : Request → issue_response :=
  Middleware IssueFailed (Resolve resolver)
    (Require IssueFailed PermSearch (λ ctx _, match ctx with
       | Some p => issue (NewIssuer cfg) now p
       | None => IssueFailed (mkErrorBody 401 "unauthorized") end)).
End Issuing.

(** The example of Typesense's scoped-key documentation. *)
Example typesense_example :
  GenerateScopedKey "RN23GFr1s6jQ9kgSNg2O7fYcAUXU7127" (mkParams "company_id:124" 1906054106) =
  Ok "OW9DYWZGS1Q1RGdSbmo0S1QrOWxhbk9PL2kxbTU1eXA3bCthdmE5eXJKRT1STjIzeyJmaWx0ZXJfYnkiOiJjb21wYW55X2lkOjEyNCIsImV4cGlyZXNfYXQiOjE5MDYwNTQxMDZ9"%string.
Proof. vm_compute. reflexivity. Qed.

(** ** Lemmas *)
Lemma length_slice_to n s : (n ≤ String.length s)%nat → String.length (slice_to n s) = n.
Proof. revert s. induction n as [|n IH]; intros [|a s] H; cbn in *; try lia. by rewrite IH by lia. Qed.
Lemma slices n s : slice_to n s +:+ slice_from n s = s.
Proof. unfold slice_from. revert s. induction n as [|n IH]; intros [|a s]; cbn; try done. by rewrite IH. Qed.
Lemma slice_to_app s t n : String.length s = n → slice_to n (s +:+ t) = s.
Proof. intros <-. induction s as [|a s IH]; cbn; [by destruct t|]. by rewrite IH. Qed.
Lemma slice_from_app s t n : String.length s = n → slice_from n (s +:+ t) = t.
Proof. unfold slice_from. intros <-. induction s as [|a s IH]; cbn; [done|]. exact IH. Qed.
Lemma slice_from_from n m s : slice_from (n + m) s = slice_from m (slice_from n s).
Proof. unfold slice_from. revert s. induction n as [|n IH]; intros [|a s]; cbn; [done..|by destruct m|apply IH]. Qed.

Lemma length_encode_std s : Z.of_nat (String.length (encode_std s)) = 4 * ((Z.of_nat (String.length s) + 2) / 3).
Proof.
  induction s as [s IH] using string_len_ind. destruct s as [|a [|b [|c s]]]; [done..|].
  cbn [encode_std String.length]. rewrite !Nat2Z.inj_succ, IH by (cbn; lia).
  replace (Z.succ (Z.succ (Z.succ (Z.of_nat (String.length s)))) + 2) with (Z.of_nat (String.length s) + 2 + 1 * 3) by lia.
  rewrite Z.div_add by lia. lia.
Qed.
Lemma length_digest parentKey body : String.length (digest parentKey body) = digestLen.
Proof.
  unfold digest, hmac_sha256. apply Nat2Z.inj. rewrite length_encode_std, length_string_of_bytes, length_sum256_bytes. reflexivity.
Qed.

(** Parameters JSON can carry. *)
Definition params_ok (p : EmbeddedParams) : Prop := valid_utf8 (FilterBy p) = true ∧ in_int64 (Params_ExpiresAt p).

Lemma params_text p : params_ok p → ∃ j, marshal params_schema (params_values p) = Ok j ∧ unmarshal_params (render j) = Some p.
Proof.
  intros [Hf He]. destruct (decode_marshal params_schema (params_values p)) as (j & Hj & Hd).
  { apply (bool_decide_eq_true_1 _). vm_compute. reflexivity. }
  { apply Forall2_cons_2; [cbn; by apply bool_decide_eq_true in Hf|]. apply Forall2_cons_2; [exact He|apply Forall2_nil_2]. }
  exists j. split; [exact Hj|]. unfold unmarshal_params.
  assert (Hw : wf maxNestingDepth j = true).
  { assert (Hutf : valid_utf8 (coerce_utf8 (FilterBy p)) = true) by (apply bool_decide_eq_true in Hf; rewrite Hf; by apply bool_decide_eq_true).
    unfold marshal in Hj. cbn in Hj. destruct (Params_ExpiresAt p =? 0); cbn in Hj; injection Hj as <-; cbn -[valid_utf8 render_int lex_number];
      rewrite Hutf, ?(bool_decide_eq_true_2 _ (lex_render_int (Params_ExpiresAt p))); done. }
  destruct (parse_json_render j "" Hw eq_refl) as [Hp _].
  assert (Happ : ∀ s : string, (s +:+ "") = s) by (intros s; induction s; cbn; congruence). rewrite Happ in Hp.
  rewrite Hp, Hd. by destruct p.
Qed.

(** What [VerifyScopedKey] accepts: the text of parameters behind their own
    HMAC under the parent key. *)
Lemma Verify_spec parentKey key params : VerifyScopedKey parentKey key = Ok params ↔
  ∃ body, decode_std key = Some (digest parentKey body +:+ (slice_to prefixLen parentKey +:+ body)) ∧
    (prefixLen ≤ String.length parentKey)%nat ∧ unmarshal_params body = Some params.
Proof.
  unfold VerifyScopedKey. split.
  - destruct (decode_std key) as [raw|]; [|done]. destruct (_ || _) eqn:El; [done|]. apply orb_false_iff in El as [El1%Nat.ltb_ge El2%Nat.ltb_ge].
    destruct (negb _ || negb _) eqn:Ec; [done|]. apply orb_false_iff in Ec as [Ep Es]. bool_prop.
    destruct (unmarshal_params _) as [p|] eqn:Eu; [|done]. intros [= <-]. eexists. split_and!; [|done|exact Eu].
    rewrite <-Es, <-Ep, slice_from_from, slices, slices. done.
  - intros (body & -> & Hl & Hu). rewrite !length_append, length_digest, length_slice_to by done.
    rewrite (proj2 (Nat.ltb_ge _ _)), (proj2 (Nat.ltb_ge _ _)) by lia. cbn [orb].
    rewrite (slice_to_app (digest parentKey body)) by apply length_digest.
    rewrite slice_from_from, (slice_from_app (digest parentKey body)) by apply length_digest.
    rewrite (slice_to_app (slice_to _ _)), (slice_from_app (slice_to _ _)) by by apply length_slice_to.
    rewrite !bool_decide_eq_true_2 by done. by rewrite Hu.
Qed.

Lemma Generate_verifies parentKey params key : params_ok params → GenerateScopedKey parentKey params = Ok key →
  VerifyScopedKey parentKey key = Ok params.
Proof.
  intros Hok H. unfold GenerateScopedKey in H. destruct (_ <? _)%nat eqn:El; [done|]. apply Nat.ltb_ge in El.
  case_bool_decide; [done|]. destruct (params_text params Hok) as (j & Hj & Hu). rewrite Hj in H. cbn in H. injection H as <-.
  apply Verify_spec. exists (render j). by rewrite decode_encode_std.
Qed.

Section Confined.
Context `{uuids : UuidLib}.
(** Rendered uuids are ASCII. *)
Hypothesis uuid_text : ∀ u, valid_utf8 (uuid_String u) = true.

Lemma filter_valid company : valid_utf8 (CompanyFilter company) = true.
Proof.
  apply utf8_valid. unfold CompanyFilter. pose proof (valid_utf8_runes _ (uuid_text company)) as H.
  assert (Hr : ∀ a s, byte_of a < 128 → utf8 s → utf8 (String a s)).
  { intros a s Ha Hs. apply (utf8_rune (String a "") s); [cbn; by apply Z.ltb_lt|done]. }
  cbn. do 12 (apply Hr; [vm_compute; reflexivity|]). exact H.
Qed.
Lemma CompanyFilter_inj a b : CompanyFilter a = CompanyFilter b → a = b.
Proof. unfold CompanyFilter. cbn. intros [= E]. by apply uuid_String_inj. Qed.

(** C38: a search key is issued only to an active member session with the search
    permission, embeds exactly the filter of the session's company and an expiry
    of at most an hour, and verifies under the parent key to those parameters; a
    key that verifies with another filter or expiry carries the HMAC of another
    text under the parent key. *)
Theorem issued_key_confined resolver cfg now req k : in_int64 (now / second + 3600) → 0 ≤ now →
  search_route resolver cfg now req = Issued k →
  ∃ p, Resolve resolver req = Ok p ∧ Principal_Can p PermSearch = true ∧
    Key_FilterBy k = CompanyFilter (Principal_CompanyID p) ∧ Key_ExpiresAt k ≤ now + maxTTL ∧
    (second ≤ TTL cfg → now < Key_ExpiresAt k) ∧
    VerifyScopedKey (ParentKey cfg) (Key k) = Ok (mkParams (CompanyFilter (Principal_CompanyID p)) (unix (Key_ExpiresAt k))) ∧
    ∀ other params, VerifyScopedKey (ParentKey cfg) other = Ok params →
      params = mkParams (CompanyFilter (Principal_CompanyID p)) (unix (Key_ExpiresAt k)) ∨
      ∃ mine body, decode_std (Key k) = Some (digest (ParentKey cfg) mine +:+ (slice_to prefixLen (ParentKey cfg) +:+ mine)) ∧
        decode_std other = Some (digest (ParentKey cfg) body +:+ (slice_to prefixLen (ParentKey cfg) +:+ body)) ∧ body ≠ mine.
Proof.
  intros Hnow Hpos H. unfold search_route, Middleware in H. destruct (Resolve resolver req) as [p|e]; [|by destruct (errors_is e ErrUnauthenticated)].
  unfold Require in H. destruct (Principal_Can p PermSearch) eqn:Hp; [|done]. cbn [negb] in H. exists p.
  assert (Hc : ParentKey (NewIssuer cfg) = ParentKey cfg ∧ 0 < TTL (NewIssuer cfg) ≤ maxTTL ∧ (0 < second ≤ TTL cfg → second ≤ TTL (NewIssuer cfg))).
  { unfold NewIssuer, maxTTL, hour, minute, second. destruct (_ || _) eqn:E; cbn; [split_and!; [done|lia..]|].
    apply orb_false_iff in E as [E1 E2]. bool_prop. split_and!; [done|lia..]. }
  destruct Hc as (Hk & Httl & Hsec). unfold issue in H. case_bool_decide; [done|].
  set (expires := truncate_second (now + TTL (NewIssuer cfg))) in *.
  assert (Hexp : now + TTL (NewIssuer cfg) - second < expires ≤ now + TTL (NewIssuer cfg)).
  { unfold expires, truncate_second. pose proof (Z.mul_div_le (now + TTL (NewIssuer cfg)) second eq_refl).
    pose proof (Z.mul_succ_div_gt (now + TTL (NewIssuer cfg)) second eq_refl). lia. }
  destruct (GenerateScopedKey _ _) as [key|] eqn:Eg; [|done]. injection H as <-. rewrite Hk in Eg. cbn.
  assert (Hv : VerifyScopedKey (ParentKey cfg) key = Ok (mkParams (CompanyFilter (Principal_CompanyID p)) (unix expires))).
  { eapply Generate_verifies; [|exact Eg]. split; [apply filter_valid|]. cbn. unfold unix.
    assert (0 ≤ expires / second ≤ now / second + 3600); [|unfold_int64; lia].
    assert (0 ≤ expires) by (unfold expires, truncate_second; apply Z.mul_nonneg_nonneg; [apply Z.div_pos; [lia|done]|done]).
    split; [by apply Z.div_pos|].
    transitivity ((now + 3600 * second) / second); [apply Z.div_le_mono; [done|clearbody expires; unfold maxTTL, hour, minute, second in *; lia]|].
    rewrite Z.div_add by done. lia. }
  split_and!; [done|done|done|lia|intros Hs; specialize (Hsec (conj eq_refl Hs)); lia|exact Hv|].
  intros other params Ho. apply Verify_spec in Ho as (body & Ho & _ & Hu). pose proof Hv as Hm. apply Verify_spec in Hm as (mine & Hm & _ & Hmu).
  destruct (decide (body = mine)) as [->|Hne]; [left; rewrite Hu in Hmu; by injection Hmu|right]. exists mine, body. auto.
Qed.
End Confined.

(** *** An issued key *)
Module Example.
#[local] Instance lib : UuidLib := BinUuid.lib.
Definition session : Domain.Session := Domain.mkSession 9%N 1%N (Some 3%N) None Domain.SessionStateActive "" 100000000000 None 0 None.
Definition member : Resolver := mkResolver (λ _, Ok session) (λ _ _, Ok RoleViewer) 5000000000.
Definition cfg : Config := mkConfig "parent-key" "http://localhost:8108" ["session_events"%string] (2 * hour).
Definition route : issue_response := search_route member cfg 5000000001 (mkRequest "Bearer token").
End Example.
Lemma issued_key_confined_witness :
  ∃ k, Example.route = Issued k ∧ Key_FilterBy k = "company_id:=h"%string ∧
    VerifyScopedKey "parent-key" (Key k) = Ok (mkParams "company_id:=h" 3605).
Proof.
  assert (Hut : ∀ u, valid_utf8 (@uuid_String BinUuid.lib u) = true).
  { intros [|p]; [vm_compute; reflexivity|]. apply utf8_valid. cbn [uuid_String BinUuid.lib BinUuid.render_uuid].
    assert (Hr : ∀ a s, byte_of a < 128 → utf8 s → utf8 (String a s)).
    { intros a s Ha Hs. apply (utf8_rune (String a "") s); [cbn; by apply Z.ltb_lt|done]. }
    induction p as [p IH|p IH|]; cbn [BinUuid.render]; apply Hr; try exact IH; try constructor; vm_compute; reflexivity. }
  assert (E : ∃ k, Example.route = Issued k) by (eexists; vm_compute; reflexivity). destruct E as [k E]. exists k. split; [exact E|].
  destruct (@issued_key_confined BinUuid.lib Hut Example.member Example.cfg 5000000001 (mkRequest "Bearer token") k) as (p & Hp & _ & Hf & _ & _ & Hv & _);
    [vm_compute; split; discriminate|lia|exact E|].
  assert (Ep : Resolve Example.member (mkRequest "Bearer token") = Ok (mkPrincipal 1%N 3%N RoleViewer)) by (vm_compute; reflexivity).
  rewrite Ep in Hp. injection Hp as <-. split; [exact Hf|].
  assert (Ee : Key_ExpiresAt k = 3605000000000).
  { assert (Ek : match Example.route with Issued k => Key_ExpiresAt k | _ => 0 end = 3605000000000) by (vm_compute; reflexivity).
    rewrite E in Ek. exact Ek. }
  rewrite Ee in Hv. exact Hv.
Defined.
