(* ===== verification/Indexer.v ===== *)
(** * The search index (internal/eventindexer, internal/store/typesense)

    The Typesense client over any HTTP round trip - what it asks and what it
    makes of every answer - and the Event Indexer: which events have a document,
    the batches of [Run] with every failure of Kafka and of the node, and the
    collection they build.  A document the node refuses is reported and its
    message committed. *)
From S2P Require Import Prelude Str GoTime Json JsonText Rfc3339 Codec Events Tx EventLog.

(** ** Escaping (net/url) *)
Definition hex_upper (z : Z) : ascii := ascii_of_nat (Z.to_nat (if z <? 10 then 48 + z else 55 + z)).
Definition unreserved (a : ascii) : bool :=
  in_range 48 57 a || in_range 65 90 a || in_range 97 122 a || (byte_of a =? 45) || (byte_of a =? 46) || (byte_of a =? 95) || (byte_of a =? 126).
Definition percent (a : ascii) (rest : string) : string :=
  String "%" (String (hex_upper (byte_of a / 16)) (String (hex_upper (byte_of a mod 16)) rest)).
Fixpoint PathEscape (s : string) : string :=
  match s with
  | EmptyString => EmptyString
  | String a s =>
      if unreserved a || existsb (λ z, byte_of a =? z) [36; 38; 43; 58; 61; 64] then String a (PathEscape s)
      else percent a (PathEscape s)
  end.
Fixpoint QueryEscape (s : string) : string :=
  match s with
  | EmptyString => EmptyString
  | String a s => if unreserved a then String a (QueryEscape s)
                  else if byte_of a =? 32 then String "+" (QueryEscape s) else percent a (QueryEscape s)
  end.

(** ** The Typesense client (typesense.go) *)
Record HttpRequest := mkHttpRequest { method : string; path : string; request_body : option string; content_type : string }.
Record HttpResponse := mkHttpResponse { status : Z; response_body : string }.

Record Field := mkField { Field_Name : string; Field_Type : string; Facet : bool; Optional : bool }.
Record Schema := mkSchema { Schema_Name : string; Fields : list Field; DefaultSortingField : string }.
Definition field_json (f : Field) : json := JObject (
  [("name"%string, encode_string (Field_Name f)); ("type"%string, encode_string (Field_Type f))] ++
  (if Facet f then [("facet"%string, JBool true)] else []) ++ (if Optional f then [("optional"%string, JBool true)] else [])).
Definition schema_json (s : Schema) : json := JObject (
  [("name"%string, encode_string (Schema_Name s)); ("fields"%string, JArray (map field_json (Fields s)))] ++
  (if bool_decide (DefaultSortingField s = ""%string) then [] else [("default_sorting_field"%string, encode_string (DefaultSortingField s))])).

(** [*APIError]: its status and message. *)
Definition APIError (status : Z) (message : string) : error := Typed "APIError" (render_int status) (Plain message).
Definition IsNotFound (err : error) : bool := bool_decide (errors_as "APIError" err = Some "404"%string).

(** A string field of a JSON object, as [json.Unmarshal] into a struct with
    that one field. *)
Definition one_field (sp : spec) (text : string) : option value :=
  vs ← decode [sp] (parse_json text) (zero_struct [sp]); head vs.
Definition failure_message (body : string) : string :=
  match one_field (mkSpec "message" KString false) body with
  | Some (VString m) => if bool_decide (m = ""%string) then TrimSpace body else m
  | _ => TrimSpace body
  end.

Record ImportFailure := mkImportFailure { Index : nat; Failure_Error : string }.
(** What [Upsert] returns. *)
Inductive upserted := Written | ImportError (failures : list ImportFailure) | UpsertFailed (e : error).

Definition import_result (line : string) : option (bool * string) :=
  vs ← decode [mkSpec "success" KBool false; mkSpec "error" KString false] (parse_json line) [VBool false; VString ""];
  match vs with [VBool b; VString e] => Some (b, e) | _ => None end.
Fixpoint import_failures (i : nat) (lines : list string) : result (list ImportFailure) :=
  match lines with
  | [] => Ok []
  | line :: lines =>
      match import_result line with
      | None => Err (Wrap ("typesense: decode import result " +:+ render_int (Z.of_nat i)) (Plain "json"))
      | Some (success, e) =>
          failures ← import_failures (S i) lines;
          Ok (if success : bool then failures else mkImportFailure i e :: failures)
      end
  end.
Definition parseImportResults (raw : string) (want : nat) : upserted :=
  let lines := split LF (TrimSpace raw) in
  if negb (length lines =? want)%nat
  then UpsertFailed (Plain ("typesense: import returned " +:+ render_int (Z.of_nat (length lines)) +:+ " results"))
  else match import_failures 0 lines with
       | Err e => UpsertFailed e
       | Ok [] => Written
       | Ok failures => ImportError failures
       end.

Record SearchParams := mkSearchParams { Query : string; QueryBy : string; SearchParams_FilterBy : string; PerPage : Z }.
Record SearchResult := mkSearchResult { Found : Z; Hits : list RawMessage }.

Section Client.
(** [c.http.Do] with the node's answer read to its end. *)
Variable round_trip : HttpRequest → result HttpResponse.

Definition do (r : HttpRequest) : result string :=
  match round_trip r with
  | Err e => Err (Wrap ("typesense: " +:+ method r +:+ " " +:+ (cut "?" (path r)).1.1) e)
  | Ok response =>
      if (status response <? 200) || (299 <? status response)
      then Err (APIError (status response) (failure_message (response_body response)))
      else Ok (response_body response)
  end.
(** [do] with a struct of one field to decode into. *)
Definition do_field (r : HttpRequest) (sp : spec) : result value :=
  body ← do r;
  match one_field sp body with
  | Some v => Ok v
  | None => Err (Wrap "typesense: decode response" (Plain "json"))
  end.

Definition Health : result () :=
  v ← do_field (mkHttpRequest "GET" "/health" None "") (mkSpec "ok" KBool false);
  match v with VBool true => Ok () | _ => Err (Plain "typesense: node not healthy") end.

Definition EnsureCollection (schema : Schema) : result () :=
  match do (mkHttpRequest "POST" "/collections" (Some (render (schema_json schema))) "application/json") with
  | Err e => if bool_decide (errors_as "APIError" e = Some "409"%string) then Ok () else Err e
  | Ok _ => Ok ()
  end.

Definition DeleteCollection (name : string) : result () :=
  match do (mkHttpRequest "DELETE" ("/collections/" +:+ PathEscape name) None "") with
  | Err e => if IsNotFound e then Ok () else Err e
  | Ok _ => Ok ()
  end.

(** [json.NewEncoder(&body).Encode] of each document. *)
Definition import_body (documents : list json) : string := foldr (λ d body, render d +:+ String LF body) ""%string documents.
Definition Upsert (collection : string) (documents : list json) : upserted :=
  match documents with
  | [] => Written
  | _ =>
      match do (mkHttpRequest "POST" ("/collections/" +:+ PathEscape collection +:+ "/documents/import?action=upsert")
                  (Some (import_body documents)) "text/plain") with
      | Err e => UpsertFailed e
      | Ok raw => parseImportResults raw (length documents)
      end
  end.

Definition DeleteByFilter (collection filter : string) : result Z :=
  if bool_decide (TrimSpace filter = ""%string) then Err (Plain "typesense: refusing to delete with an empty filter")
  else
    match do_field (mkHttpRequest "DELETE" ("/collections/" +:+ PathEscape collection +:+ "/documents?filter_by=" +:+ QueryEscape filter) None "")
                   (mkSpec "num_deleted" KInt false) with
    | Ok (VInt n) => Ok n
    | Ok _ => Ok 0
    | Err e => if IsNotFound e then Ok 0 else Err e
    end.

Definition query_pair (kv : string * string) : string := QueryEscape kv.1 +:+ "=" +:+ QueryEscape kv.2.
Definition search_path (collection : string) (p : SearchParams) : string :=
  "/collections/" +:+ PathEscape collection +:+ "/documents/search?" +:+
  join "&" (map query_pair (
    (if bool_decide (SearchParams_FilterBy p = ""%string) then [] else [("filter_by"%string, SearchParams_FilterBy p)]) ++
    (if 0 <? PerPage p then [("per_page"%string, render_int (PerPage p))] else []) ++
    [("q"%string, Query p); ("query_by"%string, QueryBy p)])).

Fixpoint hit_documents (hits : list json) : option (list RawMessage) :=
  match hits with
  | [] => Some []
  | hit :: hits =>
      vs ← decode [mkSpec "document" KRaw false] (Some hit) [VRaw None];
      rest ← hit_documents hits;
      match vs with [VRaw d] => Some (d :: rest) | _ => None end
  end.
Definition search_body (text : string) : option SearchResult :=
  vs ← decode [mkSpec "found" KInt false; mkSpec "hits" KRaw false] (parse_json text) [VInt 0; VRaw None];
  match vs with
  | [VInt found; VRaw (None | Some JNull)] => Some (mkSearchResult found [])
  | [VInt found; VRaw (Some (JArray hits))] => mkSearchResult found <$> hit_documents hits
  | _ => None
  end.
Definition Search (collection : string) (params : SearchParams) : result SearchResult :=
  raw ← do (mkHttpRequest "GET" (search_path collection params) None "");
  match search_body raw with
  | Some r => Ok r
  | None => Err (Wrap "typesense: decode response" (Plain "json"))
  end.
End Client.

(** ** Documents (indexer.go) *)
Definition Collection : string := "session_events".
Definition index_schema : Schema := mkSchema Collection [
  mkField "company_id" "string" true false; mkField "interview_id" "string" true false; mkField "session_id" "string" true false;
  mkField "event_type" "string" true false; mkField "sequence_number" "int64" false false; mkField "occurred_at" "int64" false false;
  mkField "text" "string" false false; mkField "prompt_id" "string" false true; mkField "path" "string" false true;
  mkField "origin" "string" true true] "occurred_at".

Record Document := mkDocument {
  ID : string;
  Document_CompanyID : string;
  Document_InterviewID : string;
  Document_SessionID : string;
  Document_EventType : string;
  Document_SequenceNumber : Z;
  Document_OccurredAt : Z;
  Text : string;
  Document_PromptID : string;
  Document_Path : string;
  Document_Origin : string;
}.
Definition document_schema : list spec := [
  mkSpec "id" KString false; mkSpec "company_id" KString false; mkSpec "interview_id" KString false; mkSpec "session_id" KString false;
  mkSpec "event_type" KString false; mkSpec "sequence_number" KInt false; mkSpec "occurred_at" KInt false; mkSpec "text" KString false;
  mkSpec "prompt_id" KString true; mkSpec "path" KString true; mkSpec "origin" KString true].
Definition document_values (d : Document) : list value := [
  VString (ID d); VString (Document_CompanyID d); VString (Document_InterviewID d); VString (Document_SessionID d);
  VString (Document_EventType d); VInt (Document_SequenceNumber d); VInt (Document_OccurredAt d); VString (Text d);
  VString (Document_PromptID d); VString (Document_Path d); VString (Document_Origin d)].
Definition document_json (d : Document) : result json := marshal document_schema (document_values d).

(** The text of an event, if its type has one: session, interview, prompt,
    text, path and origin. *)
Definition searchable (e : Envelope) : result (option (string * string * string * string * string * string)) :=
  if bool_decide (Envelope_EventType e = EventTypePromptSubmitted) then
    p ← Events.Decode (P := PromptSubmitted) e;
    Ok (Some (PromptSubmitted_SessionID p, PromptSubmitted_InterviewID p, PromptSubmitted_PromptID p, PromptSubmitted_Prompt p, ""%string, ""%string))
  else if bool_decide (Envelope_EventType e = EventTypeAIResponseCompleted) then
    p ← Events.Decode (P := AIResponseCompleted) e;
    Ok (Some (AIResponseCompleted_SessionID p, AIResponseCompleted_InterviewID p, AIResponseCompleted_PromptID p, AIResponseCompleted_ResponseText p, ""%string, ""%string))
  else if bool_decide (Envelope_EventType e = EventTypeCodeDiff) then
    p ← Events.Decode (P := CodeDiff) e;
    Ok (Some (CodeDiff_SessionID p, CodeDiff_InterviewID p, CodeDiff_PromptID p, CodeDiff_Patch p, CodeDiff_Path p, CodeDiff_Origin p))
  else Ok None.

(** [None] is an event without searchable text. *)
Definition Decode (value : RawMessage) : result (option Document) :=
  match unmarshal_envelope value with
  | None => Err (Wrap "envelope" (Plain "json"))
  | Some e =>
      if bool_decide (EventID e = ""%string) || bool_decide (Envelope_CompanyID e = ""%string) ||
         bool_decide (Envelope_EventType e = ""%string) || is_zero (OccurredAt e)
      then Err (Plain "invalid event envelope")
      else
        found ← searchable e;
        match found with
        | None => Ok None
        | Some (session, interview, prompt, text, path, origin) =>
            if bool_decide (interview = ""%string) then Err (Plain "payload.interview_id is required")
            else if bool_decide (text = ""%string) then Ok None
            else Ok (Some (mkDocument (EventID e) (Envelope_CompanyID e) interview session (Envelope_EventType e)
                   (SequenceNumber e) (unix_milli (OccurredAt e)) text prompt path origin))
        end
  end.

(** ** The node's side of an import

    [verdict] is the node's check of a document against the schema.  The node
    answers a line per document, in order, and keeps the documents it accepts
    under their ids. *)
Definition collection_of := gmap string Document.
Section Index.
Variable verdict : Document → option string.

Definition put_document (c : collection_of) (d : Document) : collection_of :=
  match verdict d with None => <[ID d := d]> c | Some _ => c end.
Definition import (documents : list Document) (c : collection_of) : collection_of := foldl put_document c documents.
Definition verdict_line (d : Document) : string :=
  render (JObject (match verdict d with
    | None => [("success"%string, JBool true)]
    | Some e => [("error"%string, encode_string e); ("success"%string, JBool false)]
    end)).

(** The consumer group's view of the topic, and the collection. *)
Record IndexWorld := mkIndexWorld { group : LogWorld; collection : collection_of }.

(** [Upsert] of documents at the node: the request may fail before anything,
    after any part or after all of the documents were written. *)
Definition upsert (documents : list Document) : script → collection_of → upserted * script * collection_of := λ fs c,
  match documents with
  | [] => (Written, fs, c)
  | _ =>
      let answered := parseImportResults (join LF (map verdict_line documents)) (length documents) in
      match fs with
      | [] => (answered, [], import documents c)
      | Done :: fs => (answered, fs, import documents c)
      | Fault e :: fs => (UpsertFailed e, fs, c)
      | AckLost e :: fs => (UpsertFailed e, fs, import documents c)
      | Partial kept e :: fs => (UpsertFailed e, fs, import (select kept documents) c)
      end
  end.

(** ** The indexer *)
Record Config := mkConfig { BatchSize : Z; BatchWait : duration; OnInvalid : bool }.
Definition New (config : Config) : result () :=
  if (BatchSize config <=? 0) || (BatchWait config <=? 0) then Err (Plain "event-indexer: batch size and wait must be positive") else Ok ().

Definition invalid (config : Config) (m : Message) (e : error) (w : LogWorld) : LogWorld :=
  if OnInvalid config then report_invalid m e w else w.

(** The documents of a batch with the messages they come from. *)
Fixpoint decode_messages (config : Config) (messages : list Message) (w : LogWorld) : list (Document * Message) * LogWorld :=
  match messages with
  | [] => ([], w)
  | m :: messages =>
      match Decode (Value m) with
      | Err e => decode_messages config messages (invalid config m e w)
      | Ok found =>
          let '(ds, w) := decode_messages config messages w in
          (match found with Some d => (d, m) :: ds | None => ds end, w)
      end
  end.
Definition report_failures (config : Config) (sources : list Message) (failures : list ImportFailure) (w : LogWorld) : LogWorld :=
  foldl (λ w f, match sources !! Index f with
                | Some m => invalid config m (Plain ("typesense rejected document: " +:+ Failure_Error f)) w
                | None => w end) w failures.

Definition index (config : Config) (messages : list Message) : M IndexWorld () := λ fs w,
  let '(ds, g) := decode_messages config messages (group w) in
  let '(r, fs, c) := upsert (map fst ds) fs (collection w) in
  match r with
  | Written => (Ok (), fs, mkIndexWorld g c)
  | ImportError failures => (Ok (), fs, mkIndexWorld (report_failures config (map snd ds) failures g) c)
  | UpsertFailed e => (Err (Wrap "event-indexer: upsert batch" e), fs, mkIndexWorld g c)
  end.

Record index_turn := mkIndexTurn { index_deliveries : list delivery; index_ctx_err : option error; index_faults : script }.

(** The loop of [fetchBatch]; [room] is how many more messages the batch
    takes, a fetch that waits is stopped by the batch's time. *)
Fixpoint fill_messages (room : nat) (ctx_err : option error) (ds : list delivery) (messages : list Message) (w : LogWorld)
    : result (list Message) * LogWorld :=
  match room with
  | O => (Ok messages, w)
  | S room =>
      match FetchMessage ds w with
      | (None, _, w) => (Ok messages, w)
      | (Some (Ok m), ds, w) => fill_messages room ctx_err ds (messages ++ [m]) w
      | (Some (Err e), _, w) =>
          (match ctx_err with
           | Some c => Err c
           | None => if errors_is e context_DeadlineExceeded then Ok messages else Err (Wrap "event-indexer: fill batch" e)
           end, w)
      end
  end.
(** [None] is a fetch that still waits. *)
Definition fetchBatch (config : Config) (t : index_turn) (w : LogWorld) : option (result (list Message)) * LogWorld :=
  match FetchMessage (index_deliveries t) w with
  | (None, _, w) => (None, w)
  | (Some (Err e), _, w) =>
      (Some (Err (match index_ctx_err t with Some c => c | None => Wrap "event-indexer: fetch event" e end)), w)
  | (Some (Ok first), ds, w) =>
      let '(r, w) := fill_messages (Z.to_nat (BatchSize config - 1)) (index_ctx_err t) ds [first] w in (Some r, w)
  end.

(** One iteration of [Run]; the error is what [Run] returns. *)
Definition index_one (config : Config) (t : index_turn) (w : IndexWorld) : option error * IndexWorld :=
  match fetchBatch config t (group w) with
  | (None, g) => (None, mkIndexWorld g (collection w))
  | (Some (Err e), g) => (Some e, mkIndexWorld g (collection w))
  | (Some (Ok messages), g) =>
      match index config messages (index_faults t) (mkIndexWorld g (collection w)) with
      | (Err e, _, w) => (Some e, w)
      | (Ok _, fs, w) =>
          let '(r, _, g) := batch commit_offsets messages fs (group w) in
          (match r with Err e => Some (Wrap "event-indexer: commit offsets" e) | Ok _ => None end, mkIndexWorld g (collection w))
      end
  end.
Fixpoint Run (config : Config) (turns : list index_turn) (w : IndexWorld) : option error * IndexWorld :=
  match turns with
  | [] => (None, w)
  | t :: turns =>
      match index_one config t w with
      | (Some e, w) => (Some e, w)
      | (None, w) => Run config turns w
      end
  end.

(** ** Histories *)
Inductive index_op :=
  | Produced (p : Z) (value : RawMessage)
  (* the Housekeeper deletes an interview's documents *)
  | Purged (company interview : string)
  | IndexProcess (config : Config) (turns : list index_turn).
Definition of_interview (company interview : string) (d : Document) : bool :=
  bool_decide (Document_CompanyID d = company) && bool_decide (Document_InterviewID d = interview).
Definition index_exec (o : index_op) (w : IndexWorld) : IndexWorld :=
  match o with
  | Produced p v =>
      let g := group w in
      mkIndexWorld (mkLogWorld (<[p := partition g p ++ [v]]> (topic g)) (committed g) (position g) (events_table g) (reported g)) (collection w)
  | Purged company interview =>
      mkIndexWorld (group w) (filter (λ kd, of_interview company interview kd.2 = false) (collection w))
  | IndexProcess config turns => (Run config turns (mkIndexWorld (set_position (λ _, committed (group w)) (group w)) (collection w))).2
  end.
Definition index_history (ops : list index_op) (w : IndexWorld) : IndexWorld := foldl (λ w o, index_exec o w) w ops.
End Index.

(** ** The answer to an import *)
Section Answers.
Variable verdict : Document → option string.

(** The documents the node refuses, by their place. *)
Fixpoint refused (i : nat) (documents : list Document) : list ImportFailure :=
  match documents with
  | [] => []
  | d :: documents =>
      match verdict d with
      | None => refused (S i) documents
      | Some e => mkImportFailure i (coerce_utf8 e) :: refused (S i) documents
      end
  end.

Definition verdict_json (d : Document) : json := JObject (match verdict d with
    | None => [("success"%string, JBool true)]
    | Some e => [("error"%string, encode_string e); ("success"%string, JBool false)]
    end).
Lemma verdict_line_parses d : import_result (verdict_line verdict d) =
  Some (match verdict d with None => (true, ""%string) | Some e => (false, coerce_utf8 e) end).
Proof.
  unfold import_result, verdict_line. fold (verdict_json d).
  assert (Hw : wf maxNestingDepth (verdict_json d) = true).
  { unfold verdict_json. destruct (verdict d) as [e|]; [|vm_compute; reflexivity].
    cbn -[valid_utf8]. rewrite (utf8_valid _ (coerce_is_utf8 e)). vm_compute. reflexivity. }
  destruct (parse_json_render (verdict_json d) "" Hw eq_refl) as [Hp _].
  assert (Happ : ∀ s : string, (s +:+ "") = s) by (intros s; induction s; cbn; congruence). rewrite Happ in Hp. rewrite Hp.
  unfold verdict_json. by destruct (verdict d).
Qed.

Lemma import_failures_lines i documents : import_failures i (map (verdict_line verdict) documents) = Ok (refused i documents).
Proof.
  revert i. induction documents as [|d documents IH]; intros i; [done|]. cbn [map import_failures refused].
  rewrite verdict_line_parses. destruct (verdict d); by rewrite IH.
Qed.

Lemma verdict_line_shape d : ∃ t, verdict_line verdict d = String "{" (t +:+ "}") ∧ contains_char LF (verdict_line verdict d) = false.
Proof.
  unfold verdict_line. eexists. split; [cbn [render]; reflexivity|]. cbn [render]. rewrite !contains_char_app.
  destruct (verdict d) as [e|]; [|reflexivity]. cbn -[escape]. rewrite !contains_char_app. cbn -[escape].
  rewrite ?contains_char_app, !escape_one_line. reflexivity.
Qed.

Lemma answer_shape documents : documents ≠ [] → ∃ t, join LF (map (verdict_line verdict) documents) = String "{" (t +:+ "}").
Proof.
  induction documents as [|d [|d' documents] IH]; [done| |]; intros _; destruct (verdict_line_shape d) as (t & Ht & _).
  - exists t. exact Ht.
  - destruct IH as [t' Ht']; [done|]. cbn [map] in *. rewrite join_cons, Ht, Ht'.
    exists (t +:+ String "}" (String LF (String "{" t'))). cbn [String.append]. f_equal. rewrite !append_assoc3. done.
Qed.

(** [Upsert] is told of exactly the refused documents. *)
Lemma parse_answer documents : documents ≠ [] →
  parseImportResults (join LF (map (verdict_line verdict) documents)) (length documents) =
  match refused 0 documents with [] => Written | failures => ImportError failures end.
Proof.
  intros Hne. unfold parseImportResults. destruct (answer_shape documents Hne) as [t Ht]. rewrite Ht, trim_braces, <-Ht.
  rewrite split_join.
  - rewrite length_map, Nat.eqb_refl. cbn [negb]. rewrite import_failures_lines. by destruct (refused 0 documents).
  - by destruct documents.
  - apply Forall_map, Forall_forall. intros d _. by destruct (verdict_line_shape d) as (? & _ & ?).
Qed.

Lemma refused_spec i documents f : f ∈ refused i documents ↔
  ∃ j d e, documents !! j = Some d ∧ verdict d = Some e ∧ f = mkImportFailure (i + j) (coerce_utf8 e).
Proof.
  revert i. induction documents as [|d documents IH]; intros i; cbn; [rewrite elem_of_nil; split; [done|]; by intros (? & ? & ? & ? & _)|].
  assert (Hrest : f ∈ refused (S i) documents ↔ ∃ j d0 e, (d :: documents) !! S j = Some d0 ∧ verdict d0 = Some e ∧ f = mkImportFailure (i + S j) (coerce_utf8 e)).
  { rewrite IH. by setoid_rewrite <-Nat.add_succ_comm. }
  destruct (verdict d) as [e|] eqn:Ev.
  - rewrite elem_of_cons, Hrest. split.
    + intros [->|(j & d0 & e0 & ?)]; [exists 0%nat, d, e; by rewrite Nat.add_0_r|by exists (S j), d0, e0].
    + intros ([|j] & d0 & e0 & Hd & He & ->); [left; cbn in Hd; simplify_eq; by rewrite Nat.add_0_r|right; by exists j, d0, e0].
  - rewrite Hrest. split; [intros (j & d0 & e0 & ?); by exists (S j), d0, e0|].
    intros ([|j] & d0 & e0 & Hd & He & ->); [cbn in Hd; simplify_eq; congruence|by exists j, d0, e0].
Qed.
End Answers.

(** ** What the index holds *)
Section Projection.
Variable verdict : Document → option string.

Definition from_topic (w : IndexWorld) (d : Document) : Prop := ∃ p v, v ∈ partition (group w) p ∧ Decode v = Ok (Some d).
(** The document of [d]'s id is in the collection, or its interview is purged. *)
Definition kept (w : IndexWorld) (purged : list (string * string)) (c : collection_of) (d : Document) : Prop :=
  ∃ d', ID d' = ID d ∧ from_topic w d' ∧ (c !! ID d = Some d' ∨ (Document_CompanyID d', Document_InterviewID d') ∈ purged).
Definition rejection (e : string) : error := Plain ("typesense rejected document: " +:+ coerce_utf8 e).
(** What became of a message. *)
Definition settled (purged : list (string * string)) (w : IndexWorld) (m : Message) : Prop :=
  match Decode (Value m) with
  | Err e => (m, e) ∈ reported (group w)
  | Ok None => True
  | Ok (Some d) => match verdict d with Some e => (m, rejection e) ∈ reported (group w) | None => kept w purged (collection w) d end
  end.
Definition sound (w : IndexWorld) : Prop := ∀ id d, collection w !! id = Some d → ID d = id ∧ verdict d = None ∧ from_topic w d.
Definition settled_below (purged : list (string * string)) (w : IndexWorld) (offsets : gmap Z nat) : Prop :=
  ∀ p i, (i < offset_of offsets p)%nat → ∃ v, partition (group w) p !! i = Some v ∧ settled purged w (mkMessage p i v).

(** *** Writing documents *)
Lemma import_app ds1 ds2 c : import verdict (ds1 ++ ds2) c = import verdict ds2 (import verdict ds1 c).
Proof. apply foldl_app. Qed.
Lemma import_keeps w purged ds c d : (∀ x, x ∈ ds → from_topic w x) → kept w purged c d → kept w purged (import verdict ds c) d.
Proof.
  revert c. induction ds as [|x ds IH]; intros c Hds H; [done|]. cbn. apply IH; [intros; apply Hds; by right|]. unfold put_document.
  destruct (verdict x); [done|]. destruct H as (d' & Hid & Hft & Hor). destruct (decide (ID x = ID d)) as [E|E].
  - exists x. split; [done|]. split; [apply Hds; by left|]. left. rewrite <-E. apply lookup_insert_eq.
  - exists d'. do 2 (split; [done|]). destruct Hor as [Hl|]; [left|by right]. unfold collection_of in *. by rewrite lookup_insert_ne.
Qed.
Lemma import_writes w purged ds c d : (∀ x, x ∈ ds → from_topic w x) → d ∈ ds → verdict d = None → kept w purged (import verdict ds c) d.
Proof.
  intros Hds Hd Hv. pose proof (Hds d Hd) as Hft. apply list_elem_of_split in Hd as (l1 & l2 & ->). rewrite import_app. cbn.
  apply import_keeps; [intros x Hx; apply Hds, elem_of_app; right; by right|].
  exists d. do 2 (split; [done|]). left. unfold put_document. rewrite Hv. apply lookup_insert_eq.
Qed.
Lemma import_origin ds c id d : import verdict ds c !! id = Some d → c !! id = Some d ∨ d ∈ ds ∧ ID d = id ∧ verdict d = None.
Proof.
  revert c. induction ds as [|x ds IH]; intros c H; [by left|]. cbn in H. apply IH in H as [H|(? & ? & ?)]; [|right; split_and!; try done; by right].
  unfold put_document in H. destruct (verdict x) eqn:Ev; [by left|].
  apply lookup_insert_Some in H as [[<- <-]|[_ H]]; [right; split_and!; [by left|done|done]|by left].
Qed.

(** *** Reports *)
Lemma report_failures_elem config sources fs w x : x ∈ reported w → x ∈ reported (report_failures config sources fs w).
Proof.
  unfold report_failures. revert w. induction fs as [|f fs IH]; intros w H; [done|]. cbn [foldl]. apply IH.
  destruct (sources !! Index f); [|done]. unfold invalid. destruct (OnInvalid config); [|done]. cbn. apply elem_of_app. by left.
Qed.
Lemma report_failures_mem config sources fs w f m : OnInvalid config = true → f ∈ fs → sources !! Index f = Some m →
  (m, Plain ("typesense rejected document: " +:+ Failure_Error f)) ∈ reported (report_failures config sources fs w).
Proof.
  intros Hc Hf Hm. apply list_elem_of_split in Hf as (l1 & l2 & ->). unfold report_failures. rewrite foldl_app. cbn [foldl].
  apply (report_failures_elem config sources l2). rewrite Hm. unfold invalid. rewrite Hc. cbn [report_invalid reported]. apply elem_of_app. right. by left.
Qed.
Lemma report_failures_log config sources fs w : topic (report_failures config sources fs w) = topic w ∧
  committed (report_failures config sources fs w) = committed w ∧ position (report_failures config sources fs w) = position w.
Proof.
  unfold report_failures. revert w. induction fs as [|f fs IH]; intros w; [done|]. cbn [foldl].
  destruct (sources !! Index f) as [m|]; [|apply IH].
  match goal with |- context [foldl _ (invalid _ _ ?e _) _] => destruct (IH (invalid config m e w)) as (H1 & H2 & H3) end.
  rewrite H1, H2, H3. unfold invalid. by destruct (OnInvalid config).
Qed.

Lemma decode_messages_spec config messages w ds w' : decode_messages config messages w = (ds, w') →
  topic w' = topic w ∧ committed w' = committed w ∧ position w' = position w ∧ (∀ x, x ∈ reported w → x ∈ reported w') ∧
  (∀ d m, (d, m) ∈ ds → m ∈ messages ∧ Decode (Value m) = Ok (Some d)) ∧
  (∀ m, m ∈ messages → OnInvalid config = true → match Decode (Value m) with
     | Err e => (m, e) ∈ reported w' | Ok None => True | Ok (Some d) => (d, m) ∈ ds end).
Proof.
  revert w ds w'. induction messages as [|m messages IH]; intros w ds w' H; cbn in H.
  { injection H as <- <-. split_and!; try done; [by intros ?? ?%elem_of_nil|by intros ? ?%elem_of_nil]. }
  destruct (Decode (Value m)) as [found|e] eqn:Ed.
  - destruct (decode_messages config messages w) as [ds1 w1] eqn:E1. destruct (IH _ _ _ E1) as (Ht & Hc & Hp & Hr & Hds & Hall).
    injection H as <- <-. split_and!; [done..| |].
    + intros d m' Hin. destruct found as [d0|]; [apply elem_of_cons in Hin as [[= -> ->]|Hin]; [split; [by left|done]|]|];
        destruct (Hds _ _ Hin); (split; [by right|done]).
    + intros m' [->|Hm']%elem_of_cons Hinv.
      * rewrite Ed. destruct found; [by left|done].
      * specialize (Hall m' Hm' Hinv). destruct (Decode (Value m')) as [[d|]|]; [|done..]. destruct found; [by right|done].
  - destruct (IH _ _ _ H) as (Ht & Hc & Hp & Hr & Hds & Hall). unfold invalid in *.
    assert (Hsame : topic (if OnInvalid config then report_invalid m e w else w) = topic w ∧
      committed (if OnInvalid config then report_invalid m e w else w) = committed w ∧
      position (if OnInvalid config then report_invalid m e w else w) = position w) by by destruct (OnInvalid config).
    destruct Hsame as (Hs1 & Hs2 & Hs3). split_and!; [congruence..| | |].
    + intros x Hx. apply Hr. destruct (OnInvalid config); [|done]. cbn. apply elem_of_app. by left.
    + intros d m' Hin. destruct (Hds _ _ Hin). split; [by right|done].
    + intros m' [->|Hm']%elem_of_cons Hinv; [|by apply Hall]. rewrite Ed. apply Hr. rewrite Hinv. cbn. apply elem_of_app. right. by left.
Qed.

(** *** One batch *)
(** From [w] to [w']: the topic as before, more reported, nothing lost. *)
Definition further (purged : list (string * string)) (w w' : IndexWorld) : Prop :=
  topic (group w') = topic (group w) ∧ (∀ x, x ∈ reported (group w) → x ∈ reported (group w')) ∧
  (∀ d, kept w purged (collection w) d → kept w' purged (collection w') d).
Lemma settled_further purged w w' m : further purged w w' → settled purged w m → settled purged w' m.
Proof.
  intros (_ & Hr & Hk). unfold settled. destruct (Decode (Value m)) as [[d|]|]; [|done|by apply Hr].
  destruct (verdict d); [by apply Hr|by apply Hk].
Qed.
Lemma settled_below_further purged w w' os : further purged w w' → settled_below purged w os → settled_below purged w' os.
Proof.
  intros H Hs p i Hi. destruct (Hs p i Hi) as (v & Hv & Hm). exists v. split; [|by apply (settled_further purged w)].
  destruct H as (Ht & _). unfold partition in *. by rewrite Ht.
Qed.

Lemma upsert_cases ds fs c r fs' c' : upsert verdict ds fs c = (r, fs', c') →
  (∃ l, c' = import verdict l c ∧ ∀ x, x ∈ l → x ∈ ds) ∧
  match r with UpsertFailed _ => True | Written => refused verdict 0 ds = [] ∧ c' = import verdict ds c
             | ImportError failures => failures = refused verdict 0 ds ∧ c' = import verdict ds c end.
Proof.
  assert (Hall : ∃ l, import verdict ds c = import verdict l c ∧ ∀ x, x ∈ l → x ∈ ds) by by exists ds.
  assert (Hnone : ∃ l, c = import verdict l c ∧ ∀ x, x ∈ l → x ∈ ds) by (exists []; split; [done|by intros x ?%elem_of_nil]).
  assert (Hsome : ∀ kept, ∃ l, import verdict (select kept ds) c = import verdict l c ∧ ∀ x, x ∈ l → x ∈ ds)
    by (intros kept; exists (select kept ds); split; [done|intros x; apply select_subset]).
  unfold upsert. destruct (decide (ds = [])) as [->|Hne]; [intros [= <- <- <-]; done|].
  rewrite (parse_answer verdict ds Hne). destruct ds as [|d ds]; [done|]. set (l := d :: ds) in *.
  intros H. destruct fs as [|[] fs]; injection H as <- <- <-; (split; [eauto|]); try done; change (match match refused verdict 0 l with [] => Written | x :: l0 => ImportError (x :: l0) end with UpsertFailed _ => True
    | Written => refused verdict 0 l = [] ∧ import verdict l c = import verdict l c | ImportError failures => failures = refused verdict 0 l ∧ import verdict l c = import verdict l c end); by destruct (refused verdict 0 l).
Qed.

Lemma from_topic_same w w' d : topic (group w') = topic (group w) → from_topic w d → from_topic w' d.
Proof. intros Ht (p & v & Hv & Hd). exists p, v. unfold partition in *. by rewrite Ht. Qed.
Lemma kept_same w w' purged c d : topic (group w') = topic (group w) → kept w purged c d → kept w' purged c d.
Proof. intros Ht (d' & ? & ? & ?). exists d'. split; [done|]. split; [by apply (from_topic_same w)|done]. Qed.
Lemma sound_same w w' : topic (group w') = topic (group w) → collection w' = collection w → sound w → sound w'.
Proof. intros Ht Hc Hs id d. rewrite Hc. intros Hd. destruct (Hs id d Hd) as (? & ? & ?). do 2 (split; [done|]). by apply (from_topic_same w). Qed.
Lemma further_same purged w w' : topic (group w') = topic (group w) → (∀ x, x ∈ reported (group w) → x ∈ reported (group w')) →
  collection w' = collection w → further purged w w'.
Proof. intros Ht Hr Hc. split_and!; [done|done|]. intros d. rewrite Hc. by apply kept_same. Qed.
Lemma report_further config sources failures purged g c :
  further purged (mkIndexWorld g c) (mkIndexWorld (report_failures config sources failures g) c).
Proof. apply further_same; [apply report_failures_log|intros x; apply report_failures_elem|done]. Qed.

Lemma index_step config purged messages fs w r fs' w' : OnInvalid config = true →
  (∀ m, m ∈ messages → partition (group w) (Partition m) !! Offset m = Some (Value m)) → index verdict config messages fs w = (r, fs', w') →
  (further purged w w' ∧ committed (group w') = committed (group w) ∧ position (group w') = position (group w)) ∧
  (sound w → sound w') ∧ (is_ok r = true → ∀ m, m ∈ messages → settled purged w' m).
Proof.
  intros Hc Hlog. unfold index. destruct (decode_messages config messages (group w)) as [ds g] eqn:Ed.
  destruct (decode_messages_spec _ _ _ _ _ Ed) as (Ht & Hcm & Hp & Hr & Hds & Hall).
  destruct (upsert verdict (map fst ds) fs (collection w)) as [[u fs1] c] eqn:Eu. destruct (upsert_cases _ _ _ _ _ _ Eu) as ((l & Hn & Hl) & Hu).
  assert (Hft : ∀ x, x ∈ map fst ds → from_topic w x).
  { intros x ([d m] & -> & Hm)%list_elem_of_fmap. destruct (Hds _ _ Hm) as [Hmm Hdm]. exists (Partition m), (Value m). split; [|done].
    by eapply list_elem_of_lookup_2, Hlog. }
  assert (Hft' : ∀ x, x ∈ map fst ds → from_topic (mkIndexWorld g c) x) by (intros x Hx; by apply (from_topic_same w), Hft).
  assert (Hf : further purged w (mkIndexWorld g c)).
  { split_and!; [done|done|]. intros d Hd. cbn. rewrite Hn. apply import_keeps; [|by apply (kept_same w)].
    intros x Hx. by apply (from_topic_same w), Hft, Hl. }
  assert (Hsound : sound w → sound (mkIndexWorld g c)).
  { intros Hs id d. cbn. rewrite Hn. intros [Hin|(Hin & Hid & Hv)]%import_origin.
    - destruct (Hs id d Hin) as (? & ? & ?). split_and!; [done|done|]. by apply (from_topic_same w).
    - split_and!; [done|done|]. by apply (from_topic_same w), Hft, Hl. }
  assert (Hset : ∀ failures, failures = refused verdict 0 (map fst ds) → c = import verdict (map fst ds) (collection w) →
    ∀ m, m ∈ messages → settled purged (mkIndexWorld (report_failures config (map snd ds) failures g) c) m).
  { intros failures -> -> m Hm. specialize (Hall m Hm Hc). unfold settled. cbn [group collection].
    destruct (Decode (Value m)) as [[d|]|e]; [|done|by apply report_failures_elem].
    destruct (verdict d) as [e|] eqn:Ev; 
      [|apply import_writes; [intros x Hx; apply (from_topic_same w); [etrans; [apply report_failures_log|done]|by apply Hft]| |done]; by apply (list_elem_of_fmap_2 fst _ (d, m))].
    apply list_elem_of_lookup in Hall as [j Hj].
    apply (report_failures_mem config (map snd ds) _ g (mkImportFailure (0 + j) (coerce_utf8 e)) m); [done| |by (cbn; rewrite list_lookup_fmap, Hj)].
    apply refused_spec. exists j, d, e. by rewrite list_lookup_fmap, Hj. }
  destruct u as [|failures|e]; intros H; injection H as <- <- <-.
  - destruct Hu as [Hnil Hall']. split; [done|]. split; [done|]. intros _. by apply (Hset []).
  - destruct Hu as [-> Hall']. destruct (report_failures_log config (map snd ds) (refused verdict 0 (map fst ds)) g) as (H1 & H2 & H3).
    pose proof (report_further config (map snd ds) (refused verdict 0 (map fst ds)) purged g c) as Hrf. split; [split_and!|split].
    + destruct Hf as (? & Hrep1 & Hk1), Hrf as (? & Hrep2 & Hk2). split_and!; [cbn; congruence|auto|auto].
    + cbn. congruence.
    + cbn. congruence.
    + intros Hs. by apply (sound_same (mkIndexWorld g c)), Hsound.
    + intros _. by apply Hset.
  - done.
Qed.

(** *** Runs and histories *)
Lemma fetch_reported ds g r ds' g' : FetchMessage ds g = (r, ds', g') → reported g' = reported g.
Proof.
  revert g. induction ds as [|[p|p|e] ds IH]; intros g H; cbn in H; [by injection H as <- <- <-| | |by injection H as <- <- <-].
  all: destruct (next_message p _) as [[m g1]|] eqn:En; [|by rewrite (IH _ H)]; injection H as <- <- <-;
    unfold next_message in En; destruct (partition _ p !! _); cbn in En; by simplify_eq.
Qed.
Lemma fill_gathered room ctx_err ds messages g0 g r g' : gathered g0 g messages → fill_messages room ctx_err ds messages g = (r, g') →
  match r with Ok messages' => gathered g0 g' messages' | Err _ => topic g' = topic g0 ∧ committed g' = committed g0 end ∧ reported g' = reported g.
Proof.
  revert ds messages g. induction room as [|room IH]; intros ds messages g Hg H; cbn in H; [by injection H as <- <-|].
  destruct (FetchMessage ds g) as [[f ds1] g1] eqn:Ef. pose proof (gathered_fetch _ _ _ _ _ _ _ Hg Ef) as Hg1.
  pose proof (fetch_reported _ _ _ _ _ Ef) as Hrep. rewrite <-Hrep. destruct f as [[m|e]|].
  - by apply (IH ds1 (messages ++ [m]) g1).
  - injection H as <- <-. destruct ctx_err; [|destruct (errors_is e _)]; (split; [|done]); [split; apply Hg1|done|split; apply Hg1].
  - by injection H as <- <-.
Qed.
Lemma fetchBatch_gathered config t g r g' : fetchBatch config t g = (r, g') →
  match r with Some (Ok messages) => gathered g g' messages | None => gathered g g' [] | _ => topic g' = topic g ∧ committed g' = committed g end ∧
  reported g' = reported g.
Proof.
  unfold fetchBatch. destruct (FetchMessage (index_deliveries t) g) as [[f ds1] g1] eqn:Ef.
  pose proof (gathered_fetch _ _ _ _ _ _ _ (gathered_nil g) Ef) as Hg1. pose proof (fetch_reported _ _ _ _ _ Ef) as Hrep.
  destruct f as [[m|e]|].
  - destruct (fill_messages _ _ ds1 [m] g1) as [x g2] eqn:Ex. destruct (fill_gathered _ _ _ _ g _ _ _ Hg1 Ex) as [H1 H2].
    intros [= <- <-]. rewrite H2. by destruct x.
  - intros [= <- <-]. split; [split; apply Hg1|done].
  - by intros [= <- <-].
Qed.

Record index_inv (purged : list (string * string)) (w : IndexWorld) : Prop := {
  inv_sound : sound w;
  inv_committed : settled_below purged w (committed (group w));
}.
Definition running (purged : list (string * string)) (w : IndexWorld) : Prop :=
  index_inv purged w ∧ settled_below purged w (position (group w)).

Lemma index_turn_inv config t purged w e w' : OnInvalid config = true → running purged w → index_one verdict config t w = (e, w') →
  index_inv purged w' ∧ (e = None → running purged w').
Proof.
  intros Hc [[Hs Hcm] Hp]. unfold index_one. destruct (fetchBatch config t (group w)) as [r g] eqn:Ef.
  destruct (fetchBatch_gathered _ _ _ _ _ Ef) as [Hg Hrep].
  assert (Hbase : topic g = topic (group w) → further purged w (mkIndexWorld g (collection w)) ∧ sound (mkIndexWorld g (collection w))).
  { intros Ht. split; [apply further_same; [done|by cbn; rewrite Hrep|done]|by apply (sound_same w)]. }
  destruct r as [[messages|err]|].
  - destruct Hg as [Ht Hcg Hlog Hpos Hbelow]. destruct (Hbase Ht) as [Hf Hs1]. clear Hbase.
    destruct (index verdict config messages (index_faults t) (mkIndexWorld g (collection w))) as [[ir fs] w1] eqn:Ei.
    assert (Hlog' : ∀ m, m ∈ messages → partition (group (mkIndexWorld g (collection w))) (Partition m) !! Offset m = Some (Value m)).
    { intros m Hm. unfold partition in *. cbn. rewrite Ht. by apply Hlog. }
    destruct (index_step _ purged _ _ _ _ _ _ Hc Hlog' Ei) as ((Hf1 & Hc1 & Hp1) & Hs2 & Hset).
    assert (Hcm1 : settled_below purged w1 (committed (group w1))).
    { rewrite Hc1. cbn. rewrite Hcg. by eapply settled_below_further, settled_below_further. }
    assert (Hp0 : settled_below purged w1 (position (group w))) by by eapply settled_below_further, settled_below_further.
    destruct ir as [[]|err]; [|intros [= <- <-]; by split; [split; [apply Hs2|]|]].
    specialize (Hset eq_refl).
    assert (Hknown : ∀ p i, known (group w) messages p i → ∃ v, partition (group w1) p !! i = Some v ∧ settled purged w1 (mkMessage p i v)).
    { intros p i [Hi|[Hi|(m & Hm & <- & <-)]]; [by apply Hp0| |].
      - apply Hcm1. rewrite Hc1. cbn. by rewrite Hcg.
      - exists (Value m). split; [|destruct m; by apply Hset]. destruct Hf1 as (Ht1 & _). unfold partition in *. rewrite Ht1. by apply Hlog'. }
    destruct (batch commit_offsets messages fs (group w1)) as [[br fs'] g2] eqn:Eb.
    apply batch_part in Eb as (l & -> & Hl); [|by destruct (group w1)].
    assert (Hlast : further purged w1 (mkIndexWorld (commit_offsets l (group w1)) (collection w1))) by by by apply further_same.
    assert (Hinv : index_inv purged (mkIndexWorld (commit_offsets l (group w1)) (collection w1))).
    { split; [by apply (sound_same w1), Hs2|]. intros p i Hi.
      assert (Hw1 : ∃ v, partition (group w1) p !! i = Some v ∧ settled purged w1 (mkMessage p i v)).
      { destruct (commit_offset l (group w1) p) as [(m & Hm & <- & E)|E]; cbn [group] in Hi; rewrite E in Hi; [|by apply Hcm1].
        apply Hknown, Hbelow; [by apply Hl|lia]. }
      destruct Hw1 as (v & ? & ?). exists v. split; [done|]. by eapply settled_further. }
    destruct br as [[]|err]; intros [= <- <-]; (split; [done|]); [|done]. intros _. split; [done|]. intros p i Hi. cbn in Hi. rewrite Hp1 in Hi.
    destruct (Hknown p i (Hpos p i Hi)) as (v & ? & ?). exists v. split; [done|]. by eapply settled_further.
  - destruct Hg as [Ht Hcg]. destruct (Hbase Ht) as [Hf Hs1]. intros [= <- <-]. split; [|done]. split; [done|]. cbn. rewrite Hcg. by eapply settled_below_further.
  - destruct Hg as [Ht Hcg _ Hpos _]. destruct (Hbase Ht) as [Hf Hs1]. intros [= <- <-].
    assert (Hcm1 : settled_below purged (mkIndexWorld g (collection w)) (committed (group w))) by by eapply settled_below_further.
    assert (Hp1 : settled_below purged (mkIndexWorld g (collection w)) (position (group w))) by by eapply settled_below_further.
    assert (Hi : index_inv purged (mkIndexWorld g (collection w))) by (split; [done|]; cbn; by rewrite Hcg).
    split; [done|]. intros _. split; [done|]. intros p i Hi'. cbn in Hi'. destruct (Hpos p i Hi') as [?|[?|(m & Hm%elem_of_nil & _)]]; [by apply Hp1|by apply Hcm1|done].
Qed.

Lemma index_run_inv config turns purged w : OnInvalid config = true → running purged w → index_inv purged (Run verdict config turns w).2.
Proof.
  intros Hc. revert w. induction turns as [|t turns IH]; intros w Hw; [apply Hw|]. cbn.
  destruct (index_one verdict config t w) as [e w1] eqn:E1. destruct (index_turn_inv _ _ _ _ _ _ Hc Hw E1) as [H1 H2].
  destruct e; [done|]. by apply IH, H2.
Qed.

(** A process that has [OnInvalid]. *)
Definition index_reports (o : index_op) : Prop := match o with IndexProcess config _ => OnInvalid config = true | _ => True end.
Definition purges (ops : list index_op) : list (string * string) :=
  omap (λ o, match o with Purged company interview => Some (company, interview) | _ => None end) ops.

Lemma settled_purges purged purged' w m : (∀ x, x ∈ purged → x ∈ purged') → settled purged w m → settled purged' w m.
Proof.
  intros Hsub. unfold settled, kept. destruct (Decode (Value m)) as [[d|]|]; [|done..]. destruct (verdict d); [done|].
  intros (d' & ? & ? & [?|?]); exists d'; auto.
Qed.
Lemma settled_below_purges purged purged' w os : (∀ x, x ∈ purged → x ∈ purged') → settled_below purged w os → settled_below purged' w os.
Proof. intros Hsub H p i Hi. destruct (H p i Hi) as (v & ? & ?). exists v. split; [done|]. by apply (settled_purges purged). Qed.

Lemma index_op_inv o purged w : index_reports o → index_inv purged w → index_inv (purged ++ purges [o]) (index_exec verdict o w).
Proof.
  intros Ho [Hs Hc]. assert (Hsub : ∀ x, x ∈ purged → x ∈ purged ++ purges [o]) by (intros; apply elem_of_app; by left).
  destruct o as [p v|company interview|config turns]; cbn [index_exec].
  - assert (Hpart : ∀ q i x, partition (group w) q !! i = Some x →
      partition (mkLogWorld (<[p := partition (group w) p ++ [v]]> (topic (group w))) (committed (group w)) (position (group w)) (events_table (group w)) (reported (group w))) q !! i = Some x).
    { intros q i x Hx. unfold partition at 1. cbn. destruct (decide (p = q)) as [->|]; [|by rewrite lookup_insert_ne].
      rewrite lookup_insert_eq. cbn. by apply lookup_app_l_Some. }
    assert (Hft : ∀ d, from_topic w d → from_topic (index_exec verdict (Produced p v) w) d).
    { intros d (q & x & Hx & Hd). apply list_elem_of_lookup in Hx as [i Hi]. exists q, x. split; [|done]. by eapply list_elem_of_lookup_2, Hpart. }
    split; [intros id d Hd; destruct (Hs id d Hd) as (? & ? & ?); auto|].
    intros q i Hi. destruct (Hc q i Hi) as (x & Hx & Hm). exists x. split; [by apply Hpart|]. apply (settled_purges purged); [done|].
    unfold settled, kept in *. cbn [group collection reported]. destruct (Decode (Value _)) as [[d|]|]; [|done..]. destruct (verdict d); [done|].
    destruct Hm as (d' & ? & ? & ?). exists d'. auto.
  - split.
    + intros id d [Hd _]%map_lookup_filter_Some. by apply Hs.
    + intros q i Hi. destruct (Hc q i Hi) as (x & Hx & Hm). exists x. split; [done|].
      unfold settled, kept in *. cbn [group collection reported]. destruct (Decode (Value _)) as [[d|]|]; [|done..]. destruct (verdict d); [done|].
      destruct Hm as (d' & Hid & Hft & Hor). exists d'. split; [done|]. split; [done|]. destruct Hor as [Hl|Hl]; [|right; auto].
      destruct (of_interview company interview d') eqn:Eo; [right|left; by apply map_lookup_filter_Some].
      unfold of_interview in Eo. apply andb_prop in Eo as [<-%bool_decide_eq_true <-%bool_decide_eq_true]. apply elem_of_app. right. by left.
  - set (w0 := mkIndexWorld _ (collection w)). assert (Hw0 : running purged w0).
    { assert (Hf : further purged w w0) by by apply further_same.
      split; [split; [by apply (sound_same w)|]|]; by apply (settled_below_further _ _ _ _ Hf). }
    destruct (index_run_inv config turns purged w0 Ho Hw0) as [H1 H2]. split; [done|]. by apply (settled_below_purges purged).
Qed.
Lemma index_history_inv ops purged w : Forall index_reports ops → index_inv purged w → index_inv (purged ++ purges ops) (index_history verdict ops w).
Proof.
  revert purged w. induction ops as [|o ops IH]; intros purged w H Hw; [by rewrite app_nil_r|].
  apply Forall_cons in H as [Ho H]. replace (purged ++ purges (o :: ops)) with ((purged ++ purges [o]) ++ purges ops); [by apply IH, index_op_inv|].
  rewrite <-app_assoc. f_equal. by destruct o.
Qed.
End Projection.

Definition empty_index : IndexWorld := mkIndexWorld empty_log ∅.

(** C37: Whatever the node's check of documents refuses, and whatever the
    producers, the purges and the lifetimes of indexing processes with their
    failures: every message below a committed offset is reported if it cannot
    be decoded or the node refuses its document; otherwise it has no text, or a
    document of the topic with its id is in the collection, or that document's
    interview was purged.  The collection holds nothing else: each document
    stands under its id, passed the check, and was decoded from the topic. *)
Theorem index_projection verdict ops (Hops : Forall index_reports ops) :
  let w := index_history verdict ops empty_index in
  (∀ p i, (i < offset_of (committed (group w)) p)%nat → ∃ v, partition (group w) p !! i = Some v ∧
    match Decode v with
    | Err e => (mkMessage p i v, e) ∈ reported (group w)
    | Ok None => True
    | Ok (Some d) =>
        match verdict d with
        | Some e => (mkMessage p i v, rejection e) ∈ reported (group w)
        | None => ∃ d', ID d' = ID d ∧ from_topic w d' ∧
            (collection w !! ID d = Some d' ∨ (Document_CompanyID d', Document_InterviewID d') ∈ purges ops)
        end
    end) ∧
  (∀ id d, collection w !! id = Some d → ID d = id ∧ verdict d = None ∧ from_topic w d).
Proof.
  destruct (index_history_inv verdict ops [] empty_index Hops) as [Hs Hc].
  - split; [done|]. intros p i Hi. exfalso. unfold empty_index, empty_log, offset_of in Hi. cbn in Hi. rewrite lookup_empty in Hi. cbn in Hi. lia.
  - split; [exact Hc|exact Hs].
Qed.

(** Documents that already stand under their ids: writing them again changes
    nothing. *)
Lemma redelivery_is_noop verdict ds c : (∀ d, d ∈ ds → c !! ID d = Some d) → import verdict ds c = c.
Proof.
  induction ds as [|d ds IH]; intros H; [done|]. cbn.
  assert (Hd : put_document verdict c d = c).
  { unfold put_document. destruct (verdict d); [done|]. apply insert_id, H. by left. }
  rewrite Hd. apply IH. intros x Hx. apply H. by right.
Qed.

(** *** Witnesses *)
Module Indexing.
Definition prompt_event (id interview text : string) : RawMessage :=
  match marshal_envelope (mkEnvelope id EventTypePromptSubmitted 1 "c" 1 1234567
          (Some (JObject [("session_id"%string, JString "s"); ("interview_id"%string, JString interview); ("prompt_id"%string, JString "p"); ("prompt"%string, JString text)]))) with
  | Ok j => Some j
  | Err _ => None
  end.
Definition config : Config := mkConfig 10 second true.
(** The node takes no texts of one letter. *)
Definition verdict (d : Document) : option string := if (String.length (Text d) <=? 1)%nat then Some "too short"%string else None.
Definition lost : error := Plain "connection lost".
Definition turn (fs : script) : index_turn := mkIndexTurn [Next 0; Next 0; Next 0; Next 0] None fs.

(** Four messages - one accepted, one refused, one without text, one not JSON -
    written twice, since the first commit failed. *)
Definition produced : list index_op := [
  Produced 0 (prompt_event "e1" "i" "why a map?"); Produced 0 (prompt_event "e2" "i" "x"); Produced 0 (prompt_event "e3" "i" ""); Produced 0 None].
Definition ops : list index_op := produced ++ [IndexProcess config [turn [Done; Fault lost]]; IndexProcess config [turn []]].

(** The same, the interview purged between the two processes. *)
Definition purged_ops : list index_op :=
  produced ++ [IndexProcess config [turn [Done; Fault lost]]; Purged "c" "i"; IndexProcess config [turn []]].
Definition final : IndexWorld := index_history verdict ops empty_index.
End Indexing.

Lemma index_projection_witness :
  let w := Indexing.final in
  offset_of (committed (group w)) 0 = 4%nat ∧ length (reported (group w)) = 4%nat ∧ Text <$> collection w !! "e1"%string = Some "why a map?"%string ∧
  collection w !! "e2"%string = None ∧
  (∀ p i, (i < offset_of (committed (group w)) p)%nat → is_Some (partition (group w) p !! i)).
Proof.
  destruct (index_projection Indexing.verdict Indexing.ops) as [H _]; [by repeat constructor|].
  split_and!; [by vm_compute..|]. intros p i Hi. destruct (H p i Hi) as (v & Hv & _). by exists v.
Defined.

(** A redelivery after a purge is no such thing: the purged interview's
    document is in the collection again. *)
Lemma purged_document_returns :
  let w := index_history Indexing.verdict (take 6 Indexing.purged_ops) empty_index in
  let w' := index_history Indexing.verdict Indexing.purged_ops empty_index in
  collection w = ∅ ∧ Document_InterviewID <$> collection w' !! "e1"%string = Some "i"%string.
Proof. by vm_compute. Qed.
