(* ===== verification/Analytics.v ===== *)
(** * Analytics: the ClickHouse views over the event log (internal/analytics)

    The materialized views, what each inserts into its target table for a block
    of events, the query views over the targets, and [Migrate] with every
    failure.  A view sees every insert of the events table, so the target tables
    hold an event as often as it was delivered. *)
From S2P Require Import Prelude Str GoTime Json Codec Events Pricing Tx MergeTree EventLog.
From S2P Require Metrics Scoring.

(** ClickHouse's functions of a payload and of an instant.  [JSONExtractString]
    and [JSONExtractInt] are documented to return the member's value, an empty
    string or 0 if there is none of that type; [toDate] the UTC day. *)
Class ClickHouse := {
  JSONExtractString : RawMessage → string → string;
  JSONExtractInt : RawMessage → string → Z;
  toDate : time → Z;
  toStartOfMonth : time → Z;
  extract_string : ∀ fields name s, NoDup fields.*1 → (name, JString s) ∈ fields → JSONExtractString (Some (JObject fields)) name = s;
  extract_int : ∀ fields name z, NoDup fields.*1 → (name, JNumber (render_int z)) ∈ fields → in_int64 z →
    JSONExtractInt (Some (JObject fields)) name = z;
  extract_no_string : ∀ fields name, name ∉ fields.*1 → JSONExtractString (Some (JObject fields)) name = ""%string;
  extract_no_int : ∀ fields name, name ∉ fields.*1 → JSONExtractInt (Some (JObject fields)) name = 0;
}.

(** ** The rows of the views (schema.go) *)
(** Replaced or kept row by row: a UInt8 of a condition. *)
Notation toUInt8 := Z.b2z.
Definition is_type (ty : EventType) (r : Row) : bool := bool_decide (Row_EventType r = ty).
Definition active (r : Row) : bool := Metrics.isActivity (Row_EventType r).

(** [session_metric_rows]. *)
Record MetricRow := mkMetricRow {
  mr_company : string;
  mr_interview : string;
  mr_session : string;
  mr_sequence : Z;
  mr_type : EventType;
  mr_occurred : time;
  prompt : Z;
  ai_response : Z;
  ai_error : Z;
  ai_input_tokens : Z;
  ai_output_tokens : Z;
  run_requested : Z;
  run_completed : Z;
  run_succeeded : Z;
  run_status : string;
  diff : Z;
  ai_diff : Z;
  lines_added : Z;
  lines_removed : Z;
  ai_lines_added : Z;
  mr_ingested : time;
}.
(** [billing_usage_rows]. *)
Record BillingRow := mkBillingRow {
  br_company : string;
  br_period : Z;
  br_interview : string;
  br_sequence : Z;
  br_session_started : Z;
  br_ai_mode : string;
  br_ai_input_tokens : Z;
  br_ai_output_tokens : Z;
  br_run_requested : Z;
  br_run_duration_ms : Z;
  br_ingested : time;
}.
Definition metric_key (x : MetricRow) : event_key := (mr_company x, mr_interview x, mr_sequence x).
Definition billing_key (x : BillingRow) : string * Z * string * Z := (br_company x, br_period x, br_interview x, br_sequence x).

(** [task_daily] by company, day and event type: the distinct events and
    interviews. *)
Definition task_key : Type := string * Z * EventType.
Record TaskState := mkTaskState { task_events : gset (string * Z); task_interviews : gset string }.
Definition task_union (a b : TaskState) : TaskState :=
  mkTaskState (task_events a ∪ task_events b) (task_interviews a ∪ task_interviews b).

(** [funnel_interviews] by company and interview. *)
Record FunnelState := mkFunnelState { first_at : time; started : Z; prompted : Z; ran : Z; funnel_succeeded : Z; submitted : Z; expired : Z }.
Definition funnel_merge (a b : FunnelState) : FunnelState :=
  mkFunnelState (Z.min (first_at a) (first_at b)) (Z.max (started a) (started b)) (Z.max (prompted a) (prompted b))
    (Z.max (ran a) (ran b)) (Z.max (funnel_succeeded a) (funnel_succeeded b)) (Z.max (submitted a) (submitted b)) (Z.max (expired a) (expired b)).

Section Select.
Context `{ch : ClickHouse}.

(** The SELECT of [mv_session_metrics]; [WHERE] leaves the rest out. *)
Definition metric_row (r : Row) : option MetricRow :=
  session ← Row_SessionID r;
  if active r then
    let str := JSONExtractString (Row_Payload r) in
    let int := JSONExtractInt (Row_Payload r) in
    let response := is_type EventTypeAIResponseCompleted r in
    let completed := is_type EventTypeExecutionCompleted r in
    let diff := is_type EventTypeCodeDiff r in
    let ai_diff := diff && bool_decide (str "origin"%string = DiffOriginAIApplied) in
    Some (mkMetricRow (Row_CompanyID r) (Row_InterviewID r) session (Row_SequenceNumber r) (Row_EventType r) (Row_OccurredAt r)
      (toUInt8 (is_type EventTypePromptSubmitted r))
      (toUInt8 response)
      (toUInt8 (response && bool_decide (str "status"%string = AIResponseStatusError)))
      (if response then int "input_tokens"%string else 0)
      (if response then int "output_tokens"%string else 0)
      (toUInt8 (is_type EventTypeExecutionRequested r))
      (toUInt8 completed)
      (toUInt8 (completed && bool_decide (str "status"%string = ExecutionStatusSucceeded)))
      (if completed then str "status"%string else ""%string)
      (toUInt8 diff)
      (toUInt8 ai_diff)
      (if diff then int "lines_added"%string else 0)
      (if diff then int "lines_removed"%string else 0)
      (if ai_diff then int "lines_added"%string else 0)
      (IngestedAt r))
  else None.

(** [mv_billing_usage]. *)
Definition billable (r : Row) : bool :=
  is_type EventTypeSessionStarted r || is_type EventTypeAIResponseCompleted r || is_type EventTypeExecutionRequested r || is_type EventTypeExecutionCompleted r.
Definition billing_row (r : Row) : option BillingRow :=
  if billable r then
    let int := JSONExtractInt (Row_Payload r) in
    let mode := if is_type EventTypeAIResponseCompleted r then JSONExtractString (Row_Payload r) "mode" else ""%string in
    let managed := negb (bool_decide (mode = ""%string)) in
    Some (mkBillingRow (Row_CompanyID r) (toStartOfMonth (Row_OccurredAt r)) (Row_InterviewID r) (Row_SequenceNumber r)
      (toUInt8 (is_type EventTypeSessionStarted r)) mode
      (if managed then int "input_tokens"%string else 0)
      (if managed then int "output_tokens"%string else 0)
      (toUInt8 (is_type EventTypeExecutionRequested r))
      (if is_type EventTypeExecutionCompleted r then int "duration_ms"%string else 0)
      (IngestedAt r))
  else None.

(** [mv_task_daily]: a state per group of the block. *)
Definition task_row (r : Row) : option (task_key * TaskState) :=
  if active r then
    Some ((Row_CompanyID r, toDate (Row_OccurredAt r), Row_EventType r),
          mkTaskState {[(Row_InterviewID r, Row_SequenceNumber r)]} {[Row_InterviewID r]})
  else None.
Definition task_rows (block : list Row) : list (task_key * TaskState) := map_to_list (merged task_union (omap task_row block)).

(** [mv_funnel]. *)
Definition funnel_row (r : Row) : option ((string * string) * FunnelState) :=
  if active r then
    Some ((Row_CompanyID r, Row_InterviewID r),
      mkFunnelState (Row_OccurredAt r) (toUInt8 (is_type EventTypeSessionStarted r)) (toUInt8 (is_type EventTypePromptSubmitted r))
        (toUInt8 (is_type EventTypeExecutionRequested r))
        (toUInt8 (is_type EventTypeExecutionCompleted r && bool_decide (JSONExtractString (Row_Payload r) "status" = ExecutionStatusSucceeded)))
        (toUInt8 (is_type EventTypeSessionSubmitted r)) (toUInt8 (is_type EventTypeSessionExpired r)))
  else None.
End Select.

(** ** The database *)
Inductive select := SelectMetrics | SelectTasks | SelectFunnel | SelectBilling.
Record View := mkView { Name : string; Target : string; Select : select }.
Definition Views : list View := [
  mkView "mv_session_metrics" "session_metric_rows" SelectMetrics; mkView "mv_task_daily" "task_daily" SelectTasks;
  mkView "mv_funnel" "funnel_interviews" SelectFunnel; mkView "mv_billing_usage" "billing_usage_rows" SelectBilling].
Definition QueryViews : list string := ["v_session_metrics"; "v_task_daily"; "v_funnel"; "v_billing_usage"]%string.

(** [tables] are the names in [system.tables]. *)
Record Warehouse := mkWarehouse {
  events : list Row;
  tables : gset string;
  metric_table : list MetricRow;
  task_table : list (task_key * TaskState);
  funnel_table : list ((string * string) * FunnelState);
  billing_table : list BillingRow;
}.

Inductive statement :=
  | CreateTable (target : string)
  | CreateMaterializedView (view : View)
  | Backfill (view : View)
  | CreateQueryView (name : string).
Definition Statements (v : View) : list statement := [CreateTable (Target v); CreateMaterializedView v].

Section Database.
Context `{ch : ClickHouse}.

(** The rows of a block, inserted into the view's target. *)
Definition fire (s : select) (block : list Row) (w : Warehouse) : Warehouse :=
  match s with
  | SelectMetrics => mkWarehouse (events w) (tables w) (metric_table w ++ omap metric_row block) (task_table w) (funnel_table w) (billing_table w)
  | SelectTasks => mkWarehouse (events w) (tables w) (metric_table w) (task_table w ++ task_rows block) (funnel_table w) (billing_table w)
  | SelectFunnel => mkWarehouse (events w) (tables w) (metric_table w) (task_table w) (funnel_table w ++ omap funnel_row block) (billing_table w)
  | SelectBilling => mkWarehouse (events w) (tables w) (metric_table w) (task_table w) (funnel_table w) (billing_table w ++ omap billing_row block)
  end.
Definition create (name : string) (w : Warehouse) : Warehouse :=
  mkWarehouse (events w) ({[name]} ∪ tables w) (metric_table w) (task_table w) (funnel_table w) (billing_table w).
Definition apply (s : statement) (w : Warehouse) : Warehouse :=
  match s with
  | CreateTable name | CreateQueryView name => create name w
  | CreateMaterializedView v => create (Name v) w
  | Backfill v => fire (Select v) (events w) w
  end.
Definition exists_table (name : string) (w : Warehouse) : bool := bool_decide (name ∈ tables w).

(** A block inserted into [events] fires the views there are. *)
Definition insert_block (block : list Row) (w : Warehouse) : Warehouse :=
  foldl (λ w v, if exists_table (Name v) w then fire (Select v) block w else w)
    (mkWarehouse (events w ++ block) (tables w) (metric_table w) (task_table w) (funnel_table w) (billing_table w)) Views.

(** ** Migrate *)
Definition tableExists (name : string) : M Warehouse bool := wrapM ("analytics: check " +:+ name) (query (exists_table name)).
(** A backfill that fails may have inserted a part of its rows. *)
Definition run_statement (msg : string) (s : statement) : M Warehouse () := λ fs w,
  match s with
  | Backfill v => wrapM msg (batch (fire (Select v)) (events w)) fs w
  | _ => wrapM msg (exec (apply s)) fs w
  end.
Fixpoint run_statements (msg : string) (l : list statement) : M Warehouse () :=
  match l with [] => mret () | s :: l => run_statement msg s;; run_statements msg l end.
(** One round of the loop; whether the view was created. *)
Definition migrate_view (v : View) : M Warehouse bool :=
  exists_ ← tableExists (Name v);
  run_statements ("analytics: create " +:+ Name v) (Statements v);;
  if exists_ : bool then mret false
  else run_statement ("analytics: backfill " +:+ Name v) (Backfill v);; mret true.
Fixpoint migrate_views (views : list View) (created : list string) (fs : script) (w : Warehouse) : (list string * option error) * script * Warehouse :=
  match views with
  | [] => (created, None, fs, w)
  | v :: views =>
      match migrate_view v fs w with
      | (Err e, fs, w) => (created, Some e, fs, w)
      | (Ok new, fs, w) => migrate_views views (if new : bool then created ++ [Name v] else created) fs w
      end
  end.
(** The names of the created views are returned with an error too. *)
Definition Migrate (fs : script) (w : Warehouse) : (list string * option error) * script * Warehouse :=
  match migrate_views Views [] fs w with
  | (created, Some e, fs, w) => (created, Some e, fs, w)
  | (created, None, fs, w) =>
      match run_statements "analytics: create query view" (map CreateQueryView QueryViews) fs w with
      | (Err e, fs, w) => (created, Some e, fs, w)
      | (Ok _, fs, w) => (created, None, fs, w)
      end
  end.
End Database.

(** ** The query views

    Sums of UInt8 are UInt64 read as Int64; sums of Int64 wrap.  A group is
    never empty. *)
Definition sum_of {A} (f : A → Z) (rows : list A) : Z := foldr (λ r z, f r + z) 0 rows.
Definition sum_int64 {A} (f : A → Z) (rows : list A) : Z := wrap64 (sum_of f rows).
Definition sum_uint8 {A} (f : A → Z) (rows : list A) : Z := wrap64 (sum_of f rows mod two64).
Definition min_of {A} (f : A → Z) (rows : list A) : Z := match rows with [] => 0 | r :: rows => foldr (λ r m, Z.min (f r) m) (f r) rows end.
Definition max_of {A} (f : A → Z) (rows : list A) : Z := match rows with [] => 0 | r :: rows => foldr (λ r m, Z.max (f r) m) (f r) rows end.
(** [argMaxIf(value, by, cond)]. *)
Definition argMaxIf {A B} (value : A → B) (by_ : A → Z) (cond : A → bool) (rows : list A) : option B :=
  snd <$> foldr (λ r acc, if cond r then
                            match acc with
                            | Some (n, _) => if n <? by_ r then Some (by_ r, value r) else acc
                            | None => Some (by_ r, value r)
                            end
                          else acc) None rows.

(** [v_session_metrics]: the columns of a group. *)
Definition session_metrics (g : list MetricRow) : Metrics.Metrics :=
  let requested := List.filter (λ r, run_requested r =? 1) g in
  Metrics.mkMetrics (sum_uint8 prompt g) (sum_uint8 ai_response g) (sum_uint8 ai_error g)
    (sum_int64 ai_input_tokens g) (sum_int64 ai_output_tokens g)
    (sum_uint8 run_completed g) (sum_uint8 run_succeeded g)
    (default ""%string (argMaxIf run_status mr_sequence (λ r, run_completed r =? 1) g))
    (sum_uint8 diff g) (sum_uint8 ai_diff g) (sum_int64 lines_added g) (sum_int64 lines_removed g) (sum_int64 ai_lines_added g)
    (sub64 (unix_milli (max_of mr_occurred g)) (unix_milli (min_of mr_occurred g)))
    (match requested with
     | [] => None
     | _ => Some (sub64 (unix_milli (min_of mr_occurred requested)) (unix_milli (min_of mr_occurred g)))
     end).
Definition group {A B} (f : list A → B) (p : A → bool) (rows : list A) : option B :=
  match List.filter p rows with [] => None | g => Some (f g) end.
Definition table_final {A K} `{Countable K} (key : A → K) (version : A → time) (rows : list A) : list A :=
  map snd (map_to_list (MergeTree.final_rows key version rows)).
Definition of_session (company interview session : string) (r : MetricRow) : bool :=
  bool_decide (mr_company r = company) && bool_decide (mr_interview r = interview) && bool_decide (mr_session r = session).
Definition v_session_metrics (company interview session : string) (w : Warehouse) : option Metrics.Metrics :=
  group session_metrics (of_session company interview session) (table_final metric_key mr_ingested (metric_table w)).

(** [v_task_daily]. *)
Record TaskDaily := mkTaskDaily { sessions_started : Z; sessions_submitted : Z; sessions_expired : Z; prompts : Z; runs : Z; diffs : Z }.
Definition v_task_daily (company : string) (day : Z) (w : Warehouse) : option TaskDaily :=
  let count ty := sum_uint8 (λ g : task_key * TaskState, if bool_decide (g.1.2 = ty) then Z.of_nat (size (task_events g.2)) else 0) in
  group (λ g, mkTaskDaily (count EventTypeSessionStarted g) (count EventTypeSessionSubmitted g) (count EventTypeSessionExpired g)
                (count EventTypePromptSubmitted g) (count EventTypeExecutionRequested g) (count EventTypeCodeDiff g))
    (λ g, bool_decide (g.1.1 = (company, day))) (map_to_list (merged task_union (task_table w))).

(** [v_funnel]. *)
Record Funnel := mkFunnel {
  funnel_interviews : Z; funnel_started : Z; funnel_prompted : Z; funnel_ran : Z; funnel_run_succeeded : Z; funnel_submitted : Z; funnel_expired : Z }.
Definition v_funnel `{ClickHouse} (company : string) (cohort_day : Z) (w : Warehouse) : option Funnel :=
  group (λ g : list ((string * string) * FunnelState), let stage f := sum_uint8 (λ x, f x.2) g in
    mkFunnel (Z.of_nat (length g)) (stage started) (stage prompted) (stage ran) (stage funnel_succeeded) (stage submitted) (stage expired))
    (λ x, bool_decide (x.1.1 = company) && (toDate (first_at x.2) =? cohort_day)) (map_to_list (merged funnel_merge (funnel_table w))).

(** [v_billing_usage]: what [ClickHouseUsage.Usage] reads. *)
Definition v_billing_usage (company : string) (period : Z) (w : Warehouse) : option Usage :=
  group (λ g, let tokens f mode := sum_int64 f (List.filter (λ r, bool_decide (br_ai_mode r = mode)) g) in
    mkUsage (sum_uint8 br_session_started g) (tokens br_ai_input_tokens "managed") (tokens br_ai_output_tokens "managed")
      (tokens br_ai_input_tokens "byok") (tokens br_ai_output_tokens "byok") (sum_uint8 br_run_requested g) (sum_int64 br_run_duration_ms g))
    (λ r, bool_decide (br_company r = company) && (br_period r =? period)) (table_final billing_key br_ingested (billing_table w)).

(** ** Histories *)
Inductive warehouse_op :=
  | Inserted (block : list Row)
  | Ran (s : statement)
  | Migrated (fs : script)
  | MergedEvents (i : nat)
  | MergedMetrics (i : nat)
  | MergedTasks (i j : nat)
  | MergedFunnel (i j : nat)
  | MergedBilling (i : nat).
Definition exec_warehouse `{ClickHouse} (o : warehouse_op) (w : Warehouse) : Warehouse :=
  match o with
  | Inserted block => insert_block block w
  | Ran s => apply s w
  | Migrated fs => (Migrate fs w).2
  | MergedEvents i => mkWarehouse (merge_at i (events w)) (tables w) (metric_table w) (task_table w) (funnel_table w) (billing_table w)
  | MergedMetrics i => mkWarehouse (events w) (tables w) (MergeTree.merge_at metric_key mr_ingested i (metric_table w)) (task_table w) (funnel_table w) (billing_table w)
  | MergedTasks i j => mkWarehouse (events w) (tables w) (metric_table w) (combine_at task_union i j (task_table w)) (funnel_table w) (billing_table w)
  | MergedFunnel i j => mkWarehouse (events w) (tables w) (metric_table w) (task_table w) (combine_at funnel_merge i j (funnel_table w)) (billing_table w)
  | MergedBilling i => mkWarehouse (events w) (tables w) (metric_table w) (task_table w) (funnel_table w) (MergeTree.merge_at billing_key br_ingested i (billing_table w))
  end.
Definition warehouse_history `{ClickHouse} (ops : list warehouse_op) (w : Warehouse) : Warehouse := foldl (λ w o, exec_warehouse o w) w ops.

(** ** What a view has seen *)
Definition strip (r : Row) : Row := with_ingested 0 r.
Definition strip_metric (x : MetricRow) : MetricRow :=
  mkMetricRow (mr_company x) (mr_interview x) (mr_session x) (mr_sequence x) (mr_type x) (mr_occurred x) (prompt x) (ai_response x)
    (ai_error x) (ai_input_tokens x) (ai_output_tokens x) (run_requested x) (run_completed x) (run_succeeded x) (run_status x) (diff x)
    (ai_diff x) (lines_added x) (lines_removed x) (ai_lines_added x) 0.
Definition strip_billing (x : BillingRow) : BillingRow :=
  mkBillingRow (br_company x) (br_period x) (br_interview x) (br_sequence x) (br_session_started x) (br_ai_mode x) (br_ai_input_tokens x)
    (br_ai_output_tokens x) (br_run_requested x) (br_run_duration_ms x) 0.
Definition same {A} (a b : list A) : Prop := ∀ x, x ∈ a ↔ x ∈ b.
#[export] Instance same_equiv {A} : Equivalence (@same A).
Proof. split; [intros a x|intros a b H x|intros a b c H1 H2 x]; [done|by rewrite (H x)|by rewrite (H1 x), (H2 x)]. Qed.
#[export] Instance same_app {A} : Proper (same ==> same ==> same) (@app A).
Proof. intros a a' Ha b b' Hb x. by rewrite !elem_of_app, (Ha x), (Hb x). Qed.
#[export] Instance same_map {A B} (f : A → B) : Proper (same ==> same) (map f).
Proof. intros a b H x. rewrite !list_elem_of_fmap. by setoid_rewrite (H _). Qed.
#[export] Instance same_omap {A B} (f : A → option B) : Proper (same ==> same) (omap f).
Proof. intros a b H x. rewrite !list_elem_of_omap. by setoid_rewrite (H _). Qed.
Lemma same_subset {A} (a b : list A) : (∀ x, x ∈ a → x ∈ b) → same (b ++ a) b.
Proof. intros H x. rewrite elem_of_app. naive_solver. Qed.

(** Copies of a key differ in when they were ingested only. *)
Definition keyed {A B K} (key : A → K) (strip : A → B) (l : list A) : Prop := ∀ x y, x ∈ l → y ∈ l → key x = key y → strip x = strip y.

Section Keyed.
Context {A B K : Type} `{Countable K} (key : A → K) (version : A → time) (strip : A → B).
(** A merge drops no content. *)
Lemma merge_same i l : keyed key strip l → same (map strip (MergeTree.merge_at key version i l)) (map strip l).
Proof.
  intros Hk s. split.
  - intros (x & -> & Hx)%list_elem_of_fmap. apply list_elem_of_fmap_2. by eapply MergeTree.merge_subset.
  - intros (x & -> & Hx)%list_elem_of_fmap. assert (Hd : ∃ y, y ∈ MergeTree.merge_at key version i l ∧ key y = key x).
    { apply (MergeTree.final_dom key version). rewrite MergeTree.merge_final. apply MergeTree.final_dom. by exists x. }
    destruct Hd as (y & Hy & E). apply list_elem_of_fmap. exists y. split; [|done]. symmetry. apply Hk; [|done|done]. by eapply MergeTree.merge_subset.
Qed.
(** [FINAL] shows every content once. *)
Lemma table_final_in l x : x ∈ table_final key version l → x ∈ l.
Proof.
  intros ([k y] & -> & Hy%elem_of_map_to_list)%list_elem_of_fmap. cbn. rewrite MergeTree.final_lookup in Hy.
  by apply MergeTree.newest_of_some in Hy as [? _].
Qed.
Lemma table_final_same l : keyed key strip l → same (map strip (table_final key version l)) (map strip l).
Proof.
  intros Hk s. split; intros (x & -> & Hx)%list_elem_of_fmap; [by apply list_elem_of_fmap_2, table_final_in|].
  destruct (proj2 (MergeTree.final_dom key version l (key x))) as [y Hy]; [by exists x|].
  apply list_elem_of_fmap. exists y. pose proof Hy as Hyk. rewrite MergeTree.final_lookup in Hyk. apply MergeTree.newest_of_some in Hyk as [Hin E].
  split; [by symmetry; apply Hk|]. apply list_elem_of_fmap. exists (key x, y). split; [done|]. by apply elem_of_map_to_list.
Qed.
Lemma table_final_keys l : NoDup (map key (table_final key version l)).
Proof.
  unfold table_final. assert (E : map key (map snd (map_to_list (MergeTree.final_rows key version l))) = map fst (map_to_list (MergeTree.final_rows key version l))).
  { rewrite map_map. apply map_ext_in. intros [k y] Hy%list_elem_of_In%elem_of_map_to_list. cbn.
    rewrite MergeTree.final_lookup in Hy. by apply MergeTree.newest_of_some in Hy as [_ ?]. }
  rewrite E. apply NoDup_fst_map_to_list.
Qed.
End Keyed.

#[export] Instance task_semilattice : Semilattice task_union.
Proof.
  split; [split; [intros [??] [??] [??]|intros [??] [??]]|intros [??]]; unfold task_union; cbn; f_equal; set_solver.
Qed.
#[export] Instance funnel_semilattice : Semilattice funnel_merge.
Proof.
  split; [split; [intros [???????] [???????] [???????]|intros [???????] [???????]]|intros [???????]]; unfold funnel_merge; cbn; f_equal; lia.
Qed.

Section Following.
Context `{ch : ClickHouse}.

Lemma metric_row_strip r : metric_row (strip r) = strip_metric <$> metric_row r.
Proof.
  unfold metric_row. cbn [strip with_ingested Row_SessionID]. destruct (Row_SessionID r); [|done]. cbn [mbind option_bind].
  change (active (strip r)) with (active r). by destruct (active r).
Qed.
Lemma billing_row_strip r : billing_row (strip r) = strip_billing <$> billing_row r.
Proof. unfold billing_row. change (billable (strip r)) with (billable r). by destruct (billable r). Qed.
Lemma omap_strip {A B} (f : Row → option A) (g : A → B) (h : Row → option B) l :
  (∀ r, h (strip r) = g <$> f r) → omap h (map strip l) = map g (omap f l).
Proof. intros Hf. induction l as [|r l IH]; [done|]. cbn. rewrite Hf. destruct (f r); cbn; [by f_equal|done]. Qed.
Lemma omap_strip_same {A} (f : Row → option A) l : (∀ r, f (strip r) = f r) → omap f (map strip l) = omap f l.
Proof. intros Hf. induction l as [|r l IH]; [done|]. cbn. rewrite Hf. destruct (f r); by rewrite IH. Qed.

(** The view's target holds what its query makes of the events [J]. *)
Definition follows (s : select) (J : list Row) (w : Warehouse) : Prop :=
  match s with
  | SelectMetrics => same (map strip_metric (metric_table w)) (omap metric_row J)
  | SelectTasks => merged task_union (task_table w) = merged task_union (omap task_row J)
  | SelectFunnel => merged funnel_merge (funnel_table w) = merged funnel_merge (omap funnel_row J)
  | SelectBilling => same (map strip_billing (billing_table w)) (omap billing_row J)
  end.
#[export] Instance follows_same s : Proper (same ==> eq ==> iff) (follows s).
Proof.
  assert (H : ∀ J1 J2 w, same J1 J2 → follows s J1 w → follows s J2 w).
  { intros J1 J2 w HJ. destruct s; cbn [follows]; intros H.
    - by rewrite H, HJ.
    - rewrite H. apply (merged_same task_union); intros x Hx; by apply (same_omap task_row _ _ HJ x).
    - rewrite H. apply (merged_same funnel_merge); intros x Hx; by apply (same_omap funnel_row _ _ HJ x).
    - by rewrite H, HJ. }
  intros J1 J2 HJ w ? <-. split; apply H; [done|by symmetry].
Qed.
Lemma omap_app {A B} (f : A → option B) a b : omap f (a ++ b) = omap f a ++ omap f b.
Proof. induction a as [|x a IH]; [done|]. cbn. destruct (f x); cbn; by rewrite IH. Qed.
Lemma fire_follows s J block w : follows s J w → follows s (J ++ map strip block) (fire s block w).
Proof.
  destruct s; cbn [follows fire metric_table task_table funnel_table billing_table]; rewrite ?map_app, ?omap_app.
  - intros E. rewrite E. by rewrite (omap_strip metric_row strip_metric metric_row _ metric_row_strip).
  - intros E. rewrite (omap_strip_same task_row) by done. apply (merged_app_same task_union); [done|]. apply (merged_grouped task_union).
  - intros E. rewrite (omap_strip_same funnel_row) by done. by apply (merged_app_same funnel_merge).
  - intros E. rewrite E. by rewrite (omap_strip billing_row strip_billing billing_row _ billing_row_strip).
Qed.
Lemma fire_other s s' J block w : s ≠ s' → follows s' J w → follows s' J (fire s block w).
Proof. by destruct s, s'. Qed.
Lemma fire_log s block w : events (fire s block w) = events w ∧ tables (fire s block w) = tables w.
Proof. by destruct s. Qed.

(** The events inserted, as [I]; every target has seen some of them. *)
Record tracked (I : list Row) (w : Warehouse) : Prop := {
  tr_events : same (map strip (events w)) I;
  tr_within : ∀ s, ∃ J, J ⊆ I ∧ follows s J w;
}.
(** A view that has seen them all and will see the next. *)
Definition live (v : View) (I : list Row) (w : Warehouse) : Prop := Name v ∈ tables w ∧ follows (Select v) I w.
#[export] Instance select_eq : EqDecision select.
Proof. solve_decision. Defined.

Lemma tracked_fire s block I w : (∀ r, r ∈ block → strip r ∈ I) → tracked I w → tracked I (fire s block w).
Proof.
  intros Hb [He Hw]. destruct (fire_log s block w) as [E _]. split; [by rewrite E|]. intros s'. destruct (Hw s') as (J & HJ & Hf).
  destruct (decide (s = s')) as [<-|Hne]; [|exists J; split; [done|by apply fire_other]].
  exists (J ++ map strip block). split; [|by apply fire_follows].
  intros r [Hr|(x & -> & Hx)%list_elem_of_fmap]%elem_of_app; [by apply HJ|by apply Hb].
Qed.
Lemma live_fire s block v I w : (∀ r, r ∈ block → strip r ∈ I) → live v I w → live v I (fire s block w).
Proof.
  intros Hb [Hn Hf]. destruct (fire_log s block w) as [_ E]. split; [by rewrite E|].
  destruct (decide (s = Select v)) as [->|Hne]; [|by apply fire_other].
  assert (HI : same (I ++ map strip block) I).
  { apply same_subset. intros r (x & -> & Hx)%list_elem_of_fmap. by apply Hb. }
  rewrite <-HI. by apply fire_follows.
Qed.

(** What every statement keeps. *)
Definition keeps (I : list Row) (w w' : Warehouse) : Prop :=
  events w' = events w ∧ tables w ⊆ tables w' ∧ (tracked I w → tracked I w' ∧ ∀ v, live v I w → live v I w').
#[export] Instance keeps_preorder I : PreOrder (keeps I).
Proof.
  split; [by intros w; split_and!|]. intros a b c (E1 & S1 & H1) (E2 & S2 & H2). split_and!; [congruence|set_solver|].
  intros Ht. destruct (H1 Ht) as [Hb Hl1]. destruct (H2 Hb) as [Hc Hl2]. split; [done|]. intros v Hv. by apply Hl2, Hl1.
Qed.
Lemma keeps_create I name w : keeps I w (create name w).
Proof.
  split_and!; [done|cbn; set_solver|]. intros [He Hw]. split; [by split|]. intros v [Hn Hf]. split; [cbn; set_solver|]. by destruct v as [?? []].
Qed.
Lemma keeps_fire I s block w : (∀ r, r ∈ block → r ∈ events w) → keeps I w (fire s block w).
Proof.
  intros Hb. destruct (fire_log s block w) as [E1 E2]. split_and!; [done|by rewrite E2|]. intros Ht.
  assert (HI : ∀ r, r ∈ block → strip r ∈ I).
  { intros r Hr. apply (tr_events _ _ Ht), list_elem_of_fmap_2. by apply Hb. }
  split; [by apply tracked_fire|]. intros v. by apply live_fire.
Qed.
Lemma keeps_apply I s w : keeps I w (apply s w).
Proof. destruct s; cbn [apply]; [apply keeps_create..|by apply keeps_fire|apply keeps_create]. Qed.
Lemma keeps_statement I msg s : stays (keeps I) (run_statement msg s).
Proof.
  unfold stays. intros fs w. destruct s as [name|v|v|name]; cbn [run_statement]; unfold run_statement, state_after.
  1, 2, 4: match goal with |- keeps _ _ (wrapM ?msg (exec ?f) _ _).2 => apply (stays_wrapM (keeps I) msg (exec f)) end;
    apply stays_exec; [apply _|intros; apply keeps_apply].
  unfold wrapM, batch. destruct fs as [|[| | |kept e] fs]; cbn [snd]; try apply keeps_fire; [done|done|reflexivity|done|].
  intros r. apply select_subset.
Qed.
Lemma keeps_statements I msg l : stays (keeps I) (run_statements msg l).
Proof. induction l as [|s l IH]; cbn; [apply stays_ret; apply _|]. apply stays_bind; [apply _|apply keeps_statement|done]. Qed.
Lemma keeps_migrate I fs w : keeps I w (Migrate fs w).2.
Proof.
  assert (Hv : ∀ v, stays (keeps I) (migrate_view v)).
  { intros v. unfold migrate_view. apply stays_bind; [apply _|apply stays_wrapM, stays_query; apply _|]. intros ex.
    apply stays_bind; [apply _|apply keeps_statements|]. intros _. destruct ex; [apply stays_ret; apply _|].
    apply stays_bind; [apply _|apply keeps_statement|]. intros _. apply stays_ret; apply _. }
  assert (Hvs : ∀ views created fs w, keeps I w (migrate_views views created fs w).2).
  { induction views as [|v views IH]; intros created fs1 w1; [cbn; reflexivity|]. cbn. specialize (Hv v fs1 w1). unfold state_after in Hv.
    destruct (migrate_view v fs1 w1) as [[[new|e] fs2] w2]; [|exact Hv]. etrans; [exact Hv|apply IH]. }
  unfold Migrate. specialize (Hvs Views [] fs w). destruct (migrate_views Views [] fs w) as [[[created [e|]] fs1] w1]; [exact Hvs|].
  cbn in Hvs. pose proof (keeps_statements I "analytics: create query view" (map CreateQueryView QueryViews) fs1 w1) as Hq. unfold state_after in Hq.
  destruct (run_statements _ _ fs1 w1) as [[[|] fs2] w2]; cbn in *; by etrans.
Qed.

(** *** Histories *)
Lemma same_agree I J : same I J → keyed row_key id J → keyed row_key id I.
Proof. intros HI HJ a b Ha%HI Hb%HI. by apply HJ. Qed.
Lemma keyed_strip {A K} (key : A → K) (st : A → A) (row : Row → option A) (l : list A) J I :
  (∀ x, key (st x) = key x) → (∀ r x, row r = Some x → ∀ r' x', row r' = Some x' → key x = key x' → row_key r = row_key r') →
  J ⊆ I → keyed row_key id I → same (map st l) (omap row J) → keyed key st l.
Proof.
  intros Hst Hrow HJ HI Hl x y Hx Hy E.
  assert (Hr : ∀ x, x ∈ l → ∃ r, r ∈ J ∧ row r = Some (st x)).
  { intros z Hz. apply list_elem_of_omap, Hl. by apply list_elem_of_fmap_2. }
  destruct (Hr x Hx) as (r & Hr1 & Hr2). destruct (Hr y Hy) as (r' & Hr1' & Hr2').
  assert (r = r') by (apply HI; [by apply HJ..|]; eapply Hrow; [done..|]; by rewrite !Hst). congruence.
Qed.
Lemma metric_row_key r x : metric_row r = Some x → metric_key x = row_key r.
Proof. unfold metric_row. intros (s & _ & H)%bind_Some. destruct (active r); by simplify_eq. Qed.
Lemma billing_row_key r x : billing_row r = Some x → (br_company x, br_interview x, br_sequence x) = row_key r.
Proof. unfold billing_row. destruct (billable r); intros; by simplify_eq. Qed.
Lemma metrics_keyed I w : tracked I w → keyed row_key id I → keyed metric_key strip_metric (metric_table w).
Proof.
  intros Ht HI. destruct (tr_within _ _ Ht SelectMetrics) as (J & HJ & Hf).
  apply (keyed_strip metric_key strip_metric metric_row _ J I); [done| |done..].
  intros r x Hr r' x' Hr' E. by rewrite <-(metric_row_key r x), <-(metric_row_key r' x').
Qed.
Lemma billing_keyed I w : tracked I w → keyed row_key id I → keyed billing_key strip_billing (billing_table w).
Proof.
  intros Ht HI. destruct (tr_within _ _ Ht SelectBilling) as (J & HJ & Hf).
  apply (keyed_strip billing_key strip_billing billing_row _ J I); [done| |done..].
  intros r x Hr r' x' Hr' E. rewrite <-(billing_row_key r x), <-(billing_row_key r' x') by done. unfold billing_key in E. congruence.
Qed.
Lemma events_keyed I w : tracked I w → keyed row_key id I → keyed row_key strip (events w).
Proof.
  intros Ht HI x y Hx Hy E. apply (HI (strip x) (strip y)); [..|done]; by apply (tr_events _ _ Ht), list_elem_of_fmap_2.
Qed.

Definition inserted_rows (o : warehouse_op) : list Row := match o with Inserted block => block | _ => [] end.
Definition all_live (I : list Row) (w : Warehouse) : Prop := tracked I w ∧ ∀ v, v ∈ Views → live v I w.
Lemma insert_log block w : events (insert_block block w) = events w ++ block ∧ tables (insert_block block w) = tables w.
Proof.
  unfold insert_block. set (w1 := mkWarehouse _ _ _ _ _ _).
  assert (H : ∀ vs w, events (foldl (λ w v, if exists_table (Name v) w then fire (Select v) block w else w) w vs) = events w ∧
    tables (foldl (λ w v, if exists_table (Name v) w then fire (Select v) block w else w) w vs) = tables w).
  { induction vs as [|v vs IH]; intros u; [done|]. cbn. destruct (IH (if exists_table (Name v) u then fire (Select v) block u else u)) as [-> ->].
    destruct (exists_table _ _); [apply fire_log|done]. }
  apply (H Views w1).
Qed.
Lemma insert_live block I w : all_live I w → all_live (I ++ map strip block) (insert_block block w).
Proof.
  intros [Ht Hl]. destruct (insert_log block w) as [He Hn].
  set (w1 := mkWarehouse (events w ++ block) (tables w) (metric_table w) (task_table w) (funnel_table w) (billing_table w)).
  assert (Hfold : ∀ vs u, tables u = tables w → vs ⊆ Views →
    foldl (λ w v, if exists_table (Name v) w then fire (Select v) block w else w) u vs = foldl (λ w v, fire (Select v) block w) u vs).
  { induction vs as [|v vs IH]; intros u Hu Hvs; [done|]. cbn [foldl]. unfold exists_table at 2.
    rewrite bool_decide_eq_true_2 by (rewrite Hu; apply Hl, Hvs; by left).
    apply IH; [by rewrite (proj2 (fire_log _ _ _))|intros x Hx; apply Hvs; by right]. }
  assert (Hf : ∀ v, v ∈ Views → follows (Select v) (I ++ map strip block) (insert_block block w)).
  { intros v Hv. unfold insert_block. rewrite Hfold by done. fold w1.
    assert (H1 : follows (Select v) I w1) by (destruct (Hl v Hv) as [_ H]; by destruct (Select v)).
    destruct v as [n t []]; cbn [foldl Views Select] in *; repeat (first [apply fire_other; [done|]|apply fire_follows]); done. }
  split.
  - split; [by rewrite He, map_app, (tr_events _ _ Ht)|]. intros s. exists (I ++ map strip block). split; [done|].
    destruct s; [apply (Hf (mkView "mv_session_metrics" "session_metric_rows" SelectMetrics))|apply (Hf (mkView "mv_task_daily" "task_daily" SelectTasks))
      |apply (Hf (mkView "mv_funnel" "funnel_interviews" SelectFunnel))|apply (Hf (mkView "mv_billing_usage" "billing_usage_rows" SelectBilling))];
      apply list_elem_of_In; cbn; tauto.
  - intros v Hv. split; [rewrite Hn; by apply Hl|by apply Hf].
Qed.

Lemma op_live o I w : keyed row_key id I → all_live I w → all_live (I ++ map strip (inserted_rows o)) (exec_warehouse o w).
Proof.
  intros HI [Ht Hl]. destruct o as [block|s|fs|i|i|i j|i j|i]; cbn [inserted_rows exec_warehouse]; [by apply insert_live|rewrite app_nil_r..].
  - destruct (keeps_apply I s w) as (_ & _ & H). destruct (H Ht) as [H1 H2]. split; [done|]. intros v Hv. by apply H2, Hl.
  - destruct (keeps_migrate I fs w) as (_ & _ & H). destruct (H Ht) as [H1 H2]. split; [done|]. intros v Hv. by apply H2, Hl.
  - split; [|intros v Hv; destruct (Hl v Hv) as [? H]; split; [done|by destruct (Select v)]].
    split; [|intros s; destruct (tr_within _ _ Ht s) as (J & ? & Hf); exists J; split; [done|by destruct s]].
    cbn [events]. rewrite merge_same; [apply Ht|by apply events_keyed with I].
  - pose proof (merge_same metric_key mr_ingested strip_metric i _ (metrics_keyed I w Ht HI)) as E.
    assert (Hf : ∀ s J, follows s J w → follows s J (exec_warehouse (MergedMetrics i) w)) by (intros [] J; cbn [follows exec_warehouse]; try done; by rewrite <-E).
    split; [split; [apply Ht|]|]; [intros s; destruct (tr_within _ _ Ht s) as (J & ? & ?); exists J; auto|].
    intros v Hv. destruct (Hl v Hv). split; [done|by apply Hf].
  - assert (Hf : ∀ s J, follows s J w → follows s J (exec_warehouse (MergedTasks i j) w)).
    { intros [] J; cbn [follows exec_warehouse task_table metric_table funnel_table billing_table]; try done. by rewrite (merged_combine_at task_union). }
    split; [split; [apply Ht|]|]; [intros s; destruct (tr_within _ _ Ht s) as (J & ? & ?); exists J; auto|].
    intros v Hv. destruct (Hl v Hv). split; [done|by apply Hf].
  - assert (Hf : ∀ s J, follows s J w → follows s J (exec_warehouse (MergedFunnel i j) w)).
    { intros [] J; cbn [follows exec_warehouse task_table metric_table funnel_table billing_table]; try done. by rewrite (merged_combine_at funnel_merge). }
    split; [split; [apply Ht|]|]; [intros s; destruct (tr_within _ _ Ht s) as (J & ? & ?); exists J; auto|].
    intros v Hv. destruct (Hl v Hv). split; [done|by apply Hf].
  - pose proof (merge_same billing_key br_ingested strip_billing i _ (billing_keyed I w Ht HI)) as E.
    assert (Hf : ∀ s J, follows s J w → follows s J (exec_warehouse (MergedBilling i) w)) by (intros [] J; cbn [follows exec_warehouse]; try done; by rewrite <-E).
    split; [split; [apply Ht|]|]; [intros s; destruct (tr_within _ _ Ht s) as (J & ? & ?); exists J; auto|].
    intros v Hv. destruct (Hl v Hv). split; [done|by apply Hf].
Qed.
Definition delivered (ops : list warehouse_op) : list Row := mjoin (map inserted_rows ops).
Lemma history_live ops I w : keyed row_key id (I ++ map strip (delivered ops)) → all_live I w →
  all_live (I ++ map strip (delivered ops)) (warehouse_history ops w).
Proof.
  unfold warehouse_history. revert I w. induction ops as [|o ops IH]; intros I w HI Hw; [change (all_live (I ++ []) w); by rewrite app_nil_r|].
  unfold delivered in *. cbn [map mjoin list_join foldr] in *. rewrite map_app, app_assoc in *. cbn [foldl]. apply IH; [done|]. apply op_live; [|done].
  intros a b Ha Hb. apply HI; rewrite !elem_of_app; by left; left.
Qed.

(** *** The first Migrate *)
(** A log without analytics: no view, empty targets. *)
Definition unanalysed (w : Warehouse) : Prop :=
  Forall (λ v, Name v ∉ tables w) Views ∧ metric_table w = [] ∧ task_table w = [] ∧ funnel_table w = [] ∧ billing_table w = [].
Lemma exists_create n m w : exists_table n (create m w) = bool_decide (n = m) || exists_table n w.
Proof. unfold exists_table. cbn. by rewrite (bool_decide_ext (n ∈ _) (n = m ∨ n ∈ tables w)), bool_decide_or by set_solver. Qed.
Lemma exists_fire n s block w : exists_table n (fire s block w) = exists_table n w.
Proof. unfold exists_table. by rewrite (proj2 (fire_log _ _ _)). Qed.
Lemma migrate_view_undisturbed v w : exists_table (Name v) w = false →
  migrate_view v [] w = (Ok true, [], fire (Select v) (events w) (create (Name v) (create (Target v) w))).
Proof. intros E. unfold migrate_view, tableExists, wrapM, query, stmt, mbind, M_bind. rewrite E. by destruct v. Qed.
Lemma follows_create s J name w : follows s J w → follows s J (create name w).
Proof. by destruct s. Qed.

Lemma migrate_views_undisturbed vs created w :
  (∀ v, v ∈ vs → exists_table (Name v) w = false) → NoDup (map Name vs) → NoDup (map Select vs) → (∀ v v', v ∈ vs → v' ∈ vs → Target v ≠ Name v') →
  ∃ w', migrate_views vs created [] w = (created ++ map Name vs, None, [], w') ∧ events w' = events w ∧ tables w ⊆ tables w' ∧
    (∀ v, v ∈ vs → Name v ∈ tables w') ∧ (∀ s J, s ∉ map Select vs → follows s J w → follows s J w') ∧
    (∀ v, v ∈ vs → follows (Select v) [] w → follows (Select v) (map strip (events w)) w').
Proof.
  revert created w. induction vs as [|v vs IH]; intros created w He Hn Hs Ht.
  { exists w. cbn. rewrite app_nil_r. split_and!; [done|done|done|by intros v ?%elem_of_nil|done|by intros v ?%elem_of_nil]. }
  cbn [map] in Hn, Hs. apply NoDup_cons in Hn as [Hn1 Hn2]. apply NoDup_cons in Hs as [Hs1 Hs2]. cbn [migrate_views].
  rewrite migrate_view_undisturbed by (apply He; by left). set (w1 := fire _ _ _).
  destruct (fire_log (Select v) (events w) (create (Name v) (create (Target v) w))) as [He1 Ht1]. fold w1 in He1, Ht1. cbn [create events tables] in He1, Ht1.
  destruct (IH (created ++ [Name v]) w1) as (w' & E & Hev & Hsub & Hname & Hother & Hfol); [|done|done| |].
  - intros v' Hv'. unfold w1. rewrite exists_fire, !exists_create, (He v') by by right. rewrite !bool_decide_eq_false_2; [done| |].
    + intros E. apply (Ht v v'); [by left|by right|done].
    + intros E. apply Hn1. rewrite <-E. by apply list_elem_of_fmap_2.
  - intros a b Ha Hb. apply Ht; by right.
  - exists w'. rewrite E, <-app_assoc. split_and!; [done|congruence|set_solver| | |].
    + intros a [->|Ha]%elem_of_cons; [apply Hsub; rewrite Ht1; set_solver|by apply Hname].
    + intros s J [Hs3 Hs4]%not_elem_of_cons Hf. apply Hother; [done|]. apply fire_other; [done|]. by do 2 apply follows_create.
    + intros a [->|Ha]%elem_of_cons Hf.
      * apply Hother; [done|]. apply (fire_follows (Select v) []). by do 2 apply follows_create.
      * rewrite <-He1. apply Hfol; [done|]. apply fire_other; [|by do 2 apply follows_create]. intros Eq. apply Hs1. rewrite Eq. by apply list_elem_of_fmap_2.
Qed.
Lemma query_views_undisturbed l w : ∃ w', run_statements "analytics: create query view" (map CreateQueryView l) [] w = (Ok (), [], w') ∧
  tables w ⊆ tables w' ∧ ∀ s J, follows s J w → follows s J w'.
Proof.
  revert w. induction l as [|n l IH]; intros w; [by exists w|]. destruct (IH (create n w)) as (w' & E & Hs & Hf).
  exists w'. split; [exact E|]. split; [set_solver|]. intros s J H. by apply Hf, follows_create.
Qed.

Lemma migrate_fresh w : unanalysed w →
  (Migrate [] w).1.1 = (map Name Views, None) ∧ all_live (map strip (events w)) (Migrate [] w).2.
Proof.
  intros (Hn & Hm & Ht & Hf & Hb). rewrite Forall_forall in Hn.
  assert (Hnil : ∀ s, follows s [] w) by (intros []; cbn; by rewrite ?Hm, ?Ht, ?Hf, ?Hb).
  assert (Htr : tracked (map strip (events w)) w) by (split; [done|]; intros s; exists []; split; [apply list_subseteq_nil|done]).
  destruct (keeps_migrate (map strip (events w)) [] w) as (_ & _ & Hk). destruct (Hk Htr) as [Htr' _]. clear Hk. revert Htr'. unfold Migrate.
  destruct (migrate_views_undisturbed Views [] w) as (w1 & E1 & He & Hsub & Hname & _ & Hfol).
  - intros v Hv. by apply bool_decide_eq_false, Hn.
  - apply (bool_decide_eq_true_1 _). vm_compute. reflexivity.
  - apply (bool_decide_eq_true_1 _). vm_compute. reflexivity.
  - assert (H : Forall (λ v, Forall (λ v', Target v ≠ Name v') Views) Views) by (apply (bool_decide_eq_true_1 _); vm_compute; reflexivity).
    intros v v' Hv Hv'. rewrite Forall_forall in H. specialize (H v Hv). rewrite Forall_forall in H. by apply H.
  - rewrite E1. destruct (query_views_undisturbed QueryViews w1) as (w2 & E2 & Hsub2 & Hfol2). rewrite E2. cbn [fst snd].
    intros Htr'. split; [done|]. split; [done|]. intros v Hv. split; [by apply Hsub2, Hname|]. by apply Hfol2, Hfol.
Qed.
End Following.

(** ** Aggregates of a group *)
Lemma sum_of_perm {A} (f : A → Z) a b : a ≡ₚ b → sum_of f a = sum_of f b.
Proof. unfold sum_of. induction 1; cbn; lia. Qed.
Lemma sum_of_map {A B} (f : B → Z) (g : A → B) l : sum_of f (map g l) = sum_of (λ x, f (g x)) l.
Proof. unfold sum_of. induction l; cbn; lia. Qed.
Lemma sum_of_snoc {A} (f : A → Z) l x : sum_of f (l ++ [x]) = sum_of f l + f x.
Proof. unfold sum_of. induction l; cbn; lia. Qed.
Lemma foldr_min {A} (f : A → Z) z l : let m := foldr (λ r m, Z.min (f r) m) z l in
  m ≤ z ∧ (∀ x, x ∈ l → m ≤ f x) ∧ (m = z ∨ ∃ x, x ∈ l ∧ f x = m).
Proof.
  cbn. induction l as [|r l (H1 & H2 & H3)]; cbn; [split_and!; [lia|by intros ? ?%elem_of_nil|by left]|].
  split_and!; [lia|intros x [->|Hx]%elem_of_cons; [lia|specialize (H2 x Hx); lia]|].
  destruct (Z.min_spec (f r) (foldr (λ r m, Z.min (f r) m) z l)) as [[_ ->]|[_ ->]]; [right; exists r; split; [by left|done]|].
  destruct H3 as [?|(x & ? & ?)]; [by left|right; exists x; split; [by right|done]].
Qed.
Lemma foldr_max {A} (f : A → Z) z l : foldr (λ r m, Z.max (f r) m) z l = - foldr (λ r m, Z.min (- f r) m) (- z) l.
Proof. induction l as [|r l IH]; cbn; lia. Qed.
Lemma min_of_spec {A} (f : A → Z) l m : l ≠ [] → min_of f l = m ↔ (∃ x, x ∈ l ∧ f x = m) ∧ ∀ x, x ∈ l → m ≤ f x.
Proof.
  destruct l as [|r l]; [done|intros _]. cbn. destruct (foldr_min f (f r) l) as (H1 & H2 & H3). set (k := foldr _ _ _) in *.
  assert (Hk : (∃ x, x ∈ r :: l ∧ f x = k) ∧ ∀ x, x ∈ r :: l → k ≤ f x).
  { split; [destruct H3 as [->|(x & ? & ?)]; [exists r; split; [by left|done]|exists x; split; [by right|done]]|].
    intros x [->|Hx]%elem_of_cons; [done|by apply H2]. }
  split; [by intros <-|]. intros [(x & Hx & <-) Hm]. destruct Hk as [(y & Hy & Ey) Hk]. specialize (Hm y Hy). specialize (Hk x Hx). lia.
Qed.
Lemma max_of_min {A} (f : A → Z) l : max_of f l = - min_of (λ x, - f x) l.
Proof. destruct l as [|r l]; [done|]. cbn. apply foldr_max. Qed.
Lemma min_of_perm {A} (f : A → Z) a b : a ≡ₚ b → min_of f a = min_of f b.
Proof.
  intros H. destruct a as [|x a]; [by apply Permutation_nil_l in H as ->|]. assert (Hb : b ≠ []) by (intros ->; by apply Permutation_nil_r in H).
  apply min_of_spec; [done|]. destruct (proj1 (min_of_spec f b _ Hb) eq_refl) as [(y & Hy & E) Hm].
  split; [exists y; by rewrite H|]. intros z Hz. apply Hm. by rewrite <-H.
Qed.
Lemma max_of_perm {A} (f : A → Z) a b : a ≡ₚ b → max_of f a = max_of f b.
Proof. intros H. rewrite !max_of_min. f_equal. by apply min_of_perm. Qed.
Lemma min_of_map {A B} (f : B → Z) (g : A → B) l : min_of f (map g l) = min_of (λ x, f (g x)) l.
Proof. destruct l as [|r l]; [done|]. cbn. induction l as [|x l IH]; cbn; [done|]. by rewrite IH. Qed.
Lemma max_of_map {A B} (f : B → Z) (g : A → B) l : max_of f (map g l) = max_of (λ x, f (g x)) l.
Proof. by rewrite !max_of_min, min_of_map. Qed.

(** The value at the greatest [by_]. *)
Lemma argMaxIf_spec {A B} (value : A → B) by_ cond l :
  match argMaxIf value by_ cond l with
  | None => ∀ x, x ∈ l → cond x = false
  | Some v => ∃ x, x ∈ l ∧ cond x = true ∧ v = value x ∧ ∀ y, y ∈ l → cond y = true → by_ y ≤ by_ x
  end.
Proof.
  unfold argMaxIf. set (step := λ r acc, _). assert (H : match foldr step None l with
    | None => ∀ x, x ∈ l → cond x = false
    | Some (n, v) => ∃ x, x ∈ l ∧ cond x = true ∧ n = by_ x ∧ v = value x ∧ ∀ y, y ∈ l → cond y = true → by_ y ≤ by_ x end).
  { induction l as [|r l IH]; [by intros x ?%elem_of_nil|]. cbn [foldr]. unfold step at 1. destruct (cond r) eqn:Er.
    - destruct (foldr step None l) as [[n v]|].
      + destruct IH as (x & Hx & Hc & -> & -> & Hm). destruct (Z.ltb_spec (by_ x) (by_ r)).
        * exists r. split_and!; [by left|done..|]. intros y [->|Hy]%elem_of_cons Hcy; [done|]. specialize (Hm y Hy Hcy). lia.
        * exists x. split_and!; [by right|done..|]. intros y [->|Hy]%elem_of_cons Hcy; [done|]. by apply Hm.
      + exists r. split_and!; [by left|done..|]. intros y [->|Hy]%elem_of_cons Hcy; [done|]. by rewrite IH in Hcy.
    - destruct (foldr step None l) as [[n v]|].
      + destruct IH as (x & Hx & Hc & Hn & Hv & Hm). exists x. split_and!; [by right|done..|]. intros y [->|Hy]%elem_of_cons Hcy; [congruence|by apply Hm].
      + intros x [->|Hx]%elem_of_cons; [done|by apply IH]. }
  destruct (foldr step None l) as [[n v]|]; cbn; [|done]. destruct H as (x & ? & ? & _ & ? & ?). by exists x.
Qed.
Lemma argMaxIf_perm {A B} (value : A → B) by_ cond a b :
  (∀ x y, x ∈ a → y ∈ a → by_ x = by_ y → x = y) → a ≡ₚ b → argMaxIf value by_ cond a = argMaxIf value by_ cond b.
Proof.
  intros Hu Hp. pose proof (argMaxIf_spec value by_ cond a) as Ha. pose proof (argMaxIf_spec value by_ cond b) as Hb.
  destruct (argMaxIf value by_ cond a), (argMaxIf value by_ cond b); [|..|done].
  - destruct Ha as (x & Hx & Hcx & -> & Hmx), Hb as (y & Hy & Hcy & -> & Hmy). rewrite <-Hp in Hy. do 2 f_equal. apply Hu; [done..|].
    specialize (Hmx y Hy Hcy). rewrite Hp in Hx. specialize (Hmy x Hx Hcx). lia.
  - destruct Ha as (x & Hx & Hcx & _). rewrite Hp in Hx. by rewrite (Hb x Hx) in Hcx.
  - destruct Hb as (x & Hx & Hcx & _). rewrite <-Hp in Hx. by rewrite (Ha x Hx) in Hcx.
Qed.
Lemma argMaxIf_map {A B C} (value : B → C) by_ cond (g : A → B) l :
  argMaxIf value by_ cond (map g l) = argMaxIf (λ x, value (g x)) (λ x, by_ (g x)) (λ x, cond (g x)) l.
Proof. unfold argMaxIf. f_equal. induction l as [|x l IH]; cbn; [done|]. by rewrite IH. Qed.
Lemma filter_map {A B} (p : B → bool) (g : A → B) l : List.filter p (map g l) = map g (List.filter (λ x, p (g x)) l).
Proof. induction l as [|x l IH]; cbn; [done|]. rewrite IH. by destruct (p (g x)). Qed.
Lemma filter_perm {A} (p : A → bool) a b : a ≡ₚ b → List.filter p a ≡ₚ List.filter p b.
Proof.
  induction 1 as [|x a b _ IH|x y a|a b c _ IH1 _ IH2]; cbn; [done|by destruct (p x); rewrite IH| |by rewrite IH1].
  destruct (p x), (p y); try done. constructor.
Qed.

Lemma NoDup_map_unique {A B} (f : A → B) l x y : NoDup (map f l) → x ∈ l → y ∈ l → f x = f y → x = y.
Proof.
  intros Hn [i Hi]%list_elem_of_lookup [j Hj]%list_elem_of_lookup E.
  assert (i = j) as -> by (eapply (NoDup_lookup _ _ _ (f x) Hn); rewrite list_lookup_fmap, ?Hi, ?Hj; cbn; congruence). congruence.
Qed.
Lemma session_metrics_strip g : session_metrics (map strip_metric g) = session_metrics g.
Proof.
  unfold session_metrics, sum_uint8, sum_int64. rewrite !sum_of_map, argMaxIf_map, filter_map, max_of_map, min_of_map. cbn.
  destruct (List.filter _ g) as [|x l]; cbn [map]; [done|]. change (strip_metric x :: map strip_metric l) with (map strip_metric (x :: l)).
  by rewrite min_of_map.
Qed.
Lemma session_metrics_perm a b : NoDup (map mr_sequence a) → a ≡ₚ b → session_metrics a = session_metrics b.
Proof.
  intros Hn Hp. unfold session_metrics, sum_uint8, sum_int64.
  rewrite !(λ f, sum_of_perm f a b Hp), (max_of_perm mr_occurred a b Hp), (min_of_perm mr_occurred a b Hp).
  rewrite (argMaxIf_perm run_status mr_sequence _ a b); [|intros x y; by apply (NoDup_map_unique mr_sequence a)|done].
  pose proof (filter_perm (λ r, run_requested r =? 1) a b Hp) as Hf. f_equal.
  destruct (List.filter _ a) as [|x l]; [by apply Permutation_nil_l in Hf as <-|].
  destruct (List.filter _ b) as [|y l']; [by apply Permutation_nil_r in Hf|]. by rewrite (min_of_perm mr_occurred _ _ Hf).
Qed.

(** ** Views of the same events *)
Lemma group_perm {A B} (f : list A → B) p a b : (∀ g g', g = List.filter p a → g ≡ₚ g' → f g = f g') → a ≡ₚ b → group f p a = group f p b.
Proof.
  intros Hf Hp. pose proof (filter_perm p a b Hp) as H. unfold group. pose proof (λ g', Hf _ g' eq_refl) as Hg. clear Hf.
  destruct (List.filter p a) as [|x l]; [by apply Permutation_nil_l in H as <-|].
  destruct (List.filter p b) as [|y l'] eqn:E; [by apply Permutation_nil_r in H|]. f_equal. by apply Hg.
Qed.
Lemma group_map {A B C} (f : list B → C) p (st : A → B) l : group f p (map st l) = group (λ g, f (map st g)) (λ x, p (st x)) l.
Proof. unfold group. rewrite filter_map. by destruct (List.filter _ l). Qed.
Lemma group_ext {A B} (f f' : list A → B) p p' l : (∀ g, f g = f' g) → (∀ x, p x = p' x) → group f p l = group f' p' l.
Proof. intros Hf Hp. unfold group. rewrite (List.filter_ext p p') by done. destruct (List.filter p' l); [done|]. by rewrite Hf. Qed.

(** [FINAL] of two tables with the same contents, but for the versions. *)
Lemma finals_perm {A K} `{Countable K} (key : A → K) (version : A → time) (st : A → A) l l' :
  (∀ x, key (st x) = key x) → keyed key st l → keyed key st l' → same (map st l) (map st l') →
  map st (table_final key version l) ≡ₚ map st (table_final key version l').
Proof.
  intros Hst Hk Hk' Hs. assert (Hn : ∀ l, NoDup (map st (table_final key version l))).
  { intros l0. apply (NoDup_fmap_1 key). pose proof (table_final_keys key version l0) as H0.
    by rewrite <-list_fmap_compose, (list_fmap_ext _ key) by (intros; apply Hst). }
  apply NoDup_Permutation; [done..|]. intros x.
  by rewrite (table_final_same key version st l Hk x), (table_final_same key version st l' Hk' x).
Qed.

Lemma NoDup_map_filter {A B} (f : A → B) p l : NoDup (map f l) → NoDup (map f (List.filter p l)).
Proof.
  induction l as [|x l IH]; [done|]. cbn. intros [Hx Hn]%NoDup_cons. destruct (p x); [|by apply IH]. cbn. apply NoDup_cons. split; [|by apply IH].
  intros (y & E & [Hy _]%elem_of_filter_bool)%list_elem_of_fmap. apply Hx. rewrite E. by apply list_elem_of_fmap_2.
Qed.
Lemma v_session_same company interview session w w' :
  keyed metric_key strip_metric (metric_table w) → keyed metric_key strip_metric (metric_table w') →
  same (map strip_metric (metric_table w)) (map strip_metric (metric_table w')) →
  v_session_metrics company interview session w = v_session_metrics company interview session w'.
Proof.
  intros Hk Hk' Hs. pose proof (finals_perm metric_key mr_ingested strip_metric _ _ ltac:(done) Hk Hk' Hs) as Hp.
  unfold v_session_metrics. set (p := of_session company interview session).
  assert (E : ∀ l, group session_metrics p l = group session_metrics p (map strip_metric l)).
  { intros l. rewrite group_map. apply group_ext; [intros; by rewrite session_metrics_strip|done]. }
  rewrite (E (table_final _ _ (metric_table w))), (E (table_final _ _ (metric_table w'))). apply group_perm; [|done].
  intros g g' -> Hg. apply session_metrics_perm; [|done]. rewrite filter_map, map_map.
  apply (NoDup_fmap_1 (λ n, (company, interview, n))). rewrite <-list_fmap_compose.
  assert (El : ∀ l : list MetricRow, map ((λ n, (company, interview, n)) ∘ λ x, mr_sequence (strip_metric x)) (List.filter (λ x, p (strip_metric x)) l) =
    map metric_key (List.filter (λ x, p x) l)).
  { intros l. apply map_ext_in. intros x [_ Hx]%filter_In. unfold p, of_session in Hx. bool_prop. unfold metric_key. cbn. congruence. }
  setoid_rewrite El. pose proof (table_final_keys metric_key mr_ingested (metric_table w)) as Hn.
  by apply NoDup_map_filter.
Qed.

Lemma v_billing_same company period w w' :
  keyed billing_key strip_billing (billing_table w) → keyed billing_key strip_billing (billing_table w') →
  same (map strip_billing (billing_table w)) (map strip_billing (billing_table w')) →
  v_billing_usage company period w = v_billing_usage company period w'.
Proof.
  intros Hk Hk' Hs. pose proof (finals_perm billing_key br_ingested strip_billing _ _ ltac:(done) Hk Hk' Hs) as Hp.
  unfold v_billing_usage. set (f := λ g : list BillingRow, _). set (p := λ r, _).
  assert (Hf : ∀ g, f (map strip_billing g) = f g) by (intros g; unfold f, sum_uint8, sum_int64; by rewrite ?filter_map, ?sum_of_map).
  assert (E : ∀ l, group f p l = group f p (map strip_billing l)) by (intros l; rewrite group_map; by apply group_ext).
  rewrite (E (table_final _ _ (billing_table w))), (E (table_final _ _ (billing_table w'))). apply group_perm; [|done].
  intros g g' _ Hg. unfold f, sum_uint8, sum_int64. by rewrite !(λ f, sum_of_perm f g g' Hg), !(λ f q, sum_of_perm f _ _ (filter_perm q g g' Hg)).
Qed.

Section Same.
Context `{ch : ClickHouse}.
Lemma views_same I J w w' : all_live I w → all_live J w' → same I J → keyed row_key id I →
  (∀ company interview session, v_session_metrics company interview session w = v_session_metrics company interview session w') ∧
  (∀ company day, v_task_daily company day w = v_task_daily company day w') ∧
  (∀ company day, v_funnel company day w = v_funnel company day w') ∧
  (∀ company period, v_billing_usage company period w = v_billing_usage company period w').
Proof.
  intros [Ht Hl] [Ht' Hl'] HIJ HI. assert (HJ : keyed row_key id J) by by apply (same_agree J I).
  assert (Hf : ∀ v, v ∈ Views → follows (Select v) I w ∧ follows (Select v) I w').
  { intros v Hv. split; [by apply Hl|]. rewrite HIJ. by apply Hl'. }
  destruct (Hf (mkView "mv_session_metrics" "session_metric_rows" SelectMetrics)) as [Hm Hm']; [apply list_elem_of_In; cbn; tauto|].
  destruct (Hf (mkView "mv_task_daily" "task_daily" SelectTasks)) as [Hd Hd']; [apply list_elem_of_In; cbn; tauto|].
  destruct (Hf (mkView "mv_funnel" "funnel_interviews" SelectFunnel)) as [Hu Hu']; [apply list_elem_of_In; cbn; tauto|].
  destruct (Hf (mkView "mv_billing_usage" "billing_usage_rows" SelectBilling)) as [Hb Hb']; [apply list_elem_of_In; cbn; tauto|].
  cbn [follows Select] in *. split_and!.
  - intros company interview session. apply v_session_same; [by eapply metrics_keyed|by eapply metrics_keyed|by rewrite Hm, Hm'].
  - intros company day. unfold v_task_daily. by rewrite Hd, Hd'.
  - intros company day. unfold v_funnel. by rewrite Hu, Hu'.
  - intros company period. apply v_billing_same; [by eapply billing_keyed|by eapply billing_keyed|by rewrite Hb, Hb'].
Qed.
End Same.

(** ** Extracting from a marshalled payload *)
Section Extract.
Context `{ch : ClickHouse}.
(** The payload is [p]'s, as [events.New] marshals it. *)
Definition carries {P} `{Payload P} (p : P) (payload : RawMessage) : Prop :=
  payload_ok p ∧ ∃ j, marshal_payload p = Ok j ∧ payload = Some j.
Lemma marshalled_names sps vs fs : marshal_fields sps vs = Some fs → sublist fs.*1 (map spec_name sps).
Proof.
  revert vs fs. induction sps as [|sp sps IH]; intros [|v vs] fs H; cbn in H; try (injection H as <-; cbn; apply sublist_nil_l).
  destruct (omitted sp v); [apply sublist_cons; by eapply IH|].
  apply bind_Some in H as (j & _ & (rest & Hr & [= <-])%bind_Some). cbn. apply sublist_skip. by eapply IH.
Qed.
Lemma marshalled_field sps vs fs i sp v : NoDup (map spec_name sps) → marshal_fields sps vs = Some fs → sps !! i = Some sp → vs !! i = Some v →
  if omitted sp v then spec_name sp ∉ fs.*1 else ∃ j, marshal_value v = Some j ∧ (spec_name sp, j) ∈ fs.
Proof.
  revert vs fs i. induction sps as [|sp0 sps IH]; intros [|v0 vs] fs [|i] Hn H Hi Hv; try done; cbn in Hi, Hv, H, Hn; apply NoDup_cons in Hn as [Hn1 Hn2].
  - simplify_eq. destruct (omitted sp v).
    + pose proof (marshalled_names _ _ _ H) as Hs. intros Hin. apply Hn1. by eapply elem_of_sublist.
    + apply bind_Some in H as (j & Hj & (rest & Hr & [= <-])%bind_Some). exists j. split; [done|by left].
  - assert (Hrest : ∃ rest, marshal_fields sps vs = Some rest ∧ (fs = rest ∨ ∃ j, fs = (spec_name sp0, j) :: rest)).
    { destruct (omitted sp0 v0); [by exists fs; auto|]. apply bind_Some in H as (j & Hj & (rest & Hr & [= <-])%bind_Some). exists rest. eauto. }
    destruct Hrest as (rest & Hr & Hfs). specialize (IH vs rest i Hn2 Hr Hi Hv). destruct (omitted sp v).
    + destruct Hfs as [->|[j ->]]; [done|]. cbn. intros [E|]%elem_of_cons; [|done]. apply Hn1. rewrite <-E.
      apply list_elem_of_fmap. exists sp. split; [done|]. by eapply list_elem_of_lookup_2.
    + destruct IH as (j & Hj & Hin). exists j. split; [done|]. destruct Hfs as [->|[j' ->]]; [done|by right].
Qed.

Lemma extract_string_field {P} `{Payload P} (p : P) payload i name o s : carries p payload →
  schema P !! i = Some (mkSpec name KString o) → to_values p !! i = Some (VString s) → JSONExtractString payload name = s.
Proof.
  intros (Hok & j & Hj & ->) Hi Hv. unfold marshal_payload, marshal in Hj. destruct (marshal_fields _ _) as [fs|] eqn:E; [|done]. injection Hj as <-.
  pose proof (marshalled_field _ _ _ i _ _ schema_nodup E Hi Hv) as H0. assert (Hn : NoDup fs.*1) by (eapply sublist_NoDup; [apply schema_nodup|eapply marshalled_names, E]).
  assert (Hs : coerce_utf8 s = s).
  { pose proof (Forall2_lookup_lr _ _ _ _ _ _ Hok Hi Hv) as Hx. exact Hx. }
  destruct (omitted _ _) eqn:Eo.
  - cbn in H0. rewrite extract_no_string by done. unfold omitted in Eo. cbn in Eo. apply andb_true_iff in Eo as [_ Eo]. by bool_prop.
  - destruct H0 as (jv & Hjv & Hin). cbn in Hjv. injection Hjv as <-. apply extract_string; [done|]. unfold encode_string in Hin. by rewrite Hs in Hin.
Qed.
Lemma extract_int_field {P} `{Payload P} (p : P) payload i name o z : carries p payload →
  schema P !! i = Some (mkSpec name KInt o) → to_values p !! i = Some (VInt z) → JSONExtractInt payload name = z.
Proof.
  intros (Hok & j & Hj & ->) Hi Hv. unfold marshal_payload, marshal in Hj. destruct (marshal_fields _ _) as [fs|] eqn:E; [|done]. injection Hj as <-.
  pose proof (marshalled_field _ _ _ i _ _ schema_nodup E Hi Hv) as H0. assert (Hn : NoDup fs.*1) by (eapply sublist_NoDup; [apply schema_nodup|eapply marshalled_names, E]).
  assert (Hz : in_int64 z) by (pose proof (Forall2_lookup_lr _ _ _ _ _ _ Hok Hi Hv) as Hx; exact Hx).
  destruct (omitted _ _) eqn:Eo.
  - cbn in H0. rewrite extract_no_int by done. unfold omitted in Eo. cbn in Eo. apply andb_true_iff in Eo as [_ Eo]. bool_prop. done.
  - destruct H0 as (jv & Hjv & Hin). cbn in Hjv. injection Hjv as <-. by apply extract_int.
Qed.
End Extract.

(** ** The view and the scoring metrics *)
(** An instant of the log's [DateTime64(3)] column. *)
Definition time_ok (t : time) : Prop := 0 ≤ t ≤ max_int64 ∧ t mod millisecond = 0.
(** A row of an event the platform wrote. *)
Definition written (r : Row) : Prop :=
  time_ok (Row_OccurredAt r) ∧ 0 ≤ Row_SequenceNumber r ∧
  (Row_EventType r = EventTypeAIResponseCompleted → ∃ p : AIResponseCompleted, carries p (Row_Payload r)) ∧
  (Row_EventType r = EventTypeExecutionCompleted → ∃ p : ExecutionCompleted, carries p (Row_Payload r)) ∧
  (Row_EventType r = EventTypeCodeDiff → ∃ p : CodeDiff, carries p (Row_Payload r)).
Local Notation event_of := Scoring.event_of.

Lemma carries_decodes {P} `{Payload P} (p : P) r : carries p (Row_Payload r) → Metrics.decode_payload P (event_of r) = Ok p.
Proof.
  intros (Hok & j & Hj & E). destruct (payload_roundtrip p Hok) as (j' & Hj' & Hu). unfold Metrics.decode_payload. change (Metrics.Event_Payload (event_of r)) with (Row_Payload r). rewrite E.
  assert (j = j') as -> by congruence. by rewrite Hu.
Qed.

Lemma sum_int64_snoc {A} (f : A → Z) l x : sum_int64 f (l ++ [x]) = add64 (sum_int64 f l) (f x).
Proof. unfold sum_int64, add64. by rewrite sum_of_snoc, wrap64_wrap64_add. Qed.
Lemma wrap64_mod z : wrap64 (z mod two64) = wrap64 z.
Proof. unfold wrap64, two63, two64. by rewrite Zplus_mod_idemp_l. Qed.
Lemma sum_uint8_eq {A} (f : A → Z) l : sum_uint8 f l = sum_int64 f l.
Proof. apply wrap64_mod. Qed.
Lemma add64_0 {A} (f : A → Z) l : add64 (sum_int64 f l) 0 = sum_int64 f l.
Proof. unfold add64. rewrite Z.add_0_r. apply wrap64_id. unfold sum_int64. auto with int64. Qed.

(** The first and the last instant, the zero time if there is none. *)
Definition first_of (l : list MetricRow) : time := match l with [] => zero_time | _ => min_of mr_occurred l end.
Definition last_of (l : list MetricRow) : time := match l with [] => zero_time | _ => max_of mr_occurred l end.
(** The accumulator of [Compute]'s loop describes the rows seen. *)
Record summary (seen : list MetricRow) (acc : Metrics.Acc) : Prop := {
  su_prompt : Metrics.PromptCount (Metrics.acc_m acc) = sum_int64 prompt seen;
  su_response : Metrics.AIResponseCount (Metrics.acc_m acc) = sum_int64 ai_response seen;
  su_error : Metrics.AIErrorCount (Metrics.acc_m acc) = sum_int64 ai_error seen;
  su_input : Metrics.AIInputTokens (Metrics.acc_m acc) = sum_int64 ai_input_tokens seen;
  su_output : Metrics.AIOutputTokens (Metrics.acc_m acc) = sum_int64 ai_output_tokens seen;
  su_run : Metrics.RunCount (Metrics.acc_m acc) = sum_int64 run_completed seen;
  su_succeeded : Metrics.RunSucceededCount (Metrics.acc_m acc) = sum_int64 run_succeeded seen;
  su_diff : Metrics.DiffCount (Metrics.acc_m acc) = sum_int64 diff seen;
  su_ai_diff : Metrics.AIDiffCount (Metrics.acc_m acc) = sum_int64 ai_diff seen;
  su_added : Metrics.LinesAdded (Metrics.acc_m acc) = sum_int64 lines_added seen;
  su_removed : Metrics.LinesRemoved (Metrics.acc_m acc) = sum_int64 lines_removed seen;
  su_ai_added : Metrics.AILinesAdded (Metrics.acc_m acc) = sum_int64 ai_lines_added seen;
  su_status : Metrics.LastRunStatus (Metrics.acc_m acc) = default ""%string (argMaxIf run_status mr_sequence (λ r, run_completed r =? 1) seen);
  su_last_run : Metrics.lastRunSequence acc = -1 ∨ ∃ x, x ∈ seen ∧ mr_sequence x = Metrics.lastRunSequence acc;
  su_first : Metrics.first acc = first_of seen;
  su_last : Metrics.last acc = last_of seen;
  su_first_run : Metrics.firstRun acc = first_of (List.filter (λ r, run_requested r =? 1) seen);
  su_times : Forall (λ x, time_ok (mr_occurred x)) seen;
}.

Lemma min_of_snoc {A} (f : A → Z) l x : l ≠ [] → min_of f (l ++ [x]) = Z.min (min_of f l) (f x).
Proof. destruct l as [|r l]; [done|intros _]. cbn. rewrite foldr_app. cbn. induction l as [|y l IH]; cbn; lia. Qed.
Lemma max_of_snoc {A} (f : A → Z) l x : l ≠ [] → max_of f (l ++ [x]) = Z.max (max_of f l) (f x).
Proof. intros H. rewrite !max_of_min, min_of_snoc by done. lia. Qed.
Lemma argMaxIf_snoc {A B} (value : A → B) by_ cond l x : (∀ y, y ∈ l → by_ y < by_ x) →
  argMaxIf value by_ cond (l ++ [x]) = if cond x then Some (value x) else argMaxIf value by_ cond l.
Proof.
  intros Hl. unfold argMaxIf. rewrite foldr_app. cbn [foldr]. destruct (cond x) eqn:Ex; [|done].
  assert (H : ∀ l, (∀ y, y ∈ l → by_ y < by_ x) → foldr (λ r acc, if cond r then match acc with
      | Some (n, _) => if n <? by_ r then Some (by_ r, value r) else acc | None => Some (by_ r, value r) end else acc) (Some (by_ x, value x)) l = Some (by_ x, value x)).
  { clear Hl l. induction l as [|y l IH]; intros Hl; [done|]. cbn [foldr]. rewrite IH by (intros; apply Hl; by right).
    specialize (Hl y (list_elem_of_here _ _)). destruct (cond y); [|done]. by rewrite (proj2 (Z.ltb_ge _ _)) by lia. }
  by rewrite H.
Qed.
Lemma min_of_in {A} (f : A → Z) l : l ≠ [] → ∃ x, x ∈ l ∧ f x = min_of f l.
Proof. intros H. by apply (min_of_spec f l). Qed.
Lemma first_snoc l x : Forall (λ x, time_ok (mr_occurred x)) l →
  (if is_zero (first_of l) || before (mr_occurred x) (first_of l) then mr_occurred x else first_of l) = first_of (l ++ [x]).
Proof.
  intros Ht. destruct (decide (l = [])) as [->|Hl]; [done|]. assert (E : ∀ l, l ≠ [] → first_of l = min_of mr_occurred l) by by intros [].
  rewrite (E l), (E (l ++ [x])), min_of_snoc by (try done; by destruct l). destruct (min_of_in mr_occurred l Hl) as (y & Hy & Ey).
  rewrite Forall_forall in Ht. destruct (Ht y Hy) as [Hr _]. rewrite <-Ey. unfold is_zero, before, zero_time, second.
  destruct (Z.eqb_spec (mr_occurred y) (-62135596800 * 1000000000)), (Z.ltb_spec (mr_occurred x) (mr_occurred y)); cbn [orb]; lia.
Qed.
Lemma last_snoc l x : Forall (λ x, time_ok (mr_occurred x)) l → time_ok (mr_occurred x) →
  (if after (mr_occurred x) (last_of l) then mr_occurred x else last_of l) = last_of (l ++ [x]).
Proof.
  intros Ht [Hx _]. destruct (decide (l = [])) as [->|Hl].
  - cbn. unfold after, zero_time, second. by rewrite (proj2 (Z.ltb_lt _ _)) by lia.
  - assert (E : ∀ l, l ≠ [] → last_of l = max_of mr_occurred l) by by intros [].
    rewrite (E l), (E (l ++ [x])), max_of_snoc by (try done; by destruct l). unfold after. destruct (Z.ltb_spec (max_of mr_occurred l) (mr_occurred x)); lia.
Qed.

Section Mirror.
Context `{ch : ClickHouse}.
Lemma summary_inactive seen acc r : active r = false → summary seen acc →
  Metrics.compute_step acc (event_of r) = Ok acc ∧ metric_row r = None.
Proof.
  intros Ha Hs. unfold Metrics.compute_step, metric_row. change (Metrics.Event_EventType (event_of r)) with (Row_EventType r).
  unfold active in *. rewrite Ha. split; [done|]. by destruct (Row_SessionID r).
Qed.

(** The sums after a row. *)
Ltac solve_sum E := rewrite sum_int64_snoc, <-E; cbn; repeat case_bool_decide; cbn; rewrite ?E, ?add64_0; reflexivity.
Lemma summary_step seen acc r x : written r → summary seen acc → (∀ y, y ∈ seen → mr_sequence y < Row_SequenceNumber r) →
  metric_row r = Some x → ∃ acc', Metrics.compute_step acc (event_of r) = Ok acc' ∧ summary (seen ++ [x]) acc'.
Proof.
  intros (Htime & Hseq & Hai & Hrun & Hdiff) Hs Hlt Hx. pose proof Hx as Hx'. unfold metric_row in Hx'. apply bind_Some in Hx' as (session & _ & Hx').
  destruct (active r) eqn:Ha; [|done]. assert (Hmx : mr_sequence x = Row_SequenceNumber r ∧ mr_occurred x = Row_OccurredAt r) by by injection Hx' as <-.
  destruct Hmx as [Hsq Hoc].
  destruct acc as [[n1 n2 n3 n4 n5 n6 n7 st n8 n9 n10 n11 n12 dur ttf] fi la fr ls].
  destruct Hs as [E1 E2 E3 E4 E5 E6 E7 E8 E9 E10 E11 E12 Est Els Efi Ela Efr Ett]. cbn in E1, E2, E3, E4, E5, E6, E7, E8, E9, E10, E11, E12, Est, Els, Efi, Ela, Efr.
  unfold Metrics.compute_step, Metrics.compute_payload. cbn [Metrics.acc_m Metrics.first Metrics.last Metrics.firstRun Metrics.lastRunSequence].
  change (Metrics.Event_EventType (event_of r)) with (Row_EventType r). change (Metrics.Event_OccurredAt (event_of r)) with (Row_OccurredAt r).
  change (Metrics.Event_SequenceNumber (event_of r)) with (Row_SequenceNumber r).
  unfold active in Ha. rewrite Ha. cbn [negb]. apply existsb_exists in Ha as (ty & Hty & Ety). bool_prop. subst ty.
  unfold is_type in Hx'. cbn in Hty. 
  assert (Hmin := first_snoc seen x Ett). assert (Hmax := last_snoc seen x Ett). rewrite Hoc in Hmin, Hmax. specialize (Hmax Htime).
  rewrite <-Efi in Hmin. rewrite <-Ela in Hmax. rewrite Hmin, Hmax.
  assert (Htimes : Forall (λ x, time_ok (mr_occurred x)) (seen ++ [x])) by (apply Forall_app; split; [done|]; constructor; [by rewrite Hoc|done]).
  assert (Harg := argMaxIf_snoc run_status mr_sequence (λ r, run_completed r =? 1) seen x ltac:(by rewrite Hsq)).
  assert (Hreq : List.filter (λ r, run_requested r =? 1) (seen ++ [x]) =
    List.filter (λ r, run_requested r =? 1) seen ++ (if run_requested x =? 1 then [x] else [])) by (rewrite List.filter_app; cbn; by destruct (_ =? 1)).
  assert (Hels : ∀ n, ls = -1 ∨ (∃ y, y ∈ seen ∧ mr_sequence y = ls) → n = ls → n = -1 ∨ ∃ y, y ∈ seen ++ [x] ∧ mr_sequence y = n).
  { intros n [?|(y & ? & ?)] ->; [by left|right; exists y; rewrite elem_of_app; auto]. }
  assert (Hnewer : ls <? Row_SequenceNumber r = true).
  { apply Z.ltb_lt. destruct Els as [->|(y & Hy & <-)]; [lia|by apply Hlt]. }
  repeat destruct Hty as [Hty|Hty]; try done; rewrite <-Hty in *; revert Hx'; Metrics.closed_bools; cbn [andb]; intros Hx'; injection Hx' as <-.
  3: destruct (Hai eq_refl) as [p Hp]; rewrite (carries_decodes p r Hp), !(extract_string_field p _ 6 "status" false _ Hp eq_refl eq_refl),
       !(extract_int_field p _ 10 "input_tokens" false _ Hp eq_refl eq_refl), !(extract_int_field p _ 11 "output_tokens" false _ Hp eq_refl eq_refl) in *.
  5: destruct (Hrun eq_refl) as [p Hp]; rewrite (carries_decodes p r Hp), !(extract_string_field p _ 3 "status" false _ Hp eq_refl eq_refl) in *.
  6: destruct (Hdiff eq_refl) as [p Hp]; rewrite (carries_decodes p r Hp), !(extract_string_field p _ 3 "origin" false _ Hp eq_refl eq_refl),
       !(extract_int_field p _ 7 "lines_added" false _ Hp eq_refl eq_refl), !(extract_int_field p _ 8 "lines_removed" false _ Hp eq_refl eq_refl) in *.
  all: cbn [mbind result_bind]; eexists; (split; [rewrite ?Hnewer; reflexivity|]); constructor;
    cbn [Metrics.acc_m Metrics.first Metrics.last Metrics.firstRun Metrics.lastRunSequence Metrics.PromptCount Metrics.AIResponseCount
      Metrics.AIErrorCount Metrics.AIInputTokens Metrics.AIOutputTokens Metrics.RunCount Metrics.RunSucceededCount Metrics.LastRunStatus
      Metrics.DiffCount Metrics.AIDiffCount Metrics.LinesAdded Metrics.LinesRemoved Metrics.AILinesAdded];
    [solve_sum E1|solve_sum E2|solve_sum E3|solve_sum E4|solve_sum E5|solve_sum E6|solve_sum E7|solve_sum E8|solve_sum E9|solve_sum E10|solve_sum E11|solve_sum E12
    |rewrite Harg; cbn; first [exact Est|reflexivity]
    |first [by eapply Hels|right; eexists; split; [apply elem_of_app; right; by left|reflexivity]]
    |reflexivity|reflexivity
    |rewrite Hreq; cbn [run_requested Z.eqb Pos.eqb]; first [rewrite app_nil_r; exact Efr|idtac]
    |exact Htimes].
  rewrite Efr. apply (first_snoc _ (mkMetricRow _ _ _ _ _ _ _ _ _ _ _ _ _ _ _ _ _ _ _ _ _)). apply Forall_forall. intros y [Hy _]%elem_of_filter_bool.
  rewrite Forall_forall in Ett. by apply Ett.
Qed.

Lemma summary_loop rows seen acc : Forall written rows → Forall (λ r, is_Some (Row_SessionID r)) rows →
  StronglySorted (λ a b, Row_SequenceNumber a < Row_SequenceNumber b) rows →
  (∀ y r, y ∈ seen → r ∈ rows → mr_sequence y < Row_SequenceNumber r) → summary seen acc →
  ∃ acc', Metrics.compute_loop acc (map event_of rows) = Ok acc' ∧ summary (seen ++ omap metric_row rows) acc'.
Proof.
  intros Hw Hs Hsorted. revert seen acc Hw Hs. induction Hsorted as [|r rows Hsorted IH Hr]; intros seen acc Hw Hs Hlt Hsum.
  { exists acc. cbn. by rewrite app_nil_r. }
  apply Forall_cons in Hw as [Hwr Hw]. apply Forall_cons in Hs as [[session Hsr] Hs]. cbn [map Metrics.compute_loop omap list_omap]. rewrite Forall_forall in Hr.
  destruct (active r) eqn:Ha.
  - assert (Hx : is_Some (metric_row r)) by (unfold metric_row; rewrite Hsr; cbn [mbind option_bind]; rewrite Ha; by eexists). destruct Hx as [x Hx].
    destruct (summary_step seen acc r x Hwr Hsum) as (acc1 & E1 & Hsum1); [intros y Hy; apply Hlt; [done|by left]|done|]. rewrite E1, Hx. cbn [mbind result_bind].
    assert (Hseq : mr_sequence x = Row_SequenceNumber r) by (apply metric_row_key in Hx; unfold metric_key, row_key in Hx; congruence).
    destruct (IH (seen ++ [x]) acc1 Hw Hs) as (acc2 & E2 & Hsum2); [|done|].
    + intros y r' [Hy|Hy%list_elem_of_singleton]%elem_of_app Hr'; [apply Hlt; [done|by right]|subst y; rewrite Hseq; by apply Hr].
    + exists acc2. split; [done|]. by rewrite <-app_assoc in Hsum2.
  - destruct (summary_inactive seen acc r Ha Hsum) as [E1 Hx]. rewrite E1, Hx. cbn [mbind result_bind]. apply IH; [done..| |done].
    intros y r' Hy Hr'. apply Hlt; [done|by right].
Qed.

Lemma milli_sub a b : time_ok a → time_ok b → b ≤ a → milliseconds (time_sub a b) = sub64 (unix_milli a) (unix_milli b).
Proof.
  intros [Ha Hma] [Hb Hmb] Hle. apply Z.mod_divide in Hma as [i ->]; [|done]. apply Z.mod_divide in Hmb as [j ->]; [|done].
  unfold milliseconds, time_sub, sub64, unix_milli. rewrite !Z.div_mul by done.
  rewrite (Z.max_r min_int64), Z.min_r by (unfold_int64; lia). rewrite <-Z.mul_sub_distr_r, Z.quot_mul by done.
  symmetry. apply wrap64_id. unfold_int64. unfold millisecond in *. lia.
Qed.
Lemma summary_metrics seen acc : seen ≠ [] → summary seen acc → Metrics.finish acc = session_metrics seen.
Proof.
  intros Hne Hsum. destruct Hsum. unfold Metrics.finish, session_metrics. rewrite !sum_uint8_eq.
  assert (Hfirst : Metrics.first acc = min_of mr_occurred seen) by (rewrite su_first0; by destruct seen).
  assert (Hlast : Metrics.last acc = max_of mr_occurred seen) by (rewrite su_last0; by destruct seen).
  assert (Hmin : time_ok (min_of mr_occurred seen)).
  { destruct (min_of_in mr_occurred seen Hne) as (x & Hx & <-). rewrite Forall_forall in su_times0. by apply su_times0. }
  assert (Hmax : time_ok (max_of mr_occurred seen)).
  { rewrite max_of_min. destruct (min_of_in (λ x, - mr_occurred x) seen Hne) as (x & Hx & <-). rewrite Z.opp_involutive.
    rewrite Forall_forall in su_times0. by apply su_times0. }
  assert (Hzero : ∀ t, time_ok t → is_zero t = false) by (intros t [H _]; unfold is_zero, zero_time, second; lia).
  assert (Hmins : ∀ x, x ∈ seen → min_of mr_occurred seen ≤ mr_occurred x) by by apply min_of_spec.
  rewrite Hfirst, Hlast, Hzero, milli_sub by (try done; rewrite max_of_min; destruct (min_of_in (λ x, - mr_occurred x) seen Hne) as (x & Hx & <-);
    rewrite Z.opp_involutive; by apply Hmins).
  f_equal; [done..|]. rewrite su_first_run0. unfold first_of. destruct (List.filter _ seen) as [|x l] eqn:Ef; [done|].
  assert (Hin : ∀ y, y ∈ x :: l → y ∈ seen) by (intros y Hy; rewrite <-Ef in Hy; by apply elem_of_filter_bool in Hy as [? _]).
  destruct (min_of_in mr_occurred (x :: l) ltac:(done)) as (y & Hy & Ey).
  assert (Hrun : time_ok (min_of mr_occurred (x :: l))) by (rewrite <-Ey; rewrite Forall_forall in su_times0; by apply su_times0, Hin).
  rewrite Hzero by done. f_equal. apply milli_sub; [done..|]. rewrite <-Ey. by apply Hmins, Hin.
Qed.
End Mirror.

(** ** What the views show *)
Section Shown.
Context `{ch : ClickHouse}.
Definition no_analytics : Warehouse := mkWarehouse [] ∅ [] [] [] [].
(** The rows of the log, with every copy. *)
Definition log_rows (ops : list warehouse_op) (w : Warehouse) : list Row := map strip (events w ++ delivered ops).
Definition analysed (ops : list warehouse_op) (w : Warehouse) : Warehouse := warehouse_history ops (Migrate [] w).2.

Lemma analysed_live ops w : unanalysed w → keyed row_key id (log_rows ops w) → all_live (log_rows ops w) (analysed ops w).
Proof.
  intros Hw Hk. unfold log_rows in *. rewrite map_app in *. apply history_live; [done|]. by apply migrate_fresh.
Qed.

(** The rows of the timeline query, ordered. *)
Lemma timeline_ordered `{UuidLib} company interview session upTo rows : let t := Scoring.timeline_query company interview session upTo rows in
  ∃ R, t = map event_of R ∧ R ≡ₚ Scoring.timeline_rows company interview session upTo rows ∧
    StronglySorted (λ a b, Row_SequenceNumber a < Row_SequenceNumber b) R ∧ Metrics.Dedupe t = t.
Proof.
  cbn. destruct (Scoring.timeline_session (Scoring.mkTrigger "" company interview session upTo) rows) as [Hs _]. cbn in Hs. revert Hs.
  unfold Scoring.timeline_query. set (t := sort_stable _ _). intros Hs.
  assert (Hp : t ≡ₚ map event_of (Scoring.timeline_rows company interview session upTo rows)) by apply sort_stable_perm.
  apply Permutation_map_inv in Hp as (R & Ht & HR).
  exists R. split_and!; [done|by symmetry| |apply Metrics.sorted_head_eq; [apply Metrics.Dedupe_spec|done|intros k; apply Metrics.Dedupe_spec]].
  rewrite Ht in Hs. clear -Hs. induction R as [|r R IH]; [constructor|]. cbn in Hs. apply StronglySorted_inv in Hs as [Hs Hr].
  constructor; [by apply IH|]. apply Forall_forall. intros x Hx. by apply (proj1 (Forall_forall _ _) Hr (event_of x)), list_elem_of_fmap_2.
Qed.

Lemma metric_sequences R : sublist (map mr_sequence (omap metric_row R)) (map Row_SequenceNumber R).
Proof.
  induction R as [|r R IH]; [done|]. cbn [omap list_omap map]. destruct (metric_row r) as [x|] eqn:E; [|by apply sublist_cons].
  cbn [map]. apply metric_row_key in E. unfold metric_key, row_key in E. injection E as _ _ ->. by apply sublist_skip.
Qed.

Lemma session_rows `{UuidLib} I w company interview session upTo R : all_live I w → keyed row_key id I → Forall (λ r, Row_SequenceNumber r ≤ upTo) I →
  R ≡ₚ Scoring.timeline_rows company interview session upTo (events w) →
  map strip_metric (List.filter (of_session (uuid_String company) (uuid_String interview) (uuid_String session)) (table_final metric_key mr_ingested (metric_table w)))
    ≡ₚ map strip_metric (omap metric_row R).
Proof.
  intros [Ht Hl] HI Hup HR. pose proof (metrics_keyed I w Ht HI) as Hmk. pose proof (events_keyed I w Ht HI) as Hek.
  destruct (Hl (mkView "mv_session_metrics" "session_metric_rows" SelectMetrics)) as [_ Hf]; [apply list_elem_of_In; cbn; tauto|]. cbn [Select follows] in Hf.
  pose proof (table_final_same metric_key mr_ingested strip_metric _ Hmk) as Hfin. set (T := table_final _ _ _) in *.
  apply NoDup_Permutation.
  - apply (NoDup_fmap_1 metric_key). rewrite <-list_fmap_compose. apply NoDup_map_filter. exact (table_final_keys metric_key mr_ingested (metric_table w)).
  - apply (NoDup_fmap_1 mr_sequence). rewrite <-list_fmap_compose. eapply sublist_NoDup; [|apply (metric_sequences R)].
    rewrite HR. pose proof (Scoring.NoDup_sequences company interview session upTo (events w)) as Hn. rewrite map_map in Hn. exact Hn.
  - intros x. rewrite !list_elem_of_fmap. split.
    + intros (y & -> & [Hy Hs]%elem_of_filter_bool).
      assert (Hx : strip_metric y ∈ omap metric_row I) by (apply Hf, Hfin; by apply list_elem_of_fmap_2).
      apply list_elem_of_omap in Hx as (r & Hr & Hx). apply (tr_events _ _ Ht) in Hr. apply list_elem_of_fmap in Hr as (r0 & -> & Hr0).
      destruct (proj2 (final_dom (events w) (row_key r0))) as [r1 Hr1]; [by exists r0|].
      pose proof Hr1 as Hr1'. rewrite final_lookup in Hr1'. apply newest_of_some in Hr1' as [Hin1 Hk1].
      assert (Es : strip r1 = strip r0) by by apply Hek. rewrite <-Es, metric_row_strip in Hx. apply fmap_Some in Hx as (z & Hz & Ez).
      exists z. split; [done|]. apply list_elem_of_omap. exists r1. split; [|done]. rewrite HR. apply Scoring.timeline_row.
      unfold of_session in Hs. bool_prop. pose proof (metric_row_key _ _ Hz) as Hk. unfold metric_row in Hz. apply bind_Some in Hz as (s & Hsession & Hz).
      assert (Hsz : mr_session z = s ∧ mr_company z = Row_CompanyID r1 ∧ mr_interview z = Row_InterviewID r1) by (destruct (active r1); [by injection Hz as <-|done]).
      assert (Hyz : mr_session y = mr_session z ∧ mr_company y = mr_company z ∧ mr_interview y = mr_interview z) by (destruct y, z; cbn in Ez |- *; by injection Ez).
      split_and!; [rewrite Hsession; f_equal; naive_solver congruence| |].
      * rewrite Forall_forall in Hup. apply (Hup (strip r1)). apply (tr_events _ _ Ht). by apply list_elem_of_fmap_2.
      * rewrite <-Hr1. f_equal. rewrite <-Hk1. unfold row_key. repeat f_equal; naive_solver congruence.
    + intros (z & -> & Hz). apply list_elem_of_omap in Hz as (r & Hr & Hz). rewrite HR in Hr. apply Scoring.timeline_row in Hr as (Hs & _ & Hr).
      rewrite final_lookup in Hr. apply newest_of_some in Hr as [Hin Hk].
      assert (Hx : strip_metric z ∈ map strip_metric T).
      { apply Hfin, Hf. apply list_elem_of_omap. exists (strip r). split; [|by rewrite metric_row_strip, Hz].
        apply (tr_events _ _ Ht). by apply list_elem_of_fmap_2. }
      apply list_elem_of_fmap in Hx as (y & Ey & Hy). exists y. split; [done|]. apply elem_of_filter_bool. split; [done|].
      unfold metric_row in Hz. rewrite Hs in Hz. cbn [mbind option_bind] in Hz.
      assert (Hsz : mr_session z = uuid_String session ∧ mr_company z = Row_CompanyID r ∧ mr_interview z = Row_InterviewID r) by (destruct (active r); [by injection Hz as <-|done]).
      assert (Hyz : mr_session y = mr_session z ∧ mr_company y = mr_company z ∧ mr_interview y = mr_interview z) by (destruct y, z; cbn in Ey |- *; by injection Ey).
      unfold row_key in Hk. injection Hk as Hk1 Hk2. unfold of_session. rewrite !bool_decide_eq_true_2; [done|naive_solver congruence..].
Qed.

Lemma written_strip r : written (strip r) ↔ written r.
Proof. done. Qed.
Lemma summary_start : summary [] (Metrics.mkAcc Metrics.zero_metrics zero_time zero_time zero_time (-1)).
Proof. constructor; try reflexivity; [by left|constructor]. Qed.


(** C39: the analytics do not count deliveries.  After a first [Migrate] that
    meets no fault and during which nothing is inserted, the four query views show what they would show of a log that got the same events
    in one insert, in any order and copies: redeliveries, merges, backfills and
    failed migrations leave no trace. *)
Theorem views_ignore_redelivery w0 ops once :
  unanalysed w0 → keyed row_key id (log_rows ops w0) → same (map strip once) (log_rows ops w0) →
  let w := analysed ops w0 in
  let w1 := analysed [Inserted once] no_analytics in
  (∀ company interview session, v_session_metrics company interview session w = v_session_metrics company interview session w1) ∧
  (∀ company day, v_task_daily company day w = v_task_daily company day w1) ∧
  (∀ company day, v_funnel company day w = v_funnel company day w1) ∧
  (∀ company period, v_billing_usage company period w = v_billing_usage company period w1).
Proof.
  intros Hw Hk Hs. pose proof (analysed_live ops w0 Hw Hk) as Hl. cbn zeta.
  assert (Hlog : log_rows [Inserted once] no_analytics = map strip once) by (unfold log_rows, delivered; cbn; by rewrite app_nil_r).
  assert (Hw1 : unanalysed no_analytics) by (split; [repeat constructor; apply not_elem_of_empty|done]).
  assert (Hl1 : all_live (map strip once) (analysed [Inserted once] no_analytics)).
  { rewrite <-Hlog. apply analysed_live; [done|]. rewrite Hlog. by apply (same_agree _ (log_rows ops w0)). }
  by apply (views_same (log_rows ops w0) (map strip once)).
Qed.
End Shown.

(** ** Witnesses *)
Module Extraction.
Definition member (name : string) (payload : RawMessage) : option json :=
  match payload with
  | Some (JObject fields) => snd <$> find (λ kv, bool_decide (kv.1 = name)) fields
  | _ => None
  end.
Lemma member_found fields name j : NoDup fields.*1 → (name, j) ∈ fields → member name (Some (JObject fields)) = Some j.
Proof.
  cbn. induction fields as [|[k v] fields IH]; cbn; [by intros _ ?%elem_of_nil|]. intros [Hk Hn]%NoDup_cons [[= -> ->]|Hin]%elem_of_cons.
  - by rewrite bool_decide_eq_true_2.
  - case_bool_decide as E; [|by apply IH]. subst k. destruct Hk. by apply (list_elem_of_fmap_2 fst fields (name, j)).
Qed.
Lemma member_missing fields name : name ∉ fields.*1 → member name (Some (JObject fields)) = None.
Proof.
  cbn. induction fields as [|[k v] fields IH]; cbn; [done|]. intros [Hk Hn]%not_elem_of_cons. rewrite bool_decide_eq_false_2 by congruence. by apply IH.
Qed.
#[export] Instance clickhouse : ClickHouse.
Proof.
  refine {| JSONExtractString := λ p name, match member name p with Some (JString s) => s | _ => ""%string end;
    JSONExtractInt := λ p name, match member name p with Some (JNumber lit) => default 0 (parse_int64 lit) | _ => 0 end;
    toDate := λ t, t / day; toStartOfMonth := λ t, date_month (year t) (month t) / day |}.
  - intros fields name s Hn Hin. by rewrite (member_found _ _ _ Hn Hin).
  - intros fields name z Hn Hin Hz. rewrite (member_found _ _ _ Hn Hin). by rewrite parse_render_int.
  - intros fields name Hn. by rewrite member_missing.
  - intros fields name Hn. by rewrite member_missing.
Defined.

Definition payload_of {P} `{Payload P} (p : P) : RawMessage := match marshal_payload p with Ok j => Some j | Err _ => None end.
Definition at_ (s : Z) : time := 1785000000 * second + s * second.
Definition row {P} `{Payload P} (sequence : Z) (s : Z) (ingested : Z) (p : P) : Row :=
  mkRow "e" "h" "0h" sequence (event_type P) 1 (at_ s) (payload_of p) None None None (Some "1h"%string) None None ingested.
Definition response : AIResponseCompleted := mkAIResponseCompleted "1h" "0h" "p" "managed" "anthropic" "m" "completed" "end_turn" "" "text" 100 40 900.
Definition run : ExecutionCompleted := mkExecutionCompleted "1h" "0h" "x" "succeeded" 0 1500 "" "" false false "".
Definition a_diff : CodeDiff := mkCodeDiff "1h" "0h" 1 "ai_applied" "p" "main.go" "patch" 7 2.
Definition rows (ingested : Z) : list Row := [
  row 1 0 ingested (mkSessionStarted "1h" "0h" "i" "s" 0); row 2 10 ingested response; row 3 20 ingested a_diff;
  row 4 30 ingested (mkExecutionRequested "1h" "0h" "x" "go" "main.go" "k" 1 10); row 5 32 ingested run].
(** Two events before the analytics, then everything, twice, and merges. *)
Definition before_analytics : Warehouse := mkWarehouse (take 2 (rows 1)) ∅ [] [] [] [].
Definition ops : list warehouse_op := [
  Inserted (rows 2); MergedMetrics 0; Migrated [Done; Fault (Plain "lost")]; Inserted (reverse (rows 3)); MergedTasks 0 5; MergedFunnel 0 1; MergedEvents 1; MergedBilling 0;
  Ran (Backfill (mkView "mv_session_metrics" "session_metric_rows" SelectMetrics))].
Definition metrics : Metrics.Metrics := Metrics.mkMetrics 0 1 0 100 40 1 1 "succeeded" 1 1 7 2 7 32000 (Some 30000).

Lemma rows_written ingested : Forall written (rows ingested).
Proof.
  assert (Ht : ∀ n, 0 ≤ n ≤ 100 → time_ok (at_ n)).
  { intros n Hn. unfold time_ok, at_, max_int64, second, millisecond. split; [lia|].
    replace (1785000000 * 1000000000 + n * 1000000000) with ((1785000000000 + n * 1000) * 1000000) by lia. by apply Z.mod_mul. }
  assert (Hc : ∀ P (HP : Payload P) (p : P), payload_ok p → carries p (payload_of p)).
  { intros P HP p Hp. split; [done|]. destruct (payload_roundtrip p Hp) as (j & Hj & _). exists j. unfold payload_of. by rewrite Hj. }
  unfold rows. repeat constructor; try (apply Ht; lia); try (cbn; lia); cbn [row Row_EventType Row_Payload Row_SequenceNumber event_type]; intros E;
    try (exfalso; revert E; vm_compute; discriminate); eexists; apply Hc; solve_representable.
Qed.
Lemma rows_keyed l : (∀ r, r ∈ l → r ∈ map strip (rows 0)) → keyed row_key id l.
Proof.
  intros Hl x y Hx%Hl Hy%Hl E. apply (NoDup_map_unique Row_SequenceNumber (map strip (rows 0))); [|done|done|by injection E].
  apply (bool_decide_eq_true_1 _). vm_compute. reflexivity.
Qed.
Lemma log_in : same (map strip (rows 0)) (log_rows ops before_analytics).
Proof.
  assert (E : log_rows ops before_analytics = take 2 (map strip (rows 0)) ++ map strip (rows 0) ++ reverse (map strip (rows 0))) by reflexivity.
  rewrite E. intros x. rewrite !elem_of_app, elem_of_reverse. split; [auto|]. intros [H|[H|H]]; [by eapply subseteq_take|done..].
Qed.
Lemma before_unanalysed : unanalysed before_analytics.
Proof. split; [apply Forall_forall; intros v _; apply not_elem_of_empty|repeat split]. Qed.
Lemma log_keyed : keyed row_key id (log_rows ops before_analytics).
Proof. apply rows_keyed. intros r Hr. by apply log_in. Qed.
Lemma log_written : Forall written (events before_analytics ++ delivered ops).
Proof.
  assert (H : Forall written (take 2 (rows 1) ++ rows 2 ++ reverse (rows 3))); [|exact H].
  apply Forall_app; split; [apply Forall_take, rows_written|]. apply Forall_app; split; [apply rows_written|]. apply Forall_reverse, rows_written.
Qed.
End Extraction.
#[local] Existing Instance Extraction.clickhouse.


Lemma views_ignore_redelivery_witness :
  v_billing_usage "h" (date_month 2026 7 / day) (analysed Extraction.ops Extraction.before_analytics) = Some (mkUsage 1 100 40 0 0 1 1500).
Proof.
  destruct (views_ignore_redelivery Extraction.before_analytics Extraction.ops (Extraction.rows 0)) as (_ & _ & _ & H).
  - exact Extraction.before_unanalysed.
  - exact Extraction.log_keyed.
  - apply Extraction.log_in.
  - rewrite H. vm_compute. reflexivity.
Defined.

(** A backfill that fails is never made up for: the view exists, so the next
    [Migrate] skips it, and the earlier events are missing for good. *)
Lemma failed_backfill_is_lost :
  let w := (Migrate [Done; Done; Done; Fault (Plain "lost")] Extraction.before_analytics).2 in
  let again := Migrate [] w in
  again.1.1.2 = None ∧ v_session_metrics "h" "0h" "1h" again.2 = None ∧
  is_Some (v_session_metrics "h" "0h" "1h" (Migrate [] Extraction.before_analytics).2).
Proof. split_and!; [vm_compute; reflexivity..|]. eexists. vm_compute. reflexivity. Qed.
