(* ===== verification/Dashboard.v ===== *)
(** * The dashboards (internal/dashboard: clickhouse.go, dashboard.go)

    The two materialized views over the events table with their
    [SummingMergeTree] targets, what the queries read of them after any inserts
    and merges, the summaries per interview, and the three routes of the Admin
    API.  A view counts what it is fed, an event inserted twice counts twice; a
    query fails while its table was never created. *)
From S2P Require Import Prelude Str GoTime Json Rfc3339 Events Domain Rbac Tx MergeTree EventLog.
From S2P Require Import Analytics.
From S2P Require Import Store AdminStore Live.

(** ** The views (clickhouse.go) *)
Definition daily_key : Type := string * Z * EventType.
Definition activity_key : Type := string * string * EventType * string.

(** The columns of [interview_activity] outside its sort key. *)
Record Activity := mkActivity {
  act_events : Z;
  act_lines_added : Z;
  act_lines_removed : Z;
  act_first_at : time;
  act_last_at : time;
}.
Definition add_activity (a b : Activity) : Activity :=
  mkActivity (add_u64 (act_events a) (act_events b)) (add64 (act_lines_added a) (act_lines_added b))
    (add64 (act_lines_removed a) (act_lines_removed b)) (Z.min (act_first_at a) (act_first_at b)) (Z.max (act_last_at a) (act_last_at b)).
(** The summed columns are all zero. *)
Definition no_activity (a : Activity) : bool := (act_events a =? 0) && (act_lines_added a =? 0) && (act_lines_removed a =? 0).

Section Views.
Context `{ch : ClickHouse}.

Definition daily_row (r : Row) : daily_key * Z := ((Row_CompanyID r, toDate (Row_OccurredAt r), Row_EventType r), 1).
Definition detail (r : Row) : string :=
  if is_type EventTypeCodeDiff r then JSONExtractString (Row_Payload r) "origin"
  else if is_type EventTypeExecutionCompleted r || is_type EventTypeAIResponseCompleted r then JSONExtractString (Row_Payload r) "status"
  else "".
Definition activity_row (r : Row) : activity_key * Activity :=
  ((Row_CompanyID r, Row_InterviewID r, Row_EventType r, detail r),
   mkActivity 1 (JSONExtractInt (Row_Payload r) "lines_added") (JSONExtractInt (Row_Payload r) "lines_removed")
     (Row_OccurredAt r) (Row_OccurredAt r)).

(** ** The tables *)
Record Board := mkBoard {
  created : gset string;
  daily : list (daily_key * Z);
  activity : list (activity_key * Activity);
}.
Definition new_board : Board := mkBoard ∅ [] [].

(** [viewDDL]: each statement creates what it names if it is not there. *)
Definition viewDDL : list string := ["company_daily_events"; "company_daily_events_mv"; "interview_activity"; "interview_activity_mv"]%string.
Definition create_view (name : string) (b : Board) : Board := mkBoard ({[name]} ∪ created b) (daily b) (activity b).
Fixpoint run_ddl (ddl : list string) : M Board () :=
  match ddl with [] => mret () | name :: ddl => wrapM "dashboard: ensure views" (exec (create_view name));; run_ddl ddl end.
Definition EnsureViews : M Board () := run_ddl viewDDL.

Inductive source := DailyView | ActivityView.
#[export] Instance source_eq_dec : EqDecision source.
Proof. solve_decision. Defined.
Definition view_name (v : source) : string :=
  match v with DailyView => "company_daily_events_mv" | ActivityView => "interview_activity_mv" end.
(** What a view inserts for a block: its SELECT groups the block. *)
Definition feed (v : source) (block : list Row) (b : Board) : Board :=
  match v with
  | DailyView => mkBoard (created b) (daily b ++ map_to_list (merged add_u64 (map daily_row block))) (activity b)
  | ActivityView => mkBoard (created b) (daily b) (activity b ++ map_to_list (merged add_activity (map activity_row block)))
  end.
Definition feeds (v : source) (b : Board) : bool := bool_decide (view_name v ∈ created b).

(** The events table gets a block, and of its views those in [reached]: an
    insert may fail after some of its views. Merges happen at any time. *)
Inductive board_op :=
  | Fed (block : list Row) (reached : list source)
  | Ensured (fs : script)
  | MergedDaily (i j : nat)
  | MergedActivity (i j : nat)
  | ClearedDaily (i : nat)
  | ClearedActivity (i : nat).
Definition exec_board (o : board_op) (b : Board) : Board :=
  match o with
  | Fed block reached => foldl (λ b v, if feeds v b && bool_decide (v ∈ reached) then feed v block b else b) b [DailyView; ActivityView]
  | Ensured fs => state_after EnsureViews fs b
  | MergedDaily i j => mkBoard (created b) (combine_at add_u64 i j (daily b)) (activity b)
  | MergedActivity i j => mkBoard (created b) (daily b) (combine_at add_activity i j (activity b))
  | ClearedDaily i => mkBoard (created b) (drop_zero_at (λ n, n =? 0) i (daily b)) (activity b)
  | ClearedActivity i => mkBoard (created b) (daily b) (drop_zero_at no_activity i (activity b))
  end.
Definition board_history (ops : list board_op) (b : Board) : Board := foldl (λ b o, exec_board o b) b ops.

(** The events a view was fed. *)
Definition fed_by (v : source) (o : board_op) (b : Board) : list Row :=
  match o with Fed block reached => if feeds v b && bool_decide (v ∈ reached) then block else [] | _ => [] end.
Fixpoint fed (v : source) (ops : list board_op) (b : Board) : list Row :=
  match ops with
  | [] => []
  | o :: ops => fed_by v o b ++ fed v ops (exec_board o b)
  end.

(** ** The queries *)
(** A query of a table that was never created fails. *)
Definition from_table {A} (name : string) (f : Board → A) : M Board A := stmt (λ b,
  if bool_decide (name ∈ created b) then Ok (f b, b) else Err (Plain "UNKNOWN_TABLE")).
Record DailyCount := mkDailyCount { Day : string; Daily_EventType : EventType; Daily_Events : Z }.
(** [day.Format(time.DateOnly)] of midnight on the given day. *)
Definition format_date (t : time) : string := pad4 (year t) (String "-"%char (pad2 (month t) (String "-"%char (pad2 (day_of_month t) "")))).
Definition by_day (a b : (Z * EventType) * Z) : bool :=
  (a.1.1 <? b.1.1) || (a.1.1 =? b.1.1) && String.ltb a.1.2 b.1.2.
Definition daily_of (company : string) (since : Z) : daily_key → option (Z * EventType) :=
  λ '(c, d, ty), if bool_decide (c = company) && (since <=? d) then Some (d, ty) else None.
(** [dailyQuery]. *)
Definition daily_query (company : string) (since : time) (b : Board) : list ((Z * EventType) * Z) :=
  sort_stable by_day (map_to_list (merged add_u64 (omap (regroup (daily_of company (toDate since)) (λ _ n, n)) (daily b)))).
Context `{uuids : UuidLib}.
Definition DailyEvents (company : UUID) (since : time) : M Board (list DailyCount) :=
  rows ← wrapM "dashboard: daily events" (from_table "company_daily_events" (daily_query (uuid_String company) since));
  mret (map (λ r, mkDailyCount (format_date (r.1.1 * day)) r.1.2 r.2) rows).

Record ActivityRow := mkActivityRow {
  AR_InterviewID : string;
  AR_EventType : EventType;
  AR_Detail : string;
  AR_Activity : Activity;
}.
Definition activity_of (company : string) : activity_key → option (string * EventType * string) :=
  λ '(c, i, ty, d), if bool_decide (c = company) then Some (i, ty, d) else None.
(** [activityQuery] has no ORDER BY: its rows come in any order. *)
Context (any_order : list ActivityRow → list ActivityRow).
Definition activity_query (company : string) (b : Board) : list ActivityRow :=
  any_order (map (λ r, mkActivityRow r.1.1.1 r.1.1.2 r.1.2 r.2)
    (map_to_list (merged add_activity (omap (regroup (activity_of company) (λ _ a, a)) (activity b))))).
Definition ActivityRows (company : UUID) : M Board (list ActivityRow) :=
  wrapM "dashboard: interview activity" (from_table "interview_activity" (activity_query (uuid_String company))).
End Views.

(** ** Summaries (dashboard.go) *)
Record Totals := mkTotals {
  Total_Events : Z;
  Prompts : Z;
  AIResponses : Z;
  Runs : Z;
  RunsSucceeded : Z;
  Diffs : Z;
  AIAppliedDiffs : Z;
  LinesAdded : Z;
  LinesRemoved : Z;
  FirstAt : time;
  LastAt : time;
}.
Record InterviewActivity := mkInterviewActivity { IA_InterviewID : string; IA_Totals : Totals }.

(** The switch on the event type of a row. *)
Definition count_row (r : ActivityRow) (a : Totals) : Totals :=
  let n := act_events (AR_Activity r) in
  let ty := AR_EventType r in
  let 'mkTotals ev p ai rn rs df aid la lr f l := a in
  if bool_decide (ty = EventTypePromptSubmitted) then mkTotals ev (add_u64 p n) ai rn rs df aid la lr f l
  else if bool_decide (ty = EventTypeAIResponseCompleted) then mkTotals ev p (add_u64 ai n) rn rs df aid la lr f l
  else if bool_decide (ty = EventTypeExecutionRequested) then mkTotals ev p ai (add_u64 rn n) rs df aid la lr f l
  else if bool_decide (ty = EventTypeExecutionCompleted) then
    mkTotals ev p ai rn (if bool_decide (AR_Detail r = ExecutionStatusSucceeded) then add_u64 rs n else rs) df aid la lr f l
  else if bool_decide (ty = EventTypeCodeDiff) then
    mkTotals ev p ai rn rs (add_u64 df n) (if bool_decide (AR_Detail r = DiffOriginAIApplied) then add_u64 aid n else aid)
      (add64 la (act_lines_added (AR_Activity r))) (add64 lr (act_lines_removed (AR_Activity r))) f l
  else a.
(** One round of the loop on the entry of the row's interview. *)
Definition add_row (r : ActivityRow) (a : Totals) : Totals :=
  let act := AR_Activity r in
  let 'mkTotals ev p ai rn rs df aid la lr f l := a in
  count_row r (mkTotals (add_u64 ev (act_events act)) p ai rn rs df aid la lr
    (if before (act_first_at act) f then act_first_at act else f) (if after (act_last_at act) l then act_last_at act else l)).
Definition new_totals (r : ActivityRow) : Totals :=
  mkTotals 0 0 0 0 0 0 0 0 0 (act_first_at (AR_Activity r)) (act_last_at (AR_Activity r)).
Definition sum_rows (rows : list ActivityRow) : gmap string Totals :=
  foldl (λ byID r, <[AR_InterviewID r := add_row r (default (new_totals r) (byID !! AR_InterviewID r))]> byID) ∅ rows.
Definition recent (a b : InterviewActivity) : bool :=
  let la := LastAt (IA_Totals a) in let lb := LastAt (IA_Totals b) in
  if negb (la =? lb) then after la lb else String.ltb (IA_InterviewID a) (IA_InterviewID b).
Definition Summarize (rows : list ActivityRow) : list InterviewActivity :=
  sort_stable recent (map (λ x, mkInterviewActivity x.1 x.2) (map_to_list (sum_rows rows))).

(** ** What the dashboards should show

    Read off the events themselves. *)
Section Reference.
Context `{ch : ClickHouse}.
Definition count_of (p : Row → bool) (rows : list Row) : Z := Z.of_nat (length (List.filter p rows)).
Definition of_company (company : string) (r : Row) : bool := bool_decide (Row_CompanyID r = company).
Definition of_interview (company interview : string) (r : Row) : bool := of_company company r && bool_decide (Row_InterviewID r = interview).
Definition succeeded (r : Row) : bool :=
  is_type EventTypeExecutionCompleted r && bool_decide (JSONExtractString (Row_Payload r) "status" = ExecutionStatusSucceeded).
Definition ai_applied (r : Row) : bool :=
  is_type EventTypeCodeDiff r && bool_decide (JSONExtractString (Row_Payload r) "origin" = DiffOriginAIApplied).
Definition lines (name : string) (r : Row) : Z := if is_type EventTypeCodeDiff r then JSONExtractInt (Row_Payload r) name else 0.

Definition totals_of (rows : list Row) : Totals :=
  mkTotals (count_of (λ _, true) rows) (count_of (is_type EventTypePromptSubmitted) rows)
    (count_of (is_type EventTypeAIResponseCompleted) rows) (count_of (is_type EventTypeExecutionRequested) rows)
    (count_of succeeded rows) (count_of (is_type EventTypeCodeDiff) rows) (count_of ai_applied rows)
    (sum_int64 (lines "lines_added") rows) (sum_int64 (lines "lines_removed") rows)
    (min_of Row_OccurredAt rows) (max_of Row_OccurredAt rows).
Definition summary (company : string) (rows : list Row) : list InterviewActivity :=
  sort_stable recent (map (λ id, mkInterviewActivity id (totals_of (List.filter (of_interview company id) rows)))
    (remove_dups (map Row_InterviewID (List.filter (of_company company) rows)))).
Definition on_day (company : string) (k : Z * EventType) (r : Row) : bool :=
  of_company company r && (toDate (Row_OccurredAt r) =? k.1) && bool_decide (Row_EventType r = k.2).
Definition days (company : string) (since : Z) (rows : list Row) : list ((Z * EventType) * Z) :=
  sort_stable by_day (map (λ k, (k, count_of (on_day company k) rows))
    (remove_dups (map (λ r, (toDate (Row_OccurredAt r), Row_EventType r))
       (List.filter (λ r, of_company company r && (since <=? toDate (Row_OccurredAt r))) rows)))).
End Reference.

(** ** Orders *)
Lemma recent_asym a b : recent a b = true → recent b a = false.
Proof. unfold recent, after. intros H. repeat case_match; bool_prop; try done; try lia. by apply ltb_asym. Qed.
Lemma recent_trans a b c : not_less recent a b → not_less recent b c → not_less recent a c.
Proof. unfold not_less, recent, after. intros; repeat case_match; bool_prop; try done; try lia. by eapply ltb_trans. Qed.
Lemma recent_id a b : recent a b = false → recent b a = false → IA_InterviewID a = IA_InterviewID b.
Proof. unfold recent, after. intros; repeat case_match; bool_prop; try done; try lia. by apply ltb_antisym. Qed.
Lemma by_day_spec a b : by_day a b = false ↔ b.1.1 < a.1.1 ∨ b.1.1 = a.1.1 ∧ String.ltb a.1.2 b.1.2 = false.
Proof.
  unfold by_day. rewrite orb_false_iff, Z.ltb_ge. destruct (Z.eqb_spec (a.1.1) (b.1.1)) as [E|E]; cbn [andb].
  - rewrite E. split; [intros [_ H]; by right|intros [H|[_ H]]; [lia|by split]].
  - split; [intros [H _]; left; lia|intros [H|[H _]]; [split; [lia|done]|lia]].
Qed.
Lemma by_day_asym a b : by_day a b = true → by_day b a = false.
Proof.
  intros H. apply by_day_spec. unfold by_day in H. apply orb_true_iff in H as [H|H]; bool_prop; [left; lia|].
  right. split; [lia|]. by apply ltb_asym.
Qed.
Lemma by_day_trans a b c : not_less by_day a b → not_less by_day b c → not_less by_day a c.
Proof.
  unfold not_less. rewrite !by_day_spec. intros [H1|[H1 H1']] [H2|[H2 H2']]; [left; lia..|right]. split; [lia|by eapply ltb_trans].
Qed.
Lemma by_day_key a b : by_day a b = false → by_day b a = false → a.1 = b.1.
Proof.
  rewrite !by_day_spec. destruct a as [[d t] n], b as [[d' t'] n']; cbn. intros [H1|[H1 H1']] [H2|[H2 H2']]; [lia..|].
  f_equal; [lia|by apply ltb_antisym].
Qed.

(** ** What the tables hold *)
#[export] Instance add_activity_combines : Combines add_activity.
Proof.
  assert (Ha : ∀ a b c, add64 a (add64 b c) = add64 (add64 a b) c).
  { intros a b c. unfold add64. rewrite wrap64_wrap64_add, (Z.add_comm a (wrap64 _)), wrap64_wrap64_add. f_equal. lia. }
  split; [intros [?????] [?????] [?????]|intros [?????] [?????]]; unfold add_activity; cbn; f_equal;
    try lia; try apply (assoc add_u64); try apply (comm add_u64); try apply Ha; unfold add64; by rewrite Z.add_comm.
Qed.

Section Held.
Context `{ch : ClickHouse}.

Definition same_rows (b b' : Board) : Prop := daily b' = daily b ∧ activity b' = activity b.
#[local] Instance same_rows_preorder : PreOrder same_rows.
Proof. split; [done|]. intros x y z [H1 H2] [H3 H4]. split; congruence. Qed.
Lemma EnsureViews_rows fs b : same_rows b (state_after EnsureViews fs b).
Proof.
  revert fs b. change (stays same_rows EnsureViews). unfold EnsureViews. induction viewDDL as [|name ddl IH]; cbn [run_ddl].
  - apply stays_ret. apply _.
  - apply stays_bind; [apply _| |intros _; exact IH]. apply stays_wrapM, stays_exec; [apply _|done].
Qed.

(** [d] and [a] are what the views were fed. *)
Record holds (d a : list Row) (b : Board) : Prop := {
  holds_daily : merged add_u64 (daily b) = merged add_u64 (map daily_row d);
  holds_days : counts (λ n, n) (Z.of_nat (length d)) (daily b);
  holds_activity : merged add_activity (activity b) = merged add_activity (map activity_row a);
  holds_events : counts act_events (Z.of_nat (length a)) (activity b);
}.

Lemma counts_ones {K S} (count : S → Z) (f : Row → K * S) block : (∀ r, count (f r).2 = 1) →
  counts count (Z.of_nat (length block)) (map f block).
Proof.
  intros Hf. split; [apply Forall_forall; intros x Hx; apply list_elem_of_In, in_map_iff in Hx as (r & <- & _); by rewrite Hf|].
  induction block as [|r block IH]; [done|]. cbn [map length]. rewrite weight_cons, IH, Hf. lia.
Qed.
Lemma counts_grouped {K S} `{Countable K} (combine : S → S → S) `{!Combines combine} (count : S → Z) (f : Row → K * S) n block rows :
  (∀ a b, count (combine a b) = add_u64 (count a) (count b)) → (∀ r, count (f r).2 = 1) →
  n + Z.of_nat (length block) < two64 → 0 ≤ n → counts count n rows →
  counts count (n + Z.of_nat (length block)) (rows ++ map_to_list (merged combine (map f block))).
Proof.
  intros Hc Hf Hn H0 Hr. apply counts_app; [done|]. apply counts_merged; [done|lia|]. by apply counts_ones.
Qed.

Lemma feed_holds v block d a b :
  Z.of_nat (length (match v with DailyView => d | ActivityView => a end ++ block)) < two64 → holds d a b →
  match v with DailyView => holds (d ++ block) a (feed v block b) | ActivityView => holds d (a ++ block) (feed v block b) end.
Proof.
  intros Hn [H1 H2 H3 H4]. rewrite length_app, Nat2Z.inj_add in Hn.
  destruct v; split; try done; cbn [daily activity feed]; rewrite ?length_app, ?Nat2Z.inj_add, ?map_app.
  - apply (merged_app_same add_u64); [done|]. apply (merged_grouped add_u64).
  - apply (counts_grouped add_u64 (λ n, n)); [done|done|lia|lia|done].
  - apply (merged_app_same add_activity); [done|]. apply (merged_grouped add_activity).
  - apply (counts_grouped add_activity act_events); [done|done|lia|lia|done].
Qed.

Lemma same_holds d a b b' : same_rows b b' → holds d a b → holds d a b'.
Proof. intros [E1 E2] [H1 H2 H3 H4]. split; by rewrite ?E1, ?E2. Qed.

Lemma exec_holds o d a b :
  Z.of_nat (length (d ++ fed_by DailyView o b)) < two64 → Z.of_nat (length (a ++ fed_by ActivityView o b)) < two64 →
  holds d a b → holds (d ++ fed_by DailyView o b) (a ++ fed_by ActivityView o b) (exec_board o b).
Proof.
  intros Hd Ha H. destruct o as [block reached|fs|i j|i j|i|i]; cbn [fed_by exec_board foldl] in *; rewrite ?app_nil_r in *.
  - set (b1 := if feeds DailyView b && bool_decide (DailyView ∈ reached) then feed DailyView block b else b).
    assert (H1 : holds (d ++ (if feeds DailyView b && bool_decide (DailyView ∈ reached) then block else [])) a b1).
    { subst b1. destruct (_ && _); [|by rewrite app_nil_r]. by apply (feed_holds DailyView block d a b). }
    assert (Hf : feeds ActivityView b1 = feeds ActivityView b) by (subst b1; by destruct (_ && _)). rewrite Hf. clearbody b1.
    destruct (feeds ActivityView b && _); [|by rewrite app_nil_r]. by apply (feed_holds ActivityView block _ a b1).
  - by eapply same_holds; [apply EnsureViews_rows|].
  - destruct H as [H1 H2 H3 H4]. split; try done; cbn [daily].
    + by rewrite (merged_combine_at add_u64).
    + by apply (counts_combine_at add_u64 (λ n, n)).
  - destruct H as [H1 H2 H3 H4]. split; try done; cbn [activity].
    + by rewrite (merged_combine_at add_activity).
    + by apply (counts_combine_at add_activity act_events).
  - eapply same_holds; [|exact H]. split; [|done]. cbn [daily]. eapply (counts_drop_zero _ (λ n, n)); [|apply H].
    intros n Hn. by apply Z.eqb_eq.
  - eapply same_holds; [|exact H]. split; [done|]. cbn [activity]. eapply (counts_drop_zero _ act_events); [|apply H].
    intros n Hn. unfold no_activity in Hn. bool_prop. done.
Qed.

Lemma history_holds ops d a b :
  Z.of_nat (length (d ++ fed DailyView ops b)) < two64 → Z.of_nat (length (a ++ fed ActivityView ops b)) < two64 →
  holds d a b → holds (d ++ fed DailyView ops b) (a ++ fed ActivityView ops b) (board_history ops b).
Proof.
  revert d a b. induction ops as [|o ops IH]; intros d a b Hd Ha H; cbn [fed board_history foldl] in *; [by rewrite !app_nil_r|].
  rewrite (app_assoc d) in Hd |- *. rewrite (app_assoc a) in Ha |- *. apply IH; [done|done|]. rewrite length_app in Hd, Ha. apply exec_holds; [lia|lia|done].
Qed.
Lemma new_holds : holds [] [] new_board.
Proof. by split. Qed.
End Held.

(** ** Grouping the rows of the events *)
Section Grouped.
Context {K S : Type} `{CntK : Countable K} (combine : S → S → S) `{!Combines combine}.
Context (key : Row → option K) (state : Row → S) (total : list Row → S).
Hypothesis total_one : ∀ r, total [r] = state r.
Hypothesis total_cons : ∀ r l, l ≠ [] → Z.of_nat (length (r :: l)) < two64 → total (r :: l) = combine (state r) (total l).

Definition contribution (r : Row) : option (K * S) := k ← key r; Some (k, state r).
Definition has_key (k : K) (r : Row) : bool := bool_decide (key r = Some k).
Lemma contribution_key r k : contribution r ≫= at_key k = if has_key k r then Some (state r) else None.
Proof.
  unfold contribution, has_key. destruct (key r) as [k'|]; cbn; [|by rewrite bool_decide_eq_false_2]. unfold at_key. cbn.
  destruct (decide (k' = k)) as [->|Hk]; [by rewrite bool_decide_eq_true_2|]. rewrite bool_decide_eq_false_2; [done|congruence].
Qed.
Lemma grouped_lookup rows k : Z.of_nat (length rows) < two64 →
  merged combine (omap contribution rows) !! k = match List.filter (has_key k) rows with [] => None | l => Some (total l) end.
Proof.
  rewrite (merged_lookup combine). induction rows as [|r rows IH]; intros Hn; [done|].
  transitivity (combine_opt combine (contribution r ≫= at_key k) (merged_of combine k (omap contribution rows))).
  { change (omap contribution (r :: rows)) with (match contribution r with Some x => x :: omap contribution rows | None => omap contribution rows end).
    destruct (contribution r) as [x|]; [apply (merged_of_cons combine)|]. by destruct (merged_of combine k (omap contribution rows)). }
  rewrite IH by (cbn in Hn; lia). rewrite contribution_key. cbn [List.filter]. destruct (has_key k r); [|by destruct (List.filter _ _)].
  pose proof (filter_length_le (has_key k) rows) as Hl. destruct (List.filter (has_key k) rows) as [|r' l]; cbn; [by rewrite total_one|].
  rewrite (total_cons r (r' :: l)); [done|done|]. cbn in Hn, Hl |- *. lia.
Qed.
(** The groups, in some order. *)
Lemma grouped_list rows : Z.of_nat (length rows) < two64 →
  map_to_list (merged combine (omap contribution rows)) ≡ₚ
  map (λ k, (k, total (List.filter (has_key k) rows))) (remove_dups (omap key rows)).
Proof.
  intros Hn. apply NoDup_Permutation.
  - apply NoDup_map_to_list.
  - set (f k := (k, total (List.filter (has_key k) rows))). assert (Inj (=) (=) f) by by intros k k' [=].
    apply (NoDup_fmap_2 f), NoDup_remove_dups.
  - intros [k s]. rewrite elem_of_map_to_list, grouped_lookup by done. rewrite list_elem_of_In, in_map_iff.
    assert (Hk : k ∈ omap key rows ↔ ∃ r, r ∈ List.filter (has_key k) rows).
    { rewrite list_elem_of_omap. setoid_rewrite elem_of_filter_bool. unfold has_key. split.
      - intros (r & Hr & E). exists r. split; [done|]. by apply bool_decide_eq_true.
      - intros (r & Hr & E). exists r. split; [done|]. by apply bool_decide_eq_true in E. }
    setoid_rewrite <-list_elem_of_In. setoid_rewrite elem_of_remove_dups. split.
    + destruct (List.filter (has_key k) rows) as [|r l] eqn:E; [done|]. intros [= <-]. exists k. rewrite E. split; [done|].
      apply Hk. exists r. left.
    + intros (k' & [= -> <-] & H). apply Hk in H as [r Hr]. destruct (List.filter (has_key k) rows); [by apply not_elem_of_nil in Hr|done].
Qed.
End Grouped.

(** ** The daily counts *)
Lemma omap_map {A B C} (f : A → B) (g : B → option C) (h : A → option C) l : (∀ x, g (f x) = h x) → omap g (map f l) = omap h l.
Proof. intros H. induction l as [|x l IH]; [done|]. cbn. rewrite H. cbn in IH. by rewrite IH. Qed.
Lemma omap_filter {A B} (p : A → bool) (f : A → B) (g : A → option B) l : (∀ x, g x = if p x then Some (f x) else None) →
  omap g l = map f (List.filter p l).
Proof. intros H. induction l as [|x l IH]; [done|]. cbn. rewrite H. destruct (p x); cbn in *; by rewrite IH. Qed.

Section Shown.
Context `{ch : ClickHouse}.

Lemma daily_query_spec company since d a b : holds d a b → Z.of_nat (length d) < two64 →
  daily_query company since b = days company (toDate since) d.
Proof.
  intros H Hn. unfold daily_query, days. set (s := toDate since). symmetry. apply sort_stable_unique.
  - exact by_day_trans.
  - exact by_day_asym.
  - intros x y Hx Hy H1 H2. pose proof (by_day_key _ _ H1 H2) as Hk. apply list_elem_of_In, in_map_iff in Hx as (k & <- & _).
    apply list_elem_of_In, in_map_iff in Hy as (k' & <- & _). cbn in Hk. by subst k'.
  - rewrite (merged_regroup_same add_u64 add_u64 (daily_of company s) (λ _ n, n) (λ _ _ _, eq_refl) _ _ (holds_daily _ _ _ H)).
    set (key r := daily_of company s (daily_row r).1).
    rewrite (omap_map daily_row _ (contribution key (λ _, 1))) by reflexivity.
    rewrite (grouped_list add_u64 key (λ _, 1) (λ l, Z.of_nat (length l))); [|done| |done].
    2: { intros r l _ Hl. unfold add_u64. cbn [length] in Hl |- *. rewrite Z.mod_small; lia. }
    rewrite (omap_filter (λ r, of_company company r && (s <=? toDate (Row_OccurredAt r))) (λ r, (toDate (Row_OccurredAt r), Row_EventType r)) key)
      by (intros r; unfold key, daily_of, daily_row, of_company; cbn; by destruct (bool_decide _ && _)).
    apply Permutation_refl', map_ext_in. intros k Hk. apply list_elem_of_In, elem_of_remove_dups, list_elem_of_In, in_map_iff in Hk as (r & <- & Hr).
    apply filter_In in Hr as [_ Hr]. bool_prop. f_equal. unfold count_of. f_equal. f_equal. apply filter_ext_in. intros r' _.
    unfold on_day, has_key, key, daily_of, daily_row. cbn. fold (of_company company r').
    destruct (of_company company r') eqn:Ec; cbn [andb]; [|symmetry; by apply bool_decide_eq_false_2].
    destruct (Z.leb_spec s (toDate (Row_OccurredAt r'))).
    + apply eq_true_iff_eq. rewrite andb_true_iff, !bool_decide_eq_true, Z.eqb_eq. split; [by intros [-> ->]|by intros [= -> ->]].
    + rewrite (bool_decide_eq_false_2 (None = _)) by done. destruct (Z.eqb_spec (toDate (Row_OccurredAt r')) (toDate (Row_OccurredAt r))) as [E|E]; [lia|done].
Qed.
End Shown.

(** ** The summaries *)
Definition add_totals (a b : Totals) : Totals :=
  mkTotals (add_u64 (Total_Events a) (Total_Events b)) (add_u64 (Prompts a) (Prompts b)) (add_u64 (AIResponses a) (AIResponses b))
    (add_u64 (Runs a) (Runs b)) (add_u64 (RunsSucceeded a) (RunsSucceeded b)) (add_u64 (Diffs a) (Diffs b))
    (add_u64 (AIAppliedDiffs a) (AIAppliedDiffs b)) (add64 (LinesAdded a) (LinesAdded b)) (add64 (LinesRemoved a) (LinesRemoved b))
    (Z.min (FirstAt a) (FirstAt b)) (Z.max (LastAt a) (LastAt b)).
Lemma add64_assoc a b c : add64 a (add64 b c) = add64 (add64 a b) c.
Proof. unfold add64. rewrite wrap64_wrap64_add, (Z.add_comm a (wrap64 _)), wrap64_wrap64_add. f_equal. lia. Qed.
#[export] Instance add_totals_combines : Combines add_totals.
Proof.
  split; [intros [???????????] [???????????] [???????????]|intros [???????????] [???????????]]; unfold add_totals; cbn; f_equal;
    try lia; try apply (assoc add_u64); try apply (comm add_u64); try apply add64_assoc; unfold add64; by rewrite Z.add_comm.
Qed.

(** Values of the fields' types. *)
Definition u64 (z : Z) : Prop := 0 ≤ z < two64.
Record normal (t : Totals) : Prop := {
  normal_events : u64 (Total_Events t); normal_prompts : u64 (Prompts t); normal_responses : u64 (AIResponses t);
  normal_runs : u64 (Runs t); normal_succeeded : u64 (RunsSucceeded t); normal_diffs : u64 (Diffs t); normal_ai : u64 (AIAppliedDiffs t);
  normal_added : in_int64 (LinesAdded t); normal_removed : in_int64 (LinesRemoved t);
}.
Lemma add_u64_range a b : u64 (add_u64 a b).
Proof. unfold u64, add_u64. apply Z.mod_pos_bound. done. Qed.
Lemma add_u64_0_r a : u64 a → add_u64 a 0 = a.
Proof. intros H. unfold add_u64. rewrite Z.add_0_r. by apply Z.mod_small. Qed.
Lemma add_u64_0_l a b : add_u64 a (add_u64 0 b) = add_u64 a b.
Proof. unfold add_u64. by rewrite Zplus_mod_idemp_r. Qed.
Lemma add64_0_r a : in_int64 a → add64 a 0 = a.
Proof. intros H. unfold add64. rewrite Z.add_0_r. auto with int64. Qed.
Lemma add64_0_l a b : add64 a (add64 0 b) = add64 a b.
Proof. unfold add64. by rewrite Z.add_comm, wrap64_wrap64_add, Z.add_comm. Qed.
Lemma add64_range a b : in_int64 (add64 a b).
Proof. unfold add64. auto with int64. Qed.

Definition row_totals (r : ActivityRow) : Totals := add_row r (new_totals r).
Lemma add_row_normal r a : normal a → normal (add_row r a).
Proof.
  destruct a as [ev p ai rn rs df aid la lr f l]. intros [H1 H2 H3 H4 H5 H6 H7 H8 H9]. cbn in *. unfold count_row.
  repeat case_match; split; cbn; first [assumption|apply add_u64_range|apply add64_range].
Qed.
Lemma new_totals_normal r : normal (new_totals r).
Proof. by split. Qed.
Lemma first_min x f : (if x <? f then x else f) = Z.min f x.
Proof. destruct (Z.ltb_spec x f); lia. Qed.
Lemma last_max x l : (if l <? x then x else l) = Z.max l x.
Proof. destruct (Z.ltb_spec l x); lia. Qed.
Lemma add_row_totals r a : normal a → add_row r a = add_totals a (row_totals r).
Proof.
  destruct a as [ev p ai rn rs df aid la lr f l]. intros [H1 H2 H3 H4 H5 H6 H7 H8 H9].
  unfold row_totals, new_totals, add_row, count_row, add_totals, before, after. cbn in *.
  rewrite (first_min (act_first_at (AR_Activity r))), (last_max (act_last_at (AR_Activity r))), !Z.ltb_irrefl.
  repeat case_bool_decide; cbn; f_equal; by rewrite ?add_u64_0_l, ?add64_0_l, ?add_u64_0_r, ?add64_0_r.
Qed.

Lemma sum_rows_merged rows : sum_rows rows = merged add_totals (map (λ r, (AR_InterviewID r, row_totals r)) rows).
Proof.
  enough (sum_rows rows = merged add_totals (map (λ r, (AR_InterviewID r, row_totals r)) rows) ∧ map_Forall (λ _ t, normal t) (sum_rows rows)) by tauto.
  induction rows as [|r rows [IH Hn]] using rev_ind; [done|]. unfold sum_rows in *. rewrite map_app. unfold merged in *. rewrite !foldl_app, <-IH.
  cbn [foldl map fst snd]. set (m := foldl _ _ _) in *. clearbody m. clear IH.
  assert (Hd : normal (default (new_totals r) (m !! AR_InterviewID r))).
  { destruct (m !! _) as [t|] eqn:E; [by apply (Hn _ _ E)|apply new_totals_normal]. }
  split; [|by apply map_Forall_insert_2; [apply add_row_normal|]].
  apply map_eq. intros k. destruct (decide (AR_InterviewID r = k)) as [<-|Hk].
  - rewrite lookup_insert_eq, lookup_partial_alter_eq. destruct (m !! AR_InterviewID r) as [t|] eqn:E; cbn in *; [by rewrite add_row_totals|done].
  - by rewrite lookup_insert_ne, lookup_partial_alter_ne.
Qed.

Lemma min_of_cons {A} (f : A → Z) x l : l ≠ [] → min_of f (x :: l) = Z.min (f x) (min_of f l).
Proof. intros Hl. by rewrite (min_of_perm f _ _ (Permutation_cons_append l x)), min_of_snoc, Z.min_comm. Qed.
Lemma max_of_cons {A} (f : A → Z) x l : l ≠ [] → max_of f (x :: l) = Z.max (f x) (max_of f l).
Proof. intros Hl. rewrite !max_of_min, min_of_cons by done. lia. Qed.

Lemma omap_omap {A B C} (f : A → option B) (g : B → option C) (l : list A) : omap g (omap f l) = omap (λ x, f x ≫= g) l.
Proof. induction l as [|x l IH]; [done|]. cbn in *. destruct (f x) as [y|]; cbn; [|done]. cbn in IH. by rewrite IH. Qed.

Section Summaries.
Context `{ch : ClickHouse}.

(** Decides which of two constant event types it is. *)
Ltac event_types := repeat match goal with |- context [bool_decide (?a = ?b)] =>
  first [change (bool_decide (a = b)) with true | change (bool_decide (a = b)) with false] end.
(** The row of a single event. *)
Definition event_row (r : Row) : ActivityRow := mkActivityRow (Row_InterviewID r) (Row_EventType r) (detail r) (activity_row r).2.

Lemma totals_of_one r : totals_of [r] = row_totals (event_row r).
Proof.
  unfold totals_of, row_totals, new_totals, add_row, count_row, event_row, activity_row, detail, count_of, succeeded, ai_applied, sum_int64, sum_of, lines,
    min_of, max_of, before, after, is_type. cbn -[bool_decide add_u64 add64 wrap64 EventTypePromptSubmitted EventTypeAIResponseCompleted EventTypeExecutionRequested
    EventTypeExecutionCompleted EventTypeCodeDiff]. rewrite !Z.ltb_irrefl.
  generalize (Row_EventType r). intros ty.
  destruct (bool_decide_reflect (ty = EventTypePromptSubmitted)) as [->|H1]; [by event_types|].
  destruct (bool_decide_reflect (ty = EventTypeAIResponseCompleted)) as [->|H2]; [by event_types|].
  destruct (bool_decide_reflect (ty = EventTypeExecutionRequested)) as [->|H3]; [by event_types|].
  destruct (bool_decide_reflect (ty = EventTypeExecutionCompleted)) as [->|H4].
  { event_types. cbn -[wrap64 add64 bool_decide]. by destruct (bool_decide (_ = ExecutionStatusSucceeded)). }
  destruct (bool_decide_reflect (ty = EventTypeCodeDiff)) as [->|H5]; [|reflexivity].
  event_types. cbn -[wrap64 add64 bool_decide]. unfold add64. rewrite !Z.add_0_r, !Z.add_0_l.
  by destruct (bool_decide (_ = DiffOriginAIApplied)).
Qed.

Lemma count_of_cons p r l : Z.of_nat (length (r :: l)) < two64 → count_of p (r :: l) = add_u64 (count_of p [r]) (count_of p l).
Proof.
  intros Hn. unfold count_of, add_u64. cbn [List.filter]. pose proof (filter_length_le p l) as Hl. cbn [length] in Hn.
  rewrite Z.mod_small; destruct (p r); cbn [length] in *; lia.
Qed.
Lemma sum_int64_cons {A} (f : A → Z) r l : sum_int64 f (r :: l) = add64 (sum_int64 f [r]) (sum_int64 f l).
Proof.
  unfold sum_int64, add64. rewrite wrap64_wrap64_add, Z.add_comm, wrap64_wrap64_add. f_equal. unfold sum_of. cbn [foldr]. lia.
Qed.
Lemma totals_of_cons r l : l ≠ [] → Z.of_nat (length (r :: l)) < two64 → totals_of (r :: l) = add_totals (row_totals (event_row r)) (totals_of l).
Proof.
  intros Hl Hn. rewrite <-totals_of_one. unfold totals_of, add_totals. cbn [Total_Events Prompts AIResponses Runs RunsSucceeded Diffs AIAppliedDiffs LinesAdded LinesRemoved FirstAt LastAt].
  f_equal; try by apply count_of_cons. 1, 2: apply sum_int64_cons.
  - exact (min_of_cons Row_OccurredAt r l Hl).
  - exact (max_of_cons Row_OccurredAt r l Hl).
Qed.

Context (any_order : list ActivityRow → list ActivityRow).
Hypothesis any_order_perm : ∀ l, any_order l ≡ₚ l.

Lemma merged_perm {K S} `{Countable K} (combine : S → S → S) `{!Combines combine} (a b : list (K * S)) : a ≡ₚ b → merged combine a = merged combine b.
Proof. intros Hp. apply map_eq. intros k. rewrite !(merged_lookup combine). by apply merged_of_perm. Qed.

(** A row of the query, by its group. *)
Definition coarse : string * EventType * string → option string := λ '(i, _, _), Some i.
Definition read_group (k : string * EventType * string) (a : Activity) : Totals := row_totals (mkActivityRow k.1.1 k.1.2 k.2 a).
Lemma read_group_add k a b : read_group k (add_activity a b) = add_totals (read_group k a) (read_group k b).
Proof.
  destruct k as [[i ty] d], a as [ea la ra fa ga], b as [eb lb rb fb gb].
  unfold read_group, row_totals, new_totals, add_row, count_row, add_totals, add_activity, before, after. cbn. rewrite !Z.ltb_irrefl.
  repeat case_bool_decide; cbn; f_equal; unfold add_u64, add64; rewrite ?Z.add_0_l; rewrite <-?Zplus_mod, ?Zmod_mod; try done;
    rewrite ?wrap64_wrap64_add, ?(Z.add_comm _ (wrap64 _)), ?wrap64_wrap64_add; try (f_equal; lia).
  all: by rewrite wrap64_id by apply wrap64_range; rewrite Z.add_comm.
Qed.

Lemma activity_query_totals company d a b : holds d a b → Z.of_nat (length a) < two64 →
  map_to_list (sum_rows (activity_query any_order company b)) ≡ₚ
  map (λ id, (id, totals_of (List.filter (of_interview company id) a))) (remove_dups (map Row_InterviewID (List.filter (of_company company) a))).
Proof.
  intros H Hn. rewrite sum_rows_merged. unfold activity_query.
  set (rows := omap (regroup (activity_of company) (λ _ a, a)) (activity b)).
  set (rows' := omap (regroup (activity_of company) (λ _ a, a)) (map activity_row a)).
  assert (E : merged add_activity rows = merged add_activity rows')
    by apply (merged_regroup_same add_activity add_activity (activity_of company) (λ _ a, a) (λ _ _ _, eq_refl) _ _ (holds_activity _ _ _ H)).
  rewrite (merged_perm add_totals _ (omap (regroup coarse read_group) (map_to_list (merged add_activity rows)))).
  2: { rewrite any_order_perm, map_map. erewrite <-(omap_map id _ _ (map_to_list (merged add_activity rows))); [|intros [[[i ty] dt] x]; reflexivity].
       rewrite map_id. apply Permutation_refl'. generalize (map_to_list (merged add_activity rows)). intros l.
       symmetry. induction l as [|[[[i ty] dt] x] l IH]; [done|]. cbn in *. by rewrite IH. }
  rewrite E, (merged_regroup add_activity add_totals coarse read_group read_group_add).
  set (key r := if of_company company r then Some (Row_InterviewID r) else None).
  assert (Ek : omap (regroup coarse read_group) rows' =
    omap (contribution key (λ r, row_totals (event_row r))) a).
  { unfold rows'. rewrite omap_omap. apply omap_map. intros r. unfold regroup, contribution, key, of_company. cbn. by case_bool_decide. }
  rewrite Ek, (grouped_list add_totals key (λ r, row_totals (event_row r)) totals_of totals_of_one totals_of_cons _ Hn).
  rewrite (omap_filter (of_company company) Row_InterviewID key) by done.
  apply Permutation_refl', map_ext. intros id. do 2 f_equal. apply filter_ext. intros r. unfold has_key, key, of_interview.
  destruct (of_company company r); cbn; [|by rewrite bool_decide_eq_false_2]. apply bool_decide_ext. split; [by intros [= ->]|by intros ->].
Qed.
Lemma Summarize_spec company d a b : holds d a b → Z.of_nat (length a) < two64 →
  Summarize (activity_query any_order company b) = summary company a.
Proof.
  intros H Hn. unfold Summarize, summary. symmetry. apply sort_stable_unique.
  - exact recent_trans.
  - exact recent_asym.
  - intros x y Hx Hy H1 H2. pose proof (recent_id _ _ H1 H2) as Hk. apply list_elem_of_In, in_map_iff in Hx as (k & <- & _).
    apply list_elem_of_In, in_map_iff in Hy as (k' & <- & _). cbn in Hk. by subst k'.
  - rewrite (activity_query_totals company d a b H Hn), map_map. done.
Qed.
End Summaries.

(** ** The routes (dashboard.go) *)
Inductive response :=
  | DashFailed (e : ErrorBody)
  | OverviewOf (since : string) (days : Z) (daily : list DailyCount) (totals : gmap string Z)
  | InterviewsOf (interviews : list InterviewActivity)
  | TimelineOf (events : list Event).

(** The views, the events table and the database behind the handler. *)
Record DashWorld := mkDashWorld { board : Board; log : list Row; database : DB }.

Section Routes.
Context `{ch : ClickHouse} `{uuids : UuidLib} (any_order : list ActivityRow → list ActivityRow).

Definition on_board {A} (m : M Board A) : M DashWorld A := λ fs w,
  let '(r, fs, b) := m fs (board w) in (r, fs, mkDashWorld b (log w) (database w)).
Definition on_events {A} (m : M (list Row) A) : M DashWorld A := λ fs w,
  let '(r, fs, rows) := m fs (log w) in (r, fs, mkDashWorld (board w) rows (database w)).
Definition on_database {A} (m : M DB A) : M DashWorld A := λ fs w,
  let '(r, fs, d) := m fs (database w) in (r, fs, mkDashWorld (board w) (log w) d).
Definition failed (status : Z) (code : string) : M DashWorld response := mret (DashFailed (mkErrorBody status code)).
(** Any error of [m] is answered with the same status and code. *)
Definition or_fail {A} (status : Z) (code : string) (m : M DashWorld A) (f : A → M DashWorld response) : M DashWorld response := λ fs w,
  match m fs w with
  | (Err _, fs, w) => failed status code fs w
  | (Ok a, fs, w) => f a fs w
  end.

Definition defaultDays : Z := 14.
Definition maxDays : Z := 90.
(** The query parameter [days]. *)
Definition parse_days (raw : string) : option Z :=
  if bool_decide (raw = ""%string) then Some defaultDays
  else match ParseInt raw with
       | Some n => if (n <? 1) || (maxDays <? n) then None else Some n
       | None => None
       end.
Definition sum_types (counts : list DailyCount) : gmap string Z :=
  foldl (λ totals c, <[Daily_EventType c := add_u64 (default 0 (totals !! Daily_EventType c)) (Daily_Events c)]> totals) ∅ counts.
Definition since_of (now : time) (days : Z) : time := (now / day) * day - (days - 1) * day.

Definition Overview (now : time) (p : Principal) (raw_days : string) : M DashWorld response :=
  match parse_days raw_days with
  | None => failed 400 "invalid_days"
  | Some n =>
      let since := since_of now n in
      or_fail 503 "dashboard_unavailable" (on_board (DailyEvents (Principal_CompanyID p) since)) (λ counts,
        mret (OverviewOf (format_date since) n counts (sum_types counts)))
  end.
Definition Interviews (p : Principal) : M DashWorld response :=
  or_fail 503 "dashboard_unavailable" (on_board (ActivityRows any_order (Principal_CompanyID p))) (λ rows,
    mret (InterviewsOf (Summarize rows))).
Definition ReplayTimeline (p : Principal) (id raw_after : string) : M DashWorld response :=
  match uuid_Parse id with
  | None => failed 400 "invalid_id"
  | Some interview =>
      match parseAfterSeq raw_after with
      | Err _ => failed 400 "invalid_after_seq"
      | Ok after => λ fs w,
          match on_database (AdminStore.ReplayAccess (Principal_CompanyID p) interview) fs w with
          | (Err e, fs, w) =>
              if errors_is e ErrNotFound then failed 404 "not_found" fs w
              else if errors_is e ErrReplayDisabled then failed 403 "replay_disabled" fs w
              else failed 503 "access_unavailable" fs w
          | (Ok _, fs, w) =>
              or_fail 503 "timeline_unavailable" (on_events (Timeline (Principal_CompanyID p) interview after)) (λ events,
                mret (TimelineOf events)) fs w
          end
      end
  end.

(** [Mount]: the three routes behind the Admin API's authentication. *)
Inductive route := GetOverview (days : string) | GetInterviews | GetTimeline (id after_seq : string).
Definition permission_of (r : route) : Permission :=
  match r with GetOverview _ | GetInterviews => PermAnalyticsRead | GetTimeline _ _ => PermInterviewsRead end.
Definition handler_of (now : time) (r : route) (p : Principal) : M DashWorld response :=
  match r with
  | GetOverview days => Overview now p days
  | GetInterviews => Interviews p
  | GetTimeline id after_seq => ReplayTimeline p id after_seq
  end.
Definition Mount (resolver : Resolver) (now : time) (r : route) : Request → M DashWorld response :=
  let WriteError e := mret (DashFailed e) : M DashWorld response in
  Middleware WriteError (Resolve resolver) (Require WriteError (permission_of r) (λ ctx _,
    match ctx with Some p => handler_of now r p | None => WriteError (mkErrorBody 401 "unauthorized") end)).
End Routes.

(** ** The dashboards show the events *)
Section Shows.
Context `{ch : ClickHouse} `{uuids : UuidLib} (any_order : list ActivityRow → list ActivityRow).
Hypothesis any_order_perm : ∀ l, any_order l ≡ₚ l.

Lemma table_answer {A} name (f : Board → A) fs b :
  (from_table name f fs b).1.1 = Ok (f b) ∨ (∃ e, (from_table name f fs b).1.1 = Err e) ∧ (name ∈ created b → fs ≠ []).
Proof.
  unfold from_table, stmt. case_bool_decide; [|right; split; [destruct fs as [|[] fs]; cbn; eauto|done]].
  destruct fs as [|[] fs]; cbn; eauto.
Qed.
Lemma or_fail_answer {A} status code (m : M DashWorld A) (f : A → response) fs w a (P : Prop) :
  (m fs w).1.1 = Ok a ∨ (∃ e, (m fs w).1.1 = Err e) ∧ (P → fs ≠ []) →
  let r := result_of (or_fail status code m (λ a, mret (f a))) fs w in
  (r = Ok (f a) ∨ r = Ok (DashFailed (mkErrorBody status code))) ∧ (fs = [] → P → r = Ok (f a)).
Proof.
  unfold result_of, or_fail. destruct (m fs w) as [[r fs'] w']. cbn. intros [->|[[e ->] Hf]]; cbn; [auto|].
  split; [by right|]. intros -> HP. by destruct (Hf HP).
Qed.

(** admin-api serves after an [EnsureViews] that returned no error. *)
Definition ensured (ops : list board_op) : Prop := ∃ before fs after, ops = before ++ Ensured fs :: after ∧
  result_of EnsureViews fs (board_history before new_board) = Ok ().
Lemma run_ddl_creates ddl fs b fs' b' : run_ddl ddl fs b = (Ok (), fs', b') → created b ⊆ created b' ∧ ∀ name, name ∈ ddl → name ∈ created b'.
Proof.
  revert fs b. induction ddl as [|n ddl IH]; intros fs b H; cbn [run_ddl] in H; [injection H as <- <-; split; [done|by intros ? ?%elem_of_nil]|].
  apply bind_M_ok in H as ([] & fs1 & b1 & H1%wrapM_ok%exec_ok & H). subst b1. apply IH in H as [Hsub Hin]. cbn in Hsub.
  split; [set_solver|]. intros name [->|Hn]%elem_of_cons; [set_solver|by apply Hin].
Qed.
#[local] Instance created_preorder : PreOrder (λ b b', created b ⊆ created b').
Proof. split; [by intros b|]. intros b1 b2 b3 H12 H23. by etrans. Qed.
Lemma created_grows ops b : created b ⊆ created (board_history ops b).
Proof.
  revert b. induction ops as [|o ops IH]; intros b; [done|]. cbn. etrans; [|apply IH]. destruct o as [block reached|fs| | | |]; try done.
  - cbn. unfold feed. repeat (destruct (_ && _); cbn); done.
  - cbn. revert fs b. change (stays (λ b b', created b ⊆ created b') EnsureViews). unfold EnsureViews.
    induction viewDDL as [|name ddl IHd]; cbn [run_ddl].
    + by intros fs b.
    + apply stays_bind; [exact created_preorder| |intros _; exact IHd].
      apply stays_wrapM, stays_exec; [exact created_preorder|intros b; cbn; set_solver].
Qed.
Lemma ensured_tables ops name : ensured ops → name ∈ viewDDL → name ∈ created (board_history ops new_board).
Proof.
  intros (before & fs & after & -> & Hr) Hn. unfold board_history. rewrite foldl_app. cbn [foldl]. fold (board_history before new_board).
  apply (created_grows after (exec_board (Ensured fs) (board_history before new_board))). cbn [exec_board]. unfold result_of, state_after in *.
  destruct (EnsureViews fs _) as [[r fs'] b'] eqn:E. cbn [fst snd] in *. subst r. apply run_ddl_creates in E as [_ E]. by apply E.
Qed.

Lemma mount_allowed resolver now r req p : Resolve resolver req = Ok p → Principal_Can p (permission_of r) = true →
  Mount any_order resolver now r req = handler_of any_order now r p.
Proof. intros Hr Hc. unfold Mount, Middleware, Require. by rewrite Hr, Hc. Qed.

Definition shown (company : string) (since : time) (rows : list Row) : list DailyCount :=
  map (λ r, mkDailyCount (format_date (r.1.1 * day)) r.1.2 r.2) (days company (toDate since) rows).

Lemma summary_elem company rows ia : ia ∈ summary company rows →
  ia = mkInterviewActivity (IA_InterviewID ia) (totals_of (List.filter (of_interview company (IA_InterviewID ia)) rows)) ∧
  ∃ r, r ∈ rows ∧ of_interview company (IA_InterviewID ia) r = true.
Proof.
  unfold summary. rewrite sort_stable_perm. intros H. apply list_elem_of_In, in_map_iff in H as (id & <- & H). split; [done|]. cbn.
  apply list_elem_of_In, elem_of_remove_dups, list_elem_of_In, in_map_iff in H as (r & <- & H). apply filter_In in H as [Hr Hc].
  exists r. split; [by apply list_elem_of_In|]. unfold of_interview. rewrite Hc. by apply bool_decide_eq_true.
Qed.
Lemma distinct_le {A B} `{EqDecision B} (f : A → B) l : (length (remove_dups (map f l)) ≤ length l)%nat.
Proof. induction l as [|x l IH]; [done|]. cbn. case_decide; cbn; lia. Qed.
Lemma remove_dups_id {A} `{EqDecision A} (l : list A) : NoDup l → remove_dups l = l.
Proof. induction 1 as [|x l Hx _ IH]; [done|]. cbn. case_decide; [done|]. by rewrite IH. Qed.

(** C11: The dashboards show the events.  Through any inserts - with views not
    yet there, inserts that reach only some of the views and redeliveries -,
    any runs of [EnsureViews] that fail anywhere and any background merges, a
    member who may read analytics is shown of each interview of the own company,
    the most recently active first, exactly the totals of the events its view
    was fed, and of each of the last days the count per event type; a failing
    query is a 503, never a partial answer, and once an [EnsureViews] succeeded -
    admin-api does not serve before - only a fault fails a query.  An interview's events are counted
    at least once, and exactly once when none was delivered again. *)
Theorem dashboards_show_the_events resolver now req p ops rows d fs :
  Resolve resolver req = Ok p → Principal_Can p PermAnalyticsRead = true →
  let company := uuid_String (Principal_CompanyID p) in
  let counted := fed DailyView ops new_board in
  let summed := fed ActivityView ops new_board in
  Z.of_nat (length counted) < two64 → Z.of_nat (length summed) < two64 →
  let w := mkDashWorld (board_history ops new_board) rows d in
  let unavailable := Ok (DashFailed (mkErrorBody 503 "dashboard_unavailable")) in
  let interviews := result_of (Mount any_order resolver now GetInterviews req) fs w in
  ((interviews = Ok (InterviewsOf (summary company summed)) ∨ interviews = unavailable) ∧
   (fs = [] → ensured ops → interviews = Ok (InterviewsOf (summary company summed)))) ∧
  (∀ raw n, parse_days raw = Some n →
     let since := since_of now n in
     let answer := Ok (OverviewOf (format_date since) n (shown company since counted) (sum_types (shown company since counted))) in
     let overview := result_of (Mount any_order resolver now (GetOverview raw) req) fs w in
     (overview = answer ∨ overview = unavailable) ∧ (fs = [] → ensured ops → overview = answer)) ∧
  (∀ ia, ia ∈ summary company summed →
     let mine := List.filter (of_interview company (IA_InterviewID ia)) summed in
     let distinct := Z.of_nat (length (remove_dups (map row_key mine))) in
     mine ≠ [] ∧ distinct ≤ Total_Events (IA_Totals ia) ∧ (NoDup (map row_key mine) → Total_Events (IA_Totals ia) = distinct)).
Proof.
  intros Hr Hp company counted summed Hd Ha w unavailable interviews.
  assert (H : holds counted summed (board_history ops new_board)) by (apply (history_holds ops [] [] new_board); [done|done|apply new_holds]).
  split; [|split].
  - subst interviews. rewrite (mount_allowed resolver now GetInterviews req p Hr Hp).
    pose proof (Summarize_spec any_order any_order_perm company counted summed _ H Ha) as <-.
    apply (or_fail_answer 503 "dashboard_unavailable" _ (λ rows, InterviewsOf (Summarize rows)) fs w (activity_query any_order company (board w))).
    unfold on_board, ActivityRows, wrapM. pose proof (table_answer "interview_activity" (activity_query any_order company) fs (board w)) as Hq. fold company.
    destruct (from_table _ _ fs (board w)) as [[r fs'] b]. cbn -[viewDDL] in *. destruct Hq as [->|[[e ->] Hf]]; cbn -[viewDDL]; [by left|right].
    split; [by eexists|]. intros He. apply Hf, (ensured_tables ops); [done|]. by apply list_elem_of_In; cbn; tauto.
  - intros raw n Hn since answer overview. subst overview answer. rewrite (mount_allowed resolver now (GetOverview raw) req p Hr Hp). cbn [handler_of]. unfold Overview. rewrite Hn.
    apply (or_fail_answer 503 "dashboard_unavailable" _ (λ counts, OverviewOf (format_date since) n counts (sum_types counts)) fs w).
    unfold on_board, DailyEvents, wrapM, mbind, M_bind. pose proof (table_answer "company_daily_events" (daily_query company since) fs (board w)) as Hq. fold company.
    destruct (from_table _ _ fs (board w)) as [[r fs'] b]. cbn -[viewDDL] in *. destruct Hq as [->|[[e ->] Hf]]; cbn -[viewDDL]; [left|right].
    + unfold shown. by rewrite (daily_query_spec company since counted summed _ H Hd).
    + split; [by eexists|]. intros He. apply Hf, (ensured_tables ops); [done|]. by apply list_elem_of_In; cbn; tauto.
  - intros ia Hia. apply summary_elem in Hia as (E & r & Hr' & Hc). cbn zeta. rewrite E. cbn [IA_Totals IA_InterviewID Total_Events totals_of].
    set (mine := List.filter _ summed). unfold count_of. rewrite filter_all_true by by apply Forall_forall.
    split_and!; [|by apply Nat2Z.inj_le, distinct_le|].
    + intros En. assert (r ∈ mine) as Hm by by apply elem_of_filter_bool. rewrite En in Hm. by apply not_elem_of_nil in Hm.
    + intros Hnd. by rewrite remove_dups_id, length_map.
Qed.
End Shows.

(** *** The replay timeline *)
Section TimelineRoute.
Context `{ch : ClickHouse} `{uuids : UuidLib} (any_order : list ActivityRow → list ActivityRow).

Lemma scan_timeline_ok l l' : scan_timeline l = Ok l' → l' = l.
Proof.
  revert l'. induction l as [|e l IH]; intros l'; cbn; [by intros [= <-]|]. destruct (json_Valid _); [|done].
  intros (es & Hes & H)%bind_ok. injection H as <-. by rewrite (IH es Hes).
Qed.
Lemma ReplayAccess_ok c i fs d u fs' d' : AdminStore.ReplayAccess c i fs d = (Ok u, fs', d') → interview_policy c i "replay" d = Ok (true, d) ∧ d' = d.
Proof.
  intros (enabled & fs1 & d1 & H & Hr)%bind_M_ok. unfold AdminStore.interviewPolicy in H. apply on_error_ok, stmt_ok in H.
  destruct enabled; [|done]. assert (d1 = d) as ->; [|by injection Hr as _ _ <-]. unfold interview_policy in H.
  destruct (t_interviews _ !! _); [|done]. case_bool_decide; [|done]. by injection H as _ ->.
Qed.

(** A replay timeline is shown only to a member who may read interviews, only of
    an interview of the own company that is not purged, only while the
    company's replay policy is on, and then it is exactly the events of the
    log after the given sequence number. *)
Theorem timeline_guarded resolver now id raw req fs w l fs' w' :
  Mount any_order resolver now (GetTimeline id raw) req fs w = (Ok (TimelineOf l), fs', w') →
  ∃ p interview after i, Resolve resolver req = Ok p ∧ Principal_Can p PermInterviewsRead = true ∧
    uuid_Parse id = Some interview ∧ parseAfterSeq raw = Ok after ∧
    t_interviews (base (database w)) !! (Principal_CompanyID p, interview) = Some i ∧ Interview_PurgedAt i = None ∧
    default true (Policy_Enabled <$> policies (database w) !! (Principal_CompanyID p, "replay"%string)) = true ∧
    l = timeline_query (Principal_CompanyID p) interview after (log w) ∧ w' = w.
Proof.
  intros H. unfold Mount, Middleware in H. destruct (Resolve resolver req) as [p|e]; [|by destruct (errors_is e ErrUnauthenticated)].
  unfold Require in H. destruct (Principal_Can p _) eqn:Hp; [|done]. cbn [negb handler_of] in H. unfold ReplayTimeline in H.
  destruct (uuid_Parse id) as [interview|] eqn:Ei; [|done]. destruct (parseAfterSeq raw) as [after|e] eqn:Ea; [|done].
  unfold on_database in H. destruct (AdminStore.ReplayAccess _ _ fs (database w)) as [[[u|e] fs1] d1] eqn:Er.
  2: { destruct (errors_is e ErrNotFound); [done|]. by destruct (errors_is e ErrReplayDisabled). }
  apply ReplayAccess_ok in Er as [Er ->].
  unfold or_fail, on_events in H. cbn [log board database] in H. destruct (Timeline (Principal_CompanyID p) interview after fs1 (log w)) as [[[events|e] fs2] rows] eqn:Et; [|done].
  injection H as <- _ <-. unfold Timeline in Et. apply bind_M_ok in Et as (found & fs3 & rows3 & Hq & Hs). apply wrapM_ok, query_ok in Hq as [-> ->].
  unfold lift in Hs. injection Hs as Hs _ <-. apply scan_timeline_ok in Hs as ->.
  unfold interview_policy in Er. destruct (t_interviews _ !! _) as [i|] eqn:Et; [|done]. case_bool_decide; [|done]. injection Er as Er.
  exists p, interview, after, i. split_and!; try done. by destruct w.
Qed.
End TimelineRoute.

(** ** Example: five events of an interview, some inserted twice *)
Module Example.
#[local] Instance lib : UuidLib := BinUuid.lib.
#[local] Existing Instance Extraction.clickhouse.
Definition session : Domain.Session := Domain.mkSession 9%N 1%N (Some 3%N) None Domain.SessionStateActive "" 100000000000 None 0 None.
Definition member : Resolver := mkResolver (λ _, Ok session) (λ _ _, Ok RoleViewer) 5000000000.
Definition rows : list Row := Extraction.rows 1.
(** The first run of [EnsureViews] fails before the activity view, so that view
    misses two events; two events are then delivered again. *)
Definition ops : list board_op := [
  Ensured [Done; Done; Fault (Plain "lost")]; Fed (take 2 rows) [DailyView; ActivityView]; Ensured [];
  Fed (drop 2 rows) [DailyView; ActivityView]; Fed (take 3 (drop 2 rows)) [DailyView]; MergedDaily 0 4; MergedActivity 0 1; ClearedDaily 0].
Definition the_board : Board := board_history ops new_board.
Definition no_rows : DB := mkDB (mkTables ∅ ∅ ∅ ∅ ∅ ∅ ∅ [] 0) ∅ ∅ ∅ ∅.
Definition ask (r : route) : response :=
  match result_of (Mount id member (1785000000 * second) r (mkRequest "Bearer token")) [] (mkDashWorld the_board rows no_rows) with
  | Ok r => r
  | Err _ => DashFailed (mkErrorBody 500 "")
  end.
End Example.
Lemma dashboards_show_the_events_witness :
  Example.ask GetInterviews = InterviewsOf (@summary Extraction.clickhouse "h" (drop 2 Example.rows)) ∧
  ∃ counts totals, Example.ask (GetOverview "7") = OverviewOf "2026-07-19" 7 counts totals ∧ map Daily_Events counts = [1; 2; 2; 2; 1].
Proof.
  assert (Hm : Resolve Example.member (mkRequest "Bearer token") = Ok (mkPrincipal 1%N 3%N RoleViewer)) by (vm_compute; reflexivity).
  destruct (@dashboards_show_the_events Extraction.clickhouse Example.lib id (λ l, Permutation_refl l) Example.member (1785000000 * second)
    (mkRequest "Bearer token") _ Example.ops Example.rows Example.no_rows [] Hm) as [[_ Hi] [Ho _]];
    [vm_compute; reflexivity..|]. assert (He : @ensured Extraction.clickhouse Example.ops).
  { exists (take 2 Example.ops), [], (drop 3 Example.ops). split; [reflexivity|vm_compute; reflexivity]. }
  specialize (Hi eq_refl He). destruct (Ho "7"%string 7) as [_ Ho7]; [vm_compute; reflexivity|]. specialize (Ho7 eq_refl He).
  unfold Example.ask, Example.the_board. rewrite Hi, Ho7. split; [vm_compute; reflexivity|].
  do 2 eexists. split; [reflexivity|]. vm_compute. reflexivity.
Defined.
